(* ===== verification/_CoqProject ===== *)
-Q . S2P
Prelude.v
Histogram.v
KVStore.v
CxlMemory.v
Message.v
Ring.v
RingConc.v
RingChannel.v
Transport.v
ConcChannel.v
NodeState.v
Bandle.v
Execute.v
Handlers.v
Stats.v
Typing.v
Replica.v
Submit.v
Cluster.v
Agreement.v
ClusterConc.v
Flow.v
Completion.v
Progress.v
ConcProgress.v
Stop.v
Loops.v
Overrun.v
Text.v
Trace.v
TraceGen.v
StatsFile.v
Floats.v
Report.v
ReportDefined.v
Lifecycle.v
Finish.v
ConcRun.v
Driver.v
Experiment.v
Outcome.v
Layout.v
Startup.v
