(* ===== verification/Prelude.v ===== *)
(** * Bandle: a three-node replicated key-value store over CXL shared memory

    The program (C++ sources under [src/src] and [src/include]) replays a YCSB
    trace on three nodes that share a CXL memory pool.  Every node owns one
    residue class of the log positions ([seq mod 3]); it writes each request of
    its trace, as a proposal, into a single-producer single-consumer ring to
    each of the two other nodes and into its own log, and every node executes
    the log in sequence order on its own copy of the key-value store.  A node
    whose trace has ended proposes no-ops for its positions.

    ** The parts, and where they are modelled

    - [Prelude]: machine words with their wrap-around, buffers and [memcpy],
      power-of-two masks, record update, automation.
    - [Histogram] ([include/latency_histogram.h]): the latency histogram;
      [double] is IEEE binary64.
    - [KVStore] ([src/kv_store.cpp], [include/kv_store.h]): the sharded store
      with its mutexes.  The class [ReplicaStore] is what a replica uses of it,
      [ReplicaStoreLaws] what the replica's theorems rely on; [kv_replica_laws]
      discharges it.
    - [CxlMemory] ([src/cxl_memory.cpp]): the non-temporal copy, in each of its
      builds, and the cache-line flush of the memory pool.
    - [Message] ([include/message_queue.h]): messages, payloads, descriptors;
      [wire] is the part of a message that is transmitted, and messages equal
      on the wire are [equiv].
    - [Ring] ([SpscRingView] of [include/message_queue.h]): the ring over
      coherent descriptors and non-coherent payloads, against an abstract
      bounded queue ([QueueSpec]).  [RingConc] runs its producer and consumer
      at the same time, one memory access at a time, on a machine with store
      buffers, write-combining buffers, half-written descriptors and a cache
      of payloads; [RingChannel] shows that machine to be a queue.
    - [Layout] ([include/message_queue.h], [include/cxl_memory.h]): the shared
      structures as types of the x86-64 ABI, their sizes and addresses.
    - [Transport] ([src/bandle.cpp]: [ring], [send_to_peer], [broadcast],
      [broadcast_batch], [drain_outbox], [drain_source_ring]): the rings between
      the nodes.  The class [Channel] with [ChannelLaws] is what the cluster
      relies on; the rings are an instance.  [ConcChannel] makes the machine of
      [RingConc] another, with a schedule for each operation.
    - [NodeState], [Bandle] ([include/bandle.h], [src/bandle.cpp]): the state
      of a replica and every function that runs under [mu_], in the order of
      the source: preparing, admitting and numbering proposals, the message
      handlers, [advance_execute_locked], the no-ops, the statistics.
    - [Execute]: [advance_execute_locked] against its one-entry-at-a-time
      reference, its termination, and the wake-up of [wait_for_all_pending].
    - [Handlers]: what handlers read of a message, repeated proposals, the
      promise quorum.  [Stats]: the counters and latency histograms.  [Typing]:
      every member and message field stays a value of its C++ type.
    - [Replica]: the invariant of one replica, relative to the proposals
      delivered to it.  [Submit]: the submit path up to the broadcast.
    - [Cluster]: the three replicas, their threads and the channels as a step
      relation, and its invariant.  [Agreement]: what the cluster guarantees,
      an executable scheduler and concrete runs.  [Flow]: how much can be under
      way on a channel.  [Completion]: the client requests, from admission to
      completion.  [Progress]: the cluster can always go on.
    - [ClusterConc]: the same threads and replicas over the rings of
      [RingConc], so that broadcasting and draining are done one memory access
      at a time among all the others; such a machine simulates [Cluster] over
      plain queues.  [ConcProgress]: it can always go on, too.
    - [Stop] ([stop] of [src/bandle.cpp]): nodes that clear [running_] at any
      time, what their threads then drop, and how they end.
    - [Loops] ([src/bandle.cpp]: [submit_borrowed_batch], [propose_noop],
      [proposer_loop], [recv_loop], [recv_source_loop]): the functions of the
      threads put together from the locked regions and the operations on the
      rings, against the steps of [Cluster].  [Overrun]: a run of the cluster
      with a window wider than the log.
    - [Text]: the parts of the C++ library the text formats use ([getline],
      [stoull], [stoi], [operator<<] of integers).
    - [Trace] ([src/main.cpp]): the trace parser, the preload and the replay
      loop that turns a trace into batches of requests.
    - [TraceGen] ([src/bandle_trace_gen.cpp]): splitting one dataset into a
      trace per node.
    - [StatsFile] ([write_stats_csv] of [src/main.cpp],
      [src/bandle_aggregate.cpp]): the statistics file, its parser, and the
      merging of the nodes.  [Report]: the rest of the aggregator, from the
      files to the items it prints; [long double] is the x87 format.
      [Floats] bounds the rounded operations, [ReportDefined] shows that every
      conversion of the report to an integer is defined.
    - [Lifecycle] ([src/main.cpp] from the replay loop to the barrier on
      [node_finished]): the main threads of the three nodes over the steps of
      the cluster.  [Finish]: such a run can always be finished.  [ConcRun]:
      the same runs on the shared memory of [ClusterConc].
    - [Driver] ([src/main.cpp], [start] and [stop] of [src/bandle.cpp]): the
      command line, the checks and the construction before the replay, the
      threads, the file written at the end.
    - [Experiment]: the generator's files replayed by the three drivers.
      [Outcome]: the statistics they write, and what the aggregator makes of
      them.
    - [Startup] ([src/main.cpp] up to the start signal): three processes
      clearing, attaching to and warming up one shared memory.

    A member or array of the source keeps its name as a record field; an array
    is a finite map whose absent cells hold the value-initialised element.  A
    region under a lock is a function on the state, a loop that spins is an
    attempt that may fail, and time-stamp counters, clocks, [std::hash] and the
    scheduler are parameters.

    ** What the theorems show

    - Agreement: the cluster is one replicated state machine; replicas never
      diverge, nothing issued is lost or overwritten, every position is issued
      once, a quiet cluster has converged, and the unlocked read of
      [propose_noop] is harmless.
    - Progress and completion: from every reachable state the cluster can
      execute everything issued ([always_catches_up]); every client request is
      completed exactly once; and when one node has passed the final barrier
      every operation of every trace has been submitted and executed
      ([all_traces_executed]), and so, if the traces are the generator's, every
      operation the driver's parser reads in the lines taken from the dataset
      ([experiment_executes_dataset]).  These are all operations of the dataset
      if its lines are read alike by the two parsers ([read_alike]: a stamp of
      digits, a key without a colon and not empty, a payload that fits); a line
      such as [1,P :v] or [5x,G k] is accepted by the generator and skipped by
      the driver ([parsers_disagree]).  From every
      state a run reaches it can be brought to that barrier
      ([run_can_finish]).
    - What is reported: behind the barrier the statistics of a node count the
      lines of its trace ([statistics_of_trace]), and the summary printed for
      the three files has the numbers of the requests the driver reads in the
      lines of the dataset ([experiment_report]).
    - The shared memory: if payloads are kept coherent, that is if a
      non-temporal store invalidates the line another core has cached, all this
      holds with every access of every thread to the rings interleaved with the
      others and delayed in store buffers: the cluster over the machines of [RingConc] refines the cluster over
      queues ([concurrent_cluster_refines]), its replicas agree
      ([concurrent_replicas_agree]) and it can always catch up
      ([concurrent_cluster_catches_up]).  So whole runs there execute all traces
      ([concurrent_traces_executed]), can always be finished
      ([concurrent_run_can_finish]), and end in the summary of the dataset
      ([concurrent_experiment_report]).  Each of these theorems has the condition
      as a hypothesis, [coherent = true].  The source calls the memory of the
      payloads non-coherent and flushes no line before it reads one; on memory
      without the invalidation an old payload can be delivered
      ([stale_payload_read]) and replicas can diverge
      ([incoherent_replicas_diverge]).
    - Shutdown: a node may stop at any time without making replicas disagree
      ([stopping_is_safe]), and the threads it joins end ([stop_returns]).
    - Threads: a sender never waits for a receiver ([broadcast_never_waits]);
      submitting, proposing no-ops and receiving, as the threads do them, are
      sequences of the steps the other theorems are about, and one receive
      thread does what one per source do, given a round for every message: the
      rings are empty, and position, store and log are the same
      ([receive_modes_agree]).
    - From the command line to the cluster: options mean the same in any order,
      and three drivers with bounded windows establish the configuration and
      the initial state the theorems above assume ([driver_establishes_run]).
      With a run id and the start signal no message is lost while the processes
      come up; without the signal one can be damaged.
    - Replica: a replica executes the longest gapless prefix of what it
      received, whatever the order of arrival; the batched execution loop is
      the iterated execution of one entry, and terminates; completions are
      counted once and the statistics add up; promises decide at a quorum;
      members keep their types.
    - Transport: the ring is a bounded FIFO queue, a broadcast reaches every
      peer or none, the padded non-temporal store stays inside the slot, which
      is aligned and disjoint from every other.  With producer and consumer
      interleaved access by access the ring is still a queue whose messages
      arrive complete and in order ([concurrent_ring_is_channel]) and can
      always be emptied ([concurrent_ring_drains]), on the same condition.
    - Store: every operation refines the operation on the whole map, the lock
      discipline of a batch, snapshots.
    - Histogram: the accuracy and monotonicity of the buckets, merging,
      quantiles.
    - Text formats: trace lines and statistics files survive being written and
      read; the replay submits each valid line once and in order; the
      generator splits a dataset without loss, in order and evenly, and the
      driver reads such a line as the generator did if its stamp is all digits
      and its key not empty and without a colon; the aggregator reports the latencies of all samples
      and the longest run, and converts no number that does not fit
      ([report_printed]).
    - Memory pool: the copy is exact up to the padding of its last word, the
      same in every build, and a flush reaches exactly the lines of its range.

    ** Bounds and fuel

    [advance_execute_locked] runs with one round more than the log has cells:
    every round but the last clears a decided cell, so the fuel is never used
    up ([advance_steps]).  [handle_chunks] and [chunks_of] get the length of
    their list.  [drain_loop] gets any positive fuel: one read suffices
    ([drain_takes_oldest]).  The loops of [nt_memcpy] and [clflush] get more
    rounds than bytes, [lines_of] more than characters; [print_digits] gets the
    20 digits of the largest word.  Sequence numbers are words; the cluster theorems
    assume [no_overflow], fewer than [2 ^ 60] proposals per node, and
    [config_ok], windows of at most 32766 positions, for which the log of 65536
    cells is large enough (the defaults are 192 and 32).  The program does not
    check the window: with one of 70000 a replica can lose a proposal it has
    received ([wide_window_loses_proposal]).

    The concurrent ring assumes fewer than [2 ^ 63] slots; [ids_fit] of
    [Completion] bounds the requests of a node by the 56 bits of their ids.  The
    report assumes that the clocks a node writes into its file are words
    ([times_fit]).
    [always_catches_up] asks for fewer than [2 ^ 59] proposals per node, so
    that the no-ops it adds stay below [2 ^ 60]; [run_can_finish] and
    [concurrent_run_can_finish] for as much room in the request ids as the rest
    of the run can need ([room_left]).
    [drain_source] of [Loops] gets one round more than the ring holds messages,
    after which it is empty.  [settle] of [ConcChannel] gets the [work] that is
    left to do in a ring, which every scheduled move reduces.  A report is printed for fewer than [2 ^ 64]
    samples.

    ** Not modelled

    CPU pinning, spinning and sleeping, and the clocks themselves; what the
    operating system does for [open], [mmap] and files, which are their contents
    here; how a stream prints a floating-point number, and the messages on the
    console of the driver and the generator.  [stop] is a function on the set of
    threads in [Driver]; in [Cluster] and [Lifecycle] [running_] stays set,
    since [stop] is called after the final barrier, and [Stop] has the flags.
    In [Stop] a check of [running_] and the push that follows are one step: the
    flag may be cleared between them, as if after both.  In [Transport] and
    [Cluster] an operation on a ring is one step; [RingConc], [RingChannel] and
    [ClusterConc] are the justification, on the store order x86 documents
    ([sfence] completes the non-temporal stores before it, ordinary stores
    become visible in order).  The producer of [RingConc] starts only batches
    whose messages fit a slot: the submit path and the no-ops build no other
    ([proposal_carries_request]), and what the code does with one that does not
    fit is in [Ring] and [Transport]. *)
From Stdlib Require Export ZArith Lia Ascii.
From stdpp Require Export base numbers list gmap strings.
#[global] Open Scope Z_scope.
#[global] Set Default Goal Selector "!".

(** * Bytes

    A C++ [char] buffer, [std::string] or [std::string_view] is the list of
    its characters. *)
Abbreviation bytes := (list ascii).

(** The characters of a literal. *)
Definition str (s : string) : bytes := String.list_ascii_of_string s.
Arguments str s%_string_scope.

(** * Machine integers

    [uint64_t], [uint32_t] and [uint8_t] values are integers kept in range by
    an explicit wrap-around. *)
Definition w64 (x : Z) : Z := x mod 2 ^ 64.
Definition w32 (x : Z) : Z := x mod 2 ^ 32.
Definition w8 (x : Z) : Z := x mod 2 ^ 8.

Declare Scope word_scope.
Delimit Scope word_scope with word.
Notation "x +₆₄ y" := (w64 (x + y)) (at level 50, left associativity) : word_scope.
Notation "x -₆₄ y" := (w64 (x - y)) (at level 50, left associativity) : word_scope.
Notation "x *₆₄ y" := (w64 (x * y)) (at level 40, left associativity) : word_scope.
Notation "x <<₆₄ y" := (w64 (Z.shiftl x y)) (at level 48, left associativity) : word_scope.
#[global] Open Scope word_scope.

(** [int]: 32-bit two's complement. *)
Definition i32 (x : Z) : Z := (x + 2 ^ 31) mod 2 ^ 32 - 2 ^ 31.

Definition UINT64_MAX : Z := 2 ^ 64 - 1.

(** [is_u64 x]: [x] is the value of a [uint64_t]. *)
Definition is_u64 (x : Z) : Prop := 0 ≤ x < 2 ^ 64.

#[export] Instance is_u64_dec x : Decision (is_u64 x).
Proof. unfold is_u64. apply _. Defined.

Create HintDb bandle discriminated.
Create Rewrite HintDb bandle_wrap.

(** Linear arithmetic over wrapped words: the wraps become divisions with a
    constant divisor, which [lia] eliminates. *)
Ltac word_lia :=
  unfold w64, w32, w8, is_u64, UINT64_MAX in *;
  Z.to_euclidean_division_equations; lia.

Lemma w64_range x : is_u64 (w64 x).
Proof. unfold is_u64, w64. apply Z.mod_pos_bound. lia. Qed.

Lemma w64_small x : is_u64 x → w64 x = x.
Proof. unfold is_u64, w64. apply Z.mod_small. Qed.

Lemma w64_idemp x : w64 (w64 x) = w64 x.
Proof. apply w64_small, w64_range. Qed.

Lemma w64_add_l x y : w64 (w64 x + y) = w64 (x + y).
Proof. apply Zplus_mod_idemp_l. Qed.

Lemma w64_add_r x y : w64 (x + w64 y) = w64 (x + y).
Proof. apply Zplus_mod_idemp_r. Qed.

Lemma w64_sub_l x y : w64 (w64 x - y) = w64 (x - y).
Proof. apply Zminus_mod_idemp_l. Qed.

Lemma w64_sub_r x y : w64 (x - w64 y) = w64 (x - y).
Proof. apply Zminus_mod_idemp_r. Qed.

#[export] Hint Rewrite w64_idemp w64_add_l w64_add_r w64_sub_l w64_sub_r : bandle_wrap.
#[export] Hint Resolve w64_range w64_small : bandle.

(** Case analysis on the test of a conditional in the goal. *)
Ltac case_if := match goal with |- context [if ?b then _ else _] => destruct b end.

(** ** Buffers

    [memcpy_at dst off src] is [memcpy(dst + off, src, |src|)]. *)
Definition memcpy_at {A} (dst : list A) (off : nat) (src : list A) : list A :=
  take off dst ++ src ++ drop (off + length src) dst.

Lemma length_memcpy_at {A} (dst : list A) off src :
  (off + length src ≤ length dst)%nat → length (memcpy_at dst off src) = length dst.
Proof. intros. unfold memcpy_at. rewrite !length_app, length_take, length_drop. lia. Qed.

Lemma take_memcpy_at_0 {A} (dst : list A) src n :
  n = length src → take n (memcpy_at dst 0 src) = src.
Proof. intros ->. unfold memcpy_at. rewrite take_0, app_nil_l. by rewrite take_app_length. Qed.

Lemma take_memcpy_at_before {A} (dst : list A) off src :
  (off ≤ length dst)%nat → take off (memcpy_at dst off src) = take off dst.
Proof. intros. unfold memcpy_at. by rewrite take_app_length' by (rewrite length_take; lia). Qed.

Lemma drop_memcpy_at {A} (dst : list A) off src n :
  (off ≤ length dst)%nat → n = length src → take n (drop off (memcpy_at dst off src)) = src.
Proof.
  intros ? ->. unfold memcpy_at. rewrite drop_app_length' by (rewrite length_take; lia).
  by rewrite take_app_length.
Qed.

(** Extending a copied prefix by the next block of the source. *)
Lemma memcpy_at_extend {A} (data dst : list A) off n :
  (off + n ≤ length data)%nat → (off + n ≤ length dst)%nat →
  memcpy_at (take off data ++ drop off dst) off (take n (drop off data)) =
  take (off + n) data ++ drop (off + n) dst.
Proof.
  intros Hd Hs. unfold memcpy_at. rewrite length_take, length_drop.
  replace (n `min` (length data - off))%nat with n by lia.
  rewrite take_app_le by (rewrite length_take; lia).
  rewrite take_take, Nat.min_id. rewrite drop_app_ge by (rewrite length_take; lia).
  rewrite length_take, drop_drop. rewrite app_assoc. f_equal; [|f_equal; lia].
  by rewrite <- take_take_drop.
Qed.

(** ** Power-of-two masks *)
Lemma land_pred_pow2 c : 0 < c → Z.land c (c - 1) = 0 → ∃ k, 0 ≤ k ∧ c = 2 ^ k.
Proof.
  intros Hc Hl. exists (Z.log2 c). split; [apply Z.log2_nonneg|].
  pose proof (Z.log2_spec c Hc) as Hs. destruct (decide (c = 2 ^ Z.log2 c)); [done|exfalso].
  assert (Z.log2 (c - 1) = Z.log2 c) as Hlog.
  { apply Z.log2_unique; [apply Z.log2_nonneg|]. lia. }
  assert (0 < c - 1) by (pose proof (Z.pow_pos_nonneg 2 (Z.log2 c)); pose proof (Z.log2_nonneg c); lia).
  assert (Z.testbit (Z.land c (c - 1)) (Z.log2 c) = true) as Hb.
  { rewrite Z.land_spec, Z.bit_log2 by done. rewrite <- Hlog. by apply Z.bit_log2. }
  rewrite Hl, Z.bits_0 in Hb. done.
Qed.

Lemma land_mask_mod x k : 0 ≤ k → Z.land x (2 ^ k - 1) = x mod 2 ^ k.
Proof. intros Hk. rewrite <- Z.land_ones by done. f_equal. by rewrite Z.ones_equiv, Z.sub_1_r. Qed.

Lemma w64_mod_pow2 x k : 0 ≤ k ≤ 64 → w64 x mod 2 ^ k = x mod 2 ^ k.
Proof.
  intros Hk. unfold w64. apply Z.mod_mod_divide.
  exists (2 ^ (64 - k)). rewrite <- Z.pow_add_r by lia. f_equal. lia.
Qed.

(** Two positions of a window shorter than the modulus have distinct
    residues. *)
Lemma mod_window_inj c a b : 0 < c → Z.abs (a - b) < c → a mod c = b mod c → a = b.
Proof.
  intros Hc Hab Hm.
  pose proof (Z.div_mod a c ltac:(lia)). pose proof (Z.div_mod b c ltac:(lia)).
  assert (a - b = c * (a / c - b / c)) as Hd by lia.
  assert (a / c - b / c = 0) by nia. lia.
Qed.

(** A [Forall] over a literal list, each instance by evaluation. *)
Ltac eval_forall :=
  repeat (apply List.Forall_cons; [by vm_compute|]); by apply List.Forall_nil.

(** The instances of a [Forall] over a literal list, one by one, as hypotheses
    and as goals. *)
Ltac split_words :=
  repeat match goal with
  | H : Forall _ (_ :: _) |- _ => apply Forall_cons in H as [? H]
  | H : Forall _ [] |- _ => clear H
  end.
Ltac solve_words := repeat (apply Forall_cons; split); [..|by apply Forall_nil].

(** ** Record update

    [r <| f := v |>] is [r] with field [f] replaced by [v]. *)
Class Setter {R T} (proj : R → T) := set_field : T → R → R.
Arguments set_field {R T} proj {_} _ _ /.
Notation "r <| proj := v |>" := (set_field proj v r)
  (at level 1, left associativity, proj at level 0, v at level 200).

(** [solve_setter proj eta]: the update of field [proj] of a record whose
    eta-expansion is [eta]. *)
Ltac solve_setter proj eta :=
  let v := fresh "v" in let r := fresh "r" in intros v r;
  let e := eval red in (eta r) in
  let p := constr:(proj r) in
  match eval pattern p in e with
  | ?g _ => let t := eval cbv beta in (g v) in exact t
  end.
