(* ===== verification/Histogram.v ===== *)
(** The latency histogram of [include/latency_histogram.h]: 64 octaves of 16
    sub-buckets.  The array [counts_] is a list of length [BUCKETS]; the
    samples are [uint64_t] values.  Each definition follows the method of the
    same name; the theorems show that the bucket of a sample is in range and
    close to the sample, that the bucket order is the sample order, and that
    merging histograms is recording the concatenated samples. *)
From Stdlib Require Import SpecFloat.
From S2P Require Import Prelude.

Definition SUB_BUCKETS : Z := 16.
Definition MAX_EXP : Z := 63.
Definition BUCKETS : Z := (MAX_EXP + 1) * SUB_BUCKETS.

(** [class LatencyHistogram]: [counts_] and [total_]. *)
Record LatencyHistogram := {
  counts_ : list Z;
  total_ : Z
}.

(** [LatencyHistogram()]: [counts_.fill(0)]. *)
Definition empty_histogram : LatencyHistogram :=
  {| counts_ := replicate (Z.to_nat BUCKETS) 0; total_ := 0 |}.

(** [__builtin_clzll], for a nonzero argument. *)
Definition clzll (v : Z) : Z := 63 - Z.log2 v.

(** [index_for]. *)
Definition index_for (value : Z) : Z :=
  if value =? 0 then 0 else
  let exp := 63 - clzll value in
  let exp := if exp <? 0 then 0 else if exp >? MAX_EXP then MAX_EXP else exp in
  let base := if exp =? 0 then 1 else 1 <<₆₄ exp in
  let next := if exp =? MAX_EXP then UINT64_MAX else base <<₆₄ 1 in
  let width := if next >? base then (next -₆₄ base) / SUB_BUCKETS else 1 in
  let width := if width =? 0 then 1 else width in
  let off := if value <=? base then 0 else value -₆₄ base in
  let sub := i32 (off / width) in
  let sub := if sub >=? SUB_BUCKETS then SUB_BUCKETS - 1 else sub in
  exp * SUB_BUCKETS + sub.

(** [bucket_lower_value]. *)
Definition bucket_lower_value (idx : Z) : Z :=
  if idx <=? 0 then 0 else
  let exp := Z.quot idx SUB_BUCKETS in
  let sub := Z.rem idx SUB_BUCKETS in
  let exp := if exp <? 0 then 0 else if exp >? MAX_EXP then MAX_EXP else exp in
  let base := if exp =? 0 then 1 else 1 <<₆₄ exp in
  let next := if exp =? MAX_EXP then UINT64_MAX else base <<₆₄ 1 in
  let width := if next >? base then (next -₆₄ base) / SUB_BUCKETS else 1 in
  let width := if width =? 0 then 1 else width in
  base +₆₄ (sub *₆₄ width).

(** [counts_[idx] += cnt] and [total_ += cnt] on 64-bit counters. *)
Definition bump (idx cnt : Z) (h : LatencyHistogram) : LatencyHistogram :=
  {| counts_ := alter (fun c => c +₆₄ cnt) (Z.to_nat idx) (counts_ h);
     total_ := total_ h +₆₄ cnt |}.

(** [record]. *)
Definition record (value : Z) (h : LatencyHistogram) : LatencyHistogram :=
  bump (index_for value) 1 h.

(** [add_bucket]. *)
Definition add_bucket (idx cnt : Z) (h : LatencyHistogram) : LatencyHistogram :=
  if (cnt =? 0) || (idx <? 0) || (idx >=? BUCKETS) then h else bump idx cnt h.

(** [merge]. *)
Definition merge (h other : LatencyHistogram) : LatencyHistogram :=
  {| counts_ := zip_with (fun a b => a +₆₄ b) (counts_ h) (counts_ other);
     total_ := total_ h +₆₄ total_ other |}.

(** ** Quantiles

    [double] is IEEE 754 binary64 (53 bits of precision, emax 1024) with
    round-to-nearest-even, as [SpecFloat] defines it. *)
Definition double_of_u64 (n : Z) : spec_float := binary_normalize 53 1024 n 0 false.

Definition double_zero : spec_float := S754_zero false.
Definition double_one : spec_float := double_of_u64 1.

(** [static_cast<uint64_t>] of a double: truncation, undefined ([None]) when
    the truncated value does not fit. *)
Definition u64_of_double (d : spec_float) : option Z :=
  match d with
  | S754_zero _ => Some 0
  | S754_finite s m e =>
      let mag := if 0 <=? e then Z.pos m * 2 ^ e else Z.pos m / 2 ^ (- e) in
      if s then (if mag =? 0 then Some 0 else None)
      else if mag <=? UINT64_MAX then Some mag else None
  | _ => None
  end.

(** The loop of [quantile_value]: [i] is the index of the head of [cs]. *)
Fixpoint quantile_scan (cs : list Z) (i cum target : Z) : Z :=
  match cs with
  | [] => bucket_lower_value (BUCKETS - 1)
  | c :: cs' =>
      let cum := cum +₆₄ c in
      if cum >=? target then bucket_lower_value i
      else quantile_scan cs' (i + 1) cum target
  end.

(** The clamp of [q] and the computation of [target]. *)
Definition quantile_target (q : spec_float) (total : Z) : option Z :=
  let q := if SFleb q double_zero then double_zero
           else if SFleb double_one q then double_one else q in
  match u64_of_double (SFmul 53 1024 q (double_of_u64 total)) with
  | None => None
  | Some target => Some (if target =? 0 then 1 else target)
  end.

(** [quantile_value]. *)
Definition quantile_value (h : LatencyHistogram) (q : spec_float) : option Z :=
  if total_ h =? 0 then Some 0 else
  match quantile_target q (total_ h) with
  | None => None
  | Some target => Some (quantile_scan (counts_ h) 0 0 target)
  end.

(** ** Geometry of the buckets

    [bucket_width e] is the width of the sub-buckets of octave [e], the value
    [index_for] and [bucket_lower_value] both recompute inline. *)
Definition bucket_width (e : Z) : Z :=
  if e <? 4 then 1 else if e =? MAX_EXP then 2 ^ 59 - 1 else 2 ^ (e - 4).

(** The buckets [index_for] can return: octave [e] below the fourth has only
    [2 ^ e] sub-buckets. *)
Definition live_bucket (idx : Z) : Prop :=
  0 ≤ idx < BUCKETS ∧ (idx / 16 < 4 → idx mod 16 < 2 ^ (idx / 16)).

Lemma octave_check (P : Z → bool) :
  forallb P (seqZ 0 64) = true → ∀ e, 0 ≤ e < 64 → P e = true.
Proof.
  intros Hall e He. rewrite forallb_forall in Hall. apply Hall.
  apply list_elem_of_In. apply elem_of_seqZ. lia.
Qed.

Lemma bucket_width_small e : 0 ≤ e < 4 → bucket_width e = 1.
Proof. intros He. unfold bucket_width. by rewrite (proj2 (Z.ltb_lt e 4)) by lia. Qed.

Lemma bucket_width_mid e : 4 ≤ e < 63 → 16 * bucket_width e = 2 ^ e.
Proof.
  intros He. unfold bucket_width, MAX_EXP.
  rewrite (proj2 (Z.ltb_ge e 4)), (proj2 (Z.eqb_neq e 63)) by lia.
  replace e with (4 + (e - 4)) at 2 by lia. rewrite Z.pow_add_r by lia. lia.
Qed.

Lemma bucket_width_cases e : 0 ≤ e < 64 →
  (e < 4 ∧ bucket_width e = 1 ∧ 2 ^ e ≤ 8) ∨
  (4 ≤ e < 63 ∧ 16 * bucket_width e = 2 ^ e ∧ 16 ≤ 2 ^ e ≤ 2 ^ 62) ∨
  (e = 63 ∧ bucket_width e = 2 ^ 59 - 1).
Proof.
  intros He. destruct (decide (e < 4)); [left | destruct (decide (e = 63)) as [->|]].
  - split; [done|]. split; [apply bucket_width_small; lia|].
    apply (Z.pow_le_mono_r 2 e 3); lia.
  - right; right. done.
  - right; left. split; [lia|]. split; [apply bucket_width_mid; lia|].
    split; [apply (Z.pow_le_mono_r 2 4 e) | apply (Z.pow_le_mono_r 2 e 62)]; lia.
Qed.

(** The inline computation of [base] and [width] for octave [e]. *)
Lemma octave_geometry e : 0 ≤ e < 64 →
  let base := if e =? 0 then 1 else 1 <<₆₄ e in
  let next := if e =? MAX_EXP then UINT64_MAX else base <<₆₄ 1 in
  let width := if next >? base then (next -₆₄ base) / SUB_BUCKETS else 1 in
  base = 2 ^ e ∧ (if width =? 0 then 1 else width) = bucket_width e.
Proof.
  intros He. cbv zeta.
  pose proof (octave_check (fun e =>
    let base := if e =? 0 then 1 else 1 <<₆₄ e in
    let next := if e =? MAX_EXP then UINT64_MAX else base <<₆₄ 1 in
    let width := if next >? base then (next -₆₄ base) / SUB_BUCKETS else 1 in
    (base =? 2 ^ e) && ((if width =? 0 then 1 else width) =? bucket_width e)))
    as Hc.
  specialize (Hc eq_refl e He). cbv zeta in Hc.
  apply andb_true_iff in Hc as [H1%Z.eqb_eq H2%Z.eqb_eq]. done.
Qed.

Lemma log2_octave v : 0 < v < 2 ^ 64 →
  0 ≤ Z.log2 v < 64 ∧ 2 ^ Z.log2 v ≤ v < 2 * 2 ^ Z.log2 v.
Proof.
  intros Hv. pose proof (Z.log2_spec v ltac:(lia)) as Hs.
  pose proof (Z.log2_nonneg v). rewrite Z.pow_succ_r in Hs by done.
  assert (Z.log2 v < 64) by (apply Z.log2_lt_pow2; lia). lia.
Qed.

Lemma pow2_octave e : 0 ≤ e < 64 → 1 ≤ 2 ^ e ≤ 2 ^ 63.
Proof.
  intros He. split; [apply (Z.pow_le_mono_r 2 0 e) | apply (Z.pow_le_mono_r 2 e 63)]; lia.
Qed.

(** [index_for] in closed form. *)
Lemma index_for_closed v : 0 < v < 2 ^ 64 →
  index_for v = Z.log2 v * 16 +
    Z.min 15 ((v - 2 ^ Z.log2 v) / bucket_width (Z.log2 v)).
Proof.
  intros Hv. pose proof (log2_octave v Hv) as [He Hb].
  unfold index_for, clzll. rewrite (proj2 (Z.eqb_neq v 0)) by lia.
  replace (63 - (63 - Z.log2 v)) with (Z.log2 v) by lia. cbv zeta.
  rewrite (proj2 (Z.ltb_ge (Z.log2 v) 0)) by lia.
  rewrite Z.gtb_ltb, (proj2 (Z.ltb_ge MAX_EXP (Z.log2 v))) by (unfold MAX_EXP; lia).
  pose proof (octave_geometry _ He) as Hg. cbv zeta in Hg. destruct Hg as [Hbase Hw].
  rewrite Hw, Hbase. set (e := Z.log2 v) in *.
  pose proof (bucket_width_cases e He) as Hcase.
  assert ((if v <=? 2 ^ e then 0 else v -₆₄ 2 ^ e) = v - 2 ^ e) as ->.
  { destruct (Z.leb_spec v (2 ^ e)); [lia|]. apply w64_small. unfold is_u64. lia. }
  assert (0 ≤ (v - 2 ^ e) / bucket_width e < 32) as Hq.
  { destruct Hcase as [(?&->&?)|[(?&?&?)|(->&->)]].
    - rewrite Z.div_1_r. lia.
    - split; [apply Z.div_pos; lia | apply Z.div_lt_upper_bound; lia].
    - split; [apply Z.div_pos; lia | apply Z.div_lt_upper_bound; lia]. }
  assert (i32 ((v - 2 ^ e) / bucket_width e) = (v - 2 ^ e) / bucket_width e) as ->.
  { unfold i32. rewrite Z.mod_small; lia. }
  unfold SUB_BUCKETS. rewrite Z.geb_leb.
  destruct (Z.leb_spec 16 ((v - 2 ^ e) / bucket_width e)); lia.
Qed.

(** [bucket_lower_value] in closed form: the sum does not wrap. *)
Lemma bucket_lower_closed idx : 0 < idx < BUCKETS →
  bucket_lower_value idx =
    2 ^ (idx / 16) + (idx mod 16) * bucket_width (idx / 16).
Proof.
  unfold BUCKETS, MAX_EXP, SUB_BUCKETS. intros Hi.
  unfold bucket_lower_value, SUB_BUCKETS. rewrite (proj2 (Z.leb_gt idx 0)) by lia.
  rewrite Z.quot_div_nonneg, Z.rem_mod_nonneg by lia. cbv zeta.
  assert (0 ≤ idx / 16 < 64) as He by (split; [apply Z.div_pos | apply Z.div_lt_upper_bound]; lia).
  pose proof (Z.mod_pos_bound idx 16 ltac:(lia)) as Hs.
  rewrite (proj2 (Z.ltb_ge (idx / 16) 0)) by lia.
  rewrite Z.gtb_ltb, (proj2 (Z.ltb_ge MAX_EXP (idx / 16))) by (unfold MAX_EXP; lia).
  pose proof (octave_geometry _ He) as Hg. cbv zeta in Hg. destruct Hg as [Hbase Hw].
  unfold SUB_BUCKETS in Hw. rewrite Hw, Hbase.
  pose proof (pow2_octave _ He). pose proof (bucket_width_cases _ He) as Hcase.
  set (e := idx / 16) in *. set (s := idx mod 16) in *.
  assert (0 ≤ s * bucket_width e ≤ 15 * bucket_width e) by
    (destruct Hcase as [(?&->&?)|[(?&?&?)|(?&->)]]; nia).
  rewrite (w64_small (s * _)) by (unfold is_u64; lia).
  apply w64_small. unfold is_u64. destruct Hcase as [(?&?&?)|[(?&?&?)|(->&?)]]; lia.
Qed.

Lemma bucket_width_pos e : 0 ≤ e < 64 → 1 ≤ bucket_width e.
Proof. intros He. destruct (bucket_width_cases e He) as [?|[?|?]]; lia. Qed.

(** Octave and sub-bucket of a sample's index. *)
Lemma index_for_split v : 0 < v < 2 ^ 64 →
  let e := Z.log2 v in let s := Z.min 15 ((v - 2 ^ e) / bucket_width e) in
  index_for v / 16 = e ∧ index_for v mod 16 = s ∧ 0 ≤ s ≤ 15.
Proof.
  intros Hv e s. pose proof (log2_octave v Hv) as [He Hb].
  assert (0 ≤ s ≤ 15) as Hs.
  { unfold s. assert (0 ≤ (v - 2 ^ e) / bucket_width e); [|lia].
    apply Z.div_pos; [unfold e; lia|]. pose proof (bucket_width_pos e He). lia. }
  rewrite (index_for_closed v Hv). fold e. fold s. split; [|split; [|done]].
  - rewrite Z.div_add_l by lia. rewrite (Z.div_small s) by lia. lia.
  - rewrite Z.add_comm, Z.mod_add by lia. apply Z.mod_small. lia.
Qed.

(** The sub-bucket of a sample, by cases on the octave. *)
Lemma sub_bucket_bounds v : 0 < v < 2 ^ 64 →
  let e := Z.log2 v in let s := Z.min 15 ((v - 2 ^ e) / bucket_width e) in
  s * bucket_width e ≤ v - 2 ^ e ∧
  (s < 15 ∨ e < 63 → v - 2 ^ e < (s + 1) * bucket_width e) ∧
  (e < 4 → s = v - 2 ^ e).
Proof.
  intros Hv e s. pose proof (log2_octave v Hv) as [He Hb]. fold e in He, Hb.
  pose proof (bucket_width_pos e He) as Hw.
  pose proof (Z.div_mod (v - 2 ^ e) (bucket_width e) ltac:(lia)) as Hd.
  pose proof (Z.mod_pos_bound (v - 2 ^ e) (bucket_width e) ltac:(lia)) as Hm.
  set (q := (v - 2 ^ e) / bucket_width e) in *.
  destruct (bucket_width_cases e He) as [(?&Hw1&?)|[(?&?&?)|(He63&?)]].
  - rewrite Hw1 in *. unfold s. lia.
  - assert (q < 16) by (unfold q; apply Z.div_lt_upper_bound; lia).
    replace s with q by (unfold s; lia). split; [nia|]. split; [nia|lia].
  - split; [unfold s; nia|]. split; [|lia].
    intros [|]; [|lia]. replace s with q by (unfold s in *; lia). nia.
Qed.

Lemma index_for_range v : is_u64 v → 0 ≤ index_for v < BUCKETS.
Proof.
  unfold is_u64. intros Hv. destruct (decide (v = 0)) as [->|]; [by vm_compute|].
  assert (0 < v < 2 ^ 64) as Hp by lia. pose proof (index_for_split v Hp) as Hs.
  pose proof (log2_octave v Hp). cbv zeta in Hs. unfold BUCKETS, MAX_EXP, SUB_BUCKETS.
  pose proof (Z.div_mod (index_for v) 16). lia.
Qed.
#[export] Hint Resolve index_for_range : bandle.

Lemma index_for_zero_one v : is_u64 v → index_for v = 0 → v = 0 ∨ v = 1.
Proof.
  unfold is_u64. intros Hv H0. destruct (decide (v = 0)); [by left|right].
  assert (0 < v < 2 ^ 64) as Hp by lia. pose proof (index_for_split v Hp) as Hs.
  pose proof (log2_octave v Hp) as [He Hl].
  cbv zeta in Hs. rewrite H0 in Hs. destruct Hs as (He0&Hs0&_).
  change (0 / 16) with 0 in He0. rewrite <- He0 in Hl. change (2 ^ 0) with 1 in Hl. lia.
Qed.

(** The lower bound of the bucket of a sample, for samples above 1. *)
Lemma bucket_lower_index v : 1 < v < 2 ^ 64 →
  let e := Z.log2 v in
  bucket_lower_value (index_for v) =
    2 ^ e + Z.min 15 ((v - 2 ^ e) / bucket_width e) * bucket_width e.
Proof.
  intros Hv e. pose proof (index_for_split v ltac:(lia)) as (Hq&Hr&_).
  pose proof (index_for_range v ltac:(unfold is_u64; lia)) as Hrange.
  rewrite bucket_lower_closed, Hq, Hr; [done|].
  destruct (decide (index_for v = 0)) as [H0|]; [|lia].
  apply index_for_zero_one in H0; unfold is_u64; lia.
Qed.

(** For every 64-bit sample, [index_for] stays inside [counts_], the bucket
    lower bound does not exceed the sample, and the distance between the two
    is at most one sixteenth of the sample (and at most 1 for the samples 0
    and 1, which share bucket 0). *)
Theorem index_for_accurate (v : Z) (Hv : is_u64 v) :
  0 ≤ index_for v < BUCKETS ∧
  bucket_lower_value (index_for v) ≤ v ∧
  16 * (v - bucket_lower_value (index_for v)) ≤ Z.max 16 v.
Proof.
  split; [by apply index_for_range|]. unfold is_u64 in Hv.
  destruct (decide (v = 0)) as [->|]; [by vm_compute|].
  destruct (decide (v = 1)) as [->|]; [by vm_compute|].
  assert (1 < v < 2 ^ 64) as Hp by lia.
  rewrite (bucket_lower_index v Hp).
  pose proof (sub_bucket_bounds v ltac:(lia)) as (H1&H2&H3).
  pose proof (log2_octave v ltac:(lia)) as [He Hb].
  pose proof (bucket_width_cases (Z.log2 v) He) as Hc.
  set (e := Z.log2 v) in *. set (s := Z.min 15 _) in *.
  split; [lia|]. destruct Hc as [(?&Hw&?)|[(?&?&?)|(He63&Hw)]].
  - rewrite Hw in *. lia.
  - specialize (H2 ltac:(lia)). lia.
  - rewrite Hw in *. rewrite He63 in *.
    destruct (decide (s < 15)); [specialize (H2 ltac:(lia)); lia|].
    assert (s = 15) as Hs15 by lia. rewrite Hs15 in *. lia.
Qed.

Example index_for_accurate_witness :
  index_for 1000 = 159 ∧ bucket_lower_value 159 = 992 ∧
  bucket_lower_value (index_for 1000) ≤ 1000.
Proof.
  split; [reflexivity|]. split; [reflexivity|].
  apply (index_for_accurate 1000). unfold is_u64. lia.
Defined.

(** The bucket order is the sample order. *)
Theorem index_for_monotone (v w : Z) (Hw : is_u64 w) (Hvw : 0 ≤ v ≤ w) :
  index_for v ≤ index_for w.
Proof.
  unfold is_u64 in Hw. destruct (decide (v = 0)) as [->|].
  { change (index_for 0) with 0. apply index_for_range. unfold is_u64. lia. }
  rewrite !index_for_closed by lia.
  pose proof (Z.log2_le_mono v w ltac:(lia)) as Hm.
  pose proof (log2_octave v ltac:(lia)) as [Hv Hbv].
  pose proof (bucket_width_pos _ Hv) as Hwv.
  pose proof (index_for_split w ltac:(lia)) as (_&_&Hs). cbv zeta in Hs.
  destruct (decide (Z.log2 v = Z.log2 w)) as [Heq|]; [|lia].
  rewrite <- Heq in *.
  assert ((v - 2 ^ Z.log2 v) / bucket_width (Z.log2 v) ≤
          (w - 2 ^ Z.log2 v) / bucket_width (Z.log2 v)) by (apply Z.div_le_mono; lia).
  lia.
Qed.

Example index_for_monotone_witness : index_for 100 ≤ index_for 200.
Proof. apply (index_for_monotone 100 200); [unfold is_u64|]; lia. Defined.

(** A bucket's lower bound is a sample of that bucket, for exactly the
    buckets some sample falls in. *)
Theorem index_of_bucket_lower (idx : Z) (Hidx : 0 ≤ idx < BUCKETS) :
  index_for (bucket_lower_value idx) = idx ↔ live_bucket idx.
Proof.
  unfold live_bucket. destruct (decide (idx = 0)) as [->|].
  { split; [|reflexivity]. intros _. split; [done|]. intros _. vm_compute. done. }
  rewrite bucket_lower_closed by lia.
  unfold BUCKETS, MAX_EXP, SUB_BUCKETS in *.
  assert (0 ≤ idx / 16 < 64) as He by (split; [apply Z.div_pos | apply Z.div_lt_upper_bound]; lia).
  pose proof (Z.mod_pos_bound idx 16 ltac:(lia)) as Hs.
  pose proof (Z.div_mod idx 16 ltac:(lia)) as Hdm.
  pose proof (pow2_octave _ He) as Hp. pose proof (bucket_width_cases _ He) as Hc.
  set (e := idx / 16) in *. set (s := idx mod 16) in *.
  assert (0 ≤ s * bucket_width e ≤ 15 * bucket_width e) as Hsw by nia.
  set (v := 2 ^ e + s * bucket_width e).
  assert (0 < v < 2 ^ 64) as Hv by (unfold v; destruct Hc as [?|[?|?]]; lia).
  split.
  - intros Hi. split; [done|]. intros He4.
    pose proof (index_for_split v Hv) as (Hq&_&_). rewrite Hi in Hq. fold e in Hq.
    pose proof (log2_octave v Hv) as [_ Hb]. rewrite <- Hq in Hb.
    unfold v in Hb. rewrite bucket_width_small in Hb by lia. lia.
  - intros [_ Hlive]. assert (Z.log2 v = e) as Hlog.
    { apply Z.log2_unique; [lia|]. rewrite Z.pow_succ_r by lia. unfold v.
      destruct Hc as [(?&Hw&?)|[?|(He63&Hw)]]; [rewrite Hw in *; lia|lia|].
      assert (2 ^ e = 2 ^ 63) by (f_equal; lia). lia. }
    rewrite index_for_closed, Hlog by done. unfold v.
    replace (2 ^ e + s * bucket_width e - 2 ^ e) with (s * bucket_width e) by lia.
    rewrite Z.div_mul by lia. lia.
Qed.

Example index_of_bucket_lower_witness : index_for (bucket_lower_value 159) = 159.
Proof.
  apply (index_of_bucket_lower 159); [by vm_compute|].
  split; [by vm_compute|]. intros Hlt. vm_compute in Hlt. done.
Defined.

(** ** Well-formed histograms and merging *)
Definition zsum (l : list Z) : Z := foldr Z.add 0 l.

Record hist_wf (h : LatencyHistogram) : Prop := {
  wf_length : length (counts_ h) = Z.to_nat BUCKETS;
  wf_counts : Forall is_u64 (counts_ h);
  wf_total : is_u64 (total_ h)
}.

Definition record_all (xs : list Z) (h : LatencyHistogram) : LatencyHistogram :=
  foldl (fun h v => record v h) h xs.

Lemma empty_histogram_wf : hist_wf empty_histogram.
Proof.
  split; [apply length_replicate| |by vm_compute].
  apply Forall_replicate. by vm_compute.
Qed.

Lemma bump_wf i c h : hist_wf h → hist_wf (bump i c h).
Proof.
  intros [Hl Hc Ht]. split; cbn.
  - by rewrite length_alter.
  - apply Forall_alter; [done|]. intros. apply w64_range.
  - apply w64_range.
Qed.

Lemma record_wf v h : hist_wf h → hist_wf (record v h).
Proof. apply bump_wf. Qed.
#[export] Hint Resolve empty_histogram_wf bump_wf record_wf : bandle.

Lemma add_bucket_wf i c h : hist_wf h → hist_wf (add_bucket i c h).
Proof. intros Hh. unfold add_bucket. case_match; auto with bandle. Qed.

Lemma record_all_wf xs h : hist_wf h → hist_wf (record_all xs h).
Proof. unfold record_all. revert h. induction xs; cbn; auto with bandle. Qed.
#[export] Hint Resolve add_bucket_wf record_all_wf : bandle.

Lemma merge_empty_r h : hist_wf h → merge h empty_histogram = h.
Proof.
  intros [Hl Hc Ht]. destruct h as [cs t]. unfold merge. cbn in *. f_equal.
  - apply list_eq. intros i. rewrite lookup_zip_with.
    destruct (cs !! i) as [c|] eqn:Hi; cbn; [|done].
    rewrite lookup_replicate_2 by (rewrite <- Hl; eapply lookup_lt_Some; done).
    cbn. rewrite Z.add_0_r. f_equal. apply w64_small.
    by eapply Forall_lookup_1.
  - rewrite Z.add_0_r. by apply w64_small.
Qed.

Lemma merge_bump h g i c : length (counts_ h) = length (counts_ g) →
  merge h (bump i c g) = bump i c (merge h g).
Proof.
  intros Hl. unfold merge, bump. cbn. f_equal.
  - apply list_eq. intros j. rewrite lookup_zip_with, !list_lookup_alter, !lookup_zip_with.
    case_decide as Hij; [subst j|done].
    destruct (counts_ h !! Z.to_nat i), (counts_ g !! Z.to_nat i); cbn; try done.
    autorewrite with bandle_wrap. do 2 f_equal. lia.
  - autorewrite with bandle_wrap. f_equal. lia.
Qed.

Lemma merge_recorded (xs ys : list Z) :
  merge (record_all xs empty_histogram) (record_all ys empty_histogram) =
  record_all (xs ++ ys) empty_histogram.
Proof.
  unfold record_all at 3. rewrite foldl_app.
  fold (record_all xs empty_histogram). set (h := record_all xs empty_histogram).
  assert (hist_wf h) as Hh by (unfold h; auto with bandle). clearbody h.
  induction ys as [|y ys IH] using rev_ind; [by apply merge_empty_r|].
  unfold record_all. rewrite !foldl_app. cbn.
  fold (record_all ys empty_histogram). unfold record at 1. rewrite merge_bump.
  - rewrite IH. done.
  - rewrite (wf_length _ Hh), wf_length; auto with bandle.
Qed.

(** Merging two histograms is recording the samples of both, so the
    cluster histogram of [bandle_aggregate] is the histogram of all samples. *)
Theorem merge_record_all (xs ys : list Z) :
  merge (record_all xs empty_histogram) (record_all ys empty_histogram) =
  record_all (xs ++ ys) empty_histogram.
Proof. apply merge_recorded. Qed.

(** ** Quantiles of recorded samples *)

(** The samples of bucket [i], and the samples of the buckets before [i]. *)
Definition bucket_count (xs : list Z) (i : Z) : Z :=
  Z.of_nat (length (filter (fun x => index_for x = i) xs)).
Definition rank (xs : list Z) (i : Z) : Z :=
  Z.of_nat (length (filter (fun x => index_for x < i) xs)).

Lemma rank_succ xs i : rank xs (i + 1) = rank xs i + bucket_count xs i.
Proof.
  unfold rank, bucket_count. induction xs as [|x xs IH]; [done|].
  rewrite !filter_cons. repeat case_decide; cbn; lia.
Qed.

Lemma rank_zero xs : Forall is_u64 xs → rank xs 0 = 0.
Proof.
  unfold rank. induction 1 as [|x xs Hx _ IH]; [done|].
  rewrite filter_cons, decide_False; [done|].
  pose proof (index_for_range x Hx). lia.
Qed.

Lemma rank_all xs : Forall is_u64 xs → rank xs BUCKETS = Z.of_nat (length xs).
Proof.
  unfold rank. induction 1 as [|x xs Hx _ IH]; [done|].
  pose proof (index_for_range x Hx).
  rewrite filter_cons, decide_True by lia. cbn. lia.
Qed.

Lemma bucket_count_bound xs i : 0 ≤ bucket_count xs i ≤ Z.of_nat (length xs).
Proof.
  unfold bucket_count. pose proof (length_filter (fun x => index_for x = i) xs). lia.
Qed.

Lemma rank_bound xs i : 0 ≤ rank xs i ≤ Z.of_nat (length xs).
Proof. unfold rank. pose proof (length_filter (fun x => index_for x < i) xs). lia. Qed.

(** The counters of a histogram are the bucket counts of its samples. *)
Lemma record_all_counts xs i : Forall is_u64 xs → 0 ≤ i < BUCKETS →
  Z.of_nat (length xs) < 2 ^ 64 →
  counts_ (record_all xs empty_histogram) !! Z.to_nat i = Some (bucket_count xs i).
Proof.
  intros Hxs Hi. induction xs as [|x xs IH] using rev_ind; intros Hlen.
  - cbn. rewrite lookup_replicate_2 by lia. done.
  - apply Forall_app in Hxs as [Hxs [Hx _]%Forall_cons]. rewrite length_app in Hlen. cbn in Hlen.
    unfold record_all. rewrite foldl_app. cbn. fold (record_all xs empty_histogram).
    rewrite list_lookup_alter. pose proof (index_for_range x Hx) as Hr.
    unfold bucket_count. rewrite filter_app, length_app, filter_cons, filter_nil.
    destruct (decide (index_for x = i)) as [Heq|Hne].
    + rewrite decide_True by lia. rewrite Heq, IH by (auto; lia). cbn.
      pose proof (bucket_count_bound xs i). unfold bucket_count in *. f_equal.
      rewrite w64_small; [|unfold is_u64]; lia.
    + rewrite decide_False by lia. rewrite IH by (auto; lia). cbn. unfold bucket_count.
      f_equal. lia.
Qed.

Lemma record_all_total xs : Z.of_nat (length xs) < 2 ^ 64 →
  total_ (record_all xs empty_histogram) = Z.of_nat (length xs).
Proof.
  induction xs as [|x xs IH] using rev_ind; intros Hlen; [done|].
  rewrite length_app in *. cbn in *. unfold record_all in *. rewrite foldl_app. cbn.
  rewrite IH by lia. rewrite w64_small; [|unfold is_u64]; lia.
Qed.

(** The scan stops at the first bucket whose cumulative count reaches the
    target. *)
Lemma quantile_scan_rank xs i target : Forall is_u64 xs → Z.of_nat (length xs) < 2 ^ 64 →
  0 ≤ i ≤ BUCKETS → rank xs i < target ≤ Z.of_nat (length xs) →
  ∃ j, i ≤ j < BUCKETS ∧ rank xs j < target ≤ rank xs (j + 1) ∧
    quantile_scan (drop (Z.to_nat i) (counts_ (record_all xs empty_histogram)))
      i (rank xs i) target = bucket_lower_value j.
Proof.
  intros Hxs Hlen Hi Ht. remember (Z.to_nat (BUCKETS - i)) as n eqn:Hn.
  revert i Hi Ht Hn. induction n as [|n IH]; intros i Hi Ht Hn.
  - replace i with BUCKETS in Ht by lia. rewrite rank_all in Ht by done. lia.
  - assert (0 ≤ i < BUCKETS) as Hi' by lia.
    rewrite (drop_S _ _ _ (record_all_counts xs i Hxs Hi' Hlen)). cbn.
    pose proof (rank_bound xs i). pose proof (rank_bound xs (i + 1)).
    rewrite <- rank_succ, w64_small by (unfold is_u64; lia).
    rewrite Z.geb_leb. destruct (Z.leb_spec target (rank xs (i + 1))) as [Hle|Hgt].
    + exists i. split; [lia|]. split; [lia|done].
    + destruct (IH (i + 1) ltac:(lia) ltac:(lia) ltac:(lia)) as (j&?&?&Hj).
      exists j. split; [lia|]. split; [done|].
      rewrite <- Hj. do 2 f_equal. lia.
Qed.

Lemma rank_step_sample xs j : rank xs j < rank xs (j + 1) →
  ∃ x, x ∈ xs ∧ index_for x = j.
Proof.
  rewrite rank_succ. unfold bucket_count. intros Hlt.
  destruct (filter (fun x => index_for x = j) xs) as [|x l] eqn:Hf; [cbn in Hlt; lia|].
  assert (x ∈ filter (fun x => index_for x = j) xs) as Hx by (rewrite Hf; left).
  apply list_elem_of_filter in Hx as [??]. eauto.
Qed.

Lemma u64_of_double_nonneg d n : u64_of_double d = Some n → 0 ≤ n.
Proof.
  unfold u64_of_double. intros Hd.
  destruct d as [s|s| |s m e]; simplify_eq; [lia|].
  assert (0 ≤ if 0 <=? e then Z.pos m * 2 ^ e else Z.pos m / 2 ^ (- e)) as Hm.
  { destruct (Z.leb_spec 0 e).
    - pose proof (Z.pow_nonneg 2 e). nia.
    - apply Z.div_pos; [lia|]. apply Z.pow_pos_nonneg; lia. }
  revert Hd Hm. generalize (if 0 <=? e then Z.pos m * 2 ^ e else Z.pos m / 2 ^ (- e)).
  intros mag Hd Hm. repeat case_match; simplify_eq; lia.
Qed.

Lemma quantile_target_pos q total target : quantile_target q total = Some target → 1 ≤ target.
Proof.
  unfold quantile_target. intros Ht.
  destruct (u64_of_double _) as [t|] eqn:Hu; simplify_eq.
  apply u64_of_double_nonneg in Hu. destruct (Z.eqb_spec t 0); lia.
Qed.

(** C37: the quantile of a histogram of fewer than [2^64] samples is the
    bucket lower bound of a sample [x] of that rank: fewer than [target]
    samples lie in the buckets before the bucket of [x] and at least [target]
    in the buckets up to it, where [target] is the rank [quantile_value]
    computes in floating point from [q]. *)
Theorem quantile_is_ranked_sample (xs : list Z) (q : spec_float) (target : Z)
    (Hxs : Forall is_u64 xs) (Hlen : Z.of_nat (length xs) < 2 ^ 64) (Hne : xs ≠ [])
    (Htarget : quantile_target q (Z.of_nat (length xs)) = Some target)
    (Hrank : target ≤ Z.of_nat (length xs)) :
  ∃ x, x ∈ xs ∧
    quantile_value (record_all xs empty_histogram) q =
      Some (bucket_lower_value (index_for x)) ∧
    rank xs (index_for x) < target ≤ rank xs (index_for x + 1).
Proof.
  assert (0 < Z.of_nat (length xs)) by (destruct xs; cbn; [done|lia]).
  pose proof (quantile_target_pos _ _ _ Htarget).
  destruct (quantile_scan_rank xs 0 target) as (j&Hj&Hr&Hs);
    [done..|by vm_compute|rewrite rank_zero by done; lia|].
  destruct (rank_step_sample xs j ltac:(lia)) as (x&Hx&<-).
  exists x. split; [done|]. split; [|done]. unfold quantile_value.
  rewrite record_all_total, Htarget by done.
  rewrite (proj2 (Z.eqb_neq _ 0)) by lia. rewrite rank_zero in Hs by done.
  rewrite <- Hs. done.
Qed.

(** The quantile [0.50] , rounded down to rank 2 of four samples. *)
Definition double_half : spec_float := SFdiv 53 1024 double_one (double_of_u64 2).

Example quantile_is_ranked_sample_witness :
  quantile_target double_half 4 = Some 2 ∧
  ∃ x, x ∈ [10; 20; 30; 40] ∧
    quantile_value (record_all [10; 20; 30; 40] empty_histogram) double_half =
      Some (bucket_lower_value (index_for x)) ∧
    rank [10; 20; 30; 40] (index_for x) < 2 ≤ rank [10; 20; 30; 40] (index_for x + 1).
Proof.
  split; [vm_compute; reflexivity|].
  apply (quantile_is_ranked_sample [10; 20; 30; 40] double_half 2).
  - repeat constructor; lia.
  - reflexivity.
  - discriminate.
  - vm_compute. reflexivity.
  - cbn. lia.
Defined.
