(* ===== verification/KVStore.v ===== *)
(** The sharded key-value store of [include/kv_store.h] and
    [src/kv_store.cpp].  A shard is its map; the store is the list of its
    [kNumShards] shards.  [apply_ops_in_order_progressive] also returns the
    trace of what it does besides updating the maps: the shard mutexes it
    locks and unlocks, the operations it applies and the progress callbacks it
    makes.  The abstract view of a store is one map (what [take_snapshot]
    returns), and the operations refine the map operations. *)
From S2P Require Import Prelude.

(** [std::unordered_map<std::string, std::string, ...>]. *)
Abbreviation MapType := (gmap bytes bytes).

Definition kNumShards : Z := 256.

(** [std::numeric_limits<size_t>::max()], the initial [held_shard]. *)
Definition no_shard : Z := UINT64_MAX.

Record KVStore := { shards_ : list MapType }.

(** [struct ApplyOp]. *)
Record ApplyOp := {
  ao_op : ascii;
  ao_shard : Z;
  ao_key : bytes;
  ao_value : bytes
}.

Inductive kv_event :=
| EvLock (shard : Z)
| EvUnlock (shard : Z)
| EvApply (shard : Z)
| EvProgress (applied : Z).

(** ** The store, for a hash function

    [hash] is [std::hash<std::string_view>], which the standard leaves to the
    implementation. *)
Section KV.
Context (hash : bytes → Z).

(** [get_shard_idx]: [TransparentStringHash{}(key) % kNumShards]. *)
Definition get_shard_idx (key : bytes) : Z := hash key mod kNumShards.

(** [KVStore()]: [kNumShards] empty maps. *)
Definition empty_store : KVStore :=
  {| shards_ := replicate (Z.to_nat kNumShards) ∅ |}.

(** [shards_[TransparentStringHash{}(key) % kNumShards]], updated. *)
Definition with_shard (key : bytes) (f : MapType → MapType) (s : KVStore) : KVStore :=
  {| shards_ := alter f (Z.to_nat (get_shard_idx key)) (shards_ s) |}.

(** The shard of a key, read ([get_shard]). *)
Definition get_shard (key : bytes) (s : KVStore) : MapType :=
  default ∅ (shards_ s !! Z.to_nat (get_shard_idx key)).

(** [put(const std::string&, const std::string&)]: [insert_or_assign]. *)
Definition put (key value : bytes) (s : KVStore) : KVStore :=
  with_shard key (fun m => <[key := value]> m) s.

(** [put(std::string_view, std::string&&)]: [find], then assign or
    [emplace]. *)
Definition put_view (key value : bytes) (s : KVStore) : KVStore :=
  with_shard key (fun m =>
    match m !! key with
    | Some _ => alter (fun _ => value) key m
    | None => <[key := value]> m
    end) s.

(** [get]: the empty string when the key is absent. *)
Definition get (key : bytes) (s : KVStore) : bytes :=
  match get_shard key s !! key with
  | None => []
  | Some v => v
  end.

(** [update]: [false] when the key is absent. *)
Definition update (key value : bytes) (s : KVStore) : bool * KVStore :=
  match get_shard key s !! key with
  | None => (false, s)
  | Some _ => (true, with_shard key (alter (fun _ => value) key) s)
  end.

(** [erase]: whether an element was removed. *)
Definition erase (key : bytes) (s : KVStore) : bool * KVStore :=
  match get_shard key s !! key with
  | None => (false, s)
  | Some _ => (true, with_shard key (delete key) s)
  end.

(** [take_snapshot]: [result.insert(first, last)] keeps the element already
    present, so it is a left-biased union. *)
Definition take_snapshot (s : KVStore) : MapType :=
  foldl (fun result m => result ∪ m) ∅ (shards_ s).

(** [apply_snapshot]: clear every shard, then insert every element of the
    snapshot, in its iteration order, where it is not present yet. *)
Definition insert_new (s : KVStore) (kv : bytes * bytes) : KVStore :=
  with_shard kv.1 (fun m => match m !! kv.1 with
                            | Some _ => m
                            | None => <[kv.1 := kv.2]> m
                            end) s.

Definition apply_snapshot (snapshot : MapType) (s : KVStore) : KVStore :=
  foldl insert_new {| shards_ := (fun _ => ∅) <$> shards_ s |} (map_to_list snapshot).

(** [is_valid]: some shard is not empty. *)
Definition is_valid (s : KVStore) : bool :=
  existsb (fun m => negb (bool_decide (m = ∅))) (shards_ s).

(** The target of [reserve_keys], and the [reserve] calls it makes given the
    bucket counts of the shards ([None]: no call).  Reserving does not change
    the elements of a map. *)
Definition reserve_target (total_keys : Z) : Z :=
  let per_shard := (total_keys +₆₄ kNumShards -₆₄ 1) / kNumShards in
  Z.max 4096 (per_shard +₆₄ per_shard / 8 +₆₄ 64).

Definition reserve_keys (total_keys : Z) (bucket_counts : list Z) : list (option Z) :=
  if total_keys =? 0 then (fun _ => None) <$> bucket_counts
  else let target := reserve_target total_keys in
       (fun b => if b <? target then Some target else None) <$> bucket_counts.

(** ** [apply_ops_in_order_progressive] *)

(** The branches on [op.op] for one map. *)
Definition apply_map (op : ApplyOp) (m : MapType) : MapType :=
  if decide (ao_op op = "P"%char) then
    match m !! ao_key op with
    | Some _ => alter (fun _ => ao_value op) (ao_key op) m
    | None => <[ao_key op := ao_value op]> m
    end
  else if decide (ao_op op = "U"%char) then
    match m !! ao_key op with
    | Some _ => alter (fun _ => ao_value op) (ao_key op) m
    | None => m
    end
  else if decide (ao_op op = "D"%char) then
    match m !! ao_key op with
    | Some _ => delete (ao_key op) m
    | None => m
    end
  else m.

(** The locals of the loop: [held_shard], [applied] and
    [applied_since_progress]. *)
Record apply_locals := {
  held_shard : Z;
  applied : Z;
  applied_since_progress : Z
}.

(** Taking the mutex of [shard_idx]: the new lock is constructed before the
    assignment releases the old one. *)
Definition switch_lock (held shard_idx : Z) : list kv_event :=
  if shard_idx =? held then []
  else EvLock shard_idx :: (if held =? no_shard then [] else [EvUnlock held]).

(** The progress call after an operation; [stride = None] when
    [progress_cb == nullptr] or [progress_stride == 0]. *)
Definition progress_step (stride : option Z) (l : apply_locals) : apply_locals * list kv_event :=
  match stride with
  | None => (l, [])
  | Some k =>
      let since := applied_since_progress l + 1 in
      if since >=? k
      then ({| held_shard := held_shard l; applied := applied l;
               applied_since_progress := 0 |}, [EvProgress (applied l)])
      else ({| held_shard := held_shard l; applied := applied l;
               applied_since_progress := since |}, [])
  end.

(** The loop over the operations; [None] when an operation names a shard
    outside [shards_] (undefined behaviour in the source). *)
Fixpoint apply_loop (stride : option Z) (ops : list ApplyOp) (l : apply_locals)
    (s : KVStore) : option (apply_locals * KVStore * list kv_event) :=
  match ops with
  | [] => Some (l, s, [])
  | op :: ops' =>
      let shard_idx := ao_shard op in
      match shards_ s !! Z.to_nat shard_idx with
      | None => None
      | Some m =>
          let locks := switch_lock (held_shard l) shard_idx in
          let s' := {| shards_ := <[Z.to_nat shard_idx := apply_map op m]> (shards_ s) |} in
          let l' := {| held_shard := shard_idx; applied := applied l + 1;
                       applied_since_progress := applied_since_progress l |} in
          let '(l'', progress) := progress_step stride l' in
          match apply_loop stride ops' l'' s' with
          | None => None
          | Some (lf, sf, evs) => Some (lf, sf, locks ++ EvApply shard_idx :: progress ++ evs)
          end
      end
  end.

(** The final progress call and the release of the held mutex. *)
Definition finish_apply (stride : option Z) (l : apply_locals) : list kv_event :=
  (match stride with
   | Some _ => if applied_since_progress l =? 0 then [] else [EvProgress (applied l)]
   | None => []
   end) ++ (if held_shard l =? no_shard then [] else [EvUnlock (held_shard l)]).

Definition apply_ops_in_order_progressive (stride : option Z) (ops : list ApplyOp)
    (s : KVStore) : option (KVStore * list kv_event) :=
  match ops with
  | [] => Some (s, [])
  | _ =>
      let l0 := {| held_shard := no_shard; applied := 0; applied_since_progress := 0 |} in
      match apply_loop stride ops l0 s with
      | None => None
      | Some (l, s', evs) => Some (s', evs ++ finish_apply stride l)
      end
  end.

(** [apply_ops_in_order]. *)
Definition apply_ops_in_order (ops : list ApplyOp) (s : KVStore) : option KVStore :=
  fst <$> apply_ops_in_order_progressive None ops s.

End KV.

(** ** Well-formed stores and their view *)
Section Refinement.
Context (hash : bytes → Z).

(** Every key lives in the shard its hash selects. *)
Record kv_wf (s : KVStore) : Prop := {
  wf_shards : length (shards_ s) = Z.to_nat kNumShards;
  wf_placed i m k v : shards_ s !! i = Some m → m !! k = Some v →
    i = Z.to_nat (get_shard_idx hash k)
}.

(** [f] updates a map at [key] only. *)
Definition local_at (key : bytes) (f : MapType → MapType) : Prop :=
  ∀ m k, k ≠ key → f m !! k = m !! k.

Lemma get_shard_idx_range k : 0 ≤ get_shard_idx hash k < kNumShards.
Proof. apply Z.mod_pos_bound. by vm_compute. Qed.

Lemma shard_exists s k : kv_wf s →
  shards_ s !! Z.to_nat (get_shard_idx hash k) = Some (get_shard hash k s).
Proof.
  intros Hs. unfold get_shard.
  destruct (lookup_lt_is_Some_2 (shards_ s) (Z.to_nat (get_shard_idx hash k))) as [m ->]; [|done].
  rewrite (wf_shards _ Hs). pose proof (get_shard_idx_range k). lia.
Qed.

Lemma foldl_union_lookup (l : list MapType) (acc : MapType) k i m :
  l !! i = Some m → (∀ j m', l !! j = Some m' → j ≠ i → m' !! k = None) →
  acc !! k = None →
  foldl (fun r m => r ∪ m) acc l !! k = m !! k.
Proof.
  revert acc i. induction l as [|a l IH]; intros acc i Hi Hother Hacc; [done|].
  destruct i as [|i]; cbn in *.
  - injection Hi as ->.
    assert (∀ acc' : MapType, Forall (fun m' : MapType => m' !! k = None) l →
      foldl (fun r m => r ∪ m) acc' l !! k = acc' !! k) as Hrest.
    { clear. induction l as [|b l IH]; intros acc' Hl; [done|].
      apply Forall_cons in Hl as [Hb Hl]. cbn. rewrite IH by done.
      rewrite lookup_union, Hb. by destruct (acc' !! k). }
    rewrite Hrest; [rewrite lookup_union, Hacc; by destruct (_ !! k)|].
    apply Forall_lookup. intros j m' Hj. by apply (Hother (S j)).
  - apply (IH _ i); [done| |].
    + intros j m' Hj Hne. apply (Hother (S j)); [done|lia].
    + rewrite lookup_union, Hacc, (Hother 0%nat a); [done..|lia].
Qed.

Lemma take_snapshot_lookup s k : kv_wf s →
  take_snapshot s !! k = get_shard hash k s !! k.
Proof.
  intros Hs. unfold take_snapshot.
  apply (foldl_union_lookup _ _ _ (Z.to_nat (get_shard_idx hash k)));
    [by apply shard_exists| |done].
  intros j m' Hj Hne. destruct (m' !! k) as [v|] eqn:Hk; [|done].
  destruct Hne. by apply (wf_placed _ Hs j m' k v).
Qed.

Lemma with_shard_wf key f s : local_at key f → kv_wf s → kv_wf (with_shard hash key f s).
Proof.
  intros Hf Hs. split; cbn; [by rewrite length_alter, (wf_shards _ Hs)|].
  intros i m k v Hi Hk. rewrite list_lookup_alter in Hi. case_decide as Hidx.
  - subst i. destruct (shards_ s !! _) as [m0|] eqn:Hm; simplify_eq/=.
    destruct (decide (k = key)) as [->|Hne]; [done|].
    rewrite Hf in Hk by done. by apply (wf_placed _ Hs _ m0 k v).
  - by apply (wf_placed _ Hs i m k v).
Qed.

Lemma with_shard_lookup key f s k : local_at key f → kv_wf s →
  take_snapshot (with_shard hash key f s) !! k =
  if decide (k = key) then f (get_shard hash key s) !! key else take_snapshot s !! k.
Proof.
  intros Hf Hs. rewrite !take_snapshot_lookup by auto using with_shard_wf.
  unfold get_shard at 1, with_shard. cbn. rewrite list_lookup_alter.
  case_decide as Hidx; [|case_decide; [by subst k|done]].
  rewrite (shard_exists s key Hs). cbn. case_decide as Hk; [by subst k|].
  rewrite Hf by done. unfold get_shard. by rewrite Hidx.
Qed.

Lemma empty_store_wf : kv_wf empty_store.
Proof.
  split; [apply length_replicate|]. intros i m k v Hi Hk.
  apply lookup_replicate in Hi as [-> _]. by rewrite lookup_empty in Hk.
Qed.

(** ** The map operations the store promises *)
Definition spec_update (key value : bytes) (m : MapType) : MapType :=
  match m !! key with Some _ => <[key := value]> m | None => m end.

Definition spec_apply (m : MapType) (op : ApplyOp) : MapType :=
  if decide (ao_op op = "P"%char) then <[ao_key op := ao_value op]> m
  else if decide (ao_op op = "U"%char) then spec_update (ao_key op) (ao_value op) m
  else if decide (ao_op op = "D"%char) then delete (ao_key op) m
  else m.

Lemma put_local k v : local_at k (fun m => <[k := v]> m).
Proof. intros m k' Hne. by apply lookup_insert_ne. Qed.
Lemma alter_local k f : local_at k (alter f k).
Proof. intros m k' Hne. by apply lookup_alter_ne. Qed.
Lemma delete_local k : local_at k (delete k).
Proof. intros m k' Hne. by apply lookup_delete_ne. Qed.
#[local] Hint Resolve put_local alter_local delete_local with_shard_wf empty_store_wf : core.

Lemma alter_const_insert (m : MapType) k v v0 : m !! k = Some v0 →
  alter (fun _ => v) k m = <[k := v]> m.
Proof.
  intros Hm. apply map_eq. intros k'. rewrite lookup_alter, lookup_insert.
  case_decide as Hk; [|done]. by rewrite Hm.
Qed.

Lemma put_refines k v s : kv_wf s →
  kv_wf (put hash k v s) ∧ take_snapshot (put hash k v s) = <[k := v]> (take_snapshot s).
Proof.
  intros Hs. split; [by apply with_shard_wf|]. apply map_eq. intros k'.
  unfold put. rewrite with_shard_lookup by auto. rewrite !lookup_insert.
  repeat case_decide; by simplify_eq.
Qed.

Lemma put_view_put k v s : kv_wf s → put_view hash k v s = put hash k v s.
Proof.
  intros Hs. unfold put_view, put, with_shard. f_equal. apply list_alter_ext; [|done].
  intros m _. destruct (m !! k) eqn:Hm; [|done]. by eapply alter_const_insert.
Qed.

Lemma update_refines k v s : kv_wf s →
  kv_wf (update hash k v s).2 ∧
  take_snapshot (update hash k v s).2 = spec_update k v (take_snapshot s) ∧
  (update hash k v s).1 = bool_decide (is_Some (take_snapshot s !! k)).
Proof.
  intros Hs. unfold update, spec_update. rewrite take_snapshot_lookup by done.
  destruct (get_shard hash k s !! k) as [v0|] eqn:Hk; cbn [fst snd].
  - split; [by apply with_shard_wf|]. split; [|done].
    apply map_eq. intros k'. rewrite with_shard_lookup, lookup_insert by auto.
    repeat case_decide; simplify_eq; [|done].
    by rewrite lookup_alter_eq, Hk.
  - done.
Qed.

Lemma erase_refines k s : kv_wf s →
  kv_wf (erase hash k s).2 ∧
  take_snapshot (erase hash k s).2 = delete k (take_snapshot s) ∧
  (erase hash k s).1 = bool_decide (is_Some (take_snapshot s !! k)).
Proof.
  intros Hs. unfold erase. rewrite take_snapshot_lookup by done.
  destruct (get_shard hash k s !! k) as [v0|] eqn:Hk; cbn [fst snd].
  - split; [by apply with_shard_wf|]. split; [|done].
    apply map_eq. intros k'. rewrite with_shard_lookup by auto. rewrite !lookup_delete.
    repeat case_decide; by simplify_eq.
  - split; [done|]. split; [|done].
    rewrite delete_id; [done|]. by rewrite take_snapshot_lookup.
Qed.

(** ** Batches *)
Definition well_sharded (op : ApplyOp) : Prop := ao_shard op = get_shard_idx hash (ao_key op).

Lemma apply_map_lookup (op : ApplyOp) (m : MapType) :
  local_at (ao_key op) (apply_map op) ∧ apply_map op m !! ao_key op = spec_apply m op !! ao_key op.
Proof.
  unfold apply_map, spec_apply, spec_update. split.
  - intros m' k Hne. repeat case_decide; try done; case_match; try done.
    all: by rewrite ?lookup_alter_ne, ?lookup_insert_ne, ?lookup_delete_ne.
  - repeat case_decide; try done; destruct (m !! ao_key op) as [v|] eqn:Hm; try done.
    all: rewrite ?lookup_delete_eq, ?(alter_const_insert _ _ _ v) by done; done.
Qed.

Lemma spec_apply_lookup (op : ApplyOp) (m m' : MapType) : m !! ao_key op = m' !! ao_key op →
  spec_apply m op !! ao_key op = spec_apply m' op !! ao_key op.
Proof.
  intros Hm. unfold spec_apply, spec_update. rewrite <- Hm.
  repeat case_decide; repeat case_match; rewrite ?lookup_insert_eq, ?lookup_delete_eq; congruence.
Qed.

Lemma spec_apply_local op : local_at (ao_key op) (fun m => spec_apply m op).
Proof.
  intros m k Hne. unfold spec_apply, spec_update.
  repeat case_decide; try done; try case_match; try done.
  all: by rewrite ?lookup_insert_ne, ?lookup_delete_ne.
Qed.

Lemma apply_one_refines op s m : kv_wf s → well_sharded op →
  shards_ s !! Z.to_nat (ao_shard op) = Some m →
  let s' := {| shards_ := <[Z.to_nat (ao_shard op) := apply_map op m]> (shards_ s) |} in
  kv_wf s' ∧ take_snapshot s' = spec_apply (take_snapshot s) op.
Proof.
  intros Hs Hop Hm. cbv zeta. rewrite Hop in *.
  destruct (apply_map_lookup op m) as [Hlocal Happ].
  rewrite shard_exists in Hm by done. injection Hm as Hm.
  assert ({| shards_ := <[Z.to_nat (get_shard_idx hash (ao_key op)) := apply_map op m]> (shards_ s) |}
    = with_shard hash (ao_key op) (apply_map op) s) as ->.
  { unfold with_shard. f_equal. apply list_eq. intros i.
    rewrite list_lookup_alter. case_decide as Hi; [subst i|by rewrite list_lookup_insert_ne].
    rewrite shard_exists by done. cbn. rewrite Hm. apply list_lookup_insert_eq.
    eapply lookup_lt_Some. by apply shard_exists. }
  split; [by apply with_shard_wf|]. apply map_eq. intros k.
  rewrite with_shard_lookup by done. case_decide as Hk.
  - subst k. rewrite Hm, Happ. apply spec_apply_lookup. by rewrite take_snapshot_lookup, Hm.
  - symmetry. by apply spec_apply_local.
Qed.

Lemma apply_loop_refines stride ops l s : kv_wf s → Forall well_sharded ops →
  ∃ lf s' evs, apply_loop stride ops l s = Some (lf, s', evs) ∧ kv_wf s' ∧
    take_snapshot s' = foldl spec_apply (take_snapshot s) ops.
Proof.
  intros Hs Hops. revert l s Hs. induction Hops as [|op ops Hop Hops IH]; intros l s Hs; [by exists l, s, []|].
  cbn. pose proof (shard_exists s (ao_key op) Hs) as Hm. rewrite <- Hop in Hm. rewrite Hm.
  destruct (apply_one_refines op s _ Hs Hop Hm) as [Hs' Hv].
  destruct (progress_step _ _) as [l'' progress].
  destruct (IH l'' _ Hs') as (lf&s'&evs&->&Hwf&Hsnap). rewrite <- Hv. eauto 10.
Qed.

(** Every operation of the store acts on the one map [take_snapshot]
    returns as the map operation it stands for, and reports on it: [put]
    (both overloads) inserts, [get] reads (the empty string when absent),
    [update] replaces a present key only, [erase] deletes, and the last two
    return whether the key was present.  Well-formedness is preserved. *)
Theorem store_operations_refine (k v : bytes) (s : KVStore) (Hs : kv_wf s) :
  let m := take_snapshot s in
  (kv_wf (put hash k v s) ∧ take_snapshot (put hash k v s) = <[k := v]> m) ∧
  put_view hash k v s = put hash k v s ∧
  get hash k s = default [] (m !! k) ∧
  (kv_wf (update hash k v s).2 ∧ take_snapshot (update hash k v s).2 = spec_update k v m ∧
   (update hash k v s).1 = bool_decide (is_Some (m !! k))) ∧
  (kv_wf (erase hash k s).2 ∧ take_snapshot (erase hash k s).2 = delete k m ∧
   (erase hash k s).1 = bool_decide (is_Some (m !! k))).
Proof.
  cbv zeta. split; [by apply put_refines|]. split; [by apply put_view_put|].
  split; [|split; [by apply update_refines|by apply erase_refines]].
  unfold get. rewrite take_snapshot_lookup by done. by destruct (_ !! k).
Qed.

(** C31: a batch whose operations carry the shard of their key is applied
    without undefined behaviour, whatever the progress stride, and acts on the
    snapshot as the operations one after the other. *)
Theorem apply_ops_refines (stride : option Z) (ops : list ApplyOp) (s : KVStore)
    (Hs : kv_wf s) (Hops : Forall well_sharded ops) :
  ∃ s' evs, apply_ops_in_order_progressive stride ops s = Some (s', evs) ∧
    kv_wf s' ∧ take_snapshot s' = foldl spec_apply (take_snapshot s) ops.
Proof.
  destruct (apply_loop_refines stride ops
    {| held_shard := no_shard; applied := 0; applied_since_progress := 0 |} s Hs Hops)
    as (lf&s'&evs&He&?&?).
  unfold apply_ops_in_order_progressive. destruct ops as [|op ops]; [by eauto|].
  rewrite He. eauto.
Qed.

End Refinement.

(** ** Lock discipline

    The meaning of the trace: a shard mutex may be locked only when it is not
    held, released only when it is, and an operation needs the mutex of its
    shard.  At most two mutexes are held at a time. *)
Definition run_lock (held : list Z) (ev : kv_event) : option (list Z) :=
  match ev with
  | EvLock i => if bool_decide (i ∈ held) || (1 <? Z.of_nat (length held)) then None
                else Some (i :: held)
  | EvUnlock i => if bool_decide (i ∈ held) then Some (filter (fun j => j ≠ i) held) else None
  | EvApply i => if bool_decide (i ∈ held) then Some held else None
  | EvProgress _ => Some held
  end.

Fixpoint run_locks (held : list Z) (evs : list kv_event) : option (list Z) :=
  match evs with
  | [] => Some held
  | ev :: evs' => match run_lock held ev with None => None | Some h => run_locks h evs' end
  end.

Definition held_list (shard : Z) : list Z := if shard =? no_shard then [] else [shard].

Lemma run_locks_app held evs1 evs2 : run_locks held (evs1 ++ evs2) =
  match run_locks held evs1 with None => None | Some h => run_locks h evs2 end.
Proof.
  revert held. induction evs1 as [|ev evs1 IH]; intros held; [done|]. cbn.
  destruct (run_lock held ev); [apply IH|done].
Qed.

Lemma run_locks_lock held i evs : i ∉ held → (length held ≤ 1)%nat →
  run_locks held (EvLock i :: evs) = run_locks (i :: held) evs.
Proof.
  intros Hi Hl. unfold run_locks at 1, run_lock. fold run_locks.
  rewrite bool_decide_false by done. by rewrite (proj2 (Z.ltb_ge 1 _)) by lia.
Qed.

Lemma run_locks_unlock held i evs : i ∈ held →
  run_locks held (EvUnlock i :: evs) = run_locks (filter (fun j => j ≠ i) held) evs.
Proof.
  intros Hi. unfold run_locks at 1, run_lock. fold run_locks. by rewrite bool_decide_true.
Qed.

Lemma run_locks_apply held i evs : i ∈ held →
  run_locks held (EvApply i :: evs) = run_locks held evs.
Proof.
  intros Hi. unfold run_locks at 1, run_lock. fold run_locks. by rewrite bool_decide_true.
Qed.

Lemma run_locks_progress stride l held :
  run_locks held (progress_step stride l).2 = Some held ∧
  held_shard (progress_step stride l).1 = held_shard l ∧
  applied (progress_step stride l).1 = applied l.
Proof. unfold progress_step. destruct stride; [|done]. by case_if. Qed.

Lemma run_locks_switch held shard : shard ≠ no_shard →
  run_locks (held_list held) (switch_lock held shard) = Some [shard].
Proof.
  intros Hne. unfold switch_lock, held_list.
  destruct (Z.eqb_spec shard held) as [->|Hsh].
  { rewrite (proj2 (Z.eqb_neq _ _)) by done. done. }
  destruct (Z.eqb_spec held no_shard) as [->|Hh]; [by apply run_locks_lock; [set_solver|cbn; lia]|].
  rewrite run_locks_lock, run_locks_unlock by (set_solver || cbn; lia). cbn [run_locks].
  rewrite !filter_cons, filter_nil, decide_True, decide_False by (auto; congruence). done.
Qed.

Lemma apply_loop_locks stride ops l s lf sf evs :
  Forall (fun op => ao_shard op ≠ no_shard) ops →
  apply_loop stride ops l s = Some (lf, sf, evs) →
  run_locks (held_list (held_shard l)) evs = Some (held_list (held_shard lf)).
Proof.
  intros Hops. revert l s evs. induction Hops as [|op ops Hop Hops IH]; intros l s evs He.
  { by simplify_eq/=. }
  cbn in He. destruct (shards_ s !! _) as [m|]; [|done].
  destruct (progress_step _ _) as [l'' progress] eqn:Hp.
  destruct (apply_loop stride ops l'' _) as [[[lf' sf'] evs']|] eqn:Hl; [|done].
  simplify_eq. rewrite run_locks_app, run_locks_switch by done.
  rewrite run_locks_apply, run_locks_app by set_solver.
  edestruct (run_locks_progress stride) as (Hr&Hh&_). rewrite Hp in Hr, Hh. cbn in Hr, Hh.
  rewrite Hr. rewrite <- (IH _ _ _ Hl), Hh. unfold held_list.
  by rewrite (proj2 (Z.eqb_neq _ _)).
Qed.

(** Applying a batch never locks a mutex it holds, applies every operation
    under the mutex of its shard, holds at most two mutexes at once and
    releases all of them, whatever the shards (16-bit numbers) in the batch. *)
Theorem apply_ops_lock_discipline (stride : option Z) (ops : list ApplyOp)
    (s s' : KVStore) (evs : list kv_event)
    (Hops : Forall (fun op => 0 ≤ ao_shard op < 2 ^ 16) ops)
    (He : apply_ops_in_order_progressive stride ops s = Some (s', evs)) :
  run_locks [] evs = Some [].
Proof.
  unfold apply_ops_in_order_progressive in He.
  destruct ops as [|op ops]; [by simplify_eq|].
  destruct (apply_loop _ _ _ s) as [[[lf sf] evs']|] eqn:Hl; [|done]. simplify_eq.
  apply apply_loop_locks in Hl; [|eapply Forall_impl; [done|]; unfold no_shard, UINT64_MAX; cbn; lia].
  change (held_list _) with (@nil Z) in Hl at 1.
  rewrite run_locks_app, Hl. unfold finish_apply. rewrite run_locks_app.
  assert (∀ h, run_locks h match stride with
    | Some _ => if applied_since_progress lf =? 0 then [] else [EvProgress (applied lf)]
    | None => [] end = Some h) as -> by (intros; repeat case_match; done).
  unfold held_list. destruct (held_shard lf =? no_shard); [done|].
  rewrite run_locks_unlock by set_solver.
  rewrite filter_cons, filter_nil, decide_False by auto. done.
Qed.

(** ** Progress callbacks *)
Definition progress_calls (evs : list kv_event) : list Z :=
  omap (fun ev => match ev with EvProgress n => Some n | _ => None end) evs.

Lemma progress_calls_app evs1 evs2 :
  progress_calls (evs1 ++ evs2) = progress_calls evs1 ++ progress_calls evs2.
Proof. apply omap_app. Qed.

Lemma progress_calls_switch held i : progress_calls (switch_lock held i) = [].
Proof. unfold switch_lock. by repeat case_if. Qed.

(** The multiples of [k] above [a] and up to [b]. *)
Definition multiples (k a b : Z) : list Z := (fun i => k * i) <$> seqZ (a / k + 1) (b / k - a / k).

Lemma multiples_step k a b : 0 < k → a < b →
  multiples k a b =
    (if (a + 1) mod k =? 0 then [a + 1] else []) ++ multiples k (a + 1) b.
Proof.
  intros Hk Hab. unfold multiples.
  pose proof (Z.div_mod a k ltac:(lia)). pose proof (Z.mod_pos_bound a k Hk).
  pose proof (Z.div_mod (a + 1) k ltac:(lia)). pose proof (Z.mod_pos_bound (a + 1) k Hk).
  pose proof (Z.div_le_mono (a + 1) b k Hk ltac:(lia)).
  destruct (Z.eqb_spec ((a + 1) mod k) 0) as [Hm|Hm].
  - assert ((a + 1) / k = a / k + 1) as Hd by nia. rewrite Hd.
    rewrite (seqZ_cons (a / k + 1)) by lia. cbn. f_equal; [nia|].
    do 2 f_equal; lia.
  - assert ((a + 1) / k = a / k) as -> by nia. done.
Qed.

Lemma apply_loop_progress k ops l s lf sf evs : 0 < k →
  applied_since_progress l = applied l mod k →
  apply_loop (Some k) ops l s = Some (lf, sf, evs) →
  applied lf = applied l + Z.of_nat (length ops) ∧
  applied_since_progress lf = applied lf mod k ∧
  progress_calls evs = multiples k (applied l) (applied lf).
Proof.
  intros Hk. revert l s evs. induction ops as [|op ops IH]; intros l s evs Hsince He.
  { simplify_eq/=. split; [lia|]. split; [done|]. unfold multiples. by rewrite Z.sub_diag. }
  cbn in He. destruct (shards_ s !! _) as [m|]; [|done].
  rewrite Hsince in He.
  pose proof (Z.div_mod (applied l) k ltac:(lia)). pose proof (Z.mod_pos_bound (applied l) k Hk).
  rewrite Z.geb_leb in He. destruct (Z.leb_spec k (applied l mod k + 1)) as [Hle|Hgt].
  all: destruct (apply_loop _ ops _ _) as [[[lf' sf'] evs']|] eqn:Hl; [|done]; simplify_eq/=.
  - assert ((applied l + 1) mod k = 0) as Hmod.
    { rewrite (Z.mod_unique (applied l + 1) k (applied l / k + 1) 0); lia. }
    apply IH in Hl as (Ha&Hs&Hp); [|cbn; lia]. cbn in Ha, Hp.
    split; [lia|]. split; [done|].
    rewrite (multiples_step k (applied l)), Hmod by lia. cbn.
    rewrite progress_calls_app, progress_calls_switch. cbn. by rewrite <- Hp.
  - assert ((applied l + 1) mod k = applied l mod k + 1) as Hmod.
    { symmetry. apply (Z.mod_unique _ k (applied l / k)); lia. }
    apply IH in Hl as (Ha&Hs&Hp); [|cbn; lia]. cbn in Ha, Hp.
    split; [lia|]. split; [done|].
    rewrite (multiples_step k (applied l)), Hmod by lia.
    rewrite (proj2 (Z.eqb_neq _ 0)) by lia. cbn.
    rewrite progress_calls_app, progress_calls_switch. cbn. by rewrite <- Hp.
Qed.

(** With a callback and a stride [k > 0], the progress callback is called
    with [k], [2k], ... up to the number of operations, and once more with
    that number when it is not a multiple of [k]. *)
Theorem apply_ops_progress (k : Z) (ops : list ApplyOp) (s s' : KVStore)
    (evs : list kv_event) (Hk : 0 < k)
    (He : apply_ops_in_order_progressive (Some k) ops s = Some (s', evs)) :
  let n := Z.of_nat (length ops) in
  progress_calls evs =
    ((fun i => k * i) <$> seqZ 1 (n / k)) ++ (if n mod k =? 0 then [] else [n]).
Proof.
  unfold apply_ops_in_order_progressive in He. destruct ops as [|op ops].
  { by simplify_eq. }
  destruct (apply_loop _ _ _ s) as [[[lf sf] evs']|] eqn:Hl; [|done]. simplify_eq.
  apply apply_loop_progress in Hl as (Ha&Hs&Hp); [|done|cbn; by rewrite Z.mod_0_l by lia].
  cbn [applied] in Ha, Hp. rewrite Z.add_0_l in Ha. cbv zeta. rewrite <- Ha.
  rewrite progress_calls_app, Hp. f_equal.
  - unfold multiples. rewrite Z.div_0_l by lia. by rewrite Z.sub_0_r.
  - unfold finish_apply. rewrite progress_calls_app, Hs.
    destruct (applied lf mod k =? 0); destruct (held_shard lf =? no_shard); done.
Qed.

(** ** Snapshots *)
Section Snapshots.
Context (hash : bytes → Z).

Lemma cleared_wf s : kv_wf hash s → kv_wf hash {| shards_ := (fun _ => ∅) <$> shards_ s |}.
Proof.
  intros Hs. split; cbn; [by rewrite length_fmap, (wf_shards _ _ Hs)|].
  intros i m k v Hi Hk. rewrite list_lookup_fmap in Hi.
  by destruct (shards_ s !! i); simplify_eq/=.
Qed.

Lemma cleared_snapshot s : kv_wf hash s →
  take_snapshot {| shards_ := (fun _ => ∅) <$> shards_ s |} = ∅.
Proof.
  intros Hs. apply map_eq. intros k.
  rewrite (take_snapshot_lookup hash) by by apply cleared_wf. unfold get_shard. cbn.
  rewrite list_lookup_fmap. destruct (shards_ s !! _); cbn; by rewrite lookup_empty.
Qed.

Lemma insert_new_refines s kv : kv_wf hash s →
  kv_wf hash (insert_new hash s kv) ∧
  take_snapshot (insert_new hash s kv) =
    match take_snapshot s !! kv.1 with Some _ => take_snapshot s
                                     | None => <[kv.1 := kv.2]> (take_snapshot s) end.
Proof.
  intros Hs. destruct kv as [k v]. cbn [fst snd]. unfold insert_new. cbn [fst snd].
  set (f := fun m : MapType => match m !! k with Some _ => m | None => <[k := v]> m end).
  assert (local_at k f) as Hf.
  { intros m k' Hne. unfold f. case_match; [done|]. by apply lookup_insert_ne. }
  split; [by apply with_shard_wf|]. apply map_eq. intros k'.
  rewrite with_shard_lookup by done. unfold f at 1.
  rewrite (take_snapshot_lookup hash s k Hs).
  destruct (get_shard hash k s !! k) as [v0|] eqn:Hk; case_decide as Hkk; try done.
  - subst k'. by rewrite (take_snapshot_lookup hash).
  - subst k'. by rewrite !lookup_insert_eq.
  - by rewrite lookup_insert_ne.
Qed.

(** Restoring a snapshot into a well-formed store replaces its contents
    by exactly the snapshot. *)
Theorem snapshot_roundtrip (snapshot : MapType) (s : KVStore) (Hs : kv_wf hash s) :
  kv_wf hash (apply_snapshot hash snapshot s) ∧
  take_snapshot (apply_snapshot hash snapshot s) = snapshot.
Proof.
  unfold apply_snapshot.
  assert (∀ l s0, kv_wf hash s0 → NoDup l.*1 → (∀ k, k ∈ l.*1 → take_snapshot s0 !! k = None) →
    kv_wf hash (foldl (insert_new hash) s0 l) ∧
    take_snapshot (foldl (insert_new hash) s0 l) = list_to_map l ∪ take_snapshot s0) as Hl.
  { induction l as [|[k v] l IH]; intros s0 Hs0 Hnd Hfresh.
    { cbn. by rewrite (left_id_L ∅ (∪)). }
    cbn in Hnd. apply NoDup_cons in Hnd as [Hk Hnd]. cbn.
    destruct (insert_new_refines s0 (k, v) Hs0) as [Hwf Hv]. cbn [fst snd] in Hv.
    rewrite (Hfresh k) in Hv by (cbn; left).
    destruct (IH _ Hwf Hnd) as [Hwf' Hv'].
    { intros k' Hk'. rewrite Hv, lookup_insert_ne by (intros ->; done).
      apply Hfresh. cbn. by right. }
    split; [done|]. rewrite Hv', Hv, <- insert_union_r; [by rewrite insert_union_l|].
    by apply not_elem_of_list_to_map. }
  destruct (Hl (map_to_list snapshot) {| shards_ := (fun _ => ∅) <$> shards_ s |}) as [? Hv].
  - by apply cleared_wf.
  - apply NoDup_fst_map_to_list.
  - intros k _. by rewrite cleared_snapshot, lookup_empty.
  - split; [done|]. rewrite Hv, cleared_snapshot, list_to_map_to_list by done.
    by rewrite (right_id_L ∅ (∪)).
Qed.

Lemma is_valid_spec s : kv_wf hash s → is_valid s = bool_decide (take_snapshot s ≠ ∅).
Proof.
  intros Hs. apply eq_iff_eq_true. unfold is_valid. rewrite existsb_exists, bool_decide_eq_true.
  setoid_rewrite negb_true_iff. setoid_rewrite bool_decide_eq_false. split.
  - intros (m&[i Hi]%list_elem_of_In%list_elem_of_lookup&Hne) Hsnap.
    apply map_choose in Hne as (k&v&Hk).
    pose proof (wf_placed _ _ Hs i m k v Hi Hk) as ->.
    rewrite (shard_exists hash s k Hs) in Hi. injection Hi as <-.
    rewrite <- (take_snapshot_lookup hash) in Hk by done. by rewrite Hsnap, lookup_empty in Hk.
  - intros (k&v&Hk)%map_choose. rewrite (take_snapshot_lookup hash) in Hk by done.
    exists (get_shard hash k s). split.
    + apply list_elem_of_In, list_elem_of_lookup. eexists. by apply shard_exists.
    + intros He. by rewrite He, lookup_empty in Hk.
Qed.

End Snapshots.

(** ** The interface of a replicated store

    What the protocol layer ([Bandle]) uses of a store, and what it relies on:
    batches whose operations carry the shard of their key act on the view as
    the operations in order, and splitting a batch changes nothing. *)
Class ReplicaStore (S : Type) := {
  store_put : bytes → bytes → S → S;
  store_update : bytes → bytes → S → S;
  store_erase : bytes → S → S;
  store_apply : list ApplyOp → S → S;
  store_ok : S → Prop;
  store_view : S → MapType
}.

Class ReplicaStoreLaws (hash : bytes → Z) (S : Type) `{ReplicaStore S} := {
  store_put_law k v s : store_ok s →
    store_ok (store_put k v s) ∧ store_view (store_put k v s) = <[k := v]> (store_view s);
  store_update_law k v s : store_ok s →
    store_ok (store_update k v s) ∧
    store_view (store_update k v s) = spec_update k v (store_view s);
  store_erase_law k s : store_ok s →
    store_ok (store_erase k s) ∧ store_view (store_erase k s) = delete k (store_view s);
  store_apply_law ops s : store_ok s → Forall (well_sharded hash) ops →
    store_ok (store_apply ops s) ∧
    store_view (store_apply ops s) = foldl spec_apply (store_view s) ops;
  store_apply_nil s : store_apply [] s = s;
  store_apply_app ops1 ops2 s : store_ok s →
    Forall (well_sharded hash) ops1 → Forall (well_sharded hash) ops2 →
    store_apply (ops1 ++ ops2) s = store_apply ops2 (store_apply ops1 s)
}.

Section StoreInstance.
Context (hash : bytes → Z).

(** [KVStore] as the store of a replica.  A batch with a shard out of range
    would be undefined behaviour; the laws concern batches that have none, and
    for those [apply_ops_refines] shows the result is always defined. *)
Definition kv_replica : ReplicaStore KVStore := {|
  store_put := put hash;
  store_update k v s := (update hash k v s).2;
  store_erase k s := (erase hash k s).2;
  store_apply ops s := default s (apply_ops_in_order ops s);
  store_ok := kv_wf hash;
  store_view := take_snapshot
|}.

(** The store after the loop does not depend on the loop's locals. *)
Lemma apply_loop_store ops s l l' :
  (snd ∘ fst <$> apply_loop None ops l s) = (snd ∘ fst <$> apply_loop None ops l' s).
Proof.
  revert s l l'. induction ops as [|op ops IH]; intros s l l'; [done|]. cbn.
  destruct (shards_ s !! _) as [m|]; [|done]. cbn.
  specialize (IH {| shards_ := <[Z.to_nat (ao_shard op) := apply_map op m]> (shards_ s) |}
    {| held_shard := ao_shard op; applied := applied l + 1;
       applied_since_progress := applied_since_progress l |}
    {| held_shard := ao_shard op; applied := applied l' + 1;
       applied_since_progress := applied_since_progress l' |}).
  repeat match goal with
  | IH : context [apply_loop None ops ?l ?s] |- _ =>
      destruct (apply_loop None ops l s) as [[[? ?] ?]|]; cbn in IH |- *; simplify_eq
  end; done.
Qed.

Definition loop_store (ops : list ApplyOp) (s : KVStore) : option KVStore :=
  snd ∘ fst <$> apply_loop None ops
    {| held_shard := no_shard; applied := 0; applied_since_progress := 0 |} s.

Lemma apply_ops_in_order_loop ops s : apply_ops_in_order ops s = loop_store ops s.
Proof.
  unfold apply_ops_in_order, apply_ops_in_order_progressive, loop_store.
  destruct ops; [done|]. by destruct (apply_loop _ _ _ s) as [[[? ?] ?]|].
Qed.

Lemma apply_loop_app ops1 ops2 s l l' :
  (snd ∘ fst <$> apply_loop None (ops1 ++ ops2) l s) =
  s' ← (snd ∘ fst <$> apply_loop None ops1 l s); snd ∘ fst <$> apply_loop None ops2 l' s'.
Proof.
  revert s l. induction ops1 as [|op ops1 IH]; intros s l; cbn; [apply apply_loop_store|].
  destruct (shards_ s !! _) as [m|]; [|done]. cbn.
  specialize (IH {| shards_ := <[Z.to_nat (ao_shard op) := apply_map op m]> (shards_ s) |}
    {| held_shard := ao_shard op; applied := applied l + 1;
       applied_since_progress := applied_since_progress l |}).
  destruct (apply_loop None (ops1 ++ ops2) _ _) as [[[? ?] ?]|];
    destruct (apply_loop None ops1 _ _) as [[[? ?] ?]|]; cbn in *; done.
Qed.

Lemma loop_store_app ops1 ops2 s :
  loop_store (ops1 ++ ops2) s = s' ← loop_store ops1 s; loop_store ops2 s'.
Proof. apply apply_loop_app. Qed.

Lemma loop_store_total ops s : kv_wf hash s → Forall (well_sharded hash) ops →
  ∃ s', loop_store ops s = Some s' ∧ kv_wf hash s' ∧
    take_snapshot s' = foldl spec_apply (take_snapshot s) ops.
Proof.
  intros Hs Hops. unfold loop_store.
  destruct (apply_loop_refines hash None ops
    {| held_shard := no_shard; applied := 0; applied_since_progress := 0 |} s Hs Hops)
    as (lf&s'&evs&->&?&?). by exists s'.
Qed.

Lemma kv_replica_laws : @ReplicaStoreLaws hash KVStore kv_replica.
Proof.
  split; cbn.
  - intros. by apply put_refines.
  - intros k v s Hs. by destruct (update_refines hash k v s Hs) as (?&?&_).
  - intros k s Hs. by destruct (erase_refines hash k s Hs) as (?&?&_).
  - intros ops s Hs Hops. rewrite apply_ops_in_order_loop.
    by destruct (loop_store_total ops s Hs Hops) as (s'&->&?&?).
  - done.
  - intros ops1 ops2 s Hs Hops1 Hops2. rewrite !apply_ops_in_order_loop, loop_store_app.
    destruct (loop_store_total ops1 s Hs Hops1) as (s1&->&Hs1&_). cbn.
    by destruct (loop_store_total ops2 s1 Hs1 Hops2) as (s2&->&_&_).
Qed.

End StoreInstance.

(** ** Concrete inputs *)
Module Examples.

(** A hash of the key's length, to evaluate the store on. *)
Definition length_hash (k : bytes) : Z := Z.of_nat (length k).

Definition op (o : ascii) (k v : bytes) : ApplyOp :=
  {| ao_op := o; ao_shard := get_shard_idx length_hash k; ao_key := k; ao_value := v |}.

Definition ops : list ApplyOp :=
  [op "P" (str "a") (str "1"); op "P" (str "bb") (str "2"); op "U" (str "a") (str "3");
   op "D" (str "bb") []; op "U" (str "c") (str "4")].

Example store_operations_refine_witness :
  let s := put length_hash (str "a") (str "1") empty_store in
  kv_wf length_hash s ∧ get length_hash (str "a") s = default [] (take_snapshot s !! str "a").
Proof.
  assert (kv_wf length_hash empty_store) as H0 by apply empty_store_wf.
  split.
  - apply (store_operations_refine length_hash (str "a") (str "1") empty_store H0).
  - apply (store_operations_refine length_hash (str "a") (str "1")).
    by apply (put_refines length_hash).
Defined.

Example apply_ops_refines_witness :
  ∃ s' evs, apply_ops_in_order_progressive (Some 2) ops empty_store = Some (s', evs) ∧
    kv_wf length_hash s' ∧ take_snapshot s' = {[str "a" := str "3"]}.
Proof.
  destruct (apply_ops_refines length_hash (Some 2) ops empty_store) as (s'&evs&He&Hwf&Hv).
  - apply empty_store_wf.
  - repeat constructor.
  - exists s', evs. split; [done|]. split; [done|]. rewrite Hv. vm_compute. reflexivity.
Defined.

Example apply_ops_lock_discipline_witness :
  run_locks [] (match apply_ops_in_order_progressive None ops empty_store with
                | Some (_, evs) => evs | None => [EvUnlock 0] end) = Some [].
Proof.
  destruct (apply_ops_in_order_progressive None ops empty_store) as [[s' evs]|] eqn:He.
  - apply (apply_ops_lock_discipline None ops empty_store s' evs); [|exact He].
    repeat (apply Forall_cons; split; [vm_compute; split; congruence|]). by apply Forall_nil.
  - vm_compute in He. discriminate.
Defined.

Example apply_ops_progress_witness :
  progress_calls (match apply_ops_in_order_progressive (Some 2) ops empty_store with
                  | Some (_, evs) => evs | None => [] end) = [2; 4; 5].
Proof.
  destruct (apply_ops_in_order_progressive (Some 2) ops empty_store) as [[s' evs]|] eqn:He.
  - rewrite (apply_ops_progress 2 ops empty_store s' evs); [reflexivity|lia|exact He].
  - vm_compute in He. discriminate.
Defined.

Example snapshot_roundtrip_witness :
  take_snapshot (apply_snapshot length_hash {[str "a" := str "3"]}
    (put length_hash (str "zz") (str "1") empty_store)) = {[str "a" := str "3"]}.
Proof.
  apply (snapshot_roundtrip length_hash {[str "a" := str "3"]}).
  apply put_refines, empty_store_wf.
Defined.

End Examples.
