(* ===== verification/CxlMemory.v ===== *)
(** The memory pool ([src/cxl_memory.cpp]): the non-temporal copy and the
    cache-line flush.  A destination is the buffer of bytes from [dst] on, with
    the address of its first byte where alignment matters; [nt_store_16] is in
    [Ring], next to the stores that use it.  [builds_agree]: the copies of an
    x86 build with and without the wide stores, the one with the lambda
    [nt_memcpy_avx2], which the code defines and never calls, and that of any
    other build leave the same bytes. *)
From S2P Require Import Prelude.

(** ** [nt_memcpy] *)

(** Eight bytes of [src] from [off] on, fewer at the end of the copy: [v = 0]
    and a [memcpy] of [n] bytes into it. *)
Definition load_u64 (src : bytes) (off n : nat) : bytes :=
  memcpy_at (replicate 8 Ascii.zero) 0 (take n (drop off src)).

(** [_mm_stream_si64], and the wide stores of [w] bytes: [_mm512_stream_si512]
    (64) and [_mm256_stream_si256] (32). *)
Definition stream_64 (dst : bytes) (off : nat) (v : bytes) : bytes := memcpy_at dst off v.
Definition stream_wide (w : nat) (dst src : bytes) (off : nat) : bytes := memcpy_at dst off (take w (drop off src)).

(** The first loop of [nt_memcpy_avx512] and [nt_memcpy_avx2]: up to a boundary
    of [w] bytes.  The state is the offset of [d] and [s], what is left of
    [len], and the buffer; [fuel] is at least [len]. *)
Fixpoint align_loop (w fuel : nat) (addr : Z) (src : bytes) (off len : nat) (dst : bytes)
    : nat * nat * bytes :=
  match fuel with
  | O => (off, len, dst)
  | S fuel' =>
      if (0 <? len)%nat && negb (Z.land (addr + Z.of_nat off) (Z.of_nat w - 1) =? 0) then
        let n := Nat.min 8 len in
        align_loop w fuel' addr src (off + n) (len - n) (stream_64 dst off (load_u64 src off n))
      else (off, len, dst)
  end.

(** [while (len >= 64)], [while (len >= 32)]. *)
Fixpoint wide_loop (w fuel : nat) (src : bytes) (off len : nat) (dst : bytes) : nat * nat * bytes :=
  match fuel with
  | O => (off, len, dst)
  | S fuel' =>
      if (w <=? len)%nat then wide_loop w fuel' src (off + w) (len - w) (stream_wide w dst src off)
      else (off, len, dst)
  end.

Definition nt_memcpy_avx512 (addr : Z) (src : bytes) (len : nat) (dst : bytes) : nat * nat * bytes :=
  if (len <? 512)%nat then (O, len, dst)
  else let '(off, len, dst) := align_loop 64 len addr src 0 len dst in wide_loop 64 len src off len dst.

Definition nt_memcpy_avx2 (addr : Z) (src : bytes) (len : nat) (dst : bytes) : nat * nat * bytes :=
  if (len <? 256)%nat then (O, len, dst)
  else let '(off, len, dst) := align_loop 32 len addr src 0 len dst in wide_loop 32 len src off len dst.

(** [nt_memcpy_tail_nt64]: eight bytes at a time, the last store padded. *)
Fixpoint tail_loop (fuel : nat) (src : bytes) (off len : nat) (dst : bytes) : bytes :=
  match fuel with
  | O => dst
  | S fuel' =>
      if (8 <=? len)%nat
      then tail_loop fuel' src (off + 8) (len - 8) (stream_64 dst off (load_u64 src off 8))
      else if (0 <? len)%nat then stream_64 dst off (load_u64 src off len) else dst
  end.

Definition nt_memcpy (addr : Z) (dst src : bytes) (len : nat) : bytes :=
  match len with
  | O => dst
  | _ => let '(off, len, dst) := nt_memcpy_avx512 addr src len dst in tail_loop (S len) src off len dst
  end.

(** The copy of the other builds. *)
Definition nt_memcpy_portable (dst src : bytes) (len : nat) : bytes :=
  match len with O => dst | _ => tail_loop (S len) src 0 len dst end.

(** ** [clflush]

    The addresses given to [_mm_clflush], in order. *)
Definition kCacheLineBytes : Z := 64.

Fixpoint flush_loop (fuel : nat) (p end_ : Z) : list Z :=
  match fuel with
  | O => []
  | S fuel' => if p <? end_ then p :: flush_loop fuel' (p +₆₄ kCacheLineBytes) end_ else []
  end.

(** [addr & ~63]. *)
Definition line_start (addr : Z) : Z := Z.land addr (UINT64_MAX - (kCacheLineBytes - 1)).

Definition clflush (addr : Z) (len : nat) : list Z :=
  flush_loop (S (S len)) (line_start addr) (addr +₆₄ Z.of_nat len).

(** ** Lemmas *)

(** The buffer when [n] bytes have been copied with stores of eight bytes. *)
Definition ceil8 (n : nat) : nat := ((n + 7) / 8 * 8)%nat.
Definition copied (src dst : bytes) (n : nat) : bytes :=
  take n src ++ replicate (ceil8 n - n) Ascii.zero ++ drop (ceil8 n) dst.

Lemma ceil8_mult k : ceil8 (k * 8) = (k * 8)%nat.
Proof. unfold ceil8. rewrite Nat.div_add_l by lia. change (7 / 8)%nat with O. lia. Qed.

Lemma ceil8_step k n : (0 < n ≤ 8)%nat → ceil8 (k * 8 + n) = (k * 8 + 8)%nat.
Proof.
  intros Hn. unfold ceil8.
  replace ((k * 8 + n + 7) / 8)%nat with (k + 1)%nat; [lia|].
  apply (Nat.div_unique _ _ _ (n - 1)); lia.
Qed.

Lemma copied_aligned src dst k : copied src dst (k * 8) = take (k * 8) src ++ drop (k * 8) dst.
Proof. unfold copied. by rewrite ceil8_mult, Nat.sub_diag. Qed.

Lemma length_load src off n : (n ≤ 8)%nat → length (load_u64 src off n) = 8%nat.
Proof.
  intros Hn. unfold load_u64. rewrite length_memcpy_at; rewrite length_replicate; [done|].
  rewrite length_take. lia.
Qed.

(** One store of eight bytes. *)
Lemma stream_64_step src dst k n : (0 < n ≤ 8)%nat → (k * 8 + n ≤ length src)%nat →
  (k * 8 + 8 ≤ length dst)%nat →
  stream_64 (copied src dst (k * 8)) (k * 8) (load_u64 src (k * 8) n) = copied src dst (k * 8 + n).
Proof.
  intros Hn Hs Hd. rewrite copied_aligned. unfold stream_64, memcpy_at. rewrite length_load by lia.
  rewrite take_app_length' by (rewrite length_take; lia).
  rewrite drop_app_ge by (rewrite length_take; lia). rewrite length_take, drop_drop.
  replace (k * 8 + _)%nat with (k * 8 + 8)%nat by lia.
  unfold copied. rewrite ceil8_step by done.
  rewrite <- (take_take_drop src (k * 8) n), <- app_assoc. f_equal.
  unfold load_u64, memcpy_at. rewrite take_0, app_nil_l, <- !app_assoc. do 2 f_equal.
  rewrite drop_replicate, length_take, length_drop. f_equal. lia.
Qed.

(** The state of the copying loops after [off] of [total] bytes. *)
Record copying (src dst0 : bytes) (total : nat) (st : nat * nat * bytes) : Prop := {
  cy_len : (st.1.1 + st.1.2 = total)%nat;
  cy_pos : (∃ k, st.1.1 = k * 8)%nat ∨ st.1.2 = O;
  cy_dst : st.2 = copied src dst0 st.1.1
}.

Section Copy.
Context (src dst0 : bytes) (total : nat) (addr : Z).
Context (Hsrc : (total ≤ length src)%nat) (Hdst : (ceil8 total ≤ length dst0)%nat).

Lemma ceil8_le n : (n ≤ ceil8 n)%nat.
Proof. unfold ceil8. pose proof (Nat.div_mod_eq (n + 7) 8). pose proof (Nat.mod_upper_bound (n + 7) 8). lia. Qed.

(** A position below the end leaves room for a whole store. *)
Lemma room k n : (0 < n)%nat → (k * 8 + n ≤ total)%nat → (k * 8 + 8 ≤ length dst0)%nat.
Proof.
  intros Hn Hk. unfold ceil8 in Hdst.
  pose proof (Nat.div_mod_eq (total + 7) 8). pose proof (Nat.mod_upper_bound (total + 7) 8). lia.
Qed.

Lemma copying_step k len n : (0 < n ≤ 8)%nat → (n ≤ len)%nat → (k * 8 + len = total)%nat →
  n = 8%nat ∨ n = len →
  copying src dst0 total
    ((k * 8 + n)%nat, (len - n)%nat, stream_64 (copied src dst0 (k * 8)) (k * 8) (load_u64 src (k * 8) n)).
Proof.
  intros Hn Hle Ht Hcase. split; cbn [fst snd].
  - lia.
  - destruct Hcase as [-> | ->]; [left; exists (S k); lia|right; lia].
  - apply stream_64_step; [lia|lia|]. apply (room k n); lia.
Qed.

Lemma align_loop_copying w fuel off len dst : copying src dst0 total (off, len, dst) →
  copying src dst0 total (align_loop w fuel addr src off len dst).
Proof.
  revert off len dst. induction fuel as [|fuel IH]; intros off len dst Hc; [done|]. cbn [align_loop].
  destruct (Nat.ltb_spec 0 len) as [Hlen|]; [|done]. cbn [andb]. case_if; [|done]. apply IH.
  destruct Hc as [Ht [[k Hk]|H0] Hd]; cbn [fst snd] in *; [subst off dst|lia].
  apply copying_step; lia.
Qed.

Lemma wide_loop_copying j fuel off len dst : copying src dst0 total (off, len, dst) →
  copying src dst0 total (wide_loop (S j * 8) fuel src off len dst).
Proof.
  revert off len dst. induction fuel as [|fuel IH]; intros off len dst Hc; [done|]. cbn [wide_loop].
  destruct (Nat.leb_spec (S j * 8) len) as [Hlen|]; [|done]. apply IH.
  destruct Hc as [Ht [[k Hk]|H0] Hd]; cbn [fst snd] in *; [subst off dst|lia]. split; cbn [fst snd].
  - lia.
  - left. exists (k + S j)%nat. lia.
  - rewrite copied_aligned. replace (k * 8 + S j * 8)%nat with ((k + S j) * 8)%nat by lia. rewrite copied_aligned.
    replace ((k + S j) * 8)%nat with (k * 8 + S j * 8)%nat by lia. apply memcpy_at_extend; [lia|].
    pose proof (room (k + j) 8). lia.
Qed.

Lemma tail_loop_copied fuel off len dst : copying src dst0 total (off, len, dst) → (len < fuel)%nat →
  tail_loop fuel src off len dst = copied src dst0 total.
Proof.
  revert off len dst. induction fuel as [|fuel IH]; intros off len dst Hc Hf; [lia|]. cbn [tail_loop].
  destruct (Nat.leb_spec 8 len) as [Hlen|Hlen].
  - apply IH; [|lia]. destruct Hc as [Ht [[k Hk]|H0] Hd]; cbn [fst snd] in *; [subst off dst|lia]. apply copying_step; lia.
  - destruct Hc as [Ht Hpos Hd]; cbn [fst snd] in *. destruct (Nat.ltb_spec 0 len) as [H1|H1].
    + destruct Hpos as [[k Hk]|]; [subst off dst|lia]. replace total with (k * 8 + len)%nat by lia. apply stream_64_step; [lia|lia|].
      apply (room k len); lia.
    + rewrite Hd. f_equal. lia.
Qed.

(** A wide copy and the tail after it. *)
Lemma wide_copied j short (wide := fun len dst => 
    if (len <? short)%nat then (O, len, dst)
    else let '(off, len, dst) := align_loop (S j * 8) len addr src 0 len dst in
         wide_loop (S j * 8) len src off len dst) :
  (let '(off, len, dst) := wide total dst0 in tail_loop (S len) src off len dst) = copied src dst0 total.
Proof.
  assert (copying src dst0 total (O, total, dst0)) as H0.
  { split; [done|by left; exists O|done]. }
  assert (copying src dst0 total (wide total dst0)) as H1.
  { unfold wide. case_if; [done|].
    pose proof (align_loop_copying (S j * 8) total 0 total dst0 H0) as H1.
    destruct (align_loop (S j * 8) total addr src 0 total dst0) as [[off len] dst]. by apply wide_loop_copying. }
  destruct (wide total dst0) as [[off len] dst]. apply tail_loop_copied; [done|lia].
Qed.

Lemma nt_memcpy_copied : nt_memcpy addr dst0 src total = copied src dst0 total.
Proof. rewrite <- (wide_copied 7 512). by destruct total. Qed.

Lemma nt_memcpy_portable_copied : nt_memcpy_portable dst0 src total = copied src dst0 total.
Proof.
  rewrite <- (tail_loop_copied (S total) 0 total dst0); [by destruct total| |lia]. split; [done|by left; exists O|done].
Qed.

End Copy.

(** ** The flushed lines *)
Lemma line_start_spec addr : is_u64 addr → line_start addr = addr - addr mod 64.
Proof.
  intros Ha. unfold line_start, kCacheLineBytes. change (UINT64_MAX - (64 - 1)) with (Z.shiftl (Z.ones 58) 6).
  assert (Z.land addr (Z.shiftl (Z.ones 58) 6) = Z.shiftl (Z.shiftr addr 6) 6) as ->.
  { rewrite <- (Z.land_ones_low (Z.shiftr addr 6) 58).
    - rewrite Z.shiftl_land, <- Z.ldiff_ones_r by lia. apply Z.bits_inj'. intros i Hi.
      rewrite !Z.land_spec, Z.ldiff_spec, !Z.shiftl_spec by done.
      destruct (Z.ltb_spec i 6).
      + rewrite (Z.testbit_neg_r (Z.ones 58)) by lia. by rewrite !andb_false_r.
      + rewrite (Z.ones_spec_high 6) by lia. by rewrite andb_true_r.
    - by apply Z.shiftr_nonneg, Ha.
    - unfold is_u64 in Ha. destruct (decide (addr < 64)) as [Hlt|Hge].
      + rewrite Z.shiftr_div_pow2 by lia. rewrite Z.div_small by lia. done.
      + rewrite Z.log2_shiftr by lia. assert (Z.log2 addr < 64) by (apply Z.log2_lt_pow2; lia). lia. }
  rewrite Z.shiftl_mul_pow2, Z.shiftr_div_pow2 by lia. change (2 ^ 6) with 64.
  pose proof (Z.div_mod addr 64 ltac:(lia)). lia.
Qed.

Lemma flush_loop_spec fuel p end_ : 0 ≤ p → end_ + 63 < 2 ^ 64 → end_ - p ≤ 64 * Z.of_nat fuel →
  p mod 64 = 0 → ∀ q, q ∈ flush_loop fuel p end_ ↔ p ≤ q < end_ ∧ q mod 64 = 0.
Proof.
  revert p. induction fuel as [|fuel IH]; intros p Hp He Hf Hm q; cbn [flush_loop].
  { rewrite elem_of_nil. lia. }
  destruct (Z.ltb_spec p end_) as [Hlt|Hge]; [|rewrite elem_of_nil; lia].
  unfold kCacheLineBytes. rewrite w64_small by (unfold is_u64; lia).
  rewrite elem_of_cons, IH by (Z.to_euclidean_division_equations; lia).
  split; [intros [->|]; [done|lia]|]. intros Hq.
  destruct (decide (q = p)) as [|Hne]; [by left|right]. Z.to_euclidean_division_equations; lia.
Qed.

(** ** Properties *)

(** [nt_memcpy] copies exactly [len] bytes, whatever the alignment of the
    destination, and the only other bytes it touches are the at most seven up
    to the next multiple of eight, which become zero. *)
Theorem nt_memcpy_copies (addr : Z) (dst src : bytes) (len : nat)
    (Hsrc : (len ≤ length src)%nat) (Hdst : ((len + 7) / 8 * 8 ≤ length dst)%nat) :
  nt_memcpy addr dst src len =
    take len src ++ replicate ((len + 7) / 8 * 8 - len) Ascii.zero ++ drop ((len + 7) / 8 * 8) dst.
Proof. by apply nt_memcpy_copied. Qed.

(** The two ways to build the copy, and the one that would use the AVX2 lambda,
    leave the same bytes, whatever the length and the alignment. *)
Theorem builds_agree (addr : Z) (dst src : bytes) (len : nat)
    (Hsrc : (len ≤ length src)%nat) (Hdst : ((len + 7) / 8 * 8 ≤ length dst)%nat) :
  nt_memcpy addr dst src len = nt_memcpy_portable dst src len ∧
  (let '(off, len', dst') := nt_memcpy_avx2 addr src len dst in tail_loop (S len') src off len' dst') =
    nt_memcpy_portable dst src len.
Proof.
  rewrite nt_memcpy_copied, nt_memcpy_portable_copied by done. split; [done|].
  exact (wide_copied src dst len addr Hsrc Hdst 3 256).
Qed.

(** [clflush] flushes exactly the cache lines that hold a byte of the
    range, given by their first address. *)
Theorem clflush_covers (addr : Z) (len : nat) (line : Z)
    (Ha : 0 ≤ addr) (Hend : addr + Z.of_nat len + 63 < 2 ^ 64) (Hlen : (0 < len)%nat) :
  line ∈ clflush addr len ↔
  line mod 64 = 0 ∧ ∃ b, addr ≤ b < addr + Z.of_nat len ∧ line ≤ b < line + 64.
Proof.
  unfold clflush. rewrite line_start_spec by (unfold is_u64; lia).
  rewrite w64_small by (unfold is_u64; lia).
  pose proof (Z.mod_pos_bound addr 64 ltac:(lia)) as Hm.
  rewrite flush_loop_spec; [|Z.to_euclidean_division_equations; lia ..]. split.
  - intros [Hq Hq0]. split; [done|]. exists (Z.max line addr). Z.to_euclidean_division_equations; lia.
  - intros [Hq0 (b&Hb&Hl)]. Z.to_euclidean_division_equations; lia.
Qed.

(** ** Concrete inputs *)
Module Examples.

Definition src : bytes := str "0123456789abcdef".
Definition dst : bytes := replicate 24 "x"%char.

Example nt_memcpy_copies_witness :
  nt_memcpy 4096 dst src 11 = str "0123456789a" ++ replicate 5 Ascii.zero ++ str "xxxxxxxx".
Proof. apply (nt_memcpy_copies 4096 dst src 11); vm_compute; lia. Defined.

Example builds_agree_witness :
  nt_memcpy 4072 (replicate 600 "x"%char) (replicate 592 "y"%char) 592 =
  nt_memcpy_portable (replicate 600 "x"%char) (replicate 592 "y"%char) 592.
Proof.
  apply (builds_agree 4072 (replicate 600 "x"%char) (replicate 592 "y"%char) 592);
    [by rewrite length_replicate|rewrite length_replicate; vm_compute; lia].
Defined.

(** A copy longer than 512 bytes to an address that is not 64-byte aligned. *)
Example long_copy :
  let s := (replicate 37 (str "0123456789abcdef")) ≫= id in
  nt_memcpy 4072 (replicate 600 "x"%char) s 592 = s ++ str "xxxxxxxx".
Proof. by vm_compute. Qed.

Example clflush_covers_witness : 4160 ∈ clflush 4100 100.
Proof. apply (clflush_covers 4100 100 4160); [lia|lia|lia|]. split; [done|]. exists 4160. lia. Defined.

End Examples.
