(* ===== verification/Message.v ===== *)
(** The protocol messages of [include/message_queue.h]: the message types, the
    payload body, the descriptor a ring slot holds in coherent memory and the
    message that joins them.  [wire] is what a message means to a receiver: the
    slot number, the reserved byte and the bytes of [data] past the key and the
    value are not transmitted. *)
From S2P Require Import Prelude.

Definition kMaxBandleNodes : Z := 3.
Definition kBandleRingCapacity : Z := 32768.
Definition kMaxValueBytes : Z := 1088.
Definition kCompletionSlots : Z := Z.shiftl 1 16.

(** [enum class BandleMsgType : uint8_t]. *)
Inductive BandleMsgType := PROPOSAL | P1 | P2 | DECIDE.

#[export] Instance BandleMsgType_eq_dec : EqDecision BandleMsgType.
Proof. solve_decision. Defined.

(** [struct BandlePayload]. *)
Record BandlePayload := {
  p_seq : Z;
  p_round : Z;
  p_sender : Z;
  p_proposer : Z;
  p_client_req_id : Z;
  p_start_tsc : Z;
  p_value : Z;
  p_promise : Z;
  p_op : ascii;
  p_reserved0 : Z;
  p_key_len : Z;
  p_value_len : Z;
  p_data : bytes
}.

(** [struct BandleDescriptor]. *)
Record BandleDescriptor := {
  d_slot_seq : Z;
  d_type : BandleMsgType;
  d_seq : Z;
  d_round : Z;
  d_sender : Z;
  d_proposer : Z;
  d_client_req_id : Z;
  d_start_tsc : Z;
  d_value : Z;
  d_promise : Z;
  d_op : ascii;
  d_reserved0 : Z;
  d_key_len : Z;
  d_value_len : Z
}.

(** [struct BandleMessage]. *)
Record BandleMessage := {
  m_slot_seq : Z;
  m_type : BandleMsgType;
  m_body : BandlePayload
}.

Definition zero_byte : ascii := Ascii.zero.
Definition zero_data : bytes := replicate (Z.to_nat kMaxValueBytes) zero_byte.

(** [BandlePayload{}] and [BandleMessage{}]: the default member values over
    zeroed storage. *)
Definition default_payload : BandlePayload := {|
  p_seq := 0; p_round := 1; p_sender := 0; p_proposer := 0; p_client_req_id := 0;
  p_start_tsc := 0; p_value := 1; p_promise := 0; p_op := "N"; p_reserved0 := 0;
  p_key_len := 0; p_value_len := 0; p_data := zero_data |}.

Definition default_message : BandleMessage :=
  {| m_slot_seq := 0; m_type := PROPOSAL; m_body := default_payload |}.

(** A descriptor of the shared state cleared by node 1 ([memset] to zero); its
    type byte is no enumerator and is never interpreted, because its slot
    number is 0. *)
Definition zero_descriptor : BandleDescriptor := {|
  d_slot_seq := 0; d_type := PROPOSAL; d_seq := 0; d_round := 0; d_sender := 0;
  d_proposer := 0; d_client_req_id := 0; d_start_tsc := 0; d_value := 0; d_promise := 0;
  d_op := zero_byte; d_reserved0 := 0; d_key_len := 0; d_value_len := 0 |}.

(** The 64-bit sum of the two lengths. *)
Definition payload_bytes (b : BandlePayload) : Z := p_key_len b +₆₄ p_value_len b.
Definition descriptor_bytes (d : BandleDescriptor) : Z := d_key_len d +₆₄ d_value_len d.

(** The descriptor [push] and [write_batch_at] build from a message. *)
Definition descriptor_of (slot_seq : Z) (msg : BandleMessage) : BandleDescriptor :=
  let b := m_body msg in {|
  d_slot_seq := slot_seq;
  d_type := m_type msg;
  d_seq := p_seq b;
  d_round := p_round b;
  d_sender := p_sender b;
  d_proposer := p_proposer b;
  d_client_req_id := p_client_req_id b;
  d_start_tsc := p_start_tsc b;
  d_value := p_value b;
  d_promise := p_promise b;
  d_op := p_op b;
  d_reserved0 := 0;
  d_key_len := p_key_len b;
  d_value_len := p_value_len b |}.

(** The fields [read_slot_descriptor] copies into [out]. *)
Definition fill_from_descriptor (d : BandleDescriptor) (out : BandleMessage) : BandleMessage := {|
  m_slot_seq := d_slot_seq d;
  m_type := d_type d;
  m_body := {|
    p_seq := d_seq d;
    p_round := d_round d;
    p_sender := d_sender d;
    p_proposer := d_proposer d;
    p_client_req_id := d_client_req_id d;
    p_start_tsc := d_start_tsc d;
    p_value := d_value d;
    p_promise := d_promise d;
    p_op := d_op d;
    p_reserved0 := p_reserved0 (m_body out);
    p_key_len := d_key_len d;
    p_value_len := d_value_len d;
    p_data := p_data (m_body out) |} |}.

(** [body.data] replaced. *)
Definition set_data (data : bytes) (m : BandleMessage) : BandleMessage :=
  let b := m_body m in {|
  m_slot_seq := m_slot_seq m;
  m_type := m_type m;
  m_body := {|
    p_seq := p_seq b; p_round := p_round b; p_sender := p_sender b;
    p_proposer := p_proposer b; p_client_req_id := p_client_req_id b;
    p_start_tsc := p_start_tsc b; p_value := p_value b; p_promise := p_promise b;
    p_op := p_op b; p_reserved0 := p_reserved0 b; p_key_len := p_key_len b;
    p_value_len := p_value_len b; p_data := data |} |}.

(** ** What a receiver sees of a message *)
Definition wire_data (m : BandleMessage) : bytes :=
  take (Z.to_nat (payload_bytes (m_body m))) (p_data (m_body m)).

Definition wire (m : BandleMessage) : BandleMessage :=
  let b := m_body m in {|
  m_slot_seq := 0;
  m_type := m_type m;
  m_body := {|
    p_seq := p_seq b; p_round := p_round b; p_sender := p_sender b;
    p_proposer := p_proposer b; p_client_req_id := p_client_req_id b;
    p_start_tsc := p_start_tsc b; p_value := p_value b; p_promise := p_promise b;
    p_op := p_op b; p_reserved0 := 0; p_key_len := p_key_len b;
    p_value_len := p_value_len b; p_data := wire_data m |} |}.

(** Messages equal up to what is not transmitted. *)
#[export] Instance message_equiv : Equiv BandleMessage := fun m1 m2 => wire m1 = wire m2.

#[export] Instance message_equivalence : Equivalence (≡@{BandleMessage}).
Proof. split; unfold equiv, message_equiv; congruence. Qed.

#[export] Instance wire_proper : Proper ((≡) ==> (=)) wire.
Proof. by intros m1 m2. Qed.

Lemma wire_wire m : wire (wire m) = wire m.
Proof. unfold wire, wire_data. cbn. by rewrite take_take, Nat.min_id. Qed.

Lemma wire_equiv m : wire m ≡ m.
Proof. apply wire_wire. Qed.

(** A message that fits a slot, with its whole [data] buffer. *)
Record message_ok (m : BandleMessage) : Prop := {
  ok_key_len : 0 ≤ p_key_len (m_body m) < 2 ^ 32;
  ok_value_len : 0 ≤ p_value_len (m_body m) < 2 ^ 32;
  ok_data : length (p_data (m_body m)) = Z.to_nat kMaxValueBytes
}.

Lemma payload_bytes_exact m : message_ok m →
  payload_bytes (m_body m) = p_key_len (m_body m) + p_value_len (m_body m).
Proof. intros [? ? _]. apply w64_small. unfold is_u64. lia. Qed.
