(* ===== verification/Ring.v ===== *)
(** The single-producer single-consumer ring of [include/message_queue.h]
    ([SpscRingView]): the head and tail counters and the descriptors live in
    coherent memory, the payload slots outside it.  The definitions follow the
    methods; the theorems show that the ring is a bounded FIFO queue of wire
    messages, across the wrap-around of the 64-bit counters, and that the
    padded payload stores stay inside their slot. *)
From S2P Require Import Prelude Message.

(** The memory a view points to: [SpscRingMeta], the descriptor array and the
    payload array.  Cells never written hold the zeroes of the initial
    [memset]. *)
Record SpscRing := {
  head : Z;
  tail : Z;
  descs_ : gmap Z BandleDescriptor;
  payloads_ : gmap Z bytes
}.

Definition empty_ring : SpscRing := {| head := 0; tail := 0; descs_ := ∅; payloads_ := ∅ |}.

Definition desc_at (r : SpscRing) (idx : Z) : BandleDescriptor :=
  default zero_descriptor (descs_ r !! idx).
Definition payload_at (r : SpscRing) (idx : Z) : bytes :=
  default zero_data (payloads_ r !! idx).

Definition set_head (h : Z) (r : SpscRing) : SpscRing :=
  {| head := h; tail := tail r; descs_ := descs_ r; payloads_ := payloads_ r |}.
Definition set_desc (idx : Z) (d : BandleDescriptor) (r : SpscRing) : SpscRing :=
  {| head := head r; tail := tail r; descs_ := <[idx := d]> (descs_ r); payloads_ := payloads_ r |}.
Definition set_payload (idx : Z) (p : bytes) (r : SpscRing) : SpscRing :=
  {| head := head r; tail := tail r; descs_ := descs_ r; payloads_ := <[idx := p]> (payloads_ r) |}.

Lemma desc_set_ne idx idx' d r : idx' ≠ idx → desc_at (set_desc idx d r) idx' = desc_at r idx'.
Proof. intros. unfold desc_at, set_desc. cbn. by rewrite lookup_insert_ne. Qed.

Lemma payload_set_ne idx idx' p r : idx' ≠ idx → payload_at (set_payload idx p r) idx' = payload_at r idx'.
Proof. intros. unfold payload_at, set_payload. cbn. by rewrite lookup_insert_ne. Qed.

Lemma payload_set_eq idx p r : payload_at (set_payload idx p r) idx = p.
Proof. unfold payload_at, set_payload. cbn. by rewrite lookup_insert_eq. Qed.

(** ** Payload stores: [nt_store_payload_padded]

    [nt_store_16 dst off src]: 16 bytes of [src] at offset [off]. *)
Definition nt_store_16 (dst : bytes) (off : nat) (src : bytes) : bytes :=
  memcpy_at dst off (take 16 src).

(** [for (off = 0; off < full; off += 64)], [n] rounds from [off]. *)
Fixpoint store_blocks (n off : nat) (data dst : bytes) : bytes :=
  match n with
  | O => dst
  | S n' =>
      let dst := nt_store_16 dst (off + 0) (drop (off + 0) data) in
      let dst := nt_store_16 dst (off + 16) (drop (off + 16) data) in
      let dst := nt_store_16 dst (off + 32) (drop (off + 32) data) in
      let dst := nt_store_16 dst (off + 48) (drop (off + 48) data) in
      store_blocks n' (off + 64) data dst
  end.

(** [while (off + 16 <= len)]: the final offset and the slot; [fuel] bounds
    the rounds. *)
Fixpoint store_words (fuel off len : nat) (data dst : bytes) : nat * bytes :=
  match fuel with
  | O => (off, dst)
  | S fuel' =>
      if (off + 16 <=? len)%nat
      then store_words fuel' (off + 16) len data (nt_store_16 dst off (drop off data))
      else (off, dst)
  end.

(** The slot after the call; fewer than four 16-byte words are left after the
    64-byte blocks, so a fuel of 4 is enough (see [store_payload_spec]). *)
Definition nt_store_payload_padded (dst src : bytes) (len : nat) : bytes :=
  match len with
  | O => dst
  | _ =>
      let full := (len / 64 * 64)%nat in
      let dst := store_blocks (len / 64) 0 src dst in
      let '(off, dst) := store_words 4 full len src dst in
      if (off <? len)%nat
      then let tmp := memcpy_at (replicate 16 zero_byte) 0 (take (len - off) (drop off src)) in
           nt_store_16 dst off tmp
      else dst
  end.

(** ** Reading a slot: [read_slot_descriptor]

    [obs i] is the descriptor the [i]-th copy reads from the slot; a reader
    that runs alone reads the same one every time. *)
Definition kRetries : nat := 64.

Fixpoint read_retry (n i : nat) (obs : nat → BandleDescriptor) (expected : Z)
    (out : BandleMessage) : bool * BandleMessage :=
  match n with
  | O => (false, out)
  | S n' =>
      let d := obs i in
      if negb (d_slot_seq d =? expected) then read_retry n' (S i) obs expected out
      else if descriptor_bytes d >? kMaxValueBytes then (false, out)
      else (true, fill_from_descriptor d out)
  end.

Definition read_slot_descriptor (obs : nat → BandleDescriptor) (expected : Z)
    (out : BandleMessage) : bool * BandleMessage :=
  read_retry kRetries 0 obs expected out.

(** [memcpy(out.body.data, payloads_[idx], bytes)] when [bytes != 0]. *)
Definition copy_payload (r : SpscRing) (idx : Z) (out : BandleMessage) : BandleMessage :=
  let n := payload_bytes (m_body out) in
  if n =? 0 then out
  else set_data (memcpy_at (p_data (m_body out)) 0 (take (Z.to_nat n) (payload_at r idx))) out.

(** [read_slot]. *)
Definition read_slot (r : SpscRing) (idx expected : Z) (out : BandleMessage) : bool * BandleMessage :=
  let '(ok, out) := read_slot_descriptor (fun _ => desc_at r idx) expected out in
  if ok then (true, copy_payload r idx out) else (false, out).

(** ** The view, for a capacity *)
Section View.
Context (Capacity : Z).

Definition MASK : Z := Capacity - 1.

(** Writing the payload and the descriptor of one message into slot [idx]. *)
Definition write_slot (idx slot_seq : Z) (msg : BandleMessage) (r : SpscRing) : SpscRing :=
  let n := payload_bytes (m_body msg) in
  let r := if n =? 0 then r
           else set_payload idx
                  (nt_store_payload_padded (payload_at r idx) (p_data (m_body msg)) (Z.to_nat n)) r in
  set_desc idx (descriptor_of slot_seq msg) r.

(** [push]. *)
Definition push (msg : BandleMessage) (r : SpscRing) : bool * SpscRing :=
  let h := head r in
  let t := tail r in
  if (h -₆₄ t) >=? Capacity then (false, r)
  else if payload_bytes (m_body msg) >? kMaxValueBytes then (false, r)
  else (true, set_head (h +₆₄ 1) (write_slot (Z.land h MASK) (h +₆₄ 1) msg r)).

(** [can_push_batch]: [Some head_out] on success. *)
Definition can_push_batch (count : Z) (r : SpscRing) : option Z :=
  if (head r -₆₄ tail r) +₆₄ count >? Capacity then None else Some (head r).

(** [write_batch_at]: success, [wrote_payload] and the memory; the [i]-th
    message goes to position [head + i]. *)
Fixpoint write_batch_at (h : Z) (msgs : list BandleMessage) (wrote : bool) (r : SpscRing)
    : bool * bool * SpscRing :=
  match msgs with
  | [] => (true, wrote, r)
  | msg :: msgs' =>
      let n := payload_bytes (m_body msg) in
      if n >? kMaxValueBytes then (false, wrote, r)
      else write_batch_at (h +₆₄ 1) msgs' (wrote || negb (n =? 0))
             (write_slot (Z.land h MASK) (h +₆₄ 1) msg r)
  end.

(** [publish_head]. *)
Definition publish_head (h : Z) (r : SpscRing) : SpscRing := set_head h r.

(** [push_batch]. *)
Definition push_batch (msgs : list BandleMessage) (r : SpscRing) : bool * SpscRing :=
  match msgs with
  | [] => (true, r)
  | _ =>
      let count := Z.of_nat (length msgs) in
      match can_push_batch count r with
      | None => (false, r)
      | Some h =>
          let '(ok, _, r') := write_batch_at h msgs false r in
          if ok then (true, publish_head (h +₆₄ count) r') else (false, r')
      end
  end.

(** [commit_tail]. *)
Definition commit_tail (t : Z) (r : SpscRing) : SpscRing :=
  {| head := head r; tail := t; descs_ := descs_ r; payloads_ := payloads_ r |}.

(** [pop]. *)
Definition pop (r : SpscRing) (out : BandleMessage) : bool * BandleMessage * SpscRing :=
  let t := tail r in
  if t =? head r then (false, out, r)
  else let '(ok, out) := read_slot r (Z.land t MASK) (t +₆₄ 1) out in
       if ok then (true, out, commit_tail (t +₆₄ 1) r) else (false, out, r).

(** [read_at_abs]. *)
Definition read_at_abs (r : SpscRing) (abs : Z) (out : BandleMessage) : bool * BandleMessage :=
  read_slot r (Z.land abs MASK) (abs +₆₄ 1) out.

(** The first loop of [read_batch_at_abs]: descriptors into the buffers
    [outs] until one is not ready; the number read. *)
Fixpoint read_descriptors (r : SpscRing) (abs : Z) (outs : list BandleMessage)
    : nat * list BandleMessage :=
  match outs with
  | [] => (O, [])
  | out :: outs' =>
      let '(ok, out) := read_slot_descriptor (fun _ => desc_at r (Z.land abs MASK)) (abs +₆₄ 1) out in
      if ok then let '(n, rest) := read_descriptors r (abs +₆₄ 1) outs' in (S n, out :: rest)
      else (O, out :: outs')
  end.

(** The second loop: the payloads of the first [n] buffers. *)
Fixpoint copy_payloads (r : SpscRing) (abs : Z) (n : nat) (outs : list BandleMessage)
    : list BandleMessage :=
  match n, outs with
  | S n', out :: outs' =>
      copy_payload r (Z.land abs MASK) out :: copy_payloads r (abs +₆₄ 1) n' outs'
  | _, _ => outs
  end.

(** [read_batch_at_abs], with [max_count] the number of buffers. *)
Definition read_batch_at_abs (r : SpscRing) (abs : Z) (outs : list BandleMessage)
    : nat * list BandleMessage :=
  let '(n, outs) := read_descriptors r abs outs in
  (n, copy_payloads r abs n outs).

(** [is_full]. *)
Definition is_full (r : SpscRing) : bool := (head r -₆₄ tail r) >=? Capacity.

End View.

(** ** The padded stores *)
Definition pad16 (len : nat) : nat := ((len + 15) / 16 * 16)%nat.

Lemma nt_store_16_extend data dst off :
  (off + 16 ≤ length data)%nat → (off + 16 ≤ length dst)%nat →
  nt_store_16 (take off data ++ drop off dst) off (drop off data) =
  take (off + 16) data ++ drop (off + 16) dst.
Proof. intros. by apply memcpy_at_extend. Qed.

Lemma store_blocks_extend n off data dst :
  (off + 64 * n ≤ length data)%nat → (off + 64 * n ≤ length dst)%nat →
  store_blocks n off data (take off data ++ drop off dst) =
  take (off + 64 * n) data ++ drop (off + 64 * n) dst.
Proof.
  revert off. induction n as [|n IH]; intros off Hd Hs; cbn [store_blocks].
  { by rewrite Nat.mul_0_r, Nat.add_0_r. }
  rewrite Nat.add_0_r, nt_store_16_extend by lia.
  rewrite nt_store_16_extend by lia. rewrite <- (Nat.add_assoc off 16 16).
  rewrite nt_store_16_extend by lia. rewrite <- (Nat.add_assoc off _ 16).
  rewrite nt_store_16_extend by lia. rewrite <- (Nat.add_assoc off _ 16).
  rewrite IH by lia. do 2 f_equal; lia.
Qed.

Lemma store_words_extend fuel off len data dst :
  (off ≤ len)%nat → (len ≤ length data)%nat → (len ≤ length dst)%nat →
  (len - off < 16 * S fuel)%nat →
  ∃ off', (off ≤ off' ≤ len)%nat ∧ (len < off' + 16)%nat ∧ (off' mod 16 = off mod 16)%nat ∧
    store_words fuel off len data (take off data ++ drop off dst) =
      (off', take off' data ++ drop off' dst).
Proof.
  revert off. induction fuel as [|fuel IH]; intros off Ho Hd Hs Hf; cbn [store_words].
  { exists off. split; [lia|]. split; [lia|done]. }
  destruct (Nat.leb_spec (off + 16) len).
  - rewrite nt_store_16_extend by lia.
    destruct (IH (off + 16)%nat) as (off'&?&?&Hm&->); [lia..|].
    exists off'. split; [lia|]. split; [lia|]. split; [|done].
    rewrite Hm. rewrite <- Nat.Div0.add_mod_idemp_r, Nat.Div0.mod_same. by rewrite Nat.add_0_r.
  - exists off. split; [lia|]. split; [lia|done].
Qed.

Lemma pad16_bounds len : (len ≤ pad16 len < len + 16)%nat ∧ (pad16 len mod 16 = 0)%nat.
Proof.
  unfold pad16. split; [|apply Nat.Div0.mod_mul].
  pose proof (Nat.div_mod_eq (len + 15) 16). pose proof (Nat.mod_upper_bound (len + 15) 16). lia.
Qed.

Lemma pad16_unique len n : (len ≤ n < len + 16)%nat → (n mod 16 = 0)%nat → pad16 len = n.
Proof.
  intros Hn Hm. destruct (pad16_bounds len) as [Hp Hpm].
  pose proof (Nat.div_mod_eq n 16). pose proof (Nat.div_mod_eq (pad16 len) 16). lia.
Qed.

Lemma store_payload_exact dst src len :
  (len ≤ length src)%nat → (pad16 len ≤ length dst)%nat →
  nt_store_payload_padded dst src len =
    take len src ++ replicate (pad16 len - len) zero_byte ++ drop (pad16 len) dst.
Proof.
  intros Hsrc Hdst. pose proof (pad16_bounds len) as [Hp _].
  unfold nt_store_payload_padded. destruct len as [|len']; [done|].
  set (len := S len') in *. cbv zeta.
  pose proof (Nat.div_mod_eq len 64). pose proof (Nat.mod_upper_bound len 64).
  replace (store_blocks (len / 64) 0 src dst) with
    (take (len / 64 * 64) src ++ drop (len / 64 * 64) dst).
  2:{ replace (len / 64 * 64)%nat with (0 + 64 * (len / 64))%nat by lia.
      rewrite <- store_blocks_extend by lia. by rewrite take_0, drop_0. }
  destruct (store_words_extend 4 (len / 64 * 64) len src dst) as (off&?&?&Hm&->); [lia..|].
  assert (off mod 16 = 0)%nat as Hm0.
  { rewrite Hm. replace (len / 64 * 64)%nat with (len / 64 * 4 * 16)%nat by lia. apply Nat.Div0.mod_mul. }
  destruct (Nat.ltb_spec off len) as [Hlt|Hge].
  - assert (pad16 len = off + 16)%nat as Hpad.
    { apply pad16_unique; [lia|].
      rewrite <- Nat.Div0.add_mod_idemp_r, Nat.Div0.mod_same. by rewrite Nat.add_0_r. }
    rewrite Hpad in *.
    assert (memcpy_at (replicate 16 zero_byte) 0 (take (len - off) (drop off src)) =
            take (len - off) (drop off src) ++ replicate (16 - (len - off)) zero_byte) as ->.
    { unfold memcpy_at. rewrite take_0, app_nil_l, drop_replicate. do 2 f_equal.
      rewrite length_take, length_drop. lia. }
    set (tmp := take (len - off) (drop off src) ++ replicate (16 - (len - off)) zero_byte).
    assert (length tmp = 16%nat) as Htmp.
    { unfold tmp. rewrite length_app, length_take, length_drop, length_replicate. lia. }
    unfold nt_store_16. rewrite (take_ge tmp) by lia.
    unfold memcpy_at. rewrite take_app_le, take_take, Nat.min_id by (rewrite length_take; lia).
    rewrite Htmp, drop_app_ge, length_take, drop_drop by (rewrite length_take; lia).
    unfold tmp. rewrite <- app_assoc, (app_assoc (take off src)), take_take_drop.
    f_equal; [f_equal; lia|]. f_equal; [f_equal; lia|]. f_equal. lia.
  - assert (off = len) as -> by lia. rewrite (pad16_unique len len) by lia.
    by rewrite Nat.sub_diag.
Qed.

(** A message the ring accepts: its buffer is whole and its key and value fit
    in the slot. *)
Record msg_fits (m : BandleMessage) : Prop := {
  fits_data : length (p_data (m_body m)) = Z.to_nat kMaxValueBytes;
  fits_bytes : payload_bytes (m_body m) ≤ kMaxValueBytes
}.

#[export] Instance msg_fits_dec m : Decision (msg_fits m).
Proof.
  destruct (decide (length (p_data (m_body m)) = Z.to_nat kMaxValueBytes));
    [destruct (decide (payload_bytes (m_body m) ≤ kMaxValueBytes))|].
  - left. by split.
  - right. by intros [_ ?].
  - right. by intros [? _].
Defined.

(** ** The ring as a queue *)
Section RingSpec.
Context (Capacity : Z).
(** The [static_assert] of the template, and a capacity that is a [size_t]. *)
Context (Hcap : 0 < Capacity < 2 ^ 64) (Hpow : Z.land Capacity (Capacity - 1) = 0).

(** Position [n] of the stream is stored in its slot. *)
Definition slot_holds (r : SpscRing) (n : Z) (m : BandleMessage) : Prop :=
  desc_at r (n mod Capacity) = descriptor_of (w64 (n + 1)) m ∧
  take (Z.to_nat (payload_bytes (m_body m))) (payload_at r (n mod Capacity)) =
    p_data (m_body m).

(** The memory of a ring whose consumer is at position [T] of the stream:
    [q] is published and not consumed, [ws] is written behind it and not yet
    published.  The counters are the low 64 bits of the positions. *)
Record ring_rep (r : SpscRing) (T : Z) (q ws : list BandleMessage) : Prop := {
  rep_tail : tail r = w64 T;
  rep_head : head r = w64 (T + Z.of_nat (length q));
  rep_len : Z.of_nat (length (q ++ ws)) ≤ Capacity;
  rep_slots i m : (q ++ ws) !! i = Some m → slot_holds r (T + Z.of_nat i) m;
  rep_msgs : Forall (fun m => wire m = m ∧ payload_bytes (m_body m) ≤ kMaxValueBytes) (q ++ ws);
  rep_payloads idx : length (payload_at r idx) = Z.to_nat kMaxValueBytes
}.

Lemma mask_position n : Z.land (w64 n) (MASK Capacity) = n mod Capacity.
Proof.
  destruct (land_pred_pow2 Capacity ltac:(lia) Hpow) as (k&Hk&Hc).
  assert (k < 64) by (apply (Z.pow_lt_mono_r_iff 2); lia).
  unfold MASK. rewrite Hc, land_mask_mod, w64_mod_pow2 by lia. done.
Qed.

Lemma payload_bytes_wire m : payload_bytes (m_body (wire m)) = payload_bytes (m_body m).
Proof. done. Qed.

Lemma payload_bytes_nonneg b : 0 ≤ payload_bytes b.
Proof. apply w64_range. Qed.

Lemma pad16_slot n : 0 ≤ n ≤ kMaxValueBytes → (pad16 (Z.to_nat n) ≤ Z.to_nat kMaxValueBytes)%nat.
Proof.
  unfold kMaxValueBytes. intros Hn. change (Z.to_nat 1088) with 1088%nat.
  destruct (pad16_bounds (Z.to_nat n)) as [? Hm].
  pose proof (Nat.div_mod_eq (pad16 (Z.to_nat n)) 16). lia.
Qed.

Lemma write_slot_desc idx s m r idx' : idx' ≠ idx →
  desc_at (write_slot idx s m r) idx' = desc_at r idx' ∧
  payload_at (write_slot idx s m r) idx' = payload_at r idx'.
Proof.
  intros Hne. unfold write_slot, desc_at, payload_at.
  destruct (payload_bytes (m_body m) =? 0); cbn; by rewrite ?lookup_insert_ne.
Qed.

Lemma write_slot_counters idx s m r :
  head (write_slot idx s m r) = head r ∧ tail (write_slot idx s m r) = tail r.
Proof. unfold write_slot. by destruct (payload_bytes (m_body m) =? 0). Qed.

Lemma write_slot_at idx s m r : msg_fits m →
  length (payload_at r idx) = Z.to_nat kMaxValueBytes →
  desc_at (write_slot idx s m r) idx = descriptor_of s m ∧
  take (Z.to_nat (payload_bytes (m_body m))) (payload_at (write_slot idx s m r) idx) = wire_data m ∧
  length (payload_at (write_slot idx s m r) idx) = Z.to_nat kMaxValueBytes.
Proof.
  intros [Hd Hb] Hl. pose proof (payload_bytes_nonneg (m_body m)) as Hnn.
  unfold write_slot, wire_data. destruct (Z.eqb_spec (payload_bytes (m_body m)) 0) as [H0|H0].
  - rewrite H0. unfold desc_at, payload_at in *. cbn. by rewrite lookup_insert_eq.
  - unfold desc_at, payload_at in *. cbn. rewrite !lookup_insert_eq. cbn.
    set (n := Z.to_nat (payload_bytes (m_body m))).
    assert (pad16 n ≤ Z.to_nat kMaxValueBytes)%nat by (apply pad16_slot; lia).
    assert (n ≤ Z.to_nat kMaxValueBytes)%nat by (unfold n; lia).
    pose proof (pad16_bounds n) as [? _].
    rewrite store_payload_exact by lia. split; [done|]. split.
    + rewrite take_app_length'; [done|]. rewrite length_take. lia.
    + rewrite !length_app, length_take, length_replicate, length_drop. lia.
Qed.

Lemma msg_fits_wire m : msg_fits m →
  wire (wire m) = wire m ∧ payload_bytes (m_body (wire m)) ≤ kMaxValueBytes.
Proof. intros [? ?]. split; [apply wire_wire|done]. Qed.

(** Writing the next position extends the written part. *)
Lemma rep_stage r T q ws m : ring_rep r T q ws → msg_fits m →
  Z.of_nat (length (q ++ ws)) < Capacity →
  let n := T + Z.of_nat (length (q ++ ws)) in
  ring_rep (write_slot (Z.land (w64 n) (MASK Capacity)) (w64 (w64 n + 1)) m r) T q (ws ++ [wire m]).
Proof.
  intros Hr Hm Hlt n. rewrite mask_position, w64_add_l.
  destruct (write_slot_counters (n mod Capacity) (w64 (n + 1)) m r) as [Hh Ht].
  split.
  - rewrite Ht. apply Hr.
  - rewrite Hh. apply Hr.
  - rewrite app_assoc, length_app. cbn. lia.
  - intros i m' Hi. rewrite app_assoc in Hi. unfold slot_holds.
    destruct (decide (i = length (q ++ ws))) as [->|Hne].
    + rewrite lookup_app_r, Nat.sub_diag in Hi by done. cbn in Hi. injection Hi as <-.
      fold n. destruct (write_slot_at (n mod Capacity) (w64 (n + 1)) m r Hm) as (->&Hp&_);
        [apply Hr|]. split; [done|exact Hp].
    + assert (i < length (q ++ ws))%nat as Hil.
      { apply lookup_lt_Some in Hi. rewrite length_app in Hi. cbn in Hi. lia. }
      rewrite lookup_app_l in Hi by done.
      edestruct (write_slot_desc (n mod Capacity) (w64 (n + 1)) m r) as [-> ->];
        [|by apply (rep_slots _ _ _ _ Hr)].
      intros Heq. apply mod_window_inj in Heq; unfold n in *; lia.
  - rewrite app_assoc. apply Forall_app. split; [apply Hr|]. apply Forall_singleton.
    by apply msg_fits_wire.
  - intros idx. destruct (decide (idx = n mod Capacity)) as [->|Hne].
    + apply write_slot_at; [done|apply Hr].
    + destruct (write_slot_desc (n mod Capacity) (w64 (n + 1)) m r idx Hne) as [_ ->]. apply Hr.
Qed.

Lemma rep_unstage r T q ws : ring_rep r T q ws → ring_rep r T q [].
Proof.
  intros Hr. pose proof (rep_len _ _ _ _ Hr) as Hl. rewrite length_app in Hl.
  split; try apply Hr; rewrite ?app_nil_r.
  - lia.
  - intros i m Hi. apply (rep_slots _ _ _ _ Hr). by apply lookup_app_l_Some.
  - pose proof (rep_msgs _ _ _ _ Hr) as Hm. by apply Forall_app in Hm as [? _].
Qed.

Lemma rep_publish r T q ws : ring_rep r T q ws →
  ring_rep (publish_head (w64 (T + Z.of_nat (length (q ++ ws)))) r) T (q ++ ws) [].
Proof.
  intros Hr. split; try apply Hr; rewrite ?app_nil_r; try done; try apply Hr.
Qed.

Lemma ring_used r T q ws : ring_rep r T q ws → head r -₆₄ tail r = Z.of_nat (length q).
Proof.
  intros Hr. rewrite (rep_head _ _ _ _ Hr), (rep_tail _ _ _ _ Hr).
  autorewrite with bandle_wrap. pose proof (rep_len _ _ _ _ Hr) as Hl. rewrite length_app in Hl.
  rewrite w64_small; [|unfold is_u64]; lia.
Qed.

(** [ring_queue r q]: the ring holds the messages [q], oldest first. *)
Definition ring_queue (r : SpscRing) (q : list BandleMessage) : Prop := ∃ T, ring_rep r T q [].

Lemma empty_ring_queue : ring_queue empty_ring [].
Proof.
  exists 0. split; try done. cbn. lia.
Qed.

Lemma push_rep m r q : ring_queue r q → length (p_data (m_body m)) = Z.to_nat kMaxValueBytes →
  let '(ok, r') := push Capacity m r in
  ok = (Z.of_nat (length q) <? Capacity) && (payload_bytes (m_body m) <=? kMaxValueBytes) ∧
  ring_queue r' (if ok then q ++ [wire m] else q) ∧ (ok = false → r' = r).
Proof.
  intros [T Hr] Hd. unfold push. cbv zeta. rewrite (ring_used _ _ _ _ Hr), Z.geb_leb, Z.gtb_ltb.
  destruct (Z.leb_spec Capacity (Z.of_nat (length q))); [|destruct (Z.ltb_spec kMaxValueBytes (payload_bytes (m_body m)))].
  - rewrite (proj2 (Z.ltb_ge _ _)) by lia. split; [done|]. split; [by exists T|done].
  - rewrite (proj2 (Z.leb_gt _ _)) by lia. split; [by rewrite andb_false_r|]. split; [by exists T|done].
  - rewrite (proj2 (Z.ltb_lt _ _)), (proj2 (Z.leb_le _ _)) by lia.
    split; [done|]. split; [|done]. exists T.
    assert (msg_fits m) as Hm by (by split).
    pose proof (rep_stage r T q [] m Hr Hm) as Hs. rewrite app_nil_r in Hs.
    specialize (Hs ltac:(lia)). apply rep_publish in Hs.
    rewrite (rep_head _ _ _ _ Hr). unfold publish_head in Hs. rewrite !w64_add_l in *.
    rewrite length_app in Hs. cbn [length app] in Hs.
    replace (T + Z.of_nat (length q + 1)) with (T + Z.of_nat (length q) + 1) in Hs by lia. exact Hs.
Qed.

Lemma write_batch_rep msgs r T q ws wrote : ring_rep r T q ws → Forall msg_fits msgs →
  Z.of_nat (length (q ++ ws) + length msgs) ≤ Capacity →
  ∃ wrote' r', write_batch_at Capacity (w64 (T + Z.of_nat (length (q ++ ws)))) msgs wrote r =
    (true, wrote', r') ∧ ring_rep r' T q (ws ++ (wire <$> msgs)).
Proof.
  revert r ws wrote. induction msgs as [|m msgs IH]; intros r ws wrote Hr Hms Hlen.
  { exists wrote, r. cbn. by rewrite app_nil_r. }
  apply Forall_cons in Hms as [Hm Hms]. cbn [length] in Hlen. cbn.
  rewrite Z.gtb_ltb, (proj2 (Z.ltb_ge _ _)) by apply Hm.
  pose proof (rep_stage r T q ws m Hr Hm ltac:(lia)) as Hs. cbv zeta in Hs.
  destruct (IH _ (ws ++ [wire m]) (wrote || negb (payload_bytes (m_body m) =? 0)) Hs Hms) as (wrote'&r'&Hw&Hr').
  { rewrite app_assoc, length_app. cbn. lia. }
  exists wrote', r'. split; [|by rewrite <- app_assoc in Hr'].
  rewrite <- Hw. f_equal. rewrite w64_add_l. f_equal.
  rewrite !length_app. cbn [length]. lia.
Qed.

(** An oversized message stops the batch; what was written stays unpublished. *)
Lemma write_batch_fail msgs r T q ws wrote :
  ring_rep r T q ws → Forall (fun m => length (p_data (m_body m)) = Z.to_nat kMaxValueBytes) msgs →
  Z.of_nat (length (q ++ ws) + length msgs) ≤ Capacity →
  ¬ Forall msg_fits msgs →
  ∃ wrote' r', write_batch_at Capacity (w64 (T + Z.of_nat (length (q ++ ws)))) msgs wrote r =
    (false, wrote', r') ∧ ring_rep r' T q [].
Proof.
  revert r ws wrote. induction msgs as [|m msgs IH]; intros r ws wrote Hr Hms Hlen Hbad.
  { by destruct Hbad. }
  apply Forall_cons in Hms as [Hm Hms]. cbn [length] in Hlen. cbn. rewrite Z.gtb_ltb.
  destruct (Z.ltb_spec kMaxValueBytes (payload_bytes (m_body m))) as [Hbig|Hok].
  { exists wrote, r. split; [done|]. by eapply rep_unstage. }
  assert (msg_fits m) as Hfit by (by split).
  pose proof (rep_stage r T q ws m Hr Hfit ltac:(lia)) as Hs. cbv zeta in Hs.
  destruct (IH _ (ws ++ [wire m]) (wrote || negb (payload_bytes (m_body m) =? 0)) Hs Hms) as (wrote'&r'&Hw&Hr').
  { rewrite !length_app in *. cbn [length]. lia. }
  { intros Hall. apply Hbad. by apply Forall_cons. }
  exists wrote', r'. split; [|done]. rewrite <- Hw. f_equal. rewrite w64_add_l. f_equal.
  rewrite !length_app. cbn [length]. lia.
Qed.

Lemma can_push_batch_rep r T q n : ring_rep r T q [] → 0 ≤ n → n + Capacity < 2 ^ 64 →
  can_push_batch Capacity n r =
    if Z.of_nat (length q) + n <=? Capacity then Some (w64 (T + Z.of_nat (length q))) else None.
Proof.
  intros Hr Hn Hb. unfold can_push_batch. rewrite (ring_used _ _ _ _ Hr), (rep_head _ _ _ _ Hr).
  pose proof (rep_len _ _ _ _ Hr) as Hl. rewrite app_nil_r in Hl.
  rewrite Z.gtb_ltb, w64_small by (unfold is_u64; lia).
  destruct (Z.leb_spec (Z.of_nat (length q) + n) Capacity).
  - by rewrite (proj2 (Z.ltb_ge _ _)) by lia.
  - by rewrite (proj2 (Z.ltb_lt _ _)) by lia.
Qed.

Lemma push_batch_rep msgs r q : ring_queue r q →
  Forall (fun m => length (p_data (m_body m)) = Z.to_nat kMaxValueBytes) msgs →
  Z.of_nat (length msgs) + Capacity < 2 ^ 64 →
  let '(ok, r') := push_batch Capacity msgs r in
  ok = bool_decide (Z.of_nat (length q + length msgs) ≤ Capacity ∧ Forall msg_fits msgs) ∧
  ring_queue r' (if ok then q ++ (wire <$> msgs) else q).
Proof.
  intros [T Hr] Hms Hlen. unfold push_batch. pose proof (rep_len _ _ _ _ Hr) as Hl.
  rewrite app_nil_r in Hl. destruct msgs as [|m0 msgs0].
  { rewrite bool_decide_true by (split; [cbn; lia|by apply Forall_nil]).
    cbn. rewrite app_nil_r. split; [done|by exists T]. }
  set (msgs := m0 :: msgs0) in *.
  rewrite (can_push_batch_rep r T q) by (done || lia).
  destruct (Z.leb_spec (Z.of_nat (length q) + Z.of_nat (length msgs)) Capacity) as [Hle|Hgt].
  2:{ rewrite bool_decide_false by lia. split; [done|by exists T]. }
  pose proof (write_batch_rep msgs r T q [] false Hr) as Hok.
  pose proof (write_batch_fail msgs r T q [] false Hr Hms) as Hko.
  rewrite app_nil_r in Hok, Hko. specialize (Hko ltac:(lia)).
  destruct (decide (Forall msg_fits msgs)) as [Hfit|Hbad].
  - destruct (Hok Hfit ltac:(lia)) as (wrote'&r'&->&Hr').
    rewrite bool_decide_true by (split; [lia|done]). split; [done|]. exists T.
    apply rep_publish in Hr'. rewrite app_nil_l in Hr'. rewrite w64_add_l. rewrite length_app, length_fmap in Hr'.
    replace (T + Z.of_nat (length q) + Z.of_nat (length msgs)) with
      (T + Z.of_nat (length q + length msgs)) by lia. exact Hr'.
  - destruct (Hko Hbad) as (wrote'&r'&->&Hr').
    rewrite bool_decide_false by (by intros [_ ?]). split; [done|by exists T].
Qed.

(** Reading the slot of a stored position. *)
Lemma read_retry_hit n i obs expected out : d_slot_seq (obs i) = expected →
  descriptor_bytes (obs i) ≤ kMaxValueBytes →
  read_retry (S n) i obs expected out = (true, fill_from_descriptor (obs i) out).
Proof.
  intros Hs Hb. cbn. rewrite (proj2 (Z.eqb_eq _ _)) by done. cbn.
  by rewrite Z.gtb_ltb, (proj2 (Z.ltb_ge _ _)) by done.
Qed.

Lemma read_descriptor_rep r n m out : slot_holds r n m →
  payload_bytes (m_body m) ≤ kMaxValueBytes →
  read_slot_descriptor (fun _ => desc_at r (n mod Capacity)) (w64 (n + 1)) out =
    (true, fill_from_descriptor (descriptor_of (w64 (n + 1)) m) out).
Proof.
  intros [Hd _] Hb. unfold read_slot_descriptor, kRetries. rewrite Hd.
  by apply read_retry_hit.
Qed.

Lemma copy_payload_wire r idx s m out :
  length (payload_at r idx) = Z.to_nat kMaxValueBytes →
  take (Z.to_nat (payload_bytes (m_body m))) (payload_at r idx) = p_data (m_body m) →
  wire m = m → payload_bytes (m_body m) ≤ kMaxValueBytes →
  wire (copy_payload r idx (fill_from_descriptor (descriptor_of s m) out)) = m.
Proof.
  intros Hlen Hp Hw Hb. pose proof (payload_bytes_nonneg (m_body m)).
  set (x := fill_from_descriptor _ out).
  assert (payload_bytes (m_body x) = payload_bytes (m_body m)) as Hx by done.
  assert (wire_data (copy_payload r idx x) = p_data (m_body m)) as Hdata.
  { unfold copy_payload, wire_data. rewrite Hx.
    destruct (Z.eqb_spec (payload_bytes (m_body m)) 0) as [H0|H0].
    - rewrite Hx, H0 in *. by rewrite <- Hp.
    - change (payload_bytes (m_body (set_data ?d x))) with (payload_bytes (m_body x)).
      rewrite Hx. cbn [m_body set_data p_data]. rewrite take_memcpy_at_0; [done|].
      rewrite length_take, Hlen. lia. }
  pose proof (f_equal (fun m => p_data (m_body m)) Hw) as Hwd. cbn in Hwd.
  transitivity (wire m); [|exact Hw]. unfold wire. rewrite Hdata, Hwd.
  unfold copy_payload. rewrite Hx. by destruct (payload_bytes (m_body m) =? 0).
Qed.

Lemma copy_payload_rep r T q ws n m out : ring_rep r T q ws → slot_holds r n m →
  wire m = m → payload_bytes (m_body m) ≤ kMaxValueBytes →
  wire (copy_payload r (n mod Capacity)
    (fill_from_descriptor (descriptor_of (w64 (n + 1)) m) out)) = m.
Proof. intros Hr [_ Hp]. apply copy_payload_wire; [apply Hr|exact Hp]. Qed.

Lemma pop_rep r q out : ring_queue r q →
  let '(ok, out', r') := pop Capacity r out in
  match q with
  | [] => ok = false ∧ out' = out ∧ r' = r
  | m :: q' => ok = true ∧ wire out' = m ∧ ring_queue r' q'
  end.
Proof.
  intros [T Hr]. unfold pop. rewrite (rep_tail _ _ _ _ Hr), (rep_head _ _ _ _ Hr).
  pose proof (rep_len _ _ _ _ Hr) as Hl. rewrite app_nil_r in Hl. destruct q as [|m q].
  { cbn [length]. rewrite Z.add_0_r, Z.eqb_refl. done. }
  cbn [length] in *. rewrite (proj2 (Z.eqb_neq _ _)).
  2:{ intros Heq. assert (w64 (T + Z.of_nat (S (length q)) - T) = 0) as H0.
      { rewrite <- w64_sub_l, <- Heq, w64_sub_l, Z.sub_diag. done. }
      rewrite w64_small in H0; [|unfold is_u64]; lia. }
  rewrite mask_position, w64_add_l.
  pose proof (rep_slots _ _ _ _ Hr 0%nat m eq_refl) as Hm. rewrite Z.add_0_r in Hm.
  pose proof (rep_msgs _ _ _ _ Hr) as Hall. cbn [app] in Hall.
  apply Forall_cons in Hall as [[Hw Hb] Hall]. unfold read_slot.
  rewrite (read_descriptor_rep r T m out Hm Hb).
  split; [done|]. split; [by eapply copy_payload_rep|].
  exists (T + 1). split; cbn; try done.
  - rewrite (rep_head _ _ _ _ Hr). f_equal. cbn [length]. lia.
  - rewrite app_nil_r. lia.
  - intros i m' Hi. replace (T + 1 + Z.of_nat i) with (T + Z.of_nat (S i)) by lia.
    by apply (rep_slots _ _ _ _ Hr (S i)).
  - apply Hr.
Qed.

Lemma read_batch_rep_aux r T q ws n outs : ring_rep r T q ws →
  (n + length outs ≤ length q)%nat →
  let '(k, outs1) := read_descriptors Capacity r (w64 (T + Z.of_nat n)) outs in
  k = length outs ∧
  length (copy_payloads Capacity r (w64 (T + Z.of_nat n)) k outs1) = length outs ∧
  wire <$> copy_payloads Capacity r (w64 (T + Z.of_nat n)) k outs1 = take (length outs) (drop n q).
Proof.
  intros Hr. revert n. induction outs as [|out outs IH]; intros n Hn; [done|].
  cbn [length] in Hn. cbn [read_descriptors].
  destruct (lookup_lt_is_Some_2 q n) as [m Hm]; [lia|].
  pose proof (rep_slots _ _ _ _ Hr n m ltac:(by apply lookup_app_l_Some)) as Hs.
  assert (wire m = m ∧ payload_bytes (m_body m) ≤ kMaxValueBytes) as [Hw Hb].
  { pose proof (rep_msgs _ _ _ _ Hr) as Hall. apply Forall_app in Hall as [Hall _].
    by eapply Forall_lookup_1 in Hall. }
  rewrite mask_position, w64_add_l, (read_descriptor_rep r _ m out Hs Hb).
  specialize (IH (S n) ltac:(lia)).
  replace (T + Z.of_nat (S n)) with (T + Z.of_nat n + 1) in IH by lia.
  destruct (read_descriptors Capacity r (w64 (T + Z.of_nat n + 1)) outs) as [k outs1].
  destruct IH as (->&Hl&Hq). cbn [copy_payloads length].
  rewrite mask_position, w64_add_l. split; [done|]. split; [lia|].
  rewrite fmap_cons, Hq, (drop_S _ _ _ Hm). cbn. f_equal.
  by eapply copy_payload_rep.
Qed.

Lemma read_batch_rep r T q ws outs : ring_rep r T q ws → (length outs ≤ length q)%nat →
  ∃ outs', read_batch_at_abs Capacity r (w64 T) outs = (length outs, outs') ∧
    length outs' = length outs ∧ wire <$> outs' = take (length outs) q.
Proof.
  intros Hr Hn. pose proof (read_batch_rep_aux r T q ws 0 outs Hr Hn) as Ha.
  cbn in Ha. rewrite Z.add_0_r in Ha. unfold read_batch_at_abs.
  destruct (read_descriptors Capacity r (w64 T) outs) as [k outs1].
  destruct Ha as (->&Hl&Hq). rewrite drop_0 in Hq. eauto.
Qed.

Lemma commit_rep r T q ws n : ring_rep r T q ws → (n ≤ length q)%nat →
  ring_rep (commit_tail (w64 (T + Z.of_nat n)) r) (T + Z.of_nat n) (drop n q) ws.
Proof.
  intros Hr Hn. pose proof (rep_len _ _ _ _ Hr) as Hl. rewrite length_app in Hl.
  split; cbn; try done.
  - rewrite (rep_head _ _ _ _ Hr), length_drop. f_equal. lia.
  - rewrite length_app, length_drop. lia.
  - intros i m Hi. replace (T + Z.of_nat n + Z.of_nat i) with (T + Z.of_nat (n + i)) by lia.
    apply (rep_slots _ _ _ _ Hr). rewrite <- drop_app_le, lookup_drop in Hi by done. done.
  - rewrite <- drop_app_le by done. apply Forall_drop, Hr.
  - apply Hr.
Qed.

End RingSpec.

(** ** Abstract specification: a bounded FIFO queue of wire messages *)
Module QueueSpec.
Section Spec.
Context (Capacity : Z).

Definition push_batch (msgs q : list BandleMessage) : bool * list BandleMessage :=
  if bool_decide (Z.of_nat (length q + length msgs) ≤ Capacity) &&
     forallb (fun m => payload_bytes (m_body m) <=? kMaxValueBytes) msgs
  then (true, q ++ (wire <$> msgs)) else (false, q).

Definition push (m : BandleMessage) (q : list BandleMessage) : bool * list BandleMessage :=
  push_batch [m] q.

Definition pop (q : list BandleMessage) : option BandleMessage * list BandleMessage :=
  match q with [] => (None, []) | m :: q' => (Some m, q') end.

Definition peek (n : nat) (q : list BandleMessage) : list BandleMessage := take n q.

End Spec.
End QueueSpec.

(** The data buffers of the messages are whole. *)
Definition full_buffers (msgs : list BandleMessage) : Prop :=
  Forall (fun m => length (p_data (m_body m)) = Z.to_nat kMaxValueBytes) msgs.

Lemma full_buffers_fit msgs : full_buffers msgs →
  (Forall msg_fits msgs ↔ forallb (fun m => payload_bytes (m_body m) <=? kMaxValueBytes) msgs = true).
Proof.
  induction 1 as [|m msgs Hm _ IH]; [done|]. cbn.
  rewrite Forall_cons, andb_true_iff, IH, Z.leb_le. split; intros [H1 H2]; split; try done.
  apply H1.
Qed.

(** C29: the ring refines the bounded queue.  Whatever the positions of its
    64-bit counters, [push], [push_batch] and [pop] return what the queue
    operations return, the ring then holds what the queue holds, and
    [read_batch_at_abs] at the tail reads the oldest messages; a refused push
    leaves the queue as it was. *)
Theorem ring_refines_queue (Capacity : Z) (r : SpscRing) (q : list BandleMessage)
    (m out : BandleMessage) (msgs outs : list BandleMessage)
    (Hcap : 0 < Capacity < 2 ^ 63) (Hpow : Z.land Capacity (Capacity - 1) = 0)
    (Hq : ring_queue Capacity r q) (Hm : full_buffers (m :: msgs))
    (Hmsgs : Z.of_nat (length msgs) < 2 ^ 63) :
  ((push Capacity m r).1 = (QueueSpec.push Capacity m q).1 ∧
   ring_queue Capacity (push Capacity m r).2 (QueueSpec.push Capacity m q).2) ∧
  ((push_batch Capacity msgs r).1 = (QueueSpec.push_batch Capacity msgs q).1 ∧
   ring_queue Capacity (push_batch Capacity msgs r).2 (QueueSpec.push_batch Capacity msgs q).2) ∧
  (let '(ok, out', r') := pop Capacity r out in
   (if ok then Some (wire out') else None) = (QueueSpec.pop q).1 ∧
   ring_queue Capacity r' (QueueSpec.pop q).2) ∧
  (∀ n, n = length outs → (n ≤ length q)%nat →
   wire <$> (read_batch_at_abs Capacity r (tail r) outs).2 = QueueSpec.peek n q).
Proof.
  assert (0 < Capacity < 2 ^ 64) as Hcap' by lia.
  unfold full_buffers in Hm. apply Forall_cons in Hm as [Hm Hms].
  assert (∀ ms, full_buffers ms → ∀ ok, ok = bool_decide (Z.of_nat (length q + length ms) ≤ Capacity ∧ Forall msg_fits ms) →
    QueueSpec.push_batch Capacity ms q = (ok, if ok then q ++ (wire <$> ms) else q)) as Hspec.
  { intros ms Hfull ok ->. unfold QueueSpec.push_batch.
    pose proof (full_buffers_fit ms Hfull) as Hfit.
    destruct (decide (Z.of_nat (length q + length ms) ≤ Capacity)) as [Hl|Hl].
    - rewrite (bool_decide_true _ Hl). cbn.
      destruct (forallb _ ms) eqn:Hf; [rewrite bool_decide_true by (split; [done|by apply Hfit])|
        rewrite bool_decide_false by (intros [_ ?%Hfit]; done)]; done.
    - rewrite (bool_decide_false _ Hl), bool_decide_false by (by intros [? _]). done. }
  split; [|split; [|split]].
  - unfold QueueSpec.push. pose proof (push_rep Capacity Hcap' Hpow m r q Hq Hm) as Hp.
    destruct (push Capacity m r) as [ok r']. destruct Hp as (Hok&Hr&_).
    rewrite (Hspec [m] ltac:(by apply Forall_singleton) ok); [by cbn; destruct ok|].
    rewrite Hok. cbn [length]. apply eq_iff_eq_true.
    rewrite andb_true_iff, Z.ltb_lt, Z.leb_le, bool_decide_eq_true, Forall_singleton.
    split; [intros [? ?]; split; [lia|by split]|intros [? [? ?]]; split; [lia|done]].
  - pose proof (push_batch_rep Capacity Hcap' Hpow msgs r q Hq Hms ltac:(lia)) as Hp.
    destruct (push_batch Capacity msgs r) as [ok r']. destruct Hp as (Hok&Hr).
    by rewrite (Hspec msgs Hms ok Hok).
  - pose proof (pop_rep Capacity Hcap' Hpow r q out Hq) as Hp.
    destruct (pop Capacity r out) as [[ok out'] r']. destruct q as [|m' q'].
    + destruct Hp as (->&->&->). done.
    + destruct Hp as (->&->&?). done.
  - intros n -> Hn. destruct Hq as [T Hr].
    destruct (read_batch_rep Capacity Hcap' Hpow r T q [] outs Hr Hn) as (outs'&He&_&Hw).
    by rewrite (rep_tail _ _ _ _ _ Hr), He.
Qed.

(** A padded payload store of [len] bytes that fits the slot writes exactly
    those bytes, zeroes up to the next multiple of 16 (which is inside the
    slot) and nothing else. *)
Theorem padded_store_exact (dst src : bytes) (len : nat)
    (Hdst : length dst = Z.to_nat kMaxValueBytes) (Hlen : (len ≤ length src)%nat)
    (Hfit : Z.of_nat len ≤ kMaxValueBytes) :
  (pad16 len ≤ Z.to_nat kMaxValueBytes)%nat ∧
  nt_store_payload_padded dst src len =
    take len src ++ replicate (pad16 len - len) zero_byte ++ drop (pad16 len) dst ∧
  length (nt_store_payload_padded dst src len) = length dst.
Proof.
  assert (pad16 len ≤ Z.to_nat kMaxValueBytes)%nat as Hp.
  { pose proof (pad16_slot (Z.of_nat len) ltac:(lia)) as Hp. by rewrite Nat2Z.id in Hp. }
  split; [done|]. rewrite store_payload_exact by lia. split; [done|].
  pose proof (pad16_bounds len) as [? _].
  rewrite !length_app, length_take, length_replicate, length_drop. lia.
Qed.

(** Whatever a reader observes in a slot while the producer rewrites it, a
    successful read returns the fields of an observed descriptor that carries
    the expected slot number and a payload that fits, and a failed one either
    saw 64 other slot numbers or an oversized payload. *)
Theorem read_descriptor_any_interleaving (obs : nat → BandleDescriptor) (expected : Z)
    (out : BandleMessage) :
  let '(ok, out') := read_slot_descriptor obs expected out in
  if ok
  then ∃ i, (i < kRetries)%nat ∧ d_slot_seq (obs i) = expected ∧
       descriptor_bytes (obs i) ≤ kMaxValueBytes ∧ out' = fill_from_descriptor (obs i) out ∧
       ∀ j, (j < i)%nat → d_slot_seq (obs j) ≠ expected
  else out' = out ∧
       ((∀ j, (j < kRetries)%nat → d_slot_seq (obs j) ≠ expected) ∨
        ∃ i, (i < kRetries)%nat ∧ d_slot_seq (obs i) = expected ∧ kMaxValueBytes < descriptor_bytes (obs i)).
Proof.
  unfold read_slot_descriptor. generalize kRetries at 1 2 3 4. intros n.
  assert (∀ k i, (i + k = n)%nat → (∀ j, (j < i)%nat → d_slot_seq (obs j) ≠ expected) →
    let '(ok, out') := read_retry k i obs expected out in
    if ok
    then ∃ i, (i < n)%nat ∧ d_slot_seq (obs i) = expected ∧
       descriptor_bytes (obs i) ≤ kMaxValueBytes ∧ out' = fill_from_descriptor (obs i) out ∧
       ∀ j, (j < i)%nat → d_slot_seq (obs j) ≠ expected
    else out' = out ∧
       ((∀ j, (j < n)%nat → d_slot_seq (obs j) ≠ expected) ∨
        ∃ i, (i < n)%nat ∧ d_slot_seq (obs i) = expected ∧ kMaxValueBytes < descriptor_bytes (obs i))) as Haux.
  { induction k as [|k IH]; intros i Hi Hbefore; cbn.
    { split; [done|]. left. intros j Hj. apply Hbefore. lia. }
    destruct (Z.eqb_spec (d_slot_seq (obs i)) expected) as [Hs|Hs]; cbn.
    - rewrite Z.gtb_ltb. destruct (Z.ltb_spec kMaxValueBytes (descriptor_bytes (obs i))).
      + split; [done|]. right. exists i. split; [lia|done].
      + exists i. split; [lia|done].
    - apply IH; [lia|]. intros j Hj. destruct (decide (j = i)) as [->|]; [done|].
      apply Hbefore. lia. }
  apply (Haux n 0%nat); [lia|]. intros j Hj. lia.
Qed.
