(* ===== verification/RingConc.v ===== *)
(** The ring of [Ring.v] under concurrency: the producer of [push_batch] and
    [broadcast_batch] and the consumer of [drain_source_ring] run at the same
    time, one memory access at a time, on a machine with store buffers.

    Ordinary stores (descriptors, [head], [tail]) wait in the first-in
    first-out store buffer of their core; the non-temporal payload stores wait
    in write-combining buffers that reach memory in any order, ordered against
    the others only by [sfence]; a descriptor may be seen half written; the
    consumer's core may cache a payload slot, by prefetch or speculation, long
    before it reads it.  [snoop] says whether a non-temporal store invalidates
    that cached copy.  With it the consumer receives exactly what was pushed
    ([ring_delivers_in_order]) and never meets a slot that is being written
    ([reads_never_race]); without it a slot reused after the counters have gone
    round yields the payload of its former message ([stale_payload_read]),
    since the code flushes no line before reading it.  A producer starts only
    batches whose messages fit a slot, as all batches of the submit path do. *)
From S2P Require Import Prelude Message Ring.

(** ** The stores of [nt_store_payload_padded], one by one *)
Definition payload_stores (src : bytes) (len : nat) : list (nat * bytes) :=
  let padded := take len src ++ replicate (pad16 len - len) zero_byte in
  (fun k => (16 * k, take 16 (drop (16 * k) padded)))%nat <$> seq 0 (pad16 len / 16).

Definition stores_of (m : BandleMessage) : list (nat * bytes) :=
  payload_stores (p_data (m_body m)) (Z.to_nat (payload_bytes (m_body m))).

Definition slice (off : nat) (p : bytes) : bytes := take 16 (drop off p).

(** [p] holds the sixteen bytes of the store. *)
Definition has_store (p : bytes) (st : nat * bytes) : Prop := slice st.1 p = st.2.

Lemma payload_stores_shape src len st : (len ≤ length src)%nat → st ∈ payload_stores src len →
  ∃ k, st.1 = (16 * k)%nat ∧ (16 * k + 16 ≤ pad16 len)%nat ∧ length st.2 = 16%nat.
Proof.
  intros Hlen (k&->&Hk%elem_of_seq)%list_elem_of_fmap. exists k. cbn [fst snd].
  pose proof (pad16_bounds len) as [? Hm]. pose proof (Nat.div_mod_eq (pad16 len) 16).
  split; [done|]. split; [lia|].
  rewrite length_take, length_drop, length_app, length_take, length_replicate. lia.
Qed.

Lemma take_padded src len n : (n ≤ len ≤ length src)%nat →
  take n (take len src ++ replicate (pad16 len - len) zero_byte) = take n src.
Proof.
  intros Hn. rewrite take_app_le by (rewrite length_take; lia). rewrite take_take. f_equal. lia.
Qed.

(** A slot that holds every store of a payload holds the payload. *)
Lemma has_all_stores src len p : (len ≤ length src)%nat → (pad16 len ≤ length p)%nat →
  (∀ st, st ∈ payload_stores src len → has_store p st) → take len p = take len src.
Proof.
  intros Hlen Hp Hall. pose proof (pad16_bounds len) as [? Hm].
  pose proof (Nat.div_mod_eq (pad16 len) 16).
  set (padded := take len src ++ replicate (pad16 len - len) zero_byte).
  assert (∀ k, (k ≤ pad16 len / 16)%nat → take (16 * k) p = take (16 * k) padded) as Htake.
  { induction k as [|k IH]; intros Hk; [done|].
    replace (16 * S k)%nat with (16 * k + 16)%nat by lia.
    rewrite <- !take_take_drop, IH by lia. f_equal.
    specialize (Hall ((16 * k)%nat, take 16 (drop (16 * k) padded))). apply Hall.
    apply list_elem_of_fmap. exists k. split; [done|]. apply elem_of_seq. lia. }
  specialize (Htake (pad16 len / 16)%nat ltac:(lia)).
  apply (f_equal (take len)) in Htake. rewrite !take_take in Htake.
  replace (len `min` (16 * (pad16 len / 16)))%nat with len in Htake by lia.
  rewrite Htake. unfold padded. apply take_padded. lia.
Qed.

(** The stores, issued in order, are the padded store of [Ring.v]. *)
Lemma payload_stores_eq dst src len : (len ≤ length src)%nat → (pad16 len ≤ length dst)%nat →
  foldl (fun p st => memcpy_at p st.1 st.2) dst (payload_stores src len) =
    nt_store_payload_padded dst src len.
Proof.
  intros Hsrc Hdst. rewrite store_payload_exact by done.
  pose proof (pad16_bounds len) as [? Hm]. pose proof (Nat.div_mod_eq (pad16 len) 16) as Hdiv.
  unfold payload_stores. set (padded := take len src ++ replicate (pad16 len - len) zero_byte).
  assert (length padded = pad16 len) as Hpl.
  { unfold padded. rewrite length_app, length_take, length_replicate. lia. }
  assert (∀ n k, (16 * (k + n) ≤ pad16 len)%nat →
    foldl (fun p (st : nat * bytes) => memcpy_at p st.1 st.2) (take (16 * k) padded ++ drop (16 * k) dst)
      ((fun k => (16 * k, take 16 (drop (16 * k) padded)))%nat <$> seq k n) =
    take (16 * (k + n)) padded ++ drop (16 * (k + n)) dst) as Hfold.
  { induction n as [|n IH]; intros k Hk; cbn [seq fmap list_fmap foldl fst snd].
    - by rewrite Nat.add_0_r.
    - rewrite memcpy_at_extend by lia. replace (16 * k + 16)%nat with (16 * S k)%nat by lia.
      rewrite IH by lia. do 2 f_equal; lia. }
  specialize (Hfold (pad16 len / 16)%nat O ltac:(lia)). rewrite Nat.mul_0_r, take_0, drop_0 in Hfold.
  cbn [app] in Hfold. rewrite Hfold, Nat.add_0_l. replace (16 * (pad16 len / 16))%nat with (pad16 len) by lia.
  rewrite take_ge by lia. unfold padded. by rewrite app_assoc.
Qed.

Lemma has_store_memcpy p off data st k k' : (16 * k = off)%nat → (16 * k' = st.1)%nat →
  length data = 16%nat → (16 * k + 16 ≤ length p)%nat → (16 * k' + 16 ≤ length p)%nat →
  (st.1 = off → st.2 = data) → has_store p st ∨ (off, data) = st → has_store (memcpy_at p off data) st.
Proof.
  intros <- Hk' Hd Hp Hp' Hsame Hor. destruct st as [off' data']. cbn [fst snd] in *. subst off'.
  unfold has_store, slice. cbn [fst snd]. destruct (decide (k' = k)) as [->|Hne].
  - rewrite (Hsame eq_refl). apply drop_memcpy_at; lia.
  - destruct Hor as [Hst|[= ? ?]]; [|lia]. unfold has_store, slice in Hst. cbn [fst snd] in Hst.
    rewrite <- Hst. apply list_eq. intros i.
    destruct (decide (i < 16)%nat) as [Hi|Hi]; [|by rewrite !lookup_take_ge by lia].
    rewrite !lookup_take_lt, !lookup_drop by lia. unfold memcpy_at.
    destruct (decide (k' < k)%nat).
    + rewrite lookup_app_l by (rewrite length_take; lia). by rewrite lookup_take_lt by lia.
    + rewrite !lookup_app_r by (rewrite ?length_take; lia). rewrite lookup_drop, length_take, Hd. f_equal. lia.
Qed.

#[global] Arguments stores_of : simpl never.
#[global] Arguments payload_stores : simpl never.
#[global] Arguments has_store : simpl never.
#[global] Arguments pad16 : simpl never.

(** ** The machine *)
Inductive StoreOp :=
| StoreDesc (idx : Z) (d : BandleDescriptor)
| StoreHead (h : Z).

(** Where the producer is: in the loop of [write_batch_at], at a payload
    store, or past the fence. *)
Inductive ProducerPc :=
| PIdle
| PWrite (h : Z) (written todo : list BandleMessage) (wrote_payload : bool)
| PStores (h : Z) (written : list BandleMessage) (msg : BandleMessage)
    (stores : list (nat * bytes)) (todo : list BandleMessage)
| PPublish (h : Z) (batch : list BandleMessage).

(** Where the consumer is in [drain_source_ring]: it has decided to read
    [count] messages from [t], has [got] some completely, and is reading the
    descriptors, or copying the payloads, of further ones. *)
Inductive ConsumerPc :=
| CIdle
| CDesc (t : Z) (count : nat) (got fresh : list BandleMessage)
| CPayload (t : Z) (count : nat) (got fresh : list BandleMessage).

(** [sent] and [received] record, for the theorems, what has been published
    and what has been handed over. *)
Record Machine := {
  mem : SpscRing;
  combining : list (Z * (nat * bytes));
  store_buffer : list StoreOp;
  tail_buffer : list Z;
  cache : gmap Z bytes;
  producer : ProducerPc;
  consumer : ConsumerPc;
  sent : list BandleMessage;
  received : list BandleMessage
}.

Definition machine_eta (s : Machine) : Machine :=
  Build_Machine (mem s) (combining s) (store_buffer s) (tail_buffer s) (cache s) (producer s)
    (consumer s) (sent s) (received s).
#[export] Instance set_mem : Setter mem := ltac:(solve_setter mem machine_eta).
#[export] Instance set_combining : Setter combining := ltac:(solve_setter combining machine_eta).
#[export] Instance set_store_buffer : Setter store_buffer := ltac:(solve_setter store_buffer machine_eta).
#[export] Instance set_tail_buffer : Setter tail_buffer := ltac:(solve_setter tail_buffer machine_eta).
#[export] Instance set_cache : Setter cache := ltac:(solve_setter cache machine_eta).
#[export] Instance set_producer : Setter producer := ltac:(solve_setter producer machine_eta).
#[export] Instance set_consumer : Setter consumer := ltac:(solve_setter consumer machine_eta).
#[export] Instance set_sent : Setter sent := ltac:(solve_setter sent machine_eta).
#[export] Instance set_received : Setter received := ltac:(solve_setter received machine_eta).

Definition initial_machine : Machine := {|
  mem := empty_ring; combining := []; store_buffer := []; tail_buffer := []; cache := ∅;
  producer := PIdle; consumer := CIdle; sent := []; received := [] |}.

(** A core sees its own stores before they reach memory. *)
Definition own_head (s : Machine) : Z :=
  foldl (fun h op => match op with StoreHead h' => h' | StoreDesc _ _ => h end)
    (head (mem s)) (store_buffer s).
Definition own_tail (s : Machine) : Z := List.last (tail_buffer s) (tail (mem s)).

(** The payload the consumer's core finds for a slot. *)
Definition payload_seen (s : Machine) (idx : Z) : bytes := default (payload_at (mem s) idx) (cache s !! idx).

Inductive Action :=
| PStart (msgs : list BandleMessage)
| PNext
| PFence
| PPublishHead
| FlushStore (k : nat)
| DrainStore
| TearDescriptor (d : BandleDescriptor)
| DrainTail
| Prefetch (idx : Z)
| Evict (idx : Z)
| CLoad (max_batch : Z)
| CNext (out : BandleMessage)
| CCommit
| CGiveUp.

Section Machine.
Context (Capacity : Z) (snoop : bool).

(** The descriptor of the message at hand goes into the store buffer. *)
Definition store_descriptor (h : Z) (written : list BandleMessage) (msg : BandleMessage) (s : Machine) : Machine :=
  let pos := h +₆₄ Z.of_nat (length written) in
  s <| store_buffer := store_buffer s ++
         [StoreDesc (Z.land pos (MASK Capacity)) (descriptor_of (pos +₆₄ 1) msg)] |>.

Definition producer_step (a : Action) (s : Machine) : option Machine :=
  match a, producer s with
  | PStart msgs, PIdle =>
      let h := own_head s in
      if bool_decide (msgs ≠ []) && bool_decide (Forall msg_fits msgs) &&
         (Z.of_nat (length msgs) <? 2 ^ 63) &&
         negb ((h -₆₄ tail (mem s)) +₆₄ Z.of_nat (length msgs) >? Capacity)
      then Some (s <| producer := PWrite h [] msgs false |>) else None
  | PNext, PWrite h written (msg :: todo) wrote =>
      if payload_bytes (m_body msg) =? 0
      then Some (store_descriptor h written msg s <| producer := PWrite h (written ++ [msg]) todo wrote |>)
      else Some (s <| producer := PStores h written msg (stores_of msg) todo |>)
  | PNext, PStores h written msg (st :: stores) todo =>
      let idx := Z.land (h +₆₄ Z.of_nat (length written)) (MASK Capacity) in
      Some (s <| combining := combining s ++ [(idx, st)] |>
              <| producer := PStores h written msg stores todo |>)
  | PNext, PStores h written msg [] todo =>
      Some (store_descriptor h written msg s <| producer := PWrite h (written ++ [msg]) todo true |>)
  | PFence, PWrite h written [] true =>
      match combining s, store_buffer s with
      | [], [] => Some (s <| producer := PPublish h written |>)
      | _, _ => None
      end
  | PFence, PWrite h written [] false => Some (s <| producer := PPublish h written |>)
  | PPublishHead, PPublish h batch =>
      Some (s <| store_buffer := store_buffer s ++ [StoreHead (h +₆₄ Z.of_nat (length batch))] |>
              <| producer := PIdle |>
              <| sent := sent s ++ (wire <$> batch) |>)
  | _, _ => None
  end.

(** What the hardware does on its own. *)
Definition memory_step (a : Action) (s : Machine) : option Machine :=
  match a with
  | FlushStore k =>
      match combining s !! k with
      | Some (idx, (off, data)) =>
          Some (s <| combining := delete k (combining s) |>
                  <| mem := set_payload idx (memcpy_at (payload_at (mem s) idx) off data) (mem s) |>
                  <| cache := if snoop then delete idx (cache s) else cache s |>)
      | None => None
      end
  | DrainStore =>
      match store_buffer s with
      | StoreDesc idx d :: ops => Some (s <| store_buffer := ops |> <| mem := set_desc idx d (mem s) |>)
      | StoreHead h :: ops => Some (s <| store_buffer := ops |> <| mem := set_head h (mem s) |>)
      | [] => None
      end
  | TearDescriptor d =>
      match store_buffer s with
      | StoreDesc idx _ :: _ => Some (s <| mem := set_desc idx d (mem s) |>)
      | _ => None
      end
  | DrainTail =>
      match tail_buffer s with
      | t :: ts => Some (s <| tail_buffer := ts |> <| mem := commit_tail t (mem s) |>)
      | [] => None
      end
  | Prefetch idx => Some (s <| cache := <[idx := payload_at (mem s) idx]> (cache s) |>)
  | Evict idx => Some (s <| cache := delete idx (cache s) |>)
  | _ => None
  end.

Definition consumer_step (a : Action) (s : Machine) : option Machine :=
  match a, consumer s with
  | CLoad max_batch, CIdle =>
      let t := own_tail s in
      let avail := head (mem s) -₆₄ t in
      if (avail =? 0) || (max_batch <=? 0) then None
      else Some (s <| consumer := CDesc t (Z.to_nat (Z.min avail max_batch)) [] [] |>)
  | CNext out, CDesc t count got fresh =>
      let n := length (got ++ fresh) in
      if (n <? count)%nat then
        if bool_decide (length (p_data (m_body out)) = Z.to_nat kMaxValueBytes) then
          let pos := t +₆₄ Z.of_nat n in
          let '(ok, out) := read_slot_descriptor
            (fun _ => desc_at (mem s) (Z.land pos (MASK Capacity))) (pos +₆₄ 1) out in
          Some (s <| consumer := if ok then CDesc t count got (fresh ++ [out]) else CPayload t count got fresh |>)
        else None
      else Some (s <| consumer := CPayload t count got fresh |>)
  | CNext _, CPayload t count got (out :: fresh) =>
      let idx := Z.land (t +₆₄ Z.of_nat (length got)) (MASK Capacity) in
      let out := copy_payload (set_payload idx (payload_seen s idx) (mem s)) idx out in
      Some (s <| consumer := CPayload t count (got ++ [out]) fresh |>)
  | CNext _, CPayload t count got [] =>
      if (length got <? count)%nat then Some (s <| consumer := CDesc t count got [] |>) else None
  | CCommit, CPayload t count got [] =>
      match got with
      | [] => None
      | _ => Some (s <| tail_buffer := tail_buffer s ++ [t +₆₄ Z.of_nat (length got)] |>
                     <| consumer := CIdle |>
                     <| received := received s ++ (wire <$> got) |>)
      end
  | CGiveUp, CPayload _ _ [] [] => Some (s <| consumer := CIdle |>)
  | _, _ => None
  end.

(** One move of either core or of the memory system. *)
Definition machine_step (a : Action) (s : Machine) : option Machine :=
  match a with
  | PStart _ | PNext | PFence | PPublishHead => producer_step a s
  | FlushStore _ | DrainStore | TearDescriptor _ | DrainTail | Prefetch _ | Evict _ => memory_step a s
  | CLoad _ | CNext _ | CCommit | CGiveUp => consumer_step a s
  end.

Inductive reachable : Machine → Prop :=
| reachable_initial : reachable initial_machine
| reachable_step s a s' : reachable s → machine_step a s = Some s' → reachable s'.

End Machine.

(** ** The invariant *)
Section Invariant.
Context (Capacity : Z) (snoop : bool).
Context (Hcap : 0 < Capacity < 2 ^ 63) (Hpow : Z.land Capacity (Capacity - 1) = 0).
Implicit Types (s : Machine) (n T H D : nat) (m : BandleMessage).

(** The slot of the [n]-th message of the stream. *)
Definition slot (n : nat) : Z := Z.of_nat n mod Capacity.

Lemma slot_inj n n' T : (T ≤ n)%nat → (T ≤ n')%nat → Z.of_nat n < Z.of_nat T + Capacity →
  Z.of_nat n' < Z.of_nat T + Capacity → slot n = slot n' → n = n'.
Proof. intros ???? Heq%mod_window_inj; lia. Qed.

Lemma slot_of_position x n : w64 x = w64 (Z.of_nat n) → Z.land (w64 x) (MASK Capacity) = slot n.
Proof. intros ->. apply mask_position; [lia|done]. Qed.

Definition written_by (pc : ProducerPc) : list BandleMessage :=
  match pc with
  | PIdle => []
  | PWrite _ written _ _ | PStores _ written _ _ _ | PPublish _ written => written
  end.
Definition unwritten (pc : ProducerPc) : nat :=
  match pc with
  | PWrite _ _ todo _ => length todo
  | PStores _ _ _ _ todo => S (length todo)
  | _ => O
  end.
Definition writing (pc : ProducerPc) : option BandleMessage :=
  match pc with PStores _ _ msg _ _ => Some msg | _ => None end.

(** The stream as far as its descriptors are stored. *)
Definition stream s : list BandleMessage := sent s ++ (wire <$> written_by (producer s)).

#[local] Arguments slot : simpl never.

#[local] Arguments stream : simpl never.

(** The message whose payload goes to position [n]. *)
Definition message_at s n m : Prop :=
  stream s !! n = Some m ∨ (n = length (stream s) ∧ writing (producer s) = Some m).

(** The store buffer holds the descriptors from position [D] on, in order, and
    heads that do not overtake them. *)
Fixpoint ops_ok (all : list BandleMessage) (P D H : nat) (ops : list StoreOp) : Prop :=
  match ops with
  | [] => D = length all ∧ H = P
  | StoreDesc idx d :: ops =>
      idx = slot D ∧ (∃ m, all !! D = Some m ∧ d = descriptor_of (w64 (Z.of_nat D + 1)) m) ∧
      ops_ok all P (S D) H ops
  | StoreHead h :: ops => ∃ p, h = w64 (Z.of_nat p) ∧ (H ≤ p ≤ D)%nat ∧ ops_ok all P D p ops
  end.

Fixpoint tails_ok (T : nat) (ts : list Z) (R : nat) : Prop :=
  match ts with
  | [] => T = R
  | t :: ts => ∃ p, t = w64 (Z.of_nat p) ∧ (T ≤ p)%nat ∧ tails_ok p ts R
  end.

Definition producer_ok s : Prop :=
  match producer s with
  | PIdle => combining s = []
  | PWrite h _ todo wrote => h = w64 (Z.of_nat (length (sent s))) ∧ Forall msg_fits todo ∧
      (wrote = false → combining s = [])
  | PStores h _ msg stores todo => h = w64 (Z.of_nat (length (sent s))) ∧ Forall msg_fits (msg :: todo) ∧
      ∃ issued, stores_of msg = issued ++ stores ∧
        ∀ st, st ∈ issued → (slot (length (stream s)), st) ∈ combining s ∨
          has_store (payload_at (mem s) (slot (length (stream s)))) st
  | PPublish h _ => h = w64 (Z.of_nat (length (sent s))) ∧ combining s = []
  end.

(** The consumer's buffers: [got] complete messages of the stream, then
    [fresh] ones whose descriptor has been read. *)
Definition reading s H (t : Z) (count : nat) (got fresh : list BandleMessage) : Prop :=
  let R := length (received s) in
  t = w64 (Z.of_nat R) ∧ (R + count ≤ H)%nat ∧ (length (got ++ fresh) ≤ count)%nat ∧
  (wire <$> got) = take (length got) (drop R (sent s)) ∧
  ∀ i out, fresh !! i = Some out → ∃ m o, sent s !! (R + length got + i)%nat = Some m ∧
    out = fill_from_descriptor (descriptor_of (w64 (Z.of_nat (R + length got + i) + 1)) m) o.

Definition consumer_at s H (pc : ConsumerPc) : Prop :=
  match pc with
  | CIdle => True
  | CDesc t count got fresh | CPayload t count got fresh => reading s H t count got fresh
  end.
Definition consumer_ok s H : Prop := consumer_at s H (consumer s).

Record machine_inv s (T H D : nat) : Prop := {
  iv_tail : tail (mem s) = w64 (Z.of_nat T);
  iv_tails : tails_ok T (tail_buffer s) (length (received s));
  iv_head : head (mem s) = w64 (Z.of_nat H);
  iv_ops : ops_ok (stream s) (length (sent s)) D H (store_buffer s);
  iv_order : (length (received s) ≤ H ≤ D)%nat;
  iv_window : Z.of_nat (length (stream s) + unwritten (producer s)) ≤ Z.of_nat T + Capacity;
  iv_descs n m : (T ≤ n < D)%nat → stream s !! n = Some m →
    desc_at (mem s) (slot n) = descriptor_of (w64 (Z.of_nat n + 1)) m;
  iv_msgs : Forall (fun m => wire m = m ∧ payload_bytes (m_body m) ≤ kMaxValueBytes ∧
    (Z.to_nat (payload_bytes (m_body m)) ≤ length (p_data (m_body m)))%nat) (stream s);
  iv_payloads n m st : (T ≤ n)%nat → stream s !! n = Some m → st ∈ stores_of m →
    (slot n, st) ∈ combining s ∨ has_store (payload_at (mem s) (slot n)) st;
  iv_owner idx st : (idx, st) ∈ combining s →
    ∃ n m, (length (sent s) ≤ n)%nat ∧ idx = slot n ∧ message_at s n m ∧ st ∈ stores_of m;
  iv_lengths idx : length (payload_at (mem s) idx) = Z.to_nat kMaxValueBytes;
  iv_producer : producer_ok s;
  iv_consumer : consumer_ok s H;
  iv_received : received s = take (length (received s)) (sent s);
  iv_cache : snoop = true → ∀ idx p, cache s !! idx = Some p → p = payload_at (mem s) idx
}.

Lemma ops_bounds all P D H ops : ops_ok all P D H ops → (D ≤ length all ∧ H ≤ P)%nat.
Proof.
  revert D H. induction ops as [|[idx d|h] ops IH]; intros D H; cbn.
  - lia.
  - intros (_&_&Hops%IH). lia.
  - intros (p&_&?&Hops%IH). lia.
Qed.

Lemma tails_bound T ts R : tails_ok T ts R → (T ≤ R)%nat.
Proof.
  revert T. induction ts as [|t ts IH]; intros T; cbn; [lia|]. intros (p&_&?&Hp%IH). lia.
Qed.

(** A descriptor that waits belongs to a position not yet in memory. *)
Lemma pending_descriptor all P D H ops idx d : ops_ok all P D H ops → StoreDesc idx d ∈ ops →
  ∃ n, (D ≤ n < length all)%nat ∧ slot n = idx.
Proof.
  revert D H. induction ops as [|op ops IH]; intros D H Hops Hin; [by apply not_elem_of_nil in Hin|].
  apply elem_of_cons in Hin as [<-|Hin].
  - destruct Hops as (->&(m&Hm%lookup_lt_Some&_)&_). by exists D.
  - destruct op as [idx' d'|h]; cbn in Hops.
    + destruct Hops as (_&_&Hops). destruct (IH _ _ Hops Hin) as (n&?&?). exists n. split; [lia|done].
    + destruct Hops as (p&_&_&Hops). by apply (IH D p).
Qed.

Lemma ops_ok_desc all P m D H ops : ops_ok all P D H ops →
  ops_ok (all ++ [m]) P D H
    (ops ++ [StoreDesc (slot (length all)) (descriptor_of (w64 (Z.of_nat (length all) + 1)) m)]).
Proof.
  revert D H. induction ops as [|[idx d|h] ops IH]; intros D H; cbn.
  - intros [-> ->]. split; [done|]. split; [|by rewrite length_app; cbn; rewrite Nat.add_1_r].
    exists m. by rewrite list_lookup_middle.
  - intros (?&(m'&Hm'&?)&Hops). split; [done|]. split; [|by apply IH].
    exists m'. split; [by apply lookup_app_l_Some|done].
  - intros (p&?&?&Hops). exists p. split; [done|]. split; [done|]. by apply IH.
Qed.

Lemma ops_ok_head all P D H ops : ops_ok all P D H ops → (P ≤ length all)%nat →
  ops_ok all (length all) D H (ops ++ [StoreHead (w64 (Z.of_nat (length all)))]).
Proof.
  intros Hops HP. revert D H Hops. induction ops as [|[idx d|h] ops IH]; intros D H; cbn.
  - intros [-> ->]. exists (length all). done.
  - intros (?&?&Hops). split; [done|]. split; [done|]. by apply IH.
  - intros (p&?&?&Hops). exists p. split; [done|]. split; [done|]. by apply IH.
Qed.

Lemma tails_ok_app T ts R R' : tails_ok T ts R → (R ≤ R')%nat →
  tails_ok T (ts ++ [w64 (Z.of_nat R')]) R'.
Proof.
  intros Ht HR. revert T Ht. induction ts as [|t ts IH]; intros T; cbn.
  - intros ->. by exists R'.
  - intros (p&?&?&Hp). exists p. split; [done|]. split; [done|]. by apply IH.
Qed.

Lemma own_head_ops all P ops : ∀ D H h, ops_ok all P D H ops → h = w64 (Z.of_nat H) →
  foldl (fun h op => match op with StoreHead h' => h' | StoreDesc _ _ => h end) h ops = w64 (Z.of_nat P).
Proof.
  induction ops as [|[idx d|h'] ops IH]; intros D H h; cbn.
  - by intros [_ ->].
  - intros (_&_&Hops). by eapply IH.
  - intros (p&->&_&Hops) _. by eapply IH.
Qed.

Lemma own_tail_buffer ts : ∀ T R t, tails_ok T ts R → t = w64 (Z.of_nat T) →
  List.last ts t = w64 (Z.of_nat R).
Proof.
  induction ts as [|t' ts IH]; intros T R t; cbn.
  - by intros ->.
  - intros (p&->&_&Hp) _. specialize (IH p R (w64 (Z.of_nat p)) Hp eq_refl).
    destruct ts as [|t'' ts]; [done|]. rewrite <- IH. clear.
    revert t''. induction ts as [|x ts IH]; intros t''; [done|]. cbn in *. apply IH.
Qed.

Lemma stream_bounds s T H D : machine_inv s T H D →
  (T ≤ length (received s) ≤ H)%nat ∧ (H ≤ length (sent s) ≤ length (stream s))%nat ∧
  (D ≤ length (stream s))%nat.
Proof.
  intros Hi. pose proof (ops_bounds _ _ _ _ _ (iv_ops _ _ _ _ Hi)).
  pose proof (tails_bound _ _ _ (iv_tails _ _ _ _ Hi)). pose proof (iv_order _ _ _ _ Hi).
  unfold stream at 1. rewrite length_app. unfold stream in *. rewrite length_app in *. lia.
Qed.

(** The message of a position is unique, and its slot inside the window. *)
Lemma message_at_window s T H D n m : machine_inv s T H D → message_at s n m →
  Z.of_nat n < Z.of_nat T + Capacity.
Proof.
  intros Hi [Hm%lookup_lt_Some|[-> Hw]]; pose proof (iv_window _ _ _ _ Hi); [lia|].
  unfold writing in Hw. destruct (producer s); try done. cbn in *. lia.
Qed.

Lemma message_at_inj s n m m' : message_at s n m → message_at s n m' → m = m'.
Proof.
  intros [Hm|[Hn Hm]] [Hm'|[Hn' Hm']]; try congruence;
    [apply lookup_lt_Some in Hm|apply lookup_lt_Some in Hm']; lia.
Qed.

Lemma initial_machine_inv : machine_inv initial_machine 0 0 0.
Proof.
  split; try done; [cbn [initial_machine producer unwritten]; change (stream _) with (@nil BandleMessage); cbn; lia|].
  intros idx st Hin. by apply not_elem_of_nil in Hin.
Qed.

Lemma stores_of_wire m : stores_of (wire m) = stores_of m.
Proof.
  unfold stores_of, payload_stores. rewrite payload_bytes_wire.
  change (p_data (m_body (wire m))) with (wire_data m). unfold wire_data.
  by rewrite take_take, Nat.min_id.
Qed.

Lemma msg_fits_stored m : msg_fits m →
  wire (wire m) = wire m ∧ payload_bytes (m_body (wire m)) ≤ kMaxValueBytes ∧
  (Z.to_nat (payload_bytes (m_body (wire m))) ≤ length (p_data (m_body (wire m))))%nat.
Proof.
  intros [Hd Hb]. split; [apply wire_wire|]. split; [done|]. rewrite payload_bytes_wire.
  change (p_data (m_body (wire m))) with (wire_data m). unfold wire_data. rewrite length_take. pose proof (payload_bytes_nonneg (m_body m)). lia.
Qed.

(** ** The producer *)
Lemma store_descriptor_inv s T H D h written msg todo wrote : machine_inv s T H D →
  written_by (producer s) = written → unwritten (producer s) = S (length todo) →
  (∀ m, writing (producer s) = Some m → m = msg) →
  h = w64 (Z.of_nat (length (sent s))) → Forall msg_fits (msg :: todo) →
  (wrote = false → combining s = []) →
  (∀ st, st ∈ stores_of msg → (slot (length (stream s)), st) ∈ combining s ∨
    has_store (payload_at (mem s) (slot (length (stream s)))) st) →
  machine_inv (store_descriptor Capacity h written msg s
    <| producer := PWrite h (written ++ [msg]) todo wrote |>) T H D.
Proof.
  intros Hi Hw Hun Hwr -> Hfit Hcomb Hst. pose proof (stream_bounds _ _ _ _ Hi) as (_&_&HD).
  set (s' := store_descriptor _ _ _ _ _ <| producer := _ |>).
  assert (stream s' = stream s ++ [wire msg]) as Hstream.
  { unfold stream. cbn. by rewrite Hw, fmap_app, app_assoc. }
  assert (length (stream s) = length (sent s) + length written)%nat as Hlen.
  { unfold stream. by rewrite length_app, length_fmap, Hw. }
  apply Forall_cons in Hfit as [Hmsg Htodo]. pose proof (iv_window _ _ _ _ Hi) as Hwin. rewrite Hun in Hwin.
  destruct Hi. split; rewrite ?Hstream; try done; cbn [s' store_descriptor set_field].
  - cbn. rewrite w64_add_l, w64_add_l.
    replace (Z.of_nat (length (sent s)) + Z.of_nat (length written)) with (Z.of_nat (length (stream s))) by lia.
    rewrite (slot_of_position _ (length (stream s))) by done.
    change (descriptor_of ?x msg) with (descriptor_of x (wire msg)). by apply ops_ok_desc.
  - rewrite length_app. cbn. lia.
  - intros n m Hn Hm. apply iv_descs0; [done|]. rewrite lookup_app_l in Hm; [done|lia].
  - apply Forall_app. split; [done|]. apply Forall_cons. split; [exact (msg_fits_stored msg Hmsg)|by apply Forall_nil].
  - intros n m st Hn Hm Hin. cbn. apply lookup_app_Some in Hm as [Hm|[Hge Hm]]; [by eapply iv_payloads0|].
    apply list_lookup_singleton_Some in Hm as [? <-]. rewrite stores_of_wire in Hin.
    replace n with (length (stream s)) by lia. by apply Hst.
  - intros idx st Hin. destruct (iv_owner0 idx st Hin) as (n&m&?&?&Hm&Hin'). exists n.
    destruct Hm as [Hm|[-> Hm]].
    + exists m. do 2 (split; [done|]). split; [|done]. left. rewrite Hstream. by apply lookup_app_l_Some.
    + exists (wire msg). do 2 (split; [done|]). apply Hwr in Hm as ->. rewrite stores_of_wire. split; [|done].
      left. rewrite Hstream. by apply list_lookup_middle.
Qed.

Lemma start_inv s T H D msgs : machine_inv s T H D → producer s = PIdle →
  msgs ≠ [] → Forall msg_fits msgs → Z.of_nat (length msgs) < 2 ^ 63 →
  (own_head s -₆₄ tail (mem s)) +₆₄ Z.of_nat (length msgs) ≤ Capacity →
  machine_inv (s <| producer := PWrite (own_head s) [] msgs false |>) T H D.
Proof.
  intros Hi Hp Hne Hfit Hlen Hready. pose proof (stream_bounds _ _ _ _ Hi) as (?&?&_).
  pose proof (iv_window _ _ _ _ Hi) as Hwin. pose proof (iv_producer _ _ _ _ Hi) as Hcomb.
  unfold own_head in *. rewrite (own_head_ops _ _ _ _ _ _ (iv_ops _ _ _ _ Hi) (iv_head _ _ _ _ Hi)) in *.
  unfold producer_ok in Hcomb. rewrite Hp in Hcomb, Hwin. cbn in Hwin.
  rewrite (iv_tail _ _ _ _ Hi), w64_sub_l, w64_sub_r, w64_add_l in Hready.
  rewrite w64_small in Hready by (unfold is_u64; lia).
  assert (stream s = sent s) as Hs by (unfold stream; rewrite Hp; apply app_nil_r).
  rewrite Hs in *.
  destruct Hi. split; try done; cbn.
  - by rewrite Hs in *; unfold stream; cbn; rewrite app_nil_r.
  - unfold stream. cbn. rewrite app_nil_r. lia.
  - unfold stream. cbn. rewrite app_nil_r. by rewrite Hs in *.
  - unfold stream. cbn. rewrite app_nil_r. by rewrite Hs in *.
  - unfold stream. cbn. rewrite app_nil_r. by rewrite Hs in *.
  - intros idx st Hin. rewrite Hcomb in Hin. by apply not_elem_of_nil in Hin.
Qed.

(** The pieces of the invariant that speak of the payloads of a message at
    hand. *)
Lemma begin_stores_inv s T H D h written msg todo wrote : machine_inv s T H D →
  producer s = PWrite h written (msg :: todo) wrote →
  machine_inv (s <| producer := PStores h written msg (stores_of msg) todo |>) T H D.
Proof.
  intros Hi Hp. set (s' := s <| producer := _ |>). pose proof (iv_window _ _ _ _ Hi) as Hwin.
  assert (stream s' = stream s) as Hs by (unfold stream; cbn; by rewrite Hp).
  destruct Hi. split; rewrite ?Hs; try done; cbn.
  - by rewrite Hp in Hwin.
  - intros idx st Hin. destruct (iv_owner0 idx st Hin) as (n&m&?&?&Hm&?). exists n, m.
    do 2 (split; [done|]). split; [|done]. destruct Hm as [Hm|[-> Hm]]; [left; by rewrite Hs|].
    by rewrite Hp in Hm.
  - unfold producer_ok in *. rewrite Hp in iv_producer0. cbn. destruct iv_producer0 as (?&?&_).
    do 2 (split; [done|]). exists []. split; [done|]. intros st Hin. by apply not_elem_of_nil in Hin.
Qed.

Lemma store_word_inv s T H D h written msg st stores todo : machine_inv s T H D →
  producer s = PStores h written msg (st :: stores) todo →
  machine_inv (s <| combining := combining s ++ [(slot (length (stream s)), st)] |>
                 <| producer := PStores h written msg stores todo |>) T H D.
Proof.
  intros Hi Hp. set (s' := s <| combining := _ |> <| producer := _ |>). pose proof (iv_window _ _ _ _ Hi) as Hwin.
  pose proof (stream_bounds _ _ _ _ Hi) as (_&?&_).
  assert (stream s' = stream s) as Hs by (unfold stream; cbn; by rewrite Hp).
  destruct Hi. unfold producer_ok in iv_producer0. rewrite Hp in iv_producer0.
  destruct iv_producer0 as (Hh&Hfit&issued&Hiss&Hdone).
  split; rewrite ?Hs; try done.
  - by rewrite Hp in Hwin.
  - intros n m st' Hn Hm Hin. cbn. destruct (iv_payloads0 n m st' Hn Hm Hin); [left; apply elem_of_app; by left|by right].
  - cbn. intros idx st' [Hin|Hin]%elem_of_app.
    + destruct (iv_owner0 idx st' Hin) as (n&m&?&?&Hm&?). exists n, m. do 2 (split; [done|]).
      split; [|done]. destruct Hm as [Hm|[-> Hm]]; [left; by rewrite Hs|].
      right. rewrite Hs. rewrite Hp in Hm. by split.
    + apply list_elem_of_singleton in Hin as [= -> ->]. exists (length (stream s)), msg.
      split; [lia|]. split; [done|]. split; [right; by rewrite Hs|]. rewrite Hiss. apply elem_of_app.
      right. by left.
  - unfold producer_ok. rewrite Hs. cbn. do 2 (split; [done|]). exists (issued ++ [st]).
    rewrite <- app_assoc. split; [done|]. intros st' [Hin|Hin]%elem_of_app.
    + destruct (Hdone st' Hin); [left; apply elem_of_app; by left|by right].
    + apply list_elem_of_singleton in Hin as ->. left. apply elem_of_app. right. by left.
Qed.

Lemma fence_inv s T H D h written wrote : machine_inv s T H D →
  producer s = PWrite h written [] wrote → combining s = [] →
  machine_inv (s <| producer := PPublish h written |>) T H D.
Proof.
  intros Hi Hp Hcomb. set (s' := s <| producer := _ |>). pose proof (iv_window _ _ _ _ Hi) as Hwin.
  assert (stream s' = stream s) as Hs by (unfold stream; cbn; by rewrite Hp).
  destruct Hi. split; rewrite ?Hs; try done; cbn.
  - by rewrite Hp in Hwin.
  - intros idx st Hin. rewrite Hcomb in Hin. by apply not_elem_of_nil in Hin.
  - unfold producer_ok in *. rewrite Hp in iv_producer0. cbn. by destruct iv_producer0.
Qed.

Lemma publish_inv s T H D h batch : machine_inv s T H D → producer s = PPublish h batch →
  machine_inv (s <| store_buffer := store_buffer s ++ [StoreHead (h +₆₄ Z.of_nat (length batch))] |>
                 <| producer := PIdle |> <| sent := sent s ++ (wire <$> batch) |>) T H D.
Proof.
  intros Hi Hp. set (s' := s <| store_buffer := _ |> <| producer := _ |> <| sent := _ |>).
  pose proof (stream_bounds _ _ _ _ Hi) as (?&?&_). pose proof (iv_window _ _ _ _ Hi) as Hwin.
  assert (stream s = sent s ++ (wire <$> batch)) as Hs0 by (unfold stream; by rewrite Hp).
  assert (stream s' = stream s) as Hs by (rewrite Hs0; unfold stream; cbn; apply app_nil_r).
  assert (Z.of_nat (length (sent s)) + Z.of_nat (length batch) = Z.of_nat (length (stream s))) as Hlen.
  { rewrite Hs0, length_app, length_fmap. lia. }
  destruct Hi. unfold producer_ok in iv_producer0. rewrite Hp in iv_producer0.
  destruct iv_producer0 as [-> Hcomb].
  split; rewrite ?Hs; try done; cbn; rewrite <- ?Hs0.
  - rewrite w64_add_l, Hlen. apply ops_ok_head with (length (sent s)); [done|lia].
  - by rewrite Hp in Hwin.
  - intros idx st Hin. rewrite Hcomb in Hin. by apply not_elem_of_nil in Hin.
  - unfold consumer_ok, consumer_at, reading in *. cbn. rewrite <- Hs0.
    assert (∀ k count got fresh t, reading s H t count got fresh → k = (length (received s) + length got)%nat →
      (wire <$> got = take (length got) (drop (length (received s)) (stream s))) ∧
      ∀ i out, fresh !! i = Some out → ∃ m o, stream s !! (k + i)%nat = Some m ∧
        out = fill_from_descriptor (descriptor_of (w64 (Z.of_nat (k + i) + 1)) m) o) as Hmore.
    { intros k count got fresh t (_&Hc&Hl&Hg&Hf) ->. rewrite Hs0. split.
      - rewrite Hg, drop_app_le by lia. rewrite take_app_le; [done|].
        rewrite length_drop. rewrite length_app in Hl. lia.
      - intros i out Hout. destruct (Hf i out Hout) as (m&o&Hm&?). exists m, o.
        split; [by apply lookup_app_l_Some|done]. }
    destruct (consumer s) as [|t count got fresh|t count got fresh]; [done| |];
      destruct (Hmore _ count got fresh t iv_consumer0 eq_refl) as [? ?];
      destruct iv_consumer0 as (?&?&?&_); done.
  - rewrite iv_received0 at 1. rewrite Hs0, take_app_le; [done|lia].
Qed.

(** The slot the producer computes for the message at hand. *)
Lemma slot_at_hand s h written : h = w64 (Z.of_nat (length (sent s))) → written_by (producer s) = written →
  Z.land (h +₆₄ Z.of_nat (length written)) (MASK Capacity) = slot (length (stream s)).
Proof.
  intros -> Hw. rewrite w64_add_l. apply slot_of_position. f_equal.
  unfold stream. rewrite length_app, length_fmap, Hw. lia.
Qed.

Lemma producer_step_inv a s s' T H D : machine_inv s T H D → producer_step Capacity a s = Some s' →
  machine_inv s' T H D.
Proof.
  intros Hi Hstep. pose proof (iv_producer _ _ _ _ Hi) as Hprod. unfold producer_ok in Hprod.
  unfold producer_step in Hstep. destruct a; try done;
    destruct (producer s) as [|h written todo wrote|h written msg stores todo|h batch] eqn:Hp; try done.
  - (* PStart *)
    repeat case_match; simplify_eq.
    match goal with H : _ && _ = true |- _ =>
      apply andb_prop in H as [[[Hne Hfit]%andb_prop Hlen]%andb_prop Hready] end.
    apply bool_decide_eq_true in Hne, Hfit. apply start_inv; try done; [lia|].
    apply negb_true_iff in Hready. lia.
  - (* the next message *)
    destruct todo as [|msg todo]; [done|]. destruct Hprod as (Hh&Hfit&Hcomb).
    destruct (Z.eqb_spec (payload_bytes (m_body msg)) 0) as [H0|H0]; simplify_eq.
    + apply store_descriptor_inv; rewrite ?Hp; try done.
      intros st Hin. unfold stores_of in Hin. rewrite H0 in Hin. by apply not_elem_of_nil in Hin.
    + by eapply begin_stores_inv.
  - (* a payload store, or the descriptor after the last *)
    destruct Hprod as (Hh&Hfit&issued&Hiss&Hdone). destruct stores as [|st stores]; simplify_eq.
    + apply store_descriptor_inv; rewrite ?Hp; try done; cbn; try (by intros m [= ->]).
      rewrite app_nil_r in Hiss. by rewrite Hiss.
    + rewrite (slot_at_hand s) by (rewrite ?Hp; done). by eapply store_word_inv.
  - (* PFence *)
    destruct Hprod as (Hh&Hfit&Hcomb). destruct todo as [|msg todo]; [|done].
    destruct wrote; repeat case_match; simplify_eq; eapply fence_inv; [done..| |done|done|]; by try apply Hcomb.
  - (* PPublishHead *)
    simplify_eq. by apply publish_inv.
Qed.

(** ** The memory system *)
(** A descriptor written behind the published part disturbs no message. *)
Lemma desc_behind s T H D n m d : machine_inv s T H D → (D < length (stream s))%nat →
  (T ≤ n < D)%nat → stream s !! n = Some m →
  desc_at (set_desc (slot D) d (mem s)) (slot n) = descriptor_of (w64 (Z.of_nat n + 1)) m.
Proof.
  intros Hi HD Hn Hm. pose proof (iv_window _ _ _ _ Hi). rewrite desc_set_ne; [by eapply iv_descs|].
  intros Heq%(slot_inj _ _ T); lia.
Qed.

Lemma drain_store_inv s T H D op ops : machine_inv s T H D → store_buffer s = op :: ops →
  ∃ H' D', machine_inv (s <| store_buffer := ops |>
    <| mem := match op with StoreDesc idx d => set_desc idx d (mem s) | StoreHead h => set_head h (mem s) end |>)
    T H' D' ∧ (H ≤ H')%nat.
Proof.
  intros Hi Hb. pose proof (iv_ops _ _ _ _ Hi) as Hops. rewrite Hb in Hops.
  destruct op as [idx d|h]; cbn in Hops.
  - destruct Hops as (->&(m&Hm&->)&Hops). pose proof (lookup_lt_Some _ _ _ Hm) as HD.
    exists H, (S D). split; [|lia]. pose proof (iv_window _ _ _ _ Hi).
    split; try apply Hi; cbn; [done|pose proof (iv_order _ _ _ _ Hi); lia|].
    intros n m' Hn Hm'. destruct (decide (n = D)) as [->|].
    + assert (Some m' = Some m) as [= ->] by (rewrite <- Hm; exact (eq_sym Hm')).
      unfold desc_at, set_desc. cbn. by rewrite lookup_insert_eq.
    + eapply desc_behind; [done..|lia|done].
  - destruct Hops as (p&->&Hp&Hops). exists p, D. split; [|lia]. pose proof (iv_order _ _ _ _ Hi).
    split; try apply Hi; cbn; [done|done|lia|].
    pose proof (iv_consumer _ _ _ _ Hi) as Hc. unfold consumer_ok, consumer_at, reading in *. cbn.
    destruct (consumer s); [done| |]; destruct Hc as (?&?&Hrest); (split; [done|]); (split; [lia|done]).
Qed.

Lemma tear_inv s T H D idx d d' ops : machine_inv s T H D → store_buffer s = StoreDesc idx d' :: ops →
  machine_inv (s <| mem := set_desc idx d (mem s) |>) T H D.
Proof.
  intros Hi Hb. pose proof (iv_ops _ _ _ _ Hi) as Hops. rewrite Hb in Hops.
  destruct Hops as (->&(m&Hm&_)&_). pose proof (lookup_lt_Some _ _ _ Hm) as HD.
  split; try apply Hi; cbn. intros n m' Hn Hm'. by eapply desc_behind.
Qed.

Lemma drain_tail_inv s T H D t ts : machine_inv s T H D → tail_buffer s = t :: ts →
  ∃ T', machine_inv (s <| tail_buffer := ts |> <| mem := commit_tail t (mem s) |>) T' H D.
Proof.
  intros Hi Hb. pose proof (iv_tails _ _ _ _ Hi) as Ht. rewrite Hb in Ht. destruct Ht as (T'&->&HT&Ht).
  exists T'. pose proof (iv_window _ _ _ _ Hi). split; try apply Hi; cbn; [done|done| | |].
  - etransitivity; [eassumption|lia].
  - intros n m Hn. apply (iv_descs _ _ _ _ Hi). lia.
  - intros n m st Hn. apply (iv_payloads _ _ _ _ Hi). lia.
Qed.

(** The position a pending payload store belongs to, recognised by its slot. *)
Lemma owner_unique s T H D n m idx st : machine_inv s T H D → (idx, st) ∈ combining s →
  (T ≤ n)%nat → message_at s n m → slot n = idx → st ∈ stores_of m ∧ (length (sent s) ≤ n)%nat.
Proof.
  intros Hi Hin Hn Hm <-. destruct (iv_owner _ _ _ _ Hi _ _ Hin) as (n'&m'&Hge&Hs&Hm'&Hst).
  pose proof (stream_bounds _ _ _ _ Hi) as (?&?&_).
  assert (n = n') as <-.
  { apply slot_inj with T; [done|lia|by eapply message_at_window..|done]. }
  by rewrite (message_at_inj _ _ _ _ Hm Hm').
Qed.

(** Two stores of one payload to the same offset store the same bytes. *)
Lemma stores_functional m st st' : st ∈ stores_of m → st' ∈ stores_of m → st.1 = st'.1 → st.2 = st'.2.
Proof.
  unfold stores_of, payload_stores. intros (k&->&_)%list_elem_of_fmap (k'&->&_)%list_elem_of_fmap. cbn [fst snd].
  intros Hk. by replace k' with k by lia.
Qed.

Lemma message_at_fits s T H D n m : machine_inv s T H D → message_at s n m →
  payload_bytes (m_body m) ≤ kMaxValueBytes ∧
  (Z.to_nat (payload_bytes (m_body m)) ≤ length (p_data (m_body m)))%nat.
Proof.
  intros Hi [Hm|[_ Hm]].
  - pose proof (iv_msgs _ _ _ _ Hi) as Hall. by eapply Forall_lookup_1 in Hall as (_&?&?).
  - pose proof (iv_producer _ _ _ _ Hi) as Hp. unfold producer_ok, writing in *.
    destruct (producer s); try done. injection Hm as ->. destruct Hp as (_&[[Hd Hb] _]%Forall_cons&_).
    split; [done|]. pose proof (payload_bytes_nonneg (m_body m)). lia.
Qed.

(** A payload store that reaches memory keeps the progress of every message. *)
Lemma flush_keeps s T H D k idx off data n m st : machine_inv s T H D →
  combining s !! k = Some (idx, (off, data)) → (T ≤ n)%nat → message_at s n m → st ∈ stores_of m →
  (slot n, st) ∈ combining s ∨ has_store (payload_at (mem s) (slot n)) st →
  let mem' := set_payload idx (memcpy_at (payload_at (mem s) idx) off data) (mem s) in
  (slot n, st) ∈ delete k (combining s) ∨ has_store (payload_at mem' (slot n)) st.
Proof.
  intros Hi Hk Hn Hm Hst Hor mem'. pose proof (list_elem_of_lookup_2 _ _ _ Hk) as Hin.
  destruct (message_at_fits _ _ _ _ _ _ Hi Hm) as [Hb Hl].
  pose proof (payload_bytes_nonneg (m_body m)).
  pose proof (pad16_slot (payload_bytes (m_body m)) ltac:(lia)) as Hpad.
  assert ((slot n, st) ∈ combining s → (slot n, st) ≠ (idx, (off, data)) →
    (slot n, st) ∈ delete k (combining s)) as Hkeep.
  { intros Hx Hne. rewrite (delete_Permutation _ _ _ Hk) in Hx. by apply elem_of_cons in Hx as [?|?]. }
  destruct (decide (slot n = idx)) as [Hs|Hs].
  - destruct (owner_unique _ _ _ _ n m _ _ Hi Hin Hn Hm Hs) as [Hst' _].
    destruct (payload_stores_shape _ _ _ Hl Hst) as (j&Hj&?&_).
    destruct (payload_stores_shape _ _ _ Hl Hst') as (j'&Hj'&?&Hd). cbn in Hj', Hd.
    destruct (decide ((off, data) = st)) as [<-|Hne].
    + right. rewrite Hs. unfold mem'. rewrite payload_set_eq.
      apply has_store_memcpy with j' j'; rewrite ?(iv_lengths _ _ _ _ Hi); (done || lia || by right).
    + destruct Hor as [Hor|Hor]; [left; apply Hkeep; [done|congruence]|right].
      rewrite Hs in *. unfold mem'. rewrite payload_set_eq.
      apply has_store_memcpy with j' j; rewrite ?(iv_lengths _ _ _ _ Hi); try (done || lia || by left).
      intros Heq. by apply (stores_functional m st (off, data)).
  - unfold mem'. rewrite payload_set_ne by done.
    destruct Hor as [Hor|Hor]; [left; apply Hkeep; [done|congruence]|by right].
Qed.

Lemma flush_inv s T H D k idx off data : machine_inv s T H D →
  combining s !! k = Some (idx, (off, data)) →
  machine_inv (s <| combining := delete k (combining s) |>
    <| mem := set_payload idx (memcpy_at (payload_at (mem s) idx) off data) (mem s) |>
    <| cache := if snoop then delete idx (cache s) else cache s |>) T H D.
Proof.
  intros Hi Hk. pose proof (list_elem_of_lookup_2 _ _ _ Hk) as Hin.
  destruct (iv_owner _ _ _ _ Hi _ _ Hin) as (n0&m0&_&_&Hm0&Hst0).
  destruct (message_at_fits _ _ _ _ _ _ Hi Hm0) as [Hb0 Hl0].
  destruct (payload_stores_shape _ _ _ Hl0 Hst0) as (j&Hj&Hpad&Hd). cbn in Hj, Hd.
  pose proof (payload_bytes_nonneg (m_body m0)).
  pose proof (pad16_slot (payload_bytes (m_body m0)) ltac:(lia)) as Hslot.
  pose proof (stream_bounds _ _ _ _ Hi) as (?&?&_).
  split; try apply Hi; cbn.
  - intros n m st Hn Hm Hst. eapply (flush_keeps s T H D); [done|done|done|by left|done|].
    by eapply iv_payloads.
  - intros idx' st Hin'. apply (iv_owner _ _ _ _ Hi). by eapply list_elem_of_delete_inv.
  - intros idx'. destruct (decide (idx' = idx)) as [->|].
    + rewrite payload_set_eq, length_memcpy_at; [apply Hi|]. rewrite (iv_lengths _ _ _ _ Hi). lia.
    + rewrite payload_set_ne by done. apply Hi.
  - pose proof (iv_producer _ _ _ _ Hi) as Hp. unfold producer_ok in *. cbn.
    destruct (producer s) as [|h written todo wrote|h written msg stores todo|h batch] eqn:Hpc.
    + rewrite Hp in Hk. done.
    + destruct Hp as (?&?&Hw). do 2 (split; [done|]). intros Hwr. rewrite (Hw Hwr) in Hk. done.
    + destruct Hp as (?&?&issued&Hiss&Hdone). do 2 (split; [done|]). exists issued. split; [done|].
      intros st Hst. eapply (flush_keeps s T H D _ _ _ _ (length (stream s)) msg); [done|done|lia| | |by apply Hdone].
      * right. by rewrite Hpc.
      * rewrite Hiss. apply elem_of_app. by left.
    + destruct Hp as [_ Hp]. rewrite Hp in Hk. done.
  - intros Hsn idx' p Hc. rewrite Hsn in Hc. apply lookup_delete_Some in Hc as [Hne Hc].
    rewrite payload_set_ne by done. by eapply iv_cache.
Qed.

Lemma memory_step_inv a s s' T H D : machine_inv s T H D → memory_step snoop a s = Some s' →
  ∃ T' H' D', machine_inv s' T' H' D' ∧ (H ≤ H')%nat.
Proof.
  intros Hi Hstep. unfold memory_step in Hstep. destruct a as [| | | |k| |d| |idx|idx| | | |]; try done.
  - destruct (combining s !! k) as [[idx [off data]]|] eqn:Hk; simplify_eq.
    exists T, H, D. split; [by apply flush_inv|done].
  - destruct (store_buffer s) as [|op ops] eqn:Hb; [done|].
    destruct (drain_store_inv s T H D op ops Hi Hb) as (H'&D'&Hi'&?).
    exists T, H', D'. split; [|done]. destruct op; simplify_eq; done.
  - destruct (store_buffer s) as [|[idx d'|] ops] eqn:Hb; simplify_eq.
    exists T, H, D. split; [by eapply tear_inv|done].
  - destruct (tail_buffer s) as [|t ts] eqn:Hb; simplify_eq.
    destruct (drain_tail_inv s T H D t ts Hi Hb) as [T' Hi']. by exists T', H, D.
  - simplify_eq. exists T, H, D. split; [|done]. split; try apply Hi; cbn. intros Hsn idx' p.
    destruct (decide (idx = idx')) as [<-|].
    + rewrite lookup_insert_eq. congruence.
    + rewrite lookup_insert_ne by done. by apply (iv_cache _ _ _ _ Hi).
  - simplify_eq. exists T, H, D. split; [|done]. split; try apply Hi; cbn. intros Hsn idx' p [_ Hc]%lookup_delete_Some.
    by apply (iv_cache _ _ _ _ Hi).
Qed.

(** ** The consumer *)
Lemma sent_in_stream s n m : sent s !! n = Some m → stream s !! n = Some m.
Proof. intros Hm. by apply lookup_app_l_Some. Qed.

(** The slot of a published message holds it. *)
Lemma published_descriptor s T H D n m out : machine_inv s T H D → (T ≤ n < H)%nat → sent s !! n = Some m →
  read_slot_descriptor (fun _ => desc_at (mem s) (slot n)) (w64 (Z.of_nat n + 1)) out =
    (true, fill_from_descriptor (descriptor_of (w64 (Z.of_nat n + 1)) m) out).
Proof.
  intros Hi Hn Hm. pose proof (iv_order _ _ _ _ Hi).
  pose proof (sent_in_stream _ _ _ Hm) as Hm'. rewrite (iv_descs _ _ _ _ Hi n m) by (done || lia).
  destruct (message_at_fits _ _ _ _ n m Hi ltac:(by left)) as [Hb _].
  unfold read_slot_descriptor, kRetries. by apply read_retry_hit.
Qed.

Lemma no_pending_store s T H D n st : machine_inv s T H D → (T ≤ n < length (sent s))%nat →
  (slot n, st) ∉ combining s.
Proof.
  intros Hi Hn Hin. destruct (lookup_lt_is_Some_2 (sent s) n ltac:(lia)) as [m Hm].
  destruct (owner_unique _ _ _ _ n m _ _ Hi Hin ltac:(lia) ltac:(left; by apply sent_in_stream) eq_refl). lia.
Qed.

Lemma published_payload s T H D n m : machine_inv s T H D → (T ≤ n)%nat → sent s !! n = Some m →
  take (Z.to_nat (payload_bytes (m_body m))) (payload_at (mem s) (slot n)) = p_data (m_body m).
Proof.
  intros Hi Hn Hm. pose proof (lookup_lt_Some _ _ _ Hm). apply sent_in_stream in Hm.
  pose proof (iv_msgs _ _ _ _ Hi) as Hall. eapply Forall_lookup_1 in Hall as (Hw&Hb&Hl); [|exact Hm].
  pose proof (payload_bytes_nonneg (m_body m)).
  rewrite (has_all_stores (p_data (m_body m))); [|done| |].
  - apply (f_equal (fun m => p_data (m_body m))) in Hw. exact Hw.
  - rewrite (iv_lengths _ _ _ _ Hi). apply pad16_slot. lia.
  - intros st Hst. destruct (iv_payloads _ _ _ _ Hi n m st Hn Hm Hst) as [Hin|Hin]; [|done].
    by apply (no_pending_store s T H D) in Hin.
Qed.

Lemma payload_seen_current s T H D idx : snoop = true → machine_inv s T H D →
  payload_seen s idx = payload_at (mem s) idx.
Proof.
  intros Hsn Hi. unfold payload_seen. destruct (cache s !! idx) as [p|] eqn:Hc; [|done].
  by apply (iv_cache _ _ _ _ Hi Hsn).
Qed.

Lemma set_consumer_inv s T H D pc : machine_inv s T H D → consumer_at s H pc →
  machine_inv (s <| consumer := pc |>) T H D.
Proof. intros Hi Hc. split; try apply Hi. exact Hc. Qed.

Lemma read_position s H t count got fresh k : reading s H t count got fresh →
  Z.land (t +₆₄ Z.of_nat k) (MASK Capacity) = slot (length (received s) + k) ∧
  (t +₆₄ Z.of_nat k) +₆₄ 1 = w64 (Z.of_nat (length (received s) + k) + 1).
Proof.
  intros [-> _]. rewrite w64_add_l, w64_add_l. split; [|f_equal; lia].
  apply slot_of_position. f_equal. lia.
Qed.

Lemma next_descriptor_inv s T H D t count got fresh out : machine_inv s T H D →
  consumer s = CDesc t count got fresh → (length (got ++ fresh) < count)%nat →
  ∃ out', read_slot_descriptor
      (fun _ => desc_at (mem s) (Z.land (t +₆₄ Z.of_nat (length (got ++ fresh))) (MASK Capacity)))
      ((t +₆₄ Z.of_nat (length (got ++ fresh))) +₆₄ 1) out = (true, out') ∧
    machine_inv (s <| consumer := CDesc t count got (fresh ++ [out']) |>) T H D.
Proof.
  intros Hi Hc Hlt. pose proof (iv_consumer _ _ _ _ Hi) as Hread. unfold consumer_ok in Hread. rewrite Hc in Hread.
  destruct (read_position _ _ _ _ _ _ (length (got ++ fresh)) Hread) as [-> ->].
  pose proof (stream_bounds _ _ _ _ Hi) as (?&?&_). destruct Hread as (Ht&Hcount&Hl&Hgot&Hfresh).
  set (n := (length (received s) + length (got ++ fresh))%nat) in *.
  destruct (lookup_lt_is_Some_2 (sent s) n ltac:(lia)) as [m Hm].
  rewrite (published_descriptor s T H D n m) by (done || lia). eexists. split; [done|].
  apply set_consumer_inv; [done|]. cbn [consumer_at]. split; [done|]. split; [done|].
  rewrite length_app in Hlt, Hl. split; [rewrite !length_app; cbn; lia|]. split; [done|].
  intros i out' [Hi'|[Hge Hi']]%lookup_app_Some; [by apply Hfresh|].
  apply list_lookup_singleton_Some in Hi' as [? <-]. exists m, out.
  replace (length (received s) + length got + i)%nat with n by (unfold n; rewrite length_app; lia). done.
Qed.

Lemma next_payload_inv s T H D t count got fresh out : snoop = true → machine_inv s T H D →
  consumer s = CPayload t count got (out :: fresh) →
  let idx := Z.land (t +₆₄ Z.of_nat (length got)) (MASK Capacity) in
  machine_inv (s <| consumer := CPayload t count
    (got ++ [copy_payload (set_payload idx (payload_seen s idx) (mem s)) idx out]) fresh |>) T H D.
Proof.
  intros Hsn Hi Hc idx. pose proof (iv_consumer _ _ _ _ Hi) as Hread. unfold consumer_ok in Hread.
  rewrite Hc in Hread. destruct (read_position _ _ _ _ _ _ (length got) Hread) as [Hidx _]. fold idx in Hidx.
  pose proof (stream_bounds _ _ _ _ Hi) as (?&?&_). destruct Hread as (Ht&Hcount&Hl&Hgot&Hfresh).
  destruct (Hfresh O out eq_refl) as (m&o&Hm&->). rewrite Nat.add_0_r in Hm |- *.
  set (n := (length (received s) + length got)%nat) in *.
  assert (wire (copy_payload (set_payload idx (payload_seen s idx) (mem s)) idx
    (fill_from_descriptor (descriptor_of (w64 (Z.of_nat n + 1)) m) o)) = m) as Hwire.
  { pose proof (iv_msgs _ _ _ _ Hi) as Hall. eapply Forall_lookup_1 in Hall as (Hw&Hb&_); [|by apply sent_in_stream].
    apply copy_payload_wire; [| |done|done]; rewrite payload_set_eq, (payload_seen_current s T H D) by done.
    - apply Hi.
    - rewrite Hidx. apply (published_payload s T H D); [done|lia|done]. }
  apply set_consumer_inv; [done|]. cbn [consumer_at]. split; [done|]. split; [done|].
  rewrite !length_app in *. cbn [length] in *. split; [lia|]. split.
  - rewrite fmap_app, Hgot. cbn. rewrite Hwire, Nat.add_1_r. symmetry. apply take_S_r. by rewrite lookup_drop.
  - intros i out' Hi'. destruct (Hfresh (S i) out' Hi') as (m'&o'&Hm'&->). exists m', o'.
    replace (length (received s) + (length got + 1) + i)%nat
      with (length (received s) + length got + S i)%nat by lia. done.
Qed.

Lemma load_inv s T H D max_batch : machine_inv s T H D → 0 < max_batch →
  head (mem s) -₆₄ own_tail s ≠ 0 →
  machine_inv (s <| consumer := CDesc (own_tail s)
    (Z.to_nat (Z.min (head (mem s) -₆₄ own_tail s) max_batch)) [] [] |>) T H D.
Proof.
  intros Hi Hmax Hne. pose proof (stream_bounds _ _ _ _ Hi) as (?&?&_). pose proof (iv_window _ _ _ _ Hi).
  unfold own_tail in *. rewrite (own_tail_buffer _ _ _ _ (iv_tails _ _ _ _ Hi) (iv_tail _ _ _ _ Hi)) in *.
  rewrite (iv_head _ _ _ _ Hi), w64_sub_l, w64_sub_r in *. rewrite (w64_small (_ - _)) in Hne |- * by (unfold is_u64; lia).
  apply set_consumer_inv; [done|]. cbn [consumer_at]. split; [done|]. split; [lia|]. split; [cbn; lia|]. split; [done|].
  intros i out Hout. done.
Qed.

Lemma commit_inv s T H D t count got : machine_inv s T H D → consumer s = CPayload t count got [] →
  machine_inv (s <| tail_buffer := tail_buffer s ++ [t +₆₄ Z.of_nat (length got)] |>
    <| consumer := CIdle |> <| received := received s ++ (wire <$> got) |>) T H D.
Proof.
  intros Hi Hc. pose proof (iv_consumer _ _ _ _ Hi) as Hread. unfold consumer_ok in Hread.
  rewrite Hc in Hread. destruct Hread as (->&Hcount&Hl&Hgot&_). rewrite app_nil_r in Hl.
  pose proof (iv_order _ _ _ _ Hi).
  split; try apply Hi; cbn; try done; rewrite ?length_app, ?length_fmap.
  - rewrite w64_add_l, <- Nat2Z.inj_add. apply tails_ok_app with (length (received s)); [apply Hi|lia].
  - lia.
  - rewrite (iv_received _ _ _ _ Hi) at 1. rewrite Hgot. apply take_take_drop.
Qed.

Lemma consumer_step_inv a s s' T H D : snoop = true → machine_inv s T H D →
  consumer_step Capacity a s = Some s' → machine_inv s' T H D.
Proof.
  intros Hsn Hi Hstep. unfold consumer_step in Hstep.
  destruct a; try done; destruct (consumer s) as [|t count got fresh|t count got fresh] eqn:Hc; try done.
  - case_match eqn:Hb; [done|]. simplify_eq. apply orb_false_elim in Hb as [Hne Hmax].
    apply load_inv; [done|lia|lia].
  - destruct (Nat.ltb_spec (length (got ++ fresh)) count).
    + case_bool_decide; [|done].
      destruct (next_descriptor_inv s T H D t count got fresh out Hi Hc ltac:(done)) as (out'&Hread&Hi').
      rewrite Hread in Hstep. by simplify_eq.
    + simplify_eq. apply set_consumer_inv; [done|]. pose proof (iv_consumer _ _ _ _ Hi) as Hread.
      unfold consumer_ok in Hread. rewrite Hc in Hread. exact Hread.
  - destruct fresh as [|out' fresh].
    + case_match; simplify_eq. apply set_consumer_inv; [done|]. pose proof (iv_consumer _ _ _ _ Hi) as Hread.
      unfold consumer_ok in Hread. rewrite Hc in Hread. exact Hread.
    + simplify_eq. by apply next_payload_inv.
  - destruct fresh; [|done]. destruct got as [|g got]; simplify_eq. by eapply commit_inv.
  - destruct got, fresh; simplify_eq. by apply set_consumer_inv.
Qed.

Lemma machine_step_inv a s s' T H D : snoop = true → machine_inv s T H D →
  machine_step Capacity snoop a s = Some s' → ∃ T' H' D', machine_inv s' T' H' D'.
Proof.
  intros Hsn Hi Hstep.
  destruct a; cbn [machine_step] in Hstep;
    first [ by exists T, H, D; eapply producer_step_inv
          | by exists T, H, D; eapply consumer_step_inv
          | by destruct (memory_step_inv _ _ _ _ _ _ Hi Hstep) as (T'&H'&D'&?&_); exists T', H', D' ].
Qed.

Lemma reachable_inv s : snoop = true → reachable Capacity snoop s → ∃ T H D, machine_inv s T H D.
Proof.
  intros Hsn. induction 1 as [|s a s' _ (T&H&D&Hi) Hstep].
  - exists O, O, O. apply initial_machine_inv.
  - by eapply machine_step_inv.
Qed.

End Invariant.

(** ** What the concurrent ring guarantees *)
Section Properties.
Context (Capacity : Z).

(** On coherent payload memory the ring is a bounded queue however the
    accesses of the two cores and of the memory system interleave: the messages
    received are the first of those published, in order and complete, and at
    most a capacity of them is under way. *)
Theorem ring_delivers_in_order s (Hcap : 0 < Capacity < 2 ^ 63)
    (Hpow : Z.land Capacity (Capacity - 1) = 0) (Hr : reachable Capacity true s) :
  received s `prefix_of` sent s ∧
  Z.of_nat (length (sent s)) ≤ Z.of_nat (length (received s)) + Capacity.
Proof.
  destruct (reachable_inv Capacity true Hcap Hpow s eq_refl Hr) as (T&H&D&Hi).
  pose proof (stream_bounds Capacity true s T H D Hi) as (?&?&_).
  pose proof (iv_window _ _ _ _ _ _ Hi). split; [|lia].
  exists (drop (length (received s)) (sent s)).
  rewrite (iv_received _ _ _ _ _ _ Hi) at 1. by rewrite take_drop.
Qed.

(** The consumer never meets a slot that is being written: the slots it
    has undertaken to read hold the descriptors it expects, so that its retry
    loop succeeds at once, and no store to them is waiting anywhere. *)
Theorem reads_never_race s t count got fresh k (Hcap : 0 < Capacity < 2 ^ 63)
    (Hpow : Z.land Capacity (Capacity - 1) = 0) (Hr : reachable Capacity true s)
    (Hc : consumer s = CDesc t count got fresh ∨ consumer s = CPayload t count got fresh)
    (Hk : (k < count)%nat) :
  let pos := t +₆₄ Z.of_nat k in
  let idx := Z.land pos (MASK Capacity) in
  (∀ out, (read_slot_descriptor (fun _ => desc_at (mem s) idx) (pos +₆₄ 1) out).1 = true) ∧
  (∀ d, StoreDesc idx d ∉ store_buffer s) ∧
  (∀ st, (idx, st) ∉ combining s).
Proof.
  intros pos idx. destruct (reachable_inv Capacity true Hcap Hpow s eq_refl Hr) as (T&H&D&Hi).
  pose proof (stream_bounds Capacity true s T H D Hi) as (?&?&HD).
  pose proof (iv_order _ _ _ _ _ _ Hi). pose proof (iv_window _ _ _ _ _ _ Hi).
  assert (reading s H t count got fresh) as Hread.
  { pose proof (iv_consumer _ _ _ _ _ _ Hi) as Hcons. unfold consumer_ok in Hcons. by destruct Hc as [Hc|Hc]; rewrite Hc in Hcons. }
  destruct (read_position Capacity Hcap Hpow _ _ _ _ _ _ k Hread) as [Hidx Hseq].
  fold pos in Hidx, Hseq. fold idx in Hidx. rewrite Hidx, Hseq. destruct Hread as (_&Hcount&_).
  set (n := (length (received s) + k)%nat) in *.
  destruct (lookup_lt_is_Some_2 (sent s) n ltac:(lia)) as [m Hm]. split; [|split].
  - intros out. by rewrite (published_descriptor Capacity true s T H D n m) by (done || lia).
  - intros d Hin. destruct (pending_descriptor Capacity _ _ _ _ _ _ _ (iv_ops _ _ _ _ _ _ Hi) Hin) as (n'&Hn'&Heq).
    apply (slot_inj Capacity Hcap _ _ T) in Heq; lia.
  - intros st. apply (no_pending_store Capacity true Hcap s T H D); [done|lia].
Qed.

End Properties.

(** ** Concrete schedules *)
Module Examples.

Definition run (Capacity : Z) (snoop : bool) (acts : list Action) (s : Machine) : option Machine :=
  foldl (fun s a => s ≫= machine_step Capacity snoop a) (Some s) acts.

Lemma run_reachable Capacity snoop acts s s' : reachable Capacity snoop s →
  run Capacity snoop acts s = Some s' → reachable Capacity snoop s'.
Proof.
  unfold run. revert s. induction acts as [|a acts IH]; intros s Hr Hrun; cbn in Hrun; [by simplify_eq|].
  destruct (machine_step Capacity snoop a s) as [s1|] eqn:Ha.
  - apply (IH s1); [by eapply reachable_step|done].
  - exfalso. revert Hrun. clear. by induction acts.
Qed.

Definition message (key : string) : BandleMessage :=
  let data := str key ++ replicate (Z.to_nat kMaxValueBytes - length (str key)) zero_byte in {|
  m_slot_seq := 0; m_type := PROPOSAL; m_body := {|
    p_seq := 1; p_round := 1; p_sender := 1; p_proposer := 1; p_client_req_id := 7; p_start_tsc := 3;
    p_value := 1; p_promise := 0; p_op := "D"; p_reserved0 := 0; p_key_len := Z.of_nat (length (str key));
    p_value_len := 0; p_data := data |} |}.

(** The producer pushes one message, whose payload and descriptor reach memory
    before the fence. *)
Definition push_one (m : BandleMessage) : list Action :=
  [PStart [m]; PNext; PNext; PNext; FlushStore 0; TearDescriptor zero_descriptor; DrainStore; PFence;
   PPublishHead; DrainStore].

(** The consumer drains it. *)
Definition drain_one : list Action :=
  [CLoad 1; CNext default_message; CNext default_message; CNext default_message; CCommit; DrainTail].

(** The consumer's core caches the slot with the first message. *)
Definition two_messages : list Action :=
  push_one (message "a") ++ [Prefetch 0] ++ drain_one ++ push_one (message "b") ++ drain_one.

Definition runs (Capacity : Z) (snoop : bool) (acts : list Action) : bool :=
  match run Capacity snoop acts initial_machine with Some _ => true | None => false end.

Definition after (Capacity : Z) (snoop : bool) (acts : list Action) : Machine :=
  default initial_machine (run Capacity snoop acts initial_machine).

Lemma after_reachable Capacity snoop acts : runs Capacity snoop acts = true →
  reachable Capacity snoop (after Capacity snoop acts).
Proof.
  unfold runs, after. destruct (run _ _ _ _) as [s|] eqn:Hs; [|done]. intros _. cbn.
  by eapply run_reachable; [apply reachable_initial|].
Qed.

Example ring_delivers_in_order_witness :
  received (after 1 true two_messages) = wire <$> [message "a"; message "b"] ∧
  received (after 1 true two_messages) `prefix_of` sent (after 1 true two_messages) ∧
  Z.of_nat (length (sent (after 1 true two_messages))) ≤
    Z.of_nat (length (received (after 1 true two_messages))) + 1.
Proof.
  split; [by vm_compute|]. apply (ring_delivers_in_order 1); [done|done|].
  apply after_reachable. by vm_compute.
Defined.

(** The consumer is at the descriptor of the second message, the producer has
    begun the third. *)
Definition reading_second : list Action :=
  [PStart [message "a"; message "b"]; PNext; PNext; PNext; DrainStore; PNext; PNext; PNext; FlushStore 1;
   DrainStore; FlushStore 0; PFence; PPublishHead; DrainStore; CLoad 64; CNext default_message].

Abbreviation racing := (after 2 true reading_second).

Example reads_never_race_witness :
  let idx := Z.land (0 +₆₄ Z.of_nat 1) (MASK 2) in
  (∀ out, (read_slot_descriptor (fun _ => desc_at (mem racing) idx) ((0 +₆₄ Z.of_nat 1) +₆₄ 1) out).1 = true) ∧
  (∀ d, StoreDesc idx d ∉ store_buffer racing) ∧ (∀ st, (idx, st) ∉ combining racing).
Proof.
  apply (reads_never_race 2 racing 0 2 [] match consumer racing with CDesc _ _ _ f => f | _ => [] end 1);
    [done|done| | |lia].
  - apply after_reachable. by vm_compute.
  - left. by vm_compute.
Defined.

(** C38: without a coherent payload memory the consumer can receive a message
    whose payload is that of an earlier message of the same slot: its core
    cached the slot before it was reused, and [read_batch_at_abs] reads it
    without flushing the line. *)
Theorem stale_payload_read :
  ∃ s, reachable 1 false s ∧ sent s = wire <$> [message "a"; message "b"] ∧
    received s = wire <$> [message "a"; message "a"].
Proof.
  exists (after 1 false two_messages). split; [|split; by vm_compute].
  apply after_reachable. by vm_compute.
Qed.

End Examples.
