(* ===== verification/RingChannel.v ===== *)
(** The concurrent ring of [RingConc] as a channel.  [visible] is what the
    consumer would find, from its last committed tail to the head that has
    reached memory.  [concurrent_ring_is_channel]: with coherent payloads every
    move of the two cores and of the memory system keeps it, appends to it when
    a published head arrives, or hands over a prefix of it when the consumer
    commits: the promises of [Transport.ChannelLaws], on which the cluster
    relies.  [concurrent_ring_drains]: wherever the two sides are, the ring can
    be run empty, so that nothing published stays behind. *)
From stdpp Require Import relations.
From S2P Require Import Prelude Message Ring RingConc.

(** The messages between [tail], as the consumer has last stored it, and
    [head], as memory holds it. *)
Definition visible (s : Machine) : list BandleMessage :=
  take (Z.to_nat (head (mem s) -₆₄ own_tail s)) (drop (length (received s)) (sent s)).

(** What a move does to a queue of messages: nothing, append, or hand over. *)
Inductive channel_move (Capacity : Z) (a : Action) (q q' given : list BandleMessage) : Prop :=
| move_silent : q' = q → given = [] → channel_move Capacity a q q' given
| move_append msgs : a = DrainStore → q' = q ++ msgs → given = [] → Z.of_nat (length q') ≤ Capacity →
    channel_move Capacity a q q' given
| move_receive : a = CCommit → given ≠ [] → q = given ++ q' → channel_move Capacity a q q' given.

Section Channel.
Context (Capacity : Z).
Context (Hcap : 0 < Capacity < 2 ^ 63) (Hpow : Z.land Capacity (Capacity - 1) = 0).
Implicit Types (s : Machine) (T H D : nat).

Abbreviation inv := (machine_inv Capacity true).

Lemma own_tail_received s T H D : inv s T H D → own_tail s = w64 (Z.of_nat (length (received s))).
Proof. intros Hi. exact (own_tail_buffer _ _ _ _ (iv_tails _ _ _ _ _ _ Hi) (iv_tail _ _ _ _ _ _ Hi)). Qed.

Lemma available s T H D : inv s T H D →
  head (mem s) -₆₄ own_tail s = Z.of_nat (H - length (received s)).
Proof.
  intros Hi. rewrite (own_tail_received s T H D Hi), (iv_head _ _ _ _ _ _ Hi), w64_sub_l, w64_sub_r.
  pose proof (stream_bounds Capacity true s T H D Hi) as (?&?&_). pose proof (iv_window _ _ _ _ _ _ Hi).
  rewrite w64_small by (unfold is_u64; lia). lia.
Qed.

Lemma visible_eq s T H D : inv s T H D → visible s = drop (length (received s)) (take H (sent s)).
Proof.
  intros Hi. unfold visible. rewrite (available s T H D Hi), Nat2Z.id. symmetry.
  pose proof (stream_bounds Capacity true s T H D Hi) as (?&?&_).
  by rewrite skipn_firstn_comm.
Qed.

(** Moves that leave the head in memory, what is sent and what is received. *)
Lemma visible_same s s' T T' H D D' : inv s T H D → inv s' T' H D' →
  sent s' = sent s → received s' = received s → visible s' = visible s.
Proof. intros Hi Hi' Hs Hr. by rewrite (visible_eq s T H D Hi), (visible_eq s' T' H D' Hi'), Hs, Hr. Qed.

Lemma silent_move a s s' T T' H D D' : inv s T H D → inv s' T' H D' → sent s' = sent s → received s' = received s →
  ∃ given, received s' = received s ++ given ∧ channel_move Capacity a (visible s) (visible s') given.
Proof.
  intros Hi Hi' Hs Hr. exists []. rewrite app_nil_r. split; [done|].
  apply move_silent; [by eapply visible_same|done].
Qed.

(** The producer: publishing waits in the store buffer. *)
Lemma producer_move a s s' T H D : inv s T H D → producer_step Capacity a s = Some s' →
  ∃ given, received s' = received s ++ given ∧ channel_move Capacity a (visible s) (visible s') given.
Proof.
  intros Hi Hstep. pose proof (producer_step_inv Capacity true Hcap Hpow a s s' T H D Hi Hstep) as Hi'.
  pose proof (stream_bounds Capacity true s T H D Hi) as (?&?&_).
  assert (received s' = received s ∧ ∃ more, sent s' = sent s ++ more) as [Hr [more Hs]].
  { unfold producer_step in Hstep. destruct a; try done;
      destruct (producer s) as [|h written todo wrote|h written msg stores todo|h batch]; try done;
      repeat case_match; simplify_eq; try (split; [done|by exists []; rewrite app_nil_r]).
    split; [done|by eexists]. }
  exists []. rewrite app_nil_r. split; [done|]. apply move_silent; [|done].
  rewrite (visible_eq s T H D Hi), (visible_eq s' T H D Hi'), Hs, Hr. by rewrite take_app_le by lia.
Qed.

Lemma drain_move s s' T H D : inv s T H D → memory_step true DrainStore s = Some s' →
  ∃ given, received s' = received s ++ given ∧ channel_move Capacity DrainStore (visible s) (visible s') given.
Proof.
  intros Hi Hstep. destruct (memory_step_inv Capacity true Hcap _ _ _ _ _ _ Hi Hstep) as (T'&H'&D'&Hi'&Hle).
  assert (received s' = received s ∧ sent s' = sent s) as [Hr Hs].
  { unfold memory_step in Hstep. repeat case_match; by simplify_eq. }
  pose proof (stream_bounds Capacity true s T H D Hi) as (?&?&_).
  pose proof (stream_bounds Capacity true s' T' H' D' Hi') as (?&?&_). pose proof (iv_window _ _ _ _ _ _ Hi').
  exists []. rewrite app_nil_r. split; [done|].
  rewrite (visible_eq s T H D Hi), (visible_eq s' T' H' D' Hi'), Hr, Hs in *.
  apply move_append with (take (H' - H) (drop H (sent s))); [done| |done|].
  - replace (take H' (sent s)) with (take (H + (H' - H)) (sent s)) by (f_equal; lia).
    by rewrite <- take_take_drop, drop_app_le by (rewrite length_take; lia).
  - rewrite length_drop, length_take. lia.
Qed.

Lemma memory_move a s s' T H D : inv s T H D → memory_step true a s = Some s' →
  ∃ given, received s' = received s ++ given ∧ channel_move Capacity a (visible s) (visible s') given.
Proof.
  intros Hi Hstep. destruct a; try done; try (by eapply drain_move); cbn [memory_step] in Hstep.
  - destruct (combining s !! k) as [[idx [off data]]|] eqn:Hk; simplify_eq.
    eapply silent_move; [done|by apply (flush_inv Capacity true Hcap s T H D)|done..].
  - destruct (store_buffer s) as [|[idx d'|] ops] eqn:Hb; simplify_eq.
    eapply silent_move; [done|by eapply (tear_inv Capacity true Hcap)|done..].
  - destruct (tail_buffer s) as [|t ts] eqn:Hb; simplify_eq.
    destruct (drain_tail_inv Capacity true s T H D t ts Hi Hb) as [T' Hi'].
    by eapply silent_move.
  - simplify_eq. destruct (memory_step_inv Capacity true Hcap (Prefetch idx) _ _ _ _ _ Hi eq_refl) as (T'&H'&D'&Hi'&_).
    exists []. rewrite app_nil_r. split; [done|]. by apply move_silent.
  - simplify_eq. exists []. rewrite app_nil_r. split; [done|]. by apply move_silent.
Qed.

Lemma consumer_move a s s' T H D : inv s T H D → consumer_step Capacity a s = Some s' →
  ∃ given, received s' = received s ++ given ∧ channel_move Capacity a (visible s) (visible s') given.
Proof.
  intros Hi Hstep. pose proof (consumer_step_inv Capacity true Hcap Hpow a s s' T H D eq_refl Hi Hstep) as Hi'.
  assert (a = CCommit ∨ a ≠ CCommit) as [->|Hne] by (destruct a; (by left) || by right).
  - pose proof (iv_consumer _ _ _ _ _ _ Hi) as Hc. unfold consumer_ok in Hc. unfold consumer_step in Hstep.
    destruct (consumer s) as [|t count got fresh|t count got fresh] eqn:Hpc; try done.
    destruct fresh; [|done]. destruct got as [|g got]; [done|]. injection Hstep as Hs'.
    destruct Hc as (Ht&Hcount&Hl&Hgot&_). rewrite app_nil_r in Hl.
    pose proof (stream_bounds Capacity true s T H D Hi) as (?&?&_).
    exists (wire <$> (g :: got)). split; [by rewrite <- Hs'|].
    apply move_receive; [done|done|]. rewrite (visible_eq s T H D Hi), (visible_eq s' T H D Hi'), <- Hs'.
    cbn [received sent set_field]. 
    change (received _) with (received s ++ (wire <$> g :: got)) at 2.
    change (sent _) with (sent s) at 2. rewrite length_app, length_fmap, <- drop_drop.
    rewrite <- (take_drop (length (g :: got)) (drop (length (received s)) (take H (sent s)))) at 1. f_equal.
    rewrite Hgot, !skipn_firstn_comm, take_take. f_equal. lia.
  - eapply silent_move; [done|exact Hi'| |]; unfold consumer_step in Hstep;
      destruct a; try done; repeat case_match; by simplify_eq.
Qed.

Lemma step_moves a s s' T H D : inv s T H D → machine_step Capacity true a s = Some s' →
  ∃ given, received s' = received s ++ given ∧ channel_move Capacity a (visible s) (visible s') given.
Proof.
  intros Hi Hstep. destruct a; cbn [machine_step] in Hstep;
    first [by eapply producer_move | by eapply consumer_move | by eapply memory_move].
Qed.

(** A consumer that looks finds the queue. *)
Lemma load_finds s T H D b : inv s T H D → consumer s = CIdle → 0 < b →
  machine_step Capacity true (CLoad b) s = None ↔ visible s = [].
Proof.
  intros Hi Hc Hb. cbn [machine_step consumer_step]. rewrite Hc, (available s T H D Hi), (visible_eq s T H D Hi).
  pose proof (stream_bounds Capacity true s T H D Hi) as (?&?&_).
  assert (length (drop (length (received s)) (take H (sent s))) = (H - length (received s))%nat) as Hl.
  { rewrite length_drop, length_take. lia. }
  rewrite (proj2 (Z.leb_gt b 0)), orb_false_r by done. destruct (Z.eqb_spec (Z.of_nat (H - length (received s))) 0).
  - split; [|done]. intros _. apply nil_length_inv. lia.
  - split; [done|]. intros Hn. rewrite Hn in Hl. cbn in Hl. lia.
Qed.

Lemma received_visible s T H D : inv s T H D → received s ++ visible s = take H (sent s).
Proof.
  intros Hi. pose proof (stream_bounds Capacity true s T H D Hi) as (?&?&_).
  rewrite (visible_eq s T H D Hi), (iv_received _ _ _ _ _ _ Hi) at 1.
  rewrite <- (take_drop (length (received s)) (take H (sent s))) at 2. f_equal.
  rewrite take_take. f_equal. lia.
Qed.

Lemma visible_sent s T H D : inv s T H D → received s ++ visible s `prefix_of` sent s.
Proof.
  intros Hi. rewrite (received_visible s T H D Hi). exists (drop H (sent s)). by rewrite take_drop.
Qed.

Lemma visible_all s T H D : inv s T H D → store_buffer s = [] → received s ++ visible s = sent s.
Proof.
  intros Hi Hb. rewrite (received_visible s T H D Hi). apply take_ge.
  pose proof (iv_ops _ _ _ _ _ _ Hi) as Hops. rewrite Hb in Hops. by destruct Hops as [_ ->].
Qed.

End Channel.

(** ** The ring can be run empty *)

(** Everything [push_batch] has been given so far. *)
Definition batch_of (pc : ProducerPc) : list BandleMessage :=
  match pc with
  | PIdle => []
  | PWrite _ written todo _ => written ++ todo
  | PStores _ written msg _ todo => written ++ msg :: todo
  | PPublish _ batch => batch
  end.

Definition pushed (s : Machine) : list BandleMessage := sent s ++ (wire <$> batch_of (producer s)).

(** A move that starts no new batch. *)
Definition idle_step (Capacity : Z) (s s' : Machine) : Prop :=
  ∃ a, (∀ msgs, a ≠ PStart msgs) ∧ machine_step Capacity true a s = Some s'.

(** Nothing is left to do. *)
Record drained (s : Machine) : Prop := {
  dr_producer : producer s = PIdle;
  dr_combining : combining s = [];
  dr_stores : store_buffer s = [];
  dr_tails : tail_buffer s = [];
  dr_consumer : consumer s = CIdle;
  dr_received : length (received s) = length (sent s)
}.

(** How much is left to do: stores and moves of the producer, moves of the
    consumer for what it has undertaken to read, and messages it has not. *)
Definition message_work (m : BandleMessage) : nat := 2 * length (stores_of m) + 4.

Definition producer_work (pc : ProducerPc) : nat :=
  match pc with
  | PIdle => 0
  | PWrite _ _ todo _ => 4 + sum_list (message_work <$> todo)
  | PStores _ _ _ stores todo => 2 * length stores + 7 + sum_list (message_work <$> todo)
  | PPublish _ _ => 3
  end.

Definition consumer_work (pc : ConsumerPc) : nat :=
  match pc with
  | CIdle => 0
  | CDesc _ count got fresh => 2 * (count - length got - length fresh) + length fresh + 3
  | CPayload _ count got fresh => 4 * (count - length got - length fresh) + length fresh + 2
  end.

Definition claimed (pc : ConsumerPc) : nat :=
  match pc with CIdle => 0 | CDesc _ count _ _ | CPayload _ count _ _ => count end.

Definition work (s : Machine) : nat :=
  length (combining s) + length (store_buffer s) + length (tail_buffer s) +
  producer_work (producer s) + consumer_work (consumer s) +
  6 * (length (pushed s) - length (received s) - claimed (consumer s)).

(** A schedule: what the memory system, the writing producer and the reading
    consumer do next. *)
Definition memory_action (s : Machine) : option Action :=
  match combining s, store_buffer s, tail_buffer s with
  | _ :: _, _, _ => Some (FlushStore 0)
  | [], _ :: _, _ => Some DrainStore
  | [], [], _ :: _ => Some DrainTail
  | [], [], [] => None
  end.

Definition write_action (s : Machine) : option Action :=
  match memory_action s with
  | Some a => Some a
  | None =>
      match producer s with
      | PIdle | PPublish _ _ => None
      | PWrite _ _ [] _ => Some PFence
      | PWrite _ _ (_ :: _) _ | PStores _ _ _ _ _ => Some PNext
      end
  end.

Definition read_action (s : Machine) : option Action :=
  match consumer s with
  | CIdle => None
  | CDesc _ _ _ _ | CPayload _ _ _ (_ :: _) => Some (CNext default_message)
  | CPayload _ count got [] =>
      if (length got <? count)%nat then Some (CNext default_message)
      else match got with [] => Some CGiveUp | _ => None end
  end.

Lemma memory_action_none s : memory_action s = None → combining s = [] ∧ store_buffer s = [] ∧ tail_buffer s = [].
Proof. unfold memory_action. by repeat case_match. Qed.

Lemma write_action_none s : write_action s = None →
  (combining s = [] ∧ store_buffer s = [] ∧ tail_buffer s = []) ∧
  (producer s = PIdle ∨ ∃ h batch, producer s = PPublish h batch).
Proof.
  unfold write_action. destruct (memory_action s) eqn:Hm; [done|]. intros Hp. split; [by apply memory_action_none|].
  repeat case_match; try done; [by left|right; by eexists _, _].
Qed.

Section Drain.
Context (Capacity : Z).
Context (Hcap : 0 < Capacity < 2 ^ 63) (Hpow : Z.land Capacity (Capacity - 1) = 0).
Implicit Types (s : Machine) (T H D : nat).

Abbreviation inv := (machine_inv Capacity true).

#[local] Arguments Nat.mul : simpl never.
#[local] Arguments Nat.sub : simpl never.
#[local] Arguments pushed : simpl never.
#[local] Arguments message_work : simpl never.

(** The move leaves less to do. *)
Definition works (a : Action) s : Prop :=
  ∃ s', machine_step Capacity true a s = Some s' ∧ pushed s' = pushed s ∧ (work s' < work s)%nat.

Lemma works_by s a s' : machine_step Capacity true a s = Some s' → pushed s' = pushed s →
  (work s' < work s)%nat → works a s.
Proof. intros. by exists s'. Qed.

(** *** The buffers empty themselves *)
Lemma memory_works s a : memory_action s = Some a → works a s.
Proof.
  unfold memory_action. intros Ha. destruct (combining s) as [|[idx [off data]] l] eqn:Hc.
  - destruct (store_buffer s) as [|op ops] eqn:Hb; [destruct (tail_buffer s) as [|t ts] eqn:Ht; [done|]|];
      injection Ha as <-; [|destruct op as [idx d|h]]; (eapply works_by; [cbn; by rewrite ?Hb, ?Ht|done|]);
      unfold work; cbn; change (pushed _) with (pushed s); rewrite ?Hb, ?Ht; cbn; lia.
  - injection Ha as <-. eapply works_by; [cbn; by rewrite Hc|done|].
    unfold work. cbn. change (pushed _) with (pushed s). rewrite Hc. cbn. lia.
Qed.

(** *** The producer, once its fence would find the buffers empty *)
Lemma write_works s a : write_action s = Some a → works a s.
Proof.
  unfold write_action. destruct (memory_action s) as [a'|] eqn:Hm; [intros [= <-]; by apply memory_works|].
  intros Ha. destruct (memory_action_none s Hm) as (Hc&Hb&_).
  destruct (producer s) as [|h written [|msg todo] wrote|h written msg [|st stores] todo|h batch] eqn:Hpc;
    try done; injection Ha as <-.
  - eapply works_by; [cbn; rewrite Hpc, Hc, Hb; by destruct wrote| |];
      unfold work, pushed; cbn; rewrite Hpc; cbn; rewrite ?app_nil_r; [done|lia].
  - destruct (Z.eqb_spec (payload_bytes (m_body msg)) 0) as [H0|H0].
    + eapply works_by; [cbn; rewrite Hpc; by rewrite (proj2 (Z.eqb_eq _ _) H0)| |];
        unfold work, pushed; cbn; rewrite Hpc; cbn; rewrite <- ?app_assoc; [done|].
      rewrite length_app. cbn. unfold message_work. lia.
    + eapply works_by; [cbn; rewrite Hpc; by rewrite (proj2 (Z.eqb_neq _ _) H0)| |];
        unfold work, pushed; cbn; rewrite Hpc; cbn; [done|]. unfold message_work. lia.
  - eapply works_by; [cbn; by rewrite Hpc| |];
      unfold work, pushed; cbn; rewrite Hpc; cbn; rewrite <- ?app_assoc; [done|].
    rewrite length_app. cbn. lia.
  - eapply works_by; [cbn; by rewrite Hpc| |];
      unfold work, pushed; cbn; rewrite Hpc; cbn; [done|]. rewrite length_app. cbn. lia.
Qed.

Lemma publish_works s h batch : producer s = PPublish h batch → works PPublishHead s.
Proof.
  intros Hpc. eapply works_by; [cbn; by rewrite Hpc| |];
    unfold work, pushed; cbn; rewrite Hpc; cbn; rewrite app_nil_r; [done|]. rewrite length_app. cbn. lia.
Qed.

(** *** The consumer *)
Lemma read_default_length : length (p_data (m_body default_message)) = Z.to_nat kMaxValueBytes.
Proof. by vm_compute. Qed.

Lemma descriptor_works s T H D t count got fresh : inv s T H D → consumer s = CDesc t count got fresh →
  works (CNext default_message) s.
Proof.
  intros Hi Hc. destruct (Nat.ltb_spec (length (got ++ fresh)) count) as [Hlt|Hge].
  - destruct (next_descriptor_inv Capacity true Hcap Hpow s T H D t count got fresh default_message Hi Hc Hlt)
      as (out&Hslot&_).
    eapply works_by.
    + cbn [machine_step consumer_step]. rewrite Hc, (proj2 (Nat.ltb_lt _ _) Hlt).
      rewrite (bool_decide_eq_true_2 _ read_default_length), Hslot. reflexivity.
    + reflexivity.
    + unfold work. cbn. change (pushed _) with (pushed s). rewrite Hc. cbn.
      rewrite length_app in *. cbn. lia.
  - eapply works_by.
    + cbn [machine_step consumer_step]. rewrite Hc, (proj2 (Nat.ltb_ge _ _) Hge). reflexivity.
    + reflexivity.
    + unfold work. cbn. change (pushed _) with (pushed s). rewrite Hc. cbn. rewrite length_app in *. lia.
Qed.

Lemma payload_works s T H D t count got out fresh : inv s T H D → consumer s = CPayload t count got (out :: fresh) →
  works (CNext default_message) s.
Proof.
  intros Hi Hc. pose proof (iv_consumer _ _ _ _ _ _ Hi) as Hread. unfold consumer_ok in Hread. rewrite Hc in Hread.
  destruct Hread as (_&_&Hl&_&_). rewrite length_app in Hl. cbn in Hl. eapply works_by.
  - cbn [machine_step consumer_step]. rewrite Hc. reflexivity.
  - reflexivity.
  - unfold work. cbn. change (pushed _) with (pushed s). rewrite Hc. cbn. rewrite length_app. cbn. lia.
Qed.

Lemma read_works s T H D a : inv s T H D → read_action s = Some a → works a s.
Proof.
  unfold read_action. intros Hi Ha.
  destruct (consumer s) as [|t count got fresh|t count got [|out fresh]] eqn:Hc; try done.
  - injection Ha as <-. by eapply descriptor_works.
  - destruct (Nat.ltb_spec (length got) count) as [Hlt|Hge]; [|destruct got as [|g got]; [|done]]; injection Ha as <-.
    + eapply works_by.
      * cbn [machine_step consumer_step]. rewrite Hc, (proj2 (Nat.ltb_lt _ _) Hlt). reflexivity.
      * reflexivity.
      * unfold work. cbn. change (pushed _) with (pushed s). rewrite Hc. cbn. lia.
    + eapply works_by; [cbn; by rewrite Hc|reflexivity|].
      unfold work. cbn. change (pushed _) with (pushed s). rewrite Hc. cbn in *. lia.
  - injection Ha as <-. by eapply payload_works.
Qed.

(** Where the consumer stops reading, it commits what it has. *)
Lemma read_action_none s T H D : inv s T H D → read_action s = None →
  consumer s = CIdle ∨ ∃ t got, consumer s = CPayload t (length got) got [] ∧ got ≠ [].
Proof.
  unfold read_action. intros Hi Ha. pose proof (iv_consumer _ _ _ _ _ _ Hi) as Hread. unfold consumer_ok in Hread.
  destruct (consumer s) as [|t count got fresh|t count got [|out fresh]]; [by left|done| |done].
  destruct Hread as (_&_&Hl&_&_). rewrite app_nil_r in Hl.
  destruct (Nat.ltb_spec (length got) count) as [Hlt|Hge]; [done|].
  right. exists t, got. split; [|by destruct got]. f_equal. lia.
Qed.

Lemma commit_works s t got : consumer s = CPayload t (length got) got [] → got ≠ [] → works CCommit s.
Proof.
  intros Hc Hne. destruct got as [|g got]; [done|]. eapply works_by.
  - cbn [machine_step consumer_step]. rewrite Hc. reflexivity.
  - reflexivity.
  - unfold work. cbn [set_field set_consumer set_tail_buffer set_received combining store_buffer tail_buffer producer consumer received].
    change (pushed _) with (pushed s). rewrite Hc, !length_app, length_fmap. cbn in *. lia.
Qed.

(** With the stores of the producer in memory the consumer finds what is sent. *)
Lemma load_step s T H D b : inv s T H D → store_buffer s = [] → consumer s = CIdle → 0 < b →
  (length (received s) < length (sent s))%nat →
  let n := Z.to_nat (Z.min (Z.of_nat (length (sent s) - length (received s))) b) in
  machine_step Capacity true (CLoad b) s = Some (s <| consumer := CDesc (own_tail s) n [] [] |>).
Proof.
  intros Hi Hb Hc Hpos Hlt n. pose proof (iv_ops _ _ _ _ _ _ Hi) as Hops. rewrite Hb in Hops. destruct Hops as [_ ->].
  cbn [machine_step consumer_step]. rewrite Hc, (available Capacity Hcap s T _ D Hi).
  rewrite (proj2 (Z.eqb_neq _ _)), (proj2 (Z.leb_gt _ _)) by lia. done.
Qed.

Lemma load_works s T H D : inv s T H D → producer s = PIdle → store_buffer s = [] → consumer s = CIdle →
  (length (received s) < length (sent s))%nat → works (CLoad (2 ^ 63)) s.
Proof.
  intros Hi Hp Hb Hc Hlt.
  assert (length (pushed s) = length (sent s)) as Hl by (unfold pushed; rewrite Hp; cbn; by rewrite app_nil_r).
  eapply works_by; [by apply (load_step s T H D)|reflexivity|].
  unfold work. cbn [set_field set_consumer combining store_buffer tail_buffer producer consumer received consumer_work claimed length].
  change (pushed _) with (pushed s). rewrite Hc. cbn [consumer_work claimed]. lia.
Qed.

Lemma drained_or_works s T H D : inv s T H D → drained s ∨ ∃ a, (∀ msgs, a ≠ PStart msgs) ∧ works a s.
Proof.
  intros Hi. pose proof (stream_bounds Capacity true s T H D Hi) as (?&?&_).
  destruct (write_action s) as [a|] eqn:Hw.
  { right. exists a. split; [|by apply write_works]. intros msgs ->. unfold write_action, memory_action in Hw.
    repeat case_match; by simplify_eq. }
  destruct (write_action_none s Hw) as [(Hcm&Hb&Ht) [Hp|(h&batch&Hp)]];
    [|right; exists PPublishHead; split; [done|by eapply publish_works]].
  destruct (read_action s) as [a|] eqn:Hr.
  { right. exists a. split; [|by eapply read_works]. intros msgs ->. unfold read_action in Hr.
    repeat case_match; by simplify_eq. }
  destruct (read_action_none s T H D Hi Hr) as [Hc|(t&got&Hc&Hne)];
    [|right; exists CCommit; split; [done|by eapply commit_works]].
  destruct (decide (length (received s) = length (sent s))); [left; by split|right].
  exists (CLoad (2 ^ 63)). split; [done|]. eapply load_works; [done..|lia].
Qed.

Lemma runs_empty s T H D : inv s T H D →
  ∃ s' T' H' D', rtc (idle_step Capacity) s s' ∧ inv s' T' H' D' ∧ drained s' ∧ pushed s' = pushed s.
Proof.
  remember (work s) as n eqn:Hn. revert s T H D Hn.
  induction n as [n IH] using lt_wf_ind. intros s T H D -> Hi.
  destruct (drained_or_works s T H D Hi) as [Hd|(a&Ha&s1&Hstep&Hp&Hlt)]; [by exists s, T, H, D|].
  destruct (machine_step_inv Capacity true Hcap Hpow a s s1 T H D eq_refl Hi Hstep) as (T1&H1&D1&Hi1).
  destruct (IH _ Hlt s1 T1 H1 D1 eq_refl Hi1) as (s'&T'&H'&D'&Hrun&Hi'&Hd&Hp').
  exists s', T', H', D'. split; [|by rewrite Hp', Hp]. eapply rtc_l; [by exists a|done].
Qed.

Lemma drained_inv s T H D : inv s T H D → drained s →
  received s = pushed s ∧ sent s = pushed s ∧ tail (mem s) = head (mem s).
Proof.
  intros Hi Hd. assert (sent s = pushed s) as Hs.
  { unfold pushed. rewrite (dr_producer s Hd). cbn. by rewrite app_nil_r. }
  rewrite <- Hs. split; [|split; [done|]].
  - rewrite (iv_received _ _ _ _ _ _ Hi), (dr_received s Hd). apply take_ge. done.
  - pose proof (iv_tails _ _ _ _ _ _ Hi) as Ht. rewrite (dr_tails s Hd) in Ht. cbn in Ht.
    pose proof (iv_ops _ _ _ _ _ _ Hi) as Hops. rewrite (dr_stores s Hd) in Hops. destruct Hops as [_ ->].
    rewrite (iv_tail _ _ _ _ _ _ Hi), (iv_head _ _ _ _ _ _ Hi), Ht, (dr_received s Hd). done.
Qed.

End Drain.

(** ** What is in flight *)

(** What has been published and not yet handed over. *)
Definition in_flight (m : Machine) : list BandleMessage := drop (length (received m)) (sent m).

Section InFlight.
Context (Capacity : Z).
Context (Hcap : 0 < Capacity < 2 ^ 63) (Hpow : Z.land Capacity (Capacity - 1) = 0).
Implicit Types (m : Machine).

(** Only publishing and committing change what is in flight. *)
Lemma step_in_flight a m m' : machine_step Capacity true a m = Some m' → a ≠ PPublishHead → a ≠ CCommit →
  in_flight m' = in_flight m.
Proof.
  intros Hstep Hp Hc. unfold in_flight. assert (sent m' = sent m ∧ received m' = received m) as [-> ->]; [|done].
  destruct a; cbn [machine_step] in Hstep; unfold producer_step, memory_step, consumer_step in Hstep; try done;
    repeat case_match; by simplify_eq.
Qed.

Lemma memory_producer a m m' : memory_step true a m = Some m' → producer m' = producer m.
Proof. unfold memory_step. intros Hstep. destruct a; try done; repeat case_match; by simplify_eq. Qed.

Lemma consumer_producer a m m' : consumer_step Capacity a m = Some m' → producer m' = producer m.
Proof. unfold consumer_step. intros Hstep. destruct a; try done; repeat case_match; by simplify_eq. Qed.

(** Writing keeps the batch. *)
Lemma write_batch a m m' : a = PNext ∨ a = PFence → producer_step Capacity a m = Some m' →
  producer m ≠ PIdle ∧ batch_of (producer m') = batch_of (producer m) ∧ producer m' ≠ PIdle.
Proof.
  unfold producer_step. intros [-> | ->] Hstep; repeat case_match; simplify_eq; cbn;
    rewrite <- ?app_assoc, ?app_nil_r; done.
Qed.

Lemma start_batch msgs m m' : producer_step Capacity (PStart msgs) m = Some m' →
  producer m = PIdle ∧ batch_of (producer m') = msgs ∧ producer m' ≠ PIdle.
Proof. unfold producer_step. intros Hstep. repeat case_match; by simplify_eq. Qed.

(** Publishing appends the batch, which fits. *)
Lemma publish_in_flight m m' : reachable Capacity true m → producer_step Capacity PPublishHead m = Some m' →
  producer m' = PIdle ∧ in_flight m' = in_flight m ++ (wire <$> batch_of (producer m)) ∧
  Z.of_nat (length (in_flight m) + length (batch_of (producer m))) ≤ Capacity.
Proof.
  intros Hr Hstep. destruct (reachable_inv Capacity true Hcap Hpow m eq_refl Hr) as (T&H&D&Hi).
  pose proof (stream_bounds Capacity true m T H D Hi) as (?&?&_). pose proof (iv_window _ _ _ _ _ _ Hi) as Hwin.
  unfold producer_step in Hstep. destruct (producer m) as [| | |h batch] eqn:Hp; try done. injection Hstep as <-.
  split; [done|]. unfold stream in Hwin. rewrite Hp in Hwin. cbn in Hwin. rewrite length_app, length_fmap in Hwin.
  unfold in_flight. cbn. split; [apply drop_app_le; lia|]. rewrite length_drop. lia.
Qed.

(** Committing hands over the first messages. *)
Lemma commit_in_flight m m' t count got : reachable Capacity true m → consumer m = CPayload t count got [] →
  consumer_step Capacity CCommit m = Some m' →
  got ≠ [] ∧ wire <$> got = take (length got) (in_flight m) ∧ in_flight m' = drop (length got) (in_flight m).
Proof.
  intros Hr Hc Hstep. destruct (reachable_inv Capacity true Hcap Hpow m eq_refl Hr) as (T&H&D&Hi).
  pose proof (iv_consumer _ _ _ _ _ _ Hi) as Hread. unfold consumer_ok in Hread.
  unfold consumer_step in Hstep. rewrite Hc in Hread, Hstep. destruct Hread as (_&_&_&Hgot&_).
  destruct got as [|g got]; [done|]. injection Hstep as <-. split; [done|]. split; [done|].
  unfold in_flight. change (received _) with (received m ++ (wire <$> g :: got)) at 1.
  by rewrite length_app, length_fmap, drop_drop.
Qed.

End InFlight.

(** ** What the cluster may rely on *)
Section Properties.
Context (Capacity : Z).

(** C16: the ring refines a queue: every move of a core or of the memory system
    leaves the queue of visible messages alone, appends to it when a published
    head reaches memory, or hands its first messages to the consumer when it
    commits; a consumer finds nothing exactly when the queue is empty, and with
    the producer's stores in memory the queue is all that was sent and not yet
    received. *)
Theorem concurrent_ring_is_channel s a s' (Hcap : 0 < Capacity < 2 ^ 63)
    (Hpow : Z.land Capacity (Capacity - 1) = 0) (Hr : reachable Capacity true s)
    (Hstep : machine_step Capacity true a s = Some s') :
  (∃ given, received s' = received s ++ given ∧ channel_move Capacity a (visible s) (visible s') given) ∧
  (∀ b, consumer s = CIdle → 0 < b → machine_step Capacity true (CLoad b) s = None ↔ visible s = []) ∧
  received s ++ visible s `prefix_of` sent s ∧
  (store_buffer s = [] → received s ++ visible s = sent s).
Proof.
  destruct (reachable_inv Capacity true Hcap Hpow s eq_refl Hr) as (T&H&D&Hi).
  split; [by eapply step_moves|]. split; [|split].
  - intros b Hc Hb. by apply (load_finds Capacity Hcap s T H D).
  - by apply (visible_sent Capacity Hcap s T H D).
  - by apply (visible_all Capacity Hcap s T H D).
Qed.

(** C17: the ring never wedges: from every reachable state, whatever the two
    sides are in the middle of, moves that begin no new batch lead to a state
    in which everything [push_batch] accepted has been published and received,
    both sides are idle and the ring is empty. *)
Theorem concurrent_ring_drains s (Hcap : 0 < Capacity < 2 ^ 63)
    (Hpow : Z.land Capacity (Capacity - 1) = 0) (Hr : reachable Capacity true s) :
  ∃ s', rtc (idle_step Capacity) s s' ∧ producer s' = PIdle ∧ consumer s' = CIdle ∧
    received s' = pushed s ∧ sent s' = pushed s ∧ tail (mem s') = head (mem s').
Proof.
  destruct (reachable_inv Capacity true Hcap Hpow s eq_refl Hr) as (T&H&D&Hi).
  destruct (runs_empty Capacity Hcap Hpow s T H D Hi) as (s'&T'&H'&D'&Hrun&Hi'&Hd&Hp).
  destruct (drained_inv Capacity s' T' H' D' Hi' Hd) as (Hrec&Hsent&Ht). rewrite Hp in Hrec, Hsent.
  exists s'. split; [done|]. by destruct Hd.
Qed.

End Properties.

Module Examples.
Import RingConc.Examples.

(** The head of two messages is about to reach memory. *)
Definition about_to_publish : list Action := take 13 reading_second.

Example concurrent_ring_is_channel_witness :
  let s := after 2 true about_to_publish in
  let s' := after 2 true (about_to_publish ++ [DrainStore]) in
  visible s = [] ∧ visible s' = wire <$> [message "a"; message "b"] ∧
  (∃ given, received s' = received s ++ given ∧ channel_move 2 DrainStore (visible s) (visible s') given) ∧
  (∀ b, consumer s = CIdle → 0 < b → machine_step 2 true (CLoad b) s = None ↔ visible s = []) ∧
  received s ++ visible s `prefix_of` sent s ∧ (store_buffer s = [] → received s ++ visible s = sent s).
Proof.
  split; [by vm_compute|]. split; [by vm_compute|].
  apply (concurrent_ring_is_channel 2 _ DrainStore); [done|done| |by vm_compute].
  apply after_reachable. by vm_compute.
Defined.

Example concurrent_ring_drains_witness :
  let s := after 2 true (take 10 reading_second) in
  received s = [] ∧ pushed s = wire <$> [message "a"; message "b"] ∧
  ∃ s', rtc (idle_step 2) s s' ∧ producer s' = PIdle ∧ consumer s' = CIdle ∧
    received s' = pushed s ∧ sent s' = pushed s ∧ tail (mem s') = head (mem s').
Proof.
  split; [by vm_compute|]. split; [by vm_compute|].
  apply (concurrent_ring_drains 2); [done|done|]. apply after_reachable. by vm_compute.
Defined.

End Examples.
