(* ===== verification/Transport.v ===== *)
(** Sending and receiving through the rings ([src/bandle.cpp]: [ring],
    [send_to_peer], [broadcast], [broadcast_batch], [drain_source_ring]).  The
    shared state holds one ring per ordered pair of nodes.  A spinning loop is
    modelled by its attempt, which says whether the caller spins on; the class
    [Channel] states what the protocol layer relies on. *)
From S2P Require Import Prelude Message Ring.

(** [shared_->rings/descs] and [non_hwcc_->payloads], indexed by sender and
    receiver. *)
Abbreviation Rings := (gmap (Z * Z) SpscRing).

Definition ring (rs : Rings) (from to : Z) : SpscRing := default empty_ring (rs !! (from, to)).

(** The peers of a node, in the order of the loops over [peer]. *)
Definition peers (node_id cluster_size : Z) : list Z :=
  filter (fun peer => peer ≠ node_id) (seqZ 1 cluster_size).

(** [recv_batch_capacity]. *)
Definition recv_batch_capacity (submit_batch_size : Z) : Z :=
  Z.min 512 (Z.max 128 submit_batch_size).

(** [spin_backoff]: whether the waiting thread yields its processor, and the
    count of its spins, a [uint32_t]. *)
Definition spin_backoff (spins : Z) : bool * Z :=
  if spins <? 2000 then (false, spins + 1) else (true, 0).

(** [n] rounds of a waiting loop: how often the thread has yielded. *)
Fixpoint spin_rounds (n : nat) (spins : Z) : nat * Z :=
  match n with
  | O => (O, spins)
  | S n =>
      let '(yielded, spins) := spin_backoff spins in
      let '(k, spins) := spin_rounds n spins in
      ((if yielded then 1 else 0) + k, spins)%nat
  end.

(** A thread that waits yields at every 2001st round. *)
Lemma spin_rounds_yield n spins : 0 ≤ spins ≤ 2000 →
  let '(k, spins') := spin_rounds n spins in
  spins + Z.of_nat n = 2001 * Z.of_nat k + spins' ∧ 0 ≤ spins' ≤ 2000.
Proof.
  revert spins. induction n as [|n IH]; intros spins Hs; cbn [spin_rounds]; [lia|]. unfold spin_backoff.
  destruct (Z.ltb_spec spins 2000).
  - specialize (IH (spins + 1) ltac:(lia)). destruct (spin_rounds n (spins + 1)) as [k spins']. lia.
  - specialize (IH 0 ltac:(lia)). destruct (spin_rounds n 0) as [k spins']. lia.
Qed.

(** One attempt of the loop of [send_to_peer]. *)
Definition send_to_peer (rs : Rings) (node_id peer : Z) (msg : BandleMessage) : bool * Rings :=
  if peer =? node_id then (true, rs)
  else let '(ok, r') := push kBandleRingCapacity msg (ring rs node_id peer) in
       (ok, <[(node_id, peer) := r']> rs).

(** ** [broadcast_batch] *)
Inductive broadcast_result :=
| NotReady                       (* some ring has no room: spin and retry *)
| WriteFailed (rs : Rings)       (* an oversized message: return *)
| Published (rs : Rings).

(** The first loop: the heads, or [None] at the first ring without room. *)
Fixpoint collect_heads (rs : Rings) (node_id count : Z) (ps : list Z) : option (list (Z * Z)) :=
  match ps with
  | [] => Some []
  | peer :: ps' =>
      match can_push_batch kBandleRingCapacity count (ring rs node_id peer) with
      | None => None
      | Some h => match collect_heads rs node_id count ps' with
                  | None => None
                  | Some hs => Some ((peer, h) :: hs)
                  end
      end
  end.

(** The second loop: [write_batch_at] in every ring, stopping at a failure. *)
Fixpoint write_rings (rs : Rings) (node_id : Z) (msgs : list BandleMessage)
    (heads : list (Z * Z)) : bool * Rings :=
  match heads with
  | [] => (true, rs)
  | (peer, h) :: heads' =>
      let '(ok, _, r') := write_batch_at kBandleRingCapacity h msgs false (ring rs node_id peer) in
      let rs' := <[(node_id, peer) := r']> rs in
      if ok then write_rings rs' node_id msgs heads' else (false, rs')
  end.

(** The third loop: [publish_head] in every ring. *)
Fixpoint publish_rings (rs : Rings) (node_id count : Z) (heads : list (Z * Z)) : Rings :=
  match heads with
  | [] => rs
  | (peer, h) :: heads' =>
      publish_rings (<[(node_id, peer) := publish_head (h +₆₄ count) (ring rs node_id peer)]> rs)
        node_id count heads'
  end.

(** One round of the loop of [broadcast_batch]. *)
Definition broadcast_batch (rs : Rings) (node_id cluster_size : Z) (msgs : list BandleMessage)
    : broadcast_result :=
  match msgs with
  | [] => Published rs
  | _ =>
      let count := Z.of_nat (length msgs) in
      match collect_heads rs node_id count (peers node_id cluster_size) with
      | None => NotReady
      | Some heads =>
          let '(ok, rs') := write_rings rs node_id msgs heads in
          if ok then Published (publish_rings rs' node_id count heads) else WriteFailed rs'
      end
  end.

(** [broadcast]: the message to one peer after the other.  [running p] is what
    [running_] reads when peer [p] is served: once it is cleared nothing is
    sent, and while it is set a full ring keeps the caller spinning ([None]). *)
Fixpoint broadcast_to (running : Z → bool) (rs : Rings) (node_id : Z) (msg : BandleMessage) (ps : list Z)
    : option Rings :=
  match ps with
  | [] => Some rs
  | peer :: ps' =>
      if running peer then
        let '(ok, rs') := send_to_peer rs node_id peer msg in
        if ok then broadcast_to running rs' node_id msg ps' else None
      else broadcast_to running rs node_id msg ps'
  end.

Definition broadcast (running : Z → bool) (rs : Rings) (node_id cluster_size : Z) (msg : BandleMessage)
    : option Rings :=
  broadcast_to running rs node_id msg (peers node_id cluster_size).

(** [drain_outbox]. *)
Fixpoint drain_outbox (running : Z → bool) (rs : Rings) (node_id cluster_size : Z)
    (outbox : list BandleMessage) : option Rings :=
  match outbox with
  | [] => Some rs
  | msg :: outbox' =>
      rs' ← broadcast running rs node_id cluster_size msg;
      drain_outbox running rs' node_id cluster_size outbox'
  end.

(** ** [drain_source_ring] *)

(** [if (batch.size() < count) batch.resize(count)]. *)
Definition ensure_size (batch : list BandleMessage) (count : nat) : list BandleMessage :=
  batch ++ replicate (count - length batch) default_message.

(** The two waiting loops, [fuel] rounds at most; [batch] is the buffer,
    [read_count] the messages read so far. *)
Fixpoint drain_loop (fuel : nat) (r : SpscRing) (t : Z) (batch : list BandleMessage)
    (read_count count : nat) : nat * list BandleMessage :=
  match fuel with
  | O => (read_count, batch)
  | S fuel' =>
      if (read_count <? count)%nat then
        let '(n, outs) := read_batch_at_abs kBandleRingCapacity r (t +₆₄ Z.of_nat read_count)
                            (take (count - read_count) (drop read_count batch)) in
        drain_loop fuel' r t (memcpy_at batch read_count outs) (read_count + n) count
      else (read_count, batch)
  end.

(** [drain_source_ring]: the messages drained ([batch[0 .. count_out)]) and
    the ring, or [None] when nothing was.  [fuel] counts the reads; running
    out of it is the loop leaving because [running_] was cleared. *)
Definition drain_source_ring (fuel : nat) (r : SpscRing) (batch : list BandleMessage)
    (batch_size : Z) : option (list BandleMessage * SpscRing) :=
  let t := tail r in
  let avail := head r -₆₄ t in
  if avail =? 0 then None else
  let count := Z.to_nat (Z.min avail (recv_batch_capacity batch_size)) in
  let batch := ensure_size batch count in
  let '(read_count, batch) := drain_loop fuel r t batch 0 count in
  if (read_count =? 0)%nat then None
  else Some (take read_count batch, commit_tail (t +₆₄ Z.of_nat read_count) r).

(** ** What the protocol layer relies on

    A channel is a FIFO queue of wire messages; a batch is appended whole when
    the channel is ready for its length, and a drain takes some messages from
    the front ([ch_takes]: how many may depend on more than the channel shows).
    [ch_drain] is a drain that takes something whenever there is something. *)
Class Channel (C : Type) := {
  ch_new : C;
  ch_queue : C → list BandleMessage → Prop;
  ch_ready : nat → C → bool;
  ch_append : list BandleMessage → C → C;
  ch_takes : Z → C → list BandleMessage → C → Prop;
  ch_drain : Z → C → option (list BandleMessage * C)
}.

Class ChannelLaws (C : Type) `{Channel C} := {
  ch_new_law : ch_queue ch_new [];
  ch_append_law c q msgs : ch_queue c q → Forall msg_fits msgs → msgs ≠ [] →
    Z.of_nat (length msgs) < 2 ^ 63 →
    ch_ready (length msgs) c = true → ch_queue (ch_append msgs c) (q ++ (wire <$> msgs));
  ch_takes_front c q b msgs c' : ch_queue c q → ch_takes b c msgs c' →
    ∃ q', msgs ≠ [] ∧ q = (wire <$> msgs) ++ q' ∧ ch_queue c' q';
  ch_drain_takes c b msgs c' : ch_drain b c = Some (msgs, c') → ch_takes b c msgs c';
  ch_drain_none c q b : ch_queue c q → ch_drain b c = None → q = [];
  ch_ready_law c q n : ch_queue c q → Z.of_nat (length q + n) ≤ kBandleRingCapacity → ch_ready n c = true
}.

Lemma ch_drain_some {C : Type} `{ChannelLaws C} c q b msgs c' : ch_queue c q → ch_drain b c = Some (msgs, c') →
  ∃ q', msgs ≠ [] ∧ q = (wire <$> msgs) ++ q' ∧ ch_queue c' q'.
Proof. intros Hq Hd. eapply ch_takes_front; [done|by apply ch_drain_takes]. Qed.

(** ** The rings as channels *)
Lemma ring_capacity_ok : 0 < kBandleRingCapacity < 2 ^ 64 ∧
  Z.land kBandleRingCapacity (kBandleRingCapacity - 1) = 0.
Proof. by vm_compute. Qed.

Abbreviation bandle_queue := (ring_queue kBandleRingCapacity).

Lemma recv_batch_capacity_bounds b : 128 ≤ recv_batch_capacity b ≤ 512.
Proof. unfold recv_batch_capacity. lia. Qed.

Lemma read_at_tail r q outs : bandle_queue r q → (length outs ≤ length q)%nat →
  ∃ outs', read_batch_at_abs kBandleRingCapacity r (w64 (tail r + Z.of_nat 0)) outs =
      (length outs, outs') ∧
    length outs' = length outs ∧ wire <$> outs' = take (length outs) q.
Proof.
  destruct ring_capacity_ok as [Hc Hp]. intros [T Hr] Hlen.
  rewrite (rep_tail _ _ _ _ _ Hr), Z.add_0_r, w64_idemp.
  by apply (read_batch_rep _ Hc Hp r T q []).
Qed.

Lemma commit_at r q n : bandle_queue r q → (n ≤ length q)%nat →
  bandle_queue (commit_tail (tail r +₆₄ Z.of_nat n) r) (drop n q).
Proof.
  intros [T Hr] Hn. rewrite (rep_tail _ _ _ _ _ Hr), w64_add_l.
  exists (T + Z.of_nat n). by apply commit_rep.
Qed.

Lemma queue_avail r q : bandle_queue r q →
  head r -₆₄ tail r = Z.of_nat (length q) ∧ Z.of_nat (length q) ≤ kBandleRingCapacity.
Proof.
  intros [T Hr]. pose proof (rep_len _ _ _ _ _ Hr) as Hl. rewrite app_nil_r in Hl.
  split; [|done]. apply (ring_used kBandleRingCapacity ltac:(apply ring_capacity_ok) r T q [] Hr).
Qed.

(** How many messages a drain takes. *)
Definition drain_count (b : Z) (q : list BandleMessage) : nat :=
  Z.to_nat (Z.min (Z.of_nat (length q)) (recv_batch_capacity b)).

Lemma drain_loop_done fuel r t batch n : drain_loop fuel r t batch n n = (n, batch).
Proof. destruct fuel; [done|]. cbn [drain_loop]. by rewrite Nat.ltb_irrefl. Qed.

(** Draining a ring that holds [q]: the receive batch, and the tail committed
    past it. *)
Lemma drain_eq fuel r q batch b : bandle_queue r q →
  match drain_source_ring (S fuel) r batch b with
  | None => q = []
  | Some (msgs, r') =>
      let n := drain_count b q in
      n ≠ O ∧ (n ≤ length q)%nat ∧ wire <$> msgs = take n q ∧
      r' = commit_tail (tail r +₆₄ Z.of_nat n) r
  end.
Proof.
  intros Hq. destruct (queue_avail r q Hq) as [Ha _]. unfold drain_source_ring.
  rewrite Ha. destruct q as [|m0 q0]; [done|]. set (q := m0 :: q0) in *.
  assert (0 < Z.of_nat (length q)) by (cbn; lia).
  rewrite (proj2 (Z.eqb_neq _ 0)) by lia. fold (drain_count b q).
  pose proof (recv_batch_capacity_bounds b).
  assert (0 < drain_count b q ≤ length q)%nat as Hn by (unfold drain_count; lia).
  set (n := drain_count b q) in *. set (buf := ensure_size batch n).
  assert (n ≤ length buf)%nat as Hbuf.
  { unfold buf, ensure_size. rewrite length_app, length_replicate. lia. }
  cbn [drain_loop]. rewrite (proj2 (Nat.ltb_lt 0 n)), Nat.sub_0_r, drop_0 by lia.
  destruct (read_at_tail r q (take n buf) Hq) as (outs&->&Hl&Hw).
  { rewrite length_take. lia. }
  rewrite !length_take, Nat.min_l in * by lia. rewrite Nat.add_0_l, drain_loop_done.
  rewrite (proj2 (Nat.eqb_neq n 0)) by lia. split; [lia|]. split; [lia|].
  rewrite take_memcpy_at_0 by lia. split; [done|]. done.
Qed.

Lemma drain_rep fuel r q batch b : bandle_queue r q →
  match drain_source_ring (S fuel) r batch b with
  | None => q = []
  | Some (msgs, r') =>
      let n := drain_count b q in
      n ≠ O ∧ wire <$> msgs = take n q ∧ bandle_queue r' (drop n q)
  end.
Proof.
  intros Hq. pose proof (drain_eq fuel r q batch b Hq) as H.
  destruct (drain_source_ring _ _ _ _) as [[msgs r']|]; [|done]. destruct H as (Hn&Hle&Hw&->).
  split; [done|]. split; [done|]. by apply commit_at.
Qed.

Lemma append_rep r q msgs h : bandle_queue r q → Forall msg_fits msgs →
  Z.of_nat (length msgs) < 2 ^ 63 →
  can_push_batch kBandleRingCapacity (Z.of_nat (length msgs)) r = Some h →
  ∃ wrote r', write_batch_at kBandleRingCapacity h msgs false r = (true, wrote, r') ∧
    bandle_queue (publish_head (h +₆₄ Z.of_nat (length msgs)) r') (q ++ (wire <$> msgs)) ∧
    bandle_queue r' q.
Proof.
  destruct ring_capacity_ok as [Hc Hp]. intros [T Hr] Hfit Hlen.
  rewrite (can_push_batch_rep _ Hc r T q) by (unfold kBandleRingCapacity; done || lia).
  destruct (Z.leb_spec (Z.of_nat (length q) + Z.of_nat (length msgs)) kBandleRingCapacity) as [Hle|]; [|done].
  intros [= <-].
  destruct (write_batch_rep _ Hc Hp msgs r T q [] false Hr Hfit) as (wrote&r'&Hw&Hr').
  { rewrite app_nil_r. lia. }
  rewrite app_nil_r in Hw. exists wrote, r'. split; [done|]. rewrite app_nil_l in Hr'.
  split; [|exists T; by eapply rep_unstage]. exists T. apply rep_publish in Hr'.
  rewrite w64_add_l. rewrite length_app, length_fmap in Hr'.
  replace (T + Z.of_nat (length q) + Z.of_nat (length msgs)) with
    (T + Z.of_nat (length q + length msgs)) by lia. exact Hr'.
Qed.

#[export] Instance ring_channel : Channel SpscRing := {|
  ch_new := empty_ring;
  ch_queue := bandle_queue;
  ch_ready n r := bool_decide (is_Some (can_push_batch kBandleRingCapacity (Z.of_nat n) r));
  ch_append msgs r :=
    match can_push_batch kBandleRingCapacity (Z.of_nat (length msgs)) r with
    | None => r
    | Some h => let '(_, _, r') := write_batch_at kBandleRingCapacity h msgs false r in
                publish_head (h +₆₄ Z.of_nat (length msgs)) r'
    end;
  ch_takes b r msgs r' := ∃ fuel batch, drain_source_ring (S fuel) r batch b = Some (msgs, r');
  ch_drain b r := drain_source_ring 64 r [] b
|}.

#[export] Instance ring_channel_laws : ChannelLaws SpscRing.
Proof.
  split; cbn.
  - apply empty_ring_queue. apply ring_capacity_ok.
  - intros r q msgs Hq Hfit _ Hlen Hready. apply bool_decide_eq_true in Hready as [h Hh].
    rewrite Hh. destruct (append_rep r q msgs h Hq Hfit Hlen Hh) as (wrote&r'&->&?&_). done.
  - intros r q b msgs r' Hq (fuel&batch&Hd). pose proof (drain_rep fuel r q batch b Hq) as H.
    rewrite Hd in H. destruct H as (Hn&Hw&Hr'). exists (drop (drain_count b q) q).
    split; [|by rewrite Hw, take_drop]. intros ->. cbn in Hw.
    assert (length (take (drain_count b q) q) = 0%nat) as Hl by (by rewrite <- Hw).
    rewrite length_take in Hl. unfold drain_count in *. lia.
  - intros r b msgs r' Hd. by exists 63%nat, [].
  - intros r q b Hq Hd. pose proof (drain_rep 63 r q [] b Hq) as H. by rewrite Hd in H.
  - intros r q n [T Hr] Hn. apply bool_decide_eq_true. destruct ring_capacity_ok as [Hc _].
    rewrite (can_push_batch_rep _ Hc r T q) by (unfold kBandleRingCapacity in *; done || lia).
    rewrite (proj2 (Z.leb_le (Z.of_nat (length q) + Z.of_nat n) _)) by lia. by eexists.
Qed.

(** ** Broadcast is all or nothing *)
Section Broadcast.
Context (node_id : Z).
(** The ring to every peer [p] holds [Q p]. *)
Definition rings_hold (rs : Rings) (Q : Z → list BandleMessage) (ps : list Z) : Prop :=
  ∀ p, p ∈ ps → bandle_queue (ring rs node_id p) (Q p).

Lemma ring_insert_eq rs0 p r : ring (<[(node_id, p) := r]> rs0) node_id p = r.
Proof. unfold ring. by rewrite lookup_insert_eq. Qed.

Lemma ring_insert_ne rs0 p r f t : (f, t) ≠ (node_id, p) →
  ring (<[(node_id, p) := r]> rs0) f t = ring rs0 f t.
Proof. intros Hne. unfold ring. by rewrite lookup_insert_ne. Qed.

Lemma collect_heads_some rs0 count ps hs : collect_heads rs0 node_id count ps = Some hs →
  hs.*1 = ps ∧
  Forall (fun ph => can_push_batch kBandleRingCapacity count (ring rs0 node_id ph.1) = Some ph.2) hs.
Proof.
  revert hs. induction ps as [|p ps IH]; intros hs Hc; cbn in Hc; [by simplify_eq|].
  destruct (can_push_batch _ _ _) as [h|] eqn:Hh; [|done].
  destruct (collect_heads _ _ _ ps) as [hs'|]; [|done]. simplify_eq.
  destruct (IH hs' eq_refl) as [Hf Hall]. cbn. split; [by f_equal|]. by apply Forall_cons.
Qed.

Lemma collect_heads_none rs0 count ps : collect_heads rs0 node_id count ps = None →
  ∃ p, p ∈ ps ∧ can_push_batch kBandleRingCapacity count (ring rs0 node_id p) = None.
Proof.
  induction ps as [|p ps IH]; intros Hc; cbn in Hc; [done|].
  destruct (can_push_batch _ _ _) as [h|] eqn:Hh; [|exists p; split; [left|done]].
  destruct (collect_heads _ _ _ ps); [done|].
  destruct IH as (p'&?&?); [done|]. exists p'. split; [by right|done].
Qed.

Lemma write_publish_rings (Q : Z → list BandleMessage) msgs hs rs0 : NoDup hs.*1 →
  Z.of_nat (length msgs) < 2 ^ 63 → Forall msg_fits msgs → rings_hold rs0 Q hs.*1 →
  Forall (fun ph => can_push_batch kBandleRingCapacity (Z.of_nat (length msgs))
                      (ring rs0 node_id ph.1) = Some ph.2) hs →
  ∃ rs1, write_rings rs0 node_id msgs hs = (true, rs1) ∧
    (∀ f t, f ≠ node_id ∨ t ∉ hs.*1 → ring rs1 f t = ring rs0 f t) ∧
    ∀ p h, (p, h) ∈ hs → bandle_queue (publish_head (h +₆₄ Z.of_nat (length msgs))
                            (ring rs1 node_id p)) (Q p ++ (wire <$> msgs)).
Proof.
  intros Hnd Hlen Hfit. revert rs0. induction hs as [|[p h] hs IH]; intros rs0 Hq Hh.
  { exists rs0. split; [done|]. split; [done|]. by intros p h Hin%not_elem_of_nil. }
  cbn in Hnd. apply NoDup_cons in Hnd as [Hp Hnd]. apply Forall_cons in Hh as [Hph Hh]. cbn in Hph.
  assert (bandle_queue (ring rs0 node_id p) (Q p)) as Hqp by (apply Hq; left).
  destruct (append_rep _ _ msgs h Hqp Hfit Hlen Hph) as (wrote&r'&Hw&Hr'&_). cbn. rewrite Hw.
  assert (∀ p', p' ∈ hs.*1 → p' ≠ p) as Hother by (intros p' Hin ->; done).
  destruct (IH Hnd (<[(node_id, p) := r']> rs0)) as (rs1&->&Hsame&Hpub).
  { intros p' Hin. rewrite ring_insert_ne by (intros [= ->]; by apply (Hother p)).
    apply Hq. by right. }
  { apply Forall_forall. intros [p' h'] Hin. cbn.
    rewrite ring_insert_ne.
    - rewrite Forall_forall in Hh. by apply (Hh (p', h')).
    - intros [= ->]. apply (Hother p); [|done]. by apply (list_elem_of_fmap_2 fst _ (p, h')). }
  exists rs1. split; [done|]. split.
  - intros f t Hft. rewrite Hsame by (destruct Hft as [|Hft]; [by left|right; intros Hin; apply Hft; by right]).
    apply ring_insert_ne. intros [= -> ->]. destruct Hft as [|Hft]; [done|]. apply Hft. left.
  - intros p' h' [[= -> ->]|Hin]%elem_of_cons; [|by apply Hpub].
    rewrite Hsame by (by right). by rewrite ring_insert_eq.
Qed.

Lemma publish_rings_spec count hs rs1 : NoDup hs.*1 →
  (∀ f t, f ≠ node_id ∨ t ∉ hs.*1 →
    ring (publish_rings rs1 node_id count hs) f t = ring rs1 f t) ∧
  ∀ p h, (p, h) ∈ hs → ring (publish_rings rs1 node_id count hs) node_id p =
    publish_head (h +₆₄ count) (ring rs1 node_id p).
Proof.
  revert rs1. induction hs as [|[p h] hs IH]; intros rs1 Hnd.
  { split; [done|]. by intros p h Hin%not_elem_of_nil. }
  cbn in Hnd. apply NoDup_cons in Hnd as [Hp Hnd]. cbn.
  destruct (IH (<[(node_id, p) := publish_head (h +₆₄ count) (ring rs1 node_id p)]> rs1) Hnd)
    as [Hsame Hpub]. split.
  - intros f t Hft. rewrite Hsame by (destruct Hft as [|Hft]; [by left|right; intros Hin; apply Hft; by right]).
    apply ring_insert_ne. intros [= -> ->]. destruct Hft as [|Hft]; [done|]. apply Hft. left.
  - intros p' h' [[= -> ->]|Hin]%elem_of_cons.
    + rewrite Hsame by (by right). by rewrite ring_insert_eq.
    + rewrite (Hpub p' h' Hin). f_equal. apply ring_insert_ne.
      intros [= ->]. apply Hp. by apply (list_elem_of_fmap_2 fst _ (p, h')).
Qed.

Lemma write_rings_fail (Q : Z → list BandleMessage) msgs hs rs0 : NoDup hs.*1 → full_buffers msgs →
  Z.of_nat (length msgs) < 2 ^ 63 → ¬ Forall msg_fits msgs → hs ≠ [] →
  rings_hold rs0 Q hs.*1 →
  Forall (fun ph => can_push_batch kBandleRingCapacity (Z.of_nat (length msgs))
                      (ring rs0 node_id ph.1) = Some ph.2) hs →
  ∃ rs1, write_rings rs0 node_id msgs hs = (false, rs1) ∧ rings_hold rs1 Q hs.*1.
Proof.
  intros Hnd Hfull Hlen Hbad Hne Hq Hh. destruct hs as [|[p h] hs]; [done|].
  apply Forall_cons in Hh as [Hph _]. cbn in Hph. cbn in Hnd.
  destruct (Hq p ltac:(left)) as [T Hr]. destruct ring_capacity_ok as [Hc Hp].
  rewrite (can_push_batch_rep _ Hc _ T (Q p)) in Hph by (unfold kBandleRingCapacity; done || lia).
  destruct (Z.leb_spec (Z.of_nat (length (Q p)) + Z.of_nat (length msgs)) kBandleRingCapacity) as [Hle|]; [|done].
  injection Hph as <-.
  destruct (write_batch_fail _ Hc Hp msgs _ T (Q p) [] false Hr Hfull) as (wrote&r'&Hw&Hr').
  { rewrite app_nil_r. lia. }
  { done. }
  rewrite app_nil_r in Hw. cbn. rewrite Hw. eexists. split; [done|].
  intros p' Hp'. destruct (decide (p' = p)) as [->|Hpp].
  - rewrite ring_insert_eq. by exists T.
  - rewrite ring_insert_ne by congruence. by apply Hq.
Qed.

Lemma NoDup_peers cluster_size : NoDup (peers node_id cluster_size).
Proof. apply NoDup_filter, NoDup_seqZ. Qed.

End Broadcast.

(** C30: a broadcast is all or nothing.  Either some peer's ring has no room
    and nothing happens (the caller spins), or every peer's ring is extended
    by exactly the batch, or the batch holds a message that does not fit and
    no ring shows any of it; the rings of other senders are untouched when the
    batch is published. *)
Theorem broadcast_all_or_nothing (rs : Rings) (node_id cluster_size : Z)
    (Q : Z → list BandleMessage) (msgs : list BandleMessage)
    (Hq : rings_hold node_id rs Q (peers node_id cluster_size))
    (Hfull : full_buffers msgs) (Hlen : Z.of_nat (length msgs) < 2 ^ 63)
    (Hne : msgs ≠ []) :
  match broadcast_batch rs node_id cluster_size msgs with
  | NotReady => ∃ p, p ∈ peers node_id cluster_size ∧
      kBandleRingCapacity < Z.of_nat (length (Q p) + length msgs)
  | WriteFailed rs' => ¬ Forall msg_fits msgs ∧ rings_hold node_id rs' Q (peers node_id cluster_size)
  | Published rs' =>
      rings_hold node_id rs' (fun p => Q p ++ (wire <$> msgs)) (peers node_id cluster_size) ∧
      ∀ f t, f ≠ node_id ∨ t ∉ peers node_id cluster_size → ring rs' f t = ring rs f t
  end.
Proof.
  unfold broadcast_batch. destruct msgs as [|m0 ms]; [done|]. set (msgs := m0 :: ms) in *.
  pose proof (NoDup_peers node_id cluster_size) as Hnd.
  set (ps := peers node_id cluster_size) in *. cbv zeta.
  destruct (collect_heads rs node_id (Z.of_nat (length msgs)) ps) as [hs|] eqn:Hc.
  - apply collect_heads_some in Hc as [Hps Hh]. rewrite <- Hps in *.
    destruct (decide (Forall msg_fits msgs)) as [Hfit|Hbad].
    + destruct (write_publish_rings node_id Q msgs hs rs Hnd Hlen Hfit Hq Hh)
        as (rs1&->&Hsame&Hpub).
      destruct (publish_rings_spec node_id (Z.of_nat (length msgs)) hs rs1 Hnd) as [Hsame2 Hpub2].
      split.
      * intros p ([p' h]&->&Hin)%list_elem_of_fmap. cbn [fst].
        rewrite (Hpub2 p' h Hin). by apply Hpub.
      * intros f t Hft. by rewrite Hsame2, Hsame.
    + destruct (decide (hs = [])) as [->|Hhs].
      { cbn. split; [by intros p Hin%not_elem_of_nil|done]. }
      destruct (write_rings_fail node_id Q msgs hs rs Hnd Hfull Hlen Hbad Hhs Hq Hh)
        as (rs1&->&?). done.
  - apply collect_heads_none in Hc as (p&Hp&Hn). exists p. split; [done|].
    destruct (Hq p Hp) as [T Hr].
    rewrite (can_push_batch_rep _ ltac:(apply ring_capacity_ok) _ T (Q p)) in Hn
      by (unfold kBandleRingCapacity; done || lia).
    destruct (Z.leb_spec (Z.of_nat (length (Q p)) + Z.of_nat (length msgs)) kBandleRingCapacity); [done|lia].
Qed.

(** Draining a ring that holds messages returns at once (its waiting loops
    never spin) the oldest ones, at most a receive batch, and leaves the rest;
    an empty ring returns nothing. *)
Theorem drain_takes_oldest (fuel : nat) (r : SpscRing) (q batch : list BandleMessage) (b : Z)
    (Hq : bandle_queue r q) :
  match drain_source_ring (S fuel) r batch b with
  | None => q = []
  | Some (msgs, r') =>
      (0 < length msgs)%nat ∧ Z.of_nat (length msgs) = Z.min (Z.of_nat (length q)) (recv_batch_capacity b) ∧
      wire <$> msgs = take (length msgs) q ∧ bandle_queue r' (drop (length msgs) q)
  end.
Proof.
  pose proof (drain_rep fuel r q batch b Hq) as H.
  destruct (drain_source_ring _ _ _ _) as [[msgs r']|]; [|done].
  destruct H as (Hn&Hw&Hr'). pose proof (recv_batch_capacity_bounds b).
  assert (length msgs = drain_count b q) as Hl.
  { apply (f_equal length) in Hw. rewrite length_fmap, length_take in Hw.
    unfold drain_count in *. lia. }
  rewrite Hl. split; [lia|]. split; [|done]. unfold drain_count. lia.
Qed.

(** A batch longer than a ring is never ready to be sent, whatever the receivers
    do: [broadcast_batch] would wait for ever. *)
Theorem oversized_batch_never_ready (n : nat) (r : SpscRing) (q : list BandleMessage)
    (Hq : bandle_queue r q) (Hn : kBandleRingCapacity < Z.of_nat n < 2 ^ 63) : ch_ready n r = false.
Proof.
  destruct Hq as [T Hr]. cbn [ch_ready ring_channel].
  rewrite (can_push_batch_rep _ ltac:(apply ring_capacity_ok) _ T q) by (unfold kBandleRingCapacity; done || lia).
  rewrite (proj2 (Z.leb_gt _ _)) by lia. by apply bool_decide_eq_false_2; intros [? ?].
Qed.

(** ** Concrete inputs *)
Module Examples.

Definition msg (seq : Z) (key value : bytes) : BandleMessage := {|
  m_slot_seq := 0; m_type := PROPOSAL;
  m_body := {| p_seq := seq; p_round := 1; p_sender := 1; p_proposer := 1;
    p_client_req_id := 7; p_start_tsc := 9; p_value := 1; p_promise := 0; p_op := "P";
    p_reserved0 := 0; p_key_len := Z.of_nat (length key); p_value_len := Z.of_nat (length value);
    p_data := memcpy_at zero_data 0 (key ++ value) |} |}.

Definition m1 : BandleMessage := msg 1 (str "key") (str "a value of more than sixteen bytes").
Definition m2 : BandleMessage := msg 4 (str "k2") (str "v").

Lemma buffers_whole : full_buffers [m1; m2].
Proof. eval_forall. Qed.

Lemma empty_holds : rings_hold 1 ∅ (fun _ => []) (peers 1 3).
Proof. intros p _. apply empty_ring_queue, ring_capacity_ok. Qed.

Example broadcast_all_or_nothing_witness :
  match broadcast_batch ∅ 1 3 [m1; m2] with
  | Published rs' => rings_hold 1 rs' (fun _ => [wire m1; wire m2]) (peers 1 3)
  | _ => False
  end.
Proof.
  pose proof (broadcast_all_or_nothing ∅ 1 3 (fun _ => []) [m1; m2]
    empty_holds buffers_whole ltac:(cbn; lia) ltac:(discriminate)) as H.
  destruct (broadcast_batch ∅ 1 3 [m1; m2]) as [|rs'|rs'] eqn:Hb.
  - vm_compute in Hb. discriminate.
  - vm_compute in Hb. discriminate.
  - apply H.
Defined.

Definition ring12 : SpscRing := (push_batch kBandleRingCapacity [m1; m2] empty_ring).2.

Lemma ring12_queue : bandle_queue ring12 [wire m1; wire m2].
Proof.
  pose proof (push_batch_rep _ (proj1 ring_capacity_ok) (proj2 ring_capacity_ok) [m1; m2] empty_ring []
    (empty_ring_queue _ (proj1 ring_capacity_ok)) buffers_whole) as H.
  unfold ring12. destruct (push_batch _ _ _) as [ok r'] eqn:Hp.
  destruct H as [_ H]; [by vm_compute|]. destruct ok; [done|]. vm_compute in Hp. discriminate.
Qed.

Example drain_takes_oldest_witness :
  match drain_source_ring 1 ring12 [] 64 with
  | None => False
  | Some (msgs, r') => wire <$> msgs = [wire m1; wire m2] ∧ bandle_queue r' []
  end.
Proof.
  pose proof (drain_takes_oldest 0 ring12 _ [] 64 ring12_queue) as H.
  destruct (drain_source_ring 1 ring12 [] 64) as [[msgs r']|]; [|discriminate].
  destruct H as (_&Hl&Hw&Hq). change (Z.min _ _) with 2 in Hl.
  assert (length msgs = 2%nat) as Hl2 by lia. rewrite Hl2 in Hw, Hq. done.
Defined.

Example ring_refines_queue_witness :
  (push kBandleRingCapacity m1 ring12).1 = true ∧
  ring_queue kBandleRingCapacity (push kBandleRingCapacity m1 ring12).2 [wire m1; wire m2; wire m1].
Proof.
  destruct (ring_refines_queue kBandleRingCapacity ring12 [wire m1; wire m2] m1 m1 [m2] []) as [H _].
  - by vm_compute.
  - by vm_compute.
  - apply ring12_queue.
  - eval_forall.
  - cbn. lia.
  - exact H.
Defined.

Example padded_store_exact_witness :
  length (nt_store_payload_padded zero_data (str "abc") 3) = 1088%nat.
Proof.
  apply (padded_store_exact zero_data (str "abc") 3); [reflexivity|cbn; lia|by vm_compute].
Defined.

End Examples.
