(* ===== verification/ConcChannel.v ===== *)
(** The operations of [Transport] carried out on the machine of [RingConc] with
    nothing else going on in that ring: a batch is pushed, or drained, by a
    fixed schedule of the accesses and of the memory system ([settle]).  With
    them the machine is an instance of [Channel]: what [Cluster] does over this
    instance are runs of the concurrent rings, from rest to rest. *)
From stdpp Require Import relations.
From S2P Require Import Prelude Message Ring RingConc RingChannel Transport.

Abbreviation ring_step := (machine_step kBandleRingCapacity true).
Abbreviation ring_reachable := (reachable kBandleRingCapacity true).

Lemma capacity_ok : 0 < kBandleRingCapacity < 2 ^ 63 ∧ Z.land kBandleRingCapacity (kBandleRingCapacity - 1) = 0.
Proof. by vm_compute. Qed.

(** ** Schedules *)

(** The moves a schedule picks, until it picks none. *)
Fixpoint settle (pick : Machine → option Action) (fuel : nat) (m : Machine) : Machine :=
  match fuel with
  | O => m
  | S fuel =>
      match pick m ≫= (fun a => ring_step a m) with
      | Some m' => settle pick fuel m'
      | None => m
      end
  end.

Definition settled_by (pick : Machine → option Action) (m : Machine) : Machine := settle pick (work m) m.

Definition picks (pick : Machine → option Action) (m m' : Machine) : Prop :=
  ∃ a, pick m = Some a ∧ ring_step a m = Some m'.

Lemma picks_reachable pick m m' : rtc (picks pick) m m' → ring_reachable m → ring_reachable m'.
Proof. induction 1 as [|m m1 m' (a&_&Hs) _ IH]; [done|]. intros Hr. apply IH. by eapply reachable_step. Qed.

(** What every picked move keeps is kept. *)
Lemma picks_keep pick (R : Machine → Machine → Prop) `{!PreOrder R} m m' :
  (∀ m1 m2, picks pick m1 m2 → R m1 m2) → rtc (picks pick) m m' → R m m'.
Proof. intros HR. induction 1 as [|m m1 m' Hs _ IH]; [done|]. etransitivity; [by apply HR|done]. Qed.

Section Settle.
Context (pick : Machine → option Action).
Context (Hpick : ∀ m a, ring_reachable m → pick m = Some a → works kBandleRingCapacity a m).

(** Every picked move leaves less to do: [work m] rounds are enough. *)
Lemma settle_runs fuel : ∀ m, ring_reachable m → (work m ≤ fuel)%nat →
  rtc (picks pick) m (settle pick fuel m) ∧ pick (settle pick fuel m) = None.
Proof.
  induction fuel as [|fuel IH]; intros m Hr Hle; cbn [settle].
  - split; [done|]. destruct (pick m) as [a|] eqn:Ha; [|done]. destruct (Hpick m a Hr Ha) as (m'&_&_&Hlt). lia.
  - destruct (pick m) as [a|] eqn:Ha; [|done]. destruct (Hpick m a Hr Ha) as (m'&Hs&_&Hlt). cbn. rewrite Hs.
    destruct (IH m') as [Hrun Hnone]; [by eapply reachable_step|lia|]. split; [|done].
    eapply rtc_l; [|done]. by exists a.
Qed.

Lemma settled_runs m : ring_reachable m →
  rtc (picks pick) m (settled_by pick m) ∧ pick (settled_by pick m) = None.
Proof. intros Hr. by apply settle_runs. Qed.

End Settle.

(** *** Draining the buffers *)
Record same_ends (m m' : Machine) : Prop := {
  se_producer : producer m' = producer m;
  se_consumer : consumer m' = consumer m;
  se_sent : sent m' = sent m;
  se_received : received m' = received m
}.
#[export] Instance same_ends_preorder : PreOrder same_ends.
Proof. split; [done|]. intros m1 m2 m3 [] []. split; congruence. Qed.

Lemma memory_keeps a m m' : memory_step true a m = Some m' → same_ends m m'.
Proof. unfold memory_step. intros Hs. destruct a; try done; repeat case_match; by simplify_eq. Qed.

Lemma memory_picks m m' : picks memory_action m m' → same_ends m m'.
Proof.
  intros (a&Ha&Hs). apply (memory_keeps a). unfold memory_action in Ha. by repeat case_match; simplify_eq.
Qed.

Lemma settle_memory m : ring_reachable m → let m' := settled_by memory_action m in
  rtc (picks memory_action) m m' ∧ ring_reachable m' ∧ same_ends m m' ∧ memory_action m' = None.
Proof.
  intros Hr m'. destruct (settled_runs memory_action) with (m := m) as [Hrun Hnone]; [|done|].
  { intros m1 a _. apply memory_works. }
  split; [done|]. split; [by eapply picks_reachable|]. split; [|done].
  eapply picks_keep; [apply _|apply memory_picks|done].
Qed.

(** *** Writing a batch *)
Record same_batch (m m' : Machine) : Prop := {
  sb_batch : batch_of (producer m') = batch_of (producer m);
  sb_busy : producer m ≠ PIdle → producer m' ≠ PIdle;
  sb_consumer : consumer m' = consumer m;
  sb_sent : sent m' = sent m;
  sb_received : received m' = received m
}.
#[export] Instance same_batch_preorder : PreOrder same_batch.
Proof. split; [done|]. intros m1 m2 m3 [] []. split; try congruence. auto. Qed.

Lemma write_picks m m' : picks write_action m m' → same_batch m m'.
Proof.
  intros (a&Ha&Hs). unfold write_action in Ha. destruct (memory_action m) as [a'|] eqn:Hm.
  - injection Ha as ->. destruct (memory_picks m m') as [Hp ???]; [by exists a|]. by split; rewrite ?Hp.
  - assert (a = PNext ∨ a = PFence) as Haw by (repeat case_match; simplify_eq; auto).
    assert (producer_step kBandleRingCapacity a m = Some m') as Hs' by by destruct Haw as [-> | ->].
    destruct (write_batch _ _ _ _ Haw Hs') as (Hb&Hbatch&Hb'). split; [done|done|..];
      destruct Haw as [-> | ->]; unfold producer_step in Hs'; repeat case_match; by simplify_eq.
Qed.

Lemma settle_write m : ring_reachable m → producer m ≠ PIdle → let m' := settled_by write_action m in
  rtc (picks write_action) m m' ∧ ring_reachable m' ∧ same_batch m m' ∧ memory_action m' = None ∧
  ∃ h, producer m' = PPublish h (batch_of (producer m)).
Proof.
  intros Hr Hbusy m'. destruct (settled_runs write_action) with (m := m) as [Hrun Hnone]; [|done|].
  { intros m1 a _. apply write_works. }
  assert (same_batch m m') as Hsame by (eapply picks_keep; [apply _|apply write_picks|done]).
  split; [done|]. split; [by eapply picks_reachable|]. split; [done|]. fold m' in Hnone.
  destruct (write_action_none m' Hnone) as [(Hc&Hb&Ht) Hp]. split; [by unfold memory_action; rewrite Hc, Hb, Ht|].
  destruct Hp as [Hp|(h&batch&Hp)]; [by destruct (sb_busy _ _ Hsame Hbusy)|].
  exists h. rewrite <- (sb_batch _ _ Hsame), Hp. done.
Qed.

(** *** Reading *)
Record same_memory (m m' : Machine) : Prop := {
  sm_producer : producer m' = producer m;
  sm_mem : mem m' = mem m;
  sm_combining : combining m' = combining m;
  sm_stores : store_buffer m' = store_buffer m;
  sm_tails : tail_buffer m' = tail_buffer m;
  sm_sent : sent m' = sent m;
  sm_received : received m' = received m;
  sm_claimed : (0 < claimed (consumer m))%nat → claimed (consumer m') = claimed (consumer m)
}.
#[export] Instance same_memory_preorder : PreOrder same_memory.
Proof.
  split; [done|]. intros m1 m2 m3 [] []. split; try congruence. intros Hpos. rewrite <- sm_claimed0 by done.
  apply sm_claimed1. by rewrite sm_claimed0.
Qed.

Lemma read_picks m m' : picks read_action m m' → same_memory m m'.
Proof.
  intros (a&Ha&Hs). unfold read_action in Ha.
  destruct (consumer m) as [|t count got fresh|t count got [|out fresh]] eqn:Hc; try done.
  - injection Ha as <-. cbn [machine_step consumer_step] in Hs. rewrite Hc in Hs.
    repeat case_match; simplify_eq; split; try done; by rewrite Hc.
  - destruct (Nat.ltb_spec (length got) count) as [Hlt|Hge]; [|destruct got; [|done]]; injection Ha as <-;
      cbn [machine_step consumer_step] in Hs; rewrite Hc in Hs.
    + rewrite (proj2 (Nat.ltb_lt _ _) Hlt) in Hs. simplify_eq. split; try done. by rewrite Hc.
    + simplify_eq. split; try done. rewrite Hc. cbn. cbn in Hge. lia.
  - injection Ha as <-. cbn [machine_step consumer_step] in Hs. rewrite Hc in Hs. simplify_eq.
    split; try done. by rewrite Hc.
Qed.

Lemma settle_read m : ring_reachable m → let m' := settled_by read_action m in
  rtc (picks read_action) m m' ∧ ring_reachable m' ∧ same_memory m m' ∧
  (consumer m' = CIdle ∨ ∃ t got, consumer m' = CPayload t (length got) got [] ∧ got ≠ []).
Proof.
  intros Hr m'. destruct capacity_ok as [Hcap Hpow].
  destruct (settled_runs read_action) with (m := m) as [Hrun Hnone]; [|done|].
  { intros m1 a Hr1 Ha. destruct (reachable_inv _ true Hcap Hpow m1 eq_refl Hr1) as (T&H&D&Hi).
    by apply (read_works _ Hcap Hpow m1 T H D). }
  assert (ring_reachable m') as Hr' by by eapply picks_reachable.
  split; [done|]. split; [done|]. split; [eapply picks_keep; [apply _|apply read_picks|done]|].
  destruct (reachable_inv _ true Hcap Hpow m' eq_refl Hr') as (T&H&D&Hi).
  by apply (read_action_none kBandleRingCapacity m' T H D).
Qed.

(** ** Pushing and draining *)

(** From inside [write_batch_at]: the rest of the batch, [publish_head], and
    everything into memory. *)
Definition finish_push (m : Machine) : Machine :=
  match ring_step PPublishHead (settled_by write_action m) with
  | Some m' => settled_by memory_action m'
  | None => m
  end.

Definition push_all (msgs : list BandleMessage) (m : Machine) : Machine :=
  match ring_step (PStart msgs) m with Some m' => finish_push m' | None => m end.

(** From inside the loops of [drain_source_ring] to [commit_tail]. *)
Definition finish_drain (m : Machine) : option (list BandleMessage * Machine) :=
  let m := settled_by read_action m in
  match consumer m, ring_step CCommit m with
  | CPayload _ _ got _, Some m' => Some (got, settled_by memory_action m')
  | _, _ => None
  end.

Definition take_all (batch_size : Z) (m : Machine) : option (list BandleMessage * Machine) :=
  m' ← ring_step (CLoad (recv_batch_capacity batch_size)) m; finish_drain m'.

(** The check of [push] and [can_push_batch]. *)
Definition has_room (n : nat) (m : Machine) : bool :=
  negb ((own_head m -₆₄ tail (mem m)) +₆₄ Z.of_nat n >? kBandleRingCapacity).

(** Both sides are idle and memory is up to date. *)
Record at_rest (m : Machine) : Prop := {
  ar_reach : ring_reachable m;
  ar_memory : memory_action m = None;
  ar_producer : producer m = PIdle;
  ar_consumer : consumer m = CIdle
}.

Lemma finish_push_spec m : ring_reachable m → producer m ≠ PIdle → ∃ m1 m2,
  rtc (picks write_action) m m1 ∧ same_batch m m1 ∧ ring_step PPublishHead m1 = Some m2 ∧
  rtc (picks memory_action) m2 (finish_push m) ∧ ring_reachable (finish_push m) ∧
  memory_action (finish_push m) = None ∧ producer (finish_push m) = PIdle ∧
  consumer (finish_push m) = consumer m ∧ in_flight (finish_push m) = in_flight m ++ (wire <$> batch_of (producer m)).
Proof.
  intros Hr Hbusy. destruct capacity_ok as [Hcap Hpow]. destruct (settle_write m Hr Hbusy) as (Hrun&Hr1&Hsame&_&h&Hp).
  unfold finish_push. set (m1 := settled_by write_action m) in *.
  assert (∃ m2, ring_step PPublishHead m1 = Some m2) as [m2 Hs].
  { cbn [machine_step producer_step]. rewrite Hp. by eexists. }
  destruct (publish_in_flight _ Hcap Hpow m1 m2 Hr1 Hs) as (Hidle&Hq&_).
  assert (consumer m2 = consumer m1) as Hc2 by (cbn [machine_step producer_step] in Hs; rewrite Hp in Hs; by simplify_eq).
  assert (ring_reachable m2) as Hr2 by by eapply reachable_step.
  destruct (settle_memory m2 Hr2) as (Hrun2&Hr'&[Hp' Hc' Hs' Hrec']&Hnone).
  exists m1, m2. rewrite Hs. split; [done|]. split; [done|]. split; [done|]. split; [done|]. split; [done|].
  split; [done|]. split; [by rewrite Hp'|]. split; [rewrite Hc', Hc2; apply Hsame|].
  destruct Hsame as [Hb _ _ Hs1 Hrec1]. rewrite Hb in Hq. unfold in_flight in *. by rewrite Hs', Hrec', Hq, Hs1, Hrec1.
Qed.

Lemma push_start m msgs : producer m = PIdle → msgs ≠ [] → Forall msg_fits msgs → Z.of_nat (length msgs) < 2 ^ 63 →
  has_room (length msgs) m = true → ring_step (PStart msgs) m = Some (m <| producer := PWrite (own_head m) [] msgs false |>).
Proof.
  intros Hp Hne Hfit Hlen Hroom. cbn [machine_step producer_step]. rewrite Hp.
  rewrite bool_decide_true, bool_decide_true, (proj2 (Z.ltb_lt _ _) Hlen) by done.
  unfold has_room in Hroom. by rewrite Hroom.
Qed.

(** A batch pushed from rest. *)
Lemma push_all_spec m msgs : at_rest m → msgs ≠ [] → Forall msg_fits msgs → Z.of_nat (length msgs) < 2 ^ 63 →
  has_room (length msgs) m = true → at_rest (push_all msgs m) ∧ in_flight (push_all msgs m) = in_flight m ++ (wire <$> msgs).
Proof.
  intros [Hr Hmem Hp Hc] Hne Hfit Hlen Hroom. unfold push_all.
  pose proof (push_start m msgs Hp Hne Hfit Hlen Hroom) as Hs. rewrite Hs. set (m' := m <| producer := _ |>) in *.
  destruct (finish_push_spec m') as (m1&m2&_&_&_&_&Hr'&Hn'&Hp'&Hc'&Hq); [by eapply reachable_step|done|].
  split; [|exact Hq]. split; [done|done|done|]. by rewrite Hc'.
Qed.

(** The end of a drain: what was claimed is handed over. *)
Lemma finish_drain_spec m : ring_reachable m → memory_action m = None → (0 < claimed (consumer m))%nat → ∃ m1 m2 t got m',
  rtc (picks read_action) m m1 ∧ same_memory m m1 ∧ consumer m1 = CPayload t (length got) got [] ∧ ring_step CCommit m1 = Some m2 ∧
  rtc (picks memory_action) m2 m' ∧ finish_drain m = Some (got, m') ∧ ring_reachable m' ∧ memory_action m' = None ∧
  producer m' = producer m ∧ consumer m' = CIdle ∧ got ≠ [] ∧ length got = claimed (consumer m) ∧
  wire <$> got = take (length got) (in_flight m) ∧ in_flight m' = drop (length got) (in_flight m).
Proof.
  intros Hr Hmem Hpos. destruct capacity_ok as [Hcap Hpow]. destruct (settle_read m Hr) as (Hrun&Hr1&Hsame&Hc).
  unfold finish_drain. set (m1 := settled_by read_action m) in *. pose proof (sm_claimed _ _ Hsame Hpos) as Hcl.
  destruct Hc as [Hc|(t&got&Hc&Hne)]; [rewrite Hc in Hcl; cbn in Hcl; lia|].
  destruct (commit_works kBandleRingCapacity m1 t got Hc Hne) as (m2&Hs&_&_).
  destruct (commit_in_flight _ Hcap Hpow m1 m2 t (length got) got Hr1 Hc Hs) as (_&Hgot&Hrest).
  pose proof (consumer_producer _ CCommit m1 m2 Hs) as Hp2.
  assert (consumer m2 = CIdle) as Hc2.
  { cbn [machine_step consumer_step] in Hs. rewrite Hc in Hs. destruct got; by simplify_eq. }
  destruct (settle_memory m2) as (Hrun2&Hr'&[Hp' Hc' Hs' Hrec']&Hnone); [by eapply reachable_step|].
  assert (in_flight m1 = in_flight m) as Hq by (unfold in_flight; by rewrite (sm_sent _ _ Hsame), (sm_received _ _ Hsame)).
  exists m1, m2, t, got, (settled_by memory_action m2). rewrite Hc, Hs. cbn [claimed] in Hcl. rewrite Hc in Hcl.
  do 8 (split; [done|]). rewrite Hp', Hp2, (sm_producer _ _ Hsame), Hc', Hc2.
  do 3 (split; [done|]). split; [exact Hcl|]. rewrite <- Hq. split; [done|].
  rewrite <- Hrest. unfold in_flight. by rewrite Hs', Hrec'.
Qed.

Lemma at_rest_tail m : at_rest m → own_head m = w64 (Z.of_nat (length (sent m))) ∧
  tail (mem m) = w64 (Z.of_nat (length (received m))) ∧ (length (received m) ≤ length (sent m))%nat ∧
  Z.of_nat (length (sent m)) ≤ Z.of_nat (length (received m)) + kBandleRingCapacity.
Proof.
  intros [Hr (Hcm&Hb&Ht)%memory_action_none _ _]. destruct capacity_ok as [Hcap Hpow].
  destruct (reachable_inv _ true Hcap Hpow m eq_refl Hr) as (T&H&D&Hi).
  pose proof (stream_bounds _ true m T H D Hi) as (?&?&_). pose proof (iv_window _ _ _ _ _ _ Hi).
  pose proof (iv_tails _ _ _ _ _ _ Hi) as Htl. rewrite Ht in Htl. cbn in Htl. subst T.
  pose proof (iv_ops _ _ _ _ _ _ Hi) as Hops. unfold own_head.
  rewrite (own_head_ops kBandleRingCapacity _ _ _ _ _ _ Hops (iv_head _ _ _ _ _ _ Hi)).
  split; [done|]. split; [apply Hi|lia].
Qed.

Lemma room_at_rest m n : at_rest m → Z.of_nat (length (in_flight m) + n) ≤ kBandleRingCapacity → has_room n m = true.
Proof.
  intros Hm Hn. destruct (at_rest_tail m Hm) as (Hh&Ht&Hle&_). unfold has_room, in_flight in *. rewrite length_drop in Hn.
  rewrite Hh, Ht, w64_sub_l, w64_sub_r, w64_add_l. destruct capacity_ok as [Hcap _].
  rewrite w64_small by (unfold is_u64; lia). apply negb_true_iff. lia.
Qed.

(** A drain from rest. *)
Lemma take_all_spec b m : at_rest m → match take_all b m with
  | None => in_flight m = []
  | Some (got, m') => at_rest m' ∧ got ≠ [] ∧ wire <$> got = take (length got) (in_flight m) ∧
      in_flight m' = drop (length got) (in_flight m)
  end.
Proof.
  intros Hm. pose proof Hm as [Hr Hmem Hp Hc]. destruct capacity_ok as [Hcap Hpow].
  pose proof (recv_batch_capacity_bounds b). destruct (at_rest_tail m Hm) as (_&_&Hle&_).
  destruct (reachable_inv _ true Hcap Hpow m eq_refl Hr) as (T&H'&D&Hi).
  destruct (memory_action_none m Hmem) as (_&Hb&_). unfold take_all.
  destruct (decide (length (received m) = length (sent m))) as [Heq|Hne].
  - assert (in_flight m = []) as Hq by (unfold in_flight; rewrite Heq; apply drop_all).
    replace (ring_step (CLoad (recv_batch_capacity b)) m) with (@None Machine); [done|].
    cbn [machine_step consumer_step]. rewrite Hc, (available _ Hcap m T H' D Hi).
    pose proof (stream_bounds _ true m T H' D Hi) as (?&?&_). by rewrite (proj2 (Z.eqb_eq _ _)) by lia.
  - pose proof (load_step _ Hcap m T H' D (recv_batch_capacity b) Hi Hb Hc ltac:(lia) ltac:(lia)) as Hs. cbv zeta in Hs.
    rewrite Hs. cbn [mbind option_bind]. set (m' := m <| consumer := _ |>) in *.
    destruct (finish_drain_spec m') as (m1&m2&t&got&m3&_&_&_&_&_&->&Hr'&Hn'&Hp'&Hc'&Hgne&_&Hgot&Hrest);
      [by eapply reachable_step|done|cbn; lia|].
    split; [split; [done|done|by rewrite Hp'|done]|]. done.
Qed.

(** ** The machine as a channel *)
#[global] Arguments take_all : simpl never.
#[global] Arguments push_all : simpl never.
#[global] Arguments has_room : simpl never.

#[export] Instance machine_channel : Channel Machine := {|
  ch_new := initial_machine;
  ch_queue m q := at_rest m ∧ q = in_flight m;
  ch_ready := has_room;
  ch_append := push_all;
  ch_takes b m msgs m' := take_all b m = Some (msgs, m');
  ch_drain := take_all
|}.

#[export] Instance machine_channel_laws : ChannelLaws Machine.
Proof.
  split; cbn.
  - split; [|done]. split; try done. apply reachable_initial.
  - intros m q msgs [Hm ->] Hfit Hne Hlen Hroom.
    by destruct (push_all_spec m msgs Hm Hne Hfit Hlen Hroom) as [? <-].
  - intros m q b msgs m' [Hm ->] Ht. pose proof (take_all_spec b m Hm) as H. rewrite Ht in H.
    destruct H as (Hm'&Hne&Hw&Hq). exists (in_flight m'). split; [done|]. split; [|done].
    rewrite Hw, Hq. symmetry. apply take_drop.
  - done.
  - intros m q b [Hm ->] Ht. pose proof (take_all_spec b m Hm) as H. by rewrite Ht in H.
  - intros m q n [Hm ->] Hn. by apply room_at_rest.
Qed.
