(* ===== verification/NodeState.v ===== *)
(** The state of one replica ([class Bandle] of [include/bandle.h]) and its
    records: a log entry, a pending client request, the borrowed request of the
    trace reader.  The arrays [log_], [log_payloads_] and [pending_] have
    [kCompletionSlots] cells, indexed through a mask; they are finite maps whose
    absent cells hold the value-initialised element.  [tsc_reads] counts the
    time-stamp counter reads of the replica. *)
From S2P Require Import Prelude Histogram Message.

(** [struct Bandle::LogEntry]. *)
Record LogEntry := {
  le_seq : Z;
  proposal_known : bool;
  p1_sent : bool;
  decided : bool;
  decision : Z;
  p1_value1_promise_mask : Z;
  le_op : ascii;
  le_key_len : Z;
  le_value_len : Z;
  le_proposer : Z;
  le_client_req_id : Z;
  le_start_tsc : Z
}.

(** [struct Bandle::Pending]. *)
Record Pending := {
  pe_id : Z;
  pe_op : ascii;
  pe_start_tsc : Z;
  pe_done : bool
}.

(** [struct Bandle::BorrowedRequest]; a null pointer is [None]. *)
Record BorrowedRequest := {
  br_op : ascii;
  br_key_ptr : option bytes;
  br_key_len : Z;
  br_value_ptr : option bytes;
  br_value_len : Z
}.

(** The configuration members of [Bandle]. *)
Record Config := {
  node_id_ : Z;
  cluster_size_ : Z;
  quorum_ : Z;
  noop_interval_us_ : Z;
  batch_size_ : Z;
  admission_window_ : Z;
  admission_batch_ : Z
}.

(** The mutable members of [Bandle]. *)
Record Node (S : Type) := {
  log_ : gmap Z LogEntry;
  log_payloads_ : gmap Z bytes;
  execute_next_ : Z;
  next_seq_ : Z;
  highest_proposed_seq_ : Z;
  last_noop_ns_ : Z;
  pending_ : gmap Z Pending;
  next_client_req_id_ : Z;
  pending_count_ : Z;
  input_done_ : bool;
  total_ops_ : Z;
  read_ops_ : Z;
  write_ops_ : Z;
  ok_ops_ : Z;
  error_ops_ : Z;
  read_latency_ : LatencyHistogram;
  write_latency_ : LatencyHistogram;
  kv_ : S;
  tsc_reads : nat
}.

Arguments log_ {S} _.
Arguments log_payloads_ {S} _.
Arguments execute_next_ {S} _.
Arguments next_seq_ {S} _.
Arguments highest_proposed_seq_ {S} _.
Arguments last_noop_ns_ {S} _.
Arguments pending_ {S} _.
Arguments next_client_req_id_ {S} _.
Arguments pending_count_ {S} _.
Arguments input_done_ {S} _.
Arguments total_ops_ {S} _.
Arguments read_ops_ {S} _.
Arguments write_ops_ {S} _.
Arguments ok_ops_ {S} _.
Arguments error_ops_ {S} _.
Arguments read_latency_ {S} _.
Arguments write_latency_ {S} _.
Arguments kv_ {S} _.
Arguments tsc_reads {S} _.

(** Field updates. *)
Definition entry_eta (r : LogEntry) : LogEntry :=
  {| le_seq := le_seq r; proposal_known := proposal_known r; p1_sent := p1_sent r;
     decided := decided r; decision := decision r;
     p1_value1_promise_mask := p1_value1_promise_mask r; le_op := le_op r;
     le_key_len := le_key_len r; le_value_len := le_value_len r;
     le_proposer := le_proposer r; le_client_req_id := le_client_req_id r;
     le_start_tsc := le_start_tsc r |}.

#[export] Instance set_le_seq : Setter le_seq := ltac:(solve_setter le_seq entry_eta).
#[export] Instance set_proposal_known : Setter proposal_known := ltac:(solve_setter proposal_known entry_eta).
#[export] Instance set_p1_sent : Setter p1_sent := ltac:(solve_setter p1_sent entry_eta).
#[export] Instance set_decided : Setter decided := ltac:(solve_setter decided entry_eta).
#[export] Instance set_decision : Setter decision := ltac:(solve_setter decision entry_eta).
#[export] Instance set_p1_value1_promise_mask : Setter p1_value1_promise_mask :=
  ltac:(solve_setter p1_value1_promise_mask entry_eta).
#[export] Instance set_le_op : Setter le_op := ltac:(solve_setter le_op entry_eta).
#[export] Instance set_le_key_len : Setter le_key_len := ltac:(solve_setter le_key_len entry_eta).
#[export] Instance set_le_value_len : Setter le_value_len := ltac:(solve_setter le_value_len entry_eta).
#[export] Instance set_le_proposer : Setter le_proposer := ltac:(solve_setter le_proposer entry_eta).
#[export] Instance set_le_client_req_id : Setter le_client_req_id := ltac:(solve_setter le_client_req_id entry_eta).
#[export] Instance set_le_start_tsc : Setter le_start_tsc := ltac:(solve_setter le_start_tsc entry_eta).

Definition pending_eta (r : Pending) : Pending :=
  {| pe_id := pe_id r; pe_op := pe_op r; pe_start_tsc := pe_start_tsc r;
     pe_done := pe_done r |}.

#[export] Instance set_pe_id : Setter pe_id := ltac:(solve_setter pe_id pending_eta).
#[export] Instance set_pe_op : Setter pe_op := ltac:(solve_setter pe_op pending_eta).
#[export] Instance set_pe_start_tsc : Setter pe_start_tsc := ltac:(solve_setter pe_start_tsc pending_eta).
#[export] Instance set_pe_done : Setter pe_done := ltac:(solve_setter pe_done pending_eta).

Definition node_eta {S} (r : Node S) : Node S :=
  {| log_ := log_ r; log_payloads_ := log_payloads_ r; execute_next_ := execute_next_ r;
     next_seq_ := next_seq_ r; highest_proposed_seq_ := highest_proposed_seq_ r;
     last_noop_ns_ := last_noop_ns_ r; pending_ := pending_ r;
     next_client_req_id_ := next_client_req_id_ r; pending_count_ := pending_count_ r;
     input_done_ := input_done_ r; total_ops_ := total_ops_ r; read_ops_ := read_ops_ r;
     write_ops_ := write_ops_ r; ok_ops_ := ok_ops_ r; error_ops_ := error_ops_ r;
     read_latency_ := read_latency_ r; write_latency_ := write_latency_ r; kv_ := kv_ r;
     tsc_reads := tsc_reads r |}.

#[export] Instance set_log_ {S} : Setter (@log_ S) := ltac:(solve_setter (@log_ S) (@node_eta S)).
#[export] Instance set_log_payloads_ {S} : Setter (@log_payloads_ S) := ltac:(solve_setter (@log_payloads_ S) (@node_eta S)).
#[export] Instance set_execute_next_ {S} : Setter (@execute_next_ S) := ltac:(solve_setter (@execute_next_ S) (@node_eta S)).
#[export] Instance set_next_seq_ {S} : Setter (@next_seq_ S) := ltac:(solve_setter (@next_seq_ S) (@node_eta S)).
#[export] Instance set_highest_proposed_seq_ {S} : Setter (@highest_proposed_seq_ S) := ltac:(solve_setter (@highest_proposed_seq_ S) (@node_eta S)).
#[export] Instance set_last_noop_ns_ {S} : Setter (@last_noop_ns_ S) := ltac:(solve_setter (@last_noop_ns_ S) (@node_eta S)).
#[export] Instance set_pending_ {S} : Setter (@pending_ S) := ltac:(solve_setter (@pending_ S) (@node_eta S)).
#[export] Instance set_next_client_req_id_ {S} : Setter (@next_client_req_id_ S) := ltac:(solve_setter (@next_client_req_id_ S) (@node_eta S)).
#[export] Instance set_pending_count_ {S} : Setter (@pending_count_ S) := ltac:(solve_setter (@pending_count_ S) (@node_eta S)).
#[export] Instance set_input_done_ {S} : Setter (@input_done_ S) := ltac:(solve_setter (@input_done_ S) (@node_eta S)).
#[export] Instance set_total_ops_ {S} : Setter (@total_ops_ S) := ltac:(solve_setter (@total_ops_ S) (@node_eta S)).
#[export] Instance set_read_ops_ {S} : Setter (@read_ops_ S) := ltac:(solve_setter (@read_ops_ S) (@node_eta S)).
#[export] Instance set_write_ops_ {S} : Setter (@write_ops_ S) := ltac:(solve_setter (@write_ops_ S) (@node_eta S)).
#[export] Instance set_ok_ops_ {S} : Setter (@ok_ops_ S) := ltac:(solve_setter (@ok_ops_ S) (@node_eta S)).
#[export] Instance set_error_ops_ {S} : Setter (@error_ops_ S) := ltac:(solve_setter (@error_ops_ S) (@node_eta S)).
#[export] Instance set_read_latency_ {S} : Setter (@read_latency_ S) := ltac:(solve_setter (@read_latency_ S) (@node_eta S)).
#[export] Instance set_write_latency_ {S} : Setter (@write_latency_ S) := ltac:(solve_setter (@write_latency_ S) (@node_eta S)).
#[export] Instance set_kv_ {S} : Setter (@kv_ S) := ltac:(solve_setter (@kv_ S) (@node_eta S)).
#[export] Instance set_tsc_reads {S} : Setter (@tsc_reads S) := ltac:(solve_setter (@tsc_reads S) (@node_eta S)).

(** Value-initialised elements. *)
Definition default_log_entry : LogEntry := {|
  le_seq := 0; proposal_known := false; p1_sent := false; decided := false; decision := 0;
  p1_value1_promise_mask := 0; le_op := "N"; le_key_len := 0; le_value_len := 0;
  le_proposer := 0; le_client_req_id := 0; le_start_tsc := 0 |}.

Definition default_pending : Pending :=
  {| pe_id := 0; pe_op := "G"; pe_start_tsc := 0; pe_done := false |}.

(** [x & (kCompletionSlots - 1)]. *)
Definition slot_of (x : Z) : Z := Z.land x (kCompletionSlots - 1).

Section Cells.
Context {S : Type}.

(** [log_[slot]], [log_payloads_[slot]] and [pending_[slot]], read and written. *)
Definition log_at (s : Node S) (slot : Z) : LogEntry := default default_log_entry (log_ s !! slot).
Definition log_payload_at (s : Node S) (slot : Z) : bytes :=
  default zero_data (log_payloads_ s !! slot).
Definition pending_at (s : Node S) (slot : Z) : Pending :=
  default default_pending (pending_ s !! slot).

Definition log_set (slot : Z) (e : LogEntry) (s : Node S) : Node S :=
  s <| log_ := <[slot := e]> (log_ s) |>.
Definition log_payload_set (slot : Z) (p : bytes) (s : Node S) : Node S :=
  s <| log_payloads_ := <[slot := p]> (log_payloads_ s) |>.
Definition pending_set (slot : Z) (p : Pending) (s : Node S) : Node S :=
  s <| pending_ := <[slot := p]> (pending_ s) |>.

End Cells.

Lemma slot_of_mod x : slot_of x = x mod 65536.
Proof.
  unfold slot_of. change (kCompletionSlots - 1) with (2 ^ 16 - 1). by apply land_mask_mod.
Qed.

Lemma slot_of_w64 x : slot_of (w64 x) = x mod 65536.
Proof. rewrite slot_of_mod. by apply (w64_mod_pow2 x 16). Qed.

Section CellLemmas.
Context {S : Type}.
Implicit Types (s : Node S).

Lemma log_at_set s slot slot' e :
  log_at (log_set slot e s) slot' = if decide (slot = slot') then e else log_at s slot'.
Proof. unfold log_at, log_set. cbn. rewrite lookup_insert. by case_decide. Qed.

Lemma log_payload_at_set s slot slot' p :
  log_payload_at (log_payload_set slot p s) slot' =
    if decide (slot = slot') then p else log_payload_at s slot'.
Proof. unfold log_payload_at, log_payload_set. cbn. rewrite lookup_insert. by case_decide. Qed.

Lemma pending_at_set s slot slot' p :
  pending_at (pending_set slot p s) slot' =
    if decide (slot = slot') then p else pending_at s slot'.
Proof. unfold pending_at, pending_set. cbn. rewrite lookup_insert. by case_decide. Qed.

End CellLemmas.
