(* ===== verification/Bandle.v ===== *)
(** The replica of [src/bandle.cpp]: preparing and admitting client requests,
    delivering proposals and control messages, and executing the decided
    prefix of the log.  Each definition is one function of the source, or the
    region of one function that runs under [mu_]; the network calls between
    two such regions are in [Transport] and [Cluster].

    [hash] is [std::hash<std::string_view>]; [rdtsc n] is the [n]-th reading of
    the time-stamp counter; the store is any [ReplicaStore]. *)
From S2P Require Import Prelude Histogram KVStore Message NodeState.

(** ** Helpers of the anonymous namespace *)

(** [histogram_index_for]. *)
Definition histogram_index_for (value : Z) : Z :=
  if value =? 0 then 0 else
  let exp := 63 - clzll value in
  let exp := if exp <? 0 then 0 else if exp >? MAX_EXP then MAX_EXP else exp in
  let base := if exp =? 0 then 1 else 1 <<₆₄ exp in
  let next := if exp =? MAX_EXP then UINT64_MAX else base <<₆₄ 1 in
  let width := if next >? base then (next -₆₄ base) / SUB_BUCKETS else 1 in
  let width := if width =? 0 then 1 else width in
  let off := if value <=? base then 0 else value -₆₄ base in
  let sub := i32 (off / width) in
  let sub := if sub >=? SUB_BUCKETS then SUB_BUCKETS - 1 else sub in
  exp * SUB_BUCKETS + sub.

Definition is_write_op (op : ascii) : bool :=
  bool_decide (op = "P"%char) || bool_decide (op = "U"%char) || bool_decide (op = "D"%char).

(** [max_inflight_seq_window]. *)
Definition max_inflight_seq_window (submit_batch_size cluster_size configured_window : Z) : Z :=
  let min_for_batch := cluster_size *₆₄ Z.max submit_batch_size 1 +₆₄ cluster_size in
  Z.max configured_window min_for_batch.

(** [admission_batch_capacity]. *)
Definition admission_batch_capacity (submit_count configured_batch : Z) : Z :=
  let cap := Z.max 1 configured_batch in
  Z.max 1 (Z.min cap submit_count).

(** [AtomicHistogram::record] and [AtomicHistogram::snapshot]. *)
Definition atomic_record (value : Z) (h : LatencyHistogram) : LatencyHistogram :=
  bump (histogram_index_for value) 1 h.

Fixpoint snapshot_buckets (cs : list Z) (i : Z) (h : LatencyHistogram) : LatencyHistogram :=
  match cs with
  | [] => h
  | c :: cs' => snapshot_buckets cs' (i + 1) (if negb (c =? 0) then add_bucket i c h else h)
  end.

Definition atomic_snapshot (h : LatencyHistogram) : LatencyHistogram :=
  snapshot_buckets (counts_ h) 0 empty_histogram.

(** ** Construction

    The configuration: zeroes are replaced by 1, and anything but a node of a
    cluster of three aborts ([None]). *)
Definition make_config (node_id cluster_size noop_interval_us batch_size admission_window
    admission_batch : Z) : option Config :=
  if negb (cluster_size =? 3) || (node_id <? 1) || (node_id >? cluster_size) then None
  else Some {|
    node_id_ := node_id;
    cluster_size_ := cluster_size;
    quorum_ := cluster_size / 2 + 1;
    noop_interval_us_ := noop_interval_us;
    batch_size_ := if batch_size =? 0 then 1 else batch_size;
    admission_window_ := if admission_window =? 0 then 1 else admission_window;
    admission_batch_ := if admission_batch =? 0 then 1 else admission_batch |}.

Section Node.
Context {S : Type} `{Store : ReplicaStore S}.
Context (hash : bytes → Z) (rdtsc : nat → Z) (cfg : Config).

(** The members of a new [Bandle] over the store [kv]. *)
Definition new_node (kv : S) : Node S := {|
  log_ := ∅; log_payloads_ := ∅; execute_next_ := 1; next_seq_ := node_id_ cfg;
  highest_proposed_seq_ := 0; last_noop_ns_ := 0; pending_ := ∅; next_client_req_id_ := 1;
  pending_count_ := 0; input_done_ := false; total_ops_ := 0; read_ops_ := 0; write_ops_ := 0;
  ok_ops_ := 0; error_ops_ := 0; read_latency_ := empty_histogram;
  write_latency_ := empty_histogram; kv_ := kv; tsc_reads := O |}.

(** What [start()] does to the members of a replica that is not running: the
    interval between no-ops starts at its reading [now] of the clock. *)
Definition start_node (now : Z) (s : Node S) : Node S := s <| last_noop_ns_ := now |>.

(** [rdtsc_ordered()]: the reading and the replica after it. *)
Definition rdtsc_ordered (s : Node S) : Z * Node S :=
  (rdtsc (tsc_reads s), s <| tsc_reads := Datatypes.S (tsc_reads s) |>).

(** [shard_for]. *)
Definition shard_for (key : bytes) : Z := get_shard_idx hash key.

(** [direct_apply] (the preload): a request's operation, key and value. *)
Definition direct_apply (op : ascii) (key value : bytes) (s : Node S) : Node S :=
  if decide (op = "P"%char) then s <| kv_ := store_put key value (kv_ s) |>
  else if decide (op = "U"%char) then s <| kv_ := store_update key value (kv_ s) |>
  else if decide (op = "D"%char) then s <| kv_ := store_erase key (kv_ s) |>
  else s.

(** [reset_log_entry]. *)
Definition reset_log_entry (e : LogEntry) (seq : Z) : LogEntry := {|
  le_seq := seq; proposal_known := false; p1_sent := false; decided := false; decision := 0;
  p1_value1_promise_mask := 0; le_op := "N"; le_key_len := 0; le_value_len := 0;
  le_proposer := 0; le_client_req_id := 0; le_start_tsc := 0 |}.

(** The entry for [seq]: the cell of its slot, reset when it holds another
    sequence number. *)
Definition entry_for (seq : Z) (s : Node S) : LogEntry :=
  let e := log_at s (slot_of seq) in
  if negb (le_seq e =? seq) then reset_log_entry e seq else e.

(** ** Execution: [advance_execute_locked] *)
Definition kExecuteBatchMax : nat := 256.

(** The operation of an entry, read from the payload of its slot. *)
Definition apply_op_of (e : LogEntry) (payload : bytes) : ApplyOp :=
  let key := take (Z.to_nat (le_key_len e)) payload in {|
  ao_op := le_op e;
  ao_shard := shard_for key;
  ao_key := key;
  ao_value := if decide (le_op e = "D"%char) then []
              else take (Z.to_nat (le_value_len e)) (drop (Z.to_nat (le_key_len e)) payload) |}.

(** The first loop: at most [n] executable entries from [seq]; their number and
    the operations to apply. *)
Fixpoint collect (n : nat) (s : Node S) (seq : Z) : nat * list ApplyOp :=
  match n with
  | O => (O, [])
  | Datatypes.S n' =>
      let e := log_at s (slot_of seq) in
      if negb (le_seq e =? seq) || negb (decided e) then (O, [])
      else if (decision e =? 1) && negb (proposal_known e) then (O, [])
      else
        let ops := if (decision e =? 1) && is_write_op (le_op e)
                   then [apply_op_of e (log_payload_at s (slot_of seq))] else [] in
        let '(k, rest) := collect n' s (seq +₆₄ 1) in
        (Datatypes.S k, ops ++ rest)
  end.

(** The completion of the client request of an executed entry, if it is this
    replica's and still pending. *)
Definition complete_request (e : LogEntry) (s : Node S) : Node S :=
  if (decision e =? 1) && ((le_proposer e =? node_id_ cfg) && negb (le_client_req_id e =? 0)) then
    let local_id := Z.land (le_client_req_id e) (Z.shiftl 1 56 - 1) in
    let p := pending_at s (slot_of local_id) in
    if (pe_id p =? le_client_req_id e) && negb (pe_done p) then
      let '(tsc_end, s) := rdtsc_ordered s in
      let start := pe_start_tsc p in
      let latency := if tsc_end >=? start then tsc_end -₆₄ start else 0 in
      let s :=
        if decide (pe_op p = "G"%char)
        then s <| read_ops_ := read_ops_ s +₆₄ 1 |>
               <| read_latency_ := atomic_record latency (read_latency_ s) |>
        else s <| write_ops_ := write_ops_ s +₆₄ 1 |>
               <| write_latency_ := atomic_record latency (write_latency_ s) |> in
      let s := pending_set (slot_of local_id) (p <| pe_done := true |>) s in
      let s := s <| ok_ops_ := ok_ops_ s +₆₄ 1 |> <| total_ops_ := total_ops_ s +₆₄ 1 |> in
      if pending_count_ s >? 0 then s <| pending_count_ := pending_count_ s - 1 |> else s
    else s
  else s.

(** One round of the second loop: complete the request, clear the cell. *)
Definition complete_one (seq : Z) (s : Node S) : Node S :=
  let e := log_at s (slot_of seq) in
  let s := complete_request e s in
  log_set (slot_of seq) (reset_log_entry e 0) s.

Fixpoint complete_all (n : nat) (seq : Z) (s : Node S) : Node S :=
  match n with
  | O => s
  | Datatypes.S n' => complete_all n' (seq +₆₄ 1) (complete_one seq s)
  end.

(** The outer loop; every round but the last clears a decided entry, so one
    round more than the log has cells is enough (see [advance_blocked]). *)
Fixpoint advance_loop (fuel : nat) (s : Node S) : Node S :=
  match fuel with
  | O => s
  | Datatypes.S fuel' =>
      let base_seq := execute_next_ s in
      let '(exec_count, apply_ops) := collect kExecuteBatchMax s base_seq in
      if (exec_count =? 0)%nat then s
      else
        let s := match apply_ops with
                 | [] => s
                 | _ => s <| kv_ := store_apply apply_ops (kv_ s) |>
                 end in
        let s := complete_all exec_count base_seq s in
        let s := s <| execute_next_ := execute_next_ s +₆₄ Z.of_nat exec_count |> in
        advance_loop fuel' s
  end.

Definition advance_execute_locked (s : Node S) : Node S :=
  advance_loop (Datatypes.S (size (log_ s))) s.

(** ** Message handlers *)

(** [handle_proposal_locked]. *)
Definition handle_proposal_locked (msg : BandleMessage) (advance : bool) (s : Node S) : Node S :=
  let b := m_body msg in
  let slot := slot_of (p_seq b) in
  let e := entry_for (p_seq b) s in
  let bytes := payload_bytes b in
  let '(e, s) :=
    if negb (proposal_known e) then
      let e := e <| proposal_known := true |> <| le_op := p_op b |>
                 <| le_proposer := p_proposer b |> <| le_client_req_id := p_client_req_id b |>
                 <| le_start_tsc := p_start_tsc b |> in
      if decide (p_op b = "G"%char ∨ p_op b = "N"%char) then
        (e <| le_key_len := 0 |> <| le_value_len := 0 |>, s)
      else if bytes <=? kMaxValueBytes then
        (e <| le_key_len := p_key_len b |> <| le_value_len := p_value_len b |>,
         if negb (bytes =? 0)
         then log_payload_set slot
                (memcpy_at (log_payload_at s slot) 0 (take (Z.to_nat bytes) (p_data b))) s
         else s)
      else (e <| le_op := "N"%char |> <| le_key_len := 0 |> <| le_value_len := 0 |>, s)
    else (e, s) in
  let e := e <| decided := true |> <| decision := 1 |> in
  let s := log_set slot e s in
  if advance then advance_execute_locked s else s.

(** [decide_locked]. *)
Definition decide_locked (seq value : Z) (s : Node S) : Node S :=
  let e := entry_for seq s in
  let s := log_set (slot_of seq) e s in
  if decided e then s
  else advance_execute_locked
         (log_set (slot_of seq) (e <| decided := true |> <| decision := value |>) s).

(** [__builtin_popcount] of the 8-bit mask. *)
Definition popcount8 (mask : Z) : Z :=
  Z.of_nat (length (filter (fun i => Z.testbit mask i = true) (seqZ 0 8))).

(** [e.p1_value1_promise_mask |= 1u << (sender - 1)]. *)
Definition add_promise (sender : Z) (e : LogEntry) : LogEntry :=
  e <| p1_value1_promise_mask :=
         Z.lor (p1_value1_promise_mask e) (w8 (Z.shiftl 1 (sender - 1))) |>.

(** [handle_p1_locked]. *)
Definition handle_p1_locked (msg : BandleMessage) (s : Node S) : Node S :=
  let b := m_body msg in
  if negb (p_value b =? 1) || (p_promise b =? 0) || (p_sender b <? 1) ||
     (p_sender b >? cluster_size_ cfg)
  then s
  else
    let e := add_promise (p_sender b) (entry_for (p_seq b) s) in
    let s := log_set (slot_of (p_seq b)) e s in
    if popcount8 (p1_value1_promise_mask e) >=? quorum_ cfg then decide_locked (p_seq b) 1 s else s.

(** [handle_decide_locked]. *)
Definition handle_decide_locked (msg : BandleMessage) (s : Node S) : Node S :=
  let b := m_body msg in
  let e := entry_for (p_seq b) s in
  let e := if negb (decided e) then e <| decided := true |> <| decision := p_value b |> else e in
  advance_execute_locked (log_set (slot_of (p_seq b)) e s).

(** [input_one_locked]: the replica and the messages added to the outbox. *)
Definition input_one_locked (seq : Z) (s : Node S) : Node S * list BandleMessage :=
  let e := entry_for seq s in
  if p1_sent e then (log_set (slot_of seq) e s, [])
  else
    let e := e <| p1_sent := true |> in
    let p1 := {| m_slot_seq := 0; m_type := P1; m_body := {|
      p_seq := seq; p_round := 1; p_sender := node_id_ cfg; p_proposer := le_proposer e;
      p_client_req_id := 0; p_start_tsc := 0; p_value := 1; p_promise := 1; p_op := "N";
      p_reserved0 := 0; p_key_len := 0; p_value_len := 0; p_data := zero_data |} |} in
    let e := add_promise (node_id_ cfg) e in
    let s := log_set (slot_of seq) e s in
    (if popcount8 (p1_value1_promise_mask e) >=? quorum_ cfg then decide_locked seq 1 s else s,
     [p1]).

(** The dispatch on the message type, of [handle_message] ([advance = true])
    and of the loop of [handle_messages_batch] ([advance = false]). *)
Definition handle_one (advance : bool) (msg : BandleMessage) (s : Node S) : Node S :=
  match m_type msg with
  | PROPOSAL => handle_proposal_locked msg advance s
  | P1 => handle_p1_locked msg s
  | DECIDE => handle_decide_locked msg s
  | P2 => s
  end.

Definition handle_message (msg : BandleMessage) (s : Node S) : Node S := handle_one true msg s.

(** One locked region of [handle_messages_batch]: a chunk of messages, then one
    advance if a proposal was among them. *)
Definition handle_chunk (msgs : list BandleMessage) (s : Node S) : Node S :=
  let s := foldl (fun s msg => handle_one false msg s) s msgs in
  if existsb (fun msg => bool_decide (m_type msg = PROPOSAL)) msgs
  then advance_execute_locked s else s.

Definition kHandleChunk : nat := 64.

(** [handle_messages_batch]: the chunks in order ([fuel] at least their
    number). *)
Fixpoint handle_chunks (fuel : nat) (msgs : list BandleMessage) (s : Node S) : Node S :=
  match fuel, msgs with
  | Datatypes.S fuel', _ :: _ =>
      handle_chunks fuel' (drop kHandleChunk msgs) (handle_chunk (take kHandleChunk msgs) s)
  | _, _ => s
  end.

Definition handle_messages_batch (msgs : list BandleMessage) (s : Node S) : Node S :=
  handle_chunks (length msgs) msgs s.

(** ** Submission: [submit_borrowed_batch] *)

(** The message written over the scratch message [old] for a valid request. *)
Definition prepare_proposal (old : BandleMessage) (req : BorrowedRequest) : BandleMessage :=
  let data := p_data (m_body old) in
  let '(key_len, value_len, data) :=
    if decide (br_op req = "G"%char) then (0, 0, data)
    else
      let key_len := Z.min (br_key_len req) kMaxValueBytes in
      let value_len := Z.min (br_value_len req) (kMaxValueBytes - key_len) in
      let data := match br_key_ptr req with
                  | Some key => if negb (key_len =? 0)
                                then memcpy_at data 0 (take (Z.to_nat key_len) key) else data
                  | None => data
                  end in
      let data := match br_value_ptr req with
                  | Some value => if negb (value_len =? 0)
                                  then memcpy_at data (Z.to_nat key_len) (take (Z.to_nat value_len) value)
                                  else data
                  | None => data
                  end in
      (key_len, value_len, data) in
  {| m_slot_seq := 0; m_type := PROPOSAL; m_body := {|
     p_seq := 0; p_round := 1; p_sender := node_id_ cfg; p_proposer := node_id_ cfg;
     p_client_req_id := 0; p_start_tsc := 0; p_value := 1; p_promise := 0; p_op := br_op req;
     p_reserved0 := p_reserved0 (m_body old); p_key_len := key_len; p_value_len := value_len;
     p_data := data |} |}.

(** The first loop: invalid requests are counted as errors, valid ones become
    proposals in the scratch buffer [bufs]. *)
Fixpoint prepare_proposals (reqs : list BorrowedRequest) (bufs : list BandleMessage) (s : Node S)
    : list BandleMessage * Node S :=
  match reqs with
  | [] => ([], s)
  | req :: reqs' =>
      if bool_decide (br_op req = "G"%char) || is_write_op (br_op req) then
        let '(proposals, s) := prepare_proposals reqs' (tail bufs) s in
        (prepare_proposal (default default_message (head bufs)) req :: proposals, s)
      else
        prepare_proposals reqs' bufs
          (s <| error_ops_ := error_ops_ s +₆₄ 1 |> <| total_ops_ := total_ops_ s +₆₄ 1 |>)
  end.

(** Giving one proposal its sequence number and client request id. *)
Definition assign_one (s : Node S) (proposal : BandleMessage) : Node S * BandleMessage :=
  let '(tsc, s) := rdtsc_ordered s in
  let local_id := next_client_req_id_ s in
  let b := m_body proposal in
  let proposal := {| m_slot_seq := m_slot_seq proposal; m_type := m_type proposal; m_body := {|
    p_seq := next_seq_ s; p_round := p_round b; p_sender := p_sender b;
    p_proposer := p_proposer b;
    p_client_req_id := Z.lor (node_id_ cfg <<₆₄ 56) local_id;
    p_start_tsc := tsc; p_value := p_value b; p_promise := p_promise b; p_op := p_op b;
    p_reserved0 := p_reserved0 b; p_key_len := p_key_len b; p_value_len := p_value_len b;
    p_data := p_data b |} |} in
  let s := s <| next_client_req_id_ := local_id +₆₄ 1 |>
             <| highest_proposed_seq_ := Z.max (highest_proposed_seq_ s) (next_seq_ s) |>
             <| next_seq_ := next_seq_ s +₆₄ cluster_size_ cfg |> in
  let p := {| pe_id := p_client_req_id (m_body proposal); pe_op := p_op (m_body proposal);
              pe_start_tsc := tsc; pe_done := false |} in
  let s := pending_set (slot_of local_id) p s in
  (s <| pending_count_ := pending_count_ s +₆₄ 1 |>, proposal).

Fixpoint assign_chunk (s : Node S) (chunk : list BandleMessage) : Node S * list BandleMessage :=
  match chunk with
  | [] => (s, [])
  | proposal :: chunk' =>
      let '(s, p) := assign_one s proposal in
      let '(s, ps) := assign_chunk s chunk' in
      (s, p :: ps)
  end.

(** One attempt of the admission loop: [None] when the chunk does not fit in
    the window and the caller spins. *)
Definition admit_chunk (chunk : list BandleMessage) (s : Node S)
    : option (Node S * list BandleMessage) :=
  let n := Z.of_nat (length chunk) in
  let window := max_inflight_seq_window (w32 n) (cluster_size_ cfg) (admission_window_ cfg) in
  let last_seq := next_seq_ s +₆₄ ((n -₆₄ 1) *₆₄ cluster_size_ cfg) in
  if last_seq <? execute_next_ s +₆₄ window then Some (assign_chunk s chunk) else None.

(** The self-delivery after the broadcast of a chunk. *)
Definition self_deliver (chunk : list BandleMessage) (s : Node S) : Node S :=
  advance_execute_locked (foldl (fun s msg => handle_proposal_locked msg false s) s chunk).

(** The chunks the proposals are admitted in. *)
Fixpoint chunks_of (fuel cap : nat) (msgs : list BandleMessage) : list (list BandleMessage) :=
  match fuel, msgs with
  | Datatypes.S fuel', _ :: _ => take cap msgs :: chunks_of fuel' cap (drop cap msgs)
  | _, _ => []
  end.

Definition submit_chunks (proposals : list BandleMessage) : list (list BandleMessage) :=
  let n := length proposals in
  chunks_of n (Z.to_nat (admission_batch_capacity (Z.of_nat n) (admission_batch_ cfg))) proposals.

(** [mark_input_done]. *)
Definition mark_input_done (s : Node S) : Node S := s <| input_done_ := true |>.

(** The condition [wait_for_all_pending] waits for. *)
Definition all_pending_done (s : Node S) : bool := pending_count_ s =? 0.

(** ** No-ops of the proposer thread *)

(** [all_nodes_finished], over the [node_finished] flags. *)
Definition all_nodes_finished (node_finished : Z → Z) : bool :=
  forallb (fun i => negb (node_finished i =? 0)) (seqZ 1 (cluster_size_ cfg)).

(** [should_propose_noop_locked]. *)
Definition should_propose_noop_locked (finished : bool) (now : Z) (s : Node S) : bool :=
  if negb (input_done_ s) || finished then false
  else if (now -₆₄ last_noop_ns_ s) <? (noop_interval_us_ cfg *₆₄ 1000) then false
  else highest_proposed_seq_ s <? execute_next_ s +₆₄ (cluster_size_ cfg *₆₄ 512).

(** [propose_noop] before the broadcast: the message is built, with the next
    sequence number, before the lock is taken; the locked region then reserves
    a sequence number. *)
Definition noop_proposal (s : Node S) : BandleMessage :=
  {| m_slot_seq := 0; m_type := PROPOSAL; m_body := {|
     p_seq := next_seq_ s; p_round := 1; p_sender := node_id_ cfg; p_proposer := node_id_ cfg;
     p_client_req_id := 0; p_start_tsc := 0; p_value := 1; p_promise := 0; p_op := "N";
     p_reserved0 := 0; p_key_len := 0; p_value_len := 0; p_data := zero_data |} |}.

Definition reserve_noop (now : Z) (s : Node S) : Node S :=
  s <| highest_proposed_seq_ := Z.max (highest_proposed_seq_ s) (next_seq_ s) |>
    <| next_seq_ := next_seq_ s +₆₄ cluster_size_ cfg |>
    <| last_noop_ns_ := now |>.

(** The self-delivery of a no-op. *)
Definition self_deliver_noop (msg : BandleMessage) (s : Node S) : Node S :=
  handle_proposal_locked msg true s.

(** [stats]: the counters and the two histogram snapshots. *)
Record ReplayStats := {
  rs_total_ops : Z; rs_read_ops : Z; rs_write_ops : Z; rs_ok_ops : Z; rs_error_ops : Z;
  rs_read_latency : LatencyHistogram; rs_write_latency : LatencyHistogram
}.

Definition stats (s : Node S) : ReplayStats := {|
  rs_total_ops := total_ops_ s; rs_read_ops := read_ops_ s; rs_write_ops := write_ops_ s;
  rs_ok_ops := ok_ops_ s; rs_error_ops := error_ops_ s;
  rs_read_latency := atomic_snapshot (read_latency_ s);
  rs_write_latency := atomic_snapshot (write_latency_ s) |}.

End Node.

(** The locked regions are unfolded by name only. *)
#[global] Arguments advance_execute_locked : simpl never.
#[global] Arguments handle_proposal_locked : simpl never.
#[global] Arguments handle_chunk : simpl never.
#[global] Arguments self_deliver : simpl never.
