(* ===== verification/Execute.v ===== *)
(** Execution of the decided prefix ([advance_execute_locked]): the batched
    loop is the repeated execution of one entry, it always reaches a state
    whose next entry is not executable, and what it applies to the store is the
    operations of the executed entries in sequence order. *)
From stdpp Require Import relations.
From S2P Require Import Prelude Histogram KVStore Message NodeState Bandle.

(** ** Reference semantics: one entry at a time *)
Section Reference.
Context {S : Type} `{Store : ReplicaStore S}.
Context (hash : bytes → Z) (rdtsc : nat → Z) (cfg : Config).
Implicit Types (s : Node S).

(** The log holds an entry for [seq] that can be executed. *)
Definition ready s (seq : Z) : bool :=
  let e := log_at s (slot_of seq) in
  (le_seq e =? seq) && decided e && (negb (decision e =? 1) || proposal_known e).

Definition executable s : bool := ready s (execute_next_ s).

(** The operations of the entry of [seq] (at most one). *)
Definition entry_ops s (seq : Z) : list ApplyOp :=
  let e := log_at s (slot_of seq) in
  if (decision e =? 1) && is_write_op (le_op e)
  then [apply_op_of hash e (log_payload_at s (slot_of seq))] else [].

(** Executing one entry: apply, complete, clear, move on. *)
Definition exec_one s : Node S :=
  let seq := execute_next_ s in
  let s' := complete_one rdtsc cfg seq
              (s <| kv_ := store_apply (entry_ops s seq) (kv_ s) |>) in
  s' <| execute_next_ := seq +₆₄ 1 |>.

Definition exec_step s s' : Prop := executable s = true ∧ s' = exec_one s.

End Reference.

(** ** Frame lemmas *)
Section Frame.
Context {S : Type}.
Context (rdtsc : nat → Z) (cfg : Config).
Implicit Types (s : Node S).

Lemma set_kv_same s : s <| kv_ := kv_ s |> = s.
Proof. by destruct s. Qed.

Lemma set_exec_twice s n n' : s <| execute_next_ := n |> <| execute_next_ := n' |> =
  s <| execute_next_ := n' |>.
Proof. done. Qed.

Lemma log_at_kv s kv slot : log_at (s <| kv_ := kv |>) slot = log_at s slot.
Proof. done. Qed.

Lemma pending_at_frame s kv n slot :
  pending_at (s <| kv_ := kv |> <| execute_next_ := n |>) slot = pending_at s slot.
Proof. done. Qed.

Lemma log_at_frame s kv n slot :
  log_at (s <| kv_ := kv |> <| execute_next_ := n |>) slot = log_at s slot.
Proof. done. Qed.

(** Completing a request touches neither the log nor the store nor
    [execute_next_], and does not read the latter two. *)
Lemma complete_request_frame e s kv n :
  complete_request rdtsc cfg e (s <| kv_ := kv |> <| execute_next_ := n |>) =
  (complete_request rdtsc cfg e s) <| kv_ := kv |> <| execute_next_ := n |>.
Proof.
  unfold complete_request, rdtsc_ordered. cbv beta iota zeta. rewrite pending_at_frame.
  repeat match goal with
         | |- context [rdtsc (tsc_reads ?x)] =>
             assert_fails (constr_eq x s); change (tsc_reads x) with (tsc_reads s)
         end.
  destruct (decide _); (destruct (_ && _); [|done]); (destruct (_ && _); [|done]);
    repeat match goal with
           | |- context [pending_count_ ?x >? 0] =>
               assert_fails (constr_eq x s); change (pending_count_ x) with (pending_count_ s)
           end; by repeat case_if.
Qed.

Record same_but_requests s s' : Prop := {
  sbr_log : log_ s' = log_ s;
  sbr_payloads : log_payloads_ s' = log_payloads_ s;
  sbr_exec : execute_next_ s' = execute_next_ s;
  sbr_next : next_seq_ s' = next_seq_ s;
  sbr_highest : highest_proposed_seq_ s' = highest_proposed_seq_ s;
  sbr_input : input_done_ s' = input_done_ s;
  sbr_kv : kv_ s' = kv_ s
}.

Lemma complete_request_same e s : same_but_requests s (complete_request rdtsc cfg e s).
Proof. unfold complete_request, rdtsc_ordered. by repeat case_if. Qed.

Lemma complete_one_frame seq s kv n :
  complete_one rdtsc cfg seq (s <| kv_ := kv |> <| execute_next_ := n |>) =
  (complete_one rdtsc cfg seq s) <| kv_ := kv |> <| execute_next_ := n |>.
Proof.
  unfold complete_one. cbv zeta. by rewrite log_at_frame, complete_request_frame.
Qed.

Lemma complete_all_frame k seq s kv n :
  complete_all rdtsc cfg k seq (s <| kv_ := kv |> <| execute_next_ := n |>) =
  (complete_all rdtsc cfg k seq s) <| kv_ := kv |> <| execute_next_ := n |>.
Proof.
  revert seq s. induction k as [|k IH]; intros seq s; [done|]. cbn [complete_all].
  by rewrite complete_one_frame, IH.
Qed.

Lemma complete_one_log seq s slot :
  log_at (complete_one rdtsc cfg seq s) slot =
    if decide (slot_of seq = slot) then reset_log_entry (log_at s slot) 0 else log_at s slot.
Proof.
  unfold complete_one. rewrite log_at_set. case_decide as H; [by rewrite H|].
  unfold log_at. by rewrite (sbr_log _ _ (complete_request_same _ s)).
Qed.

Lemma complete_one_fields seq s :
  let s' := complete_one rdtsc cfg seq s in
  log_payloads_ s' = log_payloads_ s ∧ execute_next_ s' = execute_next_ s ∧
  next_seq_ s' = next_seq_ s ∧ highest_proposed_seq_ s' = highest_proposed_seq_ s ∧
  input_done_ s' = input_done_ s ∧ kv_ s' = kv_ s.
Proof.
  cbv zeta. unfold complete_one. cbn.
  by destruct (complete_request_same (log_at s (slot_of seq)) s) as [_ ? ? ? ? ? ?].
Qed.

Lemma complete_all_exec k seq s :
  execute_next_ (complete_all rdtsc cfg k seq s) = execute_next_ s.
Proof.
  revert seq s. induction k as [|k IH]; intros seq s; [done|]. cbn [complete_all].
  rewrite IH. apply complete_one_fields.
Qed.

End Frame.

(** ** The batched loop *)
Section Advance.
Context {S : Type} `{Store : ReplicaStore S}.
Context (hash : bytes → Z) `{!ReplicaStoreLaws hash S} (rdtsc : nat → Z) (cfg : Config).
Implicit Types (s : Node S).

(** [collect] reads only the cells of its window. *)
Lemma collect_ext n s s' seq :
  (∀ i, 0 ≤ i < Z.of_nat n → log_at s' (slot_of (w64 (seq + i))) = log_at s (slot_of (w64 (seq + i))) ∧
     log_payload_at s' (slot_of (w64 (seq + i))) = log_payload_at s (slot_of (w64 (seq + i)))) →
  is_u64 seq → collect hash n s' seq = collect hash n s seq.
Proof.
  revert seq. induction n as [|n IH]; intros seq Hag Hu; [done|]. cbn [collect].
  destruct (Hag 0 ltac:(lia)) as [Hl Hp]. rewrite Z.add_0_r, w64_small in Hl, Hp by done.
  rewrite Hl, Hp, (IH (seq +₆₄ 1)); [done| |apply w64_range].
  intros i Hi. rewrite w64_add_l. replace (seq + 1 + i) with (seq + (i + 1)) by lia.
  apply Hag. lia.
Qed.

Lemma entry_ops_sharded s seq : Forall (well_sharded hash) (entry_ops hash s seq).
Proof. unfold entry_ops. case_if; repeat constructor. Qed.

Lemma collect_sharded n s seq : Forall (well_sharded hash) (collect hash n s seq).2.
Proof.
  revert seq. induction n as [|n IH]; intros seq; [constructor|]. cbn [collect].
  destruct (_ || _); [constructor|]. destruct (_ && _); [constructor|].
  specialize (IH (seq +₆₄ 1)). destruct (collect hash n s _) as [k rest].
  apply Forall_app. split; [apply entry_ops_sharded|done].
Qed.

(** The first entry [collect] takes. *)
Lemma collect_S n s :
  collect hash (Datatypes.S n) s (execute_next_ s) =
    if executable s then
      let '(k, rest) := collect hash n s (execute_next_ s +₆₄ 1) in
      (Datatypes.S k, entry_ops hash s (execute_next_ s) ++ rest)
    else (O, []).
Proof.
  cbn [collect]. unfold executable, ready, entry_ops. set (e := log_at s _).
  destruct (le_seq e =? _), (decided e), (decision e =? 1), (proposal_known e);
    cbn [negb orb andb]; try done; by destruct (is_write_op _).
Qed.

Lemma exec_one_log s slot :
  log_at (exec_one hash rdtsc cfg s) slot =
    if decide (slot_of (execute_next_ s) = slot) then reset_log_entry (log_at s slot) 0
    else log_at s slot.
Proof. unfold exec_one. cbv zeta. etransitivity; [apply complete_one_log|done]. Qed.

Lemma exec_one_fields s :
  let s' := exec_one hash rdtsc cfg s in
  log_payloads_ s' = log_payloads_ s ∧ execute_next_ s' = execute_next_ s +₆₄ 1 ∧
  next_seq_ s' = next_seq_ s ∧ highest_proposed_seq_ s' = highest_proposed_seq_ s ∧
  input_done_ s' = input_done_ s ∧
  kv_ s' = store_apply (entry_ops hash s (execute_next_ s)) (kv_ s).
Proof.
  cbv zeta. unfold exec_one.
  destruct (complete_one_fields rdtsc cfg (execute_next_ s)
    (s <| kv_ := store_apply (entry_ops hash s (execute_next_ s)) (kv_ s) |>))
    as (?&?&?&?&?&?). done.
Qed.

Lemma exec_one_eq s :
  exec_one hash rdtsc cfg s =
  (complete_one rdtsc cfg (execute_next_ s) s)
    <| kv_ := store_apply (entry_ops hash s (execute_next_ s)) (kv_ s) |>
    <| execute_next_ := execute_next_ s +₆₄ 1 |>.
Proof.
  unfold exec_one. cbv zeta. set (kv := store_apply _ _).
  change (s <| kv_ := kv |>) with (s <| kv_ := kv |> <| execute_next_ := execute_next_ s |>).
  by rewrite complete_one_frame, set_exec_twice.
Qed.

(** A batch collected and completed is as many single steps. *)
Lemma batch_steps n s : Z.of_nat n ≤ 65536 → store_ok (kv_ s) → is_u64 (execute_next_ s) →
  let '(k, ops) := collect hash n s (execute_next_ s) in
  nsteps (exec_step hash rdtsc cfg) k s
    ((complete_all rdtsc cfg k (execute_next_ s) s)
       <| kv_ := store_apply ops (kv_ s) |>
       <| execute_next_ := execute_next_ s +₆₄ Z.of_nat k |>).
Proof.
  revert s. induction n as [|n IH]; intros s Hn Hok Hu.
  { cbn [collect complete_all]. rewrite store_apply_nil, Z.add_0_r, w64_small by done.
    replace (s <| kv_ := _ |> <| execute_next_ := _ |>) with s by (by destruct s). constructor. }
  rewrite collect_S. destruct (executable s) eqn:He; cycle 1.
  { cbn [complete_all]. rewrite store_apply_nil, Z.add_0_r, w64_small by done.
    replace (s <| kv_ := _ |> <| execute_next_ := _ |>) with s by (by destruct s). constructor. }
  set (s1 := exec_one hash rdtsc cfg s).
  destruct (exec_one_fields s) as (Hpay&Hex&_&_&_&Hkv). fold s1 in Hpay, Hex, Hkv.
  set (ops0 := entry_ops hash s (execute_next_ s)) in *.
  destruct (store_apply_law ops0 (kv_ s) Hok (entry_ops_sharded _ _)) as [Hok1 _].
  specialize (IH s1 ltac:(lia)). rewrite Hkv, Hex in IH.
  specialize (IH Hok1 (w64_range _)).
  assert (collect hash n s1 (execute_next_ s +₆₄ 1) = collect hash n s (execute_next_ s +₆₄ 1))
    as Hc.
  { apply collect_ext; [|apply w64_range]. intros i Hi. split.
    - unfold s1. rewrite exec_one_log. case_decide as Hs; [|done]. exfalso.
      rewrite w64_add_l, slot_of_w64, slot_of_mod in Hs.
      apply mod_window_inj in Hs; lia.
    - unfold log_payload_at. by rewrite Hpay. }
  rewrite Hc in IH. destruct (collect hash n s _) as [k rest] eqn:Hr.
  assert (Forall (well_sharded hash) rest) as Hrest.
  { replace rest with (collect hash n s (execute_next_ s +₆₄ 1)).2 by (by rewrite Hr).
    apply collect_sharded. }
  apply nsteps_l with s1; [by split|].
  rewrite store_apply_app by (done || apply entry_ops_sharded).
  cbn [complete_all]. unfold s1 in IH. rewrite exec_one_eq, complete_all_frame in IH.
  fold ops0 in IH. rewrite w64_add_l in IH.
  replace (execute_next_ s + Z.of_nat (Datatypes.S k))
    with (execute_next_ s + 1 + Z.of_nat k) by lia.
  unfold s1. rewrite exec_one_eq. exact IH.
Qed.

(** ** Termination *)

(** The cells still decided: every executed entry clears one. *)
Definition decided_cells s : nat := size (filter (λ '(_, e), decided e = true) (log_ s)).

Lemma decided_cells_size s : (decided_cells s ≤ size (log_ s))%nat.
Proof. unfold decided_cells. apply map_subseteq_size, map_filter_subseteq. Qed.

Lemma exec_step_decreases s s' : exec_step hash rdtsc cfg s s' →
  decided_cells s = Datatypes.S (decided_cells s').
Proof.
  intros [He ->]. unfold executable, ready in He. set (slot := slot_of (execute_next_ s)) in *.
  apply andb_prop in He as [He _]. apply andb_prop in He as [_ Hd].
  unfold log_at in Hd. destruct (log_ s !! slot) as [e|] eqn:Hl; [|done]. cbn in Hd.
  unfold decided_cells. rewrite exec_one_eq. cbn [log_ set_field set_execute_next_ set_kv_].
  unfold complete_one. cbv zeta. cbn [log_ log_set set_field set_log_].
  rewrite (sbr_log _ _ (complete_request_same rdtsc cfg _ _)). fold slot.
  rewrite map_filter_insert_False by done.
  rewrite map_filter_delete, map_size_delete_Some; [|exists e; by apply map_lookup_filter_Some].
  assert (size (filter (λ '(_, e), decided e = true) (log_ s)) ≠ O) as Hn.
  { apply (map_size_ne_0_lookup_2 _ slot). exists e. by apply map_lookup_filter_Some. }
  lia.
Qed.

Lemma exec_nsteps_decreases k s s' : nsteps (exec_step hash rdtsc cfg) k s s' →
  decided_cells s = (k + decided_cells s')%nat.
Proof.
  induction 1 as [|k s s1 s' Hs _ IH]; [done|].
  rewrite (exec_step_decreases _ _ Hs), IH. lia.
Qed.

Lemma collect_zero n s ops : collect hash (Datatypes.S n) s (execute_next_ s) = (O, ops) →
  executable s = false.
Proof. rewrite collect_S. destruct (executable s); [|done]. by destruct (collect _ _ _ _). Qed.

Lemma exec_step_ok s s' : store_ok (kv_ s) → exec_step hash rdtsc cfg s s' →
  store_ok (kv_ s') ∧ is_u64 (execute_next_ s').
Proof.
  intros Hok [_ ->]. destruct (exec_one_fields s) as (_&->&_&_&_&->).
  split; [|apply w64_range]. by apply store_apply_law, entry_ops_sharded.
Qed.

Lemma exec_rtc_ok s s' : store_ok (kv_ s) → is_u64 (execute_next_ s) →
  rtc (exec_step hash rdtsc cfg) s s' → store_ok (kv_ s') ∧ is_u64 (execute_next_ s').
Proof.
  intros Hok Hu H. induction H as [|s s1 s' Hs _ IH]; [done|].
  destruct (exec_step_ok _ _ Hok Hs). by apply IH.
Qed.

(** The body of a round that executes something, as single steps. *)
Lemma round_steps s k ops : store_ok (kv_ s) → is_u64 (execute_next_ s) →
  collect hash kExecuteBatchMax s (execute_next_ s) = (k, ops) →
  let s1 := match ops with [] => s | _ => s <| kv_ := store_apply ops (kv_ s) |> end in
  let s2 := complete_all rdtsc cfg k (execute_next_ s) s1 in
  nsteps (exec_step hash rdtsc cfg) k s (s2 <| execute_next_ := execute_next_ s2 +₆₄ Z.of_nat k |>).
Proof.
  intros Hok Hu Hc s1 s2. pose proof (batch_steps kExecuteBatchMax s) as Hb.
  rewrite Hc in Hb. specialize (Hb ltac:(unfold kExecuteBatchMax; lia) Hok Hu).
  assert (s1 = s <| kv_ := store_apply ops (kv_ s) |> <| execute_next_ := execute_next_ s |>) as Hs1.
  { unfold s1. destruct ops; [|done]. rewrite store_apply_nil. by destruct s. }
  unfold s2. rewrite complete_all_exec, Hs1, complete_all_frame. exact Hb.
Qed.

Lemma advance_loop_steps fuel s : store_ok (kv_ s) → is_u64 (execute_next_ s) →
  (decided_cells s < fuel)%nat →
  rtc (exec_step hash rdtsc cfg) s (advance_loop hash rdtsc cfg fuel s) ∧
  executable (advance_loop hash rdtsc cfg fuel s) = false.
Proof.
  revert s. induction fuel as [|fuel IH]; intros s Hok Hu Hf; [lia|]. cbn [advance_loop].
  destruct (collect hash kExecuteBatchMax s (execute_next_ s)) as [k ops] eqn:Hc.
  destruct (Nat.eqb_spec k 0) as [->|Hk].
  { split; [constructor|]. by apply (collect_zero 255 s ops). }
  pose proof (round_steps s k ops Hok Hu Hc) as Hn. cbv zeta in Hn.
  pose proof (exec_nsteps_decreases _ _ _ Hn) as Hd. apply rtc_nsteps_2 in Hn.
  destruct (exec_rtc_ok _ _ Hok Hu Hn) as [Hok' Hu'].
  destruct (IH _ Hok' Hu') as [Hr He]; [lia|].
  split; [|exact He]. etransitivity; [exact Hn|exact Hr].
Qed.

Lemma advance_steps s : store_ok (kv_ s) → is_u64 (execute_next_ s) →
  rtc (exec_step hash rdtsc cfg) s (advance_execute_locked hash rdtsc cfg s) ∧
  executable (advance_execute_locked hash rdtsc cfg s) = false.
Proof.
  intros. apply advance_loop_steps; [done..|]. pose proof (decided_cells_size s). lia.
Qed.

End Advance.

(** ** Waking the waiter

    [notify_waiter]: [wait_for_all_pending] is notified at the end of an advance
    in which the number of pending requests dropped to zero. *)
Section Notify.
Context {S : Type} `{Store : ReplicaStore S}.
Context (hash : bytes → Z) (rdtsc : nat → Z) (cfg : Config).
Implicit Types (s : Node S).

(** The second loop, setting [notify_waiter]. *)
Fixpoint complete_notify (n : nat) (seq : Z) (s : Node S) (notify : bool) : bool :=
  match n with
  | O => notify
  | Datatypes.S n' =>
      let s' := complete_one rdtsc cfg seq s in
      complete_notify n' (seq +₆₄ 1) s'
        (if (pending_count_ s >? 0) && (pending_count_ s' =? 0) then true else notify)
  end.

(** The outer loop: whether [notify_all] is called when it returns. *)
Fixpoint advance_notify (fuel : nat) (s : Node S) (notify : bool) : bool :=
  match fuel with
  | O => notify
  | Datatypes.S fuel' =>
      let base_seq := execute_next_ s in
      let '(exec_count, apply_ops) := collect hash kExecuteBatchMax s base_seq in
      if (exec_count =? 0)%nat then notify
      else
        let s := match apply_ops with
                 | [] => s
                 | _ => s <| kv_ := store_apply apply_ops (kv_ s) |>
                 end in
        let notify := complete_notify exec_count base_seq s notify in
        let s := complete_all rdtsc cfg exec_count base_seq s in
        advance_notify fuel' (s <| execute_next_ := execute_next_ s +₆₄ Z.of_nat exec_count |>) notify
  end.

Definition advance_notifies (s : Node S) : bool :=
  advance_notify (Datatypes.S (size (log_ s))) s false.

Lemma complete_one_pending seq s : let s' := complete_one rdtsc cfg seq s in
  pending_count_ s' = pending_count_ s ∨
  (0 < pending_count_ s ∧ pending_count_ s' = pending_count_ s - 1).
Proof.
  unfold complete_one, complete_request, rdtsc_ordered. cbv zeta.
  destruct (_ && _); [|by left]. destruct (_ && _); [|by left].
  destruct (decide _); (destruct (_ >? 0) eqn:Hp; [|by left]);
    right; (split; [|done]); rewrite Z.gtb_ltb in Hp; by apply Z.ltb_lt in Hp.
Qed.

Lemma complete_all_pending n seq s :
  0 ≤ pending_count_ s → 0 ≤ pending_count_ (complete_all rdtsc cfg n seq s).
Proof.
  revert seq s. induction n as [|n IH]; intros seq s Hs; [done|]. cbn [complete_all]. apply IH.
  pose proof (complete_one_pending seq s). cbv zeta in *. lia.
Qed.

Lemma complete_notify_spec n seq s notify :
  notify = true ∨ (0 < pending_count_ s ∧ pending_count_ (complete_all rdtsc cfg n seq s) = 0) →
  complete_notify n seq s notify = true.
Proof.
  revert seq s notify. induction n as [|n IH]; intros seq s notify H.
  { destruct H as [|[? ?]]; [done|]. cbn in *. lia. }
  cbn [complete_notify complete_all] in *. apply IH. destruct H as [-> |[Hp Hz]].
  { left. by case_if. }
  set (s' := complete_one rdtsc cfg seq s) in *. rewrite Z.gtb_ltb, (proj2 (Z.ltb_lt _ _) Hp).
  destruct (Z.eqb_spec (pending_count_ s') 0); [by left|]. right. split; [|done].
  pose proof (complete_one_pending seq s) as H. fold s' in H. cbv zeta in H. lia.
Qed.

Lemma advance_notify_spec fuel s notify :
  notify = true ∨ (0 < pending_count_ s ∧ pending_count_ (advance_loop hash rdtsc cfg fuel s) = 0) →
  advance_notify fuel s notify = true.
Proof.
  revert s notify. induction fuel as [|fuel IH]; intros s notify H.
  { destruct H as [|[? ?]]; [done|]. cbn in *. lia. }
  cbn [advance_notify advance_loop] in *. destruct (collect _ _ _ _) as [k ops].
  destruct (k =? 0)%nat; [destruct H as [|[? ?]]; [done|lia]|].
  set (s1 := match ops with [] => s | _ => _ end) in *.
  assert (pending_count_ s1 = pending_count_ s) as Hp1 by (unfold s1; by destruct ops).
  apply IH. destruct H as [->|[Hp Hz]]; [left; apply complete_notify_spec; by left|].
  set (s2 := complete_all _ _ _ _ s1) in *.
  destruct (Z.eq_dec (pending_count_ s2) 0) as [H0|H0].
  - left. apply complete_notify_spec. right. rewrite Hp1. done.
  - right. split; [|done].
    pose proof (complete_all_pending k (execute_next_ s) s1 ltac:(lia)) as Hnn.
    fold s2 in Hnn.
    change (0 < pending_count_ s2). lia.
Qed.

End Notify.

(** ** Properties *)
Section Properties.
Context {S : Type} `{Store : ReplicaStore S}.
Context (hash : bytes → Z) (rdtsc : nat → Z) (cfg : Config).
Implicit Types (s : Node S).

(** C27: advancing terminates and is the repeated execution of the next entry:
    [advance_execute_locked], which collects up to 256 entries, applies their
    writes in one batch and then completes them, ends in the state reached by
    executing one entry at a time until the next one cannot be executed. *)
Theorem advance_is_iterated_execution `{!ReplicaStoreLaws hash S} s
    (Hok : store_ok (kv_ s)) (Hu : is_u64 (execute_next_ s)) :
  rtc (exec_step hash rdtsc cfg) s (advance_execute_locked hash rdtsc cfg s) ∧
  executable (advance_execute_locked hash rdtsc cfg s) = false.
Proof. by apply advance_steps. Qed.

(** A client request is completed at most once: completing the entry of a
    request again counts nothing, records no latency and leaves the number of
    pending requests alone. *)
Theorem completion_is_idempotent (e : LogEntry) s :
  complete_request rdtsc cfg e (complete_request rdtsc cfg e s) = complete_request rdtsc cfg e s.
Proof.
  set (local_id := Z.land (le_client_req_id e) (Z.shiftl 1 56 - 1)).
  assert (∀ s', (∃ p, pending_at s' (slot_of local_id) = p <| pe_done := true |>) →
    complete_request rdtsc cfg e s' = s') as Hdone.
  { intros s' [p Hp]. unfold complete_request. cbv zeta. fold local_id. rewrite Hp.
    cbn [pe_done set_field set_pe_done negb]. rewrite andb_false_r. by case_if. }
  unfold complete_request at 2 3. unfold rdtsc_ordered. cbv zeta. fold local_id.
  destruct (_ && _) eqn:Hmine; cycle 1.
  { unfold complete_request. by rewrite Hmine. }
  destruct ((pe_id _ =? _) && _) eqn:Hopen; cycle 1.
  { unfold complete_request. cbv zeta. fold local_id. by rewrite Hmine, Hopen. }
  apply Hdone. exists (pending_at s (slot_of local_id)).
  repeat case_if; (etransitivity; [apply pending_at_set|]); by rewrite decide_True.
Qed.

(** No wake-up is lost: when an advance completes the last pending request,
    [wait_for_all_pending] is notified at its end. *)
Theorem last_completion_notifies s (Hpending : 0 < pending_count_ s)
    (Hdone : pending_count_ (advance_execute_locked hash rdtsc cfg s) = 0) :
  advance_notifies hash rdtsc cfg s = true.
Proof. apply advance_notify_spec. by right. Qed.

End Properties.
