(* ===== verification/Handlers.v ===== *)
(** The remaining behaviour of one replica: what a handler reads of a message,
    repeated proposals, the promise quorum, decisions against a proposal, and
    the statistics. *)
From stdpp Require Import relations.
From S2P Require Import Prelude Histogram KVStore Message NodeState Bandle Execute.

(** ** What a handler reads of a message *)
Lemma equiv_fields m1 m2 : m1 ≡ m2 →
  let b1 := m_body m1 in let b2 := m_body m2 in
  m_type m1 = m_type m2 ∧ p_seq b1 = p_seq b2 ∧ p_sender b1 = p_sender b2 ∧
  p_proposer b1 = p_proposer b2 ∧ p_client_req_id b1 = p_client_req_id b2 ∧
  p_start_tsc b1 = p_start_tsc b2 ∧ p_value b1 = p_value b2 ∧ p_promise b1 = p_promise b2 ∧
  p_op b1 = p_op b2 ∧ p_key_len b1 = p_key_len b2 ∧ p_value_len b1 = p_value_len b2 ∧
  wire_data m1 = wire_data m2.
Proof. intros [= H1 H2 H3 H4 H5 H6 H7 H8 H9 H10 H11 H12 H13]. done. Qed.

Section Handlers.
Context {S : Type} `{Store : ReplicaStore S}.
Context (hash : bytes → Z) (rdtsc : nat → Z) (cfg : Config).
Implicit Types (s : Node S).

Lemma handle_proposal_equiv m1 m2 advance s : m1 ≡ m2 →
  handle_proposal_locked hash rdtsc cfg m1 advance s = handle_proposal_locked hash rdtsc cfg m2 advance s.
Proof.
  intros H. destruct (equiv_fields _ _ H) as (_&Hq&_&Hp&Hc&Ht&_&_&Ho&Hk&Hv&Hd).
  unfold wire_data in Hd. unfold handle_proposal_locked. cbv zeta.
  assert (payload_bytes (m_body m1) = payload_bytes (m_body m2)) as Hb
    by (unfold payload_bytes; by rewrite Hk, Hv).
  rewrite Hd. rewrite Hb, Hq, Hp, Hc, Ht, Ho, Hk, Hv. done.
Qed.

Lemma handle_one_equiv m1 m2 advance s : m1 ≡ m2 →
  handle_one hash rdtsc cfg advance m1 s = handle_one hash rdtsc cfg advance m2 s.
Proof.
  intros H. unfold handle_one. rewrite (handle_proposal_equiv m1 m2 advance s H).
  destruct (equiv_fields _ _ H) as (Ht&Hq&Hs&_&_&_&Hv&Hpr&_).
  unfold handle_p1_locked, handle_decide_locked. by rewrite Ht, Hq, Hs, Hv, Hpr.
Qed.

(** ** Advancing a replica that waits *)
Lemma advance_waiting s : executable s = false → advance_execute_locked hash rdtsc cfg s = s.
Proof.
  intros He. unfold advance_execute_locked. cbn [advance_loop].
  unfold kExecuteBatchMax. rewrite collect_S, He. done.
Qed.

Lemma executable_log_set s q e : executable s = false → le_seq e = q →
  (q = execute_next_ s → decided e = false ∨ (decision e = 1 ∧ proposal_known e = false)) →
  executable (log_set (slot_of q) e s) = false.
Proof.
  intros He Hq Hblock. unfold executable, ready in *.
  change (execute_next_ (log_set _ _ s)) with (execute_next_ s).
  rewrite log_at_set. case_decide as Hs; [|done]. rewrite Hq.
  destruct (Z.eqb_spec q (execute_next_ s)) as [Hx|]; [|done].
  destruct (Hblock Hx) as [-> |[-> ->]]; [done|]. cbn. by rewrite andb_false_r.
Qed.

(** ** Promises *)

(** The promises of [senders]. *)
Definition promises (senders : list Z) (mask : Z) : Z :=
  foldl (fun mask sender => Z.lor mask (w8 (Z.shiftl 1 (sender - 1)))) mask senders.

Lemma promise_bit sender i : 1 ≤ sender ≤ 3 → 0 ≤ i →
  Z.testbit (w8 (Z.shiftl 1 (sender - 1))) i = bool_decide (i + 1 = sender).
Proof.
  intros Hs Hi. assert (w8 (Z.shiftl 1 (sender - 1)) = 2 ^ (sender - 1)) as ->.
  { assert (sender = 1 ∨ sender = 2 ∨ sender = 3) as [-> |[-> | ->]] by lia; done. }
  rewrite Z.pow2_bits_eqb by lia. destruct (Z.eqb_spec (sender - 1) i).
  - by rewrite bool_decide_true by lia.
  - by rewrite bool_decide_false by lia.
Qed.

Lemma promises_bit senders mask i : Forall (fun x => 1 ≤ x ≤ 3) senders → 0 ≤ i →
  Z.testbit (promises senders mask) i = Z.testbit mask i || bool_decide (i + 1 ∈ senders).
Proof.
  intros Hs Hi. revert mask. induction Hs as [|x senders Hx _ IH]; intros mask.
  { cbn. by rewrite orb_false_r. }
  unfold promises in *. cbn [foldl]. rewrite IH, Z.lor_spec, promise_bit by done.
  rewrite <- orb_assoc. f_equal. rewrite <- bool_decide_or. apply bool_decide_ext.
  by rewrite elem_of_cons.
Qed.

Lemma filter_two {A} (P : A → Prop) `{!∀ x, Decision (P x)} (l : list A) : NoDup l →
  (2 ≤ length (filter P l))%nat ↔ ∃ a b, a ≠ b ∧ a ∈ l ∧ b ∈ l ∧ P a ∧ P b.
Proof.
  intros Hnd. pose proof (NoDup_filter P l Hnd) as Hf. split.
  - intros Hl. destruct (filter P l) as [|a [|b fs]] eqn:Hfl; [cbn in Hl; lia|cbn in Hl; lia|].
    assert (a ∈ filter P l ∧ b ∈ filter P l) as [Ha Hb].
    { rewrite Hfl. split; [left|right; left]. }
    apply list_elem_of_filter in Ha as [? ?]. apply list_elem_of_filter in Hb as [? ?].
    exists a, b. split; [|done]. intros ->. apply NoDup_cons in Hf as [Hn _]. apply Hn. left.
  - intros (a&b&Hne&Ha&Hb&Pa&Pb).
    assert (a ∈ filter P l) as Ha' by (by apply list_elem_of_filter).
    assert (b ∈ filter P l) as Hb' by (by apply list_elem_of_filter).
    destruct (filter P l) as [|x [|y fs]]; [by apply not_elem_of_nil in Ha'| |cbn; lia].
    apply list_elem_of_singleton in Ha', Hb'. congruence.
Qed.

(** The population count of the promise mask reaches 2 exactly when two
    different replicas have promised. *)
Lemma promises_quorum senders : Forall (fun x => 1 ≤ x ≤ 3) senders →
  2 ≤ popcount8 (promises senders 0) ↔ ∃ a b, a ≠ b ∧ a ∈ senders ∧ b ∈ senders.
Proof.
  intros Hs. unfold popcount8.
  pose proof (filter_two (fun i => Z.testbit (promises senders 0) i = true) (seqZ 0 8)
    ltac:(apply NoDup_seqZ)) as Hf.
  split.
  - intros H. destruct (proj1 Hf ltac:(lia)) as (a&b&Hne&Ha&Hb&Pa&Pb).
    apply elem_of_seqZ in Ha, Hb. rewrite promises_bit, Z.bits_0 in Pa, Pb by (done || lia).
    apply bool_decide_eq_true in Pa, Pb. exists (a + 1), (b + 1). split; [lia|done].
  - intros (a&b&Hne&Ha&Hb). apply (proj1 (Nat2Z.inj_le 2 _)), Hf.
    rewrite Forall_forall in Hs. pose proof (Hs a Ha). pose proof (Hs b Hb). exists (a - 1), (b - 1). rewrite !elem_of_seqZ, !promises_bit, !Z.bits_0
      by (lia || by apply Forall_forall).
    split; [lia|]. split; [lia|]. split; [lia|]. cbn [orb]. rewrite !bool_decide_eq_true.
    by rewrite !Z.sub_add.
Qed.

(** A valid promise for position [q]. *)
Record p1_for (q : Z) (m : BandleMessage) : Prop := {
  p1_type : m_type m = P1;
  p1_seq : p_seq (m_body m) = q;
  p1_value : p_value (m_body m) = 1;
  p1_promise : p_promise (m_body m) ≠ 0;
  p1_sender : 1 ≤ p_sender (m_body m) ≤ 3
}.

(** The cell of [q] holds exactly the promises of [senders], and no proposal. *)
Record promised s (q : Z) (senders : list Z) : Prop := {
  pr_seq : le_seq (entry_for q s) = q;
  pr_known : proposal_known (entry_for q s) = false;
  pr_mask : p1_value1_promise_mask (entry_for q s) = promises senders 0;
  pr_decided : decided (entry_for q s) = true ↔ 2 ≤ popcount8 (promises senders 0);
  pr_decision : decided (entry_for q s) = true → decision (entry_for q s) = 1
}.

Lemma log_set_twice slot e e' s : log_set slot e (log_set slot e' s) = log_set slot e s.
Proof. unfold log_set. cbn. by rewrite insert_insert_eq. Qed.

Lemma entry_for_set q e s : le_seq e = q → entry_for q (log_set (slot_of q) e s) = e.
Proof.
  intros Hq. unfold entry_for. rewrite log_at_set, decide_True by done. by rewrite Hq, Z.eqb_refl.
Qed.

Lemma p1_step q senders m s : cluster_size_ cfg = 3 → quorum_ cfg = 2 → executable s = false →
  Forall (fun x => 1 ≤ x ≤ 3) senders → promised s q senders → p1_for q m →
  let s' := handle_message hash rdtsc cfg m s in
  executable s' = false ∧ promised s' q (senders ++ [p_sender (m_body m)]) ∧
  execute_next_ s' = execute_next_ s ∧ kv_ s' = kv_ s.
Proof.
  intros H3 H2 He Hs [Hq Hk Hm Hd Hdec] [Ht Hmq Hv Hp Hx] s'.
  unfold s', handle_message, handle_one. rewrite Ht. unfold handle_p1_locked.
  rewrite Hv, H3, H2, Hmq. rewrite (proj2 (Z.eqb_neq (p_promise _) 0) Hp).
  rewrite (proj2 (Z.ltb_ge (p_sender _) 1)), Z.gtb_ltb, (proj2 (Z.ltb_ge 3 (p_sender _))) by lia.
  cbn [Z.eqb Pos.eqb negb orb]. set (x := p_sender (m_body m)) in *.
  set (e1 := add_promise x (entry_for q s)).
  assert (p1_value1_promise_mask e1 = promises (senders ++ [x]) 0) as Hm1.
  { unfold promises. rewrite foldl_snoc. fold (promises senders 0). by rewrite <- Hm. }
  assert (2 ≤ popcount8 (promises senders 0) → 2 ≤ popcount8 (promises (senders ++ [x]) 0)) as Hmono.
  { rewrite !promises_quorum by (done || by apply Forall_app_2; [done|apply Forall_singleton]).
    intros (a&b&Hne&Ha&Hb). exists a, b. rewrite !elem_of_app. tauto. }
  assert (le_seq e1 = q) as Hq1 by done. assert (proposal_known e1 = false) as Hk1 by done.
  assert (decided e1 = decided (entry_for q s)) as Hd1 by done.
  assert (decision e1 = decision (entry_for q s)) as Hdec1 by done.
  rewrite Hm1. unfold decide_locked. rewrite entry_for_set, log_set_twice by done.
  clearbody e1. destruct (Z.geb_spec (popcount8 (promises (senders ++ [x]) 0)) 2) as [Hge|Hlt].
  - destruct (decided e1) eqn:Hde; cycle 1.
    + rewrite log_set_twice. set (e2 := e1 <| decided := true |> <| decision := 1 |>).
      assert (executable (log_set (slot_of q) e2 s) = false) as He2.
      { apply executable_log_set; [done..|]. intros _. by right. }
      rewrite advance_waiting by done. split; [done|]. split; [|done].
      split; rewrite entry_for_set by done; done.
    + split; [|split; [|done]].
      * apply executable_log_set; [done..|]. intros _. right. split; [|done].
        rewrite Hdec1. apply Hdec. by rewrite <- Hd1.
      * split; rewrite ?entry_for_set by done; try done. intros _. rewrite Hdec1.
        apply Hdec. by rewrite <- Hd1.
  - assert (decided e1 = false) as Hde.
    { destruct (decided e1); [|done]. assert (2 ≤ popcount8 (promises senders 0)) by (by apply Hd).
      specialize (Hmono ltac:(done)). lia. }
    split; [|split; [|done]].
    + apply executable_log_set; [done..|]. intros _. by left.
    + split; rewrite ?entry_for_set by done; try done; rewrite Hde; [|done]. split; [done|lia].
Qed.

Lemma p1_all q senders msgs s : cluster_size_ cfg = 3 → quorum_ cfg = 2 → executable s = false →
  Forall (fun x => 1 ≤ x ≤ 3) senders → promised s q senders → Forall (p1_for q) msgs →
  let s' := foldl (fun s m => handle_message hash rdtsc cfg m s) s msgs in
  promised s' q (senders ++ ((p_sender ∘ m_body) <$> msgs)) ∧
  execute_next_ s' = execute_next_ s ∧ kv_ s' = kv_ s.
Proof.
  intros H3 H2 He Hs Hp Hms. revert senders s He Hs Hp.
  induction Hms as [|m msgs Hm _ IH]; intros senders s He Hs Hp; cbn; [by rewrite app_nil_r|].
  destruct (p1_step q senders m s H3 H2 He Hs Hp Hm) as (He1&Hp1&Hx1&Hk1).
  specialize (IH (senders ++ [p_sender (m_body m)]) _ He1).
  rewrite <- app_assoc in IH. destruct IH as (?&?&?); [|done|by rewrite Hx1, Hk1 in *].
  apply Forall_app_2; [done|]. apply Forall_singleton, Hm.
Qed.

End Handlers.

(** ** Properties *)
Section Properties.
Context {S : Type} `{Store : ReplicaStore S}.
Context (hash : bytes → Z) (rdtsc : nat → Z) (cfg : Config).
Implicit Types (s : Node S).

(** A handler reads nothing of a message but what is transmitted: messages
    that agree on the wire lead to the same replica. *)
Theorem handlers_read_the_wire (m1 m2 : BandleMessage) (Heq : m1 ≡ m2) :
  ∀ advance s, handle_one hash rdtsc cfg advance m1 s = handle_one hash rdtsc cfg advance m2 s.
Proof. intros advance s. by apply handle_one_equiv. Qed.

(** The first proposal for a position wins: once the log knows one, another
    proposal for the position changes neither the entry's operation nor its
    payload, and only marks the entry decided. *)
Theorem first_proposal_wins (msg : BandleMessage) s
    (Hseq : le_seq (log_at s (slot_of (p_seq (m_body msg)))) = p_seq (m_body msg))
    (Hknown : proposal_known (log_at s (slot_of (p_seq (m_body msg)))) = true) :
  let slot := slot_of (p_seq (m_body msg)) in
  handle_proposal_locked hash rdtsc cfg msg false s =
    log_set slot ((log_at s slot) <| decided := true |> <| decision := 1 |>) s.
Proof.
  unfold handle_proposal_locked, entry_for. cbv zeta. rewrite Hseq, Z.eqb_refl. cbn [negb].
  by rewrite Hknown.
Qed.

(** A position is decided by promises exactly when two different replicas
    have promised: after any sequence of valid promises for a position the log
    knows nothing about, its entry is decided (with value 1) iff two of them
    have different senders, and nothing is executed before its proposal
    arrives. *)
Theorem promises_decide_at_quorum (q : Z) (msgs : list BandleMessage) s
    (H3 : cluster_size_ cfg = 3) (H2 : quorum_ cfg = 2) (Hwait : executable s = false)
    (Hfresh : le_seq (log_at s (slot_of q)) ≠ q) (Hmsgs : Forall (p1_for q) msgs) (Hne : msgs ≠ []) :
  let s' := foldl (fun s m => handle_message hash rdtsc cfg m s) s msgs in
  let e := log_at s' (slot_of q) in
  le_seq e = q ∧
  (decided e = true ↔ ∃ m1 m2, m1 ∈ msgs ∧ m2 ∈ msgs ∧ p_sender (m_body m1) ≠ p_sender (m_body m2)) ∧
  (decided e = true → decision e = 1) ∧ execute_next_ s' = execute_next_ s ∧ kv_ s' = kv_ s.
Proof.
  intros s' e.
  assert (promised s q []) as Hp.
  { assert (entry_for q s = reset_log_entry (log_at s (slot_of q)) q) as He.
    { unfold entry_for. by rewrite (proj2 (Z.eqb_neq _ _) Hfresh). }
    by split; rewrite He. }
  destruct (p1_all hash rdtsc cfg q [] msgs s H3 H2 Hwait ltac:(constructor) Hp Hmsgs) as (Hp'&Hx&Hk).
  fold s' in Hp', Hx, Hk. cbn [app] in Hp'.
  assert (le_seq e = q) as Hq.
  { destruct (decide (le_seq e = q)) as [|Hn]; [done|]. exfalso.
    assert (entry_for q s' = reset_log_entry (log_at s' (slot_of q)) q) as He.
    { unfold entry_for. fold e. by rewrite (proj2 (Z.eqb_neq _ _) Hn). }
    destruct Hp' as [_ _ Hm _ _]. rewrite He in Hm. cbn in Hm.
    destruct msgs as [|m msgs]; [done|]. apply Forall_cons in Hmsgs as [Hm0 Hmsgs].
    pose proof (p1_sender _ _ Hm0) as Hx0.
    assert (Forall (fun x => 1 ≤ x ≤ 3) ((p_sender ∘ m_body) <$> m :: msgs)) as Hall.
    { apply Forall_fmap. apply Forall_cons. split; [done|].
      eapply Forall_impl; [exact Hmsgs|]. intros m' Hm'. apply (p1_sender _ _ Hm'). }
    apply (f_equal (fun z => Z.testbit z (p_sender (m_body m) - 1))) in Hm.
    rewrite promises_bit, !Z.bits_0 in Hm by (done || lia).
    rewrite bool_decide_true in Hm; [done|]. rewrite Z.sub_add. left. }
  destruct Hp' as [_ _ _ Hd Hdec].
  assert (entry_for q s' = e) as He by (unfold entry_for; fold e; by rewrite Hq, Z.eqb_refl).
  rewrite He in Hd, Hdec. split; [done|]. split; [|done].
  rewrite Hd, promises_quorum.
  - split.
    + intros (a&b&Hne'&(m1&->&H1)%list_elem_of_fmap&(m2&->&Hm2)%list_elem_of_fmap). by exists m1, m2.
    + intros (m1&m2&H1&Hm2&Hne'). exists (p_sender (m_body m1)), (p_sender (m_body m2)).
      split; [done|]. split; apply list_elem_of_fmap; by eexists.
  - apply Forall_fmap. eapply Forall_impl; [exact Hmsgs|]. intros m' Hm'. apply (p1_sender _ _ Hm').
Qed.

End Properties.

(** ** Concrete inputs *)
Module Examples.
Import KVStore.Examples.

#[local] Instance rep : ReplicaStore KVStore := kv_replica length_hash.

Definition cfg1 : Config := {|
  node_id_ := 1; cluster_size_ := 3; quorum_ := 2; noop_interval_us_ := 1; batch_size_ := 32;
  admission_window_ := 192; admission_batch_ := 32 |}.
Definition clock (n : nat) : Z := 10 * Z.of_nat n.
Definition s0 : Node KVStore := new_node cfg1 empty_store.

Definition message (type : BandleMsgType) (seq sender : Z) (op : ascii) (key value : bytes)
    : BandleMessage := {|
  m_slot_seq := 0; m_type := type; m_body := {|
    p_seq := seq; p_round := 1; p_sender := sender; p_proposer := sender; p_client_req_id := 0;
    p_start_tsc := 0; p_value := 1; p_promise := 1; p_op := op; p_reserved0 := 0;
    p_key_len := Z.of_nat (length key); p_value_len := Z.of_nat (length value);
    p_data := memcpy_at zero_data 0 (key ++ value) |} |}.

Definition put2 : BandleMessage := message PROPOSAL 2 2 "P" (str "k") (str "v").
Definition dirty : BandleMessage := set_data (p_data (m_body put2) ++ str "rest") put2.

Example handlers_read_the_wire_witness :
  handle_one length_hash clock cfg1 true put2 s0 = handle_one length_hash clock cfg1 true dirty s0.
Proof. apply (handlers_read_the_wire length_hash clock cfg1 put2 dirty). by vm_compute. Defined.

Definition s1 : Node KVStore := handle_message length_hash clock cfg1 put2 s0.

Example first_proposal_wins_witness :
  entry_ops length_hash
    (handle_proposal_locked length_hash clock cfg1 (message PROPOSAL 2 3 "D" (str "k") []) false s1) 2 =
  entry_ops length_hash s1 2.
Proof.
  rewrite (first_proposal_wins length_hash clock cfg1 (message PROPOSAL 2 3 "D" (str "k") []) s1);
    by vm_compute.
Defined.

Definition p1s : list BandleMessage :=
  [message P1 5 2 "N" [] []; message P1 5 2 "N" [] []; message P1 5 3 "N" [] []].

Example promises_decide_at_quorum_witness :
  decided (log_at (foldl (fun s m => handle_message length_hash clock cfg1 m s) s0 p1s) (slot_of 5)) = true.
Proof.
  apply (promises_decide_at_quorum length_hash clock cfg1 5 p1s s0).
  - done.
  - done.
  - by vm_compute.
  - by vm_compute.
  - by repeat constructor.
  - done.
  - exists (message P1 5 2 "N" [] []), (message P1 5 3 "N" [] []).
    split; [left|]. split; [right; right; left|]. done.
Defined.

(** Two promises of one replica decide nothing. *)
Example repeated_promise :
  decided (log_at (foldl (fun s m => handle_message length_hash clock cfg1 m s) s0 (take 2 p1s)) (slot_of 5))
  = false.
Proof. by vm_compute. Qed.

(** A write of replica 1 itself, admitted and stored but not executed. *)
Definition own_request : BorrowedRequest := {|
  br_op := "P"; br_key_ptr := Some (str "k"); br_key_len := 1;
  br_value_ptr := Some (str "v"); br_value_len := 1 |}.
Definition admitted : Node KVStore * list BandleMessage :=
  default (s0, []) (admit_chunk clock cfg1 [prepare_proposal cfg1 default_message own_request] s0).
Definition stored : Node KVStore :=
  foldl (fun s msg => handle_proposal_locked length_hash clock cfg1 msg false s) admitted.1
    (admitted.2 ++ [put2]).

#[local] Instance rep_laws : ReplicaStoreLaws length_hash KVStore := kv_replica_laws length_hash.

Example advance_is_iterated_execution_witness :
  executable (advance_execute_locked length_hash clock cfg1 stored) = false.
Proof.
  apply (advance_is_iterated_execution length_hash clock cfg1 stored).
  - exact (empty_store_wf length_hash).
  - by vm_compute.
Defined.

Example last_completion_notifies_witness : advance_notifies length_hash clock cfg1 stored = true.
Proof. apply (last_completion_notifies length_hash clock cfg1 stored); by vm_compute. Defined.

End Examples.
