(* ===== verification/Stats.v ===== *)
(** The statistics of a replica: whatever it does, the counters
    [ReplayStats] reports are consistent with each other and with the latency
    histograms, and a snapshot of an atomic histogram is the histogram. *)
From S2P Require Import Prelude Histogram KVStore Message NodeState Bandle Execute.

(** ** Snapshots of atomic histograms *)
Lemma histogram_index_for_eq v : histogram_index_for v = index_for v.
Proof. done. Qed.

Lemma zsum_app l1 l2 : zsum (l1 ++ l2) = zsum l1 + zsum l2.
Proof. induction l1 as [|x l1 IH]; cbn; [done|]. unfold zsum in *. cbn. lia. Qed.

(** A histogram whose total is the sum of its buckets. *)
Record hist_sum (h : LatencyHistogram) : Prop := {
  hs_wf : hist_wf h;
  hs_total : total_ h = w64 (zsum (counts_ h))
}.

Lemma zsum_replicate n : zsum (replicate n 0) = 0.
Proof. induction n as [|n IH]; [done|]. cbn. unfold zsum in IH. by rewrite IH. Qed.

Lemma empty_hist_sum : hist_sum empty_histogram.
Proof. split; [apply empty_histogram_wf|]. cbn [counts_ empty_histogram]. by rewrite zsum_replicate. Qed.

Lemma zsum_bump cs i c : (i < length cs)%nat →
  w64 (zsum (alter (fun x => x +₆₄ c) i cs)) = w64 (zsum cs + c).
Proof.
  revert i. induction cs as [|x cs IH]; intros i Hi; [cbn in Hi; lia|].
  destruct i as [|i]; cbn [alter list_alter]; unfold zsum; cbn [foldr]; fold (zsum cs).
  - rewrite w64_add_l. f_equal. lia.
  - fold (zsum (alter (fun x => x +₆₄ c) i cs)). rewrite <- w64_add_r.
    fold (@alter nat Z (list Z) _ (fun x => x +₆₄ c) i cs).
    rewrite IH by (cbn in Hi; lia). rewrite w64_add_r. f_equal. lia.
Qed.

Lemma bump_sum idx c h : 0 ≤ idx < BUCKETS → hist_sum h → hist_sum (bump idx c h).
Proof.
  intros Hi [Hwf Ht]. split; [by apply bump_wf|]. cbn [total_ counts_ bump].
  rewrite zsum_bump; [|rewrite (wf_length _ Hwf); lia]. by rewrite Ht, w64_add_l.
Qed.

Lemma atomic_record_sum v h : is_u64 v → hist_sum h →
  hist_sum (atomic_record v h) ∧ total_ (atomic_record v h) = total_ h +₆₄ 1.
Proof.
  intros Hv Hh. unfold atomic_record. rewrite histogram_index_for_eq.
  split; [|done]. apply bump_sum; [by apply index_for_range|done].
Qed.

(** The loop of [snapshot] after [front] of the buckets. *)
Lemma snapshot_from front cs : Forall is_u64 cs → Z.of_nat (length (front ++ cs)) = BUCKETS →
  snapshot_buckets cs (Z.of_nat (length front))
    {| counts_ := front ++ replicate (length cs) 0; total_ := w64 (zsum front) |} =
  {| counts_ := front ++ cs; total_ := w64 (zsum (front ++ cs)) |}.
Proof.
  intros Hcs. revert front. induction Hcs as [|c cs Hc _ IH]; intros front Hl.
  { cbn. by rewrite app_nil_r. }
  rewrite length_app in Hl. cbn [length] in Hl. cbn [snapshot_buckets length replicate].
  set (h := {| counts_ := _; total_ := _ |}).
  assert ((if negb (c =? 0) then add_bucket (Z.of_nat (length front)) c h else h) =
    {| counts_ := (front ++ [c]) ++ replicate (length cs) 0; total_ := w64 (zsum (front ++ [c])) |}) as ->.
  { rewrite <- app_assoc, zsum_app. cbn [app zsum foldr]. rewrite Z.add_0_r.
    destruct (Z.eqb_spec c 0) as [->|Hne]; cbn [negb].
    - unfold h. by rewrite Z.add_0_r.
    - unfold add_bucket. rewrite (proj2 (Z.eqb_neq c 0) Hne).
      rewrite (proj2 (Z.ltb_ge _ 0)), Z.geb_leb, (proj2 (Z.leb_gt BUCKETS _)) by lia. cbn [orb].
      unfold bump, h. cbn [counts_ total_]. rewrite Nat2Z.id, w64_add_l. f_equal.
      rewrite alter_app_r_alt, Nat.sub_diag by lia. cbn. by rewrite w64_small. }
  replace (Z.of_nat (length front) + 1) with (Z.of_nat (length (front ++ [c])))
    by (rewrite length_app; cbn; lia).
  rewrite IH; [by rewrite <- app_assoc|]. rewrite !length_app. cbn [length]. lia.
Qed.

Lemma atomic_snapshot_id h : hist_sum h → atomic_snapshot h = h.
Proof.
  intros [[Hl Hc _] Ht]. destruct h as [cs t]. cbn in *. subst t. unfold atomic_snapshot. cbn [counts_].
  pose proof (snapshot_from [] cs Hc) as Hs. cbn [app length] in Hs. rewrite Hl in Hs.
  apply Hs. done.
Qed.

(** A histogram of [k] recorded samples. *)
Definition samples (k : nat) (h : LatencyHistogram) : Prop :=
  ∃ xs, Forall is_u64 xs ∧ length xs = k ∧ h = record_all xs empty_histogram.

(** The same, the number of samples in a 64-bit counter. *)
Definition latencies (h : LatencyHistogram) (n : Z) : Prop := ∃ k, samples k h ∧ n = w64 (Z.of_nat k).

Lemma samples_empty : samples 0 empty_histogram.
Proof. by exists []. Qed.

Lemma samples_record v h k : is_u64 v → samples k h → samples (1 + k) (atomic_record v h).
Proof.
  intros Hv (xs&Hxs&<-&->). exists (xs ++ [v]). split; [apply Forall_app; by rewrite Forall_singleton|].
  split; [rewrite length_app; apply Nat.add_comm|]. unfold record_all. by rewrite foldl_app.
Qed.

Lemma samples_sum h k : samples k h → hist_sum h ∧ total_ h = w64 (Z.of_nat k).
Proof.
  intros (xs&Hxs&<-&->). induction xs as [|v xs IH] using rev_ind; [split; [apply empty_hist_sum|done]|].
  apply Forall_app in Hxs as [Hxs [Hv _]%Forall_cons]. destruct (IH Hxs) as [Hs Ht].
  unfold record_all. rewrite foldl_app. fold (record_all xs empty_histogram). cbn [foldl].
  destruct (atomic_record_sum v _ Hv Hs) as [Hs' Ht']. split; [exact Hs'|].
  change (record v (record_all xs empty_histogram)) with (atomic_record v (record_all xs empty_histogram)).
  rewrite Ht', Ht, length_app, w64_add_l. f_equal. cbn [length]. lia.
Qed.

Lemma latencies_empty : latencies empty_histogram 0.
Proof. exists O. split; [apply samples_empty|done]. Qed.

Lemma latencies_record v h n : is_u64 v → latencies h n → latencies (atomic_record v h) (n +₆₄ 1).
Proof.
  intros Hv (k&Hk&->). exists (1 + k)%nat. split; [by apply samples_record|]. rewrite w64_add_l. f_equal. lia.
Qed.

Lemma latencies_sum h n : latencies h n → hist_sum h ∧ total_ h = n.
Proof. intros (k&Hk&->). by apply samples_sum. Qed.

(** ** The counters *)

(** The statistics of a replica that has refused [e] requests. *)
Record counters_ok {S} (e : Z) (s : Node S) : Prop := {
  co_total : total_ops_ s = ok_ops_ s +₆₄ error_ops_ s;
  co_ok : ok_ops_ s = read_ops_ s +₆₄ write_ops_ s;
  co_error : error_ops_ s = w64 e;
  co_reads : latencies (read_latency_ s) (read_ops_ s);
  co_writes : latencies (write_latency_ s) (write_ops_ s)
}.

(** What a region that completes no request leaves of the counters. *)
Record same_counters {S} (s s' : Node S) : Prop := {
  sc_total : total_ops_ s' = total_ops_ s;
  sc_ok : ok_ops_ s' = ok_ops_ s;
  sc_error : error_ops_ s' = error_ops_ s;
  sc_read : read_ops_ s' = read_ops_ s;
  sc_write : write_ops_ s' = write_ops_ s;
  sc_rl : read_latency_ s' = read_latency_ s;
  sc_wl : write_latency_ s' = write_latency_ s
}.

Lemma counters_frame {S} e (s s' : Node S) : same_counters s s' → counters_ok e s → counters_ok e s'.
Proof. intros [] []. split; congruence. Qed.

Section Counters.
Context {S : Type} `{Store : ReplicaStore S}.
Context (hash : bytes → Z) (rdtsc : nat → Z) (cfg : Config).
Implicit Types (s : Node S) (n : Z).

Lemma complete_request_counters n e s : counters_ok n s → counters_ok n (complete_request rdtsc cfg e s).
Proof.
  intros Hs. unfold complete_request, rdtsc_ordered. cbv zeta.
  destruct (_ && _); [|done]. destruct (_ && _); [|done].
  set (latency := if rdtsc (tsc_reads s) >=? _ then _ else 0).
  assert (is_u64 latency) as Hlat by (unfold latency; case_if; [apply w64_range|by vm_compute]).
  clearbody latency. destruct Hs as [Ht Ho He Hr Hw].
  pose proof (latencies_record latency _ _ Hlat Hr) as Hr1.
  pose proof (latencies_record latency _ _ Hlat Hw) as Hw1.
  assert (w64 (total_ops_ s + 1) = w64 (w64 (ok_ops_ s + 1) + error_ops_ s)) as Ht'.
  { rewrite Ht, !w64_add_l. f_equal. lia. }
  assert (w64 (ok_ops_ s + 1) = w64 (w64 (read_ops_ s + 1) + write_ops_ s)) as Hor.
  { rewrite Ho, !w64_add_l. f_equal. lia. }
  assert (w64 (ok_ops_ s + 1) = w64 (read_ops_ s + w64 (write_ops_ s + 1))) as How.
  { rewrite Ho, w64_add_l, w64_add_r. f_equal. lia. }
  destruct (decide _); case_if; split;
    first [exact Ht'|exact Hor|exact How|exact He|exact Hr|exact Hw|exact Hr1|exact Hw1].
Qed.

Lemma complete_all_counters n k seq s : counters_ok n s → counters_ok n (complete_all rdtsc cfg k seq s).
Proof.
  revert seq s. induction k as [|k IH]; intros seq s Hs; [done|]. cbn [complete_all]. apply IH.
  unfold complete_one. cbv zeta. eapply counters_frame; [|by apply complete_request_counters]. by split.
Qed.

Lemma advance_loop_counters n fuel s : counters_ok n s → counters_ok n (advance_loop hash rdtsc cfg fuel s).
Proof.
  revert s. induction fuel as [|fuel IH]; intros s Hs; [done|]. cbn [advance_loop].
  destruct (collect _ _ _ _) as [k ops]. case_if; [done|]. apply IH.
  assert (counters_ok n (match ops with [] => s | _ => s <| kv_ := store_apply ops (kv_ s) |> end)) as H1.
  { destruct ops; [done|]. eapply counters_frame; [|exact Hs]. by split. }
  eapply counters_frame; [|by apply complete_all_counters]. by split.
Qed.

Lemma advance_counters n s : counters_ok n s → counters_ok n (advance_execute_locked hash rdtsc cfg s).
Proof. apply advance_loop_counters. Qed.

Lemma log_set_counters n slot e s : counters_ok n s → counters_ok n (log_set slot e s).
Proof. apply counters_frame. by split. Qed.

Lemma payload_set_counters n slot p s : counters_ok n s → counters_ok n (log_payload_set slot p s).
Proof. apply counters_frame. by split. Qed.

Hint Resolve advance_counters log_set_counters payload_set_counters : bandle.

Lemma handle_proposal_counters n msg advance s :
  counters_ok n s → counters_ok n (handle_proposal_locked hash rdtsc cfg msg advance s).
Proof.
  intros Hs. unfold handle_proposal_locked. cbv zeta.
  repeat case_if; auto with bandle.
Qed.

Lemma decide_counters n seq value s :
  counters_ok n s → counters_ok n (decide_locked hash rdtsc cfg seq value s).
Proof. intros Hs. unfold decide_locked. cbv zeta. case_if; auto with bandle. Qed.

Hint Resolve handle_proposal_counters decide_counters : bandle.

Lemma handle_one_counters n advance msg s :
  counters_ok n s → counters_ok n (handle_one hash rdtsc cfg advance msg s).
Proof.
  intros Hs. unfold handle_one, handle_p1_locked, handle_decide_locked. cbv zeta.
  destruct (m_type msg); repeat case_if; auto with bandle.
Qed.

Lemma foldl_counters {A} (P : Node S → Prop) (f : Node S → A → Node S) (l : list A) s :
  (∀ s x, P s → P (f s x)) → P s → P (foldl f s l).
Proof. intros Hf. revert s. induction l as [|x l IH]; intros s Hs; cbn; auto. Qed.

Lemma handle_chunk_counters n msgs s : counters_ok n s → counters_ok n (handle_chunk hash rdtsc cfg msgs s).
Proof.
  intros Hs. unfold handle_chunk.
  assert (counters_ok n (foldl (fun s msg => handle_one hash rdtsc cfg false msg s) s msgs)).
  { apply foldl_counters; [|done]. intros. by apply handle_one_counters. }
  cbv zeta. case_if; auto with bandle.
Qed.

Lemma handle_chunks_counters n fuel msgs s :
  counters_ok n s → counters_ok n (handle_chunks hash rdtsc cfg fuel msgs s).
Proof.
  revert msgs s. induction fuel as [|fuel IH]; intros msgs s Hs; [done|].
  destruct msgs as [|m ms]; [done|]. apply IH. by apply handle_chunk_counters.
Qed.

Lemma self_deliver_counters n msgs s : counters_ok n s → counters_ok n (self_deliver hash rdtsc cfg msgs s).
Proof.
  intros Hs. apply advance_counters, foldl_counters; [|done]. intros. auto with bandle.
Qed.

(** The requests [prepare_proposals] refuses. *)
Definition refused (reqs : list BorrowedRequest) : nat :=
  length (List.filter (λ r, negb (bool_decide (br_op r = "G"%char) || is_write_op (br_op r))) reqs).

Lemma prepare_counters n reqs bufs s :
  counters_ok n s → counters_ok (n + Z.of_nat (refused reqs)) (prepare_proposals cfg reqs bufs s).2.
Proof.
  revert n bufs s. induction reqs as [|req reqs IH]; intros n bufs s Hs; [by rewrite Z.add_0_r|].
  unfold refused. cbn [prepare_proposals List.filter]. destruct (_ || _); cbn [negb].
  - specialize (IH n (List.tl bufs) s Hs). by destruct (prepare_proposals _ _ _ _).
  - cbn [length]. fold (refused reqs). rewrite Nat2Z.inj_succ, <- Z.add_1_l, Z.add_assoc.
    apply IH. destruct Hs as [Ht Ho He ? ?].
    assert (w64 (total_ops_ s + 1) = w64 (ok_ops_ s + w64 (error_ops_ s + 1))).
    { rewrite Ht, w64_add_l, w64_add_r. f_equal. lia. }
    assert (w64 (error_ops_ s + 1) = w64 (n + 1)) by (by rewrite He, w64_add_l).
    by split.
Qed.

Lemma assign_counters n chunk s : counters_ok n s → counters_ok n (assign_chunk rdtsc cfg s chunk).1.
Proof.
  revert s. induction chunk as [|m chunk IH]; intros s Hs; [done|]. cbn [assign_chunk].
  assert (counters_ok n (assign_one rdtsc cfg s m).1) as H1.
  { eapply counters_frame; [|exact Hs]. by split. }
  destruct (assign_one rdtsc cfg s m) as [s1 m1]. specialize (IH s1 H1).
  by destruct (assign_chunk rdtsc cfg s1 chunk).
Qed.

Lemma admit_counters n chunk s s' msgs :
  counters_ok n s → admit_chunk rdtsc cfg chunk s = Some (s', msgs) → counters_ok n s'.
Proof.
  intros Hs. unfold admit_chunk. cbv zeta. case_if; [|done].
  pose proof (assign_counters n chunk s Hs) as Ha. intros [= Heq]. by rewrite Heq in Ha.
Qed.

Lemma direct_apply_counters n op key value s :
  counters_ok n s → counters_ok n (direct_apply op key value s).
Proof. apply counters_frame. unfold direct_apply. by repeat case_if. Qed.

End Counters.

(** ** Properties *)

(** Everything a replica does to its members. *)
Inductive NodeOp :=
| OpPreload (op : ascii) (key value : bytes)
| OpPrepare (reqs : list BorrowedRequest) (bufs : list BandleMessage)
| OpAdmit (chunk : list BandleMessage)
| OpSelfDeliver (chunk : list BandleMessage)
| OpMessage (msg : BandleMessage)
| OpBatch (msgs : list BandleMessage)
| OpStart (now : Z)
| OpInputDone
| OpReserveNoop (now : Z).

Section Properties.
Context {S : Type} `{Store : ReplicaStore S}.
Context (hash : bytes → Z) (rdtsc : nat → Z) (cfg : Config).

Definition apply_node_op (s : Node S) (op : NodeOp) : Node S :=
  match op with
  | OpPreload op key value => direct_apply op key value s
  | OpPrepare reqs bufs => (prepare_proposals cfg reqs bufs s).2
  | OpAdmit chunk => match admit_chunk rdtsc cfg chunk s with Some (s', _) => s' | None => s end
  | OpSelfDeliver chunk => self_deliver hash rdtsc cfg chunk s
  | OpMessage msg => handle_message hash rdtsc cfg msg s
  | OpBatch msgs => handle_messages_batch hash rdtsc cfg msgs s
  | OpStart now => start_node now s
  | OpInputDone => mark_input_done s
  | OpReserveNoop now => reserve_noop cfg now s
  end.

(** Whatever a replica does, in any order, its statistics add up: total is
    ok plus error, ok is reads plus writes (as 64-bit counters), and the two
    latency histograms of the statistics are the recorded ones and count
    exactly the completed reads and the completed writes. *)
Theorem statistics_consistent (kv : S) (ops : list NodeOp) :
  let s := foldl apply_node_op (new_node cfg kv) ops in
  let st := stats s in
  rs_total_ops st = rs_ok_ops st +₆₄ rs_error_ops st ∧
  rs_ok_ops st = rs_read_ops st +₆₄ rs_write_ops st ∧
  total_ (rs_read_latency st) = rs_read_ops st ∧ total_ (rs_write_latency st) = rs_write_ops st ∧
  rs_read_latency st = read_latency_ s ∧ rs_write_latency st = write_latency_ s.
Proof.
  intros s st. assert (∃ n, counters_ok n s) as [n [Ht Ho _ [Hrh Hr]%latencies_sum [Hwh Hw]%latencies_sum]].
  { apply (foldl_counters (λ s, ∃ n, counters_ok n s)); [|by exists 0; split; try apply latencies_empty].
    intros s' op [n Hs']. destruct op; cbn [apply_node_op]; eexists.
    - by apply direct_apply_counters.
    - by apply prepare_counters.
    - destruct (admit_chunk rdtsc cfg chunk s') as [[]|] eqn:Ha; [by eapply admit_counters|done].
    - by apply self_deliver_counters.
    - by apply handle_one_counters.
    - by apply handle_chunks_counters.
    - eapply counters_frame; [|exact Hs']. by split.
    - eapply counters_frame; [|exact Hs']. by split.
    - eapply counters_frame; [|exact Hs']. by split. }
  unfold st, stats. cbn [rs_total_ops rs_ok_ops rs_error_ops rs_read_ops rs_write_ops rs_read_latency rs_write_latency].
  by rewrite !atomic_snapshot_id.
Qed.

End Properties.
