(* ===== verification/Typing.v ===== *)
(** Types of machine words: every member of a replica and every field of a
    message stays a value of its C++ type ([uint64_t], [uint32_t], [uint8_t], a
    character array of its declared length) whatever the replica does.  The
    definitions compute on unbounded integers with the wrap-around written out
    where the code can reach it, so this is the proof that no wrap-around is
    missing. *)
From S2P Require Import Prelude Histogram KVStore Message NodeState Bandle Execute Handlers Stats.

Definition is_u32 (x : Z) : Prop := 0 ≤ x < 2 ^ 32.
Definition is_u8 (x : Z) : Prop := 0 ≤ x < 2 ^ 8.

(** [char data[kMaxValueBytes]]. *)
Definition is_data (p : bytes) : Prop := length p = Z.to_nat kMaxValueBytes.

Record message_typed (m : BandleMessage) : Prop := {
  mt_words : Forall is_u64 [m_slot_seq m; p_seq (m_body m); p_round (m_body m); p_sender (m_body m);
    p_proposer (m_body m); p_client_req_id (m_body m); p_start_tsc (m_body m)];
  mt_bytes : Forall is_u8 [p_value (m_body m); p_promise (m_body m); p_reserved0 (m_body m)];
  mt_lengths : Forall is_u32 [p_key_len (m_body m); p_value_len (m_body m)];
  mt_data : is_data (p_data (m_body m))
}.

Record entry_typed (e : LogEntry) : Prop := {
  et_words : Forall is_u64 [le_seq e; le_proposer e; le_client_req_id e; le_start_tsc e];
  et_bytes : Forall is_u8 [decision e; p1_value1_promise_mask e];
  et_lengths : Forall is_u32 [le_key_len e; le_value_len e]
}.

Definition pending_typed (p : Pending) : Prop := Forall is_u64 [pe_id p; pe_start_tsc p].

Record config_typed (cfg : Config) : Prop := {
  ct_words : Forall is_u64 [node_id_ cfg; cluster_size_ cfg; quorum_ cfg; noop_interval_us_ cfg; admission_window_ cfg];
  ct_u32 : Forall is_u32 [batch_size_ cfg; admission_batch_ cfg]
}.

(** The 64-bit members. *)
Definition word_members {S} (s : Node S) : list Z :=
  [execute_next_ s; next_seq_ s; highest_proposed_seq_ s; last_noop_ns_ s; next_client_req_id_ s;
   pending_count_ s; total_ops_ s; read_ops_ s; write_ops_ s; ok_ops_ s; error_ops_ s].

Record node_typed {S} (s : Node S) : Prop := {
  nt_words : Forall is_u64 (word_members s);
  nt_entries slot : entry_typed (log_at s slot);
  nt_payloads slot : is_data (log_payload_at s slot);
  nt_pending slot : pending_typed (pending_at s slot);
  nt_reads : hist_wf (read_latency_ s);
  nt_writes : hist_wf (write_latency_ s)
}.

Lemma is_u64_max x y : is_u64 x → is_u64 y → is_u64 (Z.max x y).
Proof. unfold is_u64. lia. Qed.

Lemma lor_range x y k : 0 ≤ k → 0 ≤ x < 2 ^ k → 0 ≤ y < 2 ^ k → 0 ≤ Z.lor x y < 2 ^ k.
Proof.
  intros Hk Hx Hy. assert (0 ≤ Z.lor x y) as H0 by (apply Z.lor_nonneg; lia). split; [done|].
  destruct (decide (Z.lor x y = 0)) as [->|Hne]; [lia|].
  apply Z.log2_lt_pow2; [lia|]. rewrite Z.log2_lor by lia.
  assert (∀ z, 0 ≤ z < 2 ^ k → Z.log2 z < k ∨ (z = 0)) as Hlog.
  { intros z Hz. destruct (decide (z = 0)); [by right|]. left. apply Z.log2_lt_pow2; lia. }
  destruct (Hlog x Hx) as [Hlx|Hx0], (Hlog y Hy) as [Hly|Hy0]; subst; [lia| | |by rewrite Z.lor_0_r in Hne].
  - rewrite Z.max_l; [done|]. cbn. apply Z.log2_nonneg.
  - rewrite Z.max_r; [done|]. cbn. apply Z.log2_nonneg.
Qed.

Lemma w8_range x : is_u8 (w8 x).
Proof. unfold is_u8, w8. apply Z.mod_pos_bound. lia. Qed.

Section Typing.
Context {S : Type} `{Store : ReplicaStore S}.
Context (hash : bytes → Z) (rdtsc : nat → Z) (cfg : Config).
Context (Hcfg : config_typed cfg) (Hclock : ∀ n, is_u64 (rdtsc n)).
Implicit Types (s : Node S).

(** Members that change by words that are words. *)
Lemma words_typed s s' : node_typed s → log_ s' = log_ s → log_payloads_ s' = log_payloads_ s →
  pending_ s' = pending_ s → read_latency_ s' = read_latency_ s → write_latency_ s' = write_latency_ s →
  Forall is_u64 (word_members s') → node_typed s'.
Proof.
  intros Hs Hl Hp Hpe Hr Hw Hwords. split; [done|..]; intros; unfold log_at, log_payload_at, pending_at;
    rewrite ?Hl, ?Hp, ?Hpe, ?Hr, ?Hw; apply Hs.
Qed.

Lemma log_set_typed slot e s : node_typed s → entry_typed e → node_typed (log_set slot e s).
Proof.
  intros Hs He. split; try apply Hs. intros slot'. rewrite log_at_set. case_decide; [done|]. apply Hs.
Qed.

Lemma payload_set_typed slot p s : node_typed s → is_data p → node_typed (log_payload_set slot p s).
Proof.
  intros Hs Hp. split; try apply Hs. intros slot'. rewrite log_payload_at_set. case_decide; [done|]. apply Hs.
Qed.

Lemma pending_set_typed slot p s : node_typed s → pending_typed p → node_typed (pending_set slot p s).
Proof.
  intros Hs Hp. split; try apply Hs. intros slot'. rewrite pending_at_set. case_decide; [done|]. apply Hs.
Qed.

Lemma reset_typed e seq : is_u64 seq → entry_typed (reset_log_entry e seq).
Proof. intros Hseq. split; by solve_words. Qed.

Lemma entry_for_typed seq s : node_typed s → is_u64 seq → entry_typed (entry_for seq s).
Proof. intros Hs Hseq. unfold entry_for. cbv zeta. case_if; [by apply reset_typed|apply Hs]. Qed.

Hint Resolve log_set_typed payload_set_typed pending_set_typed reset_typed entry_for_typed : bandle.

Lemma atomic_record_wf v h : hist_wf h → hist_wf (atomic_record v h).
Proof. apply bump_wf. Qed.

(** ** Execution *)
Lemma complete_request_typed e s : node_typed s → node_typed (complete_request rdtsc cfg e s).
Proof.
  intros Hs. unfold complete_request, rdtsc_ordered. cbv zeta.
  destruct (_ && _); [|done]. destruct (_ && _); [|done].
  set (latency := if rdtsc (tsc_reads s) >=? _ then _ else 0). clearbody latency.
  set (slot := slot_of _). clearbody slot.
  pose proof (nt_words _ Hs) as Hw. unfold word_members in Hw. split_words.
  pose proof (atomic_record_wf latency _ (nt_reads _ Hs)). pose proof (atomic_record_wf latency _ (nt_writes _ Hs)).
  assert (pending_typed ((pending_at s slot) <| pe_done := true |>)) as Hp by apply (nt_pending _ Hs slot).
  set (s1 := if decide _ then _ else _).
  assert (node_typed s1 ∧ pending_count_ s1 = pending_count_ s) as [Hs1 Hc1].
  { unfold s1. case_decide; (split; [|done]); split; try apply Hs; try done;
      unfold word_members; cbn; solve_words; auto using w64_range. }
  clearbody s1. eapply (pending_set_typed slot) in Hs1; [|exact Hp].
  set (s2 := pending_set slot _ s1) in *.
  assert (pending_count_ s2 = pending_count_ s) as Hc2 by exact Hc1. clearbody s2.
  pose proof (nt_words _ Hs1) as Hw1. unfold word_members in Hw1. split_words.
  match goal with |- node_typed (if ?c >? 0 then _ else _) => destruct (Z.gtb_spec c 0) as [Hpos|_] end;
    (eapply words_typed; [exact Hs1|done..|]); unfold word_members; cbn; solve_words; auto using w64_range.
  unfold is_u64 in *. cbn in Hpos. lia.
Qed.

Lemma complete_all_typed n seq s : node_typed s → node_typed (complete_all rdtsc cfg n seq s).
Proof.
  revert seq s. induction n as [|n IH]; intros seq s Hs; [done|]. cbn [complete_all]. apply IH.
  unfold complete_one. cbv zeta. apply log_set_typed; [by apply complete_request_typed|by apply reset_typed].
Qed.

(** Updates of members outside the log. *)
Ltac solve_members Hs :=
  let Hw := fresh "Hw" in
  pose proof (nt_words _ Hs) as Hw; unfold word_members in Hw; split_words;
  eapply words_typed; [exact Hs|done..|]; unfold word_members; cbn; solve_words;
  auto using w64_range, is_u64_max.

Lemma advance_loop_typed fuel s : node_typed s → node_typed (advance_loop hash rdtsc cfg fuel s).
Proof.
  revert s. induction fuel as [|fuel IH]; intros s Hs; [done|]. cbn [advance_loop].
  destruct (collect _ _ _ _) as [k ops]. case_if; [done|]. apply IH.
  assert (node_typed (match ops with [] => s | _ => s <| kv_ := store_apply ops (kv_ s) |> end)) as H1.
  { destruct ops; [done|]. by solve_members Hs. }
  pose proof (complete_all_typed k (execute_next_ s) _ H1) as H2. by solve_members H2.
Qed.

Lemma advance_typed s : node_typed s → node_typed (advance_execute_locked hash rdtsc cfg s).
Proof. apply advance_loop_typed. Qed.

Hint Resolve advance_typed : bandle.

(** ** Handlers *)
Lemma decided_typed e value : entry_typed e → is_u8 value →
  entry_typed (e <| decided := true |> <| decision := value |>).
Proof.
  intros [Hw Hb Hl] Hv. split; cbn; try done. split_words. by solve_words.
Qed.

Lemma promise_typed e sender : entry_typed e → entry_typed (add_promise sender e).
Proof.
  intros [Hw Hb Hl]. split; cbn; try done. split_words. solve_words; [done|].
  apply lor_range; [lia|done|]. apply w8_range.
Qed.

(** The members of a message, one by one. *)
Lemma message_fields m : message_typed m → let b := m_body m in
  (is_u64 (p_seq b) ∧ is_u64 (p_proposer b) ∧ is_u64 (p_client_req_id b) ∧ is_u64 (p_start_tsc b)) ∧
  is_u8 (p_value b) ∧ is_u32 (p_key_len b) ∧ is_u32 (p_value_len b).
Proof. intros [Hw Hb Hl Hd]. split_words. by split_and!. Qed.

Hint Resolve decided_typed promise_typed : bandle.

Lemma handle_proposal_typed msg advance s : message_typed msg → node_typed s →
  node_typed (handle_proposal_locked hash rdtsc cfg msg advance s).
Proof.
  intros Hm Hs. destruct (message_fields msg Hm) as [(Hq&Hp&Hc&Ht) (_&Hk&Hv)].
  unfold handle_proposal_locked. cbv zeta.
  set (es := if negb (proposal_known _) then _ else _).
  assert (entry_typed es.1 ∧ node_typed es.2) as [He Hs'].
  { unfold es. pose proof (entry_for_typed (p_seq (m_body msg)) s Hs Hq) as He.
    set (e := entry_for _ s) in *. case_if; [|done].
    set (e1 := e <| proposal_known := true |> <| le_op := _ |> <| le_proposer := _ |>
      <| le_client_req_id := _ |> <| le_start_tsc := _ |>).
    assert (∀ k v, is_u32 k → is_u32 v → entry_typed (e1 <| le_key_len := k |> <| le_value_len := v |>)) as H1.
    { intros k v ??. destruct He as [Hw Hb Hl]. split; cbn; split_words; by solve_words. }
    case_decide; [split; [by apply H1|done]|]. destruct (Z.leb_spec (payload_bytes (m_body msg)) kMaxValueBytes).
    - split; [by apply H1|]. case_if; [|done]. apply payload_set_typed; [done|].
      unfold is_data. rewrite length_memcpy_at; [apply (nt_payloads _ Hs)|].
      rewrite length_take, (mt_data _ Hm), (nt_payloads _ Hs). lia.
    - split; [|done]. destruct He as [Hw Hb Hl]. split; cbn; split_words; by solve_words. }
  destruct es as [e s']. cbn in He, Hs'. case_if; [apply advance_typed|]; by apply log_set_typed, decided_typed.
Qed.

Lemma decide_typed seq value s : is_u64 seq → is_u8 value → node_typed s →
  node_typed (decide_locked hash rdtsc cfg seq value s).
Proof. intros Hq Hv Hs. unfold decide_locked. cbv zeta. case_if; auto 6 with bandle. Qed.

Hint Resolve handle_proposal_typed decide_typed : bandle.

Lemma handle_one_typed advance msg s : message_typed msg → node_typed s →
  node_typed (handle_one hash rdtsc cfg advance msg s).
Proof.
  intros Hm Hs. destruct (message_fields msg Hm) as [(Hq&_) (Hv&_)].
  unfold handle_one, handle_p1_locked, handle_decide_locked. cbv zeta.
  assert (is_u8 1) by done.
  destruct (m_type msg); repeat case_if; auto 6 with bandle.
Qed.

Lemma foldl_typed {A} (P : A → Prop) (f : Node S → A → Node S) (l : list A) s :
  (∀ s x, P x → node_typed s → node_typed (f s x)) → Forall P l → node_typed s → node_typed (foldl f s l).
Proof. intros Hf Hl. revert s. induction Hl as [|x l Hx _ IH]; intros s Hs; cbn; auto. Qed.

Lemma handle_chunk_typed msgs s : Forall message_typed msgs → node_typed s →
  node_typed (handle_chunk hash rdtsc cfg msgs s).
Proof.
  intros Hm Hs. unfold handle_chunk. cbv zeta.
  assert (node_typed (foldl (fun s msg => handle_one hash rdtsc cfg false msg s) s msgs)).
  { apply (foldl_typed message_typed); [|done..]. intros. by apply handle_one_typed. }
  case_if; auto with bandle.
Qed.

Lemma handle_chunks_typed fuel msgs s : Forall message_typed msgs → node_typed s →
  node_typed (handle_chunks hash rdtsc cfg fuel msgs s).
Proof.
  revert msgs s. induction fuel as [|fuel IH]; intros msgs s Hm Hs; [done|]. cbn [handle_chunks].
  destruct msgs as [|m ms]; [done|]. apply IH; [by apply Forall_drop|].
  apply handle_chunk_typed; [by apply Forall_take|done].
Qed.

Lemma self_deliver_typed msgs s : Forall message_typed msgs → node_typed s →
  node_typed (self_deliver hash rdtsc cfg msgs s).
Proof.
  intros Hm Hs. apply advance_typed, (foldl_typed message_typed); [|done..]. auto with bandle.
Qed.

(** ** Submission *)
Definition request_typed (req : BorrowedRequest) : Prop := is_u32 (br_key_len req) ∧ is_u32 (br_value_len req).

Lemma prepared_data old req : is_data (p_data (m_body old)) → request_typed req →
  is_data (p_data (m_body (prepare_proposal cfg old req))).
Proof.
  intros Hd [Hk Hv]. unfold is_data, is_u32, prepare_proposal in *. cbn. case_decide; [done|].
  set (key_len := Z.min _ kMaxValueBytes). set (value_len := Z.min _ (kMaxValueBytes - key_len)).
  assert (0 ≤ key_len ∧ 0 ≤ value_len ∧ key_len + value_len ≤ kMaxValueBytes) as Hb
    by (unfold key_len, value_len, kMaxValueBytes in *; lia). clearbody key_len value_len.
  set (data := match br_key_ptr req with Some _ => _ | None => _ end).
  assert (length data = Z.to_nat kMaxValueBytes) as Hd1.
  { unfold data. destruct (br_key_ptr req); [|done]. case_if; [|done].
    rewrite length_memcpy_at; [done|]. rewrite length_take, Hd. lia. }
  clearbody data. destruct (br_value_ptr req); [|done]. case_if; [|done]. cbn [p_data m_body].
  rewrite length_memcpy_at; [done|]. rewrite length_take, Hd1. lia.
Qed.

Lemma prepare_proposal_typed old req : message_typed old → request_typed req →
  message_typed (prepare_proposal cfg old req).
Proof.
  intros Ho Hr. split; [| | |apply prepared_data; [apply Ho|done]].
  - pose proof (ct_words _ Hcfg). split_words. unfold prepare_proposal. cbn.
    by case_decide; cbn; solve_words.
  - pose proof (mt_bytes _ Ho). split_words. unfold prepare_proposal. cbn. by case_decide; cbn; solve_words.
  - destruct Hr as [Hk Hv]. unfold prepare_proposal, is_u32, kMaxValueBytes in *. cbn.
    case_decide; cbn; solve_words; unfold is_u32; lia.
Qed.

Lemma default_message_typed : message_typed default_message.
Proof. split; cbn; [by solve_words..|]. unfold is_data, zero_data. by rewrite length_replicate. Qed.

Lemma prepare_typed reqs bufs s : Forall request_typed reqs → Forall message_typed bufs → node_typed s →
  Forall message_typed (prepare_proposals cfg reqs bufs s).1 ∧ node_typed (prepare_proposals cfg reqs bufs s).2.
Proof.
  intros Hreqs. revert bufs s. induction Hreqs as [|req reqs Hr _ IH]; intros bufs s Hb Hs; [by split|].
  cbn [prepare_proposals]. destruct (_ || _).
  - assert (message_typed (default default_message (head bufs)) ∧ Forall message_typed (tail bufs)) as [Hh Ht].
    { destruct Hb; [|done]. split; [apply default_message_typed|done]. }
    specialize (IH _ _ Ht Hs). destruct (prepare_proposals _ _ _ _) as [ps s']. destruct IH as [Hps Hs'].
    split; [|done]. apply Forall_cons. split; [by apply prepare_proposal_typed|done].
  - apply IH; [done|]. by solve_members Hs.
Qed.

Lemma assign_one_typed s proposal : node_typed s → message_typed proposal →
  node_typed (assign_one rdtsc cfg s proposal).1 ∧ message_typed (assign_one rdtsc cfg s proposal).2.
Proof.
  intros Hs Hm. pose proof (nt_words _ Hs) as Hw. unfold word_members in Hw. split_words.
  assert (is_u64 (Z.lor (node_id_ cfg <<₆₄ 56) (next_client_req_id_ s))) as Hid.
  { apply lor_range; [lia|apply w64_range|done]. }
  split.
  - unfold assign_one, rdtsc_ordered. cbn [fst]. set (slot := slot_of _). set (p := {| pe_id := _ |}).
    assert (pending_typed p) as Hp by (unfold pending_typed, p; cbn; solve_words; [exact Hid|apply Hclock]).
    assert (node_typed (pending_set slot p s)) as Hs1 by auto with bandle. by solve_members Hs1.
  - destruct Hm as [Hmw Hmb Hml Hmd]. split; cbn; split_words; [solve_words..|done]; done || apply Hclock.
Qed.

Lemma assign_typed chunk s : node_typed s → Forall message_typed chunk →
  node_typed (assign_chunk rdtsc cfg s chunk).1 ∧ Forall message_typed (assign_chunk rdtsc cfg s chunk).2.
Proof.
  intros Hs Hc. revert s Hs. induction Hc as [|m chunk Hm _ IH]; intros s Hs; [by split|].
  cbn [assign_chunk]. destruct (assign_one_typed s m Hs Hm) as [H1 H2].
  destruct (assign_one rdtsc cfg s m) as [s1 m1]. specialize (IH s1 H1).
  destruct (assign_chunk rdtsc cfg s1 chunk) as [s2 ms]. destruct IH as [H3 H4].
  split; [done|]. by apply Forall_cons.
Qed.

Lemma admit_typed chunk s s' ms : node_typed s → Forall message_typed chunk →
  admit_chunk rdtsc cfg chunk s = Some (s', ms) → node_typed s' ∧ Forall message_typed ms.
Proof.
  intros Hs Hc. unfold admit_chunk. cbv zeta. case_if; [|done].
  pose proof (assign_typed chunk s Hs Hc) as H. intros [= Heq]. by rewrite Heq in H.
Qed.

Lemma noop_typed s : node_typed s → message_typed (noop_proposal cfg s).
Proof.
  intros Hs. pose proof (nt_words _ Hs) as Hw. unfold word_members in Hw. pose proof (ct_words _ Hcfg). split_words.
  split; cbn; [by solve_words..|]. unfold is_data, zero_data. by rewrite length_replicate.
Qed.

Lemma new_node_typed (kv : S) : node_typed (new_node cfg kv).
Proof.
  pose proof (ct_words _ Hcfg). split_words. split; try apply empty_histogram_wf.
  - unfold word_members. cbn. by solve_words.
  - intros slot. unfold log_at. cbn. split; by solve_words.
  - intros slot. unfold log_payload_at, is_data, zero_data. cbn [default log_payloads_ new_node].
    rewrite lookup_empty. cbn [default]. by rewrite length_replicate.
  - intros slot. unfold pending_at. cbn. unfold pending_typed. cbn. by solve_words.
Qed.

(** The arguments of an operation have their types. *)
Definition op_typed (op : NodeOp) : Prop :=
  match op with
  | OpPreload _ _ _ | OpInputDone => True
  | OpPrepare reqs bufs => Forall request_typed reqs ∧ Forall message_typed bufs
  | OpAdmit msgs | OpSelfDeliver msgs | OpBatch msgs => Forall message_typed msgs
  | OpMessage msg => message_typed msg
  | OpStart now | OpReserveNoop now => is_u64 now
  end.

Lemma apply_typed op s : op_typed op → node_typed s → node_typed (apply_node_op hash rdtsc cfg s op).
Proof.
  intros Ho Hs. destruct op; cbn [apply_node_op op_typed] in *.
  - unfold direct_apply. repeat case_if; by solve_members Hs.
  - destruct Ho. by apply prepare_typed.
  - destruct (admit_chunk rdtsc cfg chunk s) as [[s' ms]|] eqn:Ha; [|done]. by apply admit_typed in Ha as [].
  - by apply self_deliver_typed.
  - by apply handle_one_typed.
  - by apply handle_chunks_typed.
  - by solve_members Hs.
  - by solve_members Hs.
  - by solve_members Hs.
Qed.

End Typing.

(** ** Properties *)
Section Properties.
Context {S : Type} `{Store : ReplicaStore S}.
Context (hash : bytes → Z) (rdtsc : nat → Z) (cfg : Config).

(** C23: types are preserved: started from its constructor and driven by any
    sequence of operations with well-typed arguments, a replica keeps every
    member a value of its C++ type, and the messages it builds (the proposals
    of a batch, the same once they are numbered, and a no-op) are well-typed
    too, so they can be handed to any operation of any replica. *)
Theorem replica_members_keep_their_types (kv : S) (ops : list NodeOp) (Hcfg : config_typed cfg)
    (Hclock : ∀ n, is_u64 (rdtsc n)) (Hops : Forall op_typed ops) :
  let s := foldl (apply_node_op hash rdtsc cfg) (new_node cfg kv) ops in
  node_typed s ∧
  (∀ reqs bufs, Forall request_typed reqs → Forall message_typed bufs →
    Forall message_typed (prepare_proposals cfg reqs bufs s).1) ∧
  (∀ chunk s' ms, Forall message_typed chunk → admit_chunk rdtsc cfg chunk s = Some (s', ms) →
    Forall message_typed ms) ∧
  message_typed (noop_proposal cfg s).
Proof.
  intros s. assert (node_typed s) as Hs.
  { apply (foldl_typed op_typed); [|done|by apply new_node_typed]. intros s' op ??. by apply apply_typed. }
  split; [done|]. split; [|split].
  - intros reqs bufs ??. by apply prepare_typed.
  - intros chunk s' ms Hc Ha. by eapply admit_typed.
  - by apply noop_typed.
Qed.

End Properties.

(** ** Concrete inputs *)
Module Examples.
Import KVStore.Examples Handlers.Examples.

#[local] Instance rep : ReplicaStore KVStore := kv_replica length_hash.

Definition wrapping_clock (n : nat) : Z := w64 (10 * Z.of_nat n).

(** A put is prepared, admitted and delivered to its own replica; the others
    send a promise. *)
Definition put_request : BorrowedRequest :=
  {| br_op := "P"; br_key_ptr := Some (str "k"); br_key_len := 1; br_value_ptr := Some (str "v"); br_value_len := 1 |}.
Definition prepared : list BandleMessage := (prepare_proposals cfg1 [put_request] [] s0).1.
Definition typed_ops : list NodeOp :=
  [OpStart 3; OpPrepare [put_request] []; OpAdmit prepared; OpBatch [message P1 5 2 "N" [] []]; OpInputDone; OpReserveNoop 7].

Lemma replica_members_keep_their_types_witness :
  next_seq_ (foldl (apply_node_op length_hash wrapping_clock cfg1) (new_node cfg1 empty_store) typed_ops) = 7 ∧
  node_typed (foldl (apply_node_op length_hash wrapping_clock cfg1) (new_node cfg1 empty_store) typed_ops).
Proof.
  split; [by vm_compute|].
  refine (proj1 (replica_members_keep_their_types length_hash wrapping_clock cfg1 empty_store typed_ops _ _ _)).
  - split; eval_forall.
  - intros n. apply w64_range.
  - unfold typed_ops. apply List.Forall_cons; [done|].
    apply List.Forall_cons; [split; [eval_forall|done]|].
    apply List.Forall_cons; [apply List.Forall_cons; [by repeat split; try eval_forall|done]|].
    apply List.Forall_cons; [apply List.Forall_cons; [by repeat split; try eval_forall|done]|].
    apply List.Forall_cons; [done|]. apply List.Forall_cons; [by vm_compute|done].
Defined.

End Examples.
