(* ===== verification/Replica.v ===== *)
(** What one replica promises: it executes exactly the proposals delivered to
    it, in sequence order, whatever order they arrive in.  [replica_inv D s]
    relates the replica [s] to the proposals [D] delivered to it so far. *)
From stdpp Require Import relations.
From S2P Require Import Prelude Histogram KVStore Message NodeState Bandle Execute.

(** ** Proposals *)

(** A proposal as the submit path and the proposer thread build them, or as
    it arrives from a ring: its lengths fit the payload area. *)
Record proposal_ok (m : BandleMessage) : Prop := {
  pok_type : m_type m = PROPOSAL;
  pok_key : 0 ≤ p_key_len (m_body m) < 2 ^ 32;
  pok_value : 0 ≤ p_value_len (m_body m) < 2 ^ 32;
  pok_bytes : payload_bytes (m_body m) ≤ kMaxValueBytes;
  pok_data : payload_bytes (m_body m) ≤ Z.of_nat (length (p_data (m_body m)))
}.

Lemma pok_sum m : proposal_ok m →
  payload_bytes (m_body m) = p_key_len (m_body m) + p_value_len (m_body m).
Proof. intros [_ ? ? _ _]. apply w64_small. unfold is_u64. lia. Qed.

Lemma proposal_ok_wire m : proposal_ok m ↔ m_type m = PROPOSAL ∧ proposal_ok (wire m).
Proof.
  assert (payload_bytes (m_body (wire m)) = payload_bytes (m_body m)) as Hb by done.
  assert (length (p_data (m_body (wire m))) =
    Nat.min (Z.to_nat (payload_bytes (m_body m))) (length (p_data (m_body m)))) as Hd.
  { apply length_take. }
  split.
  - intros Hok. pose proof (pok_sum m Hok). destruct Hok as [Ht ? ? ? ?]. split; [done|].
    split; rewrite ?Hb, ?Hd; (done || lia).
  - intros [Ht [_ ? ? Hm Hl]]. rewrite Hb, ?Hd in *. split; (done || lia).
Qed.

(** The write a proposal asks for (none for a read or a no-op). *)
Definition message_ops (hash : bytes → Z) (m : BandleMessage) : list ApplyOp :=
  let b := m_body m in
  let key := take (Z.to_nat (p_key_len b)) (p_data b) in
  if is_write_op (p_op b) then [{|
    ao_op := p_op b;
    ao_shard := get_shard_idx hash key;
    ao_key := key;
    ao_value := if decide (p_op b = "D"%char) then []
                else take (Z.to_nat (p_value_len b)) (drop (Z.to_nat (p_key_len b)) (p_data b)) |}]
  else [].

(** Lists that agree on a prefix hold the same key and the same value in it. *)
Lemma take_drop_prefix {A} k v n (l l' : list A) : (k + v ≤ n)%nat → take n l = take n l' →
  take k l = take k l' ∧ take v (drop k l) = take v (drop k l').
Proof.
  assert (∀ j, (j ≤ n)%nat → take n l = take n l' → take j l = take j l') as Htake.
  { intros j Hj Heq. replace j with (j `min` n)%nat by lia. by rewrite <- !take_take, Heq. }
  intros Hk Heq. split; [by apply Htake; [lia|]|].
  rewrite !firstn_skipn_comm. f_equal. apply Htake; [lia|done].
Qed.

Lemma message_ops_wire hash m : proposal_ok m → message_ops hash (wire m) = message_ops hash m.
Proof.
  intros Hok. pose proof (pok_sum m Hok). destruct Hok as [_ ? ? _ ?].
  unfold message_ops. cbn [m_body wire p_op p_key_len p_value_len p_data]. unfold wire_data.
  destruct (take_drop_prefix (Z.to_nat (p_key_len (m_body m))) (Z.to_nat (p_value_len (m_body m)))
    (Z.to_nat (payload_bytes (m_body m)))
    (take (Z.to_nat (payload_bytes (m_body m))) (p_data (m_body m))) (p_data (m_body m)))
    as [-> ->]; [lia|by rewrite take_take, Nat.min_id|done].
Qed.

Lemma message_ops_sharded hash m : Forall (well_sharded hash) (message_ops hash m).
Proof. unfold message_ops. case_if; repeat constructor. Qed.

(** ** Frames *)

(** Everything but the log, its payloads and the client requests. *)
Record same_outside_log {S} (s s' : Node S) : Prop := {
  sol_exec : execute_next_ s' = execute_next_ s;
  sol_next : next_seq_ s' = next_seq_ s;
  sol_highest : highest_proposed_seq_ s' = highest_proposed_seq_ s;
  sol_input : input_done_ s' = input_done_ s;
  sol_kv : kv_ s' = kv_ s
}.

(** ** Delivery of one proposal *)
Section Deliver.
Context {S : Type} `{Store : ReplicaStore S}.
Context (hash : bytes → Z) (rdtsc : nat → Z) (cfg : Config).
Implicit Types (s : Node S).

(** The log entry of [seq] holds the proposal [m], decided. *)
Record holds s (seq : Z) (m : BandleMessage) : Prop := {
  holds_seq : le_seq (log_at s (slot_of seq)) = seq;
  holds_known : proposal_known (log_at s (slot_of seq)) = true;
  holds_decided : decided (log_at s (slot_of seq)) = true;
  holds_decision : decision (log_at s (slot_of seq)) = 1;
  holds_proposer : le_proposer (log_at s (slot_of seq)) = p_proposer (m_body m);
  holds_req_id : le_client_req_id (log_at s (slot_of seq)) = p_client_req_id (m_body m);
  holds_ops : entry_ops hash s seq = message_ops hash m
}.

Lemma holds_ready s seq m : holds s seq m → ready s seq = true.
Proof.
  intros [Hq Hk Hd _ _ _ _]. unfold ready. rewrite Hq, Hk, Hd, Z.eqb_refl. cbn.
  by rewrite orb_true_r.
Qed.

(** The cell of [seq] is free for it. *)
Definition unknown s (seq : Z) : Prop :=
  le_seq (log_at s (slot_of seq)) ≠ seq ∨ proposal_known (log_at s (slot_of seq)) = false.

Lemma entry_for_fresh s seq : unknown s seq →
  proposal_known (entry_for seq s) = false ∧ le_seq (entry_for seq s) = seq.
Proof.
  unfold entry_for, unknown. destruct (Z.eqb_spec (le_seq (log_at s (slot_of seq))) seq); cbn; [|done].
  intros [?|?]; done.
Qed.

(** The cell a fresh proposal is stored in, and the bytes copied with it. *)
Lemma deliver_shape s msg : proposal_ok msg → unknown s (p_seq (m_body msg)) →
  let b := m_body msg in let slot := slot_of (p_seq b) in
  ∃ e s1, handle_proposal_locked hash rdtsc cfg msg false s = log_set slot e s1 ∧
    le_seq e = p_seq b ∧ proposal_known e = true ∧ decided e = true ∧ decision e = 1 ∧
    le_op e = p_op b ∧ le_proposer e = p_proposer b ∧ le_client_req_id e = p_client_req_id b ∧
    (is_write_op (p_op b) = true → le_key_len e = p_key_len b ∧ le_value_len e = p_value_len b ∧
       take (Z.to_nat (payload_bytes b)) (log_payload_at s1 slot) =
       take (Z.to_nat (payload_bytes b)) (p_data b)) ∧
    log_ s1 = log_ s ∧ same_outside_log s s1 ∧
    (∀ slot', slot' ≠ slot → log_payload_at s1 slot' = log_payload_at s slot').
Proof.
  intros Hok Hun b slot. destruct (entry_for_fresh s _ Hun) as [Hk Hq].
  pose proof (pok_sum msg Hok) as Hsum. destruct Hok as [_ Hkl Hvl Hb Hd].
  unfold handle_proposal_locked. fold b in Hk, Hq, Hb, Hd, Hsum |- *. fold slot.
  generalize dependent (entry_for (p_seq b) s). intros e0 Hk Hq. cbv zeta. rewrite Hk. cbn [negb].
  destruct (decide (p_op b = "G"%char ∨ p_op b = "N"%char)) as [Hgn|Hgn].
  - eexists _, s. split; [reflexivity|]. split; [exact Hq|].
    do 6 (split; [done|]). split; [by destruct Hgn as [-> | ->]|done].
  - rewrite (proj2 (Z.leb_le _ _) Hb). eexists _, _. split; [reflexivity|]. split; [exact Hq|].
    do 6 (split; [done|]). destruct (Z.eqb_spec (payload_bytes b) 0) as [->|Hne].
    { done. }
    split; [|split; [done|split; [done|]]].
    + intros _. split; [done|]. split; [done|]. cbn [negb].
      rewrite log_payload_at_set, decide_True by done.
      apply take_memcpy_at_0. rewrite length_take. lia.
    + intros slot' Hs. cbn [negb]. by rewrite log_payload_at_set, decide_False.
Qed.

Lemma deliver_fresh s msg : proposal_ok msg → unknown s (p_seq (m_body msg)) →
  let s' := handle_proposal_locked hash rdtsc cfg msg false s in
  holds s' (p_seq (m_body msg)) msg ∧
  (∀ slot, slot ≠ slot_of (p_seq (m_body msg)) →
     log_at s' slot = log_at s slot ∧ log_payload_at s' slot = log_payload_at s slot) ∧
  same_outside_log s s'.
Proof.
  intros Hok Hun s'. pose proof (pok_sum msg Hok) as Hsum. pose proof (pok_key msg Hok).
  pose proof (pok_value msg Hok).
  destruct (deliver_shape s msg Hok Hun) as
    (e&s1&Hs'&Hq&Hk&Hd&Hdec&Hop&Hpr&Hid&Hw&Hlog&Hsame&Hpay). fold s' in Hs'.
  clearbody s'. subst s'. split; [|split].
  - split; try (by rewrite log_at_set, decide_True).
    unfold entry_ops. rewrite log_at_set, decide_True, Hdec, Hop by done.
    change (log_payload_at (log_set ?x e s1) ?y) with (log_payload_at s1 y).
    unfold message_ops. destruct (is_write_op (p_op (m_body msg))) eqn:Hwr; [|done].
    destruct (Hw eq_refl) as (Hkl&Hvl&Hp). cbn [andb Z.eqb Pos.eqb].
    unfold apply_op_of, shard_for. rewrite Hop, Hkl, Hvl.
    destruct (take_drop_prefix (Z.to_nat (p_key_len (m_body msg))) (Z.to_nat (p_value_len (m_body msg)))
      (Z.to_nat (payload_bytes (m_body msg))) (log_payload_at s1 (slot_of (p_seq (m_body msg))))
      (p_data (m_body msg))) as [-> ->]; [lia|done..].
  - intros slot Hne. rewrite log_at_set, decide_False by done. unfold log_at. rewrite Hlog.
    split; [done|]. by apply Hpay.
  - destruct Hsame. by split.
Qed.

Lemma holds_wire s q m : proposal_ok m → holds s q m → holds s q (wire m).
Proof. intros Hok []. split; try done. by rewrite message_ops_wire. Qed.

Lemma holds_frame s s' q m : log_at s' (slot_of q) = log_at s (slot_of q) →
  log_payload_at s' (slot_of q) = log_payload_at s (slot_of q) → holds s q m → holds s' q m.
Proof.
  intros Hl Hp [? ? ? ? ? ? Ho]. split; rewrite ?Hl; try done.
  unfold entry_ops in *. by rewrite Hl, Hp.
Qed.

(** ** The invariant of a replica *)

(** A cell no proposal is in. *)
Definition blank (e : LogEntry) : Prop :=
  le_seq e = 0 ∧ proposal_known e = false ∧ decided e = false.

Lemma blank_reset e : blank (reset_log_entry e 0).
Proof. done. Qed.

(** The writes of the proposals delivered before [n], in sequence order. *)
Definition delivered_ops (D : Z → option BandleMessage) (n : Z) : list ApplyOp :=
  seqZ 1 (n - 1) ≫= (fun q => match D q with Some m => message_ops hash m | None => [] end).

Lemma delivered_ops_ext D D' n : (∀ q, 1 ≤ q < n → D' q = D q) →
  delivered_ops D' n = delivered_ops D n.
Proof.
  intros HD. unfold delivered_ops. apply Forall_bind_ext, Forall_forall.
  intros q Hq%elem_of_seqZ. rewrite HD by lia. done.
Qed.

Lemma delivered_ops_succ D n : 1 ≤ n →
  delivered_ops D (n + 1) = delivered_ops D n ++
    match D n with Some m => message_ops hash m | None => [] end.
Proof.
  intros Hn. unfold delivered_ops. replace (n + 1 - 1) with (n - 1 + 1) by lia.
  rewrite seqZ_app by lia. rewrite bind_app. f_equal. replace (1 + (n - 1)) with n by lia.
  rewrite seqZ_cons by lia. change (1 - 1) with 0. cbn. apply app_nil_r.
Qed.

Record replica_inv (V0 : MapType) (D : Z → option BandleMessage) (s : Node S) : Prop := {
  ri_ok : store_ok (kv_ s);
  ri_exec : 1 ≤ execute_next_ s ≤ 2 ^ 62;
  ri_prefix q : 1 ≤ q < execute_next_ s → is_Some (D q);
  ri_delivered q m : D q = Some m →
    1 ≤ q < execute_next_ s + 65536 ∧ q < 2 ^ 62 ∧ p_seq (m_body m) = q ∧ proposal_ok m;
  ri_holds q m : D q = Some m → execute_next_ s ≤ q → holds s q m;
  ri_cells slot : blank (log_at s slot) ∨
    ∃ q m, D q = Some m ∧ execute_next_ s ≤ q ∧ slot = slot_of q;
  ri_view : store_view (kv_ s) = foldl spec_apply V0 (delivered_ops D (execute_next_ s))
}.

Lemma replica_inv_ext V0 D D' s : (∀ q, D' q = D q) → replica_inv V0 D s → replica_inv V0 D' s.
Proof.
  intros HD []. split; try (setoid_rewrite HD); try done.
  by rewrite (delivered_ops_ext D D').
Qed.

Lemma unknown_undelivered V0 D s q : replica_inv V0 D s → 1 ≤ q → D q = None → unknown s q.
Proof.
  intros Hs Hq HD. destruct (ri_cells _ _ _ Hs (slot_of q)) as [(Hz&_)|(q'&m&Hm&He&Hslot)].
  - left. rewrite Hz. lia.
  - left. rewrite Hslot, (holds_seq _ _ _ (ri_holds _ _ _ Hs q' m Hm He)). congruence.
Qed.

Lemma undelivered_ahead V0 D s q : replica_inv V0 D s → 1 ≤ q → D q = None → execute_next_ s ≤ q.
Proof.
  intros Hs Hq HD. destruct (Z.le_gt_cases (execute_next_ s) q); [done|].
  destruct (ri_prefix _ _ _ Hs q) as [m Hm]; [lia|congruence].
Qed.

Lemma window_slot_ne b q q' : b ≤ q < b + 65536 → b ≤ q' < b + 65536 → q ≠ q' →
  slot_of q ≠ slot_of q'.
Proof. rewrite !slot_of_mod. intros ? ? Hne Hm. apply Hne. apply mod_window_inj with 65536; lia. Qed.

(** Delivering a new proposal inside the window. *)
Lemma deliver_inv V0 D D' s msg q : replica_inv V0 D s →
  proposal_ok msg → p_seq (m_body msg) = q → 1 ≤ q < 2 ^ 62 → q < execute_next_ s + 65536 →
  D q = None → D' q = Some (wire msg) → (∀ q', q' ≠ q → D' q' = D q') →
  let s' := handle_proposal_locked hash rdtsc cfg msg false s in
  replica_inv V0 D' s' ∧ same_outside_log s s'.
Proof.
  intros Hs Hok Hq Hrange Hwin HD HD' Hother s'.
  pose proof (unknown_undelivered V0 D s q Hs ltac:(lia) HD) as Hun.
  pose proof (undelivered_ahead V0 D s q Hs ltac:(lia) HD) as Hahead.
  rewrite <- Hq in Hun. destruct (deliver_fresh s msg Hok Hun) as (Hh&Hcells&Hsame).
  fold s' in Hh, Hcells, Hsame. rewrite Hq in Hh, Hcells. split; [|done].
  destruct Hs as [? ? Hpre Hdel Hhold Hcell Hview]. destruct Hsame as [Hex _ _ _ Hkv].
  split; rewrite ?Hex, ?Hkv; try done.
  - intros q' Hq'. destruct (decide (q' = q)) as [->|Hne]; [by rewrite HD'|].
    rewrite Hother by done. by apply Hpre.
  - intros q' m Hm. destruct (decide (q' = q)) as [->|Hne].
    + rewrite HD' in Hm. injection Hm as <-. split; [lia|]. split; [lia|].
      split; [done|]. by apply (proj1 (proposal_ok_wire msg)).
    + rewrite Hother in Hm by done. by apply Hdel.
  - intros q' m Hm He. destruct (decide (q' = q)) as [->|Hne].
    + rewrite HD' in Hm. injection Hm as <-. by apply holds_wire.
    + rewrite Hother in Hm by done. destruct (Hdel q' m Hm) as [? _].
      destruct (Hcells (slot_of q')) as [Hl Hp].
      { apply window_slot_ne with (execute_next_ s); lia. }
      apply holds_frame with s; [done..|]. by apply Hhold.
  - intros slot. destruct (decide (slot = slot_of q)) as [->|Hne].
    + right. by exists q, (wire msg).
    + destruct (Hcells slot Hne) as [-> _]. destruct (Hcell slot) as [?|(q'&m&Hm&?&->)]; [by left|].
      right. exists q', m. rewrite Hother; [done|congruence].
  - rewrite Hview. f_equal. symmetry. apply delivered_ops_ext. intros q' Hq'. apply Hother. lia.
Qed.

End Deliver.

(** ** Execution *)

(** What execution leaves alone. *)
Record same_proposer {S} (s s' : Node S) : Prop := {
  sp_next : next_seq_ s' = next_seq_ s;
  sp_highest : highest_proposed_seq_ s' = highest_proposed_seq_ s;
  sp_input : input_done_ s' = input_done_ s
}.

#[export] Instance same_proposer_preorder {S} : PreOrder (@same_proposer S).
Proof. split; [done|]. intros s1 s2 s3 [] []. split; congruence. Qed.

Section Execution.
Context {S : Type} `{Store : ReplicaStore S}.
Context (hash : bytes → Z) `{!ReplicaStoreLaws hash S} (rdtsc : nat → Z) (cfg : Config).
Context (V0 : MapType) (D : Z → option BandleMessage).
Implicit Types (s : Node S).

Abbreviation inv := (replica_inv hash V0 D).
Abbreviation advance := (advance_execute_locked hash rdtsc cfg).

Lemma ready_delivered s q : inv s → 1 ≤ q → ready s q = true →
  ∃ m, D q = Some m ∧ execute_next_ s ≤ q ∧ holds hash s q m.
Proof.
  intros Hs Hq He. unfold ready in He. apply andb_prop in He as [He _].
  apply andb_prop in He as [Heq Hd]. apply Z.eqb_eq in Heq.
  destruct (ri_cells _ _ _ _ Hs (slot_of q)) as [(Hz&_)|(q'&m&Hm&Hle&Hslot)]; [lia|].
  pose proof (ri_holds _ _ _ _ Hs q' m Hm Hle) as Hh. rewrite Hslot in Heq.
  rewrite (holds_seq _ _ _ _ Hh) in Heq. subst q'. by exists m.
Qed.

Lemma exec_inv s s' : inv s → exec_step hash rdtsc cfg s s' →
  inv s' ∧ same_proposer s s' ∧ execute_next_ s' = execute_next_ s + 1.
Proof.
  intros Hs [He ->]. pose proof (ri_exec _ _ _ _ Hs) as Hx.
  destruct (ready_delivered s (execute_next_ s) Hs ltac:(lia) He) as (m&Hm&_&Hh).
  destruct (ri_delivered _ _ _ _ Hs _ _ Hm) as (_&Hsmall&_).
  destruct (exec_one_fields hash rdtsc cfg s) as (Hpay&Hex&Hnext&Hhigh&Hin&Hkv).
  rewrite w64_small in Hex by (unfold is_u64; lia).
  set (s' := exec_one hash rdtsc cfg s) in *.
  split; [|done].
  destruct (store_apply_law (entry_ops hash s (execute_next_ s)) (kv_ s) (ri_ok _ _ _ _ Hs)
    (entry_ops_sharded hash _ _)) as [Hok' Hview'].
  assert (∀ q, execute_next_ s < q < execute_next_ s + 65536 →
    log_at s' (slot_of q) = log_at s (slot_of q)) as Hcell.
  { intros q Hq. unfold s'. rewrite exec_one_log, decide_False; [done|].
    apply window_slot_ne with (execute_next_ s); lia. }
  split; rewrite ?Hex, ?Hkv.
  - done.
  - lia.
  - intros q Hq. destruct (decide (q = execute_next_ s)) as [->|]; [by exists m|].
    apply Hs. lia.
  - intros q m' Hm'. destruct (ri_delivered _ _ _ _ Hs q m' Hm') as (?&?&?&?). split; [lia|done].
  - intros q m' Hm' Hle. destruct (ri_delivered _ _ _ _ Hs q m' Hm') as (?&_).
    apply holds_frame with s; [apply Hcell; lia|unfold log_payload_at; by rewrite Hpay|].
    apply Hs; [done|lia].
  - intros slot. unfold s'. rewrite exec_one_log. case_decide as Hslot; [left; apply blank_reset|].
    destruct (ri_cells _ _ _ _ Hs slot) as [?|(q&m'&Hm'&Hle&->)]; [by left|].
    right. exists q, m'. split; [done|]. split; [|done].
    assert (q ≠ execute_next_ s) by congruence. lia.
  - rewrite Hview', (ri_view _ _ _ _ Hs), delivered_ops_succ, Hm, foldl_app by lia.
    by rewrite (holds_ops _ _ _ _ Hh).
Qed.

Lemma exec_rtc_inv s s' : inv s → rtc (exec_step hash rdtsc cfg) s s' →
  inv s' ∧ same_proposer s s' ∧ execute_next_ s ≤ execute_next_ s'.
Proof.
  intros Hs H. induction H as [|s s1 s' H1 _ IH]; [split; [done|split; [reflexivity|lia]]|].
  destruct (exec_inv s s1 Hs H1) as (Hs1&Hp1&He1). destruct (IH Hs1) as (?&?&?).
  split; [done|]. split; [by transitivity s1|lia].
Qed.

Lemma exec_small s : inv s → is_u64 (execute_next_ s).
Proof. intros Hs. pose proof (ri_exec _ _ _ _ Hs). unfold is_u64. lia. Qed.

(** After an advance the next entry has not been delivered. *)
Lemma advance_inv s : inv s →
  inv (advance s) ∧ same_proposer s (advance s) ∧ execute_next_ s ≤ execute_next_ (advance s) ∧
  D (execute_next_ (advance s)) = None.
Proof.
  intros Hs. destruct (advance_steps hash rdtsc cfg s (ri_ok _ _ _ _ Hs) (exec_small s Hs))
    as [Hsteps Hstop].
  destruct (exec_rtc_inv _ _ Hs Hsteps) as (Ha&Hp&He). do 3 (split; [done|]).
  destruct (D _) as [m|] eqn:Hm; [|done]. exfalso.
  apply (ri_holds _ _ _ _ Ha _ _) in Hm; [|lia]. apply holds_ready in Hm.
  unfold executable in Hstop. congruence.
Qed.

End Execution.

(** ** Handling a batch *)

(** [D] after the proposals [msgs] arrived. *)
Definition arrived (msgs : list BandleMessage) (D : Z → option BandleMessage) (q : Z)
    : option BandleMessage :=
  match List.find (fun m => p_seq (m_body m) =? q) msgs with
  | Some m => Some (wire m)
  | None => D q
  end.

Abbreviation seqs_of msgs := ((p_seq ∘ m_body) <$> (msgs : list BandleMessage)).

Lemma arrived_cons m msgs D q : NoDup (seqs_of (m :: msgs)) →
  arrived (m :: msgs) D q = arrived msgs (arrived [m] D) q.
Proof.
  intros [Hm _]%NoDup_cons. unfold arrived. cbn [List.find].
  destruct (Z.eqb_spec (p_seq (m_body m)) q) as [<-|]; [|done].
  destruct (List.find _ msgs) as [m'|] eqn:Hf; [|done]. exfalso. apply Hm.
  apply List.find_some in Hf as [Hin Heq]. apply Z.eqb_eq in Heq.
  apply list_elem_of_fmap. exists m'. split; [done|]. by apply list_elem_of_In.
Qed.

Lemma arrived_base msgs D1 D2 q : D1 q = D2 q → arrived msgs D1 q = arrived msgs D2 q.
Proof. intros H. unfold arrived. by destruct (List.find _ _). Qed.

Lemma arrived_app msgs1 msgs2 D q : NoDup (seqs_of (msgs1 ++ msgs2)) →
  arrived (msgs1 ++ msgs2) D q = arrived msgs2 (arrived msgs1 D) q.
Proof.
  revert D. induction msgs1 as [|m msgs1 IH]; intros D Hnd; [done|].
  rewrite <- app_comm_cons, arrived_cons, IH by (done || by apply NoDup_cons in Hnd as [_ ?]).
  apply arrived_base. symmetry. apply arrived_cons.
  change (NoDup (seqs_of ((m :: msgs1) ++ msgs2))) in Hnd. rewrite fmap_app in Hnd. by apply NoDup_app in Hnd as [? _].
Qed.

Lemma arrived_in msgs D m : NoDup (seqs_of msgs) → m ∈ msgs →
  arrived msgs D (p_seq (m_body m)) = Some (wire m).
Proof.
  revert D. induction msgs as [|m' msgs IH]; intros D Hnd Hin; [by apply not_elem_of_nil in Hin|].
  unfold arrived. cbn [List.find]. destruct (Z.eqb_spec (p_seq (m_body m')) (p_seq (m_body m))) as [He|].
  - apply elem_of_cons in Hin as [->|Hin]; [done|]. apply NoDup_cons in Hnd as [Hnd _].
    exfalso. apply Hnd. apply list_elem_of_fmap. by exists m.
  - apply NoDup_cons in Hnd as [_ ?]. apply elem_of_cons in Hin as [->|Hin]; [done|]. by apply IH.
Qed.

Lemma arrived_notin msgs D q : q ∉ seqs_of msgs → arrived msgs D q = D q.
Proof.
  intros Hq. unfold arrived. destruct (List.find _ msgs) as [m|] eqn:Hf; [|done].
  exfalso. apply Hq. apply List.find_some in Hf as [Hin Heq%Z.eqb_eq].
  apply list_elem_of_fmap. exists m. split; [done|]. by apply list_elem_of_In.
Qed.

Section Batches.
Context {S : Type} `{Store : ReplicaStore S}.
Context (hash : bytes → Z) `{!ReplicaStoreLaws hash S} (rdtsc : nat → Z) (cfg : Config).
Context (V0 : MapType).
Implicit Types (s : Node S) (D : Z → option BandleMessage).

(** Proposals a replica at [s] can take. *)
Definition deliverable D (s : Node S) (m : BandleMessage) : Prop :=
  proposal_ok m ∧ 1 ≤ p_seq (m_body m) < 2 ^ 62 ∧
  p_seq (m_body m) < execute_next_ s + 65536 ∧ D (p_seq (m_body m)) = None.

Lemma deliver_list_inv msgs D s : replica_inv hash V0 D s →
  Forall (deliverable D s) msgs → NoDup (seqs_of msgs) →
  let s' := foldl (fun s msg => handle_proposal_locked hash rdtsc cfg msg false s) s msgs in
  replica_inv hash V0 (arrived msgs D) s' ∧ same_outside_log s s'.
Proof.
  revert D s. induction msgs as [|m msgs IH]; intros D s Hs Hd Hnd; [done|]. cbn [foldl].
  apply Forall_cons in Hd as [(Hok&Hr&Hw&HD) Hd].
  destruct (deliver_inv hash rdtsc cfg V0 D (arrived [m] D) s m _ Hs Hok eq_refl Hr Hw HD) as [H1 Hf].
  { unfold arrived. cbn [List.find]. by rewrite Z.eqb_refl. }
  { intros q' Hne. unfold arrived. cbn [List.find]. by rewrite (proj2 (Z.eqb_neq _ _)). }
  destruct (IH _ _ H1) as [H2 Hf2].
  - apply Forall_forall. intros m' Hin. apply list_elem_of_In in Hin.
    rewrite List.Forall_forall in Hd. destruct (Hd m' Hin) as (?&?&?&?).
    split; [done|]. split; [done|]. rewrite (sol_exec _ _ Hf). split; [done|].
    rewrite arrived_notin; [done|]. intros Heq%list_elem_of_singleton.
    apply NoDup_cons in Hnd as [Hm _]. apply Hm. rewrite <- Heq. apply list_elem_of_fmap.
    exists m'. split; [done|]. by apply list_elem_of_In.
  - by apply NoDup_cons in Hnd as [_ ?].
  - split; [|destruct Hf, Hf2; split; congruence].
    apply replica_inv_ext with (arrived msgs (arrived [m] D)); [|done].
    intros q. by apply arrived_cons.
Qed.

(** A delivered batch followed by an advance: both ends of the submit path and
    of the receive path. *)
Lemma deliver_advance_inv msgs D s : replica_inv hash V0 D s →
  Forall (deliverable D s) msgs → NoDup (seqs_of msgs) →
  let s' := advance_execute_locked hash rdtsc cfg
    (foldl (fun s msg => handle_proposal_locked hash rdtsc cfg msg false s) s msgs) in
  replica_inv hash V0 (arrived msgs D) s' ∧ same_proposer s s' ∧
  execute_next_ s ≤ execute_next_ s' ∧ arrived msgs D (execute_next_ s') = None.
Proof.
  intros Hs Hd Hnd s'. destruct (deliver_list_inv msgs D s Hs Hd Hnd) as [H1 Hf].
  destruct (advance_inv hash rdtsc cfg V0 _ _ H1) as (H2&Hp&He&HN). fold s' in H2, Hp, He, HN.
  destruct Hf. split; [done|]. split; [|split; [lia|done]].
  transitivity (foldl (fun s msg => handle_proposal_locked hash rdtsc cfg msg false s) s msgs); [|done].
  by split.
Qed.

Lemma handle_chunk_proposals msgs s : Forall proposal_ok msgs → msgs ≠ [] →
  handle_chunk hash rdtsc cfg msgs s = self_deliver hash rdtsc cfg msgs s.
Proof.
  intros Hok Hne. unfold handle_chunk, self_deliver.
  assert (∀ s, foldl (fun s msg => handle_one hash rdtsc cfg false msg s) s msgs =
    foldl (fun s msg => handle_proposal_locked hash rdtsc cfg msg false s) s msgs) as ->.
  { clear Hne. induction Hok as [|m msgs Hm _ IH]; intros s'; [done|]. cbn [foldl].
    rewrite IH. unfold handle_one. by rewrite (pok_type m Hm). }
  destruct Hok as [|m msgs Hm _]; [done|]. cbn [existsb].
  by rewrite (pok_type m Hm), bool_decide_true.
Qed.

Lemma new_node_inv (kv : S) : store_ok kv →
  replica_inv hash (store_view kv) (fun _ => None) (new_node cfg kv).
Proof.
  intros Hok. split; try done.
  - intros q Hq. cbn in Hq. lia.
  - intros slot. by left.
Qed.

Lemma deliverable_later msgs D s s' m : deliverable D s m → execute_next_ s ≤ execute_next_ s' →
  p_seq (m_body m) ∉ seqs_of msgs → deliverable (arrived msgs D) s' m.
Proof.
  intros (?&?&?&HD) He Hn. split; [done|]. split; [done|]. split; [lia|].
  by rewrite arrived_notin.
Qed.

Lemma handle_chunks_inv fuel msgs D s : (length msgs ≤ fuel)%nat → replica_inv hash V0 D s →
  Forall (deliverable D s) msgs → NoDup (seqs_of msgs) → D (execute_next_ s) = None →
  let s' := handle_chunks hash rdtsc cfg fuel msgs s in
  replica_inv hash V0 (arrived msgs D) s' ∧ execute_next_ s ≤ execute_next_ s' ∧
  arrived msgs D (execute_next_ s') = None.
Proof.
  revert msgs D s. induction fuel as [|fuel IH]; intros msgs D s Hf Hs Hd Hnd HN.
  { destruct msgs; [|cbn in Hf; lia]. cbn. split; [done|]. split; [lia|done]. }
  destruct msgs as [|m ms]; [cbn; split; [done|split; [lia|done]]|].
  cbn [handle_chunks]. set (msgs := m :: ms) in *.
  set (c := take kHandleChunk msgs). set (rest := drop kHandleChunk msgs).
  assert (msgs = c ++ rest) as Hsplit by (symmetry; apply take_drop).
  assert (c ≠ []) as Hne by done.
  assert (length rest ≤ fuel)%nat as Hf'.
  { unfold rest. rewrite length_drop. cbn [length msgs] in *. unfold kHandleChunk. lia. }
  clearbody c rest. clear Hf. clearbody msgs. subst msgs.
  apply Forall_app in Hd as [Hdc Hdr].
  assert (NoDup (seqs_of c) ∧ NoDup (seqs_of rest) ∧
    ∀ m, m ∈ rest → p_seq (m_body m) ∉ seqs_of c) as (Hnc&Hnr&Hdisj).
  { rewrite fmap_app in Hnd. apply NoDup_app in Hnd as (?&Hx&?). split; [done|]. split; [done|].
    intros m' Hin Hc. apply (Hx _ Hc). apply list_elem_of_fmap. by exists m'. }
  assert (Forall proposal_ok c) as Hok by (eapply Forall_impl; [exact Hdc|by intros ? []]).
  rewrite handle_chunk_proposals by done. unfold self_deliver.
  destruct (deliver_advance_inv c D s Hs Hdc Hnc) as (H1&_&He1&HN1).
  set (s1 := advance_execute_locked _ _ _ _) in *.
  destruct (IH rest (arrived c D) s1) as (H2&He2&HN2).
  - done.
  - done.
  - apply Forall_forall. intros m' Hin. apply list_elem_of_In in Hin.
    rewrite List.Forall_forall in Hdr. apply deliverable_later with s; [|done|].
    + by apply Hdr.
    + apply Hdisj. by apply list_elem_of_In.
  - done.
  - done.
  - split; [|split; [lia|]].
    + eapply replica_inv_ext; [|exact H2]. intros q. by apply arrived_app.
    + rewrite arrived_app; done.
Qed.

End Batches.

(** A batch received by a fresh replica. *)
Section Fresh.
Context {S : Type} `{Store : ReplicaStore S}.
Context (hash : bytes → Z) `{!ReplicaStoreLaws hash S} (rdtsc : nat → Z) (cfg : Config).

Definition fresh_batch (msgs : list BandleMessage) : Prop :=
  Forall (fun m => proposal_ok m ∧ 1 ≤ p_seq (m_body m) ≤ 65536) msgs ∧ NoDup (seqs_of msgs).

Lemma batch_prefix (kv : S) msgs : store_ok kv → fresh_batch msgs →
  let s' := handle_messages_batch hash rdtsc cfg msgs (new_node cfg kv) in
  let n := execute_next_ s' in
  1 ≤ n ∧ (∀ q, 1 ≤ q < n → q ∈ seqs_of msgs) ∧ n ∉ seqs_of msgs ∧ store_ok (kv_ s') ∧
  store_view (kv_ s') =
    foldl spec_apply (store_view kv) (delivered_ops hash (arrived msgs (fun _ => None)) n).
Proof.
  intros Hkv [Hok Hnd] s' n.
  destruct (handle_chunks_inv hash rdtsc cfg (store_view kv) (length msgs) msgs (fun _ => None)
    (new_node cfg kv)) as (H1&_&HN).
  - done.
  - by apply new_node_inv.
  - eapply Forall_impl; [exact Hok|]. intros m [? ?]. split; [done|]. cbn. split; [lia|].
    split; [lia|done].
  - done.
  - done.
  - fold (handle_messages_batch hash rdtsc cfg msgs (new_node cfg kv)) in H1, HN.
    fold s' n in H1, HN. split; [apply (ri_exec _ _ _ _ H1)|]. split; [|split].
    + intros q Hq. destruct (ri_prefix _ _ _ _ H1 q Hq) as [m Hm].
      destruct (decide (q ∈ seqs_of msgs)); [done|]. by rewrite arrived_notin in Hm.
    + intros (m&Hn&Hin)%list_elem_of_fmap. cbn in Hn. rewrite Hn, arrived_in in HN; done.
    + split; [apply H1|]. exact (ri_view _ _ _ _ H1).
Qed.

End Fresh.

Lemma first_missing_unique (l l' : list Z) n n' : (∀ q, q ∈ l ↔ q ∈ l') → 1 ≤ n → 1 ≤ n' →
  (∀ q, 1 ≤ q < n → q ∈ l) → n ∉ l → (∀ q, 1 ≤ q < n' → q ∈ l') → n' ∉ l' → n = n'.
Proof.
  intros Hl Hn Hn' H1 H2 H3 H4. destruct (Z.lt_trichotomy n n') as [?|[?|?]]; [|done|].
  - destruct H2. apply Hl, H3. lia.
  - destruct H4. apply Hl, H1. lia.
Qed.

Lemma arrived_permutation msgs msgs' D q : msgs ≡ₚ msgs' → NoDup (seqs_of msgs) →
  arrived msgs D q = arrived msgs' D q.
Proof.
  intros Hp Hnd. assert (NoDup (seqs_of msgs')) as Hnd' by (by rewrite <- Hp).
  destruct (decide (q ∈ seqs_of msgs)) as [(m&->&Hin)%list_elem_of_fmap|Hq].
  - cbn. rewrite !arrived_in; [done|done| |done|done]. by rewrite <- Hp.
  - rewrite !arrived_notin; [done| |done]. by rewrite <- Hp.
Qed.

(** ** Properties *)
Section Properties.
Context {S : Type} `{Store : ReplicaStore S}.
Context (hash : bytes → Z) `{!ReplicaStoreLaws hash S} (rdtsc : nat → Z) (cfg : Config).

(** C26: a fresh replica that receives a batch of proposals executes the
    longest gapless prefix of their sequence numbers, and its store is then the
    old one with the writes of that prefix applied in sequence order. *)
Theorem replica_executes_prefix (kv : S) (msgs : list BandleMessage)
    (Hkv : store_ok kv) (Hmsgs : fresh_batch msgs) :
  let s' := handle_messages_batch hash rdtsc cfg msgs (new_node cfg kv) in
  let n := execute_next_ s' in
  (∀ q, 1 ≤ q < n → q ∈ seqs_of msgs) ∧ n ∉ seqs_of msgs ∧
  store_view (kv_ s') =
    foldl spec_apply (store_view kv) (delivered_ops hash (arrived msgs (fun _ => None)) n).
Proof. by destruct (batch_prefix hash rdtsc cfg kv msgs Hkv Hmsgs) as (_&?&?&_&?). Qed.

(** C25: the order proposals arrive in does not matter: two replicas with the
    same contents that receive the same proposals in different orders execute
    as far as each other and end with the same contents. *)
Theorem arrival_order_irrelevant (cfg' : Config) (rdtsc' : nat → Z) (kv kv' : S)
    (msgs msgs' : list BandleMessage) (Hkv : store_ok kv) (Hkv' : store_ok kv')
    (Hsame : store_view kv = store_view kv') (Hmsgs : fresh_batch msgs) (Hperm : msgs ≡ₚ msgs') :
  let s := handle_messages_batch hash rdtsc cfg msgs (new_node cfg kv) in
  let s' := handle_messages_batch hash rdtsc' cfg' msgs' (new_node cfg' kv') in
  execute_next_ s = execute_next_ s' ∧ store_view (kv_ s) = store_view (kv_ s').
Proof.
  assert (fresh_batch msgs') as Hmsgs' by (unfold fresh_batch in *; by rewrite <- Hperm).
  intros s s'.
  destruct (batch_prefix hash rdtsc cfg kv msgs Hkv Hmsgs) as (H1&H2&H3&_&Hv).
  destruct (batch_prefix hash rdtsc' cfg' kv' msgs' Hkv' Hmsgs') as (H1'&H2'&H3'&_&Hv').
  fold s in H1, H2, H3, Hv. fold s' in H1', H2', H3', Hv'.
  assert (execute_next_ s = execute_next_ s') as Heq.
  { eapply first_missing_unique; [|done..]. intros q. by rewrite Hperm. }
  split; [done|]. rewrite Hv, Hv', Heq, Hsame. f_equal. symmetry. apply delivered_ops_ext.
  intros q _. symmetry. by apply arrived_permutation, Hmsgs.
Qed.

End Properties.

(** ** Concrete inputs *)
Module Examples.
Import KVStore.Examples.

#[local] Instance rep : ReplicaStore KVStore := kv_replica length_hash.
#[local] Instance rep_laws : ReplicaStoreLaws length_hash KVStore := kv_replica_laws length_hash.

Definition cfg (i : Z) : Config := {|
  node_id_ := i; cluster_size_ := 3; quorum_ := 2; noop_interval_us_ := 1; batch_size_ := 32;
  admission_window_ := 192; admission_batch_ := 32 |}.
Definition clock (n : nat) : Z := 10 * Z.of_nat n.

Definition proposal (seq : Z) (op : ascii) (key value : bytes) : BandleMessage := {|
  m_slot_seq := 0; m_type := PROPOSAL; m_body := {|
    p_seq := seq; p_round := 1; p_sender := 2; p_proposer := 2; p_client_req_id := 0;
    p_start_tsc := 0; p_value := 1; p_promise := 0; p_op := op; p_reserved0 := 0;
    p_key_len := Z.of_nat (length key); p_value_len := Z.of_nat (length value);
    p_data := key ++ value |} |}.

Lemma proposal_is_ok seq op key value : Z.of_nat (length key + length value) ≤ kMaxValueBytes →
  proposal_ok (proposal seq op key value).
Proof.
  unfold kMaxValueBytes. intros Hl.
  assert (payload_bytes (m_body (proposal seq op key value)) = Z.of_nat (length key + length value)) as Hb.
  { unfold payload_bytes. cbn [m_body proposal p_key_len p_value_len].
    rewrite w64_small by (unfold is_u64; lia). lia. }
  split; rewrite ?Hb; cbn [m_body proposal p_key_len p_value_len p_data]; unfold kMaxValueBytes;
    rewrite ?length_app; (done || lia).
Qed.

(** Position 3 is missing, so the deletion at 4 is not executed. *)
Definition batch : list BandleMessage :=
  [proposal 4 "D" (str "a") []; proposal 2 "U" (str "a") (str "2"); proposal 1 "P" (str "a") (str "1")].

Lemma batch_fresh : fresh_batch batch.
Proof.
  split.
  - repeat apply List.Forall_cons; try apply List.Forall_nil;
      (split; [apply proposal_is_ok; by vm_compute|by vm_compute]).
  - apply NoDup_ListNoDup. repeat constructor; cbn; lia.
Qed.

Lemma empty_ok : store_ok empty_store.
Proof. apply empty_store_wf. Qed.

Definition after : Node KVStore :=
  handle_messages_batch length_hash clock (cfg 1) batch (new_node (cfg 1) empty_store).

Lemma after_exec : execute_next_ after = 3.
Proof. by vm_compute. Qed.

Example replica_executes_prefix_witness :
  store_view (kv_ after) = foldl spec_apply (take_snapshot empty_store)
    (delivered_ops length_hash (arrived batch (fun _ => None)) (execute_next_ after)).
Proof.
  exact (proj2 (proj2 (replica_executes_prefix length_hash clock (cfg 1) empty_store batch
    empty_ok batch_fresh))).
Defined.

Example arrival_order_irrelevant_witness :
  store_view (kv_ after) =
  store_view (kv_ (handle_messages_batch length_hash clock (cfg 3) (rev batch)
    (new_node (cfg 3) empty_store))).
Proof.
  apply (arrival_order_irrelevant length_hash clock (cfg 1) (cfg 3) clock empty_store empty_store
    batch (rev batch) empty_ok empty_ok eq_refl batch_fresh).
  apply Permutation_rev.
Defined.

End Examples.
