(* ===== verification/Submit.v ===== *)
(** The submit path: what [submit_borrowed_batch] puts in a proposal, how the
    proposals of a batch are split, admitted and numbered, and the no-ops of
    the proposer thread. *)
From S2P Require Import Prelude Histogram KVStore Message Ring NodeState Bandle Execute Replica.

(** Everything but the fields the numbering of a proposal assigns. *)
Record same_request (m m0 : BandleMessage) : Prop := {
  sr_type : m_type m = m_type m0;
  sr_op : p_op (m_body m) = p_op (m_body m0);
  sr_proposer : p_proposer (m_body m) = p_proposer (m_body m0);
  sr_key : p_key_len (m_body m) = p_key_len (m_body m0);
  sr_value : p_value_len (m_body m) = p_value_len (m_body m0);
  sr_data : p_data (m_body m) = p_data (m_body m0)
}.

(** A proposal in a whole buffer. *)
Definition sendable (m : BandleMessage) : Prop := proposal_ok m ∧ msg_fits m.

Lemma same_request_sendable m m0 : same_request m m0 → sendable m0 → sendable m.
Proof.
  intros [Ht _ _ Hk Hv Hd] [[? ? ? Hb Hl] [Hf _]]. unfold payload_bytes in *.
  rewrite <- Hk, <- Hv, <- ?Hd in *. split; split; unfold payload_bytes; congruence || done.
Qed.

Lemma same_request_ops hash m m0 : same_request m m0 → message_ops hash m = message_ops hash m0.
Proof. intros [_ Ho _ Hk Hv Hd]. unfold message_ops. by rewrite Ho, Hk, Hv, Hd. Qed.

(** What the submit path leaves of a replica: the log, the store and the
    execution position. *)
Record same_replica {S} (s s' : Node S) : Prop := {
  sre_log : log_ s' = log_ s;
  sre_payloads : log_payloads_ s' = log_payloads_ s;
  sre_exec : execute_next_ s' = execute_next_ s;
  sre_kv : kv_ s' = kv_ s
}.

#[export] Instance same_replica_preorder {S} : PreOrder (@same_replica S).
Proof. split; [done|]. intros s1 s2 s3 [] []. split; congruence. Qed.

Lemma replica_inv_frame {S} `{ReplicaStore S} hash V0 D (s s' : Node S) :
  same_replica s s' → replica_inv hash V0 D s → replica_inv hash V0 D s'.
Proof.
  intros [Hl Hp He Hk] [Hok Hx Hpre Hdel Hhold Hcell Hview].
  split; rewrite ?He, ?Hk; try done.
  - intros q m Hm Hq. apply holds_frame with s; [| |by apply Hhold].
    + unfold log_at. by rewrite Hl.
    + unfold log_payload_at. by rewrite Hp.
  - intros slot. unfold log_at. rewrite Hl. apply Hcell.
Qed.

(** ** Preparing *)
Definition full_buffer (m : BandleMessage) : Prop :=
  length (p_data (m_body m)) = Z.to_nat kMaxValueBytes.

Definition valid_lengths (req : BorrowedRequest) : Prop :=
  0 ≤ br_key_len req ∧ 0 ≤ br_value_len req.

Lemma copy_full (data src : bytes) (off n : nat) : length data = Z.to_nat kMaxValueBytes →
  (off + n ≤ Z.to_nat kMaxValueBytes)%nat →
  length (memcpy_at data off (take n src)) = Z.to_nat kMaxValueBytes.
Proof. intros Hd Hn. rewrite length_memcpy_at; [done|]. rewrite length_take. lia. Qed.

Section Prepare.
Context {S : Type} (rdtsc : nat → Z) (cfg : Config).
Implicit Types (s : Node S).

(** The data area is never overrun and the message always fits a slot. *)
Lemma prepare_sendable old req : full_buffer old → valid_lengths req →
  sendable (prepare_proposal cfg old req) ∧ full_buffer (prepare_proposal cfg old req).
Proof.
  intros Hb [Hk Hv]. unfold prepare_proposal. case_decide as Hg.
  - split; [split; split|done]; try done. unfold full_buffer in Hb. cbn. by rewrite Hb.
  - set (kl := Z.min (br_key_len req) kMaxValueBytes).
    set (vl := Z.min (br_value_len req) (kMaxValueBytes - kl)). cbv zeta.
    set (d1 := match br_key_ptr req with Some _ => _ | None => _ end).
    set (d2 := match br_value_ptr req with Some _ => _ | None => _ end).
    assert (0 ≤ kl ∧ 0 ≤ vl ∧ kl + vl ≤ kMaxValueBytes) as Hl by (unfold vl, kl, kMaxValueBytes; lia).
    assert (length d1 = Z.to_nat kMaxValueBytes) as Hd1.
    { unfold d1. destruct (br_key_ptr req); [|done]. case_if; [|done]. apply copy_full; [done|lia]. }
    assert (length d2 = Z.to_nat kMaxValueBytes) as Hd2.
    { unfold d2. destruct (br_value_ptr req); [|done]. case_if; [|done]. apply copy_full; [done|lia]. }
    assert (kl +₆₄ vl = kl + vl) as Hs.
    { apply w64_small. unfold is_u64. unfold kMaxValueBytes in *. lia. }
    clearbody kl vl d1 d2. unfold kMaxValueBytes in *.
    split; [split; split|done]; try done; unfold payload_bytes;
      cbn [m_body p_key_len p_value_len p_data]; rewrite ?Hs; unfold kMaxValueBytes in *; lia.
Qed.

(** The write a prepared proposal asks for. *)
Lemma prepare_ops hash old req key value : full_buffer old →
  br_key_ptr req = Some key → br_key_len req = Z.of_nat (length key) →
  br_value_ptr req = Some value → br_value_len req = Z.of_nat (length value) →
  is_write_op (br_op req) = true →
  message_ops hash (prepare_proposal cfg old req) =
    let key' := take (Z.to_nat kMaxValueBytes) key in
    [{| ao_op := br_op req; ao_shard := get_shard_idx hash key'; ao_key := key';
        ao_value := if decide (br_op req = "D"%char) then []
                    else take (Z.to_nat kMaxValueBytes - length key') value |}].
Proof.
  intros Hb Hk Hkl Hv Hvl Hw. unfold full_buffer in Hb.
  assert (Z.to_nat kMaxValueBytes = 1088%nat) as HM by done. rewrite HM in *.
  assert (br_op req ≠ "G"%char) as Hg by (intros Hg; by rewrite Hg in Hw).
  unfold message_ops, prepare_proposal. rewrite decide_False by done. rewrite Hk, Hkl, Hv, Hvl.
  cbn [m_body p_op p_key_len p_value_len p_data]. rewrite Hw. cbv zeta.
  change kMaxValueBytes with 1088.
  set (kn := Nat.min 1088 (length key)). set (vn := Nat.min (1088 - kn) (length value)).
  replace (Z.min (Z.of_nat (length key)) 1088) with (Z.of_nat kn) by (unfold kn; lia).
  replace (Z.min (Z.of_nat (length value)) (1088 - Z.of_nat kn)) with (Z.of_nat vn)
    by (unfold vn, kn; lia).
  rewrite !Nat2Z.id. set (d1 := if negb (Z.of_nat kn =? 0) then _ else _).
  set (d2 := if negb (Z.of_nat vn =? 0) then _ else _).
  assert (length d1 = 1088%nat ∧ take kn d1 = take kn key) as [Hd1 Ht1].
  { unfold d1. destruct (Z.eqb_spec (Z.of_nat kn) 0) as [Hz|Hz]; cbn [negb].
    - split; [done|]. by replace kn with O by lia.
    - rewrite take_memcpy_at_0 by (rewrite length_take; unfold kn; lia). split; [|done].
      rewrite length_memcpy_at; [done|]. rewrite length_take. unfold kn. lia. }
  assert (take kn d2 = take kn d1 ∧ take vn (drop kn d2) = take vn value) as [Ht2 Hv2].
  { unfold d2. destruct (Z.eqb_spec (Z.of_nat vn) 0) as [Hz|Hz]; cbn [negb].
    - split; [done|]. by replace vn with O by lia.
    - rewrite take_memcpy_at_before by (unfold kn; lia). split; [done|].
      apply drop_memcpy_at; [unfold kn; lia|]. rewrite length_take. unfold vn. lia. }
  rewrite Ht2, Ht1, Hv2. clearbody d1 d2.
  assert (take kn key = take 1088 key) as -> by (unfold kn; by rewrite <- take_take, firstn_all).
  replace (length (take 1088 key)) with kn by (by rewrite length_take).
  by replace (take vn value) with (take (1088 - kn) value)
    by (unfold vn; by rewrite <- take_take, firstn_all).
Qed.

(** Preparing a batch changes only the error and total counters. *)
Lemma prepare_all reqs bufs s : Forall full_buffer bufs → Forall valid_lengths reqs →
  let '(ps, s') := prepare_proposals cfg reqs bufs s in
  Forall sendable ps ∧ (length ps ≤ length reqs)%nat ∧ same_replica s s' ∧ same_proposer s s'.
Proof.
  revert bufs s. induction reqs as [|req reqs IH]; intros bufs s Hb Hr; [done|].
  apply Forall_cons in Hr as [Hreq Hr]. cbn [prepare_proposals]. destruct (_ || _).
  - specialize (IH (List.tl bufs) s). destruct (prepare_proposals _ _ _ _) as [ps s'].
    destruct IH as (?&?&?&?); [|done|].
    + destruct bufs; [done|]. by apply Forall_cons in Hb as [_ ?].
    + split; [|cbn; split; [lia|done]]. apply Forall_cons. split; [|done].
      apply (prepare_sendable (default default_message (hd_error bufs)) req); [|done].
      destruct bufs; [done|]. by apply Forall_cons in Hb as [? _].
  - specialize (IH bufs (s <| error_ops_ := error_ops_ s +₆₄ 1 |> <| total_ops_ := total_ops_ s +₆₄ 1 |>)
      Hb Hr). destruct (prepare_proposals _ _ _ _) as [ps s']. destruct IH as (?&?&Hs&Hp).
    split; [done|]. split; [cbn; lia|]. destruct Hs, Hp. by split.
Qed.

End Prepare.

(** ** Admission *)
Section Admit.
Context {S : Type} (rdtsc : nat → Z) (cfg : Config).
Context (three : cluster_size_ cfg = 3).
Implicit Types (s : Node S).

Lemma assign_one_spec s m : 0 ≤ next_seq_ s → next_seq_ s + 3 < 2 ^ 64 →
  let '(s', m') := assign_one rdtsc cfg s m in
  same_request m' m ∧ p_seq (m_body m') = next_seq_ s ∧ same_replica s s' ∧
  next_seq_ s' = next_seq_ s + 3 ∧ input_done_ s' = input_done_ s ∧
  highest_proposed_seq_ s' = Z.max (highest_proposed_seq_ s) (next_seq_ s).
Proof.
  intros H0 H1. unfold assign_one, rdtsc_ordered. cbn [next_seq_ set_field].
  split; [done|]. split; [done|]. split; [done|]. split; [|done].
  cbn. rewrite three. apply w64_small. unfold is_u64. lia.
Qed.

(** A chunk gets the next sequence numbers of the replica's residue class, in
    order. *)
Lemma assign_chunk_spec chunk s : 0 ≤ next_seq_ s →
  next_seq_ s + 3 * Z.of_nat (length chunk) < 2 ^ 64 →
  let '(s', ms) := assign_chunk rdtsc cfg s chunk in
  length ms = length chunk ∧
  (∀ (i : nat) m, ms !! i = Some m → ∃ m0, chunk !! i = Some m0 ∧ same_request m m0 ∧
     p_seq (m_body m) = next_seq_ s + 3 * Z.of_nat i) ∧
  same_replica s s' ∧ next_seq_ s' = next_seq_ s + 3 * Z.of_nat (length chunk) ∧
  input_done_ s' = input_done_ s ∧
  Z.max (highest_proposed_seq_ s) (next_seq_ s' - 3) ≤ Z.max (highest_proposed_seq_ s') (next_seq_ s - 3) ∧
  highest_proposed_seq_ s ≤ highest_proposed_seq_ s' ≤ Z.max (highest_proposed_seq_ s) (next_seq_ s').
Proof.
  revert s. induction chunk as [|m0 chunk IH]; intros s H0 H1.
  { cbn. split; [done|]. split; [done|]. split; [done|]. split; [lia|]. split; [done|]. lia. }
  cbn [assign_chunk length] in *. pose proof (assign_one_spec s m0 H0 ltac:(lia)) as Ho.
  destruct (assign_one rdtsc cfg s m0) as [s1 m1]. destruct Ho as (Hr&Hq&Hf&Hn&Hi&Hh).
  specialize (IH s1 ltac:(lia) ltac:(lia)). destruct (assign_chunk rdtsc cfg s1 chunk) as [s2 ms].
  destruct IH as (Hl&Hms&Hf2&Hn2&Hi2&Hh2&Hh3). split; [by rewrite <- Hl|]. split; [|split].
  - intros [|i] m Hm; cbn in Hm.
    + injection Hm as <-. exists m0. rewrite Z.mul_0_r, Z.add_0_r. done.
    + destruct (Hms i m Hm) as (m0'&?&?&->). exists m0'. do 2 (split; [done|]). lia.
  - by transitivity s1.
  - split; [lia|]. split; [congruence|]. lia.
Qed.

(** The window an admitted chunk lies in. *)
Definition window_bound (W : Z) : Prop :=
  1 ≤ admission_batch_ cfg ∧ 0 ≤ admission_window_ cfg ≤ W ∧ 3 * admission_batch_ cfg + 3 ≤ W.

Lemma admit_chunk_window W chunk s s' ms : window_bound W → W < 2 ^ 32 →
  (1 ≤ length chunk)%nat → Z.of_nat (length chunk) ≤ admission_batch_ cfg →
  1 ≤ next_seq_ s < 2 ^ 62 → 0 ≤ execute_next_ s ≤ 2 ^ 62 →
  admit_chunk rdtsc cfg chunk s = Some (s', ms) →
  assign_chunk rdtsc cfg s chunk = (s', ms) ∧
  next_seq_ s + 3 * (Z.of_nat (length chunk) - 1) < execute_next_ s + W.
Proof.
  intros (Hb1&Hw&Hb) HW Hl Hlb Hn He. unfold admit_chunk, max_inflight_seq_window. rewrite three.
  set (n := Z.of_nat (length chunk)) in *. set (sz := assign_chunk rdtsc cfg s chunk).
  assert (w32 n = n) as -> by (unfold w32; apply Z.mod_small; lia).
  assert (3 *₆₄ Z.max n 1 +₆₄ 3 = 3 * n + 3) as ->.
  { rewrite Z.max_l by lia. rewrite w64_add_l. apply w64_small. unfold is_u64. lia. }
  assert (next_seq_ s +₆₄ ((n -₆₄ 1) *₆₄ 3) = next_seq_ s + 3 * (n - 1)) as ->.
  { rewrite (w64_small (n - 1)) by (unfold is_u64; lia). rewrite w64_add_r, w64_small; [lia|].
    unfold is_u64. lia. }
  rewrite w64_small by (unfold is_u64; lia).
  destruct (Z.ltb_spec (next_seq_ s + 3 * (n - 1))
    (execute_next_ s + Z.max (admission_window_ cfg) (3 * n + 3))); [|done].
  intros [= Heq]. split; [done|]. lia.
Qed.

(** ** Chunks *)
Lemma chunks_of_spec fuel cap (msgs : list BandleMessage) : (1 ≤ cap)%nat → (length msgs ≤ fuel)%nat →
  concat (chunks_of fuel cap msgs) = msgs ∧
  Forall (fun c => (1 ≤ length c ≤ cap)%nat) (chunks_of fuel cap msgs).
Proof.
  intros Hc. revert msgs. induction fuel as [|fuel IH]; intros msgs Hf.
  { destruct msgs; [done|cbn in Hf; lia]. }
  destruct msgs as [|m ms]; [done|]. cbn [chunks_of]. set (msgs := m :: ms) in *.
  destruct (IH (drop cap msgs)) as [H1 H2].
  { rewrite length_drop. unfold msgs in *. cbn [length] in *. lia. }
  cbn [concat]. rewrite H1, take_drop. split; [done|]. apply Forall_cons. split; [|done].
  rewrite length_take. unfold msgs. cbn [length]. lia.
Qed.

Lemma submit_chunks_spec proposals : 1 ≤ admission_batch_ cfg →
  concat (submit_chunks cfg proposals) = proposals ∧
  Forall (fun c => (1 ≤ length c)%nat ∧ Z.of_nat (length c) ≤ admission_batch_ cfg)
    (submit_chunks cfg proposals).
Proof.
  intros Hb. unfold submit_chunks. set (n := length proposals). unfold admission_batch_capacity.
  set (cap := Z.max 1 (Z.min (Z.max 1 (admission_batch_ cfg)) (Z.of_nat n))).
  destruct (chunks_of_spec n (Z.to_nat cap) proposals) as [H1 H2]; [lia|done|].
  split; [done|]. eapply Forall_impl; [exact H2|]. cbn. intros c Hc. lia.
Qed.

(** ** No-ops *)
Lemma noop_sendable s : sendable (noop_proposal cfg s).
Proof. split; split; try done; cbn; lia. Qed.

Lemma reserve_noop_spec now s : 0 ≤ next_seq_ s → next_seq_ s + 3 < 2 ^ 64 →
  let s' := reserve_noop cfg now s in
  same_replica s s' ∧ next_seq_ s' = next_seq_ s + 3 ∧ input_done_ s' = input_done_ s ∧
  highest_proposed_seq_ s' = Z.max (highest_proposed_seq_ s) (next_seq_ s).
Proof.
  intros H0 H1. split; [done|]. split; [|done]. cbn. rewrite three. apply w64_small.
  unfold is_u64. lia.
Qed.

Lemma should_noop_window finished now s : 0 ≤ execute_next_ s ≤ 2 ^ 62 →
  should_propose_noop_locked cfg finished now s = true →
  input_done_ s = true ∧ highest_proposed_seq_ s < execute_next_ s + 1536.
Proof.
  intros He. unfold should_propose_noop_locked. rewrite three.
  destruct (input_done_ s), finished; try done. cbn [negb orb]. case_if; [done|].
  change (3 *₆₄ 512) with 1536. rewrite w64_small by (unfold is_u64; lia).
  intros ?%Z.ltb_lt. done.
Qed.

End Admit.

(** ** Properties *)

(** A prepared proposal always fits a ring slot, whatever the scratch
    message held before, and asks for the write of the request: its key and
    value, or what remains of them when together they exceed the 1088 bytes of
    a slot. *)
Theorem proposal_carries_request (hash : bytes → Z) (cfg : Config) (old : BandleMessage)
    (req : BorrowedRequest) (key value : bytes) (Hold : full_buffer old)
    (Hk : br_key_ptr req = Some key) (Hkl : br_key_len req = Z.of_nat (length key))
    (Hv : br_value_ptr req = Some value) (Hvl : br_value_len req = Z.of_nat (length value))
    (Hw : is_write_op (br_op req) = true) :
  let key' := take (Z.to_nat kMaxValueBytes) key in
  let value' := take (Z.to_nat kMaxValueBytes - length key') value in
  msg_fits (prepare_proposal cfg old req) ∧
  message_ops hash (prepare_proposal cfg old req) =
    [{| ao_op := br_op req; ao_shard := get_shard_idx hash key'; ao_key := key';
        ao_value := if decide (br_op req = "D"%char) then [] else value' |}].
Proof.
  intros key' value'. split; [|by apply prepare_ops].
  apply (prepare_sendable cfg old req Hold). split; lia.
Qed.

(** Admission gives a chunk the next sequence numbers of the replica's
    residue class, in order, changes nothing else of the proposals, and
    happens exactly when the last of them is inside the window beyond
    [execute_next_]. *)
Theorem admission_numbers_chunk {S} (rdtsc : nat → Z) (cfg : Config) (chunk : list BandleMessage)
    (s : Node S) (H3 : cluster_size_ cfg = 3) (Hne : (1 ≤ length chunk)%nat)
    (Hlen : Z.of_nat (length chunk) < 2 ^ 31) (Hn : 0 ≤ next_seq_ s < 2 ^ 62)
    (He : 0 ≤ execute_next_ s < 2 ^ 62) (Hw : 0 ≤ admission_window_ cfg < 2 ^ 62) :
  let n := Z.of_nat (length chunk) in
  match admit_chunk rdtsc cfg chunk s with
  | Some (s', ms) =>
      next_seq_ s + 3 * (n - 1) < execute_next_ s + Z.max (admission_window_ cfg) (3 * n + 3) ∧
      length ms = length chunk ∧ next_seq_ s' = next_seq_ s + 3 * n ∧ same_replica s s' ∧
      ∀ i m, ms !! i = Some m → ∃ m0, chunk !! i = Some m0 ∧ same_request m m0 ∧
        p_seq (m_body m) = next_seq_ s + 3 * Z.of_nat i
  | None =>
      execute_next_ s + Z.max (admission_window_ cfg) (3 * n + 3) ≤ next_seq_ s + 3 * (n - 1)
  end.
Proof.
  intros n. unfold admit_chunk, max_inflight_seq_window. rewrite H3. fold n. cbv zeta.
  assert (w32 n = n) as -> by (unfold w32; apply Z.mod_small; lia).
  assert (3 *₆₄ Z.max n 1 +₆₄ 3 = 3 * n + 3) as ->.
  { rewrite Z.max_l by lia. rewrite w64_add_l. apply w64_small. unfold is_u64. lia. }
  assert (next_seq_ s +₆₄ ((n -₆₄ 1) *₆₄ 3) = next_seq_ s + 3 * (n - 1)) as ->.
  { rewrite (w64_small (n - 1)) by (unfold is_u64; lia). rewrite w64_add_r, w64_small; [lia|].
    unfold is_u64. lia. }
  rewrite w64_small by (unfold is_u64; lia).
  destruct (Z.ltb_spec (next_seq_ s + 3 * (n - 1))
    (execute_next_ s + Z.max (admission_window_ cfg) (3 * n + 3))); [|done].
  pose proof (assign_chunk_spec rdtsc cfg H3 chunk s ltac:(lia) ltac:(lia)) as Hspec.
  destruct (assign_chunk rdtsc cfg s chunk) as [s' ms].
  by destruct Hspec as (?&?&?&?&_&_&_).
Qed.

(** The chunks of a batch are its proposals, in order, none empty and none
    longer than the admission batch. *)
Theorem submit_chunks_partition (cfg : Config) (proposals : list BandleMessage)
    (Hb : 1 ≤ admission_batch_ cfg) :
  concat (submit_chunks cfg proposals) = proposals ∧
  Forall (fun c => c ≠ [] ∧ Z.of_nat (length c) ≤ admission_batch_ cfg) (submit_chunks cfg proposals).
Proof.
  destruct (submit_chunks_spec cfg proposals Hb) as [? Hf]. split; [done|].
  eapply Forall_impl; [exact Hf|]. cbn. intros c [Hc ?]. split; [|done]. intros ->. cbn in Hc. lia.
Qed.

(** ** Concrete inputs *)
Module Examples.
Import KVStore.Examples.

Definition cfg : Config := {|
  node_id_ := 2; cluster_size_ := 3; quorum_ := 2; noop_interval_us_ := 1; batch_size_ := 32;
  admission_window_ := 12; admission_batch_ := 2 |}.
Definition clock (n : nat) : Z := 10 * Z.of_nat n.

Definition request (op : ascii) (key value : bytes) : BorrowedRequest := {|
  br_op := op; br_key_ptr := Some key; br_key_len := Z.of_nat (length key);
  br_value_ptr := Some value; br_value_len := Z.of_nat (length value) |}.

Definition dirty : BandleMessage := set_data (replicate 1088 "z"%char) default_message.

Example proposal_carries_request_witness :
  message_ops length_hash (prepare_proposal cfg dirty (request "P" (str "key") (str "value"))) =
  [{| ao_op := "P"; ao_shard := get_shard_idx length_hash (str "key"); ao_key := str "key";
      ao_value := str "value" |}].
Proof.
  destruct (proposal_carries_request length_hash cfg dirty (request "P" (str "key") (str "value"))
    (str "key") (str "value")) as [_ H]; try done.
Defined.

Definition chunk : list BandleMessage :=
  [prepare_proposal cfg dirty (request "P" (str "a") (str "1"));
   prepare_proposal cfg dirty (request "G" (str "a") [])].
Definition s0 : Node unit := new_node cfg tt.

Example admission_numbers_chunk_witness :
  match admit_chunk clock cfg chunk s0 with
  | Some (s', ms) => next_seq_ s' = 8
  | None => False
  end.
Proof.
  pose proof (admission_numbers_chunk clock cfg chunk s0 eq_refl ltac:(cbn; lia) ltac:(by vm_compute)
    ltac:(by vm_compute) ltac:(by vm_compute) ltac:(by vm_compute)) as H.
  cbv zeta in H. destruct (admit_chunk clock cfg chunk s0) as [[s' ms]|].
  - destruct H as (_&_&H&_). exact H.
  - by vm_compute in H.
Defined.

Example submit_chunks_partition_witness :
  concat (submit_chunks cfg (chunk ++ chunk ++ [default_message])) = chunk ++ chunk ++ [default_message].
Proof. apply (submit_chunks_partition cfg). by vm_compute. Defined.

End Examples.
