(* ===== verification/Cluster.v ===== *)
(** The cluster: three replicas, their threads and the channels between them,
    as a step relation whose steps are the regions of [src/bandle.cpp] that run
    under [mu_] and the network calls between two of them.

    A replica proposes from one thread at a time: the trace thread until it
    calls [mark_input_done], the proposer thread after that ([input_done_]
    guards it).  Each receive thread drains one ring into its batch and handles
    the batch in chunks.  The [running_] flag is set throughout. *)
From stdpp Require Import functions.
From S2P Require Import Prelude Histogram KVStore Message Ring Transport NodeState Bandle Execute Replica Submit.

(** Where the proposing thread of a replica is. *)
Inductive Thread :=
| TIdle
| TAdmit (chunks : list (list BandleMessage))
    (* submit_borrowed_batch, waiting to admit the first chunk *)
| TSend (noop : bool) (msgs : list BandleMessage) (to : list Z) (chunks : list (list BandleMessage))
    (* broadcasting [msgs], the peers [to] are left *)
| TNoop                                  (* proposer_loop, do_noop is true *)
| TNoopRead (msg : BandleMessage).       (* propose_noop, the message is built *)

Record Cluster (C S : Type) := {
  nodes : Z → Node S;
  threads : Z → Thread;
  chans : Z * Z → C;
  inbox : Z * Z → list BandleMessage     (* batch of the receive thread (from, to) *)
}.

Arguments nodes {C S} _.
Arguments threads {C S} _.
Arguments chans {C S} _.
Arguments inbox {C S} _.

Definition is_node (i : Z) : Prop := 1 ≤ i ≤ 3.

(** What each node has issued so far, in order, as it appears on the wire. *)
Abbreviation History := (Z → list BandleMessage).

Section Steps.
Context {C S : Type} `{Chan : Channel C} `{Store : ReplicaStore S}.
Context (hash : bytes → Z) (rdtsc : Z → nat → Z) (cfg : Z → Config).

(** The replica and the thread of node [i] replaced. *)
Definition set_node (i : Z) (s : Node S) (t : Thread) (c : Cluster C S) : Cluster C S := {|
  nodes := <[i := s]> (nodes c); threads := <[i := t]> (threads c);
  chans := chans c; inbox := inbox c |}.

(** Proposals given a sequence number by a step: the proposer and the
    messages. *)
Definition Issue : Type := option (Z * list BandleMessage).

Inductive step (c : Cluster C S) : Issue → Cluster C S → Prop :=
(* submit_borrowed_batch: preparing the proposals *)
| step_submit i reqs bufs proposals s' :
    is_node i → threads c i = TIdle → input_done_ (nodes c i) = false →
    Forall full_buffer bufs → Forall valid_lengths reqs →
    prepare_proposals (cfg i) reqs bufs (nodes c i) = (proposals, s') →
    step c None (set_node i s' (TAdmit (submit_chunks (cfg i) proposals)) c)
(* the admission loop: one attempt that succeeds *)
| step_admit i chunk chunks s' msgs :
    is_node i → threads c i = TAdmit (chunk :: chunks) →
    admit_chunk (rdtsc i) (cfg i) chunk (nodes c i) = Some (s', msgs) →
    step c (Some (i, msgs)) (set_node i s' (TSend false msgs (peers i (cluster_size_ (cfg i))) chunks) c)
(* all chunks submitted: return *)
| step_return i :
    is_node i → threads c i = TAdmit [] →
    step c None (set_node i (nodes c i) TIdle c)
(* broadcast, broadcast_batch: the messages reach the next peer *)
| step_send i noop msgs peer to chunks :
    is_node i → threads c i = TSend noop msgs (peer :: to) chunks →
    ch_ready (length msgs) (chans c (i, peer)) = true →
    step c None {|
      nodes := nodes c; threads := <[i := TSend noop msgs to chunks]> (threads c);
      chans := <[(i, peer) := ch_append msgs (chans c (i, peer))]> (chans c);
      inbox := inbox c |}
(* the self-delivery of a chunk *)
| step_self i msgs chunks :
    is_node i → threads c i = TSend false msgs [] chunks →
    step c None (set_node i (self_deliver hash (rdtsc i) (cfg i) msgs (nodes c i)) (TAdmit chunks) c)
(* the self-delivery of a no-op *)
| step_self_noop i msg :
    is_node i → threads c i = TSend true [msg] [] [] →
    step c None (set_node i (self_deliver_noop hash (rdtsc i) (cfg i) msg (nodes c i)) TIdle c)
(* mark_input_done, after the last submission *)
| step_input_done i :
    is_node i → threads c i = TIdle →
    step c None (set_node i (mark_input_done (nodes c i)) TIdle c)
(* proposer_loop: the check under the lock *)
| step_noop_check i finished now :
    is_node i → threads c i = TIdle →
    should_propose_noop_locked (cfg i) finished now (nodes c i) = true →
    step c None (set_node i (nodes c i) TNoop c)
(* propose_noop: next_seq_ read outside the lock *)
| step_noop_read i :
    is_node i → threads c i = TNoop →
    step c None (set_node i (nodes c i) (TNoopRead (noop_proposal (cfg i) (nodes c i))) c)
(* propose_noop: the first locked region *)
| step_noop_reserve i msg now :
    is_node i → threads c i = TNoopRead msg →
    step c (Some (i, [msg]))
      (set_node i (reserve_noop (cfg i) now (nodes c i))
         (TSend true [msg] (peers i (cluster_size_ (cfg i))) []) c)
(* drain_source_ring *)
| step_drain i j msgs ch' :
    is_node i → is_node j → i ≠ j → inbox c (i, j) = [] →
    ch_takes (batch_size_ (cfg j)) (chans c (i, j)) msgs ch' →
    step c None {|
      nodes := nodes c; threads := threads c;
      chans := <[(i, j) := ch']> (chans c); inbox := <[(i, j) := msgs]> (inbox c) |}
(* handle_messages_batch: one locked region *)
| step_handle i j :
    is_node i → is_node j → i ≠ j → inbox c (i, j) ≠ [] →
    step c None {|
      nodes := <[j := handle_chunk hash (rdtsc j) (cfg j) (take kHandleChunk (inbox c (i, j))) (nodes c j)]>
                 (nodes c);
      threads := threads c; chans := chans c;
      inbox := <[(i, j) := drop kHandleChunk (inbox c (i, j))]> (inbox c) |}.

(** Every replica starts with the same preloaded contents, its threads just
    started. *)
Record initial (V0 : MapType) (c : Cluster C S) : Prop := {
  init_node i : is_node i → ∃ kv now, nodes c i = start_node now (new_node (cfg i) kv) ∧ store_ok kv ∧ store_view kv = V0;
  init_thread i : is_node i → threads c i = TIdle;
  init_chan i j : is_node i → is_node j → chans c (i, j) = ch_new;
  init_inbox i j : is_node i → is_node j → inbox c (i, j) = []
}.

Definition issue (l : Issue) (h : History) : History :=
  match l with
  | None => h
  | Some (i, msgs) => <[i := h i ++ (wire <$> msgs)]> h
  end.

Inductive reach (V0 : MapType) : Cluster C S → History → Prop :=
| reach_init c : initial V0 c → reach V0 c (fun _ => [])
| reach_step c h l c' : reach V0 c h → step c l c' → reach V0 c' (issue l h).

End Steps.

(** ** Sequence numbers

    Node [o] owns the numbers [o], [o + 3], [o + 6], ... *)
Definition seq_at (o : Z) (k : nat) : Z := o + 3 * Z.of_nat k.
Definition owner (q : Z) : Z := (q - 1) mod 3 + 1.
Definition turn (q : Z) : nat := Z.to_nat ((q - 1) / 3).

Lemma owner_seq_at o k : is_node o → owner (seq_at o k) = o ∧ turn (seq_at o k) = k.
Proof.
  unfold is_node, owner, turn, seq_at. intros Ho.
  assert ((o + 3 * Z.of_nat k - 1) = (o - 1) + Z.of_nat k * 3) as -> by lia.
  rewrite Z.mod_add, Z.div_add by lia. rewrite Z.mod_small, Z.div_small by lia. lia.
Qed.

Lemma seq_at_owner q : 1 ≤ q → is_node (owner q) ∧ q = seq_at (owner q) (turn q).
Proof.
  unfold is_node, owner, turn, seq_at. intros Hq.
  pose proof (Z.mod_pos_bound (q - 1) 3). pose proof (Z.div_pos (q - 1) 3).
  pose proof (Z.div_mod (q - 1) 3). lia.
Qed.

Lemma seq_at_inj o o' k k' : is_node o → is_node o' → seq_at o k = seq_at o' k' → o = o' ∧ k = k'.
Proof.
  intros Ho Ho' Heq. destruct (owner_seq_at o k Ho) as [H1 H2].
  destruct (owner_seq_at o' k' Ho') as [H3 H4]. rewrite Heq in H1, H2. split; congruence.
Qed.

(** The proposals a replica has received, when it has received the first
    [n o] that node [o] issued. *)
Definition delivered (h : History) (n : Z → nat) (q : Z) : option BandleMessage :=
  if 1 <=? q then if (turn q <? n (owner q))%nat then h (owner q) !! turn q else None else None.

(** All proposals issued. *)
Definition issued (h : History) (q : Z) : option BandleMessage :=
  delivered h (fun o => length (h o)) q.

Lemma delivered_at h n o k : is_node o →
  delivered h n (seq_at o k) = if (k <? n o)%nat then h o !! k else None.
Proof.
  intros Ho. unfold delivered. destruct (owner_seq_at o k Ho) as [-> ->].
  assert (1 ≤ seq_at o k) as H by (unfold is_node, seq_at in *; lia).
  by rewrite (proj2 (Z.leb_le _ _) H).
Qed.

Lemma delivered_some h n q m : delivered h n q = Some m →
  ∃ o k, is_node o ∧ q = seq_at o k ∧ (k < n o)%nat ∧ h o !! k = Some m.
Proof.
  unfold delivered. destruct (Z.leb_spec 1 q) as [Hq|]; [|done].
  destruct (Nat.ltb_spec (turn q) (n (owner q))) as [Hk|]; [|done]. intros Hm.
  destruct (seq_at_owner q Hq). by exists (owner q), (turn q).
Qed.

(** Numbers not yet positive name nothing; the others are [seq_at]s. *)
Lemma delivered_cases (P : option BandleMessage → option BandleMessage → Prop) h n h' n' q :
  (∀ o k, is_node o → P (delivered h n (seq_at o k)) (delivered h' n' (seq_at o k))) →
  P None None → P (delivered h n q) (delivered h' n' q).
Proof.
  intros HP HN. destruct (decide (1 ≤ q)) as [Hq|Hq].
  - destruct (seq_at_owner q Hq) as [Ho ->]. by apply HP.
  - unfold delivered. destruct (Z.leb_spec 1 q); [lia|done].
Qed.

(** Issuing changes nothing delivered before. *)
Lemma delivered_issue h n i ms q : (∀ o, is_node o → (n o ≤ length (h o))%nat) →
  delivered (<[i := h i ++ ms]> h) n q = delivered h n q.
Proof.
  intros Hn. apply (delivered_cases eq); [|done]. intros o k Ho. rewrite !delivered_at by done.
  destruct (Nat.ltb_spec k (n o)); [|done]. specialize (Hn o Ho).
  destruct (decide (i = o)) as [->|]; [|by rewrite fn_lookup_insert_ne].
  rewrite fn_lookup_insert, lookup_app_l; [done|lia].
Qed.

(** The messages next in line from [o], arrived. *)
Lemma arrived_delivered h n o msgs rest q : is_node o →
  (∀ k m, h o !! k = Some m → p_seq (m_body m) = seq_at o k) →
  drop (n o) (h o) = (wire <$> msgs) ++ rest → NoDup (seqs_of msgs) →
  arrived msgs (delivered h n) q = delivered h (<[o := (n o + length msgs)%nat]> n) q.
Proof.
  intros Ho Hseq Hd Hnd.
  assert (∀ i m, msgs !! i = Some m → h o !! (n o + i)%nat = Some (wire m) ∧
    p_seq (m_body m) = seq_at o (n o + i)) as Hmsg.
  { intros i m Hm. assert (h o !! (n o + i)%nat = Some (wire m)) as Hw.
    { rewrite <- lookup_drop, Hd, lookup_app_l.
      - by rewrite list_lookup_fmap, Hm.
      - rewrite length_fmap. by apply lookup_lt_Some in Hm. }
    split; [done|]. by apply Hseq in Hw. }
  destruct (decide (q ∈ seqs_of msgs)) as [(m&->&[i Hi]%list_elem_of_lookup)%list_elem_of_fmap|Hq].
  - cbn. destruct (Hmsg i m Hi) as [Hw Hs]. rewrite arrived_in; [|done|by eapply list_elem_of_lookup_2].
    rewrite Hs, delivered_at, fn_lookup_insert by done.
    apply lookup_lt_Some in Hi. destruct (Nat.ltb_spec (n o + i) (n o + length msgs)); [done|lia].
  - rewrite arrived_notin by done.
    destruct (decide (1 ≤ q)) as [H1|H1]; cycle 1.
    { unfold delivered. destruct (Z.leb_spec 1 q); [lia|done]. }
    destruct (seq_at_owner q H1) as [Ho' Heq]. rewrite Heq, !delivered_at by done.
    destruct (decide (o = owner q)) as [Hoq|]; [|by rewrite fn_lookup_insert_ne].
    rewrite <- Hoq, fn_lookup_insert. set (k := turn q) in *.
    destruct (Nat.ltb_spec k (n o)), (Nat.ltb_spec k (n o + length msgs)); try done; [lia|].
    exfalso. apply Hq. destruct (lookup_lt_is_Some_2 msgs (k - n o)%nat) as [m Hm]; [lia|].
    destruct (Hmsg _ _ Hm) as [_ Hs]. apply list_elem_of_fmap. exists m.
    split; [|by eapply list_elem_of_lookup_2]. cbn. rewrite Hs, Heq, <- Hoq. f_equal. lia.
Qed.

(** Messages next in line have distinct numbers. *)
Lemma next_NoDup (h : History) n o msgs rest : is_node o →
  (∀ k m, h o !! k = Some m → p_seq (m_body m) = seq_at o k) →
  drop n (h o) = (wire <$> msgs) ++ rest → NoDup (seqs_of msgs).
Proof.
  intros Ho Hseq Hd. apply NoDup_alt. intros i j q Hi Hj.
  assert (∀ i, seqs_of msgs !! i = Some q → q = seq_at o (n + i)) as Hs.
  { intros i' Hi'. rewrite list_lookup_fmap in Hi'.
    destruct (msgs !! i') as [m|] eqn:Hm; [|done]. injection Hi' as <-.
    assert (h o !! (n + i')%nat = Some (wire m)) as Hw.
    { rewrite <- lookup_drop, Hd, lookup_app_l; [by rewrite list_lookup_fmap, Hm|].
      rewrite length_fmap. by apply lookup_lt_Some in Hm. }
    by apply Hseq in Hw. }
  assert (seq_at o (n + i) = seq_at o (n + j)) as Heq by (rewrite <- Hs, <- Hs; done).
  apply seq_at_inj in Heq as [_ ?]; [lia|done..].
Qed.

(** ** The invariant *)

(** Three nodes with windows that fit the log: a proposal is at most
    [2 * kWindow + 3 < kCompletionSlots] ahead of any replica. *)
Definition kWindow : Z := 32766.

Record config_ok (cfg : Z → Config) : Prop := {
  cfg_id i : is_node i → node_id_ (cfg i) = i;
  cfg_three i : is_node i → cluster_size_ (cfg i) = 3;
  cfg_window i : is_node i → window_bound (cfg i) kWindow
}.

(** No sequence number comes near the width of a word. *)
Definition no_overflow (h : History) : Prop :=
  ∀ i, is_node i → Z.of_nat (length (h i)) < 2 ^ 60.

(** What thread [t] of node [i] still has to hand to node [j]. *)
Definition outgoing (i : Z) (t : Thread) (j : Z) : list BandleMessage :=
  match t with
  | TSend _ msgs to _ => if decide (j = i ∨ j ∈ to) then msgs else []
  | _ => []
  end.

Section Invariant.
Context {C S : Type} `{Chan : Channel C} `{!ChannelLaws C} `{Store : ReplicaStore S}.
Context (hash : bytes → Z) `{!ReplicaStoreLaws hash S}.
Context (rdtsc : Z → nat → Z) (cfg : Z → Config) (Hcfg : config_ok cfg) (V0 : MapType).
Implicit Types (c : Cluster C S) (h : History) (s : Node S).

Definition chunk_ok (i : Z) (msgs : list BandleMessage) : Prop :=
  (1 ≤ length msgs)%nat ∧ Z.of_nat (length msgs) ≤ admission_batch_ (cfg i) ∧ Forall sendable msgs.

Definition thread_ok (i : Z) (s : Node S) (t : Thread) : Prop :=
  match t with
  | TIdle => True
  | TAdmit chunks => Forall (chunk_ok i) chunks
  | TSend noop msgs to chunks =>
      msgs ≠ [] ∧ Z.of_nat (length msgs) ≤ kBandleRingCapacity ∧ Forall sendable msgs ∧
      NoDup to ∧ (∀ p, p ∈ to → is_node p ∧ p ≠ i) ∧ Forall (chunk_ok i) chunks ∧
      (noop = true → length msgs = 1%nat ∧ chunks = [])
  | TNoop => next_seq_ s < execute_next_ s + 1539
  | TNoopRead msg => next_seq_ s < execute_next_ s + 1539 ∧ p_seq (m_body msg) = next_seq_ s ∧
      sendable msg
  end.

(** [n i j] proposals of node [i] have been delivered at node [j]; the rest is
    under way: received but not handled, in the channel, or still with the
    sender. *)
Record flow_ok c h (n : Z → Z → nat) (i j : Z) : Prop := {
  flow_count : (n i j ≤ length (h i))%nat;
  flow_rest : ∃ q, (i ≠ j → ch_queue (chans c (i, j)) q) ∧ (i = j → q = [] ∧ inbox c (i, j) = []) ∧
    drop (n i j) (h i) = (wire <$> inbox c (i, j)) ++ q ++ (wire <$> outgoing i (threads c i) j)
}.

Record node_ok c h (i : Z) : Prop := {
  nd_next : next_seq_ (nodes c i) = seq_at i (length (h i));
  nd_highest : next_seq_ (nodes c i) - 3 ≤ highest_proposed_seq_ (nodes c i) ≤ next_seq_ (nodes c i);
  nd_window : next_seq_ (nodes c i) < execute_next_ (nodes c i) + kWindow + 3;
  nd_thread : thread_ok i (nodes c i) (threads c i);
  nd_history k m : h i !! k = Some m → p_seq (m_body m) = seq_at i k ∧ proposal_ok m
}.

Record cluster_inv c h (n : Z → Z → nat) : Prop := {
  ci_node i : is_node i → node_ok c h i;
  ci_flow i j : is_node i → is_node j → flow_ok c h n i j;
  ci_replica j : is_node j → replica_inv hash V0 (delivered h (fun o => n o j)) (nodes c j);
  ci_blocked j : is_node j → delivered h (fun o => n o j) (execute_next_ (nodes c j)) = None
}.

(** No replica executes past a number whose owner has not issued it. *)
Lemma exec_le_next c h n i j : cluster_inv c h n → is_node i → is_node j →
  execute_next_ (nodes c j) ≤ next_seq_ (nodes c i).
Proof.
  intros Hc Hi Hj. rewrite (nd_next _ _ _ (ci_node _ _ _ Hc i Hi)).
  destruct (Z.le_gt_cases (execute_next_ (nodes c j)) (seq_at i (length (h i)))); [done|].
  destruct (ri_prefix _ _ _ _ (ci_replica _ _ _ Hc j Hj) (seq_at i (length (h i)))) as [m Hm].
  { unfold seq_at, is_node in *. lia. }
  rewrite delivered_at in Hm by done. destruct (_ <? _)%nat; [|done].
  apply lookup_lt_Some in Hm. lia.
Qed.

(** Every proposal issued is within reach of every log. *)
Lemma issued_window c h n i j k : cluster_inv c h n → is_node i → is_node j →
  (k < length (h i))%nat → seq_at i k < execute_next_ (nodes c j) + 65536.
Proof.
  intros Hc Hi Hj Hk. pose proof (nd_next _ _ _ (ci_node _ _ _ Hc i Hi)) as Hnext.
  pose proof (nd_window _ _ _ (ci_node _ _ _ Hc i Hi)).
  pose proof (nd_window _ _ _ (ci_node _ _ _ Hc j Hj)).
  pose proof (exec_le_next c h n j i Hc Hj Hi). unfold seq_at, kWindow in *. lia.
Qed.

Lemma issued_small h i k : no_overflow h → is_node i → (k ≤ length (h i))%nat →
  1 ≤ seq_at i k < 2 ^ 62.
Proof. intros Hno Hi Hk. specialize (Hno i Hi). unfold seq_at, is_node in *. lia. Qed.

(** *** Steps inside one node *)
Lemma local_inv c h n i s' t : cluster_inv c h n → is_node i →
  same_replica (nodes c i) s' → next_seq_ s' = next_seq_ (nodes c i) →
  highest_proposed_seq_ s' = highest_proposed_seq_ (nodes c i) →
  thread_ok i s' t → (∀ j, outgoing i t j = outgoing i (threads c i) j) →
  cluster_inv (set_node i s' t c) h n.
Proof.
  intros Hc Hi Hs Hn Hh Ht Hout. split.
  - intros j Hj. destruct (ci_node _ _ _ Hc j Hj) as [? ? ? ? ?].
    destruct (decide (i = j)) as [<-|Hne].
    + split; cbn; rewrite ?fn_lookup_insert, ?Hn, ?Hh, ?(sre_exec _ _ Hs); done.
    + split; cbn; rewrite ?fn_lookup_insert_ne by done; done.
  - intros i' j Hi' Hj. destruct (ci_flow _ _ _ Hc i' j Hi' Hj) as [? Hr]. split; [done|].
    cbn. destruct (decide (i = i')) as [<-|Hne].
    + by rewrite fn_lookup_insert, Hout.
    + by rewrite fn_lookup_insert_ne.
  - intros j Hj. cbn. pose proof (ci_replica _ _ _ Hc j Hj).
    destruct (decide (i = j)) as [<-|Hne].
    + rewrite fn_lookup_insert. by apply replica_inv_frame with (nodes c i).
    + by rewrite fn_lookup_insert_ne.
  - intros j Hj. cbn. pose proof (ci_blocked _ _ _ Hc j Hj).
    destruct (decide (i = j)) as [<-|Hne].
    + by rewrite fn_lookup_insert, (sre_exec _ _ Hs).
    + by rewrite fn_lookup_insert_ne.
Qed.

(** *** Numbering proposals *)
Lemma issue_inv c h n i s' noop msgs chunks : cluster_inv c h n → is_node i →
  (∀ j, outgoing i (threads c i) j = []) →
  same_replica (nodes c i) s' →
  next_seq_ s' = next_seq_ (nodes c i) + 3 * Z.of_nat (length msgs) →
  next_seq_ s' - 3 ≤ highest_proposed_seq_ s' ≤ next_seq_ s' →
  next_seq_ s' < execute_next_ (nodes c i) + kWindow + 3 →
  (∀ k m, msgs !! k = Some m → p_seq (m_body m) = next_seq_ (nodes c i) + 3 * Z.of_nat k) →
  msgs ≠ [] → Z.of_nat (length msgs) ≤ kBandleRingCapacity → Forall sendable msgs → Forall (chunk_ok i) chunks →
  (noop = true → length msgs = 1%nat ∧ chunks = []) →
  cluster_inv (set_node i s' (TSend noop msgs (peers i 3) chunks) c) (issue (Some (i, msgs)) h) n.
Proof.
  intros Hc Hi Hout Hs Hn Hh Hw Hseq Hne Hlen Hok Hchunks.
  destruct (ci_node _ _ _ Hc i Hi) as [Hnext _ _ _ Hhist].
  assert (∀ j, is_node j → ∀ q, delivered (issue (Some (i, msgs)) h) (fun o => n o j) q =
    delivered h (fun o => n o j) q) as Hdel.
  { intros j Hj q. apply delivered_issue. intros o Ho. apply (ci_flow _ _ _ Hc o j Ho Hj). }
  split.
  - intros j Hj. destruct (decide (i = j)) as [<-|Hij].
    + split; cbn; rewrite ?fn_lookup_insert.
      * rewrite Hn, Hnext, length_app, length_fmap. unfold seq_at. lia.
      * done.
      * rewrite (sre_exec _ _ Hs). lia.
      * do 3 (split; [done|]). split; [apply NoDup_peers|]. split; [|done].
        intros p (Hp&Hr%elem_of_seqZ)%list_elem_of_filter. unfold is_node. lia.
      * intros k m [Hm|[Hk Hm]]%lookup_app_Some; [by apply Hhist|].
        rewrite list_lookup_fmap in Hm. destruct (msgs !! _) as [m'|] eqn:Hm'; [|done].
        injection Hm as <-. cbn [wire m_body p_seq]. rewrite (Hseq _ _ Hm'), Hnext. split.
        { unfold seq_at. lia. }
        apply (proj1 (proposal_ok_wire m')).
        rewrite Forall_lookup in Hok. by apply (Hok _ _ Hm').
    + destruct (ci_node _ _ _ Hc j Hj). split; cbn; by rewrite ?fn_lookup_insert_ne by done.
  - intros i' j Hi' Hj. destruct (ci_flow _ _ _ Hc i' j Hi' Hj) as [Hcount (q&Hq1&Hq2&Hd)].
    cbn. destruct (decide (i = i')) as [<-|Hii].
    + split; cbn; rewrite !fn_lookup_insert; [rewrite length_app; lia|].
      exists q. do 2 (split; [done|]). rewrite drop_app_le, Hd, Hout by done.
      rewrite fmap_nil, app_nil_r. rewrite <- app_assoc. do 2 f_equal.
      cbn [outgoing]. rewrite decide_True; [done|].
      destruct (decide (j = i)); [by left|right]. apply list_elem_of_filter.
      split; [done|]. apply elem_of_seqZ. unfold is_node in *. lia.
    + split; cbn; rewrite !fn_lookup_insert_ne by done; [done|]. by exists q.
  - intros j Hj. apply replica_inv_ext with (delivered h (fun o => n o j)); [by apply Hdel|].
    cbn. pose proof (ci_replica _ _ _ Hc j Hj). destruct (decide (i = j)) as [<-|Hij].
    + rewrite fn_lookup_insert. by apply replica_inv_frame with (nodes c i).
    + by rewrite fn_lookup_insert_ne.
  - intros j Hj. cbn [nodes set_node]. pose proof (ci_blocked _ _ _ Hc j Hj).
    rewrite Hdel by done. destruct (decide (i = j)) as [<-|Hij].
    + by rewrite fn_lookup_insert, (sre_exec _ _ Hs).
    + by rewrite fn_lookup_insert_ne.
Qed.

(** *** Network steps *)
Lemma send_inv c h n i noop msgs peer to chunks : cluster_inv c h n → is_node i →
  threads c i = TSend noop msgs (peer :: to) chunks →
  ch_ready (length msgs) (chans c (i, peer)) = true →
  cluster_inv {|
    nodes := nodes c; threads := <[i := TSend noop msgs to chunks]> (threads c);
    chans := <[(i, peer) := ch_append msgs (chans c (i, peer))]> (chans c);
    inbox := inbox c |} h n.
Proof.
  intros Hc Hi Ht Hready. destruct (ci_node _ _ _ Hc i Hi) as [? ? ? Hth ?].
  rewrite Ht in Hth. destruct Hth as (Hne&Hlen&Hok&[Hnotin Hnd]%NoDup_cons&Hto&Hchunks).
  destruct (Hto peer ltac:(left)) as [Hpeer Hpi].
  split; [| |apply Hc|apply Hc].
  - intros j Hj. destruct (ci_node _ _ _ Hc j Hj) as [? ? ? ? ?]. split; cbn; try done.
    destruct (decide (i = j)) as [<-|Hij]; [|by rewrite fn_lookup_insert_ne].
    rewrite fn_lookup_insert. do 4 (split; [done|]). split; [|done].
    intros p Hp. apply Hto. by right.
  - intros i' j Hi' Hj. destruct (ci_flow _ _ _ Hc i' j Hi' Hj) as [Hcount (q&Hq1&Hq2&Hd)].
    split; [done|]. cbn. destruct (decide (i = i')) as [<-|Hii]; cycle 1.
    { exists q. rewrite !fn_lookup_insert_ne by congruence. done. }
    rewrite fn_lookup_insert. rewrite Ht in Hd. cbn [outgoing] in Hd |- *.
    destruct (decide (j = peer)) as [->|Hjp].
    + exists (q ++ (wire <$> msgs)). rewrite fn_lookup_insert. split; [|split].
      * intros _. apply ch_append_law; [by apply Hq1|by eapply Forall_impl; [exact Hok|intros ? []]|done| |done].
        unfold kBandleRingCapacity in Hlen. lia.
      * intros <-. done.
      * rewrite decide_True in Hd by (right; left). rewrite decide_False by (intros [?|?]; done).
        by rewrite Hd, fmap_nil, app_nil_r.
    + exists q. rewrite fn_lookup_insert_ne by congruence. do 2 (split; [done|]). rewrite Hd.
      repeat f_equal. destruct (decide (j = i ∨ j ∈ to)) as [Hx|Hx].
      * rewrite decide_True; [done|]. destruct Hx; [by left|by right; right].
      * rewrite decide_False; [done|]. intros [?|[?|?]%elem_of_cons]; tauto.
Qed.

Lemma drain_inv c h n i j msgs ch' b : cluster_inv c h n → is_node i → is_node j → i ≠ j →
  inbox c (i, j) = [] → ch_takes b (chans c (i, j)) msgs ch' →
  cluster_inv {|
    nodes := nodes c; threads := threads c;
    chans := <[(i, j) := ch']> (chans c); inbox := <[(i, j) := msgs]> (inbox c) |} h n.
Proof.
  intros Hc Hi Hj Hij Hin Hdr.
  split; [intros k Hk; by destruct (ci_node _ _ _ Hc k Hk)| |apply Hc|apply Hc].
  intros i' j' Hi' Hj'. destruct (ci_flow _ _ _ Hc i' j' Hi' Hj') as [Hcount (q&Hq1&Hq2&Hd)].
  split; [done|]. cbn. destruct (decide ((i, j) = (i', j'))) as [[= <- <-]|Hne].
  - rewrite !fn_lookup_insert. destruct (ch_takes_front _ _ _ _ _ (Hq1 Hij) Hdr) as (q'&_&->&Hq').
    exists q'. split; [done|]. split; [done|]. rewrite Hd, Hin. by rewrite <- !app_assoc.
  - exists q. by rewrite !fn_lookup_insert_ne.
Qed.

(** *** Delivery *)
Definition deliver_count (n : Z → Z → nat) (o j : Z) (len : nat) (i j' : Z) : nat :=
  if decide (i = o ∧ j' = j) then (n o j + len)%nat else n i j'.

(** The next messages from [o] are fresh proposals that node [j] can take. *)
Lemma next_deliverable c h n o j msgs rest : cluster_inv c h n → no_overflow h →
  is_node o → is_node j → drop (n o j) (h o) = (wire <$> msgs) ++ rest →
  Forall proposal_ok msgs ∧ NoDup (seqs_of msgs) ∧
  Forall (deliverable (delivered h (fun i => n i j)) (nodes c j)) msgs ∧
  ∀ q, arrived msgs (delivered h (fun i => n i j)) q =
    delivered h (fun i => deliver_count n o j (length msgs) i j) q.
Proof.
  intros Hc Hno Ho Hj Hd. destruct (ci_node _ _ _ Hc o Ho) as [_ _ _ _ Hhist].
  assert (∀ k m, h o !! k = Some m → p_seq (m_body m) = seq_at o k) as Hseq by (intros; by apply Hhist).
  pose proof (next_NoDup h _ o msgs rest Ho Hseq Hd) as Hnd.
  assert (∀ m, m ∈ msgs → proposal_ok m ∧ ∃ k, (n o j ≤ k < length (h o))%nat ∧
    p_seq (m_body m) = seq_at o k) as Hm.
  { intros m [i Hi]%list_elem_of_lookup.
    assert (h o !! (n o j + i)%nat = Some (wire m)) as Hw.
    { rewrite <- lookup_drop, Hd, lookup_app_l; [by rewrite list_lookup_fmap, Hi|].
      rewrite length_fmap. by apply lookup_lt_Some in Hi. }
    destruct (Hhist _ _ Hw) as [Hs Hok]. split.
    - apply proposal_ok_wire. split; [|done]. exact (pok_type _ Hok).
    - exists (n o j + i)%nat. split; [|done]. apply lookup_lt_Some in Hw. lia. }
  split; [apply Forall_forall; intros m Hin; by apply Hm|]. split; [done|]. split.
  - apply Forall_forall. intros m Hin. destruct (Hm m Hin) as (Hok&k&Hk&Hs). split; [done|]. rewrite Hs.
    split; [apply (issued_small h o k); (done || lia)|].
    split; [apply issued_window with h n; (done || lia)|].
    rewrite delivered_at by done. destruct (Nat.ltb_spec k (n o j)); [lia|done].
  - intros q. rewrite (arrived_delivered h _ o msgs rest) by done.
    apply (delivered_cases eq); [|done]. intros o' k Ho'. rewrite !delivered_at by done.
    unfold deliver_count. destruct (decide (o = o')) as [<-|Hne].
    + rewrite fn_lookup_insert, decide_True; done.
    + rewrite fn_lookup_insert_ne, decide_False by (done || intros [? _]; congruence). done.
Qed.

Lemma deliver_node c h n o j msgs rest : cluster_inv c h n → no_overflow h →
  is_node o → is_node j → drop (n o j) (h o) = (wire <$> msgs) ++ rest →
  let s' := self_deliver hash (rdtsc j) (cfg j) msgs (nodes c j) in
  let D' := delivered h (fun i => deliver_count n o j (length msgs) i j) in
  Forall proposal_ok msgs ∧ replica_inv hash V0 D' s' ∧ same_proposer (nodes c j) s' ∧
  execute_next_ (nodes c j) ≤ execute_next_ s' ∧ D' (execute_next_ s') = None.
Proof.
  intros Hc Hno Ho Hj Hd s' D'.
  destruct (next_deliverable c h n o j msgs rest Hc Hno Ho Hj Hd) as (Hok&Hnd&Hdel&HD).
  destruct (deliver_advance_inv hash (rdtsc j) (cfg j) V0 msgs _ _ (ci_replica _ _ _ Hc j Hj) Hdel Hnd)
    as (H1&H2&H3&H4).
  split; [done|]. split; [|split; [exact H2|split; [exact H3|by unfold D'; rewrite <- HD]]].
  eapply replica_inv_ext; [|exact H1]. intros q. by rewrite HD.
Qed.

Lemma thread_ok_mono i s s' t : next_seq_ s' = next_seq_ s → execute_next_ s ≤ execute_next_ s' →
  thread_ok i s t → thread_ok i s' t.
Proof. intros Hn He. destruct t; cbn; rewrite ?Hn; try done; [lia|]. intros (?&?&?). split; [lia|done]. Qed.

(** Node [j] handles [msgs], the next ones from [o]; [c'] differs from [c] in
    node [j], in what is under way from [o] to [j], and perhaps in the thread
    of [j]. *)
Lemma deliver_cluster_inv c c' h n o j msgs rest : cluster_inv c h n → no_overflow h →
  is_node o → is_node j → drop (n o j) (h o) = (wire <$> msgs) ++ rest →
  nodes c' = <[j := self_deliver hash (rdtsc j) (cfg j) msgs (nodes c j)]> (nodes c) →
  (∀ i, i ≠ j → threads c' i = threads c i) → thread_ok j (nodes c' j) (threads c' j) →
  (∀ i j', is_node i → is_node j' → flow_ok c' h (deliver_count n o j (length msgs)) i j') →
  cluster_inv c' h (deliver_count n o j (length msgs)).
Proof.
  intros Hc Hno Ho Hj Hd Hnodes Hth Htj Hflow.
  destruct (deliver_node c h n o j msgs rest Hc Hno Ho Hj Hd) as (_&Hrep&[Hn Hh _]&He&Hblk).
  assert (∀ i, i ≠ j → nodes c' i = nodes c i) as Hother
    by (intros; by rewrite Hnodes, fn_lookup_insert_ne).
  assert (∀ j', j' ≠ j → ∀ q, delivered h (fun i => deliver_count n o j (length msgs) i j') q =
    delivered h (fun i => n i j') q) as Hdel.
  { intros j' Hj' q. apply (delivered_cases eq); [|done]. intros o' k Ho'.
    rewrite !delivered_at by done. unfold deliver_count. rewrite decide_False; [done|]. by intros [_ ?]. }
  split.
  - intros i Hi. destruct (ci_node _ _ _ Hc i Hi) as [Hni Hhi Hwi Hti Hhist].
    destruct (decide (i = j)) as [->|Hij].
    + rewrite Hnodes, fn_lookup_insert in Htj.
      split; rewrite ?Hnodes, ?fn_lookup_insert, ?Hn, ?Hh; try done. lia.
    + split; rewrite ?Hother, ?Hth by done; done.
  - exact Hflow.
  - intros j' Hj'. destruct (decide (j' = j)) as [->|Hne].
    + by rewrite Hnodes, fn_lookup_insert.
    + rewrite Hother by done. eapply replica_inv_ext; [by apply Hdel|]. by apply Hc.
  - intros j' Hj'. destruct (decide (j' = j)) as [->|Hne].
    + by rewrite Hnodes, fn_lookup_insert.
    + rewrite Hother, Hdel by done. by apply Hc.
Qed.

(** Taking the delivered messages off the front of a flow. *)
Lemma flow_advance {A} n len (l : list A) (l1 l2 : list A) : len = length l1 →
  (n ≤ length l)%nat → drop n l = l1 ++ l2 → (n + len ≤ length l)%nat ∧ drop (n + len) l = l2.
Proof.
  intros -> Hn Hd. split.
  - apply (f_equal length) in Hd. rewrite length_app, length_drop in Hd. lia.
  - rewrite <- drop_drop, Hd. apply drop_app_length.
Qed.

Lemma self_inv c h n i noop msgs chunks t' : cluster_inv c h n → no_overflow h → is_node i →
  threads c i = TSend noop msgs [] chunks →
  (∀ s, thread_ok i s t') → (∀ j, outgoing i t' j = []) →
  cluster_inv (set_node i (self_deliver hash (rdtsc i) (cfg i) msgs (nodes c i)) t' c) h
    (deliver_count n i i (length msgs)).
Proof.
  intros Hc Hno Hi Ht Hok Hout.
  destruct (ci_flow _ _ _ Hc i i Hi Hi) as [Hcount (q&_&Hq2&Hd)].
  destruct (Hq2 eq_refl) as [-> Hin]. rewrite Hin, Ht in Hd. cbn [outgoing] in Hd.
  rewrite decide_True in Hd by (by left). cbn [app fmap list_fmap] in Hd.
  apply deliver_cluster_inv with c []; try done; cbn [nodes threads set_node].
  - by rewrite app_nil_r.
  - intros i' Hne. by rewrite fn_lookup_insert_ne.
  - rewrite !fn_lookup_insert. apply Hok.
  - intros i' j Hi' Hj. destruct (ci_flow _ _ _ Hc i' j Hi' Hj) as [Hcount' (q&Hq1'&Hq2'&Hd')].
    unfold deliver_count. destruct (decide (i' = i ∧ j = i)) as [[-> ->]|Hne].
    + destruct (flow_advance (n i i) (length msgs) (h i) (wire <$> msgs) []) as [H1 H2];
        [by rewrite length_fmap|done|by rewrite app_nil_r|].
      split; [by rewrite decide_True|]. exists []. rewrite decide_True by done.
      split; [done|]. split; [done|]. cbn [chans inbox threads set_node]. by rewrite Hin, fn_lookup_insert, Hout, H2.
    + split; [by rewrite decide_False|]. exists q. rewrite decide_False by done.
      do 2 (split; [done|]). cbn [chans inbox threads set_node]. rewrite Hd'. destruct (decide (i = i')) as [<-|Hii].
      * rewrite fn_lookup_insert, Hout, Ht. cbn [outgoing]. rewrite decide_False; [done|].
        intros [?|?%not_elem_of_nil]; [|done]. by apply Hne.
      * by rewrite fn_lookup_insert_ne.
Qed.

Lemma handle_inv c h n i j : cluster_inv c h n → no_overflow h → is_node i → is_node j → i ≠ j →
  inbox c (i, j) ≠ [] →
  let msgs := take kHandleChunk (inbox c (i, j)) in
  cluster_inv {|
    nodes := <[j := handle_chunk hash (rdtsc j) (cfg j) msgs (nodes c j)]> (nodes c);
    threads := threads c; chans := chans c;
    inbox := <[(i, j) := drop kHandleChunk (inbox c (i, j))]> (inbox c) |} h
    (deliver_count n i j (length msgs)).
Proof.
  intros Hc Hno Hi Hj Hij Hne msgs.
  destruct (ci_flow _ _ _ Hc i j Hi Hj) as [Hcount (q&Hq1&_&Hd)].
  set (after := drop kHandleChunk (inbox c (i, j))).
  assert (drop (n i j) (h i) = (wire <$> msgs) ++ (wire <$> after) ++ q ++
    (wire <$> outgoing i (threads c i) j)) as Hd1.
  { unfold msgs, after. by rewrite Hd, (app_assoc (wire <$> take _ _)), <- fmap_app, take_drop. }
  destruct (deliver_node c h n i j msgs _ Hc Hno Hi Hj Hd1) as (Hok&_&[Hn _ _]&He&_).
  assert (msgs ≠ []) as Hm by (unfold msgs; by destruct (inbox c (i, j))).
  rewrite handle_chunk_proposals by done.
  eapply deliver_cluster_inv with c _; try done; cbn [nodes threads chans inbox].
  - rewrite fn_lookup_insert. destruct (ci_node _ _ _ Hc j Hj) as [_ _ _ Hth _].
    by eapply thread_ok_mono; [exact Hn|exact He|].
  - intros i' j' Hi' Hj'. destruct (ci_flow _ _ _ Hc i' j' Hi' Hj') as [Hcount' (q'&Hq1'&Hq2'&Hd')].
    unfold deliver_count. destruct (decide (i' = i ∧ j' = j)) as [[-> ->]|Hne'].
    + destruct (flow_advance (n i j) (length msgs) (h i) (wire <$> msgs) _
        ltac:(by rewrite length_fmap) Hcount Hd1) as [H1 H2].
      split; [by rewrite decide_True|]. exists q. rewrite decide_True by done.
      split; [done|]. split; [done|]. cbn [chans inbox threads]. by rewrite fn_lookup_insert, H2.
    + split; [by rewrite decide_False|]. exists q'. rewrite decide_False by done. cbn [chans inbox threads].
      rewrite fn_lookup_insert_ne by (intros [= ? ?]; by apply Hne'). done.
Qed.

(** *** Every step *)
Lemma no_overflow_issue l h : no_overflow (issue l h) → no_overflow h.
Proof.
  intros Hno. destruct l as [[i ms]|]; [|done]. intros j Hj. specialize (Hno j Hj).
  cbn in Hno. destruct (decide (i = j)) as [<-|Hne].
  - rewrite fn_lookup_insert, length_app in Hno. lia.
  - by rewrite fn_lookup_insert_ne in Hno.
Qed.

Lemma initial_inv c : initial cfg V0 c → cluster_inv c (fun _ => []) (fun _ _ => O).
Proof.
  intros Hc. split.
  - intros i Hi. destruct (init_node _ _ _ Hc i Hi) as (kv&now&Hs&Hkv&Hv).
    split; rewrite ?Hs; cbn; rewrite ?(cfg_id _ Hcfg i Hi); unfold seq_at, kWindow; try lia.
    + unfold is_node in Hi. lia.
    + unfold is_node in Hi. lia.
    + by rewrite (init_thread _ _ _ Hc i Hi).
    + done.
  - intros i j Hi Hj. split; [done|]. exists [].
    rewrite (init_thread _ _ _ Hc i Hi), (init_chan _ _ _ Hc i j Hi Hj), (init_inbox _ _ _ Hc i j Hi Hj).
    split; [|done]. intros _. apply ch_new_law.
  - intros j Hj. destruct (init_node _ _ _ Hc j Hj) as (kv&now&->&Hkv&<-).
    apply replica_inv_ext with (fun _ => None);
      [|by apply replica_inv_frame with (new_node (cfg j) kv); [split|apply new_node_inv]].
    intros q. unfold delivered. by repeat case_if.
  - intros j Hj. unfold delivered. by repeat case_if.
Qed.

Lemma self_deliver_noop_eq f g msg s : self_deliver_noop hash f g msg s = self_deliver hash f g [msg] s.
Proof.
  unfold self_deliver_noop, self_deliver. cbn [foldl]. unfold handle_proposal_locked. cbv zeta.
  by destruct (if negb (proposal_known _) then _ else _).
Qed.

Lemma submit_chunks_ok i proposals : is_node i → Forall sendable proposals →
  Forall (chunk_ok i) (submit_chunks (cfg i) proposals).
Proof.
  intros Hi Hok. destruct (cfg_window _ Hcfg i Hi) as (Hb&_&_).
  destruct (submit_chunks_spec (cfg i) proposals Hb) as [Hcat Hlen].
  rewrite <- Hcat in Hok. apply Forall_concat in Hok.
  apply Forall_forall. intros x Hx. rewrite Forall_forall in Hlen, Hok.
  destruct (Hlen x Hx). split; [done|]. split; [done|]. by apply Hok.
Qed.

Lemma admit_inv c h n i chunk chunks s' msgs : cluster_inv c h n →
  no_overflow (issue (Some (i, msgs)) h) → is_node i → threads c i = TAdmit (chunk :: chunks) →
  admit_chunk (rdtsc i) (cfg i) chunk (nodes c i) = Some (s', msgs) →
  cluster_inv (set_node i s' (TSend false msgs (peers i 3) chunks) c) (issue (Some (i, msgs)) h) n.
Proof.
  intros Hc Hno Hi Ht Ha. pose proof (no_overflow_issue _ _ Hno) as Hnoh.
  destruct (ci_node _ _ _ Hc i Hi) as [Hnext Hhigh Hwin Hth _]. rewrite Ht in Hth.
  apply Forall_cons in Hth as [(Hl&Hlb&Hok) Hchunks].
  pose proof (issued_small h i (length (h i)) Hnoh Hi ltac:(lia)) as Hsmall. rewrite <- Hnext in Hsmall.
  pose proof (ri_exec _ _ _ _ (ci_replica _ _ _ Hc i Hi)) as Hex.
  destruct (admit_chunk_window (rdtsc i) (cfg i) (cfg_three _ Hcfg i Hi) kWindow chunk (nodes c i) s' msgs
    (cfg_window _ Hcfg i Hi) ltac:(done) Hl Hlb Hsmall ltac:(lia) Ha) as [Has Hlast].
  destruct (cfg_window _ Hcfg i Hi) as (_&_&Hb). unfold kWindow in Hb.
  pose proof (assign_chunk_spec (rdtsc i) (cfg i) (cfg_three _ Hcfg i Hi) chunk (nodes c i)
    ltac:(lia) ltac:(lia)) as Hspec.
  rewrite Has in Hspec. destruct Hspec as (Hlen&Hms&Hsame&Hnext'&_&Hh1&Hh2).
  apply issue_inv; try done.
  - intros j. by rewrite Ht.
  - by rewrite Hlen.
  - lia.
  - lia.
  - intros k m Hm. by destruct (Hms k m Hm) as (?&_&_&?).
  - intros ->. cbn in Hlen. lia.
  - rewrite Hlen. unfold kBandleRingCapacity. lia.
  - apply Forall_lookup. intros k m Hm. destruct (Hms k m Hm) as (m0&Hm0&Hr&_).
    apply same_request_sendable with m0; [done|]. rewrite Forall_lookup in Hok. by eapply Hok.
Qed.

Lemma reserve_inv c h n i msg now : cluster_inv c h n →
  no_overflow (issue (Some (i, [msg])) h) → is_node i → threads c i = TNoopRead msg →
  cluster_inv (set_node i (reserve_noop (cfg i) now (nodes c i)) (TSend true [msg] (peers i 3) []) c)
    (issue (Some (i, [msg])) h) n.
Proof.
  intros Hc Hno Hi Ht. pose proof (no_overflow_issue _ _ Hno) as Hnoh.
  destruct (ci_node _ _ _ Hc i Hi) as [Hnext Hhigh Hwin Hth _]. rewrite Ht in Hth.
  destruct Hth as (Hw&Hseq&Hok).
  pose proof (issued_small h i (length (h i)) Hnoh Hi ltac:(lia)) as Hsmall. rewrite <- Hnext in Hsmall.
  destruct (reserve_noop_spec (cfg i) (cfg_three _ Hcfg i Hi) now (nodes c i) ltac:(lia) ltac:(lia))
    as (Hsame&Hn'&_&Hh').
  apply issue_inv; try done.
  - intros j. by rewrite Ht.
  - rewrite Hn', Hh'. lia.
  - rewrite Hn'. unfold kWindow. lia.
  - intros [|k] m Hm; [|done]. injection Hm as <-. rewrite Hseq. cbn. lia.
  - by apply Forall_singleton.
Qed.

Lemma step_inv c h n l c' : cluster_inv c h n → no_overflow (issue l h) →
  step hash rdtsc cfg c l c' → ∃ n', cluster_inv c' (issue l h) n'.
Proof.
  intros Hc Hno Hstep. pose proof (no_overflow_issue _ _ Hno) as Hnoh.
  destruct Hstep as [i reqs bufs ps s' Hi Ht Hin Hb Hr Hp|i chunk chunks s' msgs Hi Ht Ha|i Hi Ht
    |i noop msgs peer to chunks Hi Ht Hready|i msgs chunks Hi Ht|i msg Hi Ht|i Hi Ht
    |i finished now Hi Ht Hnoop|i Hi Ht|i msg now Hi Ht|i j msgs ch' Hi Hj Hij Hin Hd|i j Hi Hj Hij Hin].
  - exists n. pose proof (prepare_all (cfg i) reqs bufs (nodes c i) Hb Hr) as Hspec.
    rewrite Hp in Hspec. destruct Hspec as (Hok&_&Hs&[? ? ?]).
    apply local_inv; try done; [by apply submit_chunks_ok|intros j; by rewrite Ht].
  - exists n. rewrite (cfg_three _ Hcfg i Hi). by apply (admit_inv c h n i chunk).
  - exists n. apply local_inv; try done. intros j. by rewrite Ht.
  - exists n. by apply send_inv.
  - eexists. apply self_inv with false chunks; try done.
    destruct (ci_node _ _ _ Hc i Hi) as [_ _ _ Hth _]. rewrite Ht in Hth. intros s. apply Hth.
  - eexists. rewrite self_deliver_noop_eq. by apply self_inv with true [].
  - exists n. apply local_inv; try done. intros j. by rewrite Ht.
  - exists n. apply local_inv; try done; [|intros j; by rewrite Ht].
    destruct (should_noop_window (cfg i) (cfg_three _ Hcfg i Hi) finished now (nodes c i)) as [_ Hw].
    + pose proof (ri_exec _ _ _ _ (ci_replica _ _ _ Hc i Hi)). lia.
    + done.
    + cbn. pose proof (nd_highest _ _ _ (ci_node _ _ _ Hc i Hi)). lia.
  - exists n. apply local_inv; try done; [|intros j; by rewrite Ht].
    destruct (ci_node _ _ _ Hc i Hi) as [_ _ _ Hth _]. rewrite Ht in Hth. cbn.
    split; [done|]. split; [done|]. apply noop_sendable.
  - exists n. rewrite (cfg_three _ Hcfg i Hi). by apply reserve_inv.
  - exists n. by apply drain_inv with (batch_size_ (cfg j)).
  - eexists. by apply handle_inv.
Qed.

Lemma reach_inv c h : reach hash rdtsc cfg V0 c h → no_overflow h → ∃ n, cluster_inv c h n.
Proof.
  induction 1 as [c Hc|c h l c' _ IH Hstep]; intros Hno.
  - exists (fun _ _ => O). by apply initial_inv.
  - destruct (IH (no_overflow_issue _ _ Hno)) as [n Hn]. by apply (step_inv c h n l c').
Qed.

End Invariant.
