(* ===== verification/Agreement.v ===== *)
(** What the cluster guarantees, from the invariant of [Cluster]: the replicas
    apply one log, they agree wherever they have executed equally far, nothing
    issued is lost or overwritten, they converge when the network is quiet, and
    admission cannot deadlock.  [Schedule] runs the cluster on a list of
    actions; the concrete runs at the end use the key-value store and the
    rings. *)
From stdpp Require Import functions.
From S2P Require Import Prelude Histogram KVStore Message Ring Transport NodeState Bandle Execute Replica Submit Cluster.

Section Agreement.
Context {C S : Type} `{Chan : Channel C} `{!ChannelLaws C} `{Store : ReplicaStore S}.
Context (hash : bytes → Z) `{!ReplicaStoreLaws hash S}.
Context (rdtsc : Z → nat → Z) (cfg : Z → Config) (V0 : MapType).
Implicit Types (c : Cluster C S) (h : History).

Abbreviation reach := (reach hash rdtsc cfg V0).
Abbreviation inv := (cluster_inv hash cfg V0).

(** ** Consequences of the invariant *)

(** What is delivered has been issued. *)
Lemma delivered_issued c h n j q m : inv c h n → is_node j →
  delivered h (fun o => n o j) q = Some m → issued h q = Some m.
Proof.
  intros Hc Hj (o&k&Ho&->&Hk&Hm)%delivered_some. unfold issued. rewrite delivered_at by done.
  apply lookup_lt_Some in Hm as Hlt. by destruct (Nat.ltb_spec k (length (h o))); [|lia].
Qed.

Lemma inv_view c h n j : inv c h n → is_node j →
  store_view (kv_ (nodes c j)) =
    foldl spec_apply V0 (delivered_ops hash (issued h) (execute_next_ (nodes c j))).
Proof.
  intros Hc Hj. pose proof (ci_replica _ _ _ _ _ _ Hc j Hj) as Hr.
  rewrite (ri_view _ _ _ _ Hr). f_equal. symmetry. apply delivered_ops_ext. intros q Hq.
  destruct (ri_prefix _ _ _ _ Hr q Hq) as [m Hm]. rewrite Hm.
  by apply delivered_issued with c n j.
Qed.

(** The operations of the log positions [a .. b). *)
Definition log_segment (h : History) (a b : Z) : list ApplyOp :=
  seqZ a (b - a) ≫= (fun q => match issued h q with Some m => message_ops hash m | None => [] end).

Lemma log_segment_app h b : ∀ a, 1 ≤ a ≤ b →
  delivered_ops hash (issued h) b = delivered_ops hash (issued h) a ++ log_segment h a b.
Proof.
  intros a Ha. unfold delivered_ops, log_segment. rewrite <- bind_app. f_equal.
  replace (b - 1) with ((a - 1) + (b - a)) by lia. rewrite seqZ_app by lia. do 2 f_equal. lia.
Qed.

(** ** Quiet networks *)

(** Nothing is under way: receive batches and channels are empty and no thread
    is sending. *)
Record quiet c : Prop := {
  quiet_thread i j : is_node i → is_node j → outgoing i (threads c i) j = [];
  quiet_inbox i j : is_node i → is_node j → inbox c (i, j) = [];
  quiet_chan i j : is_node i → is_node j → i ≠ j → ch_drain (batch_size_ (cfg j)) (chans c (i, j)) = None
}.

Lemma quiet_delivered c h n j q : inv c h n → quiet c → is_node j →
  delivered h (fun o => n o j) q = issued h q.
Proof.
  intros Hc Hq Hj. unfold issued. apply (delivered_cases eq); [|done]. intros o k Ho.
  destruct (ci_flow _ _ _ _ _ _ Hc o j Ho Hj) as [Hcount (f&Hq1&Hq2&Hd)].
  rewrite (quiet_inbox _ Hq o j Ho Hj), (quiet_thread _ Hq o j Ho Hj) in Hd.
  assert (f = []) as ->.
  { destruct (decide (o = j)) as [Hoj|Hoj]; [by apply Hq2|].
    eapply ch_drain_none; [by apply Hq1|by apply quiet_chan]. }
  assert (n o j = length (h o)) as Hn.
  { apply (f_equal length) in Hd. rewrite length_drop in Hd. cbn in Hd. lia. }
  by rewrite !delivered_at, Hn.
Qed.

Lemma quiet_exec c h n i j : inv c h n → quiet c → is_node i → is_node j →
  execute_next_ (nodes c i) = execute_next_ (nodes c j).
Proof.
  intros Hc Hq Hi Hj.
  assert (∀ i j, is_node i → is_node j → execute_next_ (nodes c i) ≤ execute_next_ (nodes c j)) as Hle.
  { clear i j Hi Hj. intros i j Hi Hj.
    destruct (Z.le_gt_cases (execute_next_ (nodes c i)) (execute_next_ (nodes c j))) as [|Hgt]; [done|].
    pose proof (ri_exec _ _ _ _ (ci_replica _ _ _ _ _ _ Hc j Hj)).
    destruct (ri_prefix _ _ _ _ (ci_replica _ _ _ _ _ _ Hc i Hi) (execute_next_ (nodes c j))) as [m Hm];
      [lia|].
    rewrite (quiet_delivered c h n i) in Hm by done.
    pose proof (ci_blocked _ _ _ _ _ _ Hc j Hj) as Hb.
    rewrite (quiet_delivered c h n j) in Hb by done. congruence. }
  pose proof (Hle i j Hi Hj). pose proof (Hle j i Hj Hi). lia.
Qed.

(** In a quiet network the position everyone waits for is the next number of
    its owner. *)
Lemma quiet_owner c h n j : inv c h n → quiet c → is_node j →
  let o := owner (execute_next_ (nodes c j)) in
  is_node o ∧ next_seq_ (nodes c o) = execute_next_ (nodes c o).
Proof.
  intros Hc Hq Hj o. pose proof (ri_exec _ _ _ _ (ci_replica _ _ _ _ _ _ Hc j Hj)) as [Hx _].
  destruct (seq_at_owner _ Hx) as [Ho Heq]. fold o in Ho, Heq. split; [done|].
  rewrite (quiet_exec c h n o j) by done.
  pose proof (exec_le_next hash cfg V0 c h n o j Hc Ho Hj) as Hle.
  pose proof (ci_blocked _ _ _ _ _ _ Hc j Hj) as Hb.
  rewrite (quiet_delivered c h n j) in Hb by done. unfold issued in Hb.
  rewrite Heq, delivered_at in Hb by done.
  rewrite (nd_next _ _ _ _ (ci_node _ _ _ _ _ _ Hc o Ho)) in Hle |- *.
  destruct (Nat.ltb_spec (turn (execute_next_ (nodes c j))) (length (h o))) as [Hlt|Hge].
  - by apply lookup_ge_None in Hb; lia.
  - rewrite Heq in Hle |- *. unfold seq_at in *. lia.
Qed.

(** A replica whose next number is the one it waits for can admit a chunk. *)
Lemma owner_admits c h n o chunk chunks : config_ok cfg → inv c h n → is_node o →
  next_seq_ (nodes c o) = execute_next_ (nodes c o) → threads c o = TAdmit (chunk :: chunks) →
  is_Some (admit_chunk (rdtsc o) (cfg o) chunk (nodes c o)).
Proof.
  intros Hcfg Hc Ho Hnext Ht.
  pose proof (nd_thread _ _ _ _ (ci_node _ _ _ _ _ _ Hc o Ho)) as Hth. rewrite Ht in Hth.
  apply Forall_cons in Hth as [(Hl&Hlb&_) _].
  pose proof (ri_exec _ _ _ _ (ci_replica _ _ _ _ _ _ Hc o Ho)).
  destruct (cfg_window _ Hcfg o Ho) as (_&Hw&Hb). unfold kWindow in Hw, Hb.
  unfold admit_chunk, max_inflight_seq_window. rewrite (cfg_three _ Hcfg o Ho), Hnext.
  set (len := Z.of_nat (length chunk)) in *. set (E := execute_next_ (nodes c o)) in *.
  rewrite !(w64_small (len - 1)), w64_add_r by (unfold is_u64; lia).
  assert (w32 len = len) as -> by (unfold w32; apply Z.mod_small; lia).
  rewrite (Z.max_l len 1), w64_add_l by lia.
  rewrite (w64_small (3 * len + 3)) by (unfold is_u64; lia).
  rewrite !w64_small by (unfold is_u64; lia).
  rewrite (proj2 (Z.ltb_lt _ _)); [by eexists|lia].
Qed.

End Agreement.

(** ** Running the cluster *)
#[export] Instance is_node_dec i : Decision (is_node i).
Proof. unfold is_node. apply _. Defined.

#[export] Instance full_buffer_dec m : Decision (full_buffer m).
Proof. unfold full_buffer. apply _. Defined.

#[export] Instance valid_lengths_dec req : Decision (valid_lengths req).
Proof. unfold valid_lengths. apply _. Defined.

Module Schedule.

(** A step, by its node and its inputs. *)
Inductive Action :=
| Submit (i : Z) (reqs : list BorrowedRequest) (bufs : list BandleMessage)
| Admit (i : Z)
| Return (i : Z)
| Send (i : Z)
| SelfDeliver (i : Z)
| InputDone (i : Z)
| NoopCheck (i : Z) (finished : bool) (now : Z)
| NoopRead (i : Z)
| NoopReserve (i now : Z)
| Drain (i j : Z)
| Handle (i j : Z).

Section Run.
Context {C S : Type} `{Chan : Channel C} `{!ChannelLaws C} `{Store : ReplicaStore S}.
Context (hash : bytes → Z) (rdtsc : Z → nat → Z) (cfg : Z → Config).
Implicit Types (c : Cluster C S) (h : History).

Definition act (a : Action) c : option (Issue * Cluster C S) :=
  match a with
  | Submit i reqs bufs =>
      match threads c i with
      | TIdle =>
          if decide (is_node i ∧ input_done_ (nodes c i) = false ∧ Forall full_buffer bufs ∧
                     Forall valid_lengths reqs)
          then let '(ps, s') := prepare_proposals (cfg i) reqs bufs (nodes c i) in
               Some (None, set_node i s' (TAdmit (submit_chunks (cfg i) ps)) c)
          else None
      | _ => None
      end
  | Admit i =>
      match threads c i with
      | TAdmit (chunk :: chunks) =>
          if decide (is_node i) then
            match admit_chunk (rdtsc i) (cfg i) chunk (nodes c i) with
            | Some (s', msgs) =>
                Some (Some (i, msgs),
                  set_node i s' (TSend false msgs (peers i (cluster_size_ (cfg i))) chunks) c)
            | None => None
            end
          else None
      | _ => None
      end
  | Return i =>
      match threads c i with
      | TAdmit [] => if decide (is_node i) then Some (None, set_node i (nodes c i) TIdle c) else None
      | _ => None
      end
  | Send i =>
      match threads c i with
      | TSend noop msgs (peer :: to) chunks =>
          if decide (is_node i ∧ ch_ready (length msgs) (chans c (i, peer)) = true) then
            Some (None, {|
              nodes := nodes c; threads := <[i := TSend noop msgs to chunks]> (threads c);
              chans := <[(i, peer) := ch_append msgs (chans c (i, peer))]> (chans c);
              inbox := inbox c |})
          else None
      | _ => None
      end
  | SelfDeliver i =>
      match threads c i with
      | TSend false msgs [] chunks =>
          if decide (is_node i)
          then Some (None, set_node i (self_deliver hash (rdtsc i) (cfg i) msgs (nodes c i)) (TAdmit chunks) c)
          else None
      | TSend true [msg] [] [] =>
          if decide (is_node i)
          then Some (None, set_node i (self_deliver_noop hash (rdtsc i) (cfg i) msg (nodes c i)) TIdle c)
          else None
      | _ => None
      end
  | InputDone i =>
      match threads c i with
      | TIdle => if decide (is_node i)
                 then Some (None, set_node i (mark_input_done (nodes c i)) TIdle c) else None
      | _ => None
      end
  | NoopCheck i finished now =>
      match threads c i with
      | TIdle =>
          if decide (is_node i ∧ should_propose_noop_locked (cfg i) finished now (nodes c i) = true)
          then Some (None, set_node i (nodes c i) TNoop c) else None
      | _ => None
      end
  | NoopRead i =>
      match threads c i with
      | TNoop => if decide (is_node i)
                 then Some (None, set_node i (nodes c i) (TNoopRead (noop_proposal (cfg i) (nodes c i))) c)
                 else None
      | _ => None
      end
  | NoopReserve i now =>
      match threads c i with
      | TNoopRead msg =>
          if decide (is_node i)
          then Some (Some (i, [msg]), set_node i (reserve_noop (cfg i) now (nodes c i))
                 (TSend true [msg] (peers i (cluster_size_ (cfg i))) []) c)
          else None
      | _ => None
      end
  | Drain i j =>
      if decide (is_node i ∧ is_node j ∧ i ≠ j ∧ length (inbox c (i, j)) = O) then
        match ch_drain (batch_size_ (cfg j)) (chans c (i, j)) with
        | Some (msgs, ch') => Some (None, {|
            nodes := nodes c; threads := threads c;
            chans := <[(i, j) := ch']> (chans c); inbox := <[(i, j) := msgs]> (inbox c) |})
        | None => None
        end
      else None
  | Handle i j =>
      if decide (is_node i ∧ is_node j ∧ i ≠ j ∧ length (inbox c (i, j)) ≠ O) then
        Some (None, {|
          nodes := <[j := handle_chunk hash (rdtsc j) (cfg j) (take kHandleChunk (inbox c (i, j)))
                            (nodes c j)]> (nodes c);
          threads := threads c; chans := chans c;
          inbox := <[(i, j) := drop kHandleChunk (inbox c (i, j))]> (inbox c) |})
      else None
  end.

Lemma act_step a c l c' : act a c = Some (l, c') → step hash rdtsc cfg c l c'.
Proof.
  destruct a; cbn; intros H; repeat case_match; simplify_eq;
    repeat match goal with H : _ ∧ _ |- _ => destruct H end; try by econstructor.
  - apply step_drain; try done; [by apply length_zero_iff_nil|by apply ch_drain_takes].
  - apply step_handle; try done. intros Hn.
    match goal with H : length _ ≠ O |- _ => apply H; by rewrite Hn end.
Qed.

(** The actions in order, and what was issued. *)
Fixpoint run (acts : list Action) (c : Cluster C S) (h : History) : option (Cluster C S * History) :=
  match acts with
  | [] => Some (c, h)
  | a :: acts' =>
      match act a c with
      | Some (l, c') => run acts' c' (issue l h)
      | None => None
      end
  end.

Lemma run_reach V0 acts c h c' h' : reach hash rdtsc cfg V0 c h → run acts c h = Some (c', h') →
  reach hash rdtsc cfg V0 c' h'.
Proof.
  revert c h. induction acts as [|a acts IH]; intros c h Hr Hrun; cbn in Hrun; [by simplify_eq|].
  destruct (act a c) as [[l c1]|] eqn:Ha; [|done]. eapply IH; [|done].
  eapply reach_step; [done|]. by eapply act_step.
Qed.

End Run.
End Schedule.

(** ** Properties *)
Section Properties.
Context {C S : Type} `{Chan : Channel C} `{!ChannelLaws C} `{Store : ReplicaStore S}.
Context (hash : bytes → Z) `{!ReplicaStoreLaws hash S}.
Context (rdtsc : Z → nat → Z) (cfg : Z → Config) (V0 : MapType).
Implicit Types (c : Cluster C S) (h : History).

(** C1: the cluster is one replicated state machine: in every reachable state
    the store of every replica is the initial contents with the writes of the
    proposals numbered below its [execute_next_] applied in the order of their
    numbers, all of which have been issued. *)
Theorem replicas_apply_one_log c h j (Hcfg : config_ok cfg)
    (Hr : reach hash rdtsc cfg V0 c h) (Hno : no_overflow h) (Hj : is_node j) :
  let s := nodes c j in
  store_view (kv_ s) = foldl spec_apply V0 (delivered_ops hash (issued h) (execute_next_ s)) ∧
  ∀ q, 1 ≤ q < execute_next_ s → is_Some (issued h q).
Proof.
  intros s. destruct (reach_inv hash rdtsc cfg Hcfg V0 c h Hr Hno) as [n Hc]. split.
  - by apply (inv_view hash cfg V0 c h n j).
  - intros q Hq. destruct (ri_prefix _ _ _ _ (ci_replica _ _ _ _ _ _ Hc j Hj) q Hq) as [m Hm].
    exists m. by apply (delivered_issued hash cfg V0 c h n j).
Qed.

(** Replicas never diverge: the store of a replica that is ahead is the
    store of one that is behind with the log positions between them applied;
    replicas that have executed equally far have equal contents. *)
Theorem replicas_agree c h i j (Hcfg : config_ok cfg)
    (Hr : reach hash rdtsc cfg V0 c h) (Hno : no_overflow h) (Hi : is_node i) (Hj : is_node j)
    (Hle : execute_next_ (nodes c i) ≤ execute_next_ (nodes c j)) :
  store_view (kv_ (nodes c j)) =
    foldl spec_apply (store_view (kv_ (nodes c i)))
      (log_segment hash h (execute_next_ (nodes c i)) (execute_next_ (nodes c j))) ∧
  (execute_next_ (nodes c i) = execute_next_ (nodes c j) →
   store_view (kv_ (nodes c i)) = store_view (kv_ (nodes c j))).
Proof.
  destruct (reach_inv hash rdtsc cfg Hcfg V0 c h Hr Hno) as [n Hc].
  pose proof (inv_view hash cfg V0 c h n i Hc Hi) as Hvi.
  pose proof (inv_view hash cfg V0 c h n j Hc Hj) as Hvj.
  split; [|intros He; by rewrite Hvi, Hvj, He].
  rewrite Hvi, Hvj, (log_segment_app hash h _ (execute_next_ (nodes c i))), foldl_app; [done|].
  pose proof (ri_exec _ _ _ _ (ci_replica _ _ _ _ _ _ Hc i Hi)). lia.
Qed.

(** C12: no proposal is lost, and none is overwritten in a log before it is
    executed: for every replica, an issued proposal has been executed, or the
    replica's log holds it, or it is in a receive batch, in the channel or
    still with the sender. *)
Theorem no_proposal_lost c h o j k m (Hcfg : config_ok cfg)
    (Hr : reach hash rdtsc cfg V0 c h) (Hno : no_overflow h) (Ho : is_node o) (Hj : is_node j)
    (Hm : h o !! k = Some m) :
  seq_at o k < execute_next_ (nodes c j) ∨ holds hash (nodes c j) (seq_at o k) m ∨
  ∃ q, (o ≠ j → ch_queue (chans c (o, j)) q) ∧
    m ∈ (wire <$> inbox c (o, j)) ++ q ++ (wire <$> outgoing o (threads c o) j).
Proof.
  destruct (reach_inv hash rdtsc cfg Hcfg V0 c h Hr Hno) as [n Hc].
  destruct (ci_flow _ _ _ _ _ _ Hc o j Ho Hj) as [Hcount (q&Hq1&_&Hd)].
  destruct (Nat.lt_ge_cases k (n o j)) as [Hk|Hk].
  - destruct (Z.lt_ge_cases (seq_at o k) (execute_next_ (nodes c j))) as [?|Hge]; [by left|].
    right; left. apply (ri_holds _ _ _ _ (ci_replica _ _ _ _ _ _ Hc j Hj)); [|done].
    rewrite delivered_at by done. by destruct (Nat.ltb_spec k (n o j)); [|lia].
  - right; right. exists q. split; [done|]. rewrite <- Hd.
    apply list_elem_of_lookup. exists (k - n o j)%nat. rewrite lookup_drop.
    by replace (n o j + (k - n o j))%nat with k by lia.
Qed.

(** C18: every log position is issued at most once, by the node that owns it:
    the [k]-th proposal of node [i] carries [i + 3 k], and two issued proposals
    with the same number are the same one. *)
Theorem positions_issued_once c h i j k k' m m' (Hcfg : config_ok cfg)
    (Hr : reach hash rdtsc cfg V0 c h) (Hno : no_overflow h) (Hi : is_node i) (Hj : is_node j)
    (Hm : h i !! k = Some m) (Hm' : h j !! k' = Some m') :
  p_seq (m_body m) = i + 3 * Z.of_nat k ∧
  (p_seq (m_body m) = p_seq (m_body m') → i = j ∧ k = k').
Proof.
  destruct (reach_inv hash rdtsc cfg Hcfg V0 c h Hr Hno) as [n Hc].
  destruct (nd_history _ _ _ _ (ci_node _ _ _ _ _ _ Hc i Hi) k m Hm) as [Hs _].
  destruct (nd_history _ _ _ _ (ci_node _ _ _ _ _ _ Hc j Hj) k' m' Hm') as [Hs' _].
  split; [done|]. rewrite Hs, Hs'. by apply seq_at_inj.
Qed.

(** C13: when nothing is under way any more, all replicas have executed equally
    far and hold the same contents. *)
Theorem quiet_convergence c h i j (Hcfg : config_ok cfg)
    (Hr : reach hash rdtsc cfg V0 c h) (Hno : no_overflow h) (Hq : quiet cfg c)
    (Hi : is_node i) (Hj : is_node j) :
  execute_next_ (nodes c i) = execute_next_ (nodes c j) ∧
  store_view (kv_ (nodes c i)) = store_view (kv_ (nodes c j)).
Proof.
  destruct (reach_inv hash rdtsc cfg Hcfg V0 c h Hr Hno) as [n Hc].
  pose proof (quiet_exec hash cfg V0 c h n i j Hc Hq Hi Hj) as He. split; [done|].
  by rewrite (inv_view hash cfg V0 c h n i), (inv_view hash cfg V0 c h n j), He.
Qed.

(** The admission window cannot deadlock the cluster: when nothing is under
    way, the replica that owns the position every replica waits for can admit
    its next chunk, if it has one. *)
Theorem admission_never_deadlocks c h j chunk chunks (Hcfg : config_ok cfg)
    (Hr : reach hash rdtsc cfg V0 c h) (Hno : no_overflow h) (Hq : quiet cfg c) (Hj : is_node j)
    (Ht : threads c (owner (execute_next_ (nodes c j))) = TAdmit (chunk :: chunks)) :
  let o := owner (execute_next_ (nodes c j)) in
  is_Some (admit_chunk (rdtsc o) (cfg o) chunk (nodes c o)).
Proof.
  intros o. destruct (reach_inv hash rdtsc cfg Hcfg V0 c h Hr Hno) as [n Hc].
  destruct (quiet_owner hash cfg V0 c h n j Hc Hq Hj) as [Ho Hnext].
  by eapply (owner_admits hash rdtsc cfg V0 c h n).
Qed.

(** The number [propose_noop] reads before it takes the lock is still the
    next one when the lock is held. *)
Theorem noop_read_is_current c h i msg (Hcfg : config_ok cfg)
    (Hr : reach hash rdtsc cfg V0 c h) (Hno : no_overflow h) (Hi : is_node i)
    (Ht : threads c i = TNoopRead msg) :
  p_seq (m_body msg) = next_seq_ (nodes c i).
Proof.
  destruct (reach_inv hash rdtsc cfg Hcfg V0 c h Hr Hno) as [n Hc].
  pose proof (nd_thread _ _ _ _ (ci_node _ _ _ _ _ _ Hc i Hi)) as Hth. rewrite Ht in Hth.
  apply Hth.
Qed.

(** C19: no replica executes past a position that its owner has not issued, and
    every issued position is less than a log length ahead of every replica, so
    that two proposals waiting in a log never share a cell. *)
Theorem log_window c h i j k m (Hcfg : config_ok cfg)
    (Hr : reach hash rdtsc cfg V0 c h) (Hno : no_overflow h) (Hi : is_node i) (Hj : is_node j)
    (Hm : h i !! k = Some m) :
  execute_next_ (nodes c j) ≤ next_seq_ (nodes c i) ∧
  p_seq (m_body m) < execute_next_ (nodes c j) + kCompletionSlots.
Proof.
  destruct (reach_inv hash rdtsc cfg Hcfg V0 c h Hr Hno) as [n Hc]. split.
  - by apply (exec_le_next hash cfg V0 c h n).
  - destruct (nd_history _ _ _ _ (ci_node _ _ _ _ _ _ Hc i Hi) k m Hm) as [-> _].
    apply lookup_lt_Some in Hm. by apply (issued_window hash cfg V0 c h n).
Qed.

End Properties.

(** ** Concrete runs *)
Module Examples.
Import Schedule KVStore.Examples.

#[local] Instance rep : ReplicaStore KVStore := kv_replica length_hash.
#[local] Instance rep_laws : ReplicaStoreLaws length_hash KVStore := kv_replica_laws length_hash.

Definition cfg (i : Z) : Config := {|
  node_id_ := i; cluster_size_ := 3; quorum_ := 2; noop_interval_us_ := 1; batch_size_ := 32;
  admission_window_ := 192; admission_batch_ := 32 |}.

Lemma cfg_is_made i : is_node i → make_config i 3 1 32 192 32 = Some (cfg i).
Proof.
  unfold is_node. intros. assert (i = 1 ∨ i = 2 ∨ i = 3) as [-> |[-> | ->]] by lia; done.
Qed.

Lemma cfg_ok : config_ok cfg.
Proof. by split. Qed.

Definition clock (i : Z) (n : nat) : Z := 1000 * i + 10 * Z.of_nat n.
Definition V0 : MapType := take_snapshot empty_store.

Definition c0 : Cluster SpscRing KVStore := {|
  nodes i := new_node (cfg i) empty_store; threads _ := TIdle; chans _ := empty_ring;
  inbox _ := [] |}.

Lemma c0_initial : initial cfg V0 c0.
Proof.
  split; try done. intros i Hi. exists empty_store, 0. split; [done|]. split; [|done].
  apply empty_store_wf.
Qed.

Definition req (op : ascii) (key value : bytes) : BorrowedRequest := {|
  br_op := op; br_key_ptr := Some key; br_key_len := Z.of_nat (length key);
  br_value_ptr := Some value; br_value_len := Z.of_nat (length value) |}.

(** Two writes and a read at node 1, an update at node 2, two no-ops at node 3. *)
Definition submit1 : list Action :=
  [Submit 1 [req "P" (str "k") (str "one"); req "P" (str "gone") (str "x"); req "G" (str "k") []] []].
Definition rest1 : list Action :=
  [Admit 1; Send 1; Send 1; SelfDeliver 1; Return 1].
Definition node2 : list Action :=
  [Submit 2 [req "U" (str "k") (str "two"); req "D" (str "gone") []] []; Admit 2; Send 2; Send 2;
   SelfDeliver 2; Return 2].
Definition noop3 (now : Z) : list Action := [NoopCheck 3 false now; NoopRead 3].
Definition noop3_rest (now : Z) : list Action :=
  [NoopReserve 3 now; Send 3; Send 3; SelfDeliver 3].
Definition deliver (i j : Z) : list Action := [Drain i j; Handle i j].

Definition result (acts : list Action) : Cluster SpscRing KVStore * History :=
  default (c0, fun _ => []) (run length_hash clock cfg acts c0 (fun _ => [])).

Definition runs (acts : list Action) : bool :=
  match run length_hash clock cfg acts c0 (fun _ => []) with
  | Some _ => true | None => false end.

Lemma result_reach acts : runs acts = true →
  reach length_hash clock cfg V0 (result acts).1 (result acts).2.
Proof.
  unfold runs, result. destruct (run _ _ _ _ _ _) as [[c h]|] eqn:Hr; [|done]. intros _.
  eapply run_reach; [|exact Hr]. apply reach_init, c0_initial.
Qed.

Lemma no_overflow_check h :
  forallb (fun i => Z.of_nat (length (h i)) <? 2 ^ 60) [1; 2; 3] = true → no_overflow h.
Proof.
  cbn [forallb]. intros H i Hi. unfold is_node in Hi.
  apply andb_prop in H as [H1 [H2 [H3 _]%andb_prop]%andb_prop].
  assert (i = 1 ∨ i = 2 ∨ i = 3) as [-> |[-> | ->]] by lia; by apply Z.ltb_lt.
Qed.

(** Everything handed out, half of it delivered. *)
Definition halfway : list Action :=
  submit1 ++ rest1 ++ node2 ++ [InputDone 3] ++ noop3 5000 ++ noop3_rest 5000 ++
  deliver 1 2 ++ deliver 3 2.
Definition whole : list Action :=
  halfway ++ deliver 1 3 ++ deliver 2 1 ++ deliver 2 3 ++ deliver 3 1 ++ noop3 10000 ++
  noop3_rest 10000 ++ deliver 3 1 ++ deliver 3 2.

Lemma halfway_runs : runs halfway = true.
Proof. by vm_compute. Qed.
Lemma halfway_small : no_overflow (result halfway).2.
Proof. apply no_overflow_check. by vm_compute. Qed.
Lemma whole_runs : runs whole = true.
Proof. by vm_compute. Qed.
Lemma whole_small : no_overflow (result whole).2.
Proof. apply no_overflow_check. by vm_compute. Qed.

Lemma exec_halfway : (fun i => execute_next_ (nodes (result halfway).1 i)) <$> [1; 2; 3] = [2; 6; 1].
Proof. by vm_compute. Qed.

Abbreviation half := (result halfway).
Abbreviation done_ := (result whole).
Abbreviation contents c i := (store_view (kv_ (nodes c i))).

Lemma node1 : is_node 1. Proof. by vm_compute. Qed.
Lemma node2' : is_node 2. Proof. by vm_compute. Qed.
Lemma node3 : is_node 3. Proof. by vm_compute. Qed.

(** Quietness, by evaluation over the nine pairs. *)
Definition quiet_check (c : Cluster SpscRing KVStore) : bool :=
  forallb (fun i => forallb (fun j =>
    bool_decide (length (outgoing i (threads c i) j) = O) &&
    bool_decide (length (inbox c (i, j)) = O) &&
    ((i =? j) || match ch_drain 32 (chans c (i, j)) with None => true | Some _ => false end))
    [1; 2; 3]) [1; 2; 3].

Lemma quiet_check_sound c : quiet_check c = true → quiet cfg c.
Proof.
  intros H. unfold quiet_check in H. rewrite forallb_forall in H.
  assert (∀ i j, is_node i → is_node j →
    outgoing i (threads c i) j = [] ∧ inbox c (i, j) = [] ∧
    (i ≠ j → ch_drain 32 (chans c (i, j)) = None)) as Hall.
  { intros i j Hi Hj. unfold is_node in *. specialize (H i).
    assert (List.In i [1; 2; 3]) as Hin by (cbn; lia). specialize (H Hin).
    rewrite forallb_forall in H. specialize (H j).
    assert (List.In j [1; 2; 3]) as Hin' by (cbn; lia). specialize (H Hin').
    apply andb_prop in H as [[H1 H2]%andb_prop H3]. apply bool_decide_eq_true in H1, H2.
    split; [by apply length_zero_iff_nil|]. split; [by apply length_zero_iff_nil|].
    intros Hne. rewrite (proj2 (Z.eqb_neq i j) Hne) in H3. cbn [orb] in H3. by case_match. }
  split; intros; by apply Hall.
Qed.

Lemma whole_quiet : quiet cfg done_.1.
Proof. apply quiet_check_sound. by vm_compute. Qed.

Example replicas_apply_one_log_witness :
  contents half.1 2 = foldl spec_apply V0 (delivered_ops length_hash (issued half.2) 6).
Proof.
  exact (proj1 (replicas_apply_one_log length_hash clock cfg V0
    half.1 half.2 2 cfg_ok (result_reach halfway halfway_runs) halfway_small node2')).
Defined.

Example replicas_agree_witness :
  contents half.1 2 = foldl spec_apply (contents half.1 1) (log_segment length_hash half.2 2 6).
Proof.
  refine (proj1 (replicas_agree length_hash clock cfg V0 half.1 half.2 1 2 cfg_ok (result_reach halfway halfway_runs) halfway_small
    node1 node2' _)). by vm_compute.
Defined.

(** The third proposal of node 1 (the read, position 7) is still on its way to
    node 3. *)
Definition third : BandleMessage := default default_message (half.2 1 !! 2%nat).

Lemma third_issued : half.2 1 !! 2%nat = Some third.
Proof. by vm_compute. Qed.

Example no_proposal_lost_witness :
  seq_at 1 2 < execute_next_ (nodes half.1 3) ∨ holds length_hash (nodes half.1 3) (seq_at 1 2) third ∨
  ∃ q, (1 ≠ 3 → ch_queue (chans half.1 (1, 3)) q) ∧
    third ∈ (wire <$> inbox half.1 (1, 3)) ++ q ++ (wire <$> outgoing 1 (threads half.1 1) 3).
Proof.
  exact (no_proposal_lost length_hash clock cfg V0 half.1 half.2 1 3 2 third cfg_ok
    (result_reach halfway halfway_runs) halfway_small node1 node3 third_issued).
Defined.

Example positions_issued_once_witness : p_seq (m_body third) = 7.
Proof.
  exact (proj1 (positions_issued_once length_hash clock cfg V0 half.1 half.2 1 1 2 2 third third cfg_ok
    (result_reach halfway halfway_runs) halfway_small node1 node1 third_issued third_issued)).
Defined.

Example quiet_convergence_witness : contents done_.1 1 = contents done_.1 3.
Proof.
  exact (proj2 (quiet_convergence length_hash clock cfg V0 done_.1 done_.2 1 3 cfg_ok
    (result_reach whole whole_runs) whole_small whole_quiet node1 node3)).
Defined.

(** All three executed up to position 7, and hold the updated value. *)
Example whole_result :
  (fun i => (execute_next_ (nodes done_.1 i), contents done_.1 i !! str "k",
             contents done_.1 i !! str "gone")) <$> [1; 2; 3] =
  replicate 3 (8, Some (str "two"), None).
Proof. by vm_compute. Qed.

Definition waiting := result submit1.
Lemma submit1_runs : runs submit1 = true.
Proof. by vm_compute. Qed.
Lemma submit1_small : no_overflow waiting.2.
Proof. apply no_overflow_check. by vm_compute. Qed.
Lemma submit1_quiet : quiet cfg waiting.1.
Proof. apply quiet_check_sound. by vm_compute. Qed.

Definition first_chunk : list BandleMessage :=
  match threads waiting.1 1 with TAdmit (chunk :: _) => chunk | _ => [] end.
Lemma waiting_thread : threads waiting.1 (owner (execute_next_ (nodes waiting.1 1))) = TAdmit [first_chunk].
Proof. by vm_compute. Qed.

Example admission_never_deadlocks_witness :
  let o := owner (execute_next_ (nodes waiting.1 1)) in
  is_Some (admit_chunk (clock o) (cfg o) first_chunk (nodes waiting.1 o)).
Proof.
  exact (admission_never_deadlocks length_hash clock cfg V0 waiting.1 waiting.2 1 first_chunk [] cfg_ok
    (result_reach submit1 submit1_runs) submit1_small submit1_quiet node1 waiting_thread).
Defined.

Definition noop_read : list Action := [InputDone 3] ++ noop3 5000.
Lemma noop_read_runs : runs noop_read = true.
Proof. by vm_compute. Qed.
Lemma noop_read_small : no_overflow (result noop_read).2.
Proof. apply no_overflow_check. by vm_compute. Qed.
Lemma noop_read_thread :
  threads (result noop_read).1 3 = TNoopRead (noop_proposal (cfg 3) (nodes (result noop_read).1 3)).
Proof. by vm_compute. Qed.

Example noop_read_is_current_witness :
  p_seq (m_body (noop_proposal (cfg 3) (nodes (result noop_read).1 3))) =
  next_seq_ (nodes (result noop_read).1 3).
Proof.
  exact (noop_read_is_current length_hash clock cfg V0 (result noop_read).1 (result noop_read).2 3 _ cfg_ok
    (result_reach noop_read noop_read_runs) noop_read_small node3 noop_read_thread).
Defined.

Example log_window_witness :
  execute_next_ (nodes half.1 3) ≤ next_seq_ (nodes half.1 1) ∧
  p_seq (m_body third) < execute_next_ (nodes half.1 3) + kCompletionSlots.
Proof.
  exact (log_window length_hash clock cfg V0 half.1 half.2 1 3 2 third cfg_ok
    (result_reach halfway halfway_runs) halfway_small node1 node3 third_issued).
Defined.

End Examples.
