(* ===== verification/ClusterConc.v ===== *)
(** The cluster of [Cluster] on the concurrent rings of [RingConc]: a thread
    that broadcasts or drains ([broadcast], [broadcast_batch],
    [drain_source_ring] of [src/bandle.cpp]) no longer does so in one step, but
    one memory access at a time, while the other threads of all nodes, the
    store buffers, the write-combining buffers and the caches go on.  What is
    left of [Cluster] are the regions under [mu_] and the steps of the threads
    between them ([conc_local]).

    [concurrent_cluster_refines]: whatever this machine does, the cluster of
    [Cluster] does, over channels that are plain queues: a batch is sent when
    its head is published, and received when the tail is committed.  The
    theorems about reachable states of [Cluster] therefore hold of it, for
    instance [concurrent_replicas_agree].

    Both are for memory in which a non-temporal store invalidates the copy of a
    payload that another core has cached ([coherent]).  The source calls the
    memory of the payloads non-coherent and flushes no line before it reads one;
    [incoherent_replicas_diverge] is a run on memory without that invalidation
    in which two replicas execute the same position with different values. *)
From stdpp Require Import functions relations.
From S2P Require Import Prelude Histogram KVStore Message Ring RingConc RingChannel Transport ConcChannel NodeState Bandle Execute Replica Submit Cluster Agreement.

(** ** Queues as channels *)
#[export] Instance queue_channel : Channel (list BandleMessage) := {|
  ch_new := [];
  ch_queue c q := c = q ∧ Forall (fun m => wire m = m) q;
  ch_ready n c := Z.of_nat (length c + n) <=? kBandleRingCapacity;
  ch_append msgs c := c ++ (wire <$> msgs);
  ch_takes _ c msgs c' := msgs ≠ [] ∧ wire <$> msgs = wire <$> take (length msgs) c ∧ c' = drop (length msgs) c;
  ch_drain b c :=
    match c with
    | [] => None
    | _ => let n := Z.to_nat (recv_batch_capacity b) in Some (take n c, drop n c)
    end
|}.

Lemma wire_stable (q : list BandleMessage) : Forall (fun m => wire m = m) q → wire <$> q = q.
Proof. induction 1 as [|m q Hm _ IH]; [done|]. cbn. by rewrite Hm, IH. Qed.

Lemma wire_all_stable (msgs : list BandleMessage) : Forall (fun m => wire m = m) (wire <$> msgs).
Proof. apply Forall_fmap, Forall_true. intros m. apply wire_wire. Qed.

#[export] Instance queue_channel_laws : ChannelLaws (list BandleMessage).
Proof.
  split; cbn.
  - done.
  - intros c q msgs [-> Hq] _ _ _ _. split; [done|]. apply Forall_app. split; [done|]. apply wire_all_stable.
  - intros c q b msgs c' [-> Hq] (Hne&Hw&->). exists (drop (length msgs) q). split; [done|].
    split; [|split; [done|by apply Forall_drop]].
    rewrite Hw, wire_stable by by apply Forall_take. symmetry. apply take_drop.
  - intros c b msgs c' Hd. pose proof (recv_batch_capacity_bounds b). destruct c as [|m c]; [done|].
    injection Hd as <- <-. set (n := Z.to_nat (recv_batch_capacity b)).
    assert (n = S (pred n)) as Hn by (unfold n; lia). split; [by rewrite Hn|].
    destruct (Nat.le_gt_cases n (length (m :: c))) as [Hle|Hgt].
    + by rewrite length_take, Nat.min_l by done.
    + by rewrite (take_ge (m :: c) n), take_ge, !drop_ge by lia.
  - intros c q b [-> _] Hd. by destruct q.
  - intros c q n [-> _] Hn. by apply Z.leb_le.
Qed.

(** ** The machine *)

(** The same threads and replicas over other channels. *)
Definition with_chans {C C' S} (q : Z * Z → C') (c : Cluster C S) : Cluster C' S := {|
  nodes := nodes c; threads := threads c; chans := q; inbox := inbox c |}.

Definition set_chan {C S} (p : Z * Z) (ch : C) (c : Cluster C S) : Cluster C S :=
  with_chans (<[p := ch]> (chans c)) c.

Section Cases.
Context {C S : Type} `{Chan : Channel C} `{Store : ReplicaStore S}.
Context (hash : bytes → Z) (rdtsc : Z → nat → Z) (cfg : Z → Config).
Implicit Types (c : Cluster C S).

(** A step uses no channel, and is possible over any, or it sends or drains. *)
Lemma step_cases c l c' : step hash rdtsc cfg c l c' →
  (chans c' = chans c ∧
   ∀ q : Z * Z → list BandleMessage, step hash rdtsc cfg (with_chans q c) l (with_chans q c')) ∨
  (∃ i noop msgs peer to chunks, is_node i ∧ threads c i = TSend noop msgs (peer :: to) chunks ∧
   ch_ready (length msgs) (chans c (i, peer)) = true ∧ l = None ∧ c' = {|
     nodes := nodes c; threads := <[i := TSend noop msgs to chunks]> (threads c);
     chans := <[(i, peer) := ch_append msgs (chans c (i, peer))]> (chans c); inbox := inbox c |}) ∨
  (∃ i j msgs ch', is_node i ∧ is_node j ∧ i ≠ j ∧ inbox c (i, j) = [] ∧
   ch_takes (batch_size_ (cfg j)) (chans c (i, j)) msgs ch' ∧ l = None ∧ c' = {|
     nodes := nodes c; threads := threads c;
     chans := <[(i, j) := ch']> (chans c); inbox := <[(i, j) := msgs]> (inbox c) |}).
Proof.
  intros Hstep. destruct Hstep as [i|i|i|i noop msgs peer to chunks|i|i|i|i|i|i|i j msgs ch'|i j];
    [| | |right; left; by exists i, noop, msgs, peer, to, chunks| | | | | | |right; right; by exists i, j, msgs, ch'|];
    left; (split; [done|]); intros q.
  - by eapply (step_submit hash rdtsc cfg (with_chans q c)).
  - by eapply (step_admit hash rdtsc cfg (with_chans q c)).
  - by apply (step_return hash rdtsc cfg (with_chans q c)).
  - by apply (step_self hash rdtsc cfg (with_chans q c)).
  - by apply (step_self_noop hash rdtsc cfg (with_chans q c)).
  - by apply (step_input_done hash rdtsc cfg (with_chans q c)).
  - by eapply (step_noop_check hash rdtsc cfg (with_chans q c)).
  - by apply (step_noop_read hash rdtsc cfg (with_chans q c)).
  - by apply (step_noop_reserve hash rdtsc cfg (with_chans q c)).
  - by apply (step_handle hash rdtsc cfg (with_chans q c)).
Qed.

End Cases.

(** Nodes and threads, with the shared memory of every ring. *)
Abbreviation Shared := (Cluster Machine).

Section Steps.
Context {S : Type} `{Store : ReplicaStore S}.
(** Whether a non-temporal store invalidates the copy of its line in the cache
    of the reading host.  The sources call the payload memory non-coherent and
    flush nothing before they read. *)
Context (coherent : bool).
Context (hash : bytes → Z) (rdtsc : Z → nat → Z) (cfg : Z → Config).

Abbreviation ring_move := (machine_step kBandleRingCapacity coherent).

(** One access to the shared memory, or a move of the memory system.  The
    loops over the peers fix an order between the accesses to different
    rings that is left open here, but for the order of publication: every run
    of the program is among those of this relation. *)
Inductive access (f : Shared S) : Shared S → Prop :=
(* push, can_push_batch: the ring has room *)
| access_begin i noop msgs to chunks peer m :
    is_node i → threads f i = TSend noop msgs to chunks → peer ∈ to →
    ring_move (PStart msgs) (chans f (i, peer)) = Some m →
    access f (set_chan (i, peer) m f)
(* write_slot, write_batch_at: a store of a payload, a descriptor; sfence *)
| access_write i peer a m :
    a = PNext ∨ a = PFence → ring_move a (chans f (i, peer)) = Some m →
    access f (set_chan (i, peer) m f)
(* publish_head *)
| access_publish i noop msgs peer to chunks m :
    is_node i → threads f i = TSend noop msgs (peer :: to) chunks →
    ring_move PPublishHead (chans f (i, peer)) = Some m →
    access f {|
      nodes := nodes f; threads := <[i := TSend noop msgs to chunks]> (threads f);
      chans := <[(i, peer) := m]> (chans f); inbox := inbox f |}
(* store buffers, write-combining buffers, caches *)
| access_memory p a m :
    memory_step coherent a (chans f p) = Some m →
    access f (set_chan p m f)
(* drain_source_ring: tail and head are read *)
| access_load i j m :
    is_node i → is_node j → i ≠ j → inbox f (i, j) = [] →
    ring_move (CLoad (recv_batch_capacity (batch_size_ (cfg j)))) (chans f (i, j)) = Some m →
    access f (set_chan (i, j) m f)
(* read_batch_at_abs: a descriptor, a payload *)
| access_read i j a m :
    (∃ out, a = CNext out) ∨ a = CGiveUp → ring_move a (chans f (i, j)) = Some m →
    access f (set_chan (i, j) m f)
(* commit_tail: the batch is handed to handle_messages_batch *)
| access_commit i j t count got m :
    is_node i → is_node j → i ≠ j → inbox f (i, j) = [] →
    consumer (chans f (i, j)) = CPayload t count got [] → ring_move CCommit (chans f (i, j)) = Some m →
    access f {|
      nodes := nodes f; threads := threads f;
      chans := <[(i, j) := m]> (chans f); inbox := <[(i, j) := got]> (inbox f) |}.

(** A step of the machine. *)
Inductive conc_step (f : Shared S) : Issue → Shared S → Prop :=
(* a region under mu_, or a step of a thread, that uses no channel: it is possible whatever they hold *)
| conc_local l f' :
    (∀ q : Z * Z → list BandleMessage, step hash rdtsc cfg (with_chans q f) l (with_chans q f')) →
    chans f' = chans f →
    conc_step f l f'
| conc_access f' : access f f' → conc_step f None f'.

(** The shared memory has been cleared. *)
Record conc_initial (V0 : MapType) (f : Shared S) : Prop := {
  cs_start : initial cfg V0 (with_chans (λ _, []) f : Cluster (list BandleMessage) S);
  cs_rings p : chans f p = initial_machine
}.

Inductive conc_reach (V0 : MapType) : Shared S → History → Prop :=
| conc_reach_init f : conc_initial V0 f → conc_reach V0 f (fun _ => [])
| conc_reach_step f h l f' : conc_reach V0 f h → conc_step f l f' → conc_reach V0 f' (issue l h).

End Steps.

(** ** The simulation *)
Section Simulation.
Context {S : Type} `{Store : ReplicaStore S}.
Context (hash : bytes → Z) (rdtsc : Z → nat → Z) (cfg : Z → Config) (V0 : MapType).
Implicit Types (f : Shared S) (c : Cluster (list BandleMessage) S) (h : History).

Abbreviation cluster_step := (step hash rdtsc cfg).
Abbreviation shared_step := (conc_step true hash rdtsc cfg).

(** A producer in the middle of a batch belongs to a thread that has yet to
    publish it there. *)
Definition busy_ok (f : Shared S) (p : Z * Z) : Prop :=
  producer (chans f p) ≠ PIdle →
  ∃ noop to chunks, threads f p.1 = TSend noop (batch_of (producer (chans f p))) to chunks ∧ p.2 ∈ to.

Record simulates f c : Prop := {
  si_nodes : nodes c = nodes f;
  si_threads : threads c = threads f;
  si_inbox : inbox c = inbox f;
  si_chans p : chans c p = in_flight (chans f p);
  si_reach p : ring_reachable (chans f p);
  si_busy p : busy_ok f p
}.

(** The rings of another state of the same threads. *)
Lemma simulates_chan f c p m : simulates f c → ring_reachable m → in_flight m = in_flight (chans f p) →
  busy_ok (set_chan p m f) p → simulates (set_chan p m f) c.
Proof.
  intros [Hn Ht Hi Hc Hr Hb] Hm Hq Hp. split; try done; intros p'; cbn;
    (destruct (decide (p = p')) as [<-|Hne]; [rewrite ?fn_lookup_insert|rewrite ?fn_lookup_insert_ne by done; try done]).
  - by rewrite Hc.
  - done.
  - exact Hp.
  - unfold busy_ok. cbn. rewrite fn_lookup_insert_ne by done. apply Hb.
Qed.

Lemma busy_same f p m : busy_ok f p → producer m = producer (chans f p) → busy_ok (set_chan p m f) p.
Proof. unfold busy_ok. cbn. rewrite fn_lookup_insert. intros Hb Hp. rewrite Hp. exact Hb. Qed.

(** Channels on which nothing can be sent. *)
Lemma full_channels : ∃ q : Z * Z → list BandleMessage, ∀ p n, ch_ready n (q p) = false.
Proof.
  exists (λ _, replicate (Datatypes.S (Z.to_nat kBandleRingCapacity)) default_message). intros _ n.
  apply Z.leb_gt. rewrite length_replicate. lia.
Qed.

(** A local step leaves a thread that is broadcasting alone. *)
Lemma local_sending f l f' i noop msgs to chunks peer :
  (∀ q : Z * Z → list BandleMessage, cluster_step (with_chans q f) l (with_chans q f')) →
  threads f i = TSend noop msgs to chunks → peer ∈ to → threads f' i = threads f i.
Proof.
  intros Hstep Ht Hin.
  destruct full_channels as [q Hq].
  specialize (Hstep q). remember (with_chans q f') as c' eqn:Hc'.
  assert (threads f' = threads c') as -> by by rewrite Hc'.
  destruct Hstep as [i' ????? Hs|i' ????? Hs|i' ? Hs|i' ?????? Hs Hready|i' ??? Hs|i' ?? Hs|i' ? Hs|i' ??? Hs|i' ? Hs
    |i' ??? Hs|i' j'|i' j'];
    cbn [threads set_node with_chans nodes chans] in *; try done; clear Hc';
    (destruct (decide (i' = i)) as [->|Hne]; [|by rewrite fn_lookup_insert_ne]); try (rewrite Ht in Hs; try discriminate Hs).
  - by rewrite Hq in Hready.
  - injection Hs as _ _ -> _. by apply not_elem_of_nil in Hin.
  - injection Hs as _ _ -> _. by apply not_elem_of_nil in Hin.
Qed.

Lemma with_chans_same f c : simulates f c → with_chans (chans c) f = c.
Proof. intros [Hn Ht Hi _ _ _]. destruct c. cbn in *. by subst. Qed.

Lemma local_simulated f l f' c : simulates f c →
  (∀ q : Z * Z → list BandleMessage, cluster_step (with_chans q f) l (with_chans q f')) → chans f' = chans f →
  cluster_step c l (with_chans (chans c) f') ∧ simulates f' (with_chans (chans c) f').
Proof.
  intros Hsim Hstep Hch. specialize (Hstep (chans c)) as Hs. rewrite (with_chans_same f c Hsim) in Hs.
  split; [done|]. destruct Hsim as [_ _ _ Hc Hr Hb]. split; try done; intros p; cbn; rewrite ?Hch; [apply Hc|apply Hr|].
  intros Hidle. rewrite Hch in Hidle |- *. destruct (Hb p Hidle) as (noop&to&chunks&Ht&Hin). exists noop, to, chunks.
  by rewrite (local_sending f l f' p.1 noop _ to chunks p.2 Hstep Ht Hin).
Qed.

Lemma ring_reach_step p f a m c : simulates f c → ring_step a (chans f p) = Some m → ring_reachable m.
Proof. intros Hsim Hm. eapply reachable_step; [apply (si_reach _ _ Hsim p)|exact Hm]. Qed.

(** A move of the memory system or of a consumer that commits nothing. *)
Lemma silent_simulated f c p a m : simulates f c → ring_step a (chans f p) = Some m →
  a ≠ PPublishHead → a ≠ CCommit → producer m = producer (chans f p) → simulates (set_chan p m f) c.
Proof.
  intros Hsim Hm Hp Hc Hprod. apply simulates_chan; [done|by eapply ring_reach_step| |].
  - by apply (step_in_flight kBandleRingCapacity a).
  - apply busy_same; [apply Hsim|done].
Qed.

Lemma begin_simulated f c i noop msgs to chunks peer m : simulates f c →
  threads f i = TSend noop msgs to chunks → peer ∈ to →
  ring_step (PStart msgs) (chans f (i, peer)) = Some m → simulates (set_chan (i, peer) m f) c.
Proof.
  intros Hsim Ht Hin Hm. apply simulates_chan; [done|by eapply ring_reach_step| |].
  - by apply (step_in_flight kBandleRingCapacity (PStart msgs)).
  - intros _. cbn. rewrite fn_lookup_insert.
    destruct (start_batch kBandleRingCapacity msgs (chans f (i, peer)) m Hm) as (_&->&_). by exists noop, to, chunks.
Qed.

Lemma write_simulated f c p a m : simulates f c → a = PNext ∨ a = PFence →
  ring_step a (chans f p) = Some m → simulates (set_chan p m f) c.
Proof.
  intros Hsim Ha Hm. assert (producer_step kBandleRingCapacity a (chans f p) = Some m) as Hm'.
  { by destruct Ha as [-> | ->]. }
  destruct (write_batch kBandleRingCapacity a _ _ Ha Hm') as (Hbusy&Hbatch&_).
  apply simulates_chan; [done|by eapply ring_reach_step| |].
  - apply (step_in_flight kBandleRingCapacity a); [done|by destruct Ha as [-> | ->]..].
  - intros _. cbn. rewrite fn_lookup_insert, Hbatch. by apply (si_busy _ _ Hsim p).
Qed.

(** Publishing a head is the sending of the batch. *)
Lemma publish_simulated f c i noop msgs peer to chunks m : simulates f c → is_node i →
  threads f i = TSend noop msgs (peer :: to) chunks → ring_step PPublishHead (chans f (i, peer)) = Some m →
  ∃ c', cluster_step c None c' ∧ simulates {|
    nodes := nodes f; threads := <[i := TSend noop msgs to chunks]> (threads f);
    chans := <[(i, peer) := m]> (chans f); inbox := inbox f |} c'.
Proof.
  intros Hsim Hi Ht Hm. destruct capacity_ok as [Hcap Hpow].
  assert (producer (chans f (i, peer)) ≠ PIdle) as Hbusy.
  { intros Hidle. cbn [machine_step producer_step] in Hm. by rewrite Hidle in Hm. }
  destruct (si_busy _ _ Hsim (i, peer) Hbusy) as (noop'&to'&chunks'&Ht'&_). cbn [fst] in Ht'.
  rewrite Ht in Ht'. injection Ht' as _ Hmsgs _ _.
  destruct (publish_in_flight kBandleRingCapacity Hcap Hpow _ _ (si_reach _ _ Hsim (i, peer)) Hm) as (Hidle&Hq&Hroom).
  rewrite <- Hmsgs in Hq, Hroom.
  eexists. split.
  { apply (step_send hash rdtsc cfg c i noop msgs peer to chunks Hi); [by rewrite (si_threads _ _ Hsim)|].
    rewrite (si_chans _ _ Hsim). by apply Z.leb_le. }
  destruct Hsim as [Hn Hth Hin Hc Hr Hb]. split; cbn; try done; [by rewrite Hth|..]; intros p;
    (destruct (decide ((i, peer) = p)) as [<-|Hne]; [rewrite ?fn_lookup_insert|rewrite ?fn_lookup_insert_ne by done; try done]).
  - by rewrite Hc, Hq.
  - by eapply reachable_step.
  - unfold busy_ok. cbn. by rewrite fn_lookup_insert, Hidle.
  - unfold busy_ok. cbn. rewrite fn_lookup_insert_ne by done. intros Hidle'.
    destruct (Hb p Hidle') as (noop2&to2&chunks2&Ht'&Hto). destruct (decide (i = p.1)) as [->|].
    + rewrite fn_lookup_insert. rewrite Ht in Ht'. injection Ht' as <- <- <- <-. exists noop, to, chunks. split; [done|].
      apply elem_of_cons in Hto as [Heq|?]; [|done]. destruct Hne. rewrite <- Heq. by destruct p.
    + rewrite fn_lookup_insert_ne by done. by exists noop2, to2, chunks2.
Qed.

(** Committing a tail is the receiving of the batch. *)
Lemma commit_simulated f c i j t count got m : simulates f c → is_node i → is_node j → i ≠ j →
  inbox f (i, j) = [] → consumer (chans f (i, j)) = CPayload t count got [] →
  ring_step CCommit (chans f (i, j)) = Some m →
  ∃ c', cluster_step c None c' ∧ simulates {|
    nodes := nodes f; threads := threads f;
    chans := <[(i, j) := m]> (chans f); inbox := <[(i, j) := got]> (inbox f) |} c'.
Proof.
  intros Hsim Hi Hj Hij Hempty Hcons Hm. destruct capacity_ok as [Hcap Hpow].
  destruct (commit_in_flight kBandleRingCapacity Hcap Hpow _ _ t count got (si_reach _ _ Hsim (i, j)) Hcons Hm)
    as (Hne&Hgot&Hrest).
  pose proof (consumer_producer kBandleRingCapacity CCommit _ _ Hm) as Hprod.
  eexists. split.
  { apply (step_drain hash rdtsc cfg c i j got (drop (length got) (chans c (i, j)))); try done.
    - by rewrite (si_inbox _ _ Hsim).
    - cbn. split; [done|]. split; [|done]. rewrite (si_chans _ _ Hsim), <- Hgot. symmetry. apply wire_stable, wire_all_stable. }
  destruct Hsim as [Hn Hth Hin Hc Hr Hb]. split; cbn; try done; [by rewrite Hin|..]; intros p;
    (destruct (decide ((i, j) = p)) as [<-|Hp]; [rewrite ?fn_lookup_insert|rewrite ?fn_lookup_insert_ne by done; try done]).
  - by rewrite Hc, Hrest.
  - by eapply reachable_step.
  - apply (busy_same f (i, j)); [apply Hb|done].
  - unfold busy_ok. cbn. rewrite fn_lookup_insert_ne by done. apply Hb.
Qed.

(** An access is a step of the cluster, or none. *)
Lemma access_simulated f f' c : simulates f c → access true cfg f f' →
  ∃ c', (cluster_step c None c' ∨ c' = c) ∧ simulates f' c'.
Proof.
  intros Hsim Hacc. destruct Hacc as [i noop msgs to chunks peer m Hi Ht Hin Hm|i peer a m Ha Hm
    |i noop msgs peer to chunks m Hi Ht Hm|p a m Hm|i j m Hi Hj Hij Hin Hm|i j a m Ha Hm|i j t count got m Hi Hj Hij Hin Hc Hm].
  - exists c. split; [by right|]. by eapply begin_simulated.
  - exists c. split; [by right|]. by eapply write_simulated.
  - destruct (publish_simulated f c i noop msgs peer to chunks m Hsim Hi Ht Hm) as (c'&?&?). exists c'. split; [by left|done].
  - exists c. split; [by right|]. pose proof (memory_producer _ _ _ Hm) as Hp.
    apply silent_simulated with a; try done; destruct a; done.
  - exists c. split; [by right|]. eapply silent_simulated; [done|exact Hm|done|done|].
    by eapply (consumer_producer kBandleRingCapacity (CLoad _)).
  - exists c. split; [by right|].
    eapply silent_simulated; [done|exact Hm|by destruct Ha as [[? ->]| ->]|by destruct Ha as [[? ->]| ->]|].
    apply (consumer_producer kBandleRingCapacity a). by destruct Ha as [[? ->]| ->].
  - destruct (commit_simulated f c i j t count got m Hsim Hi Hj Hij Hin Hc Hm) as (c'&?&?). exists c'. split; [by left|done].
Qed.

(** Every move of the machine is a step of the cluster, or none. *)
Lemma conc_step_simulated f l f' c : simulates f c → shared_step f l f' →
  ∃ c', (cluster_step c l c' ∨ l = None ∧ c' = c) ∧ simulates f' c'.
Proof.
  intros Hsim [l' f1 Hs Hch|f1 Hacc].
  - destruct (local_simulated f l' f1 c Hsim Hs Hch) as [? ?]. eexists. split; [by left|done].
  - destruct (access_simulated f f1 c Hsim Hacc) as (c'&[?| ->]&?); eexists; split; [by left|done|by right|done].
Qed.

Lemma initial_simulated f : conc_initial cfg V0 f → simulates f (with_chans (λ _, []) f).
Proof.
  intros Hf. split; try done; intros p; unfold busy_ok; rewrite (cs_rings _ _ _ Hf p); [done| |done].
  apply reachable_initial.
Qed.

Lemma conc_reach_simulated f h : conc_reach true hash rdtsc cfg V0 f h →
  ∃ c, reach hash rdtsc cfg V0 c h ∧ simulates f c.
Proof.
  induction 1 as [f Hf|f h l f' _ (c&Hr&Hsim) Hstep].
  - exists (with_chans (λ _, []) f). split; [|by apply initial_simulated]. apply reach_init, Hf.
  - destruct (conc_step_simulated f l f' c Hsim Hstep) as (c'&[Hs|[-> ->]]&Hsim').
    + exists c'. split; [by eapply reach_step|done].
    + by exists c.
Qed.

End Simulation.

(** ** What carries over *)
Section Properties.
Context {S : Type} `{Store : ReplicaStore S}.
Context (hash : bytes → Z) `{!ReplicaStoreLaws hash S}.
Context (rdtsc : Z → nat → Z) (cfg : Z → Config) (V0 : MapType).

(** C2: if payloads are kept coherent, that is if a non-temporal store
    invalidates the line another core has cached, the cluster over its shared
    memory refines the cluster over queues: whatever the threads, the store
    buffers, the write-combining buffers and the caches do, one access at a time,
    the replicas, the threads and the receive batches are those of a state the
    cluster reaches with the same proposals issued, when the queue between two
    nodes is what has been published in their ring and not yet committed.  The
    condition is needed: without it replicas can diverge
    ([incoherent_replicas_diverge]). *)
Theorem concurrent_cluster_refines coherent f h (Hcoherent : coherent = true)
    (Hr : conc_reach coherent hash rdtsc cfg V0 f h) :
  ∃ c : Cluster (list BandleMessage) S, reach hash rdtsc cfg V0 c h ∧
    nodes c = nodes f ∧ threads c = threads f ∧ inbox c = inbox f ∧
    ∀ p, chans c p = in_flight (chans f p).
Proof.
  subst coherent. destruct (conc_reach_simulated hash rdtsc cfg V0 f h Hr) as (c&Hc&[Hn Ht Hi Hch _ _]). by exists c.
Qed.

(** C7: on the shared memory, too, if payloads are kept coherent, the replicas
    are one replicated state machine: the store of each is the initial contents
    with the issued proposals below its [execute_next_] applied in the order of
    their numbers, and two replicas that have executed equally far hold the same
    contents.  Without coherent payloads they can differ ([incoherent_replicas_diverge]). *)
Theorem concurrent_replicas_agree coherent f h i j (Hcoherent : coherent = true) (Hcfg : config_ok cfg)
    (Hr : conc_reach coherent hash rdtsc cfg V0 f h) (Hno : no_overflow h) (Hi : is_node i) (Hj : is_node j) :
  store_view (kv_ (nodes f j)) =
    foldl spec_apply V0 (delivered_ops hash (issued h) (execute_next_ (nodes f j))) ∧
  (execute_next_ (nodes f i) = execute_next_ (nodes f j) →
   store_view (kv_ (nodes f i)) = store_view (kv_ (nodes f j))).
Proof.
  subst coherent. destruct (conc_reach_simulated hash rdtsc cfg V0 f h Hr) as (c&Hc&Hsim). rewrite <- (si_nodes _ _ Hsim).
  destruct (reach_inv hash rdtsc cfg Hcfg V0 c h Hc Hno) as [n Hn].
  pose proof (inv_view hash cfg V0 c h n j Hn Hj) as Hv. split; [done|].
  intros He. by rewrite Hv, (inv_view hash cfg V0 c h n i), He.
Qed.

End Properties.

(** ** A scheduler *)
Module ConcSchedule.

(** A move, by its ring and its inputs. *)
Inductive Move :=
| Local (a : Schedule.Action)
| Begin (i peer : Z)
| Write (i peer : Z) (a : RingConc.Action)
| Publish (i peer : Z)
| Memory (p : Z * Z) (a : RingConc.Action)
| Load (i j : Z)
| Read (i j : Z) (a : RingConc.Action)
| Commit (i j : Z).

Definition is_local (a : Schedule.Action) : bool :=
  match a with Schedule.Send _ | Schedule.Drain _ _ => false | _ => true end.
Definition is_write (a : RingConc.Action) : bool := match a with PNext | PFence => true | _ => false end.
Definition is_read (a : RingConc.Action) : bool := match a with CNext _ | CGiveUp => true | _ => false end.

Section Run.
Context {S : Type} `{Store : ReplicaStore S}.
Context (coherent : bool).
Context (hash : bytes → Z) (rdtsc : Z → nat → Z) (cfg : Z → Config).
Implicit Types (f : Shared S) (h : History).

Definition in_ring (p : Z * Z) (m : option Machine) f : option (Issue * Shared S) :=
  m ← m; Some (None, set_chan p m f).

Definition move (a : Move) f : option (Issue * Shared S) :=
  match a with
  | Local a =>
      if is_local a then
        '(l, c) ← Schedule.act hash rdtsc cfg a (with_chans (λ _, []) f : Cluster (list BandleMessage) S);
        Some (l, with_chans (chans f) c)
      else None
  | Begin i peer =>
      match threads f i with
      | TSend _ msgs to _ =>
          if decide (is_node i ∧ peer ∈ to) then in_ring (i, peer) (machine_step kBandleRingCapacity coherent (PStart msgs) (chans f (i, peer))) f else None
      | _ => None
      end
  | Write i peer a => if is_write a then in_ring (i, peer) (machine_step kBandleRingCapacity coherent a (chans f (i, peer))) f else None
  | Publish i peer =>
      match threads f i with
      | TSend noop msgs (peer' :: to) chunks =>
          if decide (is_node i ∧ peer' = peer) then
            m ← machine_step kBandleRingCapacity coherent PPublishHead (chans f (i, peer));
            Some (None, {|
              nodes := nodes f; threads := <[i := TSend noop msgs to chunks]> (threads f);
              chans := <[(i, peer) := m]> (chans f); inbox := inbox f |})
          else None
      | _ => None
      end
  | Memory p a => in_ring p (memory_step coherent a (chans f p)) f
  | Load i j =>
      if decide (is_node i ∧ is_node j ∧ i ≠ j ∧ length (inbox f (i, j)) = O) then
        in_ring (i, j) (machine_step kBandleRingCapacity coherent (CLoad (recv_batch_capacity (batch_size_ (cfg j)))) (chans f (i, j))) f
      else None
  | Read i j a => if is_read a then in_ring (i, j) (machine_step kBandleRingCapacity coherent a (chans f (i, j))) f else None
  | Commit i j =>
      if decide (is_node i ∧ is_node j ∧ i ≠ j ∧ length (inbox f (i, j)) = O) then
        match consumer (chans f (i, j)) with
        | CPayload _ _ got [] =>
            m ← machine_step kBandleRingCapacity coherent CCommit (chans f (i, j));
            Some (None, {|
              nodes := nodes f; threads := threads f;
              chans := <[(i, j) := m]> (chans f); inbox := <[(i, j) := got]> (inbox f) |})
        | _ => None
        end
      else None
  end.

(** A local action does the same over any channels. *)
Lemma act_local {C} `{Channel C} a (c : Cluster (list BandleMessage) S) l c' (q : Z * Z → C) : is_local a = true →
  Schedule.act hash rdtsc cfg a c = Some (l, c') →
  Schedule.act hash rdtsc cfg a (with_chans q c) = Some (l, with_chans q c').
Proof. intros Hl Ha. destruct a; try done; cbn in *; repeat case_match; by simplify_eq. Qed.

Lemma in_ring_some p m f l f' : in_ring p m f = Some (l, f') → ∃ m', m = Some m' ∧ l = None ∧ f' = set_chan p m' f.
Proof. unfold in_ring. intros (m'&->&[= <- <-])%bind_Some. by exists m'. Qed.

Lemma conc_move_step a f l f' : move a f = Some (l, f') → conc_step coherent hash rdtsc cfg f l f'.
Proof.
  destruct a as [a|i peer|i peer a|i peer|p a|i j|i j a|i j]; cbn [move]; intros Hm.
  - destruct (is_local a) eqn:Hl; [|done]. apply bind_Some in Hm as ([l' c]&Ha&[= <- <-]).
    apply conc_local; [|done]. intros q. eapply Schedule.act_step. exact (act_local a _ l' c q Hl Ha).
  - destruct (threads f i) as [| |noop msgs to chunks| |] eqn:Ht; try done. case_decide as Hd; [|done]. destruct Hd.
    apply in_ring_some in Hm as (m&Hm&->&->). by eapply conc_access, access_begin.
  - destruct (is_write a) eqn:Ha; [|done]. apply in_ring_some in Hm as (m&Hm&->&->).
    apply conc_access, access_write with a; [|done]. destruct a; try done; auto.
  - destruct (threads f i) as [| |noop msgs [|peer' to] chunks| |] eqn:Ht; try done. case_decide as Hd; [|done].
    destruct Hd as [Hi ->]. apply bind_Some in Hm as (m&Hm&[= <- <-]). by apply conc_access, access_publish.
  - apply in_ring_some in Hm as (m&Hm&->&->). by apply conc_access, access_memory with a.
  - case_decide as Hd; [|done]. destruct Hd as (Hi&Hj&Hij&Hin%length_zero_iff_nil). apply in_ring_some in Hm as (m&Hm&->&->). by apply conc_access, access_load.
  - destruct (is_read a) eqn:Ha; [|done]. apply in_ring_some in Hm as (m&Hm&->&->).
    apply conc_access, access_read with a; [|done]. destruct a; try done; eauto.
  - case_decide as Hd; [|done]. destruct Hd as (Hi&Hj&Hij&Hin%length_zero_iff_nil).
    destruct (consumer (chans f (i, j))) as [| |t count got [|]] eqn:Hc; try done.
    apply bind_Some in Hm as (m&Hm&[= <- <-]). by eapply conc_access, access_commit.
Qed.

Fixpoint moves (acts : list Move) f h : option (Shared S * History) :=
  match acts with
  | [] => Some (f, h)
  | a :: acts => '(l, f') ← move a f; moves acts f' (issue l h)
  end.

Lemma conc_moves_reach V0 acts f h f' h' : conc_reach coherent hash rdtsc cfg V0 f h → moves acts f h = Some (f', h') →
  conc_reach coherent hash rdtsc cfg V0 f' h'.
Proof.
  revert f h. induction acts as [|a acts IH]; intros f h Hr Hm; [by injection Hm as <- <-|].
  cbn in Hm. apply bind_Some in Hm as ([l f1]&Ha&Hm). eapply IH; [|exact Hm].
  eapply conc_reach_step; [done|]. by apply (conc_move_step a).
Qed.

End Run.

(** The moves a schedule of one ring makes from [m]. *)
Fixpoint plan (pick : Machine → option RingConc.Action) (fuel : nat) (m : Machine) : list RingConc.Action :=
  match fuel, pick m with
  | Datatypes.S fuel, Some a =>
      match ring_step a m with Some m' => a :: plan pick fuel m' | None => [] end
  | _, _ => []
  end.

End ConcSchedule.

(** ** Concrete runs *)
Module Examples.
Import ConcSchedule Agreement.Schedule Agreement.Examples KVStore.Examples.

#[local] Existing Instance rep.
#[local] Existing Instance rep_laws.

Definition f0 : Shared KVStore := {|
  nodes i := new_node (cfg i) empty_store; threads _ := TIdle; chans _ := initial_machine; inbox _ := [] |}.

Lemma f0_initial : conc_initial cfg V0 f0.
Proof.
  split; [|done]. split; try done. intros i Hi. exists empty_store, 0. split; [done|]. split; [|done].
  apply empty_store_wf.
Qed.

Section Script.
Context (coherent : bool).

(** The moves may depend on the state they start from. *)
Definition script (parts : list (Shared KVStore → list Move)) : option (Shared KVStore * History) :=
  foldl (λ s part, '(f, h) ← s; moves coherent length_hash clock cfg (part f) f h) (Some (f0, fun _ => [])) parts.

Lemma script_reach parts f h : script parts = Some (f, h) → conc_reach coherent length_hash clock cfg V0 f h.
Proof.
  unfold script. assert (conc_reach coherent length_hash clock cfg V0 f0 (fun _ => [])) as Hr.
  { apply conc_reach_init, f0_initial. }
  revert Hr. generalize f0 (fun _ : Z => @nil BandleMessage). induction parts as [|part parts IH]; intros g k Hr Hs; cbn in Hs.
  - by injection Hs as <- <-.
  - destruct (moves coherent length_hash clock cfg (part g) g k) as [[g' k']|] eqn:Hm.
    + apply (IH g' k'); [by eapply conc_moves_reach|done].
    + exfalso. revert Hs. clear. by induction parts.
Qed.

Definition ends (parts : list (Shared KVStore → list Move)) : bool :=
  match script parts with Some _ => true | None => false end.
Definition outcome (parts : list (Shared KVStore → list Move)) : Shared KVStore * History :=
  default (f0, fun _ => []) (script parts).

Lemma conc_outcome_reach parts : ends parts = true →
  conc_reach coherent length_hash clock cfg V0 (outcome parts).1 (outcome parts).2.
Proof.
  unfold ends, outcome. destruct (script parts) as [[f h]|] eqn:Hs; [|done]. intros _. by eapply script_reach.
Qed.

End Script.

(** A ring's schedule, as moves. *)
Definition writing (p : Z * Z) (f : Shared KVStore) : list Move :=
  (λ a, if is_write a then Write p.1 p.2 a else Memory p a) <$> plan write_action (work (chans f p)) (chans f p).
Definition flushing (p : Z * Z) (f : Shared KVStore) : list Move :=
  Memory p <$> plan memory_action (work (chans f p)) (chans f p).
Definition reading (p : Z * Z) (f : Shared KVStore) : list Move :=
  Read p.1 p.2 <$> plan read_action (work (chans f p)) (chans f p).

(** Node 1 broadcasts: its batch is published to node 2, in the store buffer,
    and half written to node 3. *)
Definition broadcasting : list (Shared KVStore → list Move) :=
  [λ _, Local <$> submit1 ++ [Admit 1]; λ _, [Begin 1 2; Begin 1 3]; writing (1, 2); λ f, take 3 (writing (1, 3) f);
   λ _, [Publish 1 2]].

(** The batch arrives everywhere. *)
Definition receiving (j : Z) : list (Shared KVStore → list Move) :=
  [flushing (1, j); λ _, [Load 1 j]; reading (1, j); λ _, [Commit 1 j; Local (Handle 1 j)]].
Definition delivered_batch : list (Shared KVStore → list Move) :=
  broadcasting ++ [writing (1, 3); λ _, [Publish 1 3; Local (SelfDeliver 1)]] ++ receiving 2 ++ receiving 3.

Lemma broadcasting_ends : ends true broadcasting = true.
Proof. by vm_compute. Qed.
Lemma delivered_batch_ends : ends true delivered_batch = true.
Proof. by vm_compute. Qed.

(** The three messages for node 2 are on their way, and not yet visible. *)
Example concurrent_cluster_refines_witness :
  let s := outcome true broadcasting in
  length (in_flight (chans s.1 (1, 2))) = 3%nat ∧ visible (chans s.1 (1, 2)) = [] ∧
  ∃ c : Cluster (list BandleMessage) KVStore, reach length_hash clock cfg V0 c s.2 ∧
    nodes c = nodes s.1 ∧ threads c = threads s.1 ∧ inbox c = inbox s.1 ∧
    ∀ p, chans c p = in_flight (chans s.1 p).
Proof.
  split; [by vm_compute|]. split; [by vm_compute|].
  apply (concurrent_cluster_refines length_hash clock cfg V0 true); [done|].
  apply conc_outcome_reach, broadcasting_ends.
Defined.

(** Nodes 2 and 3 have executed the first write. *)
Example concurrent_replicas_agree_witness :
  let s := outcome true delivered_batch in
  execute_next_ (nodes s.1 2) = 2 ∧ store_view (kv_ (nodes s.1 3)) = {[str "k" := str "one"]} ∧
  store_view (kv_ (nodes s.1 3)) =
    foldl spec_apply V0 (delivered_ops length_hash (issued s.2) (execute_next_ (nodes s.1 3))) ∧
  (execute_next_ (nodes s.1 2) = execute_next_ (nodes s.1 3) →
   store_view (kv_ (nodes s.1 2)) = store_view (kv_ (nodes s.1 3))).
Proof.
  split; [by vm_compute|]. split; [vm_compute; reflexivity|].
  apply (concurrent_replicas_agree length_hash clock cfg V0 true); [done|apply cfg_ok| | |by vm_compute|by vm_compute].
  - apply conc_outcome_reach, delivered_batch_ends.
  - apply no_overflow_check. by vm_compute.
Defined.

(** The same run with a line of node 2's cache filled before node 1 writes the
    payload, on a machine whose non-temporal stores leave it there. *)
Definition cached_batch : list (Shared KVStore → list Move) :=
  (λ _, [Memory (1, 2) (Prefetch 0)]) :: delivered_batch.

Lemma maps_differ (m1 m2 : MapType) k x : m1 !! k = None → m2 !! k = Some x → m1 ≠ m2.
Proof. intros H1 H2 ->. by rewrite H1 in H2. Qed.

(** Without coherent payloads the replicas can diverge: node 2 applies what its
    cache held. *)
Example incoherent_replicas_diverge : ∃ f h, conc_reach false length_hash clock cfg V0 f h ∧ no_overflow h ∧
  execute_next_ (nodes f 2) = execute_next_ (nodes f 3) ∧
  store_view (kv_ (nodes f 2)) ≠ store_view (kv_ (nodes f 3)).
Proof.
  exists (outcome false cached_batch).1, (outcome false cached_batch).2. split; [|split; [|split]].
  - apply conc_outcome_reach. by vm_compute.
  - apply no_overflow_check. by vm_compute.
  - by vm_compute.
  - apply (maps_differ _ _ (str "k") (str "one")); by vm_compute.
Qed.

End Examples.
