(* ===== verification/Flow.v ===== *)
(** Back-pressure: the admission window bounds what a node can have under way,
    so the rings never fill and the waiting loops of [send_to_peer] and
    [broadcast_batch] ([src/bandle.cpp]) never have to wait. *)
From stdpp Require Import functions.
From S2P Require Import Prelude Histogram KVStore Message Ring Transport NodeState Bandle Execute Replica Submit Cluster Agreement.

Section Flow.
Context {C S : Type} `{Chan : Channel C} `{!ChannelLaws C} `{Store : ReplicaStore S}.
Context (hash : bytes → Z) `{!ReplicaStoreLaws hash S}.
Context (rdtsc : Z → nat → Z) (cfg : Z → Config) (V0 : MapType).
Implicit Types (c : Cluster C S) (h : History) (n : Z → Z → nat).

Abbreviation inv := (cluster_inv hash cfg V0).

(** The most messages one node can have under way to another. *)
Definition kMaxUnderWay : Z := 21846.

(** A replica has not executed past what it was not given. *)
Lemma exec_le_undelivered c h n i j : inv c h n → is_node i → is_node j →
  execute_next_ (nodes c j) ≤ seq_at i (n i j).
Proof.
  intros Hc Hi Hj. destruct (Z.le_gt_cases (execute_next_ (nodes c j)) (seq_at i (n i j))) as [|Hgt]; [done|exfalso].
  destruct (ri_prefix _ _ _ _ (ci_replica _ _ _ _ _ _ Hc j Hj) (seq_at i (n i j))) as [m Hm].
  { unfold seq_at, is_node in *. lia. }
  rewrite delivered_at, Nat.ltb_irrefl in Hm by done. done.
Qed.

Lemma under_way_bound c h n i j : inv c h n → is_node i → is_node j →
  Z.of_nat (length (h i) - n i j) < kMaxUnderWay.
Proof.
  intros Hc Hi Hj. pose proof (exec_le_undelivered c h n i j Hc Hi Hj) as Hlow.
  pose proof (nd_next _ _ _ _ (ci_node _ _ _ _ _ _ Hc i Hi)) as Hseq.
  pose proof (nd_window _ _ _ _ (ci_node _ _ _ _ _ _ Hc i Hi)).
  pose proof (nd_window _ _ _ _ (ci_node _ _ _ _ _ _ Hc j Hj)).
  pose proof (exec_le_next hash cfg V0 c h n j i Hc Hj Hi).
  unfold seq_at, kWindow, kMaxUnderWay in *. lia.
Qed.

(** What is in a channel and its sender's hands is under way. *)
Lemma channel_load c h n i j : inv c h n → is_node i → is_node j → i ≠ j → ∃ q, ch_queue (chans c (i, j)) q ∧
  Z.of_nat (length (inbox c (i, j)) + length q + length (outgoing i (threads c i) j)) < kMaxUnderWay.
Proof.
  intros Hc Hi Hj Hij. destruct (ci_flow _ _ _ _ _ _ Hc i j Hi Hj) as [_ (q&Hq&_&Hd)].
  exists q. split; [by apply Hq|]. apply (f_equal length) in Hd.
  rewrite length_drop, !length_app, !length_fmap in Hd.
  pose proof (under_way_bound c h n i j Hc Hi Hj). lia.
Qed.

(** C20: a sender never waits for a receiver: whenever a thread broadcasts, the
    ring to every peer it has not yet served has room for the whole message
    batch, so the loops of [send_to_peer] and [broadcast_batch] end at their
    first attempt, however far behind the receivers are. *)
Theorem broadcast_never_waits c h i j noop msgs to chunks (Hcfg : config_ok cfg)
    (Hr : reach hash rdtsc cfg V0 c h) (Hno : no_overflow h) (Hi : is_node i)
    (Ht : threads c i = TSend noop msgs to chunks) (Hj : j ∈ to) :
  ch_ready (length msgs) (chans c (i, j)) = true.
Proof.
  destruct (reach_inv hash rdtsc cfg Hcfg V0 c h Hr Hno) as [n Hc].
  pose proof (nd_thread _ _ _ _ (ci_node _ _ _ _ _ _ Hc i Hi)) as Hth. rewrite Ht in Hth.
  destruct Hth as (_&_&_&_&Hto&_). destruct (Hto j Hj) as [Hnj Hji].
  destruct (channel_load c h n i j Hc Hi Hnj (not_eq_sym Hji)) as (q&Hq&Hl).
  apply ch_ready_law with q; [done|]. rewrite Ht in Hl. cbn [outgoing] in Hl.
  rewrite decide_True in Hl by (by right). unfold kMaxUnderWay, kBandleRingCapacity in *. lia.
Qed.

End Flow.

(** ** A node that broadcasts *)
Module Examples.
Import Agreement.Schedule Agreement.Examples KVStore.Examples.

#[local] Existing Instance rep.
#[local] Existing Instance rep_laws.

(** Node 1 has admitted its first chunk and sent it nowhere. *)
Definition sending : list Action := submit1 ++ [Admit 1].

Lemma sending_runs : runs sending = true.
Proof. by vm_compute. Qed.
Lemma sending_small : no_overflow (result sending).2.
Proof. apply no_overflow_check. by vm_compute. Qed.

Definition sent : list BandleMessage :=
  match threads (result sending).1 1 with TSend _ msgs _ _ => msgs | _ => [] end.

Example broadcast_never_waits_witness :
  sent ≠ [] ∧ ch_ready (length sent) (chans (result sending).1 (1, 3)) = true.
Proof.
  split; [by vm_compute|].
  apply (broadcast_never_waits length_hash clock cfg V0 (result sending).1 (result sending).2 1 3 false sent [2; 3] []
    cfg_ok (result_reach sending sending_runs) sending_small node1); [by vm_compute|by right; left].
Defined.

End Examples.
