(* ===== verification/Completion.v ===== *)
(** Client requests across the cluster: every request a node issues is
    completed exactly once, when the node executes its proposal, and
    [pending_count_] counts the requests still to be executed.  The requests a
    node waits for are read off what it has issued ([waiting_requests]);
    [requests_inv] ties the pending table and the counters to them. *)
From stdpp Require Import functions relations.
From S2P Require Import Prelude Histogram KVStore Message Ring Transport NodeState Bandle Execute Stats Replica Submit Cluster Agreement.

(** ** The requests a node waits for *)

(** A no-op carries the client request id 0. *)
Definition is_request (m : BandleMessage) : bool := negb (p_client_req_id (m_body m) =? 0).

Definition requests (ms : list BandleMessage) : list BandleMessage :=
  List.filter is_request ms.

(** The reads among them: the completion of any other request counts as a
    write. *)
Definition is_read (m : BandleMessage) : bool := bool_decide (p_op (m_body m) = "G"%char).
Definition reads (ms : list BandleMessage) : nat := length (List.filter is_read ms).

(** How many of its own proposals node [i] has executed when its next position
    is [E]. *)
Definition own_executed (i E : Z) : nat := Z.to_nat ((E - i + 2) / 3).

Definition executed_requests (h : History) (i E : Z) : list BandleMessage :=
  requests (take (own_executed i E) (h i)).
Definition waiting_requests (h : History) (i E : Z) : list BandleMessage :=
  requests (drop (own_executed i E) (h i)).

Lemma own_executed_lt i E k : is_node i → 1 ≤ E → (k < own_executed i E)%nat ↔ seq_at i k < E.
Proof.
  unfold is_node, own_executed, seq_at. intros Hi HE. Z.to_euclidean_division_equations. lia.
Qed.

Lemma own_executed_at i k : is_node i →
  own_executed i (seq_at i k) = k ∧ own_executed i (seq_at i k + 1) = S k.
Proof.
  unfold is_node, own_executed, seq_at. intros Hi. split; Z.to_euclidean_division_equations; lia.
Qed.

Lemma own_executed_other i o k : is_node i → is_node o → i ≠ o →
  own_executed i (seq_at o k + 1) = own_executed i (seq_at o k).
Proof.
  unfold is_node, own_executed, seq_at. intros Hi Ho Hne. Z.to_euclidean_division_equations. lia.
Qed.

Lemma reads_app a b : reads (a ++ b) = (reads a + reads b)%nat.
Proof. unfold reads. by rewrite List.filter_app, length_app. Qed.

Lemma executed_one h i k m : is_node i → h i !! k = Some m →
  executed_requests h i (seq_at i k + 1) =
  executed_requests h i (seq_at i k) ++ (if is_request m then [m] else []).
Proof.
  intros Hi Hk. destruct (own_executed_at i k Hi) as [H0 H1]. unfold executed_requests, requests.
  by rewrite H0, H1, (take_S_r _ _ _ Hk), List.filter_app.
Qed.

(** ** The pending table of one replica *)

(** The client request id of the [l]-th request of node [i]. *)
Definition request_id (i l : Z) : Z := Z.lor (i <<₆₄ 56) l.

Lemma request_id_split i l : is_node i → 0 ≤ l < 2 ^ 56 →
  request_id i l ≠ 0 ∧ Z.land (request_id i l) (Z.shiftl 1 56 - 1) = l.
Proof.
  unfold is_node, request_id. intros Hi Hl.
  assert (i <<₆₄ 56 = Z.shiftl i 56) as ->.
  { apply w64_small. rewrite Z.shiftl_mul_pow2 by lia. unfold is_u64. lia. }
  change (Z.shiftl 1 56 - 1) with (Z.ones 56).
  assert (Z.land (Z.lor (Z.shiftl i 56) l) (Z.ones 56) = l) as Hl'.
  { rewrite Z.land_lor_distr_l, (Z.land_ones l), (Z.mod_small l) by lia.
    rewrite Z.land_ones, Z.shiftl_mul_pow2, Z.mod_mul by lia. apply Z.lor_0_l. }
  split; [|done]. intros H0%Z.lor_eq_0_iff. destruct H0 as [H0 _].
  rewrite Z.shiftl_mul_pow2 in H0 by lia. lia.
Qed.

(** A replica of node [i] that has issued [R] requests, the last of them, [ws],
    not yet executed, and executed [rd] reads: each has left a latency sample. *)
Record requests_inv {S} (i : Z) (R rd : nat) (ws : list BandleMessage) (s : Node S) : Prop := {
  rq_next : next_client_req_id_ s = 1 + Z.of_nat R;
  rq_small : Z.of_nat R < 2 ^ 56 - 1;
  rq_le : (length ws ≤ R)%nat;
  rq_fit : Z.of_nat (length ws) ≤ kCompletionSlots;
  rq_count : pending_count_ s = Z.of_nat (length ws);
  rq_ok : ok_ops_ s = w64 (Z.of_nat (R - length ws));
  rq_reads : read_ops_ s = w64 (Z.of_nat rd);
  rq_reads_le : (rd ≤ R - length ws)%nat;
  rq_read_samples : samples rd (read_latency_ s);
  rq_write_samples : samples (R - length ws - rd) (write_latency_ s);
  rq_ids k m : ws !! k = Some m →
    p_client_req_id (m_body m) = request_id i (Z.of_nat (R - length ws + 1 + k)) ∧
    pe_id (pending_at s (slot_of (Z.of_nat (R - length ws + 1 + k)))) = p_client_req_id (m_body m) ∧
    pe_op (pending_at s (slot_of (Z.of_nat (R - length ws + 1 + k)))) = p_op (m_body m) ∧
    pe_done (pending_at s (slot_of (Z.of_nat (R - length ws + 1 + k)))) = false
}.

(** What the pending table and its counters depend on. *)
Record same_requests {S} (s s' : Node S) : Prop := {
  srq_pending : pending_ s' = pending_ s;
  srq_next : next_client_req_id_ s' = next_client_req_id_ s;
  srq_count : pending_count_ s' = pending_count_ s;
  srq_ok : ok_ops_ s' = ok_ops_ s;
  srq_reads : read_ops_ s' = read_ops_ s;
  srq_read_latency : read_latency_ s' = read_latency_ s;
  srq_write_latency : write_latency_ s' = write_latency_ s
}.

#[export] Instance same_requests_preorder {S} : PreOrder (@same_requests S).
Proof. split; [done|]. intros s1 s2 s3 [] []. split; congruence. Qed.

Lemma requests_frame {S} i R rd ws (s s' : Node S) : same_requests s s' →
  requests_inv i R rd ws s → requests_inv i R rd ws s'.
Proof.
  intros [Hp Hn Hc Ho Hr Hrl Hwl] []. split; rewrite ?Hn, ?Hc, ?Ho, ?Hr, ?Hrl, ?Hwl; try done.
  intros k m Hk. unfold pending_at. rewrite Hp. by apply rq_ids0.
Qed.

Section Requests.
Context {S : Type} (rdtsc : nat → Z) (cfg : Config) (i : Z).
Context (Hi : is_node i) (Hid : node_id_ cfg = i).
Implicit Types (s : Node S).

(** Numbering a proposal adds a request. *)
Lemma assign_one_requests R rd ws s m : requests_inv i R rd ws s →
  Z.of_nat (length ws) < kCompletionSlots → Z.of_nat R + 1 < 2 ^ 56 - 1 →
  let '(s', m') := assign_one rdtsc cfg s m in
  requests_inv i (R + 1) rd (ws ++ [m']) s' ∧ is_request m' = true.
Proof.
  intros [Hn HR Hle Hfit Hc Ho Hrd Hrl Hrs Hws Hids] Hroom HR1. unfold assign_one, rdtsc_ordered. cbv zeta.
  set (l := next_client_req_id_ _). assert (l = 1 + Z.of_nat R) as Hl by (rewrite <- Hn; done).
  clearbody l. destruct (request_id_split i l Hi) as [Hid0 _]; [lia|].
  assert (length ws + 1 ≤ R + 1)%nat as Hle1 by lia. rewrite Hid.
  split; [|by apply negb_true_iff, Z.eqb_neq]. change kCompletionSlots with 65536 in *.
  split; rewrite ?length_app; cbn [length]; try done; try lia.
  - cbn. rewrite w64_small by (unfold is_u64; lia). lia.
  - change kCompletionSlots with 65536. lia.
  - change (pending_count_ s +₆₄ 1 = Z.of_nat (length ws + 1)).
    rewrite Hc, w64_small by (unfold is_u64; lia). lia.
  - change (ok_ops_ s = w64 (Z.of_nat (R + 1 - (length ws + 1)))). rewrite Ho. do 2 f_equal. lia.
  - replace (R + 1 - (length ws + 1) - rd)%nat with (R - length ws - rd)%nat by lia. exact Hws.
  - intros k m' Hk. replace (R + 1 - (length ws + 1) + 1 + k)%nat with (R - length ws + 1 + k)%nat by lia.
    match goal with |- context [pending_at (?x <| pending_count_ := ?n |>) ?y] =>
      change (pending_at (x <| pending_count_ := n |>) y) with (pending_at x y) end.
    rewrite pending_at_set. apply lookup_app_Some in Hk as [Hk|[Hk Hm]].
    + assert (k < length ws)%nat by (by eapply lookup_lt_Some). rewrite decide_False; [by apply Hids|].
      apply window_slot_ne with (l - Z.of_nat (length ws)); lia.
    + apply list_lookup_singleton_Some in Hm as [Hk0 <-]. rewrite decide_True by (f_equal; lia).
      cbn [m_body p_client_req_id p_op pe_id pe_op pe_done]. split; [|done]. f_equal. lia.
Qed.

Lemma assign_chunk_requests chunk R rd ws s : requests_inv i R rd ws s →
  Z.of_nat (length ws + length chunk) ≤ kCompletionSlots →
  Z.of_nat (R + length chunk) < 2 ^ 56 - 1 →
  let '(s', ms) := assign_chunk rdtsc cfg s chunk in
  requests_inv i (R + length chunk) rd (ws ++ ms) s' ∧ Forall (λ m, is_request m = true) ms.
Proof.
  revert R ws s. induction chunk as [|m chunk IH]; intros R ws s Hs Hf HR; cbn [assign_chunk length] in *.
  { by rewrite app_nil_r, Nat.add_0_r. }
  pose proof (assign_one_requests R rd ws s m Hs ltac:(lia) ltac:(lia)) as H1.
  destruct (assign_one rdtsc cfg s m) as [s1 m1]. destruct H1 as [H1 Hr].
  specialize (IH (R + 1)%nat (ws ++ [m1]) s1 H1). rewrite length_app in IH. cbn [length] in IH.
  specialize (IH ltac:(lia) ltac:(lia)).
  destruct (assign_chunk rdtsc cfg s1 chunk) as [s2 ms]. destruct IH as [H2 Hrs]. split; [|by constructor].
  rewrite <- app_assoc in H2. by replace (R + Datatypes.S (length chunk))%nat with (R + 1 + length chunk)%nat by lia.
Qed.

(** Executing the proposal of the first waiting request completes it. *)
Lemma complete_head R rd m ws s e : requests_inv i R rd (m :: ws) s →
  decision e = 1 → le_proposer e = i → le_client_req_id e = p_client_req_id (m_body m) →
  requests_inv i R (reads [m] + rd) ws (complete_request rdtsc cfg e s).
Proof.
  intros [Hn HR Hle Hfit Hc Ho Hrd Hrl Hrs Hws Hids] Hd Hp He. cbn [length] in *.
  destruct (Hids O m eq_refl) as (Hm&Hpid&Hpop&Hpd). set (l := Z.of_nat (R - Datatypes.S (length ws) + 1 + 0)) in *.
  assert (l = Z.of_nat R - Z.of_nat (length ws)) as Hl by (unfold l; lia). clearbody l.
  destruct (request_id_split i l Hi ltac:(lia)) as [Hne Hland].
  unfold complete_request, rdtsc_ordered. rewrite Hd, Hp, He, Hid, Hm, Hland, Z.eqb_refl.
  rewrite (proj2 (Z.eqb_neq _ 0) Hne). cbn [negb andb]. rewrite Z.eqb_refl.
  rewrite Hpid, Hpd, Hm, Z.eqb_refl. cbn [negb andb]. cbv zeta.
  set (p := (pending_at s (slot_of l)) <| pe_done := true |>).
  set (latency := if rdtsc (tsc_reads s) >=? _ then _ else 0).
  assert (is_u64 latency) as Hlat by (unfold latency; case_if; [apply w64_range|by vm_compute]). clearbody latency.
  assert (reads [m] = if decide (pe_op (pending_at s (slot_of l)) = "G"%char) then 1%nat else 0%nat) as Hone.
  { unfold reads. cbn [List.filter]. unfold is_read. rewrite Hpop. case_decide.
    - by rewrite bool_decide_eq_true_2.
    - by rewrite bool_decide_eq_false_2. }
  match goal with |- requests_inv _ _ _ _ (if pending_count_ ?s1 >? 0 then _ else _) =>
    assert (pending_ s1 = <[slot_of l := p]> (pending_ s) ∧ next_client_req_id_ s1 = next_client_req_id_ s ∧
      pending_count_ s1 = pending_count_ s ∧ ok_ops_ s1 = ok_ops_ s +₆₄ 1) as (H1&H2&H3&H4)
      by (by destruct (decide (pe_op _ = _)));
    assert (read_ops_ s1 = w64 (Z.of_nat (reads [m] + rd)) ∧ (reads [m] + rd ≤ R - length ws)%nat ∧
      samples (reads [m] + rd) (read_latency_ s1) ∧
      samples (R - length ws - (reads [m] + rd)) (write_latency_ s1)) as (H5&H6&H7&H8);
    [|generalize dependent s1] end.
  { rewrite Hone. destruct (decide _) as [Hg|Hg].
    - split; [|split; [lia|split]].
      + change (w64 (read_ops_ s + 1) = w64 (Z.of_nat (1 + rd))). rewrite Hrd, w64_add_l. f_equal. lia.
      + exact (samples_record latency _ _ Hlat Hrs).
      + replace (R - length ws - (1 + rd))%nat with (R - Datatypes.S (length ws) - rd)%nat by lia. exact Hws.
    - split; [exact Hrd|split; [lia|split; [exact Hrs|]]].
      replace (R - length ws - (0 + rd))%nat with (1 + (R - Datatypes.S (length ws) - rd))%nat by lia.
      exact (samples_record latency _ _ Hlat Hws). }
  intros s1 H1 H2 H3 H4 H5 H7 H8. rewrite H3, Hc, Z.gtb_ltb, (proj2 (Z.ltb_lt 0 _)) by lia.
  split; cbn [next_client_req_id_ pending_count_ ok_ops_ read_ops_ read_latency_ write_latency_ set_field
    set_pending_count_]; try done; try lia.
  - etransitivity; [exact H4|]. rewrite Ho, w64_add_l. f_equal. lia.
  - intros k m' Hk. destruct (Hids (Datatypes.S k) m' Hk) as (Ha&Hb&Hop&Hd').
    replace (R - length ws + 1 + k)%nat with (R - Datatypes.S (length ws) + 1 + Datatypes.S k)%nat by lia.
    assert (k < length ws)%nat by (by eapply lookup_lt_Some).
    unfold pending_at in *. cbn [pending_ set_field set_pending_count_]. rewrite H1, lookup_insert_ne; [done|].
    change kCompletionSlots with 65536 in *. apply window_slot_ne with l; lia.
Qed.

(** Executing anything else changes no request. *)
Lemma complete_other s e : le_proposer e ≠ i ∨ le_client_req_id e = 0 →
  complete_request rdtsc cfg e s = s.
Proof.
  intros H. unfold complete_request. rewrite Hid.
  destruct H as [H| ->]; [rewrite (proj2 (Z.eqb_neq _ _) H)|rewrite Z.eqb_refl];
    cbn [negb andb]; by rewrite ?andb_false_r.
Qed.

End Requests.

(** ** Delivery and execution *)
Section Execution.
Context {S : Type} `{Store : ReplicaStore S}.
Context (hash : bytes → Z) `{!ReplicaStoreLaws hash S} (rdtsc : nat → Z) (cfg : Config).
Implicit Types (s : Node S).

(** Storing proposals completes nothing. *)
Lemma deliver_requests msg s :
  same_requests s (handle_proposal_locked hash rdtsc cfg msg false s).
Proof.
  unfold handle_proposal_locked. destruct (negb (proposal_known _)); [|done].
  destruct (decide _); [done|]. case_if; [|done]. by case_if.
Qed.

Lemma deliver_list_requests msgs s :
  same_requests s (foldl (fun s msg => handle_proposal_locked hash rdtsc cfg msg false s) s msgs).
Proof.
  revert s. induction msgs as [|m msgs IH]; intros s; [done|]. cbn [foldl].
  transitivity (handle_proposal_locked hash rdtsc cfg m false s); [apply deliver_requests|apply IH].
Qed.

Lemma exec_one_requests s :
  same_requests (complete_request rdtsc cfg (log_at s (slot_of (execute_next_ s))) s)
    (exec_one hash rdtsc cfg s).
Proof. rewrite exec_one_eq. by unfold complete_one. Qed.

Context (i : Z) (Hi : is_node i) (Hid : node_id_ cfg = i).
Context (V0 : MapType) (D : Z → option BandleMessage) (h : History).

(** What is delivered was issued, by the node it names. *)
Context (HD : ∀ q m, D q = Some m → ∃ o k, is_node o ∧ q = seq_at o k ∧ h o !! k = Some m).
Context (Hprop : ∀ o k m, is_node o → h o !! k = Some m → p_proposer (m_body m) = o).

Definition node_requests s : Prop :=
  requests_inv i (length (requests (h i))) (reads (executed_requests h i (execute_next_ s)))
    (waiting_requests h i (execute_next_ s)) s.

Lemma exec_step_requests s s' : replica_inv hash V0 D s → node_requests s →
  exec_step hash rdtsc cfg s s' → node_requests s'.
Proof.
  intros Hs Hr Hstep. pose proof Hstep as [He ->]. pose proof (ri_exec _ _ _ _ Hs) as Hx.
  destruct (exec_inv hash rdtsc cfg V0 D s _ Hs Hstep) as (_&_&Hnext).
  destruct (ready_delivered hash V0 D s (execute_next_ s) Hs ltac:(lia) He) as (m&Hm&_&Hh).
  destruct (HD _ _ Hm) as (o&k&Ho&Hq&Hk). pose proof (Hprop o k m Ho Hk) as Hpr.
  unfold node_requests in *. eapply requests_frame; [apply exec_one_requests|]. rewrite Hnext, Hq.
  rewrite Hq in Hr. unfold waiting_requests in *.
  destruct (decide (i = o)) as [<-|Hio].
  - rewrite (executed_one h i k m Hi Hk), reads_app.
    destruct (own_executed_at i k Hi) as [Hk0 ->]. rewrite Hk0 in Hr.
    rewrite (drop_S _ _ _ Hk) in Hr. unfold requests in *. cbn [List.filter] in Hr.
    destruct (is_request m) eqn:Hm'.
    + rewrite Nat.add_comm. eapply complete_head; [done|done|exact Hr| | |]; rewrite <- ?Hq; apply Hh || by rewrite (holds_proposer _ _ _ _ Hh).
    + rewrite Nat.add_0_r, (complete_other rdtsc cfg i Hid); [done|]. right. rewrite <- Hq, (holds_req_id _ _ _ _ Hh).
      by apply negb_false_iff, Z.eqb_eq in Hm'.
  - unfold executed_requests in *. rewrite own_executed_other by done. rewrite (complete_other rdtsc cfg i Hid); [done|]. left.
    rewrite <- Hq, (holds_proposer _ _ _ _ Hh). congruence.
Qed.

Lemma advance_requests s : replica_inv hash V0 D s → node_requests s →
  node_requests (advance_execute_locked hash rdtsc cfg s).
Proof.
  intros Hs Hr. destruct (advance_steps hash rdtsc cfg s (ri_ok _ _ _ _ Hs) (exec_small hash V0 D s Hs))
    as [Hsteps _].
  generalize dependent (advance_execute_locked hash rdtsc cfg s). intros s' Hsteps.
  induction Hsteps as [|s s1 s' H1 _ IH]; [done|].
  destruct (exec_inv hash rdtsc cfg V0 D s s1 Hs H1) as (Hs1&_&_). apply IH; [done|].
  by apply (exec_step_requests s s1).
Qed.

End Execution.

(** ** The cluster *)
Definition own (i : Z) (m : BandleMessage) : Prop := p_proposer (m_body m) = i.

Definition thread_owns (i : Z) (t : Thread) : Prop :=
  match t with
  | TAdmit chunks | TSend _ _ _ chunks => Forall (Forall (own i)) chunks
  | TNoopRead msg => own i msg ∧ is_request msg = false
  | TIdle | TNoop => True
  end.

(** Request ids have 56 bits below the node number. *)
Definition ids_fit (h : History) : Prop :=
  ∀ i, is_node i → Z.of_nat (length (h i)) < 2 ^ 56 - 1.

Lemma ids_no_overflow h : ids_fit h → no_overflow h.
Proof. intros Hf i Hi. specialize (Hf i Hi). lia. Qed.

Lemma requests_app l1 l2 : requests (l1 ++ l2) = requests l1 ++ requests l2.
Proof. apply List.filter_app. Qed.

Lemma requests_wire ms : requests (wire <$> ms) = wire <$> requests ms.
Proof.
  unfold requests. induction ms as [|m ms IH]; [done|]. cbn [fmap list_fmap List.filter].
  change (is_request (wire m)) with (is_request m). rewrite IH. by destruct (is_request m).
Qed.

Lemma requests_all ms : Forall (λ m, is_request m = true) ms → requests ms = ms.
Proof. induction 1 as [|m ms Hm _ IH]; [done|]. unfold requests in *. cbn. by rewrite Hm, IH. Qed.

Lemma length_requests ms : (length (requests ms) ≤ length ms)%nat.
Proof. apply List.filter_length_le. Qed.

Lemma requests_inv_wire {S} i R rd ws ms (s : Node S) :
  requests_inv i R rd (ws ++ ms) s → requests_inv i R rd (ws ++ (wire <$> ms)) s.
Proof.
  assert (length (ws ++ (wire <$> ms)) = length (ws ++ ms)) as Hl by (by rewrite !length_app, length_fmap).
  intros []. split; rewrite ?Hl; try done. intros k m Hk.
  apply lookup_app_Some in Hk as [Hk|[Hk Hm]].
  - apply rq_ids0. rewrite lookup_app_l; [done|]. by eapply lookup_lt_Some.
  - rewrite list_lookup_fmap in Hm. destruct (ms !! _) as [m'|] eqn:Hm'; [|done]. injection Hm as <-.
    apply (rq_ids0 k m'). by rewrite lookup_app_r.
Qed.

Section Completion.
Context {C S : Type} `{Chan : Channel C} `{!ChannelLaws C} `{Store : ReplicaStore S}.
Context (hash : bytes → Z) `{!ReplicaStoreLaws hash S}.
Context (rdtsc : Z → nat → Z) (cfg : Z → Config) (Hcfg : config_ok cfg) (V0 : MapType).
Implicit Types (c : Cluster C S) (h : History) (s : Node S).

Record completion_inv c h : Prop := {
  cn_requests i : is_node i → node_requests i h (nodes c i);
  cn_history i k m : is_node i → h i !! k = Some m → own i m;
  cn_thread i : is_node i → thread_owns i (threads c i)
}.

Lemma completion_local c h i s' t : completion_inv c h → is_node i →
  same_requests (nodes c i) s' → execute_next_ s' = execute_next_ (nodes c i) → thread_owns i t →
  completion_inv (set_node i s' t c) h.
Proof.
  intros Hc Hi Hs He Ht. split; [|apply Hc|].
  - intros j Hj. cbn. pose proof (cn_requests _ _ Hc j Hj) as Hr.
    destruct (decide (i = j)) as [<-|Hne]; [|by rewrite fn_lookup_insert_ne].
    rewrite fn_lookup_insert. unfold node_requests in *. rewrite He. by eapply requests_frame.
  - intros j Hj. cbn. destruct (decide (i = j)) as [<-|Hne]; [by rewrite fn_lookup_insert|].
    rewrite fn_lookup_insert_ne by done. by apply Hc.
Qed.

(** A node has issued every proposal of its own that it has executed. *)
Lemma own_executed_le c h n i : cluster_inv hash cfg V0 c h n → is_node i →
  (own_executed i (execute_next_ (nodes c i)) ≤ length (h i))%nat.
Proof.
  intros Hc Hi. pose proof (exec_le_next hash cfg V0 c h n i i Hc Hi Hi) as Hle.
  rewrite (nd_next _ _ _ _ (ci_node _ _ _ _ _ _ Hc i Hi)) in Hle.
  pose proof (ri_exec _ _ _ _ (ci_replica _ _ _ _ _ _ Hc i Hi)).
  destruct (Nat.le_gt_cases (own_executed i (execute_next_ (nodes c i))) (length (h i))) as [|Hgt]; [done|].
  apply own_executed_lt in Hgt; [lia|done|lia].
Qed.

Lemma completion_issue c h n i s' msgs t : cluster_inv hash cfg V0 c h n → completion_inv c h → is_node i →
  requests_inv i (length (requests (h i)) + length (requests msgs))
    (reads (executed_requests h i (execute_next_ (nodes c i))))
    (waiting_requests h i (execute_next_ (nodes c i)) ++ requests msgs) s' →
  execute_next_ s' = execute_next_ (nodes c i) → Forall (own i) msgs → thread_owns i t →
  completion_inv (set_node i s' t c) (issue (Some (i, msgs)) h).
Proof.
  intros Hc Hn Hi Hr He Hown Ht. pose proof (own_executed_le c h n i Hc Hi) as Hle. split.
  - intros j Hj. cbn. pose proof (cn_requests _ _ Hn j Hj) as Hrj. 
    unfold node_requests, waiting_requests, executed_requests in *.
    destruct (decide (i = j)) as [<-|Hne]; [|by rewrite !fn_lookup_insert_ne].
    rewrite !fn_lookup_insert, He, drop_app_le, take_app_le, !requests_app, length_app, requests_wire, length_fmap by done.
    by apply requests_inv_wire.
  - intros j k m Hj Hm. cbn in Hm. destruct (decide (i = j)) as [<-|Hne].
    + rewrite fn_lookup_insert in Hm. apply lookup_app_Some in Hm as [Hm|[_ Hm]]; [by eapply cn_history|].
      rewrite list_lookup_fmap in Hm. destruct (msgs !! _) as [m'|] eqn:Hm'; [|done]. injection Hm as <-.
      unfold own. cbn. rewrite Forall_lookup in Hown. by eapply Hown.
    + rewrite fn_lookup_insert_ne in Hm by done. by eapply cn_history.
  - intros j Hj. cbn. destruct (decide (i = j)) as [<-|Hne]; [by rewrite fn_lookup_insert|].
    rewrite fn_lookup_insert_ne by done. by apply Hn.
Qed.

Lemma completion_deliver c c' h n o j msgs rest : cluster_inv hash cfg V0 c h n → no_overflow h →
  completion_inv c h → is_node o → is_node j → drop (n o j) (h o) = (wire <$> msgs) ++ rest →
  nodes c' = <[j := self_deliver hash (rdtsc j) (cfg j) msgs (nodes c j)]> (nodes c) →
  (∀ i, i ≠ j → threads c' i = threads c i) → thread_owns j (threads c' j) →
  completion_inv c' h.
Proof.
  intros Hc Hno Hn Ho Hj Hd Hnodes Hth Htj.
  destruct (next_deliverable hash cfg V0 c h n o j msgs rest Hc Hno Ho Hj Hd) as (_&Hnd&Hdel&HD).
  destruct (deliver_list_inv hash (rdtsc j) (cfg j) V0 msgs _ _ (ci_replica _ _ _ _ _ _ Hc j Hj) Hdel Hnd)
    as [Hrep Hsame].
  split; [|apply Hn|].
  - intros i Hi. rewrite Hnodes. pose proof (cn_requests _ _ Hn i Hi) as Hr.
    destruct (decide (j = i)) as [<-|Hne]; [|by rewrite fn_lookup_insert_ne].
    rewrite fn_lookup_insert. unfold self_deliver.
    eapply (advance_requests hash (rdtsc j) (cfg j) j Hj (cfg_id _ Hcfg j Hj)); [| |exact Hrep|].
    + intros q m Hm. rewrite HD in Hm. destruct (delivered_some _ _ _ _ Hm) as (o'&k&?&?&_&?). by exists o', k.
    + intros o' k m Ho' Hm. by eapply cn_history.
    + unfold node_requests in *. rewrite (sol_exec _ _ Hsame).
      eapply requests_frame; [apply deliver_list_requests|exact Hr].
  - intros i Hi. destruct (decide (i = j)) as [->|Hne]; [done|]. rewrite Hth by done. by apply Hn.
Qed.

(** Preparing a batch issues nothing, and the proposals are the node's own. *)
Lemma prepare_own (g : Config) reqs bufs s :
  let '(ps, s') := prepare_proposals g reqs bufs s in
  Forall (own (node_id_ g)) ps ∧ same_requests s s'.
Proof.
  revert bufs s. induction reqs as [|req reqs IH]; intros bufs s; [done|]. cbn [prepare_proposals].
  destruct (_ || _).
  - specialize (IH (List.tl bufs) s). destruct (prepare_proposals _ _ _ _) as [ps s'].
    destruct IH as [IH1 IH2]. split; [|done]. constructor; [|done]. unfold own, prepare_proposal.
    by destruct (decide _).
  - specialize (IH bufs (s <| error_ops_ := error_ops_ s +₆₄ 1 |> <| total_ops_ := total_ops_ s +₆₄ 1 |>)).
    destruct (prepare_proposals _ _ _ _) as [ps s']. destruct IH as [IH1 [? ? ? ?]]. by split.
Qed.

Lemma chunks_own i ps : is_node i → Forall (own i) ps →
  Forall (Forall (own i)) (submit_chunks (cfg i) ps).
Proof.
  intros Hi Hown. destruct (cfg_window _ Hcfg i Hi) as (Hb&_&_).
  destruct (submit_chunks_spec (cfg i) ps Hb) as [Hcat _]. rewrite <- Hcat in Hown.
  by apply Forall_concat.
Qed.

(** What admission makes of a chunk. *)
Lemma admitted_replica c h n i chunk chunks s' msgs : cluster_inv hash cfg V0 c h n → no_overflow h → is_node i →
  threads c i = TAdmit (chunk :: chunks) →
  admit_chunk (rdtsc i) (cfg i) chunk (nodes c i) = Some (s', msgs) →
  assign_chunk (rdtsc i) (cfg i) (nodes c i) chunk = (s', msgs) ∧
  same_replica (nodes c i) s' ∧ length msgs = length chunk ∧ Forall sendable chunk ∧
  next_seq_ s' = next_seq_ (nodes c i) + 3 * Z.of_nat (length msgs) ∧
  ∀ (k : nat) m, msgs !! k = Some m → ∃ m0, chunk !! k = Some m0 ∧ same_request m m0.
Proof.
  intros Hc Hno Hi Ht Ha. destruct (ci_node _ _ _ _ _ _ Hc i Hi) as [Hnext _ _ Hth _]. rewrite Ht in Hth.
  apply Forall_cons in Hth as [(Hl&Hlb&Hsend) _].
  destruct (cfg_window _ Hcfg i Hi) as (_&_&Hb). unfold kWindow in Hb.
  pose proof (issued_small h i (length (h i)) Hno Hi ltac:(lia)) as Hsmall. rewrite <- Hnext in Hsmall.
  pose proof (assign_chunk_spec (rdtsc i) (cfg i) (cfg_three _ Hcfg i Hi) chunk (nodes c i)
    ltac:(lia) ltac:(lia)) as Hspec.
  assert (assign_chunk (rdtsc i) (cfg i) (nodes c i) chunk = (s', msgs)) as Has.
  { revert Ha. unfold admit_chunk. case_if; [congruence|done]. }
  rewrite Has in Hspec. destruct Hspec as (Hlen&Hms&Hsame&Hnext'&_). do 4 (split; [done|]). split; [by rewrite Hlen|].
  intros k m Hm. destruct (Hms k m Hm) as (m0&?&?&_). by exists m0.
Qed.

(** An admitted chunk fits in the pending table next to the waiting requests. *)
Lemma admit_room c h n i s' ms t : cluster_inv hash cfg V0 c h n → is_node i →
  same_replica (nodes c i) s' → next_seq_ s' = next_seq_ (nodes c i) + 3 * Z.of_nat (length ms) →
  (∃ n', cluster_inv hash cfg V0 (set_node i s' t c) (issue (Some (i, ms)) h) n') →
  Z.of_nat (length (waiting_requests h i (execute_next_ (nodes c i))) + length ms) ≤ kCompletionSlots.
Proof.
  intros Hc Hi Hs Hnext [n' Hc']. pose proof (own_executed_le c h n i Hc Hi) as Hle.
  pose proof (nd_window _ _ _ _ (ci_node _ _ _ _ _ _ Hc' i Hi)) as Hw. cbn in Hw.
  rewrite fn_lookup_insert, (sre_exec _ _ Hs), Hnext in Hw.
  rewrite (nd_next _ _ _ _ (ci_node _ _ _ _ _ _ Hc i Hi)) in Hw.
  pose proof (ri_exec _ _ _ _ (ci_replica _ _ _ _ _ _ Hc i Hi)) as Hx.
  unfold waiting_requests. pose proof (length_requests (drop (own_executed i (execute_next_ (nodes c i))) (h i))) as Hl.
  rewrite length_drop in Hl. set (E := execute_next_ (nodes c i)) in *.
  assert (E ≤ seq_at i (own_executed i E)) as HE.
  { destruct (Z.le_gt_cases E (seq_at i (own_executed i E))) as [|Hgt]; [done|].
    apply own_executed_lt in Hgt; (done || lia). }
  change kCompletionSlots with 65536. unfold seq_at, kWindow in *. lia.
Qed.

(** An admitted chunk consists of requests the node then waits for. *)
Lemma admitted_requests c h n i chunk chunks s' msgs : cluster_inv hash cfg V0 c h n →
  completion_inv c h → ids_fit (issue (Some (i, msgs)) h) → is_node i →
  threads c i = TAdmit (chunk :: chunks) →
  admit_chunk (rdtsc i) (cfg i) chunk (nodes c i) = Some (s', msgs) →
  requests_inv i (length (requests (h i)) + length msgs)
    (reads (executed_requests h i (execute_next_ (nodes c i))))
    (waiting_requests h i (execute_next_ (nodes c i)) ++ msgs) s' ∧
  Forall (λ m, is_request m = true) msgs.
Proof.
  intros Hc Hn Hfit Hi Ht Ha. pose proof (ids_no_overflow _ Hfit) as Hno.
  pose proof (admit_inv hash rdtsc cfg Hcfg V0 c h n i chunk chunks s' msgs Hc Hno Hi Ht Ha) as Hc'.
  destruct (admitted_replica c h n i chunk chunks s' msgs Hc (no_overflow_issue _ _ Hno) Hi Ht Ha)
    as (Has&Hsame&Hlen&_&Hnext'&_).
  pose proof (admit_room c h n i s' msgs _ Hc Hi Hsame Hnext' (ex_intro _ n Hc')) as Hroom.
  pose proof (Hfit i Hi) as Hids. cbn in Hids. rewrite fn_lookup_insert, length_app, length_fmap in Hids.
  pose proof (length_requests (h i)).
  pose proof (assign_chunk_requests (rdtsc i) (cfg i) i Hi (cfg_id _ Hcfg i Hi) chunk _ _ _ _
    (cn_requests _ _ Hn i Hi)) as Hreq.
  rewrite Has, <- Hlen in Hreq. by destruct (Hreq Hroom ltac:(lia)) as [Hinv Hall].
Qed.

Lemma completion_admit c h n i chunk chunks s' msgs : cluster_inv hash cfg V0 c h n →
  completion_inv c h → ids_fit (issue (Some (i, msgs)) h) → is_node i →
  threads c i = TAdmit (chunk :: chunks) →
  admit_chunk (rdtsc i) (cfg i) chunk (nodes c i) = Some (s', msgs) →
  completion_inv (set_node i s' (TSend false msgs (peers i 3) chunks) c) (issue (Some (i, msgs)) h).
Proof.
  intros Hc Hn Hfit Hi Ht Ha. pose proof (no_overflow_issue _ _ (ids_no_overflow _ Hfit)) as Hno.
  destruct (admitted_replica c h n i chunk chunks s' msgs Hc Hno Hi Ht Ha) as (_&Hsame&_&_&_&Hms).
  destruct (admitted_requests c h n i chunk chunks s' msgs Hc Hn Hfit Hi Ht Ha) as [Hinv Hall].
  pose proof (cn_thread _ _ Hn i Hi) as Hto. rewrite Ht in Hto. apply Forall_cons in Hto as [Hown Hchunks].
  apply (completion_issue c h n); try done.
  - by rewrite (requests_all msgs Hall).
  - apply (sre_exec _ _ Hsame).
  - apply Forall_lookup. intros k m Hm. destruct (Hms k m Hm) as (m0&Hm0&Hsr).
    unfold own. rewrite (sr_proposer _ _ Hsr). rewrite Forall_lookup in Hown. by eapply Hown.
Qed.

Lemma completion_step c h n l c' : cluster_inv hash cfg V0 c h n → completion_inv c h →
  ids_fit (issue l h) → step hash rdtsc cfg c l c' → completion_inv c' (issue l h).
Proof.
  intros Hc Hn Hfit Hstep. pose proof (no_overflow_issue _ _ (ids_no_overflow _ Hfit)) as Hno.
  destruct Hstep as [i reqs bufs ps s' Hi Ht Hin Hb Hr Hp|i chunk chunks s' msgs Hi Ht Ha|i Hi Ht
    |i noop msgs peer to chunks Hi Ht Hready|i msgs chunks Hi Ht|i msg Hi Ht|i Hi Ht
    |i finished now Hi Ht Hnoop|i Hi Ht|i msg now Hi Ht|i j msgs ch' Hi Hj Hij Hin Hd|i j Hi Hj Hij Hin];
    try (pose proof (cn_thread _ _ Hn i Hi) as Hto; rewrite Ht in Hto).
  - pose proof (prepare_own (cfg i) reqs bufs (nodes c i)) as Hspec. rewrite Hp in Hspec.
    destruct Hspec as [Hown Hs]. rewrite (cfg_id _ Hcfg i Hi) in Hown.
    pose proof (prepare_all (cfg i) reqs bufs (nodes c i) Hb Hr) as Hall. rewrite Hp in Hall.
    destruct Hall as (_&_&Hrep&_). apply completion_local; try done; [apply (sre_exec _ _ Hrep)|].
    by apply chunks_own.
  - rewrite (cfg_three _ Hcfg i Hi). by apply (completion_admit c h n i chunk).
  - by apply completion_local.
  - split; [apply Hn|apply Hn|]. intros j Hj. cbn. destruct (decide (i = j)) as [<-|Hne].
    + by rewrite fn_lookup_insert.
    + rewrite fn_lookup_insert_ne by done. by apply Hn.
  - destruct (ci_flow _ _ _ _ _ _ Hc i i Hi Hi) as [_ (q&_&Hq&Hd)]. destruct (Hq eq_refl) as [-> Hib].
    rewrite Hib, Ht in Hd. cbn [outgoing] in Hd. rewrite decide_True in Hd by (by left).
    eapply (completion_deliver c _ h n i i msgs []); try done; cbn [nodes threads set_node].
    + by rewrite app_nil_r.
    + intros j Hne. by rewrite fn_lookup_insert_ne.
    + by rewrite fn_lookup_insert.
  - destruct (ci_flow _ _ _ _ _ _ Hc i i Hi Hi) as [_ (q&_&Hq&Hd)]. destruct (Hq eq_refl) as [-> Hib].
    rewrite Hib, Ht in Hd. cbn [outgoing] in Hd. rewrite decide_True in Hd by (by left).
    rewrite self_deliver_noop_eq.
    eapply (completion_deliver c _ h n i i [msg] []); try done; cbn [nodes threads set_node].
    + intros j Hne. by rewrite fn_lookup_insert_ne.
    + by rewrite fn_lookup_insert.
  - by apply completion_local.
  - by apply completion_local.
  - apply completion_local; try done. split; [|done]. unfold own. cbn. by apply Hcfg.
  - destruct Hto as [Hown Hnoreq]. rewrite (cfg_three _ Hcfg i Hi).
    assert (requests [msg] = []) as Hnone by (unfold requests; cbn [List.filter]; by rewrite Hnoreq).
    apply (completion_issue c h n); try done; [|by apply Forall_singleton|by constructor].
    rewrite Hnone, app_nil_r, Nat.add_0_r. eapply requests_frame; [|by apply Hn]. done.
  - split; apply Hn.
  - destruct (ci_flow _ _ _ _ _ _ Hc i j Hi Hj) as [_ (q&_&_&Hd)].
    rewrite <- (take_drop kHandleChunk (inbox c (i, j))), fmap_app, <- app_assoc in Hd.
    destruct (next_deliverable hash cfg V0 c h n i j _ _ Hc Hno Hi Hj Hd) as [Hok _].
    eapply (completion_deliver c _ h n i j _ _ Hc Hno Hn Hi Hj Hd); try done; cbn [nodes threads].
    + rewrite handle_chunk_proposals; [done|done|]. by destruct (inbox c (i, j)).
    + by apply Hn.
Qed.

Lemma completion_initial c : initial cfg V0 c → completion_inv c (fun _ => []).
Proof.
  intros Hc. split.
  - intros i Hi. destruct (init_node _ _ _ Hc i Hi) as (kv&now&->&_). 
    unfold node_requests, waiting_requests, executed_requests. rewrite drop_nil, take_nil.
    split; try done; apply samples_empty.
  - done.
  - intros i Hi. by rewrite (init_thread _ _ _ Hc i Hi).
Qed.

Lemma ids_fit_issue l h : ids_fit (issue l h) → ids_fit h.
Proof.
  intros Hf. destruct l as [[i ms]|]; [|done]. intros j Hj. specialize (Hf j Hj). cbn in Hf.
  destruct (decide (i = j)) as [<-|Hne].
  - rewrite fn_lookup_insert, length_app in Hf. lia.
  - by rewrite fn_lookup_insert_ne in Hf.
Qed.

(** Both invariants, whatever has been delivered. *)
Record sound c h : Prop := {
  so_cluster : ∃ n, cluster_inv hash cfg V0 c h n;
  so_requests : completion_inv c h
}.

Lemma step_sound c h l c' : sound c h → ids_fit (issue l h) → step hash rdtsc cfg c l c' → sound c' (issue l h).
Proof.
  intros [[n Hc] Hn] Hf Hstep. split; [|by apply (completion_step c h n l c')].
  by eapply step_inv, Hstep; [..|apply ids_no_overflow].
Qed.

Lemma reach_sound c h : reach hash rdtsc cfg V0 c h → ids_fit h → sound c h.
Proof.
  induction 1 as [c Hc|c h l c' Hreach IH Hstep]; intros Hf.
  - split; [|by apply completion_initial]. by apply (reach_inv hash rdtsc cfg Hcfg V0); [apply reach_init|apply ids_no_overflow].
  - apply (step_sound c h l c'); [|done..]. by eapply IH, ids_fit_issue.
Qed.

Lemma reach_completion c h : reach hash rdtsc cfg V0 c h → ids_fit h → completion_inv c h.
Proof. intros Hr Hf. by apply (reach_sound c h Hr Hf). Qed.

End Completion.

(** ** Properties *)
Section Properties.
Context {C S : Type} `{Chan : Channel C} `{!ChannelLaws C} `{Store : ReplicaStore S}.
Context (hash : bytes → Z) `{!ReplicaStoreLaws hash S}.
Context (rdtsc : Z → nat → Z) (cfg : Z → Config) (V0 : MapType).
Implicit Types (c : Cluster C S) (h : History).

(** C11: every client request is completed exactly once, when its node executes
    it: in every reachable state [pending_count_] is the number of requests the
    node has issued and not executed, [ok_ops_] the number it has executed,
    [read_ops_] the reads among them, and the pending table still holds each waiting request, not overwritten by a
    later one. *)
Theorem requests_complete_once c h i (Hcfg : config_ok cfg)
    (Hr : reach hash rdtsc cfg V0 c h) (Hids : ids_fit h) (Hi : is_node i) :
  let s := nodes c i in
  let E := execute_next_ s in
  pending_count_ s = Z.of_nat (length (waiting_requests h i E)) ∧
  ok_ops_ s = w64 (Z.of_nat (length (executed_requests h i E))) ∧
  read_ops_ s = w64 (Z.of_nat (reads (executed_requests h i E))) ∧
  ∀ m, m ∈ waiting_requests h i E → ∃ slot,
    pe_id (pending_at s slot) = p_client_req_id (m_body m) ∧ pe_done (pending_at s slot) = false.
Proof.
  intros s E. destruct (reach_completion hash rdtsc cfg Hcfg V0 c h Hr Hids) as [Hreq _ _].
  destruct (Hreq i Hi) as [_ _ _ _ Hcount Hok Hreads _ _ _ Hcells].
  fold s E in Hcount, Hok, Hreads, Hcells. split; [done|]. split; [|split; [done|]].
  - rewrite Hok. do 2 f_equal. unfold executed_requests, waiting_requests.
    rewrite <- (take_drop (own_executed i E) (h i)) at 1. rewrite requests_app, length_app. lia.
  - intros m [k Hk]%list_elem_of_lookup. destruct (Hcells k m Hk) as (_&?&_&?). by eexists.
Qed.

(** Nothing is pending exactly when every request is executed. *)
Lemma done_when_executed c h i : sound hash cfg V0 c h → is_node i →
  all_pending_done (nodes c i) = true ↔
  ∀ k m, h i !! k = Some m → p_client_req_id (m_body m) ≠ 0 → seq_at i k < execute_next_ (nodes c i).
Proof.
  intros [[n Hc] [Hreq _ _]] Hi.
  pose proof (ri_exec _ _ _ _ (ci_replica _ _ _ _ _ _ Hc i Hi)) as Hx.
  pose proof (rq_count _ _ _ _ _ (Hreq i Hi)) as Hcount.
  set (E := execute_next_ (nodes c i)) in *. unfold all_pending_done. rewrite Z.eqb_eq, Hcount.
  unfold waiting_requests, requests. split.
  - intros H0 k m Hk Hm. destruct (Z.lt_ge_cases (seq_at i k) E) as [|Hge]; [done|exfalso].
    assert (List.In m (List.filter is_request (drop (own_executed i E) (h i)))) as Hin.
    { apply List.filter_In. split; [|by apply negb_true_iff, Z.eqb_neq].
      apply list_elem_of_In, list_elem_of_lookup. exists (k - own_executed i E)%nat.
      assert (¬ (k < own_executed i E)%nat) by (rewrite own_executed_lt; [lia|done|lia]).
      rewrite lookup_drop. by replace (own_executed i E + (k - own_executed i E))%nat with k by lia. }
    destruct (List.filter _ _); [done|cbn in H0; lia].
  - intros Hall. destruct (List.filter _ _) as [|m l] eqn:Hf; [done|exfalso].
    assert (List.In m (List.filter is_request (drop (own_executed i E) (h i)))) as Hin
      by (rewrite Hf; by left).
    apply List.filter_In in Hin as [Hin Hm%negb_true_iff%Z.eqb_neq].
    apply list_elem_of_In, list_elem_of_lookup in Hin as [k Hk]. rewrite lookup_drop in Hk.
    pose proof (Hall _ _ Hk Hm) as Hlt. apply own_executed_lt in Hlt; (done || lia).
Qed.

(** The condition [wait_for_all_pending] waits for holds exactly when every
    request the node has issued is executed, and then all of them are in the
    node's own store. *)
Theorem wait_ends_when_executed c h i (Hcfg : config_ok cfg)
    (Hr : reach hash rdtsc cfg V0 c h) (Hids : ids_fit h) (Hi : is_node i) :
  all_pending_done (nodes c i) = true ↔
  ∀ k m, h i !! k = Some m → p_client_req_id (m_body m) ≠ 0 → seq_at i k < execute_next_ (nodes c i).
Proof. by eapply done_when_executed; [apply (reach_sound hash rdtsc)|]. Qed.

End Properties.

(** ** Concrete runs *)
Module Examples.
Import Schedule KVStore.Examples Agreement.Examples.

#[local] Existing Instances rep rep_laws.

Lemma ids_fit_check h :
  forallb (fun i => Z.of_nat (length (h i)) <? 2 ^ 56 - 1) [1; 2; 3] = true → ids_fit h.
Proof.
  cbn [forallb]. intros H i Hi. unfold is_node in Hi.
  apply andb_prop in H as [H1 [H2 [H3 _]%andb_prop]%andb_prop].
  assert (i = 1 ∨ i = 2 ∨ i = 3) as [-> |[-> | ->]] by lia; by apply Z.ltb_lt.
Qed.

Lemma halfway_ids : ids_fit half.2.
Proof. apply ids_fit_check. by vm_compute. Qed.
Lemma whole_ids : ids_fit done_.2.
Proof. apply ids_fit_check. by vm_compute. Qed.

(** Halfway, node 1 has executed one of its three requests. *)
Example requests_complete_once_witness :
  pending_count_ (nodes half.1 1) = 2 ∧ ok_ops_ (nodes half.1 1) = 1 ∧ read_ops_ (nodes half.1 1) = 0.
Proof.
  destruct (requests_complete_once length_hash clock cfg V0 half.1 half.2 1 cfg_ok
    (result_reach halfway halfway_runs) halfway_ids node1) as (Hp&Ho&Hrd&_).
  split; [rewrite Hp|split; [rewrite Ho|rewrite Hrd]]; by vm_compute.
Defined.

Example wait_ends_when_executed_witness : all_pending_done (nodes done_.1 2) = true.
Proof.
  apply (wait_ends_when_executed length_hash clock cfg V0 done_.1 done_.2 2 cfg_ok
    (result_reach whole whole_runs) whole_ids node2').
  intros k m Hk _. apply lookup_lt_Some in Hk.
  assert (length (done_.2 2) = 2%nat) as Hl by (by vm_compute). rewrite Hl in Hk.
  assert (execute_next_ (nodes done_.1 2) = 8) as -> by (by vm_compute). unfold seq_at. lia.
Defined.

End Examples.
