(* ===== verification/Progress.v ===== *)
(** The cluster never gets stuck: whatever state it has reached, it can go on
    to deliver everything that is under way ([flush]), the owner of the
    position every replica waits for can issue it ([issue_next]), and repeating
    the two executes every proposal issued so far at every replica
    ([always_catches_up]). *)
From stdpp Require Import functions relations.
From S2P Require Import Prelude Histogram KVStore Message Ring Transport NodeState Bandle Execute Stats Replica Submit Cluster Agreement.

(** ** Sums over the pairs of nodes *)
Definition node_ids : list Z := [1; 2; 3].
Definition node_pairs : list (Z * Z) := node_ids ≫= (λ i, (λ j, (i, j)) <$> node_ids).

Lemma elem_of_node_ids i : i ∈ node_ids ↔ is_node i.
Proof. unfold node_ids, is_node. rewrite !elem_of_cons, elem_of_nil. lia. Qed.

Lemma elem_of_node_pairs i j : (i, j) ∈ node_pairs ↔ is_node i ∧ is_node j.
Proof.
  unfold node_pairs, is_node. cbn. rewrite !elem_of_cons, elem_of_nil.
  split.
  - intros H. repeat (destruct H as [[= -> ->]|H]; [lia|]). done.
  - intros [Hi Hj]. assert (i = 1 ∨ i = 2 ∨ i = 3) as [-> |[-> | ->]] by lia;
      assert (j = 1 ∨ j = 2 ∨ j = 3) as [-> |[-> | ->]] by lia; tauto.
Qed.

Lemma pair_search (P : Z → Z → Prop) `{∀ i j, Decision (P i j)} :
  (∃ i j, is_node i ∧ is_node j ∧ P i j) ∨ (∀ i j, is_node i → is_node j → ¬ P i j).
Proof.
  destruct (decide (Exists (λ p, P p.1 p.2) node_pairs)) as [He|He].
  - left. apply Exists_exists in He as ([i j]&Hin&HP). apply elem_of_node_pairs in Hin as [? ?].
    by exists i, j.
  - right. intros i j Hi Hj HP. apply He. apply Exists_exists. exists (i, j).
    by rewrite elem_of_node_pairs.
Qed.

Lemma zsum_le {A} (f g : A → Z) l : (∀ x, x ∈ l → g x ≤ f x) → zsum (g <$> l) ≤ zsum (f <$> l).
Proof.
  induction l as [|x l IH]; intros Hle; [done|]. cbn. unfold zsum in IH.
  assert (g x ≤ f x) by (apply Hle; left). assert (foldr Z.add 0 (g <$> l) ≤ foldr Z.add 0 (f <$> l)); [|lia].
  apply IH. intros y Hy. apply Hle. by right.
Qed.

Lemma zsum_lt {A} (f g : A → Z) l y : (∀ x, x ∈ l → g x ≤ f x) → y ∈ l → g y < f y →
  zsum (g <$> l) < zsum (f <$> l).
Proof.
  intros Hle [l1 [l2 ->]]%list_elem_of_split Hlt. rewrite !fmap_app, !zsum_app. cbn.
  assert (zsum (g <$> l1) ≤ zsum (f <$> l1)) by (apply zsum_le; intros; apply Hle; apply elem_of_app; by left).
  assert (zsum (g <$> l2) ≤ zsum (f <$> l2)).
  { apply zsum_le. intros. apply Hle, elem_of_app. right. by right. }
  unfold zsum in *. lia.
Qed.

Lemma zsum_nonneg {A} (f : A → Z) l : (∀ x, x ∈ l → 0 ≤ f x) → 0 ≤ zsum (f <$> l).
Proof.
  induction l as [|x l IH]; intros Hf; [done|]. cbn. unfold zsum in IH.
  assert (0 ≤ f x) by (apply Hf; left). assert (0 ≤ foldr Z.add 0 (f <$> l)); [|lia].
  apply IH. intros y Hy. apply Hf. by right.
Qed.

(** ** Runs *)
Section Runs.
Context {C St : Type} `{Chan : Channel C} `{!ChannelLaws C} `{Store : ReplicaStore St}.
Context (hash : bytes → Z) `{!ReplicaStoreLaws hash St}.
Context (rdtsc : Z → nat → Z) (cfg : Z → Config).

(** A step with the history it leaves. *)
Definition cstep (x y : Cluster C St * History) : Prop :=
  ∃ l, step hash rdtsc cfg x.1 l y.1 ∧ y.2 = issue l x.2.

(** What is left for a thread that submits: a chunk to admit each, and to
    return. *)
Definition thread_work (t : Thread) : nat :=
  match t with TAdmit chunks | TSend false _ _ chunks => S (length chunks) | _ => O end.

(** From [c] to [c'] no thread has started anything new. *)
Definition calm (c c' : Cluster C St) : Prop := ∀ i, is_node i →
  (threads c i = TIdle → threads c' i = TIdle) ∧
  input_done_ (nodes c' i) = input_done_ (nodes c i) ∧
  (thread_work (threads c' i) ≤ thread_work (threads c i))%nat.

#[export] Instance calm_preorder : PreOrder calm.
Proof.
  split; [by intros c i Hi; auto|]. intros c1 c2 c3 H12 H23 i Hi.
  destruct (H12 i Hi) as (?&?&?), (H23 i Hi) as (?&?&?). split; [auto|]. split; [congruence|lia].
Qed.

(** A calm step that issues nothing. *)
Definition calm_step (c c' : Cluster C St) : Prop := step hash rdtsc cfg c None c' ∧ calm c c'.

Lemma calm_steps_run c c' h : rtc calm_step c c' → rtc cstep (c, h) (c', h).
Proof.
  induction 1 as [|c c1 c' [Hs _] _ IH]; [done|]. eapply rtc_l; [|exact IH]. by exists None.
Qed.

Lemma calm_steps_calm c c' : rtc calm_step c c' → calm c c'.
Proof. induction 1 as [|c c1 c' [_ Hs] _ IH]; [done|]. by transitivity c1. Qed.

(** Steps of one thread and of one replica are calm. *)
Lemma calm_thread c i t chans' inbox' : threads c i ≠ TIdle →
  (thread_work t ≤ thread_work (threads c i))%nat →
  calm c {| nodes := nodes c; threads := <[i := t]> (threads c); chans := chans'; inbox := inbox' |}.
Proof.
  intros Hne Hle j Hj. cbn. destruct (decide (i = j)) as [<-|]; [|by rewrite fn_lookup_insert_ne].
  by rewrite fn_lookup_insert.
Qed.

Lemma calm_node c i s' : input_done_ s' = input_done_ (nodes c i) → ∀ chans' inbox',
  calm c {| nodes := <[i := s']> (nodes c); threads := threads c; chans := chans'; inbox := inbox' |}.
Proof.
  intros Hs chans' inbox' j Hj. cbn. destruct (decide (i = j)) as [<-|]; [|by rewrite fn_lookup_insert_ne].
  by rewrite fn_lookup_insert.
Qed.

Lemma calm_set_node c i s' t : threads c i ≠ TIdle → input_done_ s' = input_done_ (nodes c i) →
  (thread_work t ≤ thread_work (threads c i))%nat → calm c (set_node i s' t c).
Proof.
  intros Hne Hs Hle. transitivity (set_node i (nodes c i) t c).
  - intros j Hj. cbn. destruct (decide (i = j)) as [<-|]; [|by rewrite !fn_lookup_insert_ne].
    by rewrite !fn_lookup_insert.
  - intros j Hj. cbn. destruct (decide (i = j)) as [<-|]; [|by rewrite !fn_lookup_insert_ne].
    by rewrite !fn_lookup_insert.
Qed.

Lemma run_reaches V0 c h c' h' : reach hash rdtsc cfg V0 c h → rtc cstep (c, h) (c', h') →
  reach hash rdtsc cfg V0 c' h'.
Proof.
  intros Hr Hrun. remember (c, h) as x eqn:Hx. remember (c', h') as y eqn:Hy.
  revert c h c' h' Hx Hy Hr. induction Hrun as [x|x y z [l [Hs Hl]] _ IH]; intros c h c' h' -> Hy Hr.
  - by injection Hy as <- <-.
  - destruct y as [c1 h1]. cbn in Hs, Hl. subst h1. eapply IH; [done|done|]. by eapply reach_step.
Qed.

(** Histories only grow. *)
Lemma issue_prefix l h i : h i `prefix_of` issue l h i.
Proof.
  destruct l as [[o ms]|]; [|done]. cbn. destruct (decide (o = i)) as [<-|].
  - rewrite fn_lookup_insert. by apply prefix_app_r.
  - by rewrite fn_lookup_insert_ne.
Qed.

Lemma run_prefix x y i : rtc cstep x y → x.2 i `prefix_of` y.2 i.
Proof.
  induction 1 as [|x y z [l [_ Hl]] _ IH]; [done|]. etransitivity; [|exact IH].
  rewrite Hl. apply issue_prefix.
Qed.

Lemma issued_mono h h' q m : (∀ i, h i `prefix_of` h' i) → issued h q = Some m → issued h' q = Some m.
Proof.
  intros Hpre (o&k&Ho&->&_&Hm)%delivered_some.
  pose proof (prefix_lookup_Some _ _ _ _ Hm (Hpre o)) as Hm'. unfold issued. rewrite delivered_at by done.
  apply lookup_lt_Some in Hm' as Hlt. by destruct (Nat.ltb_spec k (length (h' o))); [|lia].
Qed.

End Runs.

(** ** Delivering what is under way *)
Section Flush.
Context {C S : Type} `{Chan : Channel C} `{!ChannelLaws C} `{Store : ReplicaStore S}.
Context (hash : bytes → Z) `{!ReplicaStoreLaws hash S}.
Context (rdtsc : Z → nat → Z) (cfg : Z → Config) (Hcfg : config_ok cfg) (V0 : MapType).
Implicit Types (c : Cluster C S) (h : History) (n : Z → Z → nat).

Abbreviation inv := (cluster_inv hash cfg V0).
Abbreviation run := (rtc (cstep hash rdtsc cfg)).

(** How far the messages of the pair are from being handled: three moves for a
    message still with the sender, two in the channel, one in the batch. *)
Definition distance c h n (p : Z * Z) : Z :=
  let '(i, j) := p in
  2 * (Z.of_nat (length (h i)) - Z.of_nat (n i j)) + Z.of_nat (length (outgoing i (threads c i) j))
    - Z.of_nat (length (inbox c (i, j))).

Definition total_distance c h n : Z := zsum (distance c h n <$> node_pairs).

Lemma distance_nonneg c h n p : inv c h n → p ∈ node_pairs → 0 ≤ distance c h n p.
Proof.
  destruct p as [i j]. intros Hc [Hi Hj]%elem_of_node_pairs.
  destruct (ci_flow _ _ _ _ _ _ Hc i j Hi Hj) as [Hn (q&_&_&Hd)].
  apply (f_equal length) in Hd. rewrite length_drop, !length_app, !length_fmap in Hd.
  unfold distance. lia.
Qed.

(** A step that brings some pair nearer and no pair further away. *)
Lemma distance_decreases c h n c' n' i j :
  (∀ i' j', is_node i' → is_node j' → distance c' h n' (i', j') ≤ distance c h n (i', j')) →
  is_node i → is_node j → distance c' h n' (i, j) < distance c h n (i, j) →
  total_distance c' h n' < total_distance c h n.
Proof.
  intros Hle Hi Hj Hlt. apply zsum_lt with (i, j); [|by apply elem_of_node_pairs|done].
  intros [i' j'] [? ?]%elem_of_node_pairs. by apply Hle.
Qed.

(** A nearer state in one calm step. *)
Definition nearer c h n : Prop :=
  ∃ c' n', calm_step hash rdtsc cfg c c' ∧ inv c' h n' ∧ total_distance c' h n' < total_distance c h n.

(** Delivery changes nothing the proposing threads look at. *)
Lemma handled_input c h n i j : inv c h n → no_overflow h → is_node i → is_node j → i ≠ j →
  inbox c (i, j) ≠ [] →
  input_done_ (handle_chunk hash (rdtsc j) (cfg j) (take kHandleChunk (inbox c (i, j))) (nodes c j)) =
  input_done_ (nodes c j).
Proof.
  intros Hc Hno Hi Hj Hij Hne. destruct (ci_flow _ _ _ _ _ _ Hc i j Hi Hj) as [_ (q&_&_&Hd)].
  rewrite <- (take_drop kHandleChunk (inbox c (i, j))), fmap_app, <- app_assoc in Hd.
  destruct (deliver_node hash rdtsc cfg V0 c h n i j _ _ Hc Hno Hi Hj Hd) as (Hok&_&Hsame&_).
  rewrite handle_chunk_proposals; [apply (sp_input _ _ Hsame)|done|]. by destruct (inbox c (i, j)).
Qed.

Lemma self_input c h n i noop msgs chunks : inv c h n → no_overflow h → is_node i →
  threads c i = TSend noop msgs [] chunks →
  input_done_ (self_deliver hash (rdtsc i) (cfg i) msgs (nodes c i)) = input_done_ (nodes c i).
Proof.
  intros Hc Hno Hi Ht. destruct (ci_flow _ _ _ _ _ _ Hc i i Hi Hi) as [_ (q&_&Hq&Hd)].
  destruct (Hq eq_refl) as [-> Hib]. rewrite Hib, Ht in Hd. cbn [outgoing] in Hd.
  rewrite decide_True in Hd by (by left).
  destruct (deliver_node hash rdtsc cfg V0 c h n i i msgs []) as (_&_&Hsame&_); try done.
  { by rewrite app_nil_r. }
  apply (sp_input _ _ Hsame).
Qed.

Lemma handle_nearer c h n i j : inv c h n → no_overflow h → is_node i → is_node j →
  inbox c (i, j) ≠ [] → nearer c h n.
Proof.
  intros Hc Hno Hi Hj Hne.
  destruct (ci_flow _ _ _ _ _ _ Hc i j Hi Hj) as [Hcount (q&_&Hq&Hd)].
  assert (i ≠ j) as Hij by (intros Hij; destruct (Hq Hij); done).
  eexists _, _. split; [split; [by apply step_handle with (i := i) (j := j)|apply calm_node]|].
  { by apply (handled_input c h n i j). }
  split; [by apply handle_inv|].
  set (m := take kHandleChunk (inbox c (i, j))).
  assert (0 < length m ≤ length (inbox c (i, j)))%nat as Hm.
  { unfold m. rewrite length_take. unfold kHandleChunk. destruct (inbox c (i, j)); [done|cbn [length]; lia]. }
  assert (length (drop kHandleChunk (inbox c (i, j))) = length (inbox c (i, j)) - length m)%nat as Hdr.
  { unfold m. rewrite length_drop, length_take. lia. }
  apply distance_decreases with i j; try done; unfold distance, deliver_count; cbn [threads inbox fst]; fold m.
  - intros i' j' _ _. destruct (decide (i' = i ∧ j' = j)) as [[-> ->]|Hne'].
    + rewrite fn_lookup_insert, Hdr. lia.
    + rewrite fn_lookup_insert_ne by (intros [= ? ?]; by apply Hne'). lia.
  - rewrite decide_True, fn_lookup_insert, Hdr by done. lia.
Qed.

Lemma drain_nearer c h n i j : inv c h n → is_node i → is_node j → i ≠ j → inbox c (i, j) = [] →
  is_Some (ch_drain (batch_size_ (cfg j)) (chans c (i, j))) → nearer c h n.
Proof.
  intros Hc Hi Hj Hij Hin [[msgs ch'] Hdr].
  apply ch_drain_takes in Hdr as Htk.
  eexists _, n. split; [split; [by eapply step_drain with (i := i) (j := j)|by intros k Hk]|].
  split; [by eapply drain_inv|].
  destruct (ci_flow _ _ _ _ _ _ Hc i j Hi Hj) as [_ (q&Hq&_&_)].
  destruct (ch_drain_some _ _ _ _ _ (Hq Hij) Hdr) as (_&Hne&_).
  assert (0 < length msgs)%nat by (destruct msgs; [done|cbn [length]; lia]).
  apply distance_decreases with i j; try done; unfold distance; cbn [threads inbox fst].
  - intros i' j' _ _. destruct (decide ((i, j) = (i', j'))) as [[= <- <-]|Hne'].
    + rewrite fn_lookup_insert, Hin. cbn [length]. lia.
    + by rewrite fn_lookup_insert_ne.
  - rewrite fn_lookup_insert, Hin. cbn [length]. lia.
Qed.

(** With all channels empty a sender can go on. *)
Lemma send_nearer c h n i noop msgs to chunks : inv c h n → no_overflow h → is_node i →
  threads c i = TSend noop msgs to chunks → (∀ j, is_node j → i ≠ j → ch_queue (chans c (i, j)) []) →
  nearer c h n.
Proof.
  intros Hc Hno Hi Ht Hch. pose proof (nd_thread _ _ _ _ (ci_node _ _ _ _ _ _ Hc i Hi)) as Hth.
  rewrite Ht in Hth. destruct Hth as (Hne&Hlen&_&Hnd&Hto&Hchunks&Hnoop).
  assert (0 < length msgs)%nat as Hpos by (destruct msgs; [done|cbn [length]; lia]).
  destruct to as [|peer to].
  - assert (∀ t', (∀ j, outgoing i t' j = []) → ∀ s',
      total_distance (set_node i s' t' c) h (deliver_count n i i (length msgs)) < total_distance c h n) as Hdec.
    { intros t' Hout s'. apply distance_decreases with i i; try done; unfold distance, deliver_count;
        cbn [threads inbox set_node fst].
      - intros i' j' _ _. destruct (decide (i' = i ∧ j' = i)) as [[-> ->]|Hne'].
        + rewrite fn_lookup_insert, Hout. cbn [length]. lia.
        + destruct (decide (i = i')) as [<-|]; [|by rewrite fn_lookup_insert_ne].
          rewrite fn_lookup_insert, Hout. cbn [length]. lia.
      - rewrite decide_True, fn_lookup_insert, Hout by done. cbn [length]. lia. }
    destruct noop.
    + destruct (Hnoop eq_refl) as [Hl1 ->]. destruct msgs as [|msg [|]]; [done| |done].
      eexists _, _. split; [split; [by apply step_self_noop with (i := i)|]|].
      { apply calm_set_node; rewrite ?Ht; [done| |done].
        rewrite self_deliver_noop_eq. by apply (self_input c h n i true [msg] []). }
      rewrite self_deliver_noop_eq. split; [by apply self_inv with true []|]. by apply Hdec.
    + eexists _, _. split; [split; [by apply step_self with (i := i)|]|].
      { apply calm_set_node; rewrite ?Ht; [done| |done]. by apply (self_input c h n i false msgs chunks). }
      split; [by apply self_inv with false chunks|]. by apply Hdec.
  - destruct (Hto peer ltac:(left)) as [Hpeer Hpi].
    assert (ch_ready (length msgs) (chans c (i, peer)) = true) as Hready.
    { by apply ch_ready_law with []; [apply Hch|]. }
    eexists _, n. split; [split; [by eapply step_send with (i := i)|apply calm_thread; rewrite Ht; by destruct noop]|].
    split; [by apply (send_inv hash rdtsc cfg)|]. apply NoDup_cons in Hnd as [Hnotin _].
    apply distance_decreases with i peer; try done; unfold distance; cbn [threads inbox fst].
    + intros i' j' _ _. destruct (decide (i = i')) as [<-|]; [|by rewrite fn_lookup_insert_ne].
      rewrite fn_lookup_insert, Ht. cbn [outgoing]. destruct (decide (j' = i ∨ j' ∈ to)) as [Hin|Hin].
      * rewrite decide_True; [done|]. destruct Hin; [by left|by right; right].
      * cbn [length]. lia.
    + rewrite fn_lookup_insert, Ht. cbn [outgoing]. rewrite decide_False by (intros [?|?]; done).
      rewrite decide_True by (right; left). cbn [length]. lia.
Qed.

Lemma quiet_or_nearer c h n : inv c h n → no_overflow h → quiet cfg c ∨ nearer c h n.
Proof.
  intros Hc Hno.
  destruct (pair_search (λ i j, length (inbox c (i, j)) ≠ O)) as [(i&j&Hi&Hj&Hne)|Hin].
  { right. apply handle_nearer with i j; try done. intros H. by rewrite H in Hne. }
  assert (∀ i j, is_node i → is_node j → inbox c (i, j) = []) as Hinbox.
  { intros i j Hi Hj. specialize (Hin i j Hi Hj). destruct (inbox c (i, j)); [done|by destruct Hin]. }
  destruct (pair_search (λ i j, i ≠ j ∧ is_Some (ch_drain (batch_size_ (cfg j)) (chans c (i, j)))))
    as [(i&j&Hi&Hj&Hij&Hd)|Hdr].
  { right. apply drain_nearer with i j; try done. by apply Hinbox. }
  assert (∀ i j, is_node i → is_node j → i ≠ j → ch_drain (batch_size_ (cfg j)) (chans c (i, j)) = None)
    as Hnone.
  { intros i j Hi Hj Hij. specialize (Hdr i j Hi Hj). destruct (ch_drain _ _); [|done].
    by destruct Hdr. }
  destruct (pair_search (λ i j, length (outgoing i (threads c i) i) ≠ O))
    as [(i&_&Hi&_&Hs)|Hs].
  - right. destruct (threads c i) as [| |noop msgs to chunks| |] eqn:Ht; try done.
    apply (send_nearer c h n i noop msgs to chunks); try done. intros j Hj Hij.
    destruct (ci_flow _ _ _ _ _ _ Hc i j Hi Hj) as [_ (q&Hq&_&_)]. specialize (Hq Hij).
    by rewrite (ch_drain_none _ _ _ Hq (Hnone i j Hi Hj Hij)) in Hq.
  - left. split; [|done|done]. intros i j Hi Hj. specialize (Hs i j Hi Hj).
    destruct (threads c i) as [| |noop msgs to chunks| |] eqn:Ht; try done.
    cbn [outgoing] in *. rewrite decide_True in Hs by (by left). destruct msgs; [by destruct (decide _)|].
    by destruct Hs.
Qed.

(** Everything under way can be delivered without issuing anything. *)
Lemma flush c h n : inv c h n → no_overflow h →
  ∃ c' n', rtc (calm_step hash rdtsc cfg) c c' ∧ inv c' h n' ∧ quiet cfg c'.
Proof.
  intros Hc Hno. remember (Z.to_nat (total_distance c h n)) as k eqn:Hk.
  revert c n Hc Hk. induction (lt_wf k) as [k _ IH]. intros c n Hc ->.
  destruct (quiet_or_nearer c h n Hc Hno) as [Hq|(c1&n1&Hs&Hc1&Hlt)]; [by exists c, n|].
  assert (0 ≤ total_distance c1 h n1) by (apply zsum_nonneg; intros; by apply distance_nonneg).
  destruct (IH (Z.to_nat (total_distance c1 h n1)) ltac:(lia) c1 n1 Hc1 eq_refl) as (c'&n'&Hr&?&?).
  exists c', n'. split; [|done]. by eapply rtc_l.
Qed.

End Flush.

(** ** Issuing the position everyone waits for *)
Section Issue.
Context {C S : Type} `{Chan : Channel C} `{!ChannelLaws C} `{Store : ReplicaStore S}.
Context (hash : bytes → Z) `{!ReplicaStoreLaws hash S}.
Context (rdtsc : Z → nat → Z) (cfg : Z → Config) (Hcfg : config_ok cfg) (V0 : MapType).
Implicit Types (c : Cluster C S) (h : History) (n : Z → Z → nat).

Abbreviation inv := (cluster_inv hash cfg V0).
Abbreviation run := (rtc (cstep hash rdtsc cfg)).

(** A continuation that issues position [E], with at most a chunk more. *)
Definition can_issue c h (E : Z) : Prop :=
  ∃ c' h', run (c, h) (c', h') ∧ is_Some (issued h' E) ∧
    ∀ i, is_node i → Z.of_nat (length (h' i)) ≤ Z.of_nat (length (h i)) + 10922.

Lemma can_issue_step c h c1 E : cstep hash rdtsc cfg (c, h) (c1, h) → can_issue c1 h E → can_issue c h E.
Proof.
  intros Hs (c'&h'&Hr&Hrest). exists c', h'. split; [|done]. by eapply rtc_l.
Qed.

Lemma issuing_step c h c1 o msgs E : is_node o → seq_at o (length (h o)) = E → msgs ≠ [] →
  Z.of_nat (length msgs) ≤ 10922 → step hash rdtsc cfg c (Some (o, msgs)) c1 → can_issue c h E.
Proof.
  intros Ho HE Hne Hlen Hs. exists c1, (issue (Some (o, msgs)) h). split; [|split].
  - apply rtc_once. by exists (Some (o, msgs)).
  - unfold issued. rewrite <- HE, delivered_at by done. cbn [issue].
    rewrite fn_lookup_insert, length_app, length_fmap.
    destruct msgs as [|m msgs]; [done|]. cbn [length].
    rewrite (proj2 (Nat.ltb_lt _ _)) by lia. rewrite lookup_app_r, Nat.sub_diag by lia. by eexists.
  - intros i Hi. cbn. destruct (decide (o = i)) as [<-|].
    + rewrite fn_lookup_insert, length_app, length_fmap. lia.
    + rewrite fn_lookup_insert_ne by done. lia.
Qed.

Lemma read_issue c h o msg E : is_node o → seq_at o (length (h o)) = E →
  threads c o = TNoopRead msg → can_issue c h E.
Proof.
  intros Ho HE Ht. eapply (issuing_step c h _ o [msg]); [done|done|done|cbn; lia|].
  by apply step_noop_reserve with (now := 0).
Qed.

Lemma noop_issue c h o E : is_node o → seq_at o (length (h o)) = E →
  threads c o = TNoop → can_issue c h E.
Proof.
  intros Ho HE Ht. eapply can_issue_step; [exists None; split; [by apply step_noop_read with (i := o)|done]|].
  eapply (read_issue _ h o); [done|done|]. cbn. by rewrite fn_lookup_insert.
Qed.

(** Once the interval has passed the proposer thread proposes. *)
Lemma owner_proposes o s now : is_node o → 1 ≤ execute_next_ s ≤ 2 ^ 62 →
  highest_proposed_seq_ s ≤ execute_next_ s → input_done_ s = true →
  noop_interval_us_ (cfg o) *₆₄ 1000 ≤ now -₆₄ last_noop_ns_ s →
  should_propose_noop_locked (cfg o) false now (s : Node S) = true.
Proof.
  intros Ho He Hh Hin Hnow. unfold should_propose_noop_locked. rewrite Hin, (cfg_three _ Hcfg o Ho).
  cbn [negb orb]. rewrite (proj2 (Z.ltb_ge _ _) Hnow). change (3 *₆₄ 512) with 1536.
  rewrite w64_small by (unfold is_u64; lia). apply Z.ltb_lt. lia.
Qed.

Lemma idle_issue c h o E : is_node o → seq_at o (length (h o)) = E → threads c o = TIdle →
  1 ≤ execute_next_ (nodes c o) ≤ 2 ^ 62 → highest_proposed_seq_ (nodes c o) ≤ execute_next_ (nodes c o) →
  can_issue c h E.
Proof.
  intros Ho HE Ht He Hh. set (s := mark_input_done (nodes c o)).
  eapply can_issue_step; [exists None; split; [by apply step_input_done with (i := o)|done]|]. cbn [fst]. fold s.
  set (now := last_noop_ns_ s +₆₄ (noop_interval_us_ (cfg o) *₆₄ 1000)).
  eapply can_issue_step; [exists None; split; [|done]|].
  { apply step_noop_check with (i := o) (finished := false) (now := now); [done|cbn; by rewrite fn_lookup_insert|].
    cbn. rewrite fn_lookup_insert. apply owner_proposes; [done..|]. unfold now.
    rewrite w64_sub_l. replace (last_noop_ns_ s + _ - _) with (noop_interval_us_ (cfg o) *₆₄ 1000) by lia.
    by rewrite w64_idemp. }
  eapply (noop_issue _ h o); [done|done|]. cbn. by rewrite fn_lookup_insert.
Qed.

Lemma admitted_chunk c h n o chunk chunks s' msgs : inv c h n → no_overflow h → is_node o →
  threads c o = TAdmit (chunk :: chunks) →
  admit_chunk (rdtsc o) (cfg o) chunk (nodes c o) = Some (s', msgs) →
  msgs ≠ [] ∧ Z.of_nat (length msgs) ≤ 10922 ∧ input_done_ s' = input_done_ (nodes c o).
Proof.
  intros Hc Hno Ho Ht Ha. destruct (ci_node _ _ _ _ _ _ Hc o Ho) as [Hseq _ _ Hth _]. rewrite Ht in Hth.
  apply Forall_cons in Hth as [(Hl&Hlb&_) _].
  destruct (cfg_window _ Hcfg o Ho) as (_&_&Hb). unfold kWindow in Hb.
  pose proof (issued_small h o (length (h o)) Hno Ho ltac:(lia)) as Hsmall. rewrite <- Hseq in Hsmall.
  pose proof (assign_chunk_spec (rdtsc o) (cfg o) (cfg_three _ Hcfg o Ho) chunk (nodes c o)
    ltac:(lia) ltac:(lia)) as Hspec.
  assert (assign_chunk (rdtsc o) (cfg o) (nodes c o) chunk = (s', msgs)) as Has.
  { revert Ha. unfold admit_chunk. case_if; [congruence|done]. }
  rewrite Has in Hspec. destruct Hspec as (Hlen&_&_&_&Hin&_).
  split; [intros ->; cbn in Hlen; lia|]. split; [lia|done].
Qed.

(** In a quiet state the owner can issue the position. *)
Lemma issue_next c h n j : inv c h n → no_overflow h → quiet cfg c → is_node j →
  can_issue c h (execute_next_ (nodes c j)).
Proof.
  intros Hc Hno Hq Hj. set (E := execute_next_ (nodes c j)). set (o := owner E).
  destruct (quiet_owner hash cfg V0 c h n j Hc Hq Hj) as [Ho Hnext]. fold E o in Ho, Hnext.
  pose proof (quiet_exec hash cfg V0 c h n o j Hc Hq Ho Hj) as Heq. fold E in Heq.
  destruct (ci_node _ _ _ _ _ _ Hc o Ho) as [Hseq Hhigh _ Hth _].
  assert (seq_at o (length (h o)) = E) as HE by congruence.
  pose proof (ri_exec _ _ _ _ (ci_replica _ _ _ _ _ _ Hc o Ho)) as Hex.
  assert (highest_proposed_seq_ (nodes c o) ≤ execute_next_ (nodes c o)) as Hh by lia.
  destruct (threads c o) as [|[|chunk chunks]|noop msgs to chunks| |msg] eqn:Ht.
  - by apply (idle_issue c h o).
  - eapply can_issue_step; [exists None; split; [by apply step_return with (i := o)|done]|]. cbn [fst].
    apply (idle_issue _ h o); cbn; rewrite ?fn_lookup_insert; done.
  - destruct (owner_admits hash rdtsc cfg V0 c h n o chunk chunks Hcfg Hc Ho Hnext Ht) as [[s' msgs] Ha].
    pose proof (admitted_chunk c h n o chunk chunks s' msgs Hc Hno Ho Ht Ha) as (Hne&Hlen&_).
    eapply (issuing_step c h _ o msgs); [done|done|done|done|]. by eapply step_admit.
  - exfalso. pose proof (quiet_thread _ _ Hq o o Ho Ho) as Hout. rewrite Ht in Hout. cbn [outgoing] in Hout.
    rewrite decide_True in Hout by (by left). by destruct Hth as [Hne _].
  - by apply (noop_issue c h o).
  - by apply (read_issue c h o msg).
Qed.

End Issue.

(** ** Catching up *)
Section CatchUp.
Context {C S : Type} `{Chan : Channel C} `{!ChannelLaws C} `{Store : ReplicaStore S}.
Context (hash : bytes → Z) `{!ReplicaStoreLaws hash S}.
Context (rdtsc : Z → nat → Z) (cfg : Z → Config) (Hcfg : config_ok cfg) (V0 : MapType).
Implicit Types (c : Cluster C S) (h : History) (n : Z → Z → nat).

Abbreviation run := (rtc (cstep hash rdtsc cfg)).
Abbreviation reaches := (reach hash rdtsc cfg V0).

Definition shorter h (B : Z) : Prop := ∀ i, is_node i → Z.of_nat (length (h i)) < B.

Lemma shorter_no_overflow h B : B ≤ 2 ^ 60 → shorter h B → no_overflow h.
Proof. intros HB Hs i Hi. specialize (Hs i Hi). lia. Qed.

(** The invariant holds of some deliveries. *)
Definition live c h : Prop := ∃ n, cluster_inv hash cfg V0 c h n.

Lemma run_live x y : run x y → no_overflow y.2 → live x.1 x.2 → live y.1 y.2.
Proof.
  induction 1 as [|x y z [l [Hs Hl]] Hrun IH]; intros Hno; [done|]. intros [n Hn]. apply IH; [done|].
  assert (no_overflow y.2) as Hno1.
  { intros i Hi. specialize (Hno i Hi). pose proof (run_prefix hash rdtsc cfg y z i Hrun) as Hp%prefix_length. lia. }
  rewrite Hl in Hno1 |- *. by apply (step_inv hash rdtsc cfg Hcfg V0 x.1 x.2 n l).
Qed.

Lemma can_flush c h : live c h → no_overflow h → ∃ c', run (c, h) (c', h) ∧ live c' h ∧ quiet cfg c'.
Proof.
  intros [n Hc] Hno. destruct (flush hash rdtsc cfg V0 c h n Hc Hno) as (c'&n'&Hrun%(calm_steps_run _ _ _ _ _ h)&Hc'&Hq).
  exists c'. split; [done|]. split; [by exists n'|done].
Qed.

(** In a quiet state everything issued is executed. *)
Lemma quiet_caught_up c h n j q m : cluster_inv hash cfg V0 c h n → quiet cfg c → is_node j →
  issued h q = Some m → q ≤ execute_next_ (nodes c j) → q < execute_next_ (nodes c j).
Proof.
  intros Hc Hq Hj Hm Hle. pose proof (ci_blocked _ _ _ _ _ _ Hc j Hj) as Hb.
  rewrite (quiet_delivered hash cfg V0 c h n j) in Hb by done.
  assert (q ≠ execute_next_ (nodes c j)) by congruence. lia.
Qed.

(** What is executed stays so along a run that ends quiet. *)
Lemma executed_stays c h n c' h' n' j j' : cluster_inv hash cfg V0 c h n →
  cluster_inv hash cfg V0 c' h' n' → quiet cfg c' → (∀ i, h i `prefix_of` h' i) →
  is_node j → is_node j' → execute_next_ (nodes c j) ≤ execute_next_ (nodes c' j').
Proof.
  intros Hc Hc' Hq Hpre Hj Hj'.
  destruct (Z.le_gt_cases (execute_next_ (nodes c j)) (execute_next_ (nodes c' j'))) as [|Hgt]; [done|].
  pose proof (ri_exec _ _ _ _ (ci_replica _ _ _ _ _ _ Hc' j' Hj')).
  destruct (ri_prefix _ _ _ _ (ci_replica _ _ _ _ _ _ Hc j Hj) (execute_next_ (nodes c' j'))) as [m Hm]; [lia|].
  apply (delivered_issued hash cfg V0 c h n) in Hm; [|done..].
  apply (issued_mono h h') in Hm; [|done].
  pose proof (quiet_caught_up c' h' n' j' _ m Hc' Hq Hj' Hm ltac:(lia)). lia.
Qed.

Lemma catch_up_step c h B : live c h → quiet cfg c → shorter h B → B + 10922 ≤ 2 ^ 60 →
  ∃ c' h', run (c, h) (c', h') ∧ live c' h' ∧ quiet cfg c' ∧ shorter h' (B + 10922) ∧
    execute_next_ (nodes c 1) < execute_next_ (nodes c' 1).
Proof.
  intros [n Hc] Hq Hs HB. pose proof (shorter_no_overflow h B ltac:(lia) Hs) as Hno.
  assert (is_node 1) as H1 by by vm_compute.
  destruct (issue_next hash rdtsc cfg Hcfg V0 c h n 1 Hc Hno Hq H1) as (c1&h1&Hrun1&[m Hm]&Hlen).
  assert (shorter h1 (B + 10922)) as Hs1.
  { intros i Hi. specialize (Hlen i Hi). specialize (Hs i Hi). lia. }
  pose proof (shorter_no_overflow h1 _ HB Hs1) as Hno1.
  assert (live c1 h1) as Hr1 by (apply (run_live _ _ Hrun1); [done|by exists n]).
  destruct (can_flush c1 h1 Hr1 Hno1) as (c2&Hrun2&Hr2&Hq2).
  exists c2, h1. split; [by etransitivity|]. do 3 (split; [done|]). destruct Hr2 as [n2 Hc2].
  pose proof (executed_stays c h n c2 h1 n2 1 1 Hc Hc2 Hq2
    (λ i, run_prefix hash rdtsc cfg _ _ i Hrun1) H1 H1) as Hle.
  by apply (quiet_caught_up c2 h1 n2 1 _ m).
Qed.

Lemma catch_up k : ∀ c h B, live c h → quiet cfg c → shorter h B → B + 10922 * Z.of_nat k ≤ 2 ^ 60 →
  ∃ c' h', run (c, h) (c', h') ∧ live c' h' ∧ quiet cfg c' ∧ no_overflow h' ∧
    execute_next_ (nodes c 1) + Z.of_nat k ≤ execute_next_ (nodes c' 1).
Proof.
  induction k as [|k IH]; intros c h B Hr Hq Hs HB.
  - exists c, h. pose proof (shorter_no_overflow h B ltac:(lia) Hs). do 4 (split; [done|]). lia.
  - destruct (catch_up_step c h B Hr Hq Hs ltac:(lia)) as (c1&h1&Hrun&Hr1&Hq1&Hs1&Hlt).
    destruct (IH c1 h1 _ Hr1 Hq1 Hs1 ltac:(lia)) as (c'&h'&Hrun'&Hr'&Hq'&Hno'&Hle).
    exists c', h'. split; [by etransitivity|]. do 3 (split; [done|]). lia.
Qed.

Lemma live_catches_up c h : live c h → shorter h (2 ^ 59) →
  ∃ c' h', run (c, h) (c', h') ∧ no_overflow h' ∧
    ∀ q j, is_node j → is_Some (issued h q) → q < execute_next_ (nodes c' j).
Proof.
  intros Hr Hsmall. pose proof (shorter_no_overflow h (2 ^ 59) ltac:(lia) Hsmall) as Hno.
  assert (is_node 1) as H1 by by vm_compute.
  destruct (can_flush c h Hr Hno) as (c1&Hrun1&Hr1&Hq1).
  destruct (catch_up (Z.to_nat 65536) c1 h (2 ^ 59) Hr1 Hq1 Hsmall ltac:(lia)) as (c2&h2&Hrun2&Hr2&Hq2&Hno2&Hle).
  exists c2, h2. split; [by etransitivity|]. split; [done|]. intros q j Hj [m Hm]. destruct Hr1 as [n1 Hc1], Hr2 as [n2 Hc2].
  rewrite (quiet_exec hash cfg V0 c2 h2 n2 j 1 Hc2 Hq2 Hj H1).
  pose proof Hm as (o&k&Ho&->&Hk&_)%delivered_some.
  pose proof (issued_window hash cfg V0 c1 h n1 o 1 k Hc1 Ho H1 Hk). lia.
Qed.

(** The cluster is never stuck: from every state it reaches, with every
    thread, ring and log in whatever condition, it can go on so that every
    proposal issued so far is executed at every replica. *)
Theorem always_catches_up c h (Hr : reaches c h) (Hsmall : shorter h (2 ^ 59)) :
  ∃ c' h', run (c, h) (c', h') ∧
    ∀ q j, is_node j → is_Some (issued h q) → q < execute_next_ (nodes c' j).
Proof.
  destruct (live_catches_up c h) as (c'&h'&Hrun&_&Hall); [|done|by exists c', h'].
  apply (reach_inv hash rdtsc cfg Hcfg V0 c h Hr). by apply (shorter_no_overflow h (2 ^ 59)).
Qed.

End CatchUp.

(** ** A concrete run *)
Module Examples.
Import Agreement.Schedule Agreement.Examples KVStore.Examples.

#[local] Existing Instance rep.
#[local] Existing Instance rep_laws.

(** Node 2 waits for the others, node 3 has executed nothing. *)
Example always_catches_up_witness :
  execute_next_ (nodes half.1 3) = 1 ∧
  ∃ c' h', rtc (cstep length_hash clock cfg) (half.1, half.2) (c', h') ∧
    ∀ q j, is_node j → is_Some (issued half.2 q) → q < execute_next_ (nodes c' j).
Proof.
  split; [by vm_compute|].
  apply (always_catches_up length_hash clock cfg cfg_ok V0 half.1 half.2).
  - apply result_reach, halfway_runs.
  - intros i Hi. unfold is_node in Hi.
    assert (i = 1 ∨ i = 2 ∨ i = 3) as [-> |[-> | ->]] by lia; by vm_compute.
Defined.

End Examples.
