(* ===== verification/ConcProgress.v ===== *)
(** The cluster over its shared memory never gets stuck: whatever the threads
    and the memory system are in the middle of, the rings can be brought to
    rest ([settle_cluster]); from rest every step of [Cluster] is a run of the
    machine ([realize]); so what [Progress] shows of the one holds of the other
    ([concurrent_cluster_catches_up]).  As in [ClusterConc], payloads are kept
    coherent. *)
From stdpp Require Import functions relations.
From S2P Require Import Prelude Histogram KVStore Message Ring RingConc RingChannel Transport ConcChannel NodeState Bandle Execute Stats Replica Submit Cluster Agreement ClusterConc Flow Progress.

(** A consumer that reads has found something. *)
Lemma claims_something m : ring_reachable m → consumer m ≠ CIdle → (0 < claimed (consumer m))%nat.
Proof.
  induction 1 as [|m a m' _ IH Hs]; [done|]. intros Hne.
  assert (consumer m' = consumer m ∨ ring_step a m = consumer_step kBandleRingCapacity a m) as [Heq|Hc].
  { destruct a; cbn [machine_step] in Hs; try (by right); left; unfold producer_step, memory_step in Hs;
      repeat case_match; by simplify_eq. }
  - rewrite Heq in *. by apply IH.
  - rewrite Hc in Hs. unfold consumer_step in Hs. destruct (consumer m) as [|t count got fresh|t count got fresh] eqn:Hcons.
    + destruct a; try done. case_match eqn:Hb; [done|]. simplify_eq. cbn. apply orb_false_elim in Hb as [H1 H2].
      pose proof (w64_range (head (mem m) - own_tail m)) as [? _]. lia.
    + specialize (IH ltac:(done)). cbn in IH. destruct a; repeat case_match; by simplify_eq.
    + specialize (IH ltac:(done)). cbn in IH. destruct a; repeat case_match; by simplify_eq.
Qed.

Section Accesses.
Context {S : Type} `{Store : ReplicaStore S}.
Context (cfg : Z → Config).
Implicit Types (f : Shared S) (p : Z * Z).

Abbreviation accesses := (rtc (access true cfg)).

(** [f'] is [f] with the ring of [p] replaced by [m]. *)
Record at_ring p (m : Machine) f f' : Prop := {
  at_nodes : nodes f' = nodes f;
  at_threads : threads f' = threads f;
  at_inbox : inbox f' = inbox f;
  at_here : chans f' p = m;
  at_others p' : p' ≠ p → chans f' p' = chans f p'
}.

Lemma at_set_chan p m f : at_ring p m f (set_chan p m f).
Proof. split; try done; cbn; [by rewrite fn_lookup_insert|intros p' Hne; by rewrite fn_lookup_insert_ne]. Qed.

Lemma at_ring_trans p m m' f f1 f2 : at_ring p m f f1 → at_ring p m' f1 f2 → at_ring p m' f f2.
Proof.
  intros [? ? ? ? H1] [? ? ? ? H2]. split; try congruence. intros p' Hne. by rewrite H2, H1.
Qed.

(** A schedule of one ring is a run of the machine. *)
Lemma picks_run pick p f m' :
  (∀ f a m, pick (chans f p) = Some a → ring_step a (chans f p) = Some m → access true cfg f (set_chan p m f)) →
  rtc (picks pick) (chans f p) m' → ∃ f', accesses f f' ∧ at_ring p m' f f'.
Proof.
  intros Hpick Hrun. remember (chans f p) as m eqn:Hm. revert f Hm.
  induction Hrun as [m|m m1 m' (a&Ha&Hs) _ IH]; intros f ->; [by exists f|].
  destruct (IH (set_chan p m1 f)) as (f'&Hrun&Hat); [cbn; by rewrite fn_lookup_insert|].
  exists f'. split; [|by eapply at_ring_trans; [apply at_set_chan|]].
  etransitivity; [|exact Hrun]. apply rtc_once. by eapply Hpick.
Qed.

Lemma memory_pick_step p f a m : memory_action (chans f p) = Some a → ring_step a (chans f p) = Some m →
  access true cfg f (set_chan p m f).
Proof.
  intros Ha Hs. apply access_memory with a. unfold memory_action in Ha. by repeat case_match; simplify_eq.
Qed.

Lemma memory_run p f : ring_reachable (chans f p) →
  ∃ f', accesses f f' ∧ at_ring p (settled_by memory_action (chans f p)) f f'.
Proof.
  intros Hr. destruct (settle_memory (chans f p) Hr) as (Hrun&_). eapply picks_run; [|exact Hrun].
  intros f1 a m. apply memory_pick_step.
Qed.

Lemma write_run p f m' : rtc (picks write_action) (chans f p) m' →
  ∃ f', accesses f f' ∧ at_ring p m' f f'.
Proof.
  apply picks_run. clear. intros f a m Ha Hs. unfold write_action in Ha.
  destruct (memory_action (chans f p)) as [a'|] eqn:Hm; [injection Ha as ->; by eapply memory_pick_step|].
  destruct p as [i j]. apply access_write with a; [|done]. repeat case_match; simplify_eq; auto.
Qed.

Lemma read_run p f m' : rtc (picks read_action) (chans f p) m' →
  ∃ f', accesses f f' ∧ at_ring p m' f f'.
Proof.
  apply picks_run. clear. intros f a m Ha Hs. unfold read_action in Ha. destruct p as [i j].
  apply access_read with a; [|done]. repeat case_match; simplify_eq; eauto.
Qed.

(** *** Sending and receiving *)
Lemma finish_push_run f i noop msgs peer to chunks : is_node i → ring_reachable (chans f (i, peer)) →
  threads f i = TSend noop msgs (peer :: to) chunks → producer (chans f (i, peer)) ≠ PIdle →
  ∃ f', accesses f f' ∧ nodes f' = nodes f ∧ threads f' = <[i := TSend noop msgs to chunks]> (threads f) ∧
    inbox f' = inbox f ∧ chans f' (i, peer) = finish_push (chans f (i, peer)) ∧
    ∀ p, p ≠ (i, peer) → chans f' p = chans f p.
Proof.
  intros Hi Hr Ht Hbusy. destruct (finish_push_spec _ Hr Hbusy) as (m1&m2&Hrun1&_&Hs&Hrun2&_).
  destruct (write_run (i, peer) f m1 Hrun1) as (f1&Hf1&[Hn1 Ht1 Hi1 Hc1 Ho1]).
  set (f2 := {| nodes := nodes f1; threads := <[i := TSend noop msgs to chunks]> (threads f1);
    chans := <[(i, peer) := m2]> (chans f1); inbox := inbox f1 |} : Shared S).
  assert (access true cfg f1 f2) as Hs2.
  { apply access_publish; [done|by rewrite Ht1|by rewrite Hc1]. }
  assert (chans f2 (i, peer) = m2) as Hc2 by (cbn; by rewrite fn_lookup_insert).
  destruct (picks_run memory_action (i, peer) f2 (finish_push (chans f (i, peer)))) as (f3&Hf3&[Hn3 Ht3 Hi3 Hc3 Ho3]).
  { intros f' a m. apply memory_pick_step. }
  { by rewrite Hc2. }
  exists f3. split; [etransitivity; [exact Hf1|etransitivity; [by apply rtc_once|exact Hf3]]|].
  split; [by rewrite Hn3|]. split; [rewrite Ht3; cbn; by rewrite Ht1|]. split; [by rewrite Hi3|]. split; [done|].
  intros p Hne. rewrite Ho3 by done. cbn. by rewrite fn_lookup_insert_ne, Ho1.
Qed.

Lemma finish_drain_run f i j : is_node i → is_node j → i ≠ j → inbox f (i, j) = [] →
  ring_reachable (chans f (i, j)) → memory_action (chans f (i, j)) = None → consumer (chans f (i, j)) ≠ CIdle →
  ∃ f' got m', finish_drain (chans f (i, j)) = Some (got, m') ∧ accesses f f' ∧ nodes f' = nodes f ∧
    threads f' = threads f ∧ inbox f' = <[(i, j) := got]> (inbox f) ∧ chans f' (i, j) = m' ∧
    ∀ p, p ≠ (i, j) → chans f' p = chans f p.
Proof.
  intros Hi Hj Hij Hin Hr Hmem Hne. pose proof (claims_something _ Hr Hne) as Hpos.
  destruct (finish_drain_spec _ Hr Hmem Hpos) as (m1&m2&t&got&m'&Hrun1&_&Hcons&Hs&Hrun2&Hfin&_).
  destruct (read_run (i, j) f m1 Hrun1) as (f1&Hf1&[Hn1 Ht1 Hi1 Hc1 Ho1]).
  set (f2 := {| nodes := nodes f1; threads := threads f1;
    chans := <[(i, j) := m2]> (chans f1); inbox := <[(i, j) := got]> (inbox f1) |} : Shared S).
  assert (access true cfg f1 f2) as Hs2.
  { by apply (access_commit true cfg f1 i j t (length got) got m2); rewrite ?Hi1, ?Hc1. }
  assert (chans f2 (i, j) = m2) as Hc2 by (cbn; by rewrite fn_lookup_insert).
  destruct (picks_run memory_action (i, j) f2 m') as (f3&Hf3&[Hn3 Ht3 Hi3 Hc3 Ho3]).
  { intros f' a m. apply memory_pick_step. }
  { by rewrite Hc2. }
  exists f3, got, m'. split; [done|].
  split; [etransitivity; [exact Hf1|etransitivity; [by apply rtc_once|exact Hf3]]|].
  split; [by rewrite Hn3|]. split; [by rewrite Ht3|]. split; [rewrite Hi3; cbn; by rewrite Hi1|]. split; [done|].
  intros p Hp. rewrite Ho3 by done. cbn. by rewrite fn_lookup_insert_ne, Ho1.
Qed.

End Accesses.

(** ** Runs *)
Section Runs.
Context {S : Type} `{Store : ReplicaStore S}.
Context (coherent : bool).
Context (hash : bytes → Z) (rdtsc : Z → nat → Z) (cfg : Z → Config).

(** A move with the history it leaves. *)
Definition conc_cstep (x y : Shared S * History) : Prop :=
  ∃ l, conc_step coherent hash rdtsc cfg x.1 l y.1 ∧ y.2 = issue l x.2.

Abbreviation run := (rtc conc_cstep).

Lemma run_conc_reach V0 x y : run x y → conc_reach coherent hash rdtsc cfg V0 x.1 x.2 → conc_reach coherent hash rdtsc cfg V0 y.1 y.2.
Proof.
  induction 1 as [|x y z [l [Hs Hl]] _ IH]; [done|]. intros Hr. apply IH. rewrite Hl. by eapply conc_reach_step.
Qed.

Lemma access_run f f' h : rtc (access coherent cfg) f f' → run (f, h) (f', h).
Proof.
  induction 1 as [|f f1 f' Hs _ IH]; [done|]. eapply rtc_l; [|exact IH]. exists None. split; [by apply conc_access|done].
Qed.

End Runs.

(** ** The steps of the cluster *)
Section Realize.
Context {S : Type} `{Store : ReplicaStore S}.
Context (hash : bytes → Z) `{!ReplicaStoreLaws hash S}.
Context (rdtsc : Z → nat → Z) (cfg : Z → Config) (Hcfg : config_ok cfg) (V0 : MapType).
Implicit Types (f c : Shared S) (h : History) (p : Z * Z).

Abbreviation run := (rtc (conc_cstep true hash rdtsc cfg)).
Abbreviation accesses := (rtc (access true cfg)).
Abbreviation inv := (cluster_inv hash cfg V0).

(** The same state, ring by ring. *)
Record same f c : Prop := {
  same_nodes : nodes f = nodes c;
  same_threads : threads f = threads c;
  same_inbox : inbox f = inbox c;
  same_rings p : chans f p = chans c p
}.

Lemma ring_at_rest c h n i j : inv c h n → is_node i → is_node j → i ≠ j → at_rest (chans c (i, j)).
Proof. intros Hc Hi Hj Hij. destruct (ci_flow _ _ _ _ _ _ Hc i j Hi Hj) as [_ (q&Hq&_)]. by destruct (Hq Hij). Qed.

Lemma realize_send f c h n i noop msgs peer to chunks : same f c → inv c h n → is_node i →
  threads c i = TSend noop msgs (peer :: to) chunks → ch_ready (length msgs) (chans c (i, peer)) = true →
  ∃ f', accesses f f' ∧ same f' {|
    nodes := nodes c; threads := <[i := TSend noop msgs to chunks]> (threads c);
    chans := <[(i, peer) := ch_append msgs (chans c (i, peer))]> (chans c); inbox := inbox c |}.
Proof.
  intros [Hn Ht Hib Hch] Hc Hi Hth Hready.
  pose proof (nd_thread _ _ _ _ (ci_node _ _ _ _ _ _ Hc i Hi)) as Hok. rewrite Hth in Hok.
  destruct Hok as (Hne&Hlen&Hfit&_&Hto&_). destruct (Hto peer ltac:(left)) as [Hpeer Hpi].
  pose proof (ring_at_rest c h n i peer Hc Hi Hpeer (not_eq_sym Hpi)) as Hrest.
  assert (∃ m, ring_step (PStart msgs) (chans c (i, peer)) = Some m ∧ producer m ≠ PIdle) as (m&Hs&Hbusy).
  { eexists. split; [apply push_start|]; [apply Hrest|done|by eapply Forall_impl; [exact Hfit|intros ? []]| |exact Hready|done].
    unfold kBandleRingCapacity in Hlen. lia. }
  set (f1 := set_chan (i, peer) m f).
  destruct (finish_push_run cfg f1 i noop msgs peer to chunks Hi) as (f2&Hf2&Hn2&Ht2&Hi2&Hc2&Ho2).
  - cbn. rewrite fn_lookup_insert. eapply reachable_step; [apply Hrest|exact Hs].
  - cbn. by rewrite Ht.
  - cbn. by rewrite fn_lookup_insert.
  - exists f2. split.
    + etransitivity; [|exact Hf2]. apply rtc_once.
      apply (access_begin true cfg f i noop msgs (peer :: to) chunks peer m); [done|by rewrite Ht|left|by rewrite Hch].
    + split; cbn [nodes threads inbox chans]; [by rewrite Hn2|rewrite Ht2; cbn; by rewrite Ht|by rewrite Hi2|]. intros p.
      destruct (decide ((i, peer) = p)) as [<-|Hp].
      * rewrite Hc2. cbn. rewrite !fn_lookup_insert. unfold push_all. by rewrite Hs.
      * rewrite Ho2 by congruence. cbn. by rewrite !fn_lookup_insert_ne by done.
Qed.

Lemma realize_drain f c h n i j msgs ch' : same f c → inv c h n → is_node i → is_node j → i ≠ j →
  inbox c (i, j) = [] → ch_takes (batch_size_ (cfg j)) (chans c (i, j)) msgs ch' →
  ∃ f', accesses f f' ∧ same f' {|
    nodes := nodes c; threads := threads c;
    chans := <[(i, j) := ch']> (chans c); inbox := <[(i, j) := msgs]> (inbox c) |}.
Proof.
  intros [Hn Ht Hib Hch] Hc Hi Hj Hij Hin Htk. pose proof (ring_at_rest c h n i j Hc Hi Hj Hij) as Hrest.
  cbn in Htk. unfold take_all in Htk. apply bind_Some in Htk as (m&Hs&Hfin).
  pose proof Hs as Hs'. cbn [machine_step consumer_step] in Hs'. rewrite (ar_consumer _ Hrest) in Hs'.
  case_match; [done|]. injection Hs' as Hm. set (f1 := set_chan (i, j) m f).
  assert (chans f1 (i, j) = m) as Hc1 by (cbn; by rewrite fn_lookup_insert).
  destruct (finish_drain_run cfg f1 i j Hi Hj Hij) as (f2&got&m'&Hfin'&Hf2&Hn2&Ht2&Hi2&Hc2&Ho2).
  - cbn. by rewrite Hib.
  - rewrite Hc1. eapply reachable_step; [apply Hrest|exact Hs].
  - rewrite Hc1, <- Hm. apply Hrest.
  - rewrite Hc1, <- Hm. done.
  - rewrite Hc1, Hfin in Hfin'. injection Hfin' as <- <-. exists f2. split.
    + etransitivity; [|exact Hf2]. apply rtc_once. apply access_load; [done..|by rewrite Hib|by rewrite Hch].
    + split; cbn [nodes threads inbox chans]; [by rewrite Hn2|by rewrite Ht2|rewrite Hi2; cbn; by rewrite Hib|]. intros p.
      destruct (decide ((i, j) = p)) as [<-|Hp].
      * by rewrite Hc2, fn_lookup_insert.
      * rewrite Ho2 by congruence. cbn. by rewrite !fn_lookup_insert_ne by done.
Qed.

(** From rest a step of the cluster is a run of the machine. *)
Lemma realize f c h n l c' : same f c → inv c h n → step hash rdtsc cfg c l c' →
  ∃ f', (conc_step true hash rdtsc cfg f l f' ∨ l = None ∧ accesses f f') ∧ same f' c'.
Proof.
  intros Hsame Hc Hs. destruct (step_cases hash rdtsc cfg c l c' Hs) as
    [[Hch Hl]|[(i&noop&msgs&peer&to&chunks&Hi&Ht&Hready&->&->)|(i&j&msgs&ch'&Hi&Hj&Hij&Hin&Htk&->&->)]].
  - destruct Hsame as [Hn Ht Hib Hr]. set (f' := with_chans (chans f) c'). exists f'. split.
    + left. apply conc_local; [|done]. intros q. specialize (Hl q).
      unfold with_chans in *. cbn in *. by rewrite Hn, Ht, Hib.
    + split; try done. intros p. cbn. by rewrite Hch.
  - destruct (realize_send f c h n i noop msgs peer to chunks Hsame Hc Hi Ht Hready) as (f'&?&?). exists f'. by split; [right|].
  - destruct (realize_drain f c h n i j msgs ch' Hsame Hc Hi Hj Hij Hin Htk) as (f'&?&?). exists f'. by split; [right|].
Qed.

Lemma realize_run x y f n : rtc (cstep hash rdtsc cfg) x y → same f x.1 → inv x.1 x.2 n → no_overflow y.2 →
  ∃ f', run (f, x.2) (f', y.2) ∧ same f' y.1.
Proof.
  intros Hrun. revert f n. induction Hrun as [x|x x1 y [l [Hs Hl]] Hrun IH]; intros f n Hsame Hc Hno; [by exists f|].
  assert (no_overflow x1.2) as Hno1.
  { intros i Hi. specialize (Hno i Hi). pose proof (run_prefix hash rdtsc cfg x1 y i Hrun) as Hp%prefix_length. lia. }
  destruct (realize f x.1 x.2 n l x1.1 Hsame Hc Hs) as (f1&Hf1&Hsame1).
  assert (run (f, x.2) (f1, x1.2)) as Hrun1.
  { rewrite Hl. destruct Hf1 as [Hf1|[-> Hf1]]; [|by apply access_run]. apply rtc_once. by exists l. }
  rewrite Hl in Hno1. destruct (step_inv hash rdtsc cfg Hcfg V0 x.1 x.2 n l x1.1 Hc Hno1 Hs) as [n1 Hc1]. rewrite <- Hl in Hc1.
  destruct (IH f1 n1 Hsame1 Hc1 Hno) as (f'&Hf'&Hsame'). exists f'. split; [by etransitivity|done].
Qed.

(** ** Bringing the rings to rest *)

Lemma producer_consumer a m m' : producer_step kBandleRingCapacity a m = Some m' → consumer m' = consumer m.
Proof. unfold producer_step. intros Hs. destruct a; try done; repeat case_match; by simplify_eq. Qed.

(** Local steps fill no receive batch. *)
Lemma local_inbox f l f' p :
  (∀ q : Z * Z → list BandleMessage, step hash rdtsc cfg (with_chans q f) l (with_chans q f')) →
  inbox f p = [] → inbox f' p = [].
Proof.
  intros Hs Hin. specialize (Hs (λ _, [])). remember (with_chans (λ _, []) f' : Cluster (list BandleMessage) S) as c' eqn:Hc'.
  assert (inbox f' = inbox c') as -> by by rewrite Hc'.
  destruct Hs as [| | | | | | | | | |i j msgs ch' ???? Htk|i j ????]; cbn in *; try done.
  - destruct Htk as (Hne&Hw&_). rewrite take_nil in Hw. by destruct msgs.
  - destruct (decide ((i, j) = p)) as [<-|Hne]; [|by rewrite fn_lookup_insert_ne].
    by rewrite fn_lookup_insert, Hin, drop_nil.
Qed.

(** A receive batch is empty while its ring is being read. *)
Lemma reading_inbox f h p : conc_reach true hash rdtsc cfg V0 f h → consumer (chans f p) ≠ CIdle → inbox f p = [].
Proof.
  intros Hr. revert p. induction Hr as [f Hf|f h l f' _ IH Hs]; intros p Hne.
  { by rewrite (cs_rings _ _ _ Hf p) in Hne. }
  assert (∀ p0 m, (p0 = p → consumer m ≠ CIdle → inbox f p = []) → consumer (chans (set_chan p0 m f) p) ≠ CIdle →
    inbox f p = []) as Hset.
  { intros p0 m Hm Hne0. cbn in Hne0. destruct (decide (p0 = p)) as [->|Hp].
    - rewrite fn_lookup_insert in Hne0. by apply Hm.
    - rewrite fn_lookup_insert_ne in Hne0 by done. by apply IH. }
  destruct Hs as [l f' Hs Hch|f' [i noop msgs to chunks peer m Hi Ht Hin Hm|i peer a m Ha Hm
    |i noop msgs peer to chunks m Hi Ht Hm|p0 a m Hm|i j m Hi Hj Hij Hin Hm|i j a m Ha Hm|i j t count got m Hi Hj Hij Hin Hc Hm]].
  - apply (local_inbox f l f' p Hs). apply IH. by rewrite <- Hch.
  - apply (Hset (i, peer) m); [|done]. intros <-. rewrite (producer_consumer _ _ _ Hm). apply IH.
  - apply (Hset (i, peer) m); [|done]. intros <-. rewrite (producer_consumer a (chans f (i, peer)) m); [apply IH|].
    by destruct Ha as [-> | ->].
  - apply (Hset (i, peer) m); [|done]. intros <-. rewrite (producer_consumer _ _ _ Hm). apply IH.
  - apply (Hset p0 m); [|done]. intros <-. rewrite (se_consumer _ _ (memory_keeps _ _ _ Hm)). apply IH.
  - apply (Hset (i, j) m); [|done]. by intros <-.
  - apply (Hset (i, j) m); [|done]. intros <- _. apply IH. intros Hidle.
    destruct Ha as [[out ->]| ->]; cbn [machine_step consumer_step] in Hm; by rewrite Hidle in Hm.
  - cbn in Hne |- *. destruct (decide ((i, j) = p)) as [<-|Hp].
    + rewrite fn_lookup_insert in Hne. cbn [machine_step consumer_step] in Hm. rewrite Hc in Hm. by destruct got; simplify_eq.
    + rewrite fn_lookup_insert_ne in Hne by done. rewrite fn_lookup_insert_ne by done. by apply IH.
Qed.

(** Going through a list of rings, or of nodes. *)
Lemma sweep {A} (l : list A) (P : Shared S → Prop) (G : A → Shared S → Prop) :
  (∀ a f, a ∈ l → P f → ∃ f', accesses f f' ∧ P f' ∧ G a f' ∧ ∀ b, G b f → G b f') →
  ∀ f, P f → ∃ f', accesses f f' ∧ P f' ∧ (∀ a, a ∈ l → G a f') ∧ ∀ b, G b f → G b f'.
Proof.
  induction l as [|a l IH]; intros Hone f Hf.
  { exists f. split; [done|]. split; [done|]. split; [|done]. by intros a Ha%not_elem_of_nil. }
  destruct (Hone a f ltac:(left) Hf) as (f1&Hrun1&Hf1&Ha&Hkeep1).
  destruct (IH (λ b f Hb, Hone b f ltac:(by right)) f1 Hf1) as (f2&Hrun2&Hf2&Hall&Hkeep2).
  exists f2. split; [by etransitivity|]. split; [done|]. split; [|auto].
  intros b [->|Hb]%elem_of_cons; auto.
Qed.

Abbreviation reaches := (conc_reach true hash rdtsc cfg V0).

Lemma ring_reach f h p : reaches f h → ring_reachable (chans f p).
Proof. intros Hr. destruct (conc_reach_simulated hash rdtsc cfg V0 f h Hr) as (c&_&Hsim). apply Hsim. Qed.

Lemma run_reaches_conc f f' h : reaches f h → accesses f f' → reaches f' h.
Proof. intros Hr Hrun. exact (run_conc_reach true hash rdtsc cfg V0 (f, h) (f', h) (access_run true hash rdtsc cfg f f' h Hrun) Hr). Qed.

(** The ring's buffers are empty and its consumer idle. *)
Definition read_out (p : Z * Z) f : Prop :=
  p.1 ≠ p.2 → memory_action (chans f p) = None ∧ consumer (chans f p) = CIdle.

Lemma read_out_same f f' p b : read_out p f' → (∀ p', p' ≠ p → chans f' p' = chans f p') →
  read_out b f → read_out b f'.
Proof.
  intros Hp Hother Hb. destruct (decide (b = p)) as [->|Hne]; [done|]. unfold read_out. by rewrite Hother.
Qed.

Lemma read_out_ring p f h : p ∈ node_pairs → reaches f h →
  ∃ f', accesses f f' ∧ reaches f' h ∧ read_out p f' ∧ ∀ b, read_out b f → read_out b f'.
Proof.
  destruct p as [i j]. intros [Hi Hj]%elem_of_node_pairs Hr.
  destruct (decide (i = j)) as [->|Hij]; [exists f; by do 3 (split; [done|])|].
  destruct (settle_memory (chans f (i, j)) (ring_reach f h (i, j) Hr)) as (_&_&_&Hnone).
  destruct (memory_run cfg (i, j) f (ring_reach f h (i, j) Hr)) as (f1&Hrun1&[Hn1 Ht1 Hi1 Hc1 Ho1]).
  pose proof (run_reaches_conc f f1 h Hr Hrun1) as Hr1. rewrite <- Hc1 in Hnone.
  assert (consumer (chans f1 (i, j)) = CIdle ∨ consumer (chans f1 (i, j)) ≠ CIdle) as [Hidle|Hbusy]
    by (destruct (consumer _); auto).
  - exists f1. assert (read_out (i, j) f1) as Hout by done. do 3 (split; [done|]). intros b. by apply read_out_same with (i, j).
  - destruct (finish_drain_run cfg f1 i j Hi Hj Hij (reading_inbox f1 h (i, j) Hr1 Hbusy)
      (ring_reach f1 h (i, j) Hr1) Hnone Hbusy) as (f2&got&m'&Hfin&Hrun2&_&_&_&Hc2&Ho2).
    destruct (finish_drain_spec _ (ring_reach f1 h (i, j) Hr1) Hnone (claims_something _ (ring_reach f1 h (i, j) Hr1) Hbusy))
      as (_&_&_&got'&m2&_&_&_&_&_&Hfin'&_&Hnone'&_&Hidle'&_).
    rewrite Hfin in Hfin'. injection Hfin' as <- <-. exists f2.
    assert (read_out (i, j) f2) as Hout by (intros _; by rewrite Hc2).
    split; [by etransitivity|]. split; [by apply (run_reaches_conc f1)|]. split; [done|].
    intros b. apply read_out_same with (i, j); [done|]. intros p' Hp'. by rewrite Ho2, Ho1.
Qed.

(** All readers have finished. *)
Definition all_read_out f : Prop := ∀ p, p ∈ node_pairs → read_out p f.

(** The next send of a thread, wherever it is in it. *)
Lemma finish_send f h i noop msgs peer to chunks : reaches f h → no_overflow h → all_read_out f → is_node i →
  threads f i = TSend noop msgs (peer :: to) chunks →
  ∃ f', accesses f f' ∧ all_read_out f' ∧ threads f' = <[i := TSend noop msgs to chunks]> (threads f) ∧
    ∀ p, p ≠ (i, peer) → chans f' p = chans f p.
Proof.
  intros Hr Hno Hall Hi Ht. destruct (conc_reach_simulated hash rdtsc cfg V0 f h Hr) as (c&Hc&Hsim).
  destruct (reach_inv hash rdtsc cfg Hcfg V0 c h Hc Hno) as [n Hinv].
  pose proof (nd_thread _ _ _ _ (ci_node _ _ _ _ _ _ Hinv i Hi)) as Hok. rewrite (si_threads _ _ Hsim), Ht in Hok.
  destruct Hok as (Hne&Hlen&Hfit&_&Hto&_). destruct (Hto peer ltac:(left)) as [Hpeer Hpi].
  destruct (Hall (i, peer)) as [Hmem Hcons]; [by apply elem_of_node_pairs|by apply not_eq_sym|].
  set (m := chans f (i, peer)) in *. pose proof (ring_reach f h (i, peer) Hr) as Hring. fold m in Hring.
  assert (∃ f1, accesses f f1 ∧ threads f1 = threads f ∧ producer (chans f1 (i, peer)) ≠ PIdle ∧
    consumer (chans f1 (i, peer)) = CIdle ∧ ∀ p, p ≠ (i, peer) → chans f1 p = chans f p) as (f1&Hrun1&Ht1&Hbusy&Hc1&Ho1).
  { destruct (producer m) as [| | |] eqn:Hp; [|exists f; do 2 (split; [done|]); (split; [by fold m; rewrite Hp|done])..].
    assert (at_rest m) as Hrest by done.
    destruct (channel_load hash cfg V0 c h n i peer Hinv Hi Hpeer (not_eq_sym Hpi)) as (q&[Hq _]&Hl).
    rewrite (si_threads _ _ Hsim), Ht in Hl. cbn [outgoing] in Hl. rewrite decide_True in Hl by (by right; left).
    rewrite <- Hq, (si_chans _ _ Hsim) in Hl. fold m in Hl. unfold kMaxUnderWay in Hl.
    pose proof (room_at_rest m (length msgs) Hrest ltac:(unfold kBandleRingCapacity; lia)) as Hroom.
    pose proof (push_start m msgs Hp Hne ltac:(by eapply Forall_impl; [exact Hfit|intros ? []])
      ltac:(unfold kBandleRingCapacity in Hlen; lia) Hroom) as Hs.
    exists (set_chan (i, peer) (m <| producer := PWrite (own_head m) [] msgs false |>) f).
    split; [by eapply rtc_once, access_begin; [..|left|]|]. cbn. rewrite !fn_lookup_insert.
    do 3 (split; [done|]). intros p Hp'. by rewrite fn_lookup_insert_ne. }
  pose proof (run_reaches_conc f f1 h Hr Hrun1) as Hr1. pose proof (ring_reach f1 h (i, peer) Hr1) as Hring1.
  destruct (finish_push_run cfg f1 i noop msgs peer to chunks Hi Hring1) as (f2&Hrun2&_&Ht2&_&Hc2&Ho2);
    [by rewrite Ht1|done|].
  destruct (finish_push_spec _ Hring1 Hbusy) as (_&_&_&_&_&_&_&Hmem2&_&Hcons2&_).
  exists f2. split; [by etransitivity|]. split; [|split; [by rewrite Ht2, Ht1|intros p Hp'; by rewrite Ho2, Ho1]].
  intros p Hp Hpp. destruct (decide (p = (i, peer))) as [->|Hp'].
  - rewrite Hc2, Hmem2, Hcons2. done.
  - rewrite Ho2, Ho1 by done. by apply Hall.
Qed.

(** Node [i] has no ring open. *)
Definition sent_out (i : Z) f : Prop := ∀ j, producer (chans f (i, j)) = PIdle.

Lemma finish_sends f h i noop msgs to chunks : reaches f h → no_overflow h → all_read_out f → is_node i →
  threads f i = TSend noop msgs to chunks →
  ∃ f', accesses f f' ∧ all_read_out f' ∧ threads f' i = TSend noop msgs [] chunks ∧
    ∀ p, p.1 ≠ i → chans f' p = chans f p.
Proof.
  revert f. induction to as [|peer to IH]; intros f Hr Hno Hall Hi Ht; [by exists f|].
  destruct (finish_send f h i noop msgs peer to chunks Hr Hno Hall Hi Ht) as (f1&Hrun1&Hall1&Ht1&Ho1).
  destruct (IH f1 (run_reaches_conc f f1 h Hr Hrun1) Hno Hall1 Hi) as (f2&Hrun2&Hall2&Ht2&Ho2);
    [by rewrite Ht1, fn_lookup_insert|].
  exists f2. split; [by etransitivity|]. split; [done|]. split; [done|]. intros p Hp. rewrite Ho2 by done.
  apply Ho1. by intros ->.
Qed.

Lemma send_out f h i : reaches f h → no_overflow h → all_read_out f → is_node i →
  ∃ f', accesses f f' ∧ all_read_out f' ∧ sent_out i f' ∧ ∀ p, p.1 ≠ i → chans f' p = chans f p.
Proof.
  intros Hr Hno Hall Hi.
  assert (∀ f', reaches f' h → (∀ noop msgs to chunks, threads f' i = TSend noop msgs to chunks → to = []) →
    sent_out i f') as Hout.
  { intros f' Hr' Hto j. destruct (conc_reach_simulated hash rdtsc cfg V0 f' h Hr') as (c&_&Hsim).
    destruct (producer (chans f' (i, j))) eqn:Hp; [done|exfalso..];
      (destruct (si_busy _ _ Hsim (i, j)) as (noop&to&chunks'&Ht&Hin); [by rewrite Hp|]);
      rewrite (Hto _ _ _ _ Ht) in Hin; by apply not_elem_of_nil in Hin. }
  destruct (threads f i) as [| |noop msgs to chunks| |] eqn:Ht;
    try (exists f; do 2 (split; [done|]); split; [apply Hout; [done|by rewrite Ht]|done]).
  destruct (finish_sends f h i noop msgs to chunks Hr Hno Hall Hi Ht) as (f'&Hrun&Hall'&Ht'&Ho).
  exists f'. do 2 (split; [done|]). split; [|done]. apply Hout; [by apply (run_reaches_conc f)|].
  rewrite Ht'. by intros noop' msgs' to' chunks' [= _ _ <- _].
Qed.

(** Whatever is going on, every ring can be brought to rest. *)
Lemma settle_cluster f h : reaches f h → no_overflow h →
  ∃ f', accesses f f' ∧ reaches f' h ∧ ∀ i j, is_node i → is_node j → i ≠ j → at_rest (chans f' (i, j)).
Proof.
  intros Hr Hno.
  destruct (sweep node_pairs (λ f, reaches f h) read_out) with (f := f) as (f1&Hrun1&Hr1&Hall1&_); [|done|].
  { intros p f0 Hp Hr0. by apply read_out_ring. }
  destruct (sweep node_ids (λ f, reaches f h ∧ all_read_out f) sent_out) with (f := f1)
    as (f2&Hrun2&[Hr2 Hall2]&Hsent&_); [|done|].
  { intros i f0 Hn%elem_of_node_ids [Hr0 Hall0].
    destruct (send_out f0 h i Hr0 Hno Hall0 Hn) as (f'&Hrun'&Hall'&Hs&Ho). exists f'. split; [done|].
    split; [split; [by apply (run_reaches_conc f0)|done]|]. split; [done|]. intros k Hk.
    destruct (decide (k = i)) as [->|Hne]; [done|]. intros j. by rewrite Ho. }
  exists f2. split; [by etransitivity|]. split; [done|]. intros i j Hi Hj Hij.
  destruct (Hall2 (i, j)) as [Hm Hc]; [by apply elem_of_node_pairs|done|]. split; [by apply (ring_reach f2 h)|done| |done].
  by apply Hsent, elem_of_node_ids.
Qed.

(** At rest, the invariant of the cluster over queues is the one over the
    rings. *)
Lemma rest_inv f (c : Cluster (list BandleMessage) S) h n : simulates f c → cluster_inv hash cfg V0 c h n →
  (∀ i j, is_node i → is_node j → i ≠ j → at_rest (chans f (i, j))) → inv f h n.
Proof.
  intros [Hn Ht Hib Hch _ _] Hc Hrest. split; rewrite <- ?Hn; try apply Hc.
  - intros i Hi. destruct (ci_node _ _ _ _ _ _ Hc i Hi). split; rewrite <- ?Hn, <- ?Ht; done.
  - intros i j Hi Hj. destruct (ci_flow _ _ _ _ _ _ Hc i j Hi Hj) as [Hcount (q&Hq1&Hq2&Hd)].
    split; [done|]. exists q. rewrite <- Hib, <- Ht. split; [|done]. intros Hij.
    destruct (Hq1 Hij) as [<- _]. split; [by apply Hrest|apply Hch].
Qed.

(** C6: the cluster over its shared memory, with payloads kept coherent, is
    never stuck: from every state the machine reaches, with threads in the middle
    of writing or reading a slot, stores waiting in buffers and lines in caches,
    it can go on so that every proposal issued so far is executed at every
    replica. *)
Theorem concurrent_cluster_catches_up coherent f h (Hcoherent : coherent = true)
    (Hr : conc_reach coherent hash rdtsc cfg V0 f h) (Hsmall : shorter h (2 ^ 59)) :
  ∃ f' h', rtc (conc_cstep coherent hash rdtsc cfg) (f, h) (f', h') ∧
    ∀ q j, is_node j → is_Some (issued h q) → q < execute_next_ (nodes f' j).
Proof.
  subst coherent.
  pose proof (shorter_no_overflow h (2 ^ 59) ltac:(lia) Hsmall) as Hno.
  destruct (settle_cluster f h Hr Hno) as (f1&Hrun1&Hr1&Hrest).
  destruct (conc_reach_simulated hash rdtsc cfg V0 f1 h Hr1) as (c&Hc&Hsim).
  destruct (reach_inv hash rdtsc cfg Hcfg V0 c h Hc Hno) as [n Hn].
  pose proof (rest_inv f1 c h n Hsim Hn Hrest) as Hinv.
  destruct (live_catches_up hash rdtsc cfg Hcfg V0 f1 h ltac:(by exists n) Hsmall) as (c'&h'&Hrun&Hno'&Hall).
  destruct (realize_run (f1, h) (c', h') f1 n Hrun ltac:(done) Hinv Hno') as (f'&Hrun'&Hsame).
  exists f', h'. split; [etransitivity; [by apply access_run|done]|]. by rewrite (same_nodes _ _ Hsame).
Qed.

End Realize.

(** ** A concrete state *)
Module Examples.
Import Agreement.Examples KVStore.Examples ClusterConc.Examples.

#[local] Existing Instance rep.
#[local] Existing Instance rep_laws.

(** Node 1 is in the middle of a broadcast; nothing has been executed. *)
Example concurrent_cluster_catches_up_witness :
  let s := outcome true broadcasting in
  is_Some (issued s.2 7) ∧ execute_next_ (nodes s.1 2) = 1 ∧
  ∃ f' h', rtc (conc_cstep true length_hash clock cfg) (s.1, s.2) (f', h') ∧
    ∀ q j, is_node j → is_Some (issued s.2 q) → q < execute_next_ (nodes f' j).
Proof.
  split; [eexists; vm_compute; reflexivity|]. split; [by vm_compute|].
  apply (concurrent_cluster_catches_up length_hash clock cfg cfg_ok V0 true); [done|..].
  - apply conc_outcome_reach, broadcasting_ends.
  - intros i Hi. unfold is_node in Hi.
    assert (i = 1 ∨ i = 2 ∨ i = 3) as [-> |[-> | ->]] by lia; by vm_compute.
Defined.

End Examples.
