(* ===== verification/Stop.v ===== *)
(** Shutting down ([stop] of [src/bandle.cpp]): [running_] is cleared, and every
    thread of the node leaves its loop when it next looks at the flag.  A
    broadcast that is under way then drops its messages for the peers it has
    not served ([send_to_peer], [broadcast_batch]), the proposer begins no
    round, and a receive thread finishes the batches it has.  Here nodes stop
    at any time and in any order: [stopping_is_safe] shows that whatever is
    dropped no replica executes anything but a prefix of the one log, and
    [stop_returns] that the threads [stop] waits for come to an end. *)
From stdpp Require Import functions relations.
From S2P Require Import Prelude Histogram KVStore Message Ring RingConc RingChannel Transport ConcChannel NodeState Bandle Execute Replica Submit Cluster Agreement ClusterConc Flow Progress.

(** The cluster with the [running_] flag of each node. *)
Record Running (S : Type) := {
  threads_of : Cluster (list BandleMessage) S;
  running_ : Z → bool
}.
Arguments threads_of {S} _.
Arguments running_ {S} _.

Section Steps.
Context {S : Type} `{Store : ReplicaStore S}.
Context (hash : bytes → Z) (rdtsc : Z → nat → Z) (cfg : Z → Config).

Abbreviation cluster := (Cluster (list BandleMessage) S).
Implicit Types (c : cluster) (x : Running S).

(** What a node whose flag is cleared does not do: begin a round of the
    proposer, or send. *)
Definition obeys (i : Z) c c' : Prop :=
  (threads c i = TIdle → threads c' i = TIdle) ∧
  (∀ noop msgs peer to chunks, threads c i = TSend noop msgs (peer :: to) chunks → threads c' i = threads c i).

(** A peer is not served. *)
Definition pass_over (i : Z) (t : Thread) c : cluster := {|
  nodes := nodes c; threads := <[i := t]> (threads c); chans := chans c; inbox := inbox c |}.

Inductive halt_step (x : Running S) : Issue → Running S → Prop :=
| halt_go l c' :
    step hash rdtsc cfg (threads_of x) l c' →
    (∀ i, running_ x i = false → obeys i (threads_of x) c') →
    halt_step x l {| threads_of := c'; running_ := running_ x |}
(* while (running_ && !push(msg)), while (running_) {...}: the loop is left *)
| halt_skip i noop msgs peer to chunks :
    is_node i → running_ x i = false → threads (threads_of x) i = TSend noop msgs (peer :: to) chunks →
    halt_step x None {|
      threads_of := pass_over i (TSend noop msgs to chunks) (threads_of x);
      running_ := running_ x |}
(* running_.exchange(false) *)
| halt_stop i :
    halt_step x None {| threads_of := threads_of x; running_ := <[i := false]> (running_ x) |}.

Inductive halt_reach (V0 : MapType) : Running S → History → Prop :=
| halt_reach_init c run : initial cfg V0 c → halt_reach V0 {| threads_of := c; running_ := run |} (fun _ => [])
| halt_reach_step x h l y : halt_reach V0 x h → halt_step x l y → halt_reach V0 y (issue l h).

End Steps.

(** ** Safety *)
Section Safety.
Context {S : Type} `{Store : ReplicaStore S}.
Context (hash : bytes → Z) `{!ReplicaStoreLaws hash S}.
Context (rdtsc : Z → nat → Z) (cfg : Z → Config) (Hcfg : config_ok cfg) (V0 : MapType).

Abbreviation cluster := (Cluster (list BandleMessage) S).
Implicit Types (c d : cluster) (x y : Running S) (h : History).

Abbreviation cluster_step := (step hash rdtsc cfg).
Abbreviation reaches := (reach hash rdtsc cfg V0).

(** The cluster that drops nothing: what a stopped node has dropped is still in
    its channels, behind everything that was sent. *)
Record shadows x d : Prop := {
  sh_nodes : nodes d = nodes (threads_of x);
  sh_threads : threads d = threads (threads_of x);
  sh_inbox : inbox d = inbox (threads_of x);
  sh_chans p : chans (threads_of x) p `prefix_of` chans d p;
  sh_exact p : running_ x p.1 = true → chans d p = chans (threads_of x) p
}.

Lemma with_chans_of c d : nodes d = nodes c → threads d = threads c → inbox d = inbox c →
  with_chans (chans d) c = d.
Proof. intros Hn Ht Hi. destruct d. cbn in *. by subst. Qed.

(** The next message of a thread has room in its channel. *)
Lemma send_ready d h i noop msgs peer to chunks : reaches d h → no_overflow h → is_node i →
  threads d i = TSend noop msgs (peer :: to) chunks → ch_ready (length msgs) (chans d (i, peer)) = true.
Proof.
  intros Hr Hno Hi Ht. destruct (reach_inv hash rdtsc cfg Hcfg V0 d h Hr Hno) as [n Hn].
  pose proof (nd_thread _ _ _ _ (ci_node _ _ _ _ _ _ Hn i Hi)) as Hth. rewrite Ht in Hth.
  destruct Hth as (_&_&_&_&Hto&_). destruct (Hto peer ltac:(left)) as [Hp Hpi].
  destruct (channel_load hash cfg V0 d h n i peer Hn Hi Hp (not_eq_sym Hpi)) as (q&Hq&Hl).
  apply ch_ready_law with q; [done|]. rewrite Ht in Hl. cbn [outgoing] in Hl.
  rewrite decide_True in Hl by (right; left). unfold kMaxUnderWay, kBandleRingCapacity in *. lia.
Qed.

Lemma go_shadowed x d l c' : shadows x d → cluster_step (threads_of x) l c' →
  (∀ i, running_ x i = false → obeys i (threads_of x) c') →
  ∃ d', cluster_step d l d' ∧ shadows {| threads_of := c'; running_ := running_ x |} d'.
Proof.
  intros [Hn Ht Hib Hpre Hex] Hs Hobey.
  destruct (step_cases hash rdtsc cfg _ l c' Hs) as
    [[Hch Hl]|[(i&noop&msgs&peer&to&chunks&Hi&Hth&Hready&->&->)|(i&j&msgs&ch'&Hi&Hj&Hij&Hin&(Hne&Hw&->)&->&->)]].
  - exists (with_chans (chans d) c'). split; [rewrite <- (with_chans_of (threads_of x) d) at 1 by done; apply Hl|].
    split; cbn; try done; intros p; rewrite Hch; [apply Hpre|apply Hex].
  - assert (running_ x i = true) as Hrun.
    { destruct (running_ x i) eqn:Hr; [done|exfalso]. destruct (Hobey i Hr) as [_ Hk]. specialize (Hk _ _ _ _ _ Hth).
      cbn in Hk. rewrite fn_lookup_insert, Hth in Hk. injection Hk as Hk. apply (f_equal length) in Hk. cbn in Hk. lia. }
    pose proof (Hex (i, peer) Hrun) as Hc. eexists. split.
    { apply (step_send hash rdtsc cfg d i noop msgs peer to chunks Hi); [by rewrite Ht|by rewrite Hc]. }
    split; cbn; [done|by rewrite Ht|done|..]; intros p;
      (destruct (decide ((i, peer) = p)) as [<-|Hp]; [rewrite !fn_lookup_insert, Hc; done|]);
      rewrite !fn_lookup_insert_ne by done; [apply Hpre|apply Hex].
  - destruct (Hpre (i, j)) as [more Hmore].
    assert (length msgs ≤ length (chans (threads_of x) (i, j)))%nat as Hle.
    { apply (f_equal length) in Hw. rewrite !length_fmap, length_take in Hw. lia. }
    eexists. split.
    { apply (step_drain hash rdtsc cfg d i j msgs (drop (length msgs) (chans d (i, j)))); [done..|by rewrite Hib|].
      cbn. split; [done|]. split; [|done]. by rewrite Hmore, take_app_le. }
    split; cbn; [done|done|by rewrite Hib|..]; intros p;
      (destruct (decide ((i, j) = p)) as [<-|Hp]; [rewrite !fn_lookup_insert|rewrite !fn_lookup_insert_ne by done; try apply Hpre; try apply Hex]).
    + rewrite Hmore, drop_app_le by done. by apply prefix_app_r.
    + intros Hrun. by rewrite Hex.
Qed.

Lemma skip_shadowed x d h i noop msgs peer to chunks : shadows x d → reaches d h → no_overflow h → is_node i →
  running_ x i = false → threads (threads_of x) i = TSend noop msgs (peer :: to) chunks →
  ∃ d', cluster_step d None d' ∧ shadows {|
    threads_of := pass_over i (TSend noop msgs to chunks) (threads_of x);
    running_ := running_ x |} d'.
Proof.
  intros [Hn Ht Hib Hpre Hex] Hr Hno Hi Hrun Hth. eexists. split.
  { apply (step_send hash rdtsc cfg d i noop msgs peer to chunks Hi); [by rewrite Ht|].
    eapply send_ready; [done..|by rewrite Ht]. }
  split; cbn.
  - done.
  - by rewrite Ht.
  - done.
  - intros p. destruct (decide ((i, peer) = p)) as [<-|Hp]; [rewrite fn_lookup_insert|rewrite fn_lookup_insert_ne by done; apply Hpre].
    etransitivity; [apply Hpre|by apply prefix_app_r].
  - intros p Hp. rewrite fn_lookup_insert_ne; [by apply Hex|]. intros <-. cbn in Hp. congruence.
Qed.

Lemma stop_shadowed x d i : shadows x d →
  shadows {| threads_of := threads_of x; running_ := <[i := false]> (running_ x) |} d.
Proof.
  intros [Hn Ht Hib Hpre Hex]. split; try done. intros p. cbn. destruct (decide (i = p.1)) as [->|Hne].
  - by rewrite fn_lookup_insert.
  - rewrite fn_lookup_insert_ne by done. apply Hex.
Qed.

Lemma halt_reach_shadowed x h : halt_reach hash rdtsc cfg V0 x h → no_overflow h → ∃ d, reaches d h ∧ shadows x d.
Proof.
  induction 1 as [c run Hc|x h l y _ IH Hs]; intros Hno.
  - exists c. split; [by apply reach_init|done].
  - pose proof (no_overflow_issue l h Hno) as Hnoh. destruct (IH Hnoh) as (d&Hr&Hsh).
    destruct Hs as [l c' Hs Hobey|i noop msgs peer to chunks Hi Hrun Ht|i].
    + destruct (go_shadowed x d l c' Hsh Hs Hobey) as (d'&Hd&Hsh'). exists d'. split; [by eapply reach_step|done].
    + destruct (skip_shadowed x d h i noop msgs peer to chunks Hsh Hr Hnoh Hi Hrun Ht) as (d'&Hd&Hsh').
      exists d'. split; [by apply (reach_step _ _ _ _ d h None d')|done].
    + exists d. split; [done|by apply stop_shadowed].
Qed.

(** C14: nodes may stop at any time, in the middle of a broadcast or with
    messages undelivered: the store of every replica is the initial contents
    with the issued proposals below its [execute_next_] applied in the order of
    their numbers, none of them missing, and replicas that have executed
    equally far hold the same contents. *)
Theorem stopping_is_safe x h i j (Hr : halt_reach hash rdtsc cfg V0 x h) (Hno : no_overflow h)
    (Hi : is_node i) (Hj : is_node j) :
  let s k := nodes (threads_of x) k in
  store_view (kv_ (s j)) = foldl spec_apply V0 (delivered_ops hash (issued h) (execute_next_ (s j))) ∧
  (∀ q, 1 ≤ q < execute_next_ (s j) → is_Some (issued h q)) ∧
  (execute_next_ (s i) = execute_next_ (s j) → store_view (kv_ (s i)) = store_view (kv_ (s j))).
Proof.
  intros s. unfold s. destruct (halt_reach_shadowed x h Hr Hno) as (d&Hd&Hsh). rewrite <- (sh_nodes _ _ Hsh).
  destruct (reach_inv hash rdtsc cfg Hcfg V0 d h Hd Hno) as [n Hn].
  pose proof (inv_view hash cfg V0 d h n j Hn Hj) as Hv. split; [done|]. split.
  - intros q Hq. destruct (ri_prefix _ _ _ _ (ci_replica _ _ _ _ _ _ Hn j Hj) q Hq) as [m Hm].
    exists m. by apply (delivered_issued hash cfg V0 d h n j).
  - intros He. by rewrite Hv, (inv_view hash cfg V0 d h n i), He.
Qed.

(** ** The threads come to an end *)

(** Every node has stopped, after its own submissions. *)
Record closing x : Prop := {
  cl_stopped i : is_node i → running_ x i = false;
  cl_thread i : is_node i → match threads (threads_of x) i with TAdmit _ | TSend false _ _ _ => False | _ => True end
}.

(** [stop] has joined the threads of every node. *)
Definition finished x : Prop :=
  (∀ i, is_node i → threads (threads_of x) i = TIdle) ∧ ∀ i j, is_node i → is_node j → i ≠ j → inbox (threads_of x) (i, j) = [].

(** Moves left: of the proposer, and for every message not yet handled. *)
Definition thread_left (t : Thread) : Z :=
  match t with
  | TNoop => 5
  | TNoopRead _ => 4
  | TSend _ _ to _ => 1 + Z.of_nat (length to)
  | _ => 0
  end.
Definition ring_left c (p : Z * Z) : Z := 2 * Z.of_nat (length (chans c p)) + Z.of_nat (length (inbox c p)).
Definition left_to_do c : Z :=
  zsum ((λ i, thread_left (threads c i)) <$> node_ids) + zsum (ring_left c <$> node_pairs).

(** No thread has moved. *)
Definition still c c' : Prop :=
  (∀ i, threads c' i = threads c i) ∧ (∀ p, inbox c' p = inbox c p) ∧ ∀ p, chans c' p = chans c p.

Lemma thread_less c c' i : is_node i → thread_left (threads c' i) < thread_left (threads c i) →
  (∀ k, k ≠ i → threads c' k = threads c k) → (∀ p, ring_left c' p = ring_left c p) → left_to_do c' < left_to_do c.
Proof.
  intros Hi Hlt Hother Hring. unfold left_to_do. apply Z.add_lt_le_mono.
  - apply (zsum_lt _ _ node_ids i); [|by apply elem_of_node_ids|done]. intros k _.
    destruct (decide (k = i)) as [->|Hne]; [lia|by rewrite Hother].
  - apply zsum_le. intros p _. by rewrite Hring.
Qed.

Lemma ring_less c c' i j : is_node i → is_node j → ring_left c' (i, j) < ring_left c (i, j) →
  (∀ p, p ≠ (i, j) → ring_left c' p = ring_left c p) → (∀ k, threads c' k = threads c k) → left_to_do c' < left_to_do c.
Proof.
  intros Hi Hj Hlt Hother Hth. unfold left_to_do. apply Z.add_le_lt_mono.
  - apply zsum_le. intros k _. by rewrite Hth.
  - apply (zsum_lt _ _ node_pairs (i, j)); [|by apply elem_of_node_pairs|done]. intros p _.
    destruct (decide (p = (i, j))) as [->|Hne]; [lia|by rewrite Hother].
Qed.

Abbreviation halts := (halt_step hash rdtsc cfg).

Lemma insert_thread c i t k : k ≠ i → <[i := t]> (threads c) k = threads c k.
Proof. intros Hne. by rewrite fn_lookup_insert_ne. Qed.

(** A step of the thread of node [i] alone. *)
Lemma less_at c i t s' ch ib : is_node i → thread_left t < thread_left (threads c i) → ch = chans c → ib = inbox c →
  left_to_do {| nodes := s'; threads := <[i := t]> (threads c); chans := ch; inbox := ib |} < left_to_do c.
Proof.
  intros Hi Hlt -> ->. apply thread_less with i; cbn; [done|by rewrite fn_lookup_insert| |done].
  intros k Hk. by apply insert_thread.
Qed.

Lemma peers_left i : is_node i → length (peers i (cluster_size_ (cfg i))) = 2%nat.
Proof.
  intros Hi. rewrite (cfg_three _ Hcfg i Hi). unfold is_node in Hi.
  assert (i = 1 ∨ i = 2 ∨ i = 3) as [-> |[-> | ->]] by lia; by vm_compute.
Qed.

(** What a step does when every node has stopped. *)
Lemma closing_step x l c' : closing x → cluster_step (threads_of x) l c' →
  (∀ i, running_ x i = false → obeys i (threads_of x) c') →
  closing {| threads_of := c'; running_ := running_ x |} ∧
  (left_to_do c' < left_to_do (threads_of x) ∨ still (threads_of x) c').
Proof.
  intros [Hstop Hcl] Hs Hobey. set (c := threads_of x) in *.
  assert (∀ i t, is_node i → match t with TAdmit _ | TSend false _ _ _ => False | _ => True end →
    ∀ s' ch ib, closing {| threads_of := {| nodes := s'; threads := <[i := t]> (threads c); chans := ch; inbox := ib |};
      running_ := running_ x |}) as Hset.
  { intros i t Hi Ht s' ch ib. split; [done|]. intros k Hk. cbn. destruct (decide (k = i)) as [->|Hne].
    - by rewrite fn_lookup_insert.
    - rewrite insert_thread by done. by apply Hcl. }
  assert (∀ i t, is_node i → threads c i = TIdle → t ≠ TIdle → ∀ s' ch ib,
    c' = {| nodes := s'; threads := <[i := t]> (threads c); chans := ch; inbox := ib |} → False) as Hbegin.
  { intros i t Hi Ht Hne s' ch ib ->. destruct (Hobey i (Hstop i Hi)) as [Hk _]. specialize (Hk Ht). cbn in Hk.
    by rewrite fn_lookup_insert in Hk. }
  destruct Hs as [i reqs bufs ps s' Hi Ht|i chunk chunks s' msgs Hi Ht|i Hi Ht|i noop msgs peer to chunks Hi Ht
    |i msgs chunks Hi Ht|i msg Hi Ht|i Hi Ht|i fin now Hi Ht|i Hi Ht|i msg now Hi Ht|i j msgs ch' Hi Hj Hij Hin (Hne&Hw&->)|i j Hi Hj Hij Hin];
    try (specialize (Hcl i Hi) as Hi'; rewrite Ht in Hi'; done).
  - exfalso. eapply Hbegin; [exact Hi|exact Ht| |reflexivity]. done.
  - exfalso. destruct (Hobey i (Hstop i Hi)) as [_ Hk]. specialize (Hk _ _ _ _ _ Ht). cbn in Hk.
    rewrite fn_lookup_insert, Ht in Hk. injection Hk as Hk. apply (f_equal length) in Hk. cbn in Hk. lia.
  - split; [by apply Hset|left]. apply less_at; [done|by rewrite Ht|done..].
  - split; [by apply Hset|right]. split; [|done]. intros k. cbn. destruct (decide (k = i)) as [->|Hk].
    + by rewrite fn_lookup_insert.
    + by apply insert_thread.
  - exfalso. eapply Hbegin; [exact Hi|exact Ht| |reflexivity]. done.
  - split; [by apply Hset|left]. apply less_at; [done|by rewrite Ht|done..].
  - split; [by apply Hset|left]. apply less_at; [done| |done..]. rewrite Ht. cbn [thread_left]. rewrite peers_left by done. lia.
  - split; [by split|left]. apply ring_less with i j; [done|done| | |].
    + unfold ring_left. cbn. rewrite !fn_lookup_insert, Hin, length_drop. apply (f_equal length) in Hw.
      rewrite !length_fmap, length_take in Hw. assert (0 < length msgs)%nat by (destruct msgs; [done|cbn; lia]). cbn. lia.
    + intros p Hp. unfold ring_left. cbn. by rewrite !fn_lookup_insert_ne by done.
    + done.
  - split; [by split|left]. apply ring_less with i j; [done|done| | |].
    + unfold ring_left. cbn. rewrite fn_lookup_insert, length_drop. unfold kHandleChunk.
      assert (0 < length (inbox c (i, j)))%nat by (destruct (inbox c (i, j)); [done|cbn; lia]). lia.
    + intros p Hp. unfold ring_left. cbn. by rewrite fn_lookup_insert_ne by done.
    + done.
Qed.

(** A thread that has not ended can move. *)
Lemma thread_moves x h i : closing x → halt_reach hash rdtsc cfg V0 x h → no_overflow h → is_node i →
  threads (threads_of x) i = TIdle ∨ ∃ l y, halts x l y ∧ left_to_do (threads_of y) < left_to_do (threads_of x).
Proof.
  intros [Hstop Hcl] Hr Hno Hi. destruct (halt_reach_shadowed x h Hr Hno) as (d&Hd&Hsh).
  destruct (reach_inv hash rdtsc cfg Hcfg V0 d h Hd Hno) as [n Hn].
  pose proof (nd_thread _ _ _ _ (ci_node _ _ _ _ _ _ Hn i Hi)) as Hth. rewrite (sh_threads _ _ Hsh) in Hth.
  set (c := threads_of x) in *.
  assert (∀ l t s' ch ib, cluster_step c l {| nodes := s'; threads := <[i := t]> (threads c); chans := ch; inbox := ib |} →
    threads c i ≠ TIdle → (∀ noop msgs peer to chunks, threads c i ≠ TSend noop msgs (peer :: to) chunks) →
    halts x l {| threads_of := {| nodes := s'; threads := <[i := t]> (threads c); chans := ch; inbox := ib |};
      running_ := running_ x |}) as Hgo.
  { intros l t s' ch ib Hs Hidle Hsend. apply halt_go; [done|]. intros k _. fold c. unfold obeys. cbn.
    destruct (decide (k = i)) as [->|Hk]; [|by rewrite insert_thread].
    split; [done|]. intros noop msgs peer to chunks Ht. by destruct (Hsend noop msgs peer to chunks). }
  specialize (Hcl i Hi). fold c in Hcl. destruct (threads c i) as [|chunks|noop msgs to chunks| |msg] eqn:Ht; [by left|done|right..].
  - destruct noop; [|done]. destruct Hth as (_&_&_&_&_&_&Hone). destruct (Hone eq_refl) as [Hl ->]. destruct to as [|peer to].
    + destruct msgs as [|msg [|]]; [done| |done]. eexists None, _. split.
      * apply Hgo; [by apply step_self_noop|done..].
      * apply less_at; [done|by rewrite Ht|done..].
    + eexists None, _. split; [by eapply (halt_skip hash rdtsc cfg x i); [|apply Hstop|]|].
      apply less_at; [done|fold c; rewrite Ht; cbn [thread_left length]; lia|done..].
  - eexists None, _. split; [apply Hgo; [by apply step_noop_read|done..]|]. apply less_at; [done|by rewrite Ht|done..].
  - eexists _, _. split; [apply Hgo; [by apply (step_noop_reserve hash rdtsc cfg c i msg 0)|done..]|].
    apply less_at; [done| |done..]. rewrite Ht. cbn [thread_left]. rewrite peers_left by done. lia.
Qed.

(** A batch that was received can be handled. *)
Lemma inbox_moves x i j : closing x → is_node i → is_node j → i ≠ j → length (inbox (threads_of x) (i, j)) ≠ O →
  ∃ l y, halts x l y ∧ left_to_do (threads_of y) < left_to_do (threads_of x).
Proof.
  intros Hx Hi Hj Hij Hne. set (c := threads_of x) in *.
  assert (inbox c (i, j) ≠ []) as Hne' by (intros Hn; by rewrite Hn in Hne).
  eexists None, _. split; [apply halt_go; [by apply (step_handle hash rdtsc cfg c i j)|]|].
  { intros k _. by split. }
  apply ring_less with i j; [done|done| | |done].
  - unfold ring_left. cbn. rewrite fn_lookup_insert, length_drop. unfold kHandleChunk. lia.
  - intros p Hp. unfold ring_left. cbn. by rewrite fn_lookup_insert_ne by done.
Qed.

(** C15: once every node has called [stop], the threads it joins come to an end
    whatever order they run in: no move begins anything new, each leaves
    strictly less to do or moves no thread at all, and until every thread has
    left its loop and handled the batches it holds, one can move. *)
Theorem stop_returns x h (Hr : halt_reach hash rdtsc cfg V0 x h) (Hno : no_overflow h) (Hx : closing x) :
  (∀ l y, halts x l y → closing y ∧
     (left_to_do (threads_of y) < left_to_do (threads_of x) ∨ still (threads_of x) (threads_of y))) ∧
  (finished x ∨ ∃ l y, halts x l y ∧ left_to_do (threads_of y) < left_to_do (threads_of x)) ∧
  0 ≤ left_to_do (threads_of x).
Proof.
  split; [|split].
  - intros l y Hs. destruct Hs as [l c' Hs Hobey|i noop msgs peer to chunks Hi Hrun Ht|i].
    + by apply closing_step with l.
    + destruct Hx as [Hstop Hcl]. split; [|left; apply less_at; [done|rewrite Ht; cbn [thread_left length]; lia|done..]].
      split; [done|]. intros k Hk. cbn. destruct (decide (k = i)) as [->|Hne].
      * rewrite fn_lookup_insert. specialize (Hcl i Hi). rewrite Ht in Hcl. by destruct noop.
      * rewrite insert_thread by done. by apply Hcl.
    + destruct Hx as [Hstop Hcl]. split; [|by right]. split; [|done]. intros k Hk. cbn.
      destruct (decide (k = i)) as [->|Hne]; [by rewrite fn_lookup_insert|]. rewrite fn_lookup_insert_ne by done. by apply Hstop.
  - destruct (pair_search (λ i j, i ≠ j ∧ length (inbox (threads_of x) (i, j)) ≠ O)) as [(i&j&Hi&Hj&Hij&Hne)|Hnone].
    + right. exact (inbox_moves x i j Hx Hi Hj Hij Hne).

    + assert (∀ i j, is_node i → is_node j → i ≠ j → inbox (threads_of x) (i, j) = []) as Hin.
      { intros i j Hi Hj Hij. destruct (inbox (threads_of x) (i, j)) eqn:Hb; [done|exfalso].
        apply (Hnone i j Hi Hj). split; [done|by rewrite Hb]. }
      destruct (thread_moves x h 1 Hx Hr Hno ltac:(done)) as [H1|?]; [|by right].
      destruct (thread_moves x h 2 Hx Hr Hno ltac:(done)) as [H2|?]; [|by right].
      destruct (thread_moves x h 3 Hx Hr Hno ltac:(done)) as [H3|?]; [|by right].
      left. split; [|done]. intros i Hi. unfold is_node in Hi.
      assert (i = 1 ∨ i = 2 ∨ i = 3) as [-> |[-> | ->]] by lia; done.
  - apply Z.add_nonneg_nonneg; apply zsum_nonneg; intros; unfold ring_left; [destruct (threads _ _)|]; cbn; lia.
Qed.

End Safety.

(** ** Concrete runs *)
Module Examples.
Import Agreement.Schedule Agreement.Examples KVStore.Examples.

#[local] Existing Instance rep.
#[local] Existing Instance rep_laws.

Definition c0q : Cluster (list BandleMessage) KVStore := {|
  nodes i := new_node (cfg i) empty_store; threads _ := TIdle; chans _ := []; inbox _ := [] |}.

Lemma c0q_initial : initial cfg V0 c0q.
Proof.
  split; try done. intros i Hi. exists empty_store, 0. split; [done|]. split; [|done]. apply empty_store_wf.
Qed.

Definition all_running : Z → bool := fun _ => true.

Definition after (acts : list Action) : Cluster (list BandleMessage) KVStore * History :=
  default (c0q, fun _ => []) (run length_hash clock cfg acts c0q (fun _ => [])).

(** While every flag is set the cluster runs as before. *)
Lemma run_halt_reach acts c h c' h' : halt_reach length_hash clock cfg V0 {| threads_of := c; running_ := all_running |} h →
  run length_hash clock cfg acts c h = Some (c', h') →
  halt_reach length_hash clock cfg V0 {| threads_of := c'; running_ := all_running |} h'.
Proof.
  revert c h. induction acts as [|a acts IH]; intros c h Hr Hrun; cbn in Hrun; [by injection Hrun as <- <-|].
  destruct (act length_hash clock cfg a c) as [[l c1]|] eqn:Ha; [|done]. eapply IH; [|exact Hrun].
  eapply halt_reach_step; [exact Hr|]. apply (halt_go length_hash clock cfg {| threads_of := c; running_ := all_running |} l c1).
  - by eapply act_step.
  - by intros i Hi.
Qed.

Lemma after_reach acts : (if run length_hash clock cfg acts c0q (fun _ => []) is Some _ then true else false) = true →
  halt_reach length_hash clock cfg V0 {| threads_of := (after acts).1; running_ := all_running |} (after acts).2.
Proof.
  unfold after. destruct (run _ _ _ _ _ _) as [[c h]|] eqn:Hr; [|done]. intros _. eapply run_halt_reach; [|exact Hr].
  apply halt_reach_init, c0q_initial.
Qed.

(** Node 1 has sent its batch to node 2, which has handled it, and stops; node
    3 never gets it. *)
Definition sent_once : list Action := submit1 ++ [Admit 1; Send 1; Drain 1 2; Handle 1 2].

Definition served (t : Thread) : Thread :=
  match t with TSend noop msgs _ chunks => TSend noop msgs [] chunks | _ => t end.

Definition stopped_sender : Running KVStore := {|
  threads_of := pass_over 1 (served (threads (after sent_once).1 1)) (after sent_once).1;
  running_ := <[1 := false]> all_running |}.

(** Node 1 stops with one peer left. *)
Lemma stop_and_skip c h : halt_reach length_hash clock cfg V0 {| threads_of := c; running_ := all_running |} h →
  match threads c 1 with TSend _ _ [_] _ => true | _ => false end = true →
  halt_reach length_hash clock cfg V0
    {| threads_of := pass_over 1 (served (threads c 1)) c; running_ := <[1 := false]> all_running |} h.
Proof.
  intros Hr Ht. set (x := {| threads_of := c; running_ := <[1 := false]> all_running |}).
  assert (halt_reach length_hash clock cfg V0 x h) as Hx.
  { exact (halt_reach_step _ _ _ _ _ _ None _ Hr (halt_stop _ _ _ _ 1)). }
  destruct (threads c 1) as [| |noop msgs [|peer [|]] chunks| |] eqn:Hth; try done.
  refine (halt_reach_step _ _ _ _ _ _ None _ Hx (halt_skip _ _ _ x 1 noop msgs peer [] chunks _ _ _));
    [done|cbn; by rewrite fn_lookup_insert|exact Hth].
Qed.

Lemma stopped_sender_reach : halt_reach length_hash clock cfg V0 stopped_sender (after sent_once).2.
Proof. apply stop_and_skip; [apply after_reach|]; by vm_compute. Qed.

Example stopping_is_safe_witness :
  let s k := nodes (threads_of stopped_sender) k in
  execute_next_ (s 2) = 2 ∧ execute_next_ (s 3) = 1 ∧ chans (threads_of stopped_sender) (1, 3) = [] ∧
  store_view (kv_ (s 2)) = foldl spec_apply V0 (delivered_ops length_hash (issued (after sent_once).2) (execute_next_ (s 2))) ∧
  (∀ q, 1 ≤ q < execute_next_ (s 2) → is_Some (issued (after sent_once).2 q)) ∧
  (execute_next_ (s 3) = execute_next_ (s 2) → store_view (kv_ (s 3)) = store_view (kv_ (s 2))).
Proof.
  split; [by vm_compute|]. split; [by vm_compute|]. split; [by vm_compute|].
  apply (stopping_is_safe length_hash clock cfg cfg_ok V0 stopped_sender (after sent_once).2 3 2);
    [apply stopped_sender_reach| |by vm_compute|by vm_compute].
  apply no_overflow_check. by vm_compute.
Defined.

(** Every node stops while node 3 is about to propose a no-op and node 2 holds
    the batch of node 1. *)
Definition winding_acts : list Action :=
  submit1 ++ [Admit 1; Send 1; Send 1; SelfDeliver 1; Return 1; Drain 1 2; InputDone 3] ++ noop3 5000.

Definition winding : Running KVStore := {|
  threads_of := (after winding_acts).1;
  running_ := <[3 := false]> (<[2 := false]> (<[1 := false]> all_running)) |}.

Lemma stop_all c h : halt_reach length_hash clock cfg V0 {| threads_of := c; running_ := all_running |} h →
  halt_reach length_hash clock cfg V0
    {| threads_of := c; running_ := <[3 := false]> (<[2 := false]> (<[1 := false]> all_running)) |} h.
Proof.
  intros Hr. assert (∀ run i, halt_reach length_hash clock cfg V0 {| threads_of := c; running_ := run |} h →
    halt_reach length_hash clock cfg V0 {| threads_of := c; running_ := <[i := false]> run |} h) as Hstop; [|auto].
  intros run i Hx. exact (halt_reach_step _ _ _ _ _ _ None _ Hx (halt_stop _ _ _ _ i)).
Qed.

Lemma winding_reach : halt_reach length_hash clock cfg V0 winding (after winding_acts).2.
Proof. apply stop_all, after_reach. by vm_compute. Qed.

Lemma winding_closing : closing winding.
Proof.
  assert (∀ P : Z → Prop, P 1 → P 2 → P 3 → ∀ i, is_node i → P i) as Hall.
  { intros P H1 H2 H3 i Hi. unfold is_node in Hi. assert (i = 1 ∨ i = 2 ∨ i = 3) as [-> |[-> | ->]] by lia; done. }
  split; apply Hall; by vm_compute.
Qed.

Example stop_returns_witness :
  ¬ finished winding ∧
  (∀ l y, halt_step length_hash clock cfg winding l y → closing y ∧
     (left_to_do (threads_of y) < left_to_do (threads_of winding) ∨ still (threads_of winding) (threads_of y))) ∧
  (finished winding ∨ ∃ l y, halt_step length_hash clock cfg winding l y ∧
     left_to_do (threads_of y) < left_to_do (threads_of winding)) ∧
  0 ≤ left_to_do (threads_of winding).
Proof.
  split.
  - intros [Ht _]. specialize (Ht 3 ltac:(done)). by vm_compute in Ht.
  - apply (stop_returns length_hash clock cfg cfg_ok V0 winding (after winding_acts).2);
      [apply winding_reach| |apply winding_closing].
    apply no_overflow_check. by vm_compute.
Defined.

End Examples.
