(* ===== verification/Loops.v ===== *)
(** The functions of [src/bandle.cpp] that take the lock, send and receive, put
    together from their locked regions as the source does: [submit_borrowed],
    [submit_borrowed_batch], [propose_noop], one round of [proposer_loop],
    [recv_loop] and [recv_source_loop].  Each is a function of the shared rings
    and the replica, for a thread that runs it without interruption, and the
    theorems show that what it does is a sequence of the steps of
    [Cluster.v]. *)
From stdpp Require Import functions relations.
From S2P Require Import Prelude Histogram KVStore Message Ring Transport NodeState Bandle Execute Handlers Replica Submit Cluster Agreement Flow Completion Progress.

Section Functions.
Context {S : Type} `{Store : ReplicaStore S}.
Context (hash : bytes → Z) (rdtsc : nat → Z) (cfg : Config).

(** What a thread of the node works on: the rings of [shared_] and
    [non_hwcc_], and the members. *)
Definition World : Type := Rings * Node S.

Abbreviation id := (node_id_ cfg).
Abbreviation size := (cluster_size_ cfg).

(** ** Submission *)

(** [broadcast_batch], called once: with [running_] cleared it does nothing, a
    ring without room keeps it spinning ([None]), and it returns whether or not
    the messages could be written. *)
Definition send_batch (running : bool) (msgs : list BandleMessage) (rs : Rings) : option Rings :=
  if running then
    match broadcast_batch rs id size msgs with
    | NotReady => None
    | WriteFailed rs' | Published rs' => Some rs'
    end
  else Some rs.

(** One chunk of [submit_borrowed_batch]: [None] while the admission loop
    spins. *)
Definition submit_chunk (running : bool) (w : World) (chunk : list BandleMessage) : option World :=
  let '(rs, s) := w in
  '(s, msgs) ← admit_chunk rdtsc cfg chunk s;
  rs ← send_batch running msgs rs;
  let s := self_deliver hash rdtsc cfg msgs s in
  rs ← drain_outbox (fun _ => running) rs id size [];
  Some (rs, s).

Fixpoint submit_all (running : bool) (chunks : list (list BandleMessage)) (w : World) : option World :=
  match chunks with
  | [] => Some w
  | chunk :: chunks => w ← submit_chunk running w chunk; submit_all running chunks w
  end.

(** [submit_borrowed_batch]; [reqs] is [None] for a null pointer, [bufs] what
    the thread-local scratch messages hold. *)
Definition submit_borrowed_batch (running : bool) (reqs : option (list BorrowedRequest))
    (bufs : list BandleMessage) (w : World) : option World :=
  match reqs with
  | None | Some [] => Some w
  | Some reqs =>
      let '(rs, s) := w in
      let '(proposals, s) := prepare_proposals cfg reqs bufs s in
      match proposals with
      | [] => Some (rs, s)
      | _ => submit_all running (submit_chunks cfg proposals) (rs, s)
      end
  end.

(** [submit_borrowed]. *)
Definition submit_borrowed (running : bool) (req : BorrowedRequest) (bufs : list BandleMessage) (w : World)
    : option World :=
  submit_borrowed_batch running (Some [req]) bufs w.

(** ** No-ops *)

(** [propose_noop]; [now] is the clock in the locked region. *)
Definition propose_noop (running : Z → bool) (now : Z) (w : World) : option World :=
  let '(rs, s) := w in
  let proposal := noop_proposal cfg s in
  let s := reserve_noop cfg now s in
  rs ← broadcast running rs id size proposal;
  let s := self_deliver_noop hash rdtsc cfg proposal s in
  rs ← drain_outbox running rs id size [];
  Some (rs, s).

(** One round of [proposer_loop]; [finished] is [all_nodes_finished()] and
    [now] the clock when [should_propose_noop_locked] is called. *)
Definition proposer_round (running : Z → bool) (finished : bool) (now now' : Z) (w : World) : option World :=
  if should_propose_noop_locked cfg finished now w.2 then propose_noop running now' w else Some w.

(** ** Reception *)

(** The receive buffer after [msgs] were read into its front. *)
Definition refill (batch msgs : list BandleMessage) : list BandleMessage :=
  msgs ++ drop (length msgs) batch.

(** [while (drain_source_ring(src, batch, count)) handle_messages_batch(...)],
    at most [fuel] times: whether anything was received, the buffer and the
    world. *)
Fixpoint drain_source (fuel : nat) (src : Z) (batch : list BandleMessage) (w : World)
    : bool * list BandleMessage * World :=
  match fuel with
  | O => (false, batch, w)
  | Datatypes.S fuel' =>
      match drain_source_ring 64 (ring w.1 src id) batch (batch_size_ cfg) with
      | None => (false, batch, w)
      | Some (msgs, r) =>
          let w := (<[(src, id) := r]> w.1, handle_messages_batch hash rdtsc cfg msgs w.2) in
          let '(_, batch, w) := drain_source fuel' src (refill batch msgs) w in
          (true, batch, w)
      end
  end.

(** The body of [recv_loop] over the sources: [progressed]. *)
Fixpoint recv_sources (fuel : nat) (srcs : list Z) (batch : list BandleMessage) (w : World)
    : bool * list BandleMessage * World :=
  match srcs with
  | [] => (false, batch, w)
  | src :: srcs =>
      let '(p1, batch, w) := drain_source fuel src batch w in
      let '(p2, batch, w) := recv_sources fuel srcs batch w in
      (p1 || p2, batch, w)
  end.

Definition recv_round (fuel : nat) (batch : list BandleMessage) (w : World)
    : bool * list BandleMessage * World :=
  recv_sources fuel (peers id size) batch w.

(** The body of [recv_source_loop]: one batch, if there is one. *)
Definition recv_source_round (src : Z) (batch : list BandleMessage) (w : World)
    : bool * list BandleMessage * World :=
  drain_source 1 src batch w.

(** [recv_loop] and [recv_source_loop], leaving after [rounds] rounds, when
    [running_] is found cleared. *)
Fixpoint recv_loop (rounds fuel : nat) (batch : list BandleMessage) (w : World) : World :=
  match rounds with
  | O => w
  | Datatypes.S rounds => let '(_, batch, w) := recv_round fuel batch w in recv_loop rounds fuel batch w
  end.

Fixpoint recv_source_loop (rounds : nat) (src : Z) (batch : list BandleMessage) (w : World) : World :=
  match rounds with
  | O => w
  | Datatypes.S rounds =>
      let '(_, batch, w) := recv_source_round src batch w in recv_source_loop rounds src batch w
  end.

End Functions.

(** ** Sending, ring by ring *)
Section Sending.
Implicit Types (msgs : list BandleMessage) (m : BandleMessage) (r : SpscRing) (rs : Rings).

Lemma write_batch_fits msgs h wrote r : Forall msg_fits msgs →
  ∃ wrote' r', write_batch_at kBandleRingCapacity h msgs wrote r = (true, wrote', r').
Proof.
  intros Hfit. revert h wrote r. induction Hfit as [|m msgs [_ Hm] _ IH]; intros h wrote r; cbn [write_batch_at].
  - by eexists _, _.
  - rewrite Z.gtb_ltb, (proj2 (Z.ltb_ge _ _)) by done. apply IH.
Qed.

Lemma append_write msgs r h wrote r' : can_push_batch kBandleRingCapacity (Z.of_nat (length msgs)) r = Some h →
  write_batch_at kBandleRingCapacity h msgs false r = (true, wrote, r') →
  ch_append msgs r = publish_head (h +₆₄ Z.of_nat (length msgs)) r'.
Proof. intros Hh Hw. cbn [ch_append ring_channel]. by rewrite Hh, Hw. Qed.

Lemma ready_heads msgs r h : can_push_batch kBandleRingCapacity (Z.of_nat (length msgs)) r = Some h →
  ch_ready (length msgs) r = true.
Proof. intros Hh. cbn. apply bool_decide_eq_true. rewrite Hh. by eexists. Qed.

(** [push] appends a single message. *)
Lemma push_appends m r q : bandle_queue r q → ch_ready 1 r = true → msg_fits m →
  push kBandleRingCapacity m r = (true, ch_append [m] r).
Proof.
  intros Hq Hr [Hd Hm]. destruct (queue_avail r q Hq) as [Ha Hl].
  cbn in Hr. apply bool_decide_eq_true in Hr as [h Hh].
  destruct (write_batch_fits [m] h false r) as (wrote&r'&Hw); [by apply Forall_singleton|].
  rewrite (append_write [m] r h wrote r') by done.
  unfold can_push_batch in Hh. destruct (_ >? _) eqn:Hc; [done|]. injection Hh as <-.
  cbn [write_batch_at] in Hw. rewrite Z.gtb_ltb, (proj2 (Z.ltb_ge _ _)) in Hw by done. injection Hw as ? <-.
  unfold push. rewrite Ha in *. unfold kBandleRingCapacity in *.
  rewrite w64_small, Z.gtb_ltb in Hc by (unfold is_u64; lia). apply Z.ltb_ge in Hc.
  rewrite Z.geb_leb, (proj2 (Z.leb_gt _ _)) by lia. by rewrite Z.gtb_ltb, (proj2 (Z.ltb_ge _ _)).
Qed.

(** [rs'] is [rs] with [msgs] appended to the rings from [i] to [ps]. *)
Definition appended (rs : Rings) (i : Z) (msgs : list BandleMessage) (ps : list Z) (rs' : Rings) : Prop :=
  (∀ p, p ∈ ps → ring rs' i p = ch_append msgs (ring rs i p)) ∧
  ∀ f t, f ≠ i ∨ t ∉ ps → ring rs' f t = ring rs f t.

Lemma broadcast_appends rs i msg ps : NoDup ps → i ∉ ps → msg_fits msg →
  (∀ p, p ∈ ps → (∃ q, bandle_queue (ring rs i p) q) ∧ ch_ready 1 (ring rs i p) = true) →
  ∃ rs', broadcast_to (fun _ => true) rs i msg ps = Some rs' ∧ appended rs i [msg] ps rs'.
Proof.
  intros Hnd Hi Hfit Hps. revert rs Hps. induction Hnd as [|p ps Hp Hnd IH]; intros rs Hps.
  { exists rs. split; [done|]. split; [by intros p Hin%not_elem_of_nil|done]. }
  apply not_elem_of_cons in Hi as [Hip Hi]. destruct (Hps p ltac:(left)) as [[q Hq] Hready].
  cbn [broadcast_to]. unfold send_to_peer. rewrite (proj2 (Z.eqb_neq p i)) by done.
  rewrite (push_appends msg _ q Hq Hready Hfit).
  assert (∀ p', p' ∈ ps → p' ≠ p) as Hne by (intros p' Hin ->; done).
  destruct (IH Hi (<[(i, p) := ch_append [msg] (ring rs i p)]> rs)) as (rs'&Hb&Hin&Hout).
  { intros p' Hp'. rewrite ring_insert_ne by (intros [= ->]; by apply (Hne p)). apply Hps. by right. }
  exists rs'. split; [done|]. split.
  - intros p' [->|Hp']%elem_of_cons.
    + by rewrite Hout, ring_insert_eq by (by right).
    + rewrite Hin, ring_insert_ne by (done || intros [= ->]; by apply (Hne p)). done.
  - intros f t Hft. rewrite Hout.
    + apply ring_insert_ne. intros [= -> ->]. destruct Hft as [|Hft]; [done|]. apply Hft. left.
    + destruct Hft as [|Hft]; [by left|right]. intros Hin'. apply Hft. by right.
Qed.

Lemma write_rings_appends rs i msgs hs : NoDup hs.*1 → Forall msg_fits msgs →
  ∃ rs1, write_rings rs i msgs hs = (true, rs1) ∧
    (∀ p h, (p, h) ∈ hs → ∃ wrote,
       write_batch_at kBandleRingCapacity h msgs false (ring rs i p) = (true, wrote, ring rs1 i p)) ∧
    ∀ f t, f ≠ i ∨ t ∉ hs.*1 → ring rs1 f t = ring rs f t.
Proof.
  intros Hnd Hfit. revert rs. induction hs as [|[p h] hs IH]; intros rs.
  { exists rs. split; [done|]. split; [by intros p h Hin%not_elem_of_nil|done]. }
  cbn in Hnd. apply NoDup_cons in Hnd as [Hp Hnd].
  destruct (write_batch_fits msgs h false (ring rs i p) Hfit) as (wrote&r'&Hw). cbn [write_rings]. rewrite Hw.
  destruct (IH Hnd (<[(i, p) := r']> rs)) as (rs1&->&Hin&Hout). exists rs1. split; [done|]. split.
  - intros p' h' [[= -> ->]|Hin']%elem_of_cons.
    + exists wrote. by rewrite Hout, ring_insert_eq by (by right).
    + destruct (Hin p' h' Hin') as [wrote' Hw']. exists wrote'. rewrite ring_insert_ne in Hw'; [done|].
      intros [= ->]. apply Hp. by apply (list_elem_of_fmap_2 fst _ (p, h')).
  - intros f t Hft. rewrite Hout.
    + apply ring_insert_ne. intros [= -> ->]. destruct Hft as [|Hft]; [done|]. apply Hft. left.
    + destruct Hft as [|Hft]; [by left|right]. intros Hin'. apply Hft. by right.
Qed.

(** [broadcast_batch] appends to the ring of every peer. *)
Lemma batch_appends rs i size msgs : msgs ≠ [] → Forall msg_fits msgs →
  (∀ p, p ∈ peers i size → ch_ready (length msgs) (ring rs i p) = true) →
  ∃ rs', broadcast_batch rs i size msgs = Published rs' ∧ appended rs i msgs (peers i size) rs'.
Proof.
  intros Hne Hfit Hb. unfold broadcast_batch in *. destruct msgs as [|m0 ms]; [done|]. set (msgs := m0 :: ms) in *.
  cbv zeta in *. pose proof (NoDup_peers i size) as Hnd. set (ps := peers i size) in *.
  destruct (collect_heads rs i (Z.of_nat (length msgs)) ps) as [hs|] eqn:Hc.
  2:{ apply collect_heads_none in Hc as (p&Hp&Hnone). specialize (Hb p Hp). cbn [ch_ready ring_channel] in Hb.
      apply bool_decide_eq_true in Hb. rewrite Hnone in Hb. by destruct Hb. }
  apply collect_heads_some in Hc as [Hps Hh]. rewrite <- Hps in *.
  destruct (write_rings_appends rs i msgs hs Hnd Hfit) as (rs1&->&Hin&Hout).
  destruct (publish_rings_spec i (Z.of_nat (length msgs)) hs rs1 Hnd) as [Hsame Hpub].
  eexists. split; [done|]. split.
  - intros p ([p' h]&->&Hp)%list_elem_of_fmap. cbn [fst]. destruct (Hin p' h Hp) as [wrote Hw].
    rewrite (Hpub p' h Hp). symmetry. eapply append_write; [|exact Hw].
    rewrite Forall_forall in Hh. exact (Hh _ Hp).
  - intros f t Hft. by rewrite Hsame, Hout.
Qed.

Lemma not_own_peer i size : i ∉ peers i size.
Proof. intros [Hne _]%list_elem_of_filter. done. Qed.

Lemma elem_of_peers i size p : p ∈ peers i size ↔ p ≠ i ∧ 1 ≤ p ≤ size.
Proof. unfold peers. rewrite list_elem_of_filter, elem_of_seqZ. intuition lia. Qed.

End Sending.

(** ** The functions as sequences of steps *)
Section Refinement.
Context {S : Type} `{Store : ReplicaStore S}.
Context (hash : bytes → Z) `{!ReplicaStoreLaws hash S}.
Context (rdtsc : Z → nat → Z) (cfg : Z → Config) (Hcfg : config_ok cfg) (V0 : MapType).
Implicit Types (c : Cluster SpscRing S) (h : History).

Abbreviation reaches := (reach hash rdtsc cfg V0).
Abbreviation run := (rtc (cstep hash rdtsc cfg)).
Abbreviation inv := (cluster_inv hash cfg V0).

(** Node [i] of the cluster is at [w]. *)
Definition sees c (i : Z) (w : World) : Prop :=
  nodes c i = w.2 ∧ ∀ f t, ring w.1 f t = chans c (f, t).

(** Only the thread of node [i] has done anything: the other nodes, their
    threads and what they have received are as before. *)
Record own_steps (i : Z) c c' : Prop := {
  os_nodes j : j ≠ i → nodes c' j = nodes c j;
  os_threads j : j ≠ i → threads c' j = threads c j;
  os_inbox p : inbox c' p = inbox c p;
  os_chans f t : f ≠ i → chans c' (f, t) = chans c (f, t)
}.

#[export] Instance own_steps_preorder i : PreOrder (own_steps i).
Proof.
  split; [done|]. intros c1 c2 c3 [Ha1 Ha2 Ha3 Ha4] [Hb1 Hb2 Hb3 Hb4].
  split; intros; rewrite ?Hb1, ?Hb2, ?Hb3, ?Hb4; auto.
Qed.

Lemma own_set_node i s t c : own_steps i c (set_node i s t c).
Proof. split; intros; cbn; by rewrite ?fn_lookup_insert_ne. Qed.

(** The rings to the peers served one after the other. *)
Lemma send_steps c h i noop msgs to chunks rs rs' : reaches c h → no_overflow h → is_node i →
  threads c i = TSend noop msgs to chunks → NoDup to → appended rs i msgs to rs' →
  (∀ f t, ring rs f t = chans c (f, t)) →
  ∃ c', run (c, h) (c', h) ∧ threads c' i = TSend noop msgs [] chunks ∧ nodes c' i = nodes c i ∧
    own_steps i c c' ∧ ∀ f t, ring rs' f t = chans c' (f, t).
Proof.
  intros Hr Hno Hi. revert c rs Hr. induction to as [|p to IH]; intros c rs Hr Ht Hnd [Hin Hout] Hrings.
  { exists c. do 4 (split; [done|]). intros f t. rewrite Hout; [done|right; apply not_elem_of_nil]. }
  apply NoDup_cons in Hnd as [Hp Hnd].
  pose proof (broadcast_never_waits hash rdtsc cfg V0 c h i p noop msgs (p :: to) chunks Hcfg Hr Hno Hi Ht
    ltac:(left)) as Hready.
  set (c1 := {| nodes := nodes c; threads := <[i := TSend noop msgs to chunks]> (threads c);
    chans := <[(i, p) := ch_append msgs (chans c (i, p))]> (chans c); inbox := inbox c |}).
  assert (cstep hash rdtsc cfg (c, h) (c1, h)) as Hs.
  { exists None. split; [by apply (step_send _ _ _ c i noop msgs p to chunks)|done]. }
  assert (own_steps i c c1) as Hown.
  { split; intros; cbn; rewrite ?fn_lookup_insert_ne; (done || congruence). }
  destruct (IH c1 (<[(i, p) := ch_append msgs (ring rs i p)]> rs)) as (c'&Hrun&Ht'&Hn'&Hown'&Hrings').
  - eapply run_reaches; [exact Hr|]. by apply rtc_once.
  - cbn. by rewrite fn_lookup_insert.
  - done.
  - split.
    + intros p' Hp'. rewrite Hin by (by right). rewrite ring_insert_ne; [done|]. intros [= ->]. done.
    + intros f t Hft. destruct (decide ((f, t) = (i, p))) as [[= -> ->]|Hne].
      * rewrite ring_insert_eq. apply Hin. left.
      * rewrite ring_insert_ne by done. apply Hout. destruct Hft as [|Hft]; [by left|].
        destruct (decide (f = i)) as [->|]; [|by left]. right. intros [->|?]%elem_of_cons; done.
  - intros f t. cbn. destruct (decide ((i, p) = (f, t))) as [[= <- <-]|Hne].
    + by rewrite ring_insert_eq, fn_lookup_insert, Hrings.
    + rewrite ring_insert_ne, fn_lookup_insert_ne by congruence. apply Hrings.
  - exists c'. split; [by eapply rtc_l|]. do 2 (split; [done|]). split; [by transitivity c1|done].
Qed.

(** A sender's rings hold queues and are ready. *)
Lemma sender_rings c h i noop msgs to chunks rs : reaches c h → no_overflow h → is_node i →
  threads c i = TSend noop msgs to chunks → (∀ f t, ring rs f t = chans c (f, t)) →
  Forall msg_fits msgs ∧ msgs ≠ [] ∧
  ∀ p, p ∈ to → (∃ q, bandle_queue (ring rs i p) q) ∧ ch_ready (length msgs) (ring rs i p) = true.
Proof.
  intros Hr Hno Hi Ht Hrings. destruct (reach_inv hash rdtsc cfg Hcfg V0 c h Hr Hno) as [n Hc].
  pose proof (nd_thread _ _ _ _ (ci_node _ _ _ _ _ _ Hc i Hi)) as Hth. rewrite Ht in Hth.
  destruct Hth as (Hne&_&Hsend&_&Hto&_). split; [eapply Forall_impl; [exact Hsend|]; by intros m [_ ?]|].
  split; [done|]. intros p Hp. rewrite Hrings. destruct (Hto p Hp) as [Hnp Hpi]. split.
  - destruct (ci_flow _ _ _ _ _ _ Hc i p Hi Hnp) as [_ (q&Hq&_)]. exists q. by apply Hq.
  - by apply (broadcast_never_waits hash rdtsc cfg V0 c h i p noop msgs to chunks).
Qed.

Lemma peers_of i : is_node i → peers (node_id_ (cfg i)) (cluster_size_ (cfg i)) = peers i 3.
Proof. intros Hi. by rewrite (cfg_id _ Hcfg i Hi), (cfg_three _ Hcfg i Hi). Qed.

Lemma shorter_issue h i msgs k : is_node i → shorter h (2 ^ 60 - Z.of_nat (length msgs + k)) →
  shorter (issue (Some (i, msgs)) h) (2 ^ 60 - Z.of_nat k).
Proof.
  intros Hi Hs j Hj. specialize (Hs j Hj). cbn. destruct (decide (i = j)) as [<-|].
  - rewrite fn_lookup_insert, length_app, length_fmap. lia.
  - rewrite fn_lookup_insert_ne by done. lia.
Qed.

(** One chunk: admission, broadcast and self-delivery; only the admission can
    fail. *)
Lemma submit_chunk_steps c h i w chunk chunks k : reaches c h → is_node i →
  shorter h (2 ^ 60 - Z.of_nat (length chunk + k)) → threads c i = TAdmit (chunk :: chunks) → sees c i w →
  match submit_chunk hash (rdtsc i) (cfg i) true w chunk with
  | Some w' => ∃ c' h', run (c, h) (c', h') ∧ shorter h' (2 ^ 60 - Z.of_nat k) ∧ threads c' i = TAdmit chunks ∧
      sees c' i w' ∧ own_steps i c c'
  | None => admit_chunk (rdtsc i) (cfg i) chunk (nodes c i) = None
  end.
Proof.
  intros Hr Hi Hroom Ht [Hn Hrings]. destruct w as [rs s]. cbn [fst snd] in Hn, Hrings. unfold submit_chunk.
  rewrite <- Hn. destruct (admit_chunk (rdtsc i) (cfg i) chunk (nodes c i)) as [[s1 msgs]|] eqn:Ha; [|done].
  cbn [mbind option_bind]. assert (no_overflow h) as Hno by (by eapply shorter_no_overflow; [|exact Hroom]; lia).
  destruct (reach_inv hash rdtsc cfg Hcfg V0 c h Hr Hno) as [n Hc].
  destruct (admitted_replica hash rdtsc cfg Hcfg V0 c h n i chunk chunks s1 msgs Hc Hno Hi Ht Ha) as (_&_&Hlen&_).
  rewrite <- Hlen in Hroom.
  pose proof (shorter_issue h i msgs k Hi Hroom) as Hroom1. set (h1 := issue (Some (i, msgs)) h) in *.
  assert (no_overflow h1) as Hno1 by (by eapply shorter_no_overflow; [|exact Hroom1]; lia).
  set (c1 := set_node i s1 (TSend false msgs (peers i (cluster_size_ (cfg i))) chunks) c).
  assert (cstep hash rdtsc cfg (c, h) (c1, h1)) as Hs1.
  { exists (Some (i, msgs)). split; [by apply (step_admit hash rdtsc cfg c i chunk chunks)|done]. }
  assert (reaches c1 h1) as Hr1 by (eapply run_reaches; [exact Hr|by apply rtc_once]).
  assert (threads c1 i = TSend false msgs (peers i (cluster_size_ (cfg i))) chunks) as Ht1
    by (cbn; by rewrite fn_lookup_insert).
  destruct (sender_rings c1 h1 i false msgs _ chunks rs Hr1 Hno1 Hi Ht1 Hrings) as (Hfit&Hne&Hready).
  unfold send_batch. rewrite (cfg_id _ Hcfg i Hi).
  destruct (batch_appends rs i (cluster_size_ (cfg i)) msgs Hne Hfit) as (rs'&->&Happ).
  { intros p Hp. by apply Hready. }
  cbn [mbind option_bind drain_outbox].
  destruct (send_steps c1 h1 i false msgs _ chunks rs rs' Hr1 Hno1 Hi Ht1 (NoDup_peers _ _) Happ Hrings)
    as (c2&Hrun2&Ht2&Hn2&Hown2&Hrings2).
  exists (set_node i (self_deliver hash (rdtsc i) (cfg i) msgs (nodes c2 i)) (TAdmit chunks) c2), h1.
  split; [|split; [done|split; [cbn; by rewrite fn_lookup_insert|split]]].
  - eapply rtc_l; [exact Hs1|]. eapply rtc_r; [exact Hrun2|]. exists None. split; [by apply step_self|done].
  - split; [|done]. cbn. rewrite fn_lookup_insert, Hn2. cbn. by rewrite fn_lookup_insert.
  - transitivity c1; [apply own_set_node|]. transitivity c2; [done|apply own_set_node].
Qed.

(** Node [i] spins in the admission loop. *)
Definition spins c (i : Z) : Prop := ∃ chunk chunks, threads c i = TAdmit (chunk :: chunks) ∧
  admit_chunk (rdtsc i) (cfg i) chunk (nodes c i) = None.

Lemma submit_all_steps chunks : ∀ c h i w, reaches c h → is_node i →
  shorter h (2 ^ 60 - Z.of_nat (length (concat chunks))) → threads c i = TAdmit chunks → sees c i w →
  ∃ c' h', run (c, h) (c', h') ∧ own_steps i c c' ∧
    match submit_all hash (rdtsc i) (cfg i) true chunks w with
    | Some w' => threads c' i = TAdmit [] ∧ sees c' i w'
    | None => spins c' i
    end.
Proof.
  induction chunks as [|chunk chunks IH]; intros c h i w Hr Hi Hroom Ht Hsee; cbn [submit_all].
  { by exists c, h. }
  cbn [concat] in Hroom. rewrite length_app in Hroom.
  pose proof (submit_chunk_steps c h i w chunk chunks _ Hr Hi Hroom Ht Hsee) as H1.
  destruct (submit_chunk hash (rdtsc i) (cfg i) true w chunk) as [w1|]; cbn [mbind option_bind].
  - destruct H1 as (c1&h1&Hrun1&Hroom1&Ht1&Hsee1&Hown1).
    destruct (IH c1 h1 i w1 (run_reaches _ _ _ _ _ _ _ _ Hr Hrun1) Hi Hroom1 Ht1 Hsee1) as (c'&h'&Hrun&Hown&Hres).
    exists c', h'. split; [by etransitivity|]. split; [by transitivity c1|done].
  - exists c, h. split; [done|]. split; [done|]. by exists chunk, chunks.
Qed.

(** [submit_borrowed_batch] from a node whose thread is idle. *)
Lemma submit_steps c h i reqs bufs w : reaches c h → is_node i → threads c i = TIdle →
  input_done_ (nodes c i) = false → Forall full_buffer bufs → Forall valid_lengths (default [] reqs) →
  shorter h (2 ^ 60 - Z.of_nat (length (default [] reqs))) → sees c i w →
  ∃ c' h', run (c, h) (c', h') ∧ own_steps i c c' ∧
    match submit_borrowed_batch hash (rdtsc i) (cfg i) true reqs bufs w with
    | Some w' => threads c' i = TIdle ∧ sees c' i w'
    | None => spins c' i
    end.
Proof.
  intros Hr Hi Ht Hin Hb Hreqs Hroom Hsee. destruct w as [rs s]. unfold submit_borrowed_batch.
  destruct reqs as [[|req reqs]|]; cbn [from_option id] in *; [by exists c, h| |by exists c, h].
  set (batch := req :: reqs) in *. destruct Hsee as [Hn Hrings]. cbn [fst snd] in Hn, Hrings. rewrite <- Hn.
  pose proof (prepare_all (cfg i) batch bufs (nodes c i) Hb Hreqs) as Hall.
  destruct (prepare_proposals (cfg i) batch bufs (nodes c i)) as [ps s1] eqn:Hp. destruct Hall as (_&Hlen&_&_).
  set (c1 := set_node i s1 (TAdmit (submit_chunks (cfg i) ps)) c).
  assert (cstep hash rdtsc cfg (c, h) (c1, h)) as Hs1.
  { exists None. split; [by apply (step_submit hash rdtsc cfg c i batch bufs ps)|done]. }
  assert (reaches c1 h) as Hr1 by (eapply run_reaches; [exact Hr|by apply rtc_once]).
  destruct (cfg_window _ Hcfg i Hi) as (Hba&_). destruct (submit_chunks_spec (cfg i) ps Hba) as [Hcat _].
  destruct (submit_all_steps (submit_chunks (cfg i) ps) c1 h i (rs, s1) Hr1 Hi) as (c2&h2&Hrun&Hown&Hres).
  - rewrite Hcat. intros j Hj. specialize (Hroom j Hj). lia.
  - cbn. by rewrite fn_lookup_insert.
  - split; [cbn; by rewrite fn_lookup_insert|done].
  - assert (match submit_all hash (rdtsc i) (cfg i) true (submit_chunks (cfg i) ps) (rs, s1) with
            | Some w' => threads c2 i = TAdmit [] ∧ sees c2 i w' | None => spins c2 i end →
      ∃ c' h', run (c, h) (c', h') ∧ own_steps i c c' ∧
        match submit_all hash (rdtsc i) (cfg i) true (submit_chunks (cfg i) ps) (rs, s1) with
        | Some w' => threads c' i = TIdle ∧ sees c' i w' | None => spins c' i end) as Hreturn.
    { destruct (submit_all _ _ _ _ _ _) as [w'|].
      - intros (Ht2&Hn2&Hrings2). exists (set_node i (nodes c2 i) TIdle c2), h2. split; [|split; [|split]].
        + eapply rtc_l; [exact Hs1|]. eapply rtc_r; [exact Hrun|]. exists None. split; [by apply step_return|done].
        + transitivity c1; [apply own_set_node|]. transitivity c2; [done|apply own_set_node].
        + cbn. by rewrite fn_lookup_insert.
        + split; [cbn; by rewrite fn_lookup_insert|done].
      - intros Hspin. exists c2, h2. split; [by eapply rtc_l|]. split; [|done].
        transitivity c1; [apply own_set_node|done]. }
    destruct ps as [|p ps]; [apply Hreturn; exact Hres|by apply Hreturn].
Qed.

(** [propose_noop], after [proposer_loop] has decided to call it, always
    returns. *)
Lemma propose_noop_steps c h i finished now now' w : reaches c h → is_node i → shorter h (2 ^ 60 - 1) →
  threads c i = TIdle → should_propose_noop_locked (cfg i) finished now (nodes c i) = true → sees c i w →
  ∃ w', propose_noop hash (rdtsc i) (cfg i) (fun _ => true) now' w = Some w' ∧
    ∃ c' h', run (c, h) (c', h') ∧ own_steps i c c' ∧ threads c' i = TIdle ∧ sees c' i w'.
Proof.
  intros Hr Hi Hroom Ht Hnoop [Hn Hrings]. destruct w as [rs s]. cbn [fst snd] in Hn, Hrings. unfold propose_noop.
  rewrite <- Hn. set (msg := noop_proposal (cfg i) (nodes c i)).
  set (c1 := set_node i (nodes c i) TNoop c). set (c2 := set_node i (nodes c i) (TNoopRead msg) c1).
  set (c3 := set_node i (reserve_noop (cfg i) now' (nodes c i)) (TSend true [msg] (peers i (cluster_size_ (cfg i))) []) c2).
  assert (nodes c1 i = nodes c i) as Hn1 by (cbn; by rewrite fn_lookup_insert).
  assert (nodes c2 i = nodes c i) as Hn2 by (cbn; by rewrite !fn_lookup_insert).
  assert (step hash rdtsc cfg c None c1) as H1 by by apply (step_noop_check hash rdtsc cfg c i finished now).
  assert (threads c1 i = TNoop) as Ht1 by (cbn; by rewrite fn_lookup_insert).
  pose proof (step_noop_read hash rdtsc cfg c1 i Hi Ht1) as H2. rewrite Hn1 in H2.
  assert (threads c2 i = TNoopRead msg) as Ht2 by (cbn; by rewrite fn_lookup_insert).
  pose proof (step_noop_reserve hash rdtsc cfg c2 i msg now' Hi Ht2) as H3. rewrite Hn2 in H3.
  assert (run (c, h) (c3, issue (Some (i, [msg])) h)) as Hrun.
  { apply (rtc_l _ _ (c1, h)); [by exists None|]. apply (rtc_l _ _ (c2, h)); [by exists None|].
    apply rtc_once. by exists (Some (i, [msg])). }
  set (h1 := issue (Some (i, [msg])) h) in *.
  assert (no_overflow h1) as Hno1.
  { apply (shorter_no_overflow h1 (2 ^ 60 - Z.of_nat 0)); [lia|]. apply shorter_issue; [done|exact Hroom]. }
  assert (reaches c3 h1) as Hr3 by by eapply run_reaches.
  assert (threads c3 i = TSend true [msg] (peers i (cluster_size_ (cfg i))) []) as Ht3
    by (cbn; by rewrite fn_lookup_insert).
  destruct (sender_rings c3 h1 i true [msg] _ [] rs Hr3 Hno1 Hi Ht3 Hrings) as (Hfit&_&Hready).
  unfold broadcast. rewrite (cfg_id _ Hcfg i Hi). apply Forall_singleton in Hfit.
  destruct (broadcast_appends rs i msg (peers i (cluster_size_ (cfg i)))) as (rs'&->&Happ);
    [apply NoDup_peers|apply not_own_peer|done|exact Hready|].
  cbn [mbind option_bind drain_outbox]. eexists. split; [done|].
  destruct (send_steps c3 h1 i true [msg] _ [] rs rs' Hr3 Hno1 Hi Ht3 (NoDup_peers _ _) Happ Hrings)
    as (c4&Hrun4&Ht4&Hn4&Hown4&Hrings4).
  exists (set_node i (self_deliver_noop hash (rdtsc i) (cfg i) msg (nodes c4 i)) TIdle c4), h1.
  split; [|split; [|split; [cbn; by rewrite fn_lookup_insert|]]].
  - etransitivity; [exact Hrun|]. eapply rtc_r; [exact Hrun4|]. exists None. split; [by apply step_self_noop|done].
  - transitivity c3; [|transitivity c4; [done|apply own_set_node]].
    transitivity c1; [apply own_set_node|]. transitivity c2; apply own_set_node.
  - split; [|done]. cbn. rewrite fn_lookup_insert, Hn4. cbn. by rewrite !fn_lookup_insert.
Qed.

(** *** Reception *)

(** Messages equal on the wire are handled alike. *)
Lemma handle_chunk_wire g clock ms1 ms2 (s : Node S) : wire <$> ms1 = wire <$> ms2 →
  handle_chunk hash clock g ms1 s = handle_chunk hash clock g ms2 s.
Proof.
  intros Hw. unfold handle_chunk.
  assert (∀ s, foldl (fun s msg => handle_one hash clock g false msg s) s ms1 =
    foldl (fun s msg => handle_one hash clock g false msg s) s ms2 ∧
    existsb (fun msg => bool_decide (m_type msg = PROPOSAL)) ms1 =
    existsb (fun msg => bool_decide (m_type msg = PROPOSAL)) ms2) as Hall; [|by destruct (Hall s) as [-> ->]].
  clear s. revert ms2 Hw. induction ms1 as [|m1 ms1 IH]; intros [|m2 ms2] Hw s; try done.
  apply (inj2 cons) in Hw as [Hm Hw].
  cbn [foldl existsb]. rewrite (handle_one_equiv hash clock g m1 m2 false s Hm).
  destruct (equiv_fields _ _ Hm) as [-> _]. destruct (IH ms2 Hw (handle_one hash clock g false m2 s)) as [-> ->]. done.
Qed.

(** Node [i] has taken messages from its channels and handled them. *)
Record receives (i : Z) c c' : Prop := {
  rc_nodes j : j ≠ i → nodes c' j = nodes c j;
  rc_threads j : threads c' j = threads c j;
  rc_inbox f t : t ≠ i → inbox c' (f, t) = inbox c (f, t);
  rc_chans f t : t ≠ i → chans c' (f, t) = chans c (f, t)
}.

#[local] Instance receives_preorder i : PreOrder (receives i).
Proof.
  split; [done|]. intros c1 c2 c3 [Ha1 Ha2 Ha3 Ha4] [Hb1 Hb2 Hb3 Hb4].
  split; intros; rewrite ?Hb1, ?Hb2, ?Hb3, ?Hb4; auto.
Qed.

Definition emptied (i : Z) c : Prop := ∀ f, inbox c (f, i) = [].

(** Handling a batch chunk by chunk. *)
Lemma handle_steps fuel : ∀ c h src i msgs, is_node src → is_node i → src ≠ i →
  wire <$> inbox c (src, i) = wire <$> msgs → (length msgs ≤ fuel)%nat →
  ∃ c', run (c, h) (c', h) ∧ nodes c' i = handle_chunks hash (rdtsc i) (cfg i) fuel msgs (nodes c i) ∧
    receives i c c' ∧ (∀ p, chans c' p = chans c p) ∧
    ∀ f, inbox c' (f, i) = if decide (f = src) then [] else inbox c (f, i).
Proof.
  induction fuel as [|fuel IH]; intros c h src i msgs Hsrc Hi Hne Hw Hl.
  - destruct msgs; [|cbn in Hl; lia]. apply fmap_nil_inv in Hw. exists c. do 4 (split; [done|]).
    intros f. by case_decide as Hf; [rewrite Hf|].
  - destruct msgs as [|m msgs].
    { apply fmap_nil_inv in Hw. exists c. do 4 (split; [done|]). intros f. by case_decide as Hf; [rewrite Hf|]. }
    cbn [handle_chunks]. set (ms := m :: msgs) in *.
    assert (inbox c (src, i) ≠ []) as Hin by (intros H0; by rewrite H0 in Hw).
    assert (wire <$> take kHandleChunk (inbox c (src, i)) = wire <$> take kHandleChunk ms) as Htake
      by (by rewrite !fmap_take, Hw).
    assert (wire <$> drop kHandleChunk (inbox c (src, i)) = wire <$> drop kHandleChunk ms) as Hdrop
      by (by rewrite !fmap_drop, Hw).
    pose proof (step_handle hash rdtsc cfg c src i Hsrc Hi Hne Hin) as Hs.
    rewrite (handle_chunk_wire _ _ _ _ _ Htake) in Hs.
    match type of Hs with step _ _ _ _ _ ?x => set (c1 := x) in * end.
    destruct (IH c1 h src i (drop kHandleChunk ms) Hsrc Hi Hne) as (c'&Hrun&Hn&Hrc&Hch&Hib).
    + cbn. by rewrite fn_lookup_insert.
    + rewrite length_drop. unfold kHandleChunk. cbn [length ms] in *. lia.
    + exists c'. split; [apply (rtc_l _ _ (c1, h)); [by exists None|done]|]. split.
      { rewrite Hn. cbn. by rewrite fn_lookup_insert. }
      split; [|split; [intros p; apply Hch|]].
      * transitivity c1; [|done]. split; intros; cbn; rewrite ?fn_lookup_insert_ne; (done || congruence).
      * intros f. rewrite Hib. case_decide; [done|]. cbn. rewrite fn_lookup_insert_ne by congruence. done.
Qed.

Lemma queue_of c h src i : reaches c h → no_overflow h → is_node src → is_node i → src ≠ i →
  ∃ q, bandle_queue (chans c (src, i)) q ∧ Z.of_nat (length q) < kMaxUnderWay.
Proof.
  intros Hr Hno Hsrc Hi Hne. destruct (reach_inv hash rdtsc cfg Hcfg V0 c h Hr Hno) as [n Hc].
  destruct (channel_load hash cfg V0 c h n src i Hc Hsrc Hi Hne) as (q&Hq&Hl). exists q. split; [done|lia].
Qed.

(** One batch from one source: a drain and the handling of what it took. *)
Lemma receive_batch c h src i w batch : reaches c h → no_overflow h → is_node src → is_node i → src ≠ i →
  emptied i c → sees c i w →
  match drain_source_ring 64 (ring w.1 src i) batch (batch_size_ (cfg i)) with
  | None => bandle_queue (chans c (src, i)) []
  | Some (msgs, r) => ∃ c', run (c, h) (c', h) ∧ receives i c c' ∧ emptied i c' ∧
      sees c' i (<[(src, i) := r]> w.1, handle_messages_batch hash (rdtsc i) (cfg i) msgs w.2) ∧
      (∀ f, f ≠ src → chans c' (f, i) = chans c (f, i)) ∧
      ∀ q, bandle_queue (chans c (src, i)) q → ∃ q', bandle_queue (chans c' (src, i)) q' ∧ (length q' < length q)%nat
  end.
Proof.
  intros Hr Hno Hsrc Hi Hne Hem [Hn Hrings]. rewrite Hrings.
  destruct (queue_of c h src i Hr Hno Hsrc Hi Hne) as (q&Hq&_).
  pose proof (drain_eq 63 (chans c (src, i)) q batch (batch_size_ (cfg i)) Hq) as Hreal.
  destruct (drain_source_ring 64 _ batch _) as [[msgs r']|] eqn:Hd; [|by subst q].
  destruct Hreal as (Hn0&Hle&Hw&->). set (k := drain_count (batch_size_ (cfg i)) q) in *. set (r' := commit_tail _ _) in *.
  set (c1 := {| nodes := nodes c; threads := threads c; chans := <[(src, i) := r']> (chans c);
    inbox := <[(src, i) := msgs]> (inbox c) |} : Cluster SpscRing S).
  assert (step hash rdtsc cfg c None c1) as Hs1.
  { apply (step_drain hash rdtsc cfg c src i msgs r'); try done. by exists 63%nat, batch. }
  destruct (handle_steps (length msgs) c1 h src i msgs Hsrc Hi Hne) as (c'&Hrun&Hn'&Hrc&Hch&Hib).
  { cbn. rewrite fn_lookup_insert. congruence. }
  { done. }
  exists c'. split; [apply (rtc_l _ _ (c1, h)); [by exists None|done]|].
  split; [|split; [|split; [|split]]].
  - transitivity c1; [|done]. split; intros; cbn; rewrite ?fn_lookup_insert_ne; (done || congruence).
  - intros f. rewrite Hib. case_decide; [done|]. cbn. rewrite fn_lookup_insert_ne by congruence. apply Hem.
  - split; [by rewrite Hn', <- Hn|]. intros f t. rewrite Hch. cbn.
    destruct (decide ((src, i) = (f, t))) as [[= <- <-]|Hft].
    + rewrite fn_lookup_insert. unfold ring. by rewrite lookup_insert_eq.
    + rewrite fn_lookup_insert_ne by done. unfold ring. rewrite lookup_insert_ne by done. apply Hrings.
  - intros f Hf. rewrite Hch. cbn. by rewrite fn_lookup_insert_ne by congruence.
  - intros q0 Hq0. rewrite Hch. cbn. rewrite fn_lookup_insert. exists (drop k q). split; [by apply commit_at|].
    destruct (queue_avail _ _ Hq) as [Ha _]. destruct (queue_avail _ _ Hq0) as [Ha0 _].
    rewrite length_drop. lia.
Qed.

(** The inner loop of [recv_loop], and with one round that of
    [recv_source_loop]. *)
Lemma drain_source_steps fuel : ∀ c h src i w batch, reaches c h → no_overflow h → is_node src → is_node i →
  src ≠ i → emptied i c → sees c i w →
  let '(_, _, w') := drain_source hash (rdtsc i) (cfg i) fuel src batch w in
  ∃ c', run (c, h) (c', h) ∧ receives i c c' ∧ emptied i c' ∧ sees c' i w' ∧
    (∀ f, f ≠ src → chans c' (f, i) = chans c (f, i)) ∧
    ∀ q, bandle_queue (chans c (src, i)) q →
      ∃ q', bandle_queue (chans c' (src, i)) q' ∧ (length q' ≤ length q - fuel)%nat.
Proof.
  induction fuel as [|fuel IH]; intros c h src i w batch Hr Hno Hsrc Hi Hne Hem Hsee; cbn [drain_source].
  { exists c. do 5 (split; [done|]). intros q Hq. exists q. split; [done|lia]. }
  pose proof (receive_batch c h src i w batch Hr Hno Hsrc Hi Hne Hem Hsee) as Hb. rewrite (cfg_id _ Hcfg i Hi).
  destruct (drain_source_ring 64 _ batch _) as [[msgs r]|].
  2:{ exists c. do 5 (split; [done|]). intros q _. exists []. split; [done|cbn; lia]. }
  destruct Hb as (c1&Hrun1&Hrc1&Hem1&Hsee1&Hother1&Hq1).
  specialize (IH c1 h src i _ (refill batch msgs) (run_reaches _ _ _ _ _ _ _ _ Hr Hrun1) Hno Hsrc Hi Hne Hem1 Hsee1).
  destruct (drain_source _ _ _ fuel src _ _) as [[p batch'] w']. destruct IH as (c'&Hrun&Hrc&Hem'&Hsee'&Hother&Hq).
  exists c'. split; [by etransitivity|]. split; [by transitivity c1|]. do 2 (split; [done|]). split.
  - intros f Hf. by rewrite Hother, Hother1.
  - intros q Hq0. destruct (Hq1 q Hq0) as (q1&Hq1'&Hlt). destruct (Hq q1 Hq1') as (q'&Hq'&Hle).
    exists q'. split; [done|lia].
Qed.

Lemma recv_sources_steps fuel srcs : ∀ c h i w batch, reaches c h → no_overflow h → is_node i →
  (∀ src, src ∈ srcs → is_node src ∧ src ≠ i) → NoDup srcs → emptied i c → sees c i w →
  let '(_, _, w') := recv_sources hash (rdtsc i) (cfg i) fuel srcs batch w in
  ∃ c', run (c, h) (c', h) ∧ receives i c c' ∧ emptied i c' ∧ sees c' i w' ∧
    (∀ f, f ∉ srcs → chans c' (f, i) = chans c (f, i)) ∧
    (kMaxUnderWay ≤ Z.of_nat fuel → ∀ src, src ∈ srcs → bandle_queue (chans c' (src, i)) []).
Proof.
  induction srcs as [|src srcs IH]; intros c h i w batch Hr Hno Hi Hsrcs Hnd Hem Hsee; cbn [recv_sources].
  { exists c. do 5 (split; [done|]). by intros _ src Hin%not_elem_of_nil. }
  apply NoDup_cons in Hnd as [Hnot Hnd]. destruct (Hsrcs src ltac:(left)) as [Hsrc Hne].
  pose proof (drain_source_steps fuel c h src i w batch Hr Hno Hsrc Hi Hne Hem Hsee) as H1.
  destruct (drain_source _ _ _ fuel src batch w) as [[p1 batch1] w1].
  destruct H1 as (c1&Hrun1&Hrc1&Hem1&Hsee1&Hother1&Hq1).
  specialize (IH c1 h i w1 batch1 (run_reaches _ _ _ _ _ _ _ _ Hr Hrun1) Hno Hi (λ s Hs, Hsrcs s ltac:(by right)) Hnd Hem1 Hsee1).
  destruct (recv_sources _ _ _ fuel srcs batch1 w1) as [[p2 batch'] w'].
  destruct IH as (c'&Hrun&Hrc&Hem'&Hsee'&Hother&Hq).
  exists c'. split; [by etransitivity|]. split; [by transitivity c1|]. do 2 (split; [done|]). split.
  - intros f [Hf Hfs]%not_elem_of_cons. by rewrite Hother, Hother1.
  - intros Hfuel s [->|Hs]%elem_of_cons; [|by apply Hq].
    rewrite Hother by done. destruct (queue_of c h src i Hr Hno Hsrc Hi Hne) as (q&Hq0&Hl).
    destruct (Hq1 q Hq0) as ([|m q']&Hq'&Hle); [done|cbn in Hle; lia].
Qed.

Lemma peers_nodes i : is_node i → ∀ src, src ∈ peers (node_id_ (cfg i)) (cluster_size_ (cfg i)) → is_node src ∧ src ≠ i.
Proof.
  intros Hi src. rewrite (peers_of i Hi), elem_of_peers. unfold is_node. lia.
Qed.

(** A round of [recv_loop]. *)
Lemma recv_round_steps fuel c h i w batch : reaches c h → no_overflow h → is_node i → emptied i c → sees c i w →
  let '(_, _, w') := recv_round hash (rdtsc i) (cfg i) fuel batch w in
  ∃ c', run (c, h) (c', h) ∧ receives i c c' ∧ emptied i c' ∧ sees c' i w' ∧
    (kMaxUnderWay ≤ Z.of_nat fuel → ∀ src, is_node src → src ≠ i → bandle_queue (chans c' (src, i)) []).
Proof.
  intros Hr Hno Hi Hem Hsee. unfold recv_round.
  pose proof (recv_sources_steps fuel _ c h i w batch Hr Hno Hi (peers_nodes i Hi) (NoDup_peers _ _) Hem Hsee) as H.
  destruct (recv_sources _ _ _ fuel _ batch w) as [[p batch'] w']. destruct H as (c'&?&?&?&?&_&Hq).
  exists c'. do 4 (split; [done|]). intros Hfuel src Hsrc Hne. apply (Hq Hfuel).
  rewrite (peers_of i Hi), elem_of_peers. unfold is_node in Hsrc. lia.
Qed.

(** Rounds of the threads of [recv_source_loop], in the order in which they
    run; each thread has its own buffer. *)
Fixpoint source_rounds (i : Z) (order : list Z) (batches : Z → list BandleMessage) (w : World) : World :=
  match order with
  | [] => w
  | src :: order =>
      let '(_, batch, w) := recv_source_round hash (rdtsc i) (cfg i) src (batches src) w in
      source_rounds i order (<[src := batch]> batches) w
  end.

(** Every round of a source's thread takes at least one of its messages, if
    there are any. *)
Lemma source_rounds_steps order : ∀ c h i w batches, reaches c h → no_overflow h → is_node i →
  (∀ src, src ∈ order → is_node src ∧ src ≠ i) → emptied i c → sees c i w →
  ∃ c', run (c, h) (c', h) ∧ receives i c c' ∧ emptied i c' ∧ sees c' i (source_rounds i order batches w) ∧
    ∀ src q, bandle_queue (chans c (src, i)) q →
      ∃ q', bandle_queue (chans c' (src, i)) q' ∧ (length q' ≤ length q - count_occ Z.eq_dec order src)%nat.
Proof.
  induction order as [|src order IH]; intros c h i w batches Hr Hno Hi Hsrcs Hem Hsee; cbn [source_rounds].
  { exists c. do 4 (split; [done|]). intros src q Hq. exists q. split; [done|cbn; lia]. }
  destruct (Hsrcs src ltac:(left)) as [Hsrc Hne]. unfold recv_source_round.
  pose proof (drain_source_steps 1 c h src i w (batches src) Hr Hno Hsrc Hi Hne Hem Hsee) as H1.
  destruct (drain_source _ _ _ 1 src _ w) as [[p1 batch1] w1].
  destruct H1 as (c1&Hrun1&Hrc1&Hem1&Hsee1&Hother1&Hq1).
  destruct (IH c1 h i w1 (<[src := batch1]> batches) (run_reaches _ _ _ _ _ _ _ _ Hr Hrun1) Hno Hi
    (λ s Hs, Hsrcs s ltac:(by right)) Hem1 Hsee1) as (c'&Hrun&Hrc&Hem'&Hsee'&Hq').
  exists c'. split; [by etransitivity|]. split; [by transitivity c1|]. do 2 (split; [done|]).
  intros f q Hq. destruct (decide (f = src)) as [->|Hf].
  - destruct (Hq1 q Hq) as (q1&Hq1'&Hle1). destruct (Hq' src q1 Hq1') as (q'&Hq2&Hle).
    exists q'. split; [done|]. rewrite count_occ_cons_eq by done. lia.
  - rewrite <- (Hother1 f Hf) in Hq. destruct (Hq' f q Hq) as (q'&Hq2&Hle).
    exists q'. split; [done|]. rewrite count_occ_cons_neq by done. lia.
Qed.

(** With as many rounds as its ring holds messages, a source is drained. *)
Lemma source_rounds_drain order c h i w batches : reaches c h → no_overflow h → is_node i →
  (∀ src, src ∈ order → is_node src ∧ src ≠ i) → emptied i c → sees c i w →
  (∀ src q, is_node src → src ≠ i → bandle_queue (ring w.1 src i) q → (length q ≤ count_occ Z.eq_dec order src)%nat) →
  ∃ c', run (c, h) (c', h) ∧ receives i c c' ∧ emptied i c' ∧ sees c' i (source_rounds i order batches w) ∧
    ∀ src, is_node src → src ≠ i → bandle_queue (chans c' (src, i)) [].
Proof.
  intros Hr Hno Hi Hsrcs Hem Hsee Hrounds.
  destruct (source_rounds_steps order c h i w batches Hr Hno Hi Hsrcs Hem Hsee) as (c'&Hrun&Hrc&Hem'&Hsee'&Hq).
  exists c'. do 4 (split; [done|]). intros src Hsrc Hne.
  destruct (queue_of c h src i Hr Hno Hsrc Hi Hne) as (q&Hq0&_).
  destruct (Hq src q Hq0) as ([|m q']&Hq'&Hle); [done|].
  specialize (Hrounds src q Hsrc Hne). rewrite (proj2 Hsee) in Hrounds. specialize (Hrounds Hq0). cbn in Hle. lia.
Qed.

(** The loops themselves, round after round. *)
Lemma recv_loop_steps rounds fuel : ∀ c h i w batch, reaches c h → no_overflow h → is_node i → emptied i c →
  sees c i w → ∃ c', run (c, h) (c', h) ∧ receives i c c' ∧ emptied i c' ∧
    sees c' i (recv_loop hash (rdtsc i) (cfg i) rounds fuel batch w).
Proof.
  induction rounds as [|rounds IH]; intros c h i w batch Hr Hno Hi Hem Hsee; cbn [recv_loop]; [by exists c|].
  pose proof (recv_round_steps fuel c h i w batch Hr Hno Hi Hem Hsee) as H1.
  destruct (recv_round _ _ _ fuel batch w) as [[p batch1] w1]. destruct H1 as (c1&Hrun1&Hrc1&Hem1&Hsee1&_).
  destruct (IH c1 h i w1 batch1 (run_reaches _ _ _ _ _ _ _ _ Hr Hrun1) Hno Hi Hem1 Hsee1) as (c'&Hrun&Hrc&Hem'&Hsee').
  exists c'. split; [by etransitivity|]. split; [by transitivity c1|]. done.
Qed.

(** A source loop alone is a sequence of its rounds. *)
Lemma recv_source_loop_rounds rounds i src : ∀ batches w,
  recv_source_loop hash (rdtsc i) (cfg i) rounds src (batches src) w =
  source_rounds i (replicate rounds src) batches w.
Proof.
  induction rounds as [|rounds IH]; intros batches w; [done|]. cbn [recv_source_loop replicate source_rounds].
  destruct (recv_source_round _ _ _ src (batches src) w) as [[p batch] w1].
  rewrite <- IH. by rewrite fn_lookup_insert.
Qed.

(** *** What was received decides what a replica has executed *)

(** With nothing in the channels to node [i], what it was given is what the
    senders no longer hold. *)
Lemma delivered_count c h n i o : inv c h n → is_node i → is_node o → emptied i c →
  (o ≠ i → bandle_queue (chans c (o, i)) []) →
  n o i = (length (h o) - length (outgoing o (threads c o) i))%nat.
Proof.
  intros Hc Hi Ho Hem Hq. destruct (ci_flow _ _ _ _ _ _ Hc o i Ho Hi) as [Hle (q&Hq1&Hq2&Hd)].
  assert (q = []) as ->.
  { destruct (decide (o = i)) as [->|Hne]; [by apply Hq2|]. specialize (Hq1 Hne). specialize (Hq Hne).
    destruct (queue_avail _ _ Hq1) as [Ha _]. destruct (queue_avail _ _ Hq) as [Ha0 _]. cbn in Ha0.
    apply length_zero_iff_nil. lia. }
  rewrite Hem in Hd. apply (f_equal length) in Hd. rewrite length_drop, !length_app, !length_fmap in Hd.
  cbn [length] in Hd. lia.
Qed.

Lemma exec_le_delivered c h n c' n' i : inv c h n → inv c' h n' → is_node i →
  (∀ o, is_node o → n o i = n' o i) → execute_next_ (nodes c i) ≤ execute_next_ (nodes c' i).
Proof.
  intros Hc Hc' Hi Hn. destruct (Z.le_gt_cases (execute_next_ (nodes c i)) (execute_next_ (nodes c' i))) as [|Hgt]; [done|].
  exfalso. pose proof (ri_exec _ _ _ _ (ci_replica _ _ _ _ _ _ Hc' i Hi)).
  destruct (ri_prefix _ _ _ _ (ci_replica _ _ _ _ _ _ Hc i Hi) (execute_next_ (nodes c' i))) as [m Hm]; [lia|].
  pose proof (ci_blocked _ _ _ _ _ _ Hc' i Hi) as Hb.
  rewrite (delivered_cases eq h _ h (λ o, n' o i)) in Hm; [congruence| |done].
  intros o k Ho. by rewrite !delivered_at, Hn.
Qed.

(** A replica given the same proposals holds the same ones in its log. *)
Lemma holds_transfer D V s1 s2 q m : replica_inv hash V D s1 → replica_inv hash V D s2 →
  execute_next_ s1 = execute_next_ s2 → 1 ≤ q → holds hash s1 q m → holds hash s2 q m.
Proof.
  intros H1 H2 He Hq Hm. destruct (ready_delivered hash V D s1 q H1 Hq (holds_ready _ _ _ _ Hm)) as (m'&HD&Hle&Hm').
  rewrite He in Hle. pose proof (ri_holds _ _ _ _ H2 q m' HD Hle) as Hm2.
  destruct Hm as [_ _ _ _ Hp Hid Hops], Hm' as [_ _ _ _ Hp' Hid' Hops'], Hm2 as [? ? ? ? ? ? ?].
  split; congruence.
Qed.

(** Two ways of receiving everything from the same state. *)
Lemma received_alike c h c1 c2 i : reaches c h → no_overflow h → is_node i →
  run (c, h) (c1, h) → run (c, h) (c2, h) → receives i c c1 → receives i c c2 → emptied i c1 → emptied i c2 →
  (∀ src, is_node src → src ≠ i → bandle_queue (chans c1 (src, i)) []) →
  (∀ src, is_node src → src ≠ i → bandle_queue (chans c2 (src, i)) []) →
  execute_next_ (nodes c1 i) = execute_next_ (nodes c2 i) ∧
  store_view (kv_ (nodes c1 i)) = store_view (kv_ (nodes c2 i)) ∧
  ∀ q m, 1 ≤ q → holds hash (nodes c1 i) q m ↔ holds hash (nodes c2 i) q m.
Proof.
  intros Hr Hno Hi Hrun1 Hrun2 Hrc1 Hrc2 Hem1 Hem2 Hq1 Hq2.
  destruct (reach_inv hash rdtsc cfg Hcfg V0 c1 h (run_reaches _ _ _ _ _ _ _ _ Hr Hrun1) Hno) as [n1 Hc1].
  destruct (reach_inv hash rdtsc cfg Hcfg V0 c2 h (run_reaches _ _ _ _ _ _ _ _ Hr Hrun2) Hno) as [n2 Hc2].
  assert (∀ o, is_node o → n1 o i = n2 o i) as Hn.
  { intros o Ho. rewrite (delivered_count c1 h n1 i o), (delivered_count c2 h n2 i o) by auto.
    by rewrite (rc_threads _ _ _ Hrc1), (rc_threads _ _ _ Hrc2). }
  assert (execute_next_ (nodes c1 i) = execute_next_ (nodes c2 i)) as He.
  { apply Z.le_antisymm; [by apply (exec_le_delivered c1 h n1 c2 n2)|apply (exec_le_delivered c2 h n2 c1 n1); try done].
    intros o Ho. by rewrite Hn. }
  split; [done|]. split; [by rewrite (inv_view hash cfg V0 c1 h n1 i), (inv_view hash cfg V0 c2 h n2 i), He|].
  intros q m Hpos. pose proof (ci_replica _ _ _ _ _ _ Hc1 i Hi) as H1.
  assert (replica_inv hash V0 (delivered h (λ o, n1 o i)) (nodes c2 i)) as H2.
  { apply (replica_inv_ext hash V0 (delivered h (λ o, n2 o i))); [|by apply (ci_replica _ _ _ _ _ _ Hc2 i Hi)].
    intros q'. apply (delivered_cases eq); [|done]. intros o k Ho. by rewrite !delivered_at, Hn. }
  split; by eapply holds_transfer.
Qed.

End Refinement.

(** ** Properties *)
Section Properties.
Context {S : Type} `{Store : ReplicaStore S}.
Context (hash : bytes → Z) `{!ReplicaStoreLaws hash S}.
Context (rdtsc : Z → nat → Z) (cfg : Z → Config) (V0 : MapType).
Implicit Types (c : Cluster SpscRing S) (h : History).

(** C21: [submit_borrowed_batch], run by the main thread on any state the
    cluster reaches, is a sequence of steps of its thread: it either returns,
    leaving the rings and the replica where these steps lead, or it is waiting
    in the admission loop for the window to move; no other loop of it waits. *)
Theorem submit_refines_steps c h i reqs bufs (w : World) (Hcfg : config_ok cfg)
    (Hr : reach hash rdtsc cfg V0 c h) (Hi : is_node i) (Ht : threads c i = TIdle)
    (Hin : input_done_ (nodes c i) = false) (Hb : Forall full_buffer bufs)
    (Hreqs : Forall valid_lengths (default [] reqs))
    (Hroom : shorter h (2 ^ 60 - Z.of_nat (length (default [] reqs)))) (Hw : sees c i w) :
  ∃ c' h', rtc (cstep hash rdtsc cfg) (c, h) (c', h') ∧ own_steps i c c' ∧
    match submit_borrowed_batch hash (rdtsc i) (cfg i) true reqs bufs w with
    | Some w' => threads c' i = TIdle ∧ sees c' i w'
    | None => spins rdtsc cfg c' i
    end.
Proof. by apply (submit_steps hash rdtsc cfg Hcfg V0). Qed.

(** A round of [proposer_loop] always ends, and is a sequence of steps of
    the proposer thread: nothing, or one no-op proposed, broadcast to both
    peers and handled. *)
Theorem proposer_round_refines_steps c h i finished now now' (w : World) (Hcfg : config_ok cfg)
    (Hr : reach hash rdtsc cfg V0 c h) (Hi : is_node i) (Ht : threads c i = TIdle)
    (Hroom : shorter h (2 ^ 60 - 1)) (Hw : sees c i w) :
  ∃ w' c' h', proposer_round hash (rdtsc i) (cfg i) (fun _ => true) finished now now' w = Some w' ∧
    rtc (cstep hash rdtsc cfg) (c, h) (c', h') ∧ own_steps i c c' ∧ threads c' i = TIdle ∧ sees c' i w'.
Proof.
  unfold proposer_round. destruct Hw as [Hn Hrings]. rewrite <- Hn.
  destruct (should_propose_noop_locked (cfg i) finished now (nodes c i)) eqn:Hs.
  - destruct (propose_noop_steps hash rdtsc cfg Hcfg V0 c h i finished now now' w Hr Hi Hroom Ht Hs (conj Hn Hrings))
      as (w'&Hw'&c'&h'&Hrest). by exists w', c', h'.
  - by exists w, c, h.
Qed.

(** C22: one receive thread or one per source, it makes no difference.  From
    any state the cluster reaches, a round of [recv_loop] is a sequence of steps
    of the cluster; so is any interleaving of rounds of the [recv_source_loop]
    threads.  If each of these threads is given as many rounds as its ring holds
    messages, both leave every ring to the node empty, and they bring the replica
    to the same position of the log, with the same store and the same proposals
    held in the log. *)
Theorem receive_modes_agree c h i fuel batch order batches (w : World) (Hcfg : config_ok cfg)
    (Hr : reach hash rdtsc cfg V0 c h) (Hno : no_overflow h) (Hi : is_node i)
    (Hem : emptied i c) (Hw : sees c i w) (Hfuel : kMaxUnderWay ≤ Z.of_nat fuel)
    (Horder : ∀ src, src ∈ order → src ∈ peers i 3)
    (Hrounds : ∀ src q, src ∈ peers i 3 → bandle_queue (ring w.1 src i) q →
       (length q ≤ count_occ Z.eq_dec order src)%nat) :
  let '(_, _, w1) := recv_round hash (rdtsc i) (cfg i) fuel batch w in
  let w2 := source_rounds hash rdtsc cfg i order batches w in
  let taken (w' : World) := ∃ c', rtc (cstep hash rdtsc cfg) (c, h) (c', h) ∧ receives i c c' ∧ sees c' i w' ∧
    ∀ src, src ∈ peers i 3 → bandle_queue (ring w'.1 src i) [] in
  taken w1 ∧ taken w2 ∧
  execute_next_ w1.2 = execute_next_ w2.2 ∧ store_view (kv_ w1.2) = store_view (kv_ w2.2) ∧
  ∀ q m, 1 ≤ q → holds hash w1.2 q m ↔ holds hash w2.2 q m.
Proof.
  assert (∀ src, src ∈ peers i 3 ↔ is_node src ∧ src ≠ i) as Hpeers.
  { intros src. rewrite elem_of_peers. unfold is_node. lia. }
  pose proof (recv_round_steps hash rdtsc cfg Hcfg V0 fuel c h i w batch Hr Hno Hi Hem Hw) as H1.
  destruct (recv_round _ _ _ fuel batch w) as [[p batch1] w1].
  destruct H1 as (c1&Hrun1&Hrc1&Hem1&Hsee1&Hq1). specialize (Hq1 Hfuel).
  destruct (source_rounds_drain hash rdtsc cfg Hcfg V0 order c h i w batches Hr Hno Hi)
    as (c2&Hrun2&Hrc2&Hem2&Hsee2&Hq2); [by intros src ?%Horder%Hpeers|done|done| |].
  { intros src q Hs Hne. by apply Hrounds, Hpeers. }
  split; [|split].
  - exists c1. do 3 (split; [done|]). intros src [? ?]%Hpeers. rewrite (proj2 Hsee1). by apply Hq1.
  - exists c2. do 3 (split; [done|]). intros src [? ?]%Hpeers. rewrite (proj2 Hsee2). by apply Hq2.
  - rewrite <- (proj1 Hsee1), <- (proj1 Hsee2). by apply (received_alike hash rdtsc cfg Hcfg V0 c h).
Qed.

End Properties.

(** ** Concrete runs *)
Module Examples.
Import Agreement.Schedule Agreement.Examples KVStore.Examples.

#[local] Existing Instance rep.
#[local] Existing Instance rep_laws.

Abbreviation start := (c0, (fun _ => []) : History).

(** Only the channels between the nodes are used. *)
Definition clean (c : Cluster SpscRing KVStore) : Prop :=
  ∀ p, p ∉ node_pairs → chans c p = empty_ring ∧ inbox c p = [].

Lemma clean_step c h c' l : reach length_hash clock cfg V0 c h → no_overflow h → clean c →
  step length_hash clock cfg c l c' → clean c'.
Proof.
  intros Hr Hno Hclean Hs p Hp. destruct (Hclean p Hp) as [Hch Hib].
  assert (∀ i j, is_node i → is_node j → (i, j) ≠ p) as Hne.
  { intros i j Hi Hj <-. apply Hp. by apply elem_of_node_pairs. }
  destruct (reach_inv length_hash clock cfg cfg_ok V0 c h Hr Hno) as [n Hc].
  destruct Hs as [| | |i noop msgs peer to chunks Hi Ht| | | | | | |i j|i j]; cbn; rewrite ?fn_lookup_insert_ne by auto; try done.
  rewrite fn_lookup_insert_ne; [done|]. apply Hne; [done|].
  pose proof (nd_thread _ _ _ _ (ci_node _ _ _ _ _ _ Hc i Hi)) as Hth. rewrite Ht in Hth.
  destruct Hth as (_&_&_&_&Hto&_). by destruct (Hto peer ltac:(left)).
Qed.

Lemma run_csteps acts c h c' h' : run length_hash clock cfg acts c h = Some (c', h') →
  rtc (cstep length_hash clock cfg) (c, h) (c', h').
Proof.
  revert c h. induction acts as [|a acts IH]; intros c h Hrun; cbn in Hrun; [by simplify_eq|].
  destruct (act length_hash clock cfg a c) as [[l c1]|] eqn:Ha; [|done].
  apply (rtc_l _ _ (c1, issue l h)); [|by apply IH]. exists l. split; [by eapply act_step|done].
Qed.

Lemma clean_runs y : rtc (cstep length_hash clock cfg) start y →
  no_overflow y.2 → reach length_hash clock cfg V0 y.1 y.2 ∧ clean y.1.
Proof.
  revert y. apply (rtc_ind_r (λ y, no_overflow y.2 → reach length_hash clock cfg V0 y.1 y.2 ∧ clean y.1));
    [intros Hno|intros y z _ [l [Hs Hl]] IH Hno].
  - split; [apply reach_init, c0_initial|]. by intros p _.
  - rewrite Hl in *. destruct (IH (no_overflow_issue _ _ Hno)) as [Hr Hclean].
    split; [by eapply reach_step|]. eapply (clean_step y.1 y.2); [done|by eapply no_overflow_issue|done|exact Hs].
Qed.

(** What node [i] works on in a state of the run. *)
Definition world_of (c : Cluster SpscRing KVStore) (i : Z) : World (S := KVStore) :=
  (list_to_map ((λ p, (p, chans c p)) <$> node_pairs), nodes c i).

Lemma sees_world c i : clean c → sees c i (world_of c i).
Proof.
  intros Hclean. split; [done|]. intros f t. unfold ring, world_of. cbn [fst].
  destruct (decide ((f, t) ∈ node_pairs)) as [Hin|Hout].
  - erewrite (elem_of_list_to_map_1 _ (f, t)); [done| |].
    + rewrite <- list_fmap_compose. apply NoDup_fmap_2; [by intros ? ?|]. apply (bool_decide_unpack _). by vm_compute.
    + apply list_elem_of_fmap. by exists (f, t).
  - destruct (Hclean _ Hout) as [Hch _]. rewrite Hch. destruct (_ !! _) as [r|] eqn:Hr; [|done].
    apply elem_of_list_to_map_2, list_elem_of_fmap in Hr as (p&[= <- _]&Hp). done.
Qed.

Lemma result_clean acts : runs acts = true → no_overflow (result acts).2 → clean (result acts).1.
Proof.
  unfold runs, result. destruct (Schedule.run _ _ _ _ _ _) as [[c h]|] eqn:Hrun; [|done]. intros _ Hno.
  apply (clean_runs (c, h)); [by eapply run_csteps|exact Hno].
Qed.

Lemma half_clean : clean half.1.
Proof. exact (result_clean halfway halfway_runs halfway_small). Qed.

(** Node 3 has five messages in its rings; its batches are empty. *)
Lemma half_emptied : emptied 3 half.1.
Proof.
  intros f. destruct (decide ((f, 3) ∈ node_pairs)) as [Hin|Hout]; [|by apply half_clean].
  apply elem_of_node_pairs in Hin as [Hf _]. unfold is_node in Hf.
  assert (f = 1 ∨ f = 2 ∨ f = 3) as [-> |[-> | ->]] by lia; by vm_compute.
Qed.

(** Rounds of the two threads of node 3: four each, in turns. *)
Definition turns : list Z := [2; 1; 1; 2; 2; 1; 1; 2].

(** The rings to node 3 hold at most four messages each. *)
Lemma half_rounds src q : src ∈ peers 3 3 → bandle_queue (ring (world_of half.1 3).1 src 3) q →
  (length q ≤ count_occ Z.eq_dec turns src)%nat.
Proof.
  intros Hin [Ha _]%queue_avail. rewrite elem_of_peers in Hin.
  assert (src = 1 ∨ src = 2) as [-> | ->] by lia.
  all: match type of Ha with ?l = _ => let v := eval vm_compute in l in change l with v in Ha end; vm_compute (count_occ _ _ _); lia.
Qed.

Example receive_modes_agree_witness :
  let '(_, _, w1) := recv_round length_hash (clock 3) (cfg 3) (Z.to_nat kMaxUnderWay) [] (world_of half.1 3) in
  let w2 := source_rounds length_hash clock cfg 3 turns (fun _ => []) (world_of half.1 3) in
  execute_next_ w1.2 = execute_next_ w2.2 ∧ store_view (kv_ w1.2) = store_view (kv_ w2.2).
Proof.
  assert (∀ src, src ∈ turns → src ∈ peers 3 3) as Horder.
  { intros src Hin. rewrite elem_of_peers. unfold turns in Hin. rewrite !elem_of_cons, elem_of_nil in Hin. lia. }
  pose proof (receive_modes_agree length_hash clock cfg V0 half.1 half.2 3 (Z.to_nat kMaxUnderWay) []
    turns (fun _ => []) (world_of half.1 3) cfg_ok (result_reach halfway halfway_runs)
    halfway_small node3 half_emptied (sees_world half.1 3 half_clean) ltac:(by rewrite Z2Nat.id) Horder half_rounds) as H.
  destruct (recv_round _ _ _ _ _ _) as [[p batch] w1]. destruct H as (_&_&He&Hs&_). by split.
Defined.

Example source_rounds_execute :
  execute_next_ (source_rounds length_hash clock cfg 3 turns (fun _ => []) (world_of half.1 3)).2 = 6.
Proof. by vm_compute. Qed.

Lemma start_clean : clean c0.
Proof. by intros p _. Qed.

(** Node 1 submits two writes from the initial state. *)
Definition writes : list BorrowedRequest := [req "P" (str "k") (str "one"); req "P" (str "gone") (str "x")].

Example submit_refines_steps_witness :
  ∃ w' c' h', submit_borrowed_batch length_hash (clock 1) (cfg 1) true (Some writes) [] (world_of c0 1) = Some w' ∧
    rtc (cstep length_hash clock cfg) start (c', h') ∧ threads c' 1 = TIdle ∧ sees c' 1 w' ∧ execute_next_ (nodes c' 1) = 2.
Proof.
  destruct (submit_refines_steps length_hash clock cfg V0 c0 (fun _ => []) 1 (Some writes) [] (world_of c0 1) cfg_ok
    (reach_init _ _ _ _ _ c0_initial) node1 eq_refl eq_refl ltac:(constructor)) as (c'&h'&Hrun&_&Hres).
  - refine (bool_decide_unpack _ _). by vm_compute.
  - intros i _. cbn. lia.
  - apply sees_world, start_clean.
  - destruct (submit_borrowed_batch _ _ _ _ _ _ _) as [w'|] eqn:Hw; [|by vm_compute in Hw].
    destruct Hres as [Ht Hsee]. exists w', c', h'. split; [done|]. split; [done|]. split; [done|]. split; [done|].
    destruct Hsee as [-> _]. vm_compute in Hw. injection Hw as <-. done.
Defined.

Example proposer_round_refines_steps_witness :
  let c := (result [InputDone 3]).1 in
  ∃ w' c' h', proposer_round length_hash (clock 3) (cfg 3) (fun _ => true) false 5000 5000 (world_of c 3) = Some w' ∧
    rtc (cstep length_hash clock cfg) (c, fun _ => []) (c', h') ∧ own_steps 3 c c' ∧ threads c' 3 = TIdle ∧ sees c' 3 w'.
Proof.
  intros c. apply (proposer_round_refines_steps length_hash clock cfg V0 c (result [InputDone 3]).2 3 false 5000 5000
    (world_of c 3) cfg_ok (result_reach [InputDone 3] eq_refl) node3).
  - by vm_compute.
  - done.
  - apply sees_world, (result_clean [InputDone 3] eq_refl). done.
Defined.

End Examples.
