(* ===== verification/Overrun.v ===== *)
(** Why the bound on the admission window is needed: the constructor of
    [src/bandle.cpp] accepts a window wider than the log, and then a replica
    can number a proposal of its own while an older position with the same cell
    is still waiting there.  The run below shows it from any initial state: node
    3 has received the write at position 2 and waits for position 1; it submits
    reads, and the one at position 65538 takes the cell of position 2. *)
From stdpp Require Import functions relations.
From S2P Require Import Prelude Histogram KVStore Message Ring Transport NodeState Bandle Execute Handlers Replica Submit Cluster Agreement Progress Loops.

(** The driver's default options but for the window. *)
Definition wide (i : Z) : Config := {|
  node_id_ := i; cluster_size_ := 3; quorum_ := 2; noop_interval_us_ := 1; batch_size_ := 32;
  admission_window_ := 70000; admission_batch_ := 32 |}.

Lemma wide_is_made i : is_node i → make_config i 3 1 32 70000 32 = Some (wide i).
Proof.
  unfold is_node. intros. assert (i = 1 ∨ i = 2 ∨ i = 3) as [-> |[-> | ->]] by lia; done.
Qed.

Section Overrun.
Context {S : Type} `{Store : ReplicaStore S}.
Context (hash : bytes → Z) `{!ReplicaStoreLaws hash S}.
Context (rdtsc : Z → nat → Z) (V0 : MapType).
Implicit Types (c : Cluster SpscRing S) (h : History) (s : Node S).

Abbreviation run := (rtc (cstep hash rdtsc wide)).

(** ** A replica that waits for position 1 *)

(** It has executed nothing, and its log names only positions below [b]. *)
Record waiting (b : Z) s : Prop := {
  wt_input : input_done_ s = false;
  wt_exec : execute_next_ s = 1;
  wt_first : le_seq (log_at s (slot_of 1)) ≠ 1;
  wt_cells slot : le_seq (log_at s slot) < b
}.

Lemma waiting_le b b' s : b ≤ b' → waiting b s → waiting b' s.
Proof. intros Hb [? ? ? Hc]. split; try done. intros slot. specialize (Hc slot). lia. Qed.

Lemma waiting_frame b s s' : same_replica s s' → input_done_ s' = input_done_ s → waiting b s → waiting b s'.
Proof.
  intros [Hl _ He _] Hin [? ? ? ?]. split; unfold log_at in *; rewrite ?Hl, ?He, ?Hin; done.
Qed.

(** A later proposal is stored, and nothing is executed. *)
Lemma waiting_handled rd g b s m : proposal_ok m → waiting b s → b ≤ p_seq (m_body m) →
  slot_of (p_seq (m_body m)) ≠ slot_of 1 →
  let s' := advance_execute_locked hash rd g (handle_proposal_locked hash rd g m false s) in
  waiting (p_seq (m_body m) + 1) s' ∧ next_seq_ s' = next_seq_ s ∧ holds hash s' (p_seq (m_body m)) m.
Proof.
  intros Hok [Hin He Hf Hc] Hb Hslot. set (q := p_seq (m_body m)) in *.
  assert (unknown s q) as Hun by (left; specialize (Hc (slot_of q)); lia).
  destruct (deliver_fresh hash rd g s m Hok Hun) as (Hh&Hrest&[He1 Hn1 _ Hin1 _]). fold q in Hh, Hrest.
  set (s1 := handle_proposal_locked hash rd g m false s) in *. cbv zeta.
  destruct (Hrest (slot_of 1)) as [Hl1 _]; [done|].
  rewrite advance_waiting.
  2:{ unfold executable, ready. rewrite He1, He, Hl1, (proj2 (Z.eqb_neq _ _) Hf). done. }
  split; [|done]. split; rewrite ?Hin1, ?He1, ?Hl1; try done.
  intros slot. destruct (decide (slot = slot_of q)) as [->|Hne]; [rewrite (holds_seq _ _ _ _ Hh); lia|].
  rewrite (proj1 (Hrest slot Hne)). specialize (Hc slot). lia.
Qed.

(** ** A thread that broadcasts *)

(** The peers have room: the messages are appended to their rings. *)
Lemma send_all to : ∀ c h i msgs chunks, is_node i → threads c i = TSend false msgs to chunks → NoDup to →
  Forall msg_fits msgs → msgs ≠ [] → Z.of_nat (length msgs) < 2 ^ 63 →
  (∀ p, p ∈ to → ∃ q, bandle_queue (chans c (i, p)) q ∧ Z.of_nat (length q + length msgs) ≤ kBandleRingCapacity) →
  ∃ c', run (c, h) (c', h) ∧ threads c' i = TSend false msgs [] chunks ∧ nodes c' = nodes c ∧ own_steps i c c' ∧
    (∀ p, p ∉ to → chans c' (i, p) = chans c (i, p)) ∧
    ∀ p q, p ∈ to → bandle_queue (chans c (i, p)) q → bandle_queue (chans c' (i, p)) (q ++ (wire <$> msgs)).
Proof.
  induction to as [|p to IH]; intros c h i msgs chunks Hi Ht Hnd Hfit Hne Hlen Hroom.
  { exists c. do 5 (split; [done|]). by intros p q Hp%not_elem_of_nil. }
  apply NoDup_cons in Hnd as [Hp Hnd]. destruct (Hroom p ltac:(left)) as (q0&Hq0&Hr0).
  pose proof (ch_ready_law _ q0 (length msgs) Hq0 Hr0) as Hready.
  set (c1 := {| nodes := nodes c; threads := <[i := TSend false msgs to chunks]> (threads c);
    chans := <[(i, p) := ch_append msgs (chans c (i, p))]> (chans c); inbox := inbox c |}).
  assert (∀ p', p' ≠ p → chans c1 (i, p') = chans c (i, p')) as Hother
    by (intros p' Hp'; cbn; by rewrite fn_lookup_insert_ne by congruence).
  destruct (IH c1 h i msgs chunks Hi) as (c'&Hrun&Ht'&Hn'&Hown&Hsame&Hin); try done.
  - cbn. by rewrite fn_lookup_insert.
  - intros p' Hp'. rewrite Hother by (intros ->; done). apply Hroom. by right.
  - exists c'. split; [|split; [done|split; [done|split; [|split]]]].
    + apply (rtc_l _ _ (c1, h)); [|done]. exists None. split; [|done]. by apply (step_send hash rdtsc wide c i false).
    + transitivity c1; [|done]. split; intros; cbn; rewrite ?fn_lookup_insert_ne; (done || congruence).
    + intros p' [Hpp Hpt]%not_elem_of_cons. by rewrite Hsame, Hother.
    + intros p' q [->|Hp']%elem_of_cons Hq.
      * rewrite Hsame by done. cbn. rewrite fn_lookup_insert. exact (ch_append_law (chans c (i, p)) q msgs Hq Hfit Hne Hlen Hready).
      * apply Hin; [done|]. rewrite Hother by (intros ->; done). done.
Qed.

(** ** One request submitted *)

(** The queues to the peers of node [i] hold [k] messages. *)
Definition queued i (k : nat) c : Prop :=
  ∀ p, is_node p → p ≠ i → ∃ q, bandle_queue (chans c (i, p)) q ∧ length q = k.

(** The proposal of a valid request: the only one of its batch, admitted by the
    wide window. *)
Lemma admit_wide i k s req : is_node i → waiting (seq_at i k) s → next_seq_ s = seq_at i k → seq_at i k ≤ 65538 →
  valid_lengths req → bool_decide (br_op req = "G"%char) || is_write_op (br_op req) = true →
  let m0 := prepare_proposal (wide i) default_message req in
  prepare_proposals (wide i) [req] [] s = ([m0], s) ∧ submit_chunks (wide i) [m0] = [[m0]] ∧
  ∃ s' m, admit_chunk (rdtsc i) (wide i) [m0] s = Some (s', [m]) ∧ same_request m m0 ∧ sendable m ∧
    p_seq (m_body m) = seq_at i k ∧ waiting (seq_at i k) s' ∧ next_seq_ s' = seq_at i (1 + k).
Proof.
  intros Hi Hw Hn Hk Hv Hop m0. unfold is_node in Hi.
  assert (prepare_proposals (wide i) [req] [] s = ([m0], s)) as Hp by (cbn [prepare_proposals]; by rewrite Hop).
  pose proof (prepare_all (wide i) [req] [] s ltac:(constructor) ltac:(by constructor)) as Hall.
  rewrite Hp in Hall. destruct Hall as ([Hsend _]%Forall_cons&_).
  split; [done|]. split; [done|].
  pose proof (admission_numbers_chunk (rdtsc i) (wide i) [m0] s eq_refl ltac:(cbn; lia) ltac:(cbn; lia)
    ltac:(unfold seq_at in *; lia) ltac:(rewrite (wt_exec _ _ Hw); lia) ltac:(cbn; lia)) as Ha.
  cbv zeta in Ha. destruct (admit_chunk (rdtsc i) (wide i) [m0] s) as [[s' ms]|] eqn:Hadm.
  2:{ rewrite (wt_exec _ _ Hw), Hn in Ha. cbn in Ha. lia. }
  destruct (assign_chunk (rdtsc i) (wide i) s [m0]) as [s2 ms2] eqn:Has.
  unfold admit_chunk in Hadm. rewrite Has in Hadm. case_match; [|done]. injection Hadm as -> ->.
  pose proof (assign_chunk_spec (rdtsc i) (wide i) eq_refl [m0] s ltac:(unfold seq_at in *; lia)
    ltac:(cbn [length]; unfold seq_at in *; lia)) as Hs.
  rewrite Has in Hs. destruct Hs as (Hl&Hms&Hsame&Hnext&Hin&_).
  destruct ms as [|m [|]]; try done. destruct (Hms O m eq_refl) as (m1&[= <-]&Hreq&Hq).
  exists s', m. split; [reflexivity|]. split; [done|]. split; [by apply (same_request_sendable m m0)|].
  split; [rewrite Hq, Hn; lia|]. split.
  - by apply (waiting_frame _ s).
  - rewrite Hnext, Hn. cbn [length]. unfold seq_at. lia.
Qed.

(** The thread of node [i] submits a request: it is numbered, sent to both peers
    and stored. *)
Lemma submit_round c h i k req : is_node i → threads c i = TIdle → waiting (seq_at i k) (nodes c i) →
  next_seq_ (nodes c i) = seq_at i k → seq_at i k ≤ 65538 → slot_of (seq_at i k) ≠ slot_of 1 →
  valid_lengths req → bool_decide (br_op req = "G"%char) || is_write_op (br_op req) = true → queued i k c →
  ∃ c' m, run (c, h) (c', <[i := h i ++ [wire m]]> h) ∧ own_steps i c c' ∧ threads c' i = TIdle ∧
    waiting (seq_at i (1 + k)) (nodes c' i) ∧ next_seq_ (nodes c' i) = seq_at i (1 + k) ∧
    holds hash (nodes c' i) (seq_at i k) m ∧
    same_request m (prepare_proposal (wide i) default_message req) ∧ sendable m ∧ p_seq (m_body m) = seq_at i k ∧
    ∀ p q, is_node p → p ≠ i → bandle_queue (chans c (i, p)) q → bandle_queue (chans c' (i, p)) (q ++ [wire m]).
Proof.
  intros Hi Ht Hw Hn Hk Hslot Hv Hop Hq.
  destruct (admit_wide i k (nodes c i) req Hi Hw Hn Hk Hv Hop) as (Hprep&Hchunks&s1&m&Hadm&Hreq&Hsend&Hseq&Hw1&Hn1).
  set (m0 := prepare_proposal (wide i) default_message req) in *.
  set (c1 := set_node i (nodes c i) (TAdmit [[m0]]) c).
  set (c2 := set_node i s1 (TSend false [m] (peers i 3) []) c1).
  set (h2 := <[i := h i ++ [wire m]]> h).
  assert (cstep hash rdtsc wide (c, h) (c1, h)) as H1.
  { exists None. split; [|done]. unfold c1. rewrite <- Hchunks. apply (step_submit hash rdtsc wide c i [req] []); try done.
    - apply (wt_input _ _ Hw).
    - by constructor. }
  assert (cstep hash rdtsc wide (c1, h) (c2, h2)) as H2.
  { exists (Some (i, [m])). split; [|done]. apply (step_admit hash rdtsc wide c1 i [m0]); cbn; rewrite ?fn_lookup_insert; done. }
  assert (∀ p, p ∈ peers i 3 → is_node p ∧ p ≠ i) as Hpeers.
  { intros p. rewrite elem_of_peers. unfold is_node. lia. }
  destruct (send_all (peers i 3) c2 h2 i [m] []) as (c3&Hrun3&Ht3&Hn3&Hown3&_&Hq3).
  { done. } { cbn. by rewrite fn_lookup_insert. } { apply NoDup_peers. } { apply Forall_singleton, Hsend. } { done. }
  { cbn. lia. }
  { intros p [Hp1 Hp2]%Hpeers. destruct (Hq p Hp1 Hp2) as (q&Hqq&Hl). exists q. split; [done|].
    cbn [length]. unfold kBandleRingCapacity, seq_at, is_node in *. lia. }
  assert (nodes c3 i = s1) as Hs3 by (rewrite Hn3; cbn; by rewrite fn_lookup_insert).
  set (s4 := self_deliver hash (rdtsc i) (wide i) [m] s1).
  destruct (waiting_handled (rdtsc i) (wide i) _ s1 m (proj1 Hsend) Hw1) as (Hw4&Hn4&Hh4); [lia|by rewrite Hseq|].
  change (advance_execute_locked _ _ _ _) with s4 in Hw4, Hn4, Hh4.
  set (c4 := set_node i s4 (TAdmit []) c3). set (c5 := set_node i s4 TIdle c4).
  assert (run (c3, h2) (c5, h2)) as H4.
  { apply (rtc_l _ _ (c4, h2)).
    - exists None. split; [|done]. unfold c4, s4. rewrite <- Hs3. by apply step_self.
    - apply rtc_once. exists None. split; [|done].
      pose proof (step_return hash rdtsc wide c4 i Hi ltac:(cbn; by rewrite fn_lookup_insert)) as Hret.
      replace (nodes c4 i) with s4 in Hret; [done|]. cbn. by rewrite fn_lookup_insert. }
  assert (nodes c5 i = s4) as Hs5 by (cbn; by rewrite fn_lookup_insert).
  exists c5, m. split; [|split; [|split; [cbn; by rewrite fn_lookup_insert|rewrite Hs5]]].
  - apply (rtc_l _ _ (c1, h)); [done|]. apply (rtc_l _ _ (c2, h2)); [done|]. by etransitivity.
  - transitivity c1; [apply own_set_node|]. transitivity c2; [apply own_set_node|].
    transitivity c3; [done|]. transitivity c4; apply own_set_node.
  - rewrite Hseq in Hw4, Hh4. split; [eapply waiting_le; [|exact Hw4]; unfold seq_at; lia|].
    split; [by rewrite Hn4|]. split; [done|]. split; [done|]. split; [done|]. split; [done|].
    intros p q Hp1 Hp2 Hqq. apply (Hq3 p q); [|exact Hqq]. rewrite elem_of_peers. unfold is_node in Hp1. lia.
Qed.

(** Requests of one kind, [n] of them, by node [i]. *)
Lemma submit_rounds c h i req (n : nat) : is_node i → threads c i = TIdle → waiting (seq_at i 0) (nodes c i) →
  next_seq_ (nodes c i) = seq_at i 0 → valid_lengths req →
  bool_decide (br_op req = "G"%char) || is_write_op (br_op req) = true → queued i 0 c →
  (∀ k : nat, (k < n)%nat → seq_at i k ≤ 65538 ∧ slot_of (seq_at i k) ≠ slot_of 1) →
  ∃ c' h', run (c, h) (c', h') ∧ own_steps i c c' ∧ threads c' i = TIdle ∧
    waiting (seq_at i n) (nodes c' i) ∧ next_seq_ (nodes c' i) = seq_at i n ∧ queued i n c' ∧
    (∀ j, j ≠ i → h' j = h j) ∧ length (h' i) = (length (h i) + n)%nat ∧
    ∀ k, n = (1 + k)%nat → le_seq (log_at (nodes c' i) (slot_of (seq_at i k))) = seq_at i k.
Proof.
  intros Hi Ht Hw Hn Hv Hop Hq. induction n as [|n IH]; intros Hpos.
  { exists c, h. do 7 (split; [done|]). split; [lia|done]. }
  destruct IH as (c1&h1&Hrun1&Hown1&Ht1&Hw1&Hn1&Hq1&Hh1&Hl1&_); [intros k Hk; apply Hpos; lia|].
  destruct (Hpos n) as [Hb Hs]; [lia|].
  destruct (submit_round c1 h1 i n req) as (c2&m&Hrun2&Hown2&Ht2&Hw2&Hn2&Hh2&_&_&_&Hq2); try done.
  exists c2, (<[i := h1 i ++ [wire m]]> h1). split; [by etransitivity|]. split; [by transitivity c1|].
  do 3 (split; [done|]). split; [|split; [|split]].
  - intros p Hp Hne. destruct (Hq1 p Hp Hne) as (q&Hqq&Hl). exists (q ++ [wire m]). split; [by apply Hq2|].
    rewrite length_app. cbn. lia.
  - intros j Hj. rewrite fn_lookup_insert_ne by done. by apply Hh1.
  - rewrite fn_lookup_insert, length_app, Hl1. cbn. lia.
  - intros k [= <-]. apply (holds_seq _ _ _ _ Hh2).
Qed.

(** ** One proposal received *)
Lemma receive_one c h i j m (b := p_seq (m_body m)) : is_node i → is_node j → i ≠ j → inbox c (i, j) = [] →
  bandle_queue (chans c (i, j)) [wire m] → proposal_ok m → slot_of b ≠ slot_of 1 → waiting b (nodes c j) →
  ∃ c', run (c, h) (c', h) ∧ (∀ p, p ≠ j → nodes c' p = nodes c p) ∧ threads c' = threads c ∧ inbox c' (i, j) = [] ∧
    bandle_queue (chans c' (i, j)) [] ∧ (∀ f t, f ≠ i → chans c' (f, t) = chans c (f, t)) ∧
    waiting (b + 1) (nodes c' j) ∧ next_seq_ (nodes c' j) = next_seq_ (nodes c j) ∧ holds hash (nodes c' j) b m.
Proof.
  intros Hi Hj Hij Hib Hq Hok Hslot Hw.
  destruct (ch_drain (batch_size_ (wide j)) (chans c (i, j))) as [[ms r]|] eqn:Hd.
  2:{ by pose proof (ch_drain_none (ChannelLaws := ring_channel_laws) (chans c (i, j)) [wire m] _ Hq Hd). }
  pose proof (ch_drain_takes _ _ _ _ Hd) as Htakes.
  destruct (ch_takes_front (ChannelLaws := ring_channel_laws) (chans c (i, j)) [wire m] _ _ _ Hq Htakes) as (q'&Hne&Hwire&Hq').
  destruct ms as [|m1 [|m2 ms]]; [done| |by destruct q'].
  cbn [fmap list_fmap app] in Hwire. apply (inj2 cons) in Hwire as [Hm <-].
  set (c1 := {| nodes := nodes c; threads := threads c; chans := <[(i, j) := r]> (chans c);
    inbox := <[(i, j) := [m1]]> (inbox c) |} : Cluster SpscRing S).
  set (s := handle_chunk hash (rdtsc j) (wide j) [m1] (nodes c j)).
  set (c2 := {| nodes := <[j := s]> (nodes c1); threads := threads c1; chans := chans c1;
    inbox := <[(i, j) := []]> (inbox c1) |} : Cluster SpscRing S).
  assert (cstep hash rdtsc wide (c, h) (c1, h)) as H1 by (exists None; split; [by apply step_drain|done]).
  assert (cstep hash rdtsc wide (c1, h) (c2, h)) as H2.
  { exists None. split; [|done]. assert (inbox c1 (i, j) = [m1]) as Hm1 by (cbn; by rewrite fn_lookup_insert).
    pose proof (step_handle hash rdtsc wide c1 i j Hi Hj Hij ltac:(by rewrite Hm1)) as Hs. by rewrite Hm1 in Hs. }
  assert (s = advance_execute_locked hash (rdtsc j) (wide j)
    (handle_proposal_locked hash (rdtsc j) (wide j) m false (nodes c j))) as Hs.
  { unfold s. rewrite (handle_chunk_wire hash _ _ [m1] [m]) by (cbn; by rewrite Hm).
    unfold handle_chunk. cbn [foldl existsb]. unfold handle_one. by rewrite (pok_type m Hok). }
  destruct (waiting_handled (rdtsc j) (wide j) b (nodes c j) m Hok Hw) as (Hw2&Hn2&Hh2); [done|done|].
  rewrite <- Hs in Hw2, Hn2, Hh2.
  assert (nodes c2 j = s) as Hsj by (cbn; by rewrite fn_lookup_insert).
  exists c2. rewrite Hsj. split; [by eapply rtc_l; [|apply rtc_once]|]. split; [|split; [done|split; [|split; [|split]]]].
  - intros p Hp. cbn. by rewrite fn_lookup_insert_ne.
  - cbn. by rewrite fn_lookup_insert.
  - cbn. rewrite fn_lookup_insert. exact Hq'.
  - intros f t Hf. cbn. rewrite fn_lookup_insert_ne by congruence. done.
  - by split.
Qed.

(** A node that has just started waits for position 1. *)
Lemma initial_waiting c i : initial wide V0 c → is_node i → waiting 1 (nodes c i) ∧
  next_seq_ (nodes c i) = seq_at i 0 ∧ queued i 0 c.
Proof.
  intros Hinit Hi. destruct (init_node _ _ _ Hinit i Hi) as (kv&now&->&_). unfold is_node in Hi.
  split; [|split; [cbn; unfold seq_at; lia|]].
  - by split.
  - intros p Hp Hne. exists []. rewrite (init_chan _ _ _ Hinit) by done. split; [|done].
    apply (ch_new_law (ChannelLaws := ring_channel_laws)).
Qed.

(** Node 2 submits a write, and node 3 receives it. *)
Lemma one_received c0 put : initial wide V0 c0 → is_write_op (br_op put) = true → valid_lengths put →
  ∃ c m, run (c0, fun _ => []) (c, <[2 := [m]]> (fun _ => [])) ∧
    message_ops hash m = message_ops hash (prepare_proposal (wide 2) default_message put) ∧
    waiting (seq_at 3 0) (nodes c 3) ∧ next_seq_ (nodes c 3) = seq_at 3 0 ∧ holds hash (nodes c 3) 2 m ∧
    queued 3 0 c ∧ threads c 3 = TIdle ∧ inbox c (2, 3) = [] ∧ bandle_queue (chans c (2, 3)) [] ∧ threads c 2 = TIdle.
Proof.
  intros Hinit Hput Hv. assert (is_node 2 ∧ is_node 3) as [H2 H3] by (unfold is_node; lia).
  destruct (initial_waiting c0 2 Hinit H2) as (Hw2&Hn2&Hq2).
  destruct (initial_waiting c0 3 Hinit H3) as (Hw3&Hn3&Hq3).
  destruct (submit_round c0 (fun _ => []) 2 0 put)
    as (c1&m&Hrun1&Hown1&Ht1&_&_&_&Hreq&[Hok Hfit]&Hseq&Hq1); try done; [by apply (init_thread _ _ _ Hinit)|by eapply waiting_le; [|exact Hw2]| |].
  { by rewrite Hput, orb_true_r. }
  set (h1 := <[2 := [] ++ [wire m]]> (fun _ => []) : History) in *. change (seq_at 2 0) with 2 in Hseq.
  assert (bandle_queue (chans c1 (2, 3)) [wire m]) as Hq23.
  { apply (Hq1 3 []); try done. rewrite (init_chan _ _ _ Hinit) by done. apply (ch_new_law (ChannelLaws := ring_channel_laws)). }
  destruct (receive_one c1 h1 2 3 m) as (c2&Hrun2&Hn'&Ht2&Hib2&Hq2'&Hch2&Hw'&Hnext&Hh); try done.
  { rewrite (os_inbox _ _ _ Hown1). by apply (init_inbox _ _ _ Hinit). }
  { by rewrite Hseq. }
  { rewrite Hseq, (os_nodes _ _ _ Hown1) by done. by eapply waiting_le; [|exact Hw3]. }
  rewrite Hseq in Hw', Hh. exists c2, (wire m). split; [by etransitivity|].
  split; [by rewrite message_ops_wire, (same_request_ops _ _ _ Hreq)|].
  split; [done|]. split; [by rewrite Hnext, (os_nodes _ _ _ Hown1)|]. split; [by apply holds_wire|].
  split; [|rewrite Ht2, (os_threads _ _ _ Hown1) by done; split; [by apply (init_thread _ _ _ Hinit)|done]].
  intros p Hp Hne. rewrite Hch2, (os_chans _ _ _ Hown1) by done. by apply Hq3.
Qed.

End Overrun.

(** The positions of node 3 up to 65538 do not share the cell of position 1. *)
Lemma third_positions (k : nat) : (k < Z.to_nat 21846)%nat → seq_at 3 k ≤ 65538 ∧ slot_of (seq_at 3 k) ≠ slot_of 1.
Proof.
  intros Hk. rewrite !slot_of_mod. unfold seq_at. split; [lia|]. Z.div_mod_to_equations. lia.
Qed.

(** ** Property *)

(** C40: the bound on the admission window that the correctness of the log needs
    is not checked.  The constructor accepts a window of 70000, and with it, from
    any initial state, the cluster reaches a state in which the log of node 3
    holds the write [put] that node 2 has issued as position 2, and from there,
    while only the submitting thread of node 3 acts, a state in which this
    replica has not executed position 2, no longer has it in its log, and will
    not be given it again: nothing of node 2 is in its batch or in the ring, and
    node 2 has nothing left to send. *)
Theorem wide_window_loses_proposal {S : Type} `{Store : ReplicaStore S} (hash : bytes → Z)
    `{!ReplicaStoreLaws hash S} (rdtsc : Z → nat → Z) (V0 : MapType) (put get : BorrowedRequest)
    (c0 : Cluster SpscRing S) (Hinit : initial wide V0 c0)
    (Hput : is_write_op (br_op put) = true) (Hput' : valid_lengths put)
    (Hget : br_op get = "G"%char) (Hget' : valid_lengths get) :
  (∀ i, is_node i → make_config i 3 1 32 70000 32 = Some (wide i)) ∧
  ∃ c1 h1 c h m,
    reach hash rdtsc wide V0 c1 h1 ∧ holds hash (nodes c1 3) 2 m ∧
    rtc (cstep hash rdtsc wide) (c1, h1) (c, h) ∧ own_steps 3 c1 c ∧ no_overflow h ∧
    h 2 = [m] ∧ message_ops hash m = message_ops hash (prepare_proposal (wide 2) default_message put) ∧
    execute_next_ (nodes c 3) = 1 ∧ ready (nodes c 3) 2 = false ∧
    inbox c (2, 3) = [] ∧ bandle_queue (chans c (2, 3)) [] ∧ threads c 2 = TIdle.
Proof.
  split; [exact wide_is_made|].
  assert (is_node 2 ∧ is_node 3) as [H2 H3] by (unfold is_node; lia).
  destruct (one_received hash rdtsc V0 c0 put Hinit Hput Hput') as (c1&m&Hrun1&Hops&Hw1&Hn1&Hh1&Hq1&Ht1&Hib1&Hch1&Ht2).
  set (h1 := <[2 := [m]]> (fun _ => []) : History) in *.
  destruct (submit_rounds hash rdtsc c1 h1 3 get (Z.to_nat 21846)) as (c&h&Hrun&Hown&_&Hw&_&_&Hh&Hl&Hlast); try done.
  { by rewrite Hget. }
  { apply third_positions. }
  exists c1, h1, c, h, m. split; [by eapply run_reaches; [apply reach_init|]|]. do 3 (split; [done|]).
  split; [|split; [by rewrite Hh by done|split; [done|split; [apply (wt_exec _ _ Hw)|split]]]].
  - intros i Hi. destruct (decide (i = 3)) as [->|Hne]; [rewrite Hl; unfold h1; rewrite fn_lookup_insert_ne by done; cbn [length]; lia|]. rewrite Hh by done.
    unfold h1. destruct (decide (i = 2)) as [->|]; [by rewrite fn_lookup_insert|]. by rewrite fn_lookup_insert_ne.
  - specialize (Hlast (Z.to_nat 21845) ltac:(lia)). unfold ready.
    assert (seq_at 3 (Z.to_nat 21845) = 65538) as Hs by (unfold seq_at; lia). rewrite Hs in Hlast.
    change (slot_of 65538) with (slot_of 2) in Hlast. by rewrite Hlast.
  - rewrite (os_inbox _ _ _ Hown), (os_chans _ _ _ Hown), (os_threads _ _ _ Hown) by done. done.
Qed.

(** ** A concrete initial state *)
Module Examples.
Import KVStore.Examples Agreement.Examples.

#[local] Existing Instance rep.
#[local] Existing Instance rep_laws.

Definition start : Cluster SpscRing KVStore := {|
  nodes i := new_node (wide i) empty_store; threads _ := TIdle; chans _ := empty_ring; inbox _ := [] |}.

Lemma start_initial : initial wide V0 start.
Proof.
  split; try done. intros i Hi. exists empty_store, 0. split; [done|]. split; [|done]. apply empty_store_wf.
Qed.

Example wide_window_loses_proposal_witness :
  ∃ c h m, reach length_hash clock wide V0 c h ∧ h 2 = [m] ∧ execute_next_ (nodes c 3) = 1 ∧ ready (nodes c 3) 2 = false.
Proof.
  destruct (wide_window_loses_proposal length_hash clock V0 (req "P" (str "k") (str "one")) (req "G" (str "k") [])
    start start_initial) as (_&c1&h1&c&h&m&Hr&_&Hrun&_&_&Hm&_&He&Hready&_); [done|by split|done|by split|].
  exists c, h, m. split; [by eapply run_reaches|done].
Defined.

End Examples.
