(* ===== verification/Text.v ===== *)
(** Text: decimal numbers, [std::stoull], [std::stoi], [std::getline] and the
    searches the trace and statistics code uses. *)
From S2P Require Import Prelude.

(** ** Characters *)
Definition code (c : ascii) : Z := Z.of_nat (nat_of_ascii c).
Definition is_digit (c : ascii) : bool := (48 <=? code c) && (code c <=? 57).
Definition digit_value (c : ascii) : Z := code c - 48.
Definition digit_char (d : Z) : ascii := ascii_of_nat (Z.to_nat (d + 48)).
(** [isspace] of the C locale. *)
Definition is_space (c : ascii) : bool := (code c =? 32) || ((9 <=? code c) && (code c <=? 13)).
Definition newline : ascii := ascii_of_nat 10.
Definition carriage_return : ascii := ascii_of_nat 13.

Lemma code_digit_char d : 0 ≤ d < 10 → code (digit_char d) = d + 48.
Proof.
  intros Hd. unfold code, digit_char. rewrite nat_ascii_embedding by lia. lia.
Qed.

Lemma is_digit_char d : 0 ≤ d < 10 → is_digit (digit_char d) = true ∧ digit_value (digit_char d) = d.
Proof.
  intros Hd. unfold is_digit, digit_value. rewrite code_digit_char by done.
  rewrite (proj2 (Z.leb_le 48 _)), (proj2 (Z.leb_le _ 57)) by lia. split; [done|lia].
Qed.

Lemma digit_value_range c : is_digit c = true → 0 ≤ digit_value c < 10.
Proof. unfold is_digit, digit_value. intros [H1%Z.leb_le H2%Z.leb_le]%andb_prop. lia. Qed.

(** ** Decimal numbers *)

(** The number a string of digits denotes. *)
Definition dec_from (v : Z) (ds : bytes) : Z := foldl (fun v c => v * 10 + digit_value c) v ds.
Definition dec_value (ds : bytes) : Z := dec_from 0 ds.

(** [operator<<] of a [uint64_t]: 20 digits are enough. *)
Fixpoint print_digits (fuel : nat) (n : Z) (acc : bytes) : bytes :=
  match fuel with
  | O => acc
  | S fuel' =>
      if n <? 10 then digit_char n :: acc
      else print_digits fuel' (n / 10) (digit_char (n mod 10) :: acc)
  end.

Definition print_u64 (n : Z) : bytes := print_digits 20 n [].

Lemma dec_from_app v l1 l2 : dec_from v (l1 ++ l2) = dec_from (dec_from v l1) l2.
Proof. apply foldl_app. Qed.

Lemma print_digits_spec fuel n acc : 0 ≤ n < 10 ^ Z.of_nat fuel → (0 < fuel)%nat →
  ∃ ds, print_digits fuel n acc = ds ++ acc ∧ ds ≠ [] ∧ forallb is_digit ds = true ∧ dec_value ds = n.
Proof.
  revert n acc. induction fuel as [|fuel IH]; intros n acc Hn Hf; [lia|].
  rewrite Nat2Z.inj_succ, Z.pow_succ_r in Hn by lia. cbn [print_digits].
  destruct (Z.ltb_spec n 10) as [Hs|Hs].
  - destruct (is_digit_char n) as [H1 H2]; [lia|]. exists [digit_char n]. split; [done|].
    split; [done|]. cbn [forallb]. rewrite H1. split; [done|]. unfold dec_value, dec_from. cbn [foldl].
    lia.
  - pose proof (Z.mod_pos_bound n 10 ltac:(lia)). pose proof (Z.div_mod n 10 ltac:(lia)).
    destruct (is_digit_char (n mod 10)) as [H1 H2]; [lia|].
    assert (0 < fuel)%nat by (destruct fuel; [cbn in Hn; lia|lia]).
    destruct (IH (n / 10) (digit_char (n mod 10) :: acc)) as (ds&->&Hne&Hd&Hv); [lia|done|].
    exists (ds ++ [digit_char (n mod 10)]). rewrite <- app_assoc. split; [done|].
    split; [by destruct ds|]. rewrite forallb_app, Hd. cbn [forallb]. rewrite H1. split; [done|].
    unfold dec_value in *. rewrite dec_from_app, Hv. unfold dec_from. cbn [foldl]. lia.
Qed.

Lemma print_u64_spec n : is_u64 n →
  print_u64 n ≠ [] ∧ forallb is_digit (print_u64 n) = true ∧ dec_value (print_u64 n) = n.
Proof.
  intros Hn. unfold is_u64 in Hn.
  destruct (print_digits_spec 20 n []) as (ds&Hp&Hne&Hd&Hv).
  - change (10 ^ Z.of_nat 20) with 100000000000000000000. lia.
  - lia.
  - unfold print_u64. by rewrite Hp, app_nil_r.
Qed.

(** ** [std::stoull] and [std::stoi] (base 10)

    The number and the unread rest; [None] is an exception. *)
Fixpoint drop_spaces (s : bytes) : bytes :=
  match s with
  | c :: s' => if is_space c then drop_spaces s' else s
  | [] => []
  end.

Fixpoint span_digits (s : bytes) : bytes * bytes :=
  match s with
  | c :: s' => if is_digit c then let '(ds, r) := span_digits s' in (c :: ds, r) else ([], s)
  | [] => ([], [])
  end.

(** The optional sign: whether it is a minus, and the rest. *)
Definition split_sign (s : bytes) : bool * bytes :=
  match s with
  | c :: s' => if decide (c = "-"%char) then (true, s')
               else if decide (c = "+"%char) then (false, s') else (false, s)
  | [] => (false, [])
  end.

Definition stoull (s : bytes) : option (Z * bytes) :=
  let '(neg, s) := split_sign (drop_spaces s) in
  let '(ds, rest) := span_digits s in
  match ds with
  | [] => None
  | _ => let v := dec_value ds in
         if v >? UINT64_MAX then None else Some (if neg : bool then w64 (- v) else v, rest)
  end.

Definition stoi (s : bytes) : option (Z * bytes) :=
  let '(neg, s) := split_sign (drop_spaces s) in
  let '(ds, rest) := span_digits s in
  match ds with
  | [] => None
  | _ => let v := if neg : bool then - dec_value ds else dec_value ds in
         if (v <? - 2 ^ 31) || (v >=? 2 ^ 31) then None else Some (v, rest)
  end.

Lemma span_digits_app ds rest : forallb is_digit ds = true →
  match rest with [] => True | c :: _ => is_digit c = false end →
  span_digits (ds ++ rest) = (ds, rest).
Proof.
  intros Hd Hr. induction ds as [|c ds IH]; cbn [app span_digits].
  - destruct rest as [|c r]; [done|]. cbn [span_digits]. by rewrite Hr.
  - cbn [forallb] in Hd. apply andb_prop in Hd as [-> Hd]. by rewrite IH.
Qed.

Lemma digit_not_space c : is_digit c = true → is_space c = false.
Proof.
  unfold is_digit, is_space. intros [H1%Z.leb_le H2%Z.leb_le]%andb_prop.
  rewrite (proj2 (Z.eqb_neq _ _)) by lia. cbn. apply andb_false_intro2. apply Z.leb_gt. lia.
Qed.

Lemma digits_no_prefix ds : forallb is_digit ds = true →
  drop_spaces ds = ds ∧ split_sign ds = (false, ds).
Proof.
  destruct ds as [|c ds]; [done|]. cbn [forallb]. intros [Hc _]%andb_prop. cbn [drop_spaces split_sign].
  rewrite (digit_not_space c Hc). split; [done|].
  rewrite !decide_False; [done| |]; intros ->; done.
Qed.

Lemma stoull_digits ds : ds ≠ [] → forallb is_digit ds = true → dec_value ds ≤ UINT64_MAX →
  stoull ds = Some (dec_value ds, []).
Proof.
  intros Hne Hd Hv. unfold stoull. destruct (digits_no_prefix ds Hd) as [-> ->].
  rewrite <- (app_nil_r ds) at 1. rewrite span_digits_app by done.
  destruct ds as [|c ds]; [done|]. rewrite Z.gtb_ltb, (proj2 (Z.ltb_ge _ _)) by done. done.
Qed.

Lemma span_digits_all s : forallb is_digit (span_digits s).1 = true.
Proof.
  induction s as [|c s IH]; [done|]. cbn [span_digits]. destruct (is_digit c) eqn:Hc; [|done].
  destruct (span_digits s). cbn in *. by rewrite Hc.
Qed.

Lemma dec_from_nonneg v ds : 0 ≤ v → forallb is_digit ds = true → 0 ≤ dec_from v ds.
Proof.
  revert v. induction ds as [|c ds IH]; intros v Hv Hd; [done|]. cbn [forallb] in Hd. apply andb_prop in Hd as [Hc Hd].
  change (dec_from v (c :: ds)) with (dec_from (v * 10 + digit_value c) ds). apply IH; [|done].
  unfold is_digit, digit_value in *. lia.
Qed.

Lemma stoull_range s n rest : stoull s = Some (n, rest) → is_u64 n.
Proof.
  unfold stoull. destruct (split_sign (drop_spaces s)) as [neg s']. pose proof (span_digits_all s') as Hd.
  destruct (span_digits s') as [ds r]. cbn [fst] in Hd. pose proof (dec_from_nonneg 0 ds ltac:(done) Hd) as H0.
  fold (dec_value ds) in H0. destruct ds as [|c ds]; [done|].
  destruct (Z.gtb_spec (dec_value (c :: ds)) UINT64_MAX); [done|]. intros [= <- _].
  destruct neg; [apply w64_range|]. unfold is_u64, UINT64_MAX in *. lia.
Qed.

Lemma stoull_print n : is_u64 n → stoull (print_u64 n) = Some (n, []).
Proof.
  intros Hn. destruct (print_u64_spec n Hn) as (Hne&Hd&Hv). unfold is_u64 in Hn.
  rewrite stoull_digits, Hv; (done || unfold UINT64_MAX; lia).
Qed.

Lemma stoi_print n : 0 ≤ n < 2 ^ 31 → stoi (print_u64 n) = Some (n, []).
Proof.
  intros Hn. destruct (print_u64_spec n ltac:(unfold is_u64; lia)) as (Hne&Hd&Hv).
  unfold stoi. destruct (digits_no_prefix _ Hd) as [-> ->].
  rewrite <- (app_nil_r (print_u64 n)). rewrite span_digits_app by done.
  destruct (print_u64 n) as [|c ds] eqn:Hp; [done|]. rewrite Hv.
  rewrite (proj2 (Z.ltb_ge n _)), Z.geb_leb, (proj2 (Z.leb_gt _ n)) by lia. done.
Qed.

(** ** Searching *)

(** [memchr], [std::string::find]: what precedes the first [c] and what
    follows it. *)
Fixpoint split_at (c : ascii) (s : bytes) : option (bytes * bytes) :=
  match s with
  | [] => None
  | x :: s' => if decide (x = c) then Some ([], s')
               else match split_at c s' with
                    | Some (a, b) => Some (x :: a, b)
                    | None => None
                    end
  end.

Lemma split_at_app c a b : c ∉ a → split_at c (a ++ c :: b) = Some (a, b).
Proof.
  induction a as [|x a IH]; cbn [app split_at]; intros Hc; [by rewrite decide_True|].
  apply not_elem_of_cons in Hc as [Hx Hc]. rewrite decide_False by congruence. by rewrite IH.
Qed.

Lemma split_at_none c s : split_at c s = None ↔ c ∉ s.
Proof.
  induction s as [|x s IH]; cbn [split_at]; [split; [intros _; apply not_elem_of_nil|done]|].
  rewrite not_elem_of_cons. case_decide as Hx; [subst; split; [done|by intros [? _]]|].
  destruct (split_at c s) as [[a b]|]; rewrite <- IH; split; try done; by intros [].
Qed.

Lemma split_at_some c s a b : split_at c s = Some (a, b) → s = a ++ c :: b ∧ c ∉ a.
Proof.
  revert a b. induction s as [|x s IH]; intros a b; cbn [split_at]; [done|].
  case_decide as Hx; [intros [= <- <-]; subst; split; [done|apply not_elem_of_nil]|].
  destruct (split_at c s) as [[a' b']|]; [|done]. intros [= <- <-].
  destruct (IH a' b' eq_refl) as [-> Hc]. split; [done|]. apply not_elem_of_cons. by split; [congruence|].
Qed.

(** ** [std::getline]

    A stream is what is left of it, or [None] after the end was reached; then
    a read fails and leaves its string alone. *)
Abbreviation stream := (option bytes).

Definition getline (delim : ascii) (old : bytes) (st : stream) : bool * bytes * stream :=
  match st with
  | None => (false, old, None)
  | Some r =>
      match split_at delim r with
      | Some (a, b) => (true, a, Some b)
      | None => match r with [] => (false, [], None) | _ => (true, r, None) end
      end
  end.

(** The lines of a file, as [while (getline(in, line))] reads them. *)
Fixpoint file_lines (fuel : nat) (content : bytes) : list bytes :=
  match fuel with
  | O => []
  | S fuel' =>
      match getline newline [] (Some content) with
      | (false, _, _) => []
      | (true, line, None) => [line]
      | (true, line, Some rest) => line :: file_lines fuel' rest
      end
  end.

Definition lines_of (content : bytes) : list bytes := file_lines (S (length content)) content.

(** Lines written with a newline after each are the lines read. *)
Definition unlines (ls : list bytes) : bytes := ls ≫= (fun l => l ++ [newline]).

Lemma file_lines_unlines ls fuel : Forall (fun l => newline ∉ l) ls → (length ls < fuel)%nat →
  file_lines fuel (unlines ls) = ls.
Proof.
  intros Hls. revert fuel. induction Hls as [|l ls Hl _ IH]; intros fuel Hf; (destruct fuel; [lia|]).
  { done. }
  cbn [file_lines]. unfold getline.
  assert (unlines (l :: ls) = l ++ newline :: unlines ls) as ->.
  { unfold unlines. cbn. by rewrite <- app_assoc. }
  rewrite split_at_app by done. f_equal. apply IH. cbn [length] in Hf. lia.
Qed.

Lemma length_unlines ls : (length ls ≤ length (unlines ls))%nat.
Proof.
  induction ls as [|l ls IH]; [done|]. unfold unlines in *. cbn. rewrite !length_app. cbn. lia.
Qed.

Lemma lines_of_unlines ls : Forall (fun l => newline ∉ l) ls → lines_of (unlines ls) = ls.
Proof.
  intros H. apply file_lines_unlines; [done|]. pose proof (length_unlines ls). lia.
Qed.

Lemma file_lines_no_newline fuel content : Forall (fun l => newline ∉ l) (file_lines fuel content).
Proof.
  revert content. induction fuel as [|fuel IH]; intros content; [constructor|]. cbn [file_lines]. unfold getline.
  destruct (split_at newline content) as [[a b]|] eqn:Hs.
  - apply split_at_some in Hs as [_ Ha]. by constructor.
  - apply split_at_none in Hs. destruct content; repeat constructor; done.
Qed.

(** Digits are no separators. *)
Lemma digits_notin c ds : forallb is_digit ds = true → is_digit c = false → c ∉ ds.
Proof.
  intros Hd Hc Hin. rewrite forallb_forall in Hd. apply list_elem_of_In in Hin.
  specialize (Hd c Hin). congruence.
Qed.

Lemma print_notin c n : is_u64 n → is_digit c = false → c ∉ print_u64 n.
Proof. intros Hn Hc. apply digits_notin; [apply (print_u64_spec n Hn)|done]. Qed.
