(* ===== verification/Trace.v ===== *)
(** The replay driver ([src/main.cpp]): parsing trace lines and run tokens,
    preloading the store, and turning the trace into request batches. *)
From S2P Require Import Prelude Histogram KVStore Message NodeState Bandle Text.

(** ** [parse_u64] *)
Fixpoint parse_u64_loop (v : Z) (p : bytes) : option Z :=
  match p with
  | [] => Some v
  | c :: p' => if is_digit c then parse_u64_loop (v *₆₄ 10 +₆₄ digit_value c) p' else None
  end.

Definition parse_u64 (p : bytes) : option Z :=
  match p with [] => None | _ => parse_u64_loop 0 p end.

(** ** [parse_line_view] *)
Record ParsedLineView := {
  ts_us : Z;
  pl_op : ascii;
  pl_key : bytes;
  pl_value : option bytes
}.

Definition is_eol (c : ascii) : bool := bool_decide (c = newline) || bool_decide (c = carriage_return).

(** The loop that drops line ends, from the back. *)
Fixpoint drop_eols (rev_s : bytes) : bytes :=
  match rev_s with
  | c :: r => if is_eol c then drop_eols r else rev_s
  | [] => []
  end.

Definition strip_eol (s : bytes) : bytes := rev (drop_eols (rev s)).

Definition parse_line_view (data : bytes) : option ParsedLineView :=
  match data with
  | [] => None
  | c0 :: _ =>
      if decide (c0 = "#"%char) then None else
      match split_at "," (strip_eol data) with
      | None => None
      | Some (ts_text, rest) =>
          match rest with
          | op :: sp :: key_text =>
              match parse_u64 ts_text with
              | None => None
              | Some ts =>
                  if decide (sp = " "%char) then
                    let '(key, value) := match split_at ":" key_text with
                                         | Some (k, v) => (k, Some v)
                                         | None => (key_text, None)
                                         end in
                    match key with
                    | [] => None
                    | _ => Some {| ts_us := ts; pl_op := op; pl_key := key; pl_value := value |}
                    end
                  else None
              end
          | _ => None
          end
      end
  end.

(** ** [parse_run_token] *)
Definition fnv1a (text : bytes) : Z :=
  foldl (fun hash c => Z.lxor hash (code c) *₆₄ 1099511628211) 1469598103934665603 text.

Definition parse_run_token (text : bytes) : Z :=
  match text with
  | [] => 0
  | _ =>
      let hash := let h := fnv1a text in if h =? 0 then 1 else h in
      match stoull text with
      | Some (numeric, []) => numeric
      | _ => hash
      end
  end.

(** ** The replay loop

    The request of a parsed line; lengths are cast to [uint32_t]. *)
Definition request_of (v : ParsedLineView) : BorrowedRequest := {|
  br_op := pl_op v;
  br_key_ptr := Some (pl_key v);
  br_key_len := w32 (Z.of_nat (length (pl_key v)));
  br_value_ptr := pl_value v;
  br_value_len := match pl_value v with Some value => w32 (Z.of_nat (length value)) | None => 0 end |}.

(** The batches submitted for the lines left.  [early n ts] tells whether the
    target time of a line is still ahead at the [n]-th reading of the clock;
    the batch is then submitted before the thread sleeps. *)
Fixpoint replay (batch_size : Z) (early : nat → Z → bool) (lines : list bytes) (n : nat)
    (batch : list BorrowedRequest) : list (list BorrowedRequest) :=
  match lines with
  | [] => match batch with [] => [] | _ => [batch] end
  | line :: lines' =>
      match parse_line_view line with
      | None => replay batch_size early lines' n batch
      | Some v =>
          let '(submitted, batch) :=
            if early n (ts_us v) then (match batch with [] => [] | _ => [batch] end, [])
            else ([], batch) in
          let batch := batch ++ [request_of v] in
          submitted ++
            if Z.of_nat (length batch) >=? batch_size
            then batch :: replay batch_size early lines' (S n) []
            else replay batch_size early lines' (S n) batch
      end
  end.

Definition replay_trace (batch_size : Z) (early : nat → Z → bool) (dataset : bytes)
    : list (list BorrowedRequest) :=
  replay batch_size early (lines_of dataset) O [].

(** ** The preload *)
Section Preload.
Context {S : Type} `{Store : ReplicaStore S}.

(** The loop over the lines; [left] is [preload_count - loaded]. *)
Fixpoint preload_lines (left : nat) (lines : list bytes) (s : Node S) : Node S :=
  match left, lines with
  | Datatypes.S left', line :: lines' =>
      match parse_line_view line with
      | Some v =>
          if is_write_op (pl_op v)
          then preload_lines left' lines' (direct_apply (pl_op v) (pl_key v) (default [] (pl_value v)) s)
          else preload_lines left lines' s
      | None => preload_lines left lines' s
      end
  | _, _ => s
  end.

Definition preload (count : Z) (file : bytes) (s : Node S) : Node S :=
  if count >? 0 then preload_lines (Z.to_nat count) (lines_of file) s else s.

End Preload.

(** ** Lemmas *)
Lemma parse_u64_loop_digits v p : forallb is_digit p = true → is_u64 v →
  parse_u64_loop v p = Some (w64 (dec_from v p)).
Proof.
  revert v. induction p as [|c p IH]; intros v Hp Hv; cbn [parse_u64_loop].
  - cbn. by rewrite w64_small.
  - cbn [forallb] in Hp. apply andb_prop in Hp as [-> Hp].
    rewrite IH by (done || apply w64_range). f_equal. rewrite w64_add_l.
    change (dec_from v (c :: p)) with (dec_from (v * 10 + digit_value c) p).
    generalize (v * 10 + digit_value c). clear. intros x. revert x.
    induction p as [|c p IH]; intros x; cbn; [by rewrite w64_idemp|].
    unfold dec_from in *. cbn [foldl]. rewrite <- (IH (x * 10 + _)), <- (IH (w64 x * 10 + _)).
    do 2 f_equal. unfold w64. by rewrite <- (Zplus_mod_idemp_l (_ * 10)), Zmult_mod_idemp_l, Zplus_mod_idemp_l.
Qed.

Lemma parse_u64_loop_bad v p : forallb is_digit p = false → parse_u64_loop v p = None.
Proof.
  revert v. induction p as [|c p IH]; intros v Hp; [done|]. cbn [forallb parse_u64_loop] in *.
  destruct (is_digit c); [by apply IH|done].
Qed.

Lemma parse_u64_spec p : parse_u64 p =
  if bool_decide (p ≠ []) && forallb is_digit p then Some (w64 (dec_value p)) else None.
Proof.
  destruct p as [|c p]; [done|]. rewrite bool_decide_true by done. cbn [andb].
  unfold parse_u64. destruct (forallb is_digit (c :: p)) eqn:Hp.
  - by apply parse_u64_loop_digits.
  - by apply parse_u64_loop_bad.
Qed.

Lemma drop_eols_app e r : forallb is_eol e = true → drop_eols (e ++ r) = drop_eols r.
Proof.
  induction e as [|c e IH]; [done|]. cbn [forallb app drop_eols].
  intros [-> He]%andb_prop. by apply IH.
Qed.

(** A line whose text does not end in a line end, with line ends after it. *)
Lemma strip_eol_app s c e : is_eol c = false → forallb is_eol e = true →
  strip_eol ((s ++ [c]) ++ e) = s ++ [c].
Proof.
  intros Hc He. unfold strip_eol. rewrite rev_app_distr, drop_eols_app.
  - rewrite rev_app_distr. cbn [rev app drop_eols]. rewrite Hc. cbn [rev]. by rewrite rev_involutive.
  - rewrite forallb_forall in *. intros x Hx. apply He. by apply in_rev.
Qed.

(** A trace line, as text. *)
Definition line_body (key : bytes) (value : option bytes) : bytes :=
  key ++ match value with Some v => ":"%char :: v | None => [] end.

Definition format_line (ts : Z) (op : ascii) (key : bytes) (value : option bytes) : bytes :=
  print_u64 ts ++ ","%char :: op :: " "%char :: line_body key value.

Lemma split_body key value : ":"%char ∉ key →
  match split_at ":" (line_body key value) with
  | Some (k, v) => (k, Some v)
  | None => (line_body key value, None)
  end = (key, value).
Proof.
  intros Hk. unfold line_body. destruct value as [v|].
  - by rewrite split_at_app.
  - rewrite app_nil_r. by rewrite (proj2 (split_at_none _ _) Hk).
Qed.

(** Parsing a line whose time stamp is any text of digits. *)
Lemma parse_line_text ds ts op key value eols :
  parse_u64 ds = Some ts → forallb is_digit ds = true → key ≠ [] → ":"%char ∉ key →
  (∀ c, last (line_body key value) = Some c → is_eol c = false) → forallb is_eol eols = true →
  parse_line_view ((ds ++ ","%char :: op :: " "%char :: line_body key value) ++ eols) =
    Some {| ts_us := ts; pl_op := op; pl_key := key; pl_value := value |}.
Proof.
  intros Hts Hd Hne Hk Hlast He.
  destruct (last (line_body key value)) as [c|] eqn:Hl; cycle 1.
  { apply last_None in Hl. unfold line_body in Hl. by destruct key. }
  specialize (Hlast c eq_refl). apply last_Some in Hl as [body Hb].
  set (text := ds ++ ","%char :: op :: " "%char :: line_body key value).
  assert (text = (ds ++ ","%char :: op :: " "%char :: body) ++ [c]) as Htext.
  { unfold text. rewrite Hb, <- app_assoc. done. }
  assert (strip_eol (text ++ eols) = text) as Hstrip by (rewrite Htext; by apply strip_eol_app).
  unfold parse_line_view. rewrite Hstrip.
  destruct (text ++ eols) as [|c0 t] eqn:H0.
  { apply app_eq_nil in H0 as [H0 _]. unfold text in H0. by destruct ds. }
  destruct ds as [|d ds]; [done|]. unfold text in H0. cbn [app] in H0. injection H0 as -> _.
  rewrite decide_False; cycle 1.
  { intros ->. done. }
  unfold text. rewrite split_at_app by (by apply digits_notin). rewrite Hts, decide_True by done.
  rewrite split_body by done. by destruct key.
Qed.

Lemma parse_u64_print n : is_u64 n → parse_u64 (print_u64 n) = Some n.
Proof.
  intros Hn. destruct (print_u64_spec n Hn) as (Hne&Hd&Hv).
  rewrite parse_u64_spec, bool_decide_true, Hd, Hv by done. by rewrite w64_small.
Qed.

(** ** The replay loop *)
Definition parsed_requests (lines : list bytes) : list BorrowedRequest :=
  omap (fun line => request_of <$> parse_line_view line) lines.

Definition submit_batch_ok (batch_size : Z) (b : list BorrowedRequest) : Prop :=
  b ≠ [] ∧ Z.of_nat (length b) ≤ Z.max 1 batch_size.

Lemma replay_spec batch_size early lines n batch :
  (batch = [] ∨ Z.of_nat (length batch) < batch_size) →
  concat (replay batch_size early lines n batch) = batch ++ parsed_requests lines ∧
  Forall (submit_batch_ok batch_size) (replay batch_size early lines n batch).
Proof.
  revert n batch. induction lines as [|line lines IH]; intros n batch Hb.
  { cbn [replay parsed_requests omap list_omap]. destruct batch as [|r b]; [done|].
    split; [done|]. apply Forall_singleton. split; [done|]. destruct Hb as [|Hb]; [done|]. lia. }
  cbn [replay]. unfold parsed_requests. cbn [omap list_omap]. fold (parsed_requests lines).
  destruct (parse_line_view line) as [v|]; cbn [fmap option_fmap option_map]; [|by apply IH].
  set (flush := if early n (ts_us v) then _ else _).
  assert (∃ sub b, flush = (sub, b) ∧ concat sub ++ b = batch ∧ Forall (submit_batch_ok batch_size) sub ∧
    (b = [] ∨ Z.of_nat (length b) < batch_size)) as (sub&b&->&Hcat&Hsub&Hb').
  { unfold flush. destruct (early n (ts_us v)); [|by exists [], batch].
    eexists _, []. split; [done|]. destruct batch as [|r b]; [by repeat split; left|].
    cbn. rewrite !app_nil_r. split; [done|]. split; [|by left]. apply Forall_singleton.
    split; [done|]. destruct Hb as [|Hb]; [done|]. lia. }
  assert (submit_batch_ok batch_size (b ++ [request_of v]) ∨
    Z.of_nat (length (b ++ [request_of v])) < batch_size) as Hnew.
  { rewrite length_app. cbn [length]. destruct (Z.lt_ge_cases (Z.of_nat (length b + 1)) batch_size); [by right|].
    left. split; [by destruct b|]. rewrite length_app. cbn [length]. destruct Hb' as [->|?]; cbn; lia. }
  rewrite Z.geb_leb. destruct (Z.leb_spec batch_size (Z.of_nat (length (b ++ [request_of v])))) as [Hle|Hlt].
  - destruct (IH (S n) [] ltac:(by left)) as [IH1 IH2]. rewrite concat_app. cbn [concat].
    rewrite IH1. cbn [app]. split; [by rewrite <- Hcat, <- !app_assoc|].
    apply Forall_app. split; [done|]. apply Forall_cons. split; [|done].
    destruct Hnew as [?|?]; [done|lia].
  - destruct (IH (S n) (b ++ [request_of v]) ltac:(by right)) as [IH1 IH2]. rewrite concat_app, IH1.
    split; [by rewrite <- Hcat, <- !app_assoc|]. by apply Forall_app.
Qed.

(** ** The preload *)
Section PreloadLemmas.
Context {S : Type} `{Store : ReplicaStore S}.
Context (hash : bytes → Z) `{!ReplicaStoreLaws hash S}.
Implicit Types (s : Node S).

(** The writes of a trace, in order. *)
Definition trace_writes (lines : list bytes) : list ApplyOp :=
  omap (fun line =>
    match parse_line_view line with
    | Some v => if is_write_op (pl_op v)
                then Some {| ao_op := pl_op v; ao_shard := 0; ao_key := pl_key v;
                             ao_value := default [] (pl_value v) |}
                else None
    | None => None
    end) lines.

Lemma direct_apply_view op key value s : store_ok (kv_ s) →
  store_ok (kv_ (direct_apply op key value s)) ∧
  store_view (kv_ (direct_apply op key value s)) =
    spec_apply (store_view (kv_ s)) {| ao_op := op; ao_shard := 0; ao_key := key; ao_value := value |}.
Proof.
  intros Hok. unfold direct_apply, spec_apply. cbn [ao_op ao_key ao_value].
  destruct (decide (op = "P"%char)); [by apply store_put_law|].
  destruct (decide (op = "U"%char)); [by apply store_update_law|].
  destruct (decide (op = "D"%char)); [by apply store_erase_law|done].
Qed.

Lemma preload_lines_view left lines s : store_ok (kv_ s) →
  store_ok (kv_ (preload_lines left lines s)) ∧
  store_view (kv_ (preload_lines left lines s)) =
    foldl spec_apply (store_view (kv_ s)) (take left (trace_writes lines)).
Proof.
  revert left s. induction lines as [|line lines IH]; intros left s Hok.
  { unfold trace_writes. cbn [omap list_omap]. rewrite take_nil. by destruct left. }
  destruct left as [|left]; [done|]. cbn [preload_lines]. unfold trace_writes. cbn [omap list_omap].
  fold (trace_writes lines). destruct (parse_line_view line) as [v|]; [|by apply IH].
  destruct (is_write_op (pl_op v)); [|by apply IH].
  destruct (direct_apply_view (pl_op v) (pl_key v) (default [] (pl_value v)) s Hok) as [Hok' Hv].
  destruct (IH left _ Hok') as [? ->]. cbn [take foldl]. by rewrite Hv.
Qed.

End PreloadLemmas.

(** ** Properties *)

(** C34: a trace line survives printing and parsing, whatever line ends follow
    it: time stamp, operation, key (no colon in it) and value come back. *)
Theorem parse_formatted_line (ts : Z) (op : ascii) (key : bytes) (value : option bytes) (eols : bytes)
    (Hts : is_u64 ts) (Hne : key ≠ []) (Hk : ":"%char ∉ key)
    (Hlast : ∀ c, last (line_body key value) = Some c → is_eol c = false)
    (Heols : forallb is_eol eols = true) :
  parse_line_view (format_line ts op key value ++ eols) =
    Some {| ts_us := ts; pl_op := op; pl_key := key; pl_value := value |}.
Proof.
  destruct (print_u64_spec ts Hts) as (_&Hd&_).
  apply parse_line_text; try done. by apply parse_u64_print.
Qed.

(** The replay submits every valid line of the trace exactly once, in trace
    order, in nonempty batches of at most the batch size, whatever the clock
    does. *)
Theorem replay_submits_trace (batch_size : Z) (early : nat → Z → bool) (dataset : bytes) :
  concat (replay_trace batch_size early dataset) = parsed_requests (lines_of dataset) ∧
  Forall (fun b => b ≠ [] ∧ Z.of_nat (length b) ≤ Z.max 1 batch_size)
    (replay_trace batch_size early dataset).
Proof. apply (replay_spec batch_size early (lines_of dataset) O []). by left. Qed.

(** The preload leaves the store with the first [count] writes of the file
    applied in order. *)
Theorem preload_applies_writes {S} `{Store : ReplicaStore S} (hash : bytes → Z)
    `{!ReplicaStoreLaws hash S} (count : Z) (file : bytes) (s : Node S) (Hok : store_ok (kv_ s)) :
  store_view (kv_ (preload count file s)) =
    foldl spec_apply (store_view (kv_ s)) (take (Z.to_nat count) (trace_writes (lines_of file))).
Proof.
  unfold preload. rewrite Z.gtb_ltb. destruct (Z.ltb_spec 0 count) as [|Hc].
  - by apply (preload_lines_view hash).
  - by replace (Z.to_nat count) with O by lia.
Qed.

(** A run token that is a printed number denotes that number; any other
    nonempty token that is not a number denotes a nonzero one, so it never
    disables the run barrier. *)
Theorem run_token_meaning (text : bytes) (n : Z) (Hn : is_u64 n) :
  parse_run_token (print_u64 n) = n ∧
  (text ≠ [] → (∀ v, stoull text ≠ Some (v, [])) → parse_run_token text ≠ 0).
Proof.
  split.
  - destruct (print_u64_spec n Hn) as (Hne&_&_). unfold parse_run_token.
    rewrite (stoull_print n Hn). by destruct (print_u64 n).
  - intros Hne Hnum. unfold parse_run_token. destruct text as [|c t]; [done|].
    destruct (stoull (c :: t)) as [[v [|x r]]|] eqn:Hs; [by destruct (Hnum v)| |];
      destruct (Z.eqb_spec (fnv1a (c :: t)) 0); (done || lia).
Qed.

(** ** Concrete inputs *)
Module Examples.
Import KVStore.Examples.

#[local] Instance rep : ReplicaStore KVStore := kv_replica length_hash.
#[local] Instance rep_laws : ReplicaStoreLaws length_hash KVStore := kv_replica_laws length_hash.

Definition trace : list bytes :=
  [str "# comment"; str "12,P user1:a,b:c"; str "12,G user1"; str "bad"; str "30,D user1"].

Example trace_parses :
  parse_line_view (str "12,P user1:a,b:c") =
  Some {| ts_us := 12; pl_op := "P"; pl_key := str "user1"; pl_value := Some (str "a,b:c") |}.
Proof. by vm_compute. Qed.

Example parse_formatted_line_witness :
  parse_line_view (format_line 12 "P" (str "user1") (Some (str "a,b:c")) ++ [carriage_return; newline]) =
  Some {| ts_us := 12; pl_op := "P"; pl_key := str "user1"; pl_value := Some (str "a,b:c") |}.
Proof.
  apply (parse_formatted_line 12 "P" (str "user1") (Some (str "a,b:c")) [carriage_return; newline]).
  - by vm_compute.
  - done.
  - apply split_at_none. by vm_compute.
  - vm_compute. by intros c [= <-].
  - done.
Defined.

Definition s0 : Node KVStore :=
  new_node {| node_id_ := 1; cluster_size_ := 3; quorum_ := 2; noop_interval_us_ := 1;
    batch_size_ := 32; admission_window_ := 192; admission_batch_ := 32 |} empty_store.

Example preload_applies_writes_witness :
  store_view (kv_ (preload 1 (unlines trace) s0)) =
  foldl spec_apply (store_view (kv_ s0))
    (take (Z.to_nat 1) (trace_writes (lines_of (unlines trace)))).
Proof.
  exact (preload_applies_writes length_hash 1 (unlines trace) s0 (empty_store_wf length_hash)).
Defined.

Example run_token_meaning_witness :
  parse_run_token (print_u64 77) = 77 ∧ parse_run_token (str "run-2026") ≠ 0.
Proof.
  destruct (run_token_meaning (str "run-2026") 77 ltac:(by vm_compute)) as [H1 H2].
  split; [exact H1|]. apply H2; [done|]. intros v. by vm_compute.
Defined.

End Examples.
