(* ===== verification/TraceGen.v ===== *)
(** The trace generator ([src/bandle_trace_gen.cpp]): splitting one dataset
    into a trace per node.  Nodes are numbered from 0 here ([i - 1] of the
    source); the per-node vectors are lists. *)
From S2P Require Import Prelude Histogram KVStore Message NodeState Bandle Text Trace.

(** [struct ParsedOp]. *)
Record ParsedOp := {
  po_ts_us : Z;
  po_op : ascii;
  po_key : bytes;
  po_value : bytes
}.

Definition default_op : ParsedOp := {| po_ts_us := 0; po_op := "G"; po_key := []; po_value := [] |}.

(** [parse_line]: the result and [out], whose fields are written as they are
    parsed. *)
Definition parse_line (line : bytes) (out : ParsedOp) : bool * ParsedOp :=
  match line with
  | [] => (false, out)
  | c0 :: _ =>
      if decide (c0 = "#"%char) then (false, out) else
      match split_at "," line with
      | None => (false, out)
      | Some (ts_str, req) =>
          match strip_eol req with
          | op :: sp :: x :: rest' =>
              let rest := x :: rest' in
              if decide (sp = " "%char) then
                let finish (key value : bytes) :=
                  match stoull ts_str with
                  | Some (ts, _) =>
                      (true, {| po_ts_us := ts; po_op := op; po_key := key; po_value := value |})
                  | None =>
                      (false, {| po_ts_us := po_ts_us out; po_op := op; po_key := key; po_value := value |})
                  end in
                let reject := (false, {| po_ts_us := po_ts_us out; po_op := op; po_key := po_key out;
                                         po_value := po_value out |}) in
                if bool_decide (op = "P"%char) || bool_decide (op = "U"%char) then
                  match split_at ":" rest with
                  | None => reject
                  | Some (key, value) => finish key value
                  end
                else if bool_decide (op = "D"%char) || bool_decide (op = "G"%char)
                then finish rest (po_value out)
                else reject
              else (false, out)
          | _ => (false, out)
          end
      end
  end.

(** The loop both passes share: the lines processed, with what was parsed. *)
Fixpoint accepted (max_ops total : Z) (lines : list bytes) (out : ParsedOp)
    : list (bytes * ParsedOp) :=
  match lines with
  | [] => []
  | line :: lines' =>
      match parse_line line out with
      | (false, out) => accepted max_ops total lines' out
      | (true, out) =>
          if (max_ops >? 0) && (total >=? max_ops) then []
          else (line, out) :: accepted max_ops (total +₆₄ 1) lines' out
      end
  end.

(** Pass 1: the time stamp of the last operation. *)
Definition end_ts_us (ops : list (bytes * ParsedOp)) : Z :=
  foldl (fun _ o => po_ts_us o.2) 0 ops.

(** ** Pass 2 *)
Record GenState := {
  outs : list (list bytes);
  last_ts : list Z;
  read_counts : list Z;
  write_counts : list Z;
  total : Z
}.

Definition initial_gen (nodes : nat) : GenState := {|
  outs := replicate nodes []; last_ts := replicate nodes 0; read_counts := replicate nodes 0;
  write_counts := replicate nodes 0; total := 0 |}.

(** The balancing loop: [i] is the index of the head, [bc], [bl] and [b] are
    the best count, time stamp and node. *)
Fixpoint pick_from (i : nat) (counts stamps : list Z) (bc bl : Z) (b : nat) : nat :=
  match counts, stamps with
  | c :: counts', l :: stamps' =>
      if (c <? bc) || ((c =? bc) && (l <? bl)) then pick_from (S i) counts' stamps' c l i
      else pick_from (S i) counts' stamps' bc bl b
  | _, _ => b
  end.

Definition pick (counts stamps : list Z) : nat := pick_from O counts stamps UINT64_MAX UINT64_MAX O.

(** One operation. *)
Definition assign_op (multinode_writes : bool) (g : GenState) (o : bytes * ParsedOp) : GenState :=
  let '(line, op) := o in
  let read := bool_decide (po_op op = "G"%char) in
  let target := if read then pick (read_counts g) (last_ts g)
                else if multinode_writes then pick (write_counts g) (last_ts g) else O in
  {| outs := alter (fun ls => ls ++ [line]) target (outs g);
     last_ts := <[target := po_ts_us op]> (last_ts g);
     read_counts := if read then alter (fun c => c +₆₄ 1) target (read_counts g) else read_counts g;
     write_counts := if read then write_counts g
                     else alter (fun c => c +₆₄ 1) target (write_counts g);
     total := total g +₆₄ 1 |}.

Definition assign_ops (multinode_writes : bool) (nodes : nat) (ops : list (bytes * ParsedOp)) : GenState :=
  foldl (assign_op multinode_writes) (initial_gen nodes) ops.

(** The padding line of node [i]. *)
Definition pad_line (end_ts : Z) (i : nat) : bytes :=
  print_u64 end_ts ++ str ",G __pad_node" ++ print_u64 (Z.of_nat i + 1).

Definition pad_node (end_ts : Z) (g : GenState) (i : nat) : GenState :=
  if default 0 (last_ts g !! i) <? end_ts then
    {| outs := alter (fun ls => ls ++ [pad_line end_ts i]) i (outs g);
       last_ts := <[i := end_ts]> (last_ts g);
       read_counts := alter (fun c => c +₆₄ 1) i (read_counts g);
       write_counts := write_counts g;
       total := total g +₆₄ 1 |}
  else g.

Definition pad (end_ts : Z) (nodes : nat) (g : GenState) : GenState :=
  foldl (pad_node end_ts) g (seq 0 nodes).

(** The whole run on the lines of the dataset; [None] is the error exit. *)
Definition generate (nodes : nat) (max_ops : Z) (multinode_writes : bool) (content : bytes)
    : option GenState :=
  let ops := accepted max_ops 0 (lines_of content) default_op in
  let end_ts := end_ts_us ops in
  if end_ts =? 0 then None
  else Some (pad end_ts nodes (assign_ops multinode_writes nodes ops)).

(** How the program ends: with a code and the files it has written, or in an
    exception. *)
Inductive GenEnding :=
| GenReturns (code : Z) (written : list (bytes * bytes))
| GenThrows.

Definition output_path (prefix : bytes) (i : nat) : bytes :=
  prefix ++ print_u64 (Z.of_nat i + 1) ++ str "_dataset.txt".

(** The loop that opens the outputs, before anything is written: the files
    created, and whether all could be. *)
Fixpoint open_outputs (writable : bytes → bool) (paths : list bytes) : list (bytes * bytes) * bool :=
  match paths with
  | [] => ([], true)
  | path :: paths =>
      if writable path
      then let '(created, ok) := open_outputs writable paths in ((path, []) :: created, ok)
      else ([], false)
  end.

(** [main], on the arguments after the program's name; [files] are the readable
    files. *)
Definition trace_gen (files : bytes → option bytes) (writable : bytes → bool) (argv : list bytes) : GenEnding :=
  match argv with
  | input :: prefix :: nodes_text :: max_text :: rest =>
      match stoi nodes_text, stoull max_text with
      | Some (nodes, _), Some (max_ops, _) =>
          let multinode_writes := match rest with
                                  | [] => true
                                  | v :: _ => bool_decide (v = str "1") || bool_decide (v = str "true") ||
                                              bool_decide (v = str "yes")
                                  end in
          if nodes <? 1 then GenReturns 1 []
          else match files input with
          | None => GenReturns 1 []
          | Some content =>
              match generate (Z.to_nat nodes) max_ops multinode_writes content with
              | None => GenReturns 1 []
              | Some g =>
                  let paths := output_path prefix <$> seq 0 (Z.to_nat nodes) in
                  let '(created, ok) := open_outputs writable paths in
                  if ok then GenReturns 0 (zip paths (unlines <$> outs g)) else GenReturns 1 created
              end
          end
      | _, _ => GenThrows
      end
  | _ => GenReturns 1 []
  end.

(** ** Lemmas *)

(** Every vector has one element per node. *)
Record gen_wf (nodes : nat) (g : GenState) : Prop := {
  gw_outs : length (outs g) = nodes;
  gw_last : length (last_ts g) = nodes;
  gw_reads : length (read_counts g) = nodes;
  gw_writes : length (write_counts g) = nodes
}.

Lemma initial_gen_wf nodes : gen_wf nodes (initial_gen nodes).
Proof. split; apply length_replicate. Qed.

Lemma assign_op_wf mw nodes g o : gen_wf nodes g → gen_wf nodes (assign_op mw g o).
Proof.
  intros [? ? ? ?]. destruct o as [line op]. split; cbn; rewrite ?length_alter, ?length_insert; try done;
    case_if; by rewrite ?length_alter.
Qed.

Lemma pick_from_spec i counts stamps bc bl b : length stamps = length counts →
  let r := pick_from i counts stamps bc bl b in
  (r = b ∧ Forall (fun c => bc ≤ c) counts) ∨
  ∃ j c, r = (i + j)%nat ∧ counts !! j = Some c ∧ c ≤ bc ∧ Forall (fun c' => c ≤ c') counts.
Proof.
  revert i stamps bc bl b. induction counts as [|c counts IH]; intros i stamps bc bl b Hl.
  { left. by destruct stamps. }
  destruct stamps as [|l stamps]; [done|]. cbn [pick_from]. injection Hl as Hl.
  destruct ((c <? bc) || ((c =? bc) && (l <? bl))) eqn:Hcmp.
  - assert (c ≤ bc) as Hc.
    { apply orb_prop in Hcmp as [?%Z.ltb_lt|[?%Z.eqb_eq _]%andb_prop]; lia. }
    right. destruct (IH (S i) stamps c l i Hl) as [[-> Hall]|(j&c'&->&Hj&Hle&Hall)].
    + exists O, c. split; [lia|]. split; [done|]. split; [done|]. apply Forall_cons. split; [lia|done].
    + exists (S j), c'. split; [lia|]. split; [done|]. split; [lia|]. by apply Forall_cons.
  - apply orb_false_elim in Hcmp as [Hc%Z.ltb_ge _].
    destruct (IH (S i) stamps bc bl b Hl) as [[-> Hall]|(j&c'&->&Hj&Hle&Hall)].
    + left. split; [done|]. by apply Forall_cons.
    + right. exists (S j), c'. split; [lia|]. split; [done|]. split; [done|]. apply Forall_cons.
      split; [lia|done].
Qed.

(** The chosen node is one with the least count. *)
Lemma pick_min counts stamps : length stamps = length counts → counts ≠ [] →
  Forall (fun c => c < UINT64_MAX) counts →
  ∃ c, counts !! pick counts stamps = Some c ∧ Forall (fun c' => c ≤ c') counts.
Proof.
  intros Hl Hne Hb. unfold pick.
  destruct (pick_from_spec O counts stamps UINT64_MAX UINT64_MAX O Hl) as [[_ Hall]|(j&c&->&Hj&_&Hall)].
  - destruct counts as [|c counts]; [done|]. apply Forall_cons in Hb as [? _].
    apply Forall_cons in Hall as [? _]. lia.
  - by exists c.
Qed.

(** ** Balance *)

(** All counts within one of each other, none above [bound]. *)
Definition balanced (bound : Z) (counts : list Z) : Prop :=
  ∃ m, 0 ≤ m ∧ Forall (fun c => m ≤ c ≤ m + 1 ∧ c ≤ bound) counts.

Lemma balanced_bump bound counts stamps : length stamps = length counts → counts ≠ [] →
  0 ≤ bound < UINT64_MAX - 1 → balanced bound counts →
  balanced (bound + 1) (alter (fun c => c +₆₄ 1) (pick counts stamps) counts).
Proof.
  intros Hl Hne Hbound (m&Hm&Hall).
  destruct (pick_min counts stamps Hl Hne) as (c&Hc&Hmin).
  { eapply Forall_impl; [exact Hall|]. cbn. intros. lia. }
  rewrite Forall_lookup in Hall, Hmin. pose proof (Hall _ _ Hc) as Hcm.
  assert (c +₆₄ 1 = c + 1) as Hw by (apply w64_small; unfold is_u64, UINT64_MAX in *; lia).
  exists (if decide (c = m) then m else m + 1). split; [case_decide; lia|].
  apply Forall_lookup. intros i c' Hi. rewrite list_lookup_alter in Hi.
  destruct (decide (pick counts stamps = i)) as [<-|Hne'].
  - rewrite Hc in Hi. injection Hi as <-. rewrite Hw. case_decide; lia.
  - pose proof (Hall i c' Hi). pose proof (Hmin i c' Hi). case_decide; lia.
Qed.

Lemma assign_ops_balanced mw nodes ops : (0 < nodes)%nat → Z.of_nat (length ops) < UINT64_MAX - 1 →
  let g := assign_ops mw nodes ops in
  gen_wf nodes g ∧ balanced (Z.of_nat (length ops)) (read_counts g) ∧
  (mw = true → balanced (Z.of_nat (length ops)) (write_counts g)).
Proof.
  intros Hn. induction ops as [|o ops IH] using rev_ind; intros Hlen g.
  { split; [apply initial_gen_wf|]. assert (balanced 0 (replicate nodes 0)).
    { exists 0. split; [lia|]. apply Forall_replicate. lia. }
    done. }
  rewrite length_app in Hlen. cbn [length] in Hlen. destruct (IH ltac:(lia)) as ([Ho Hl Hr Hw]&Hbr&Hbw).
  set (g0 := assign_ops mw nodes ops) in *.
  assert (g = assign_op mw g0 o) as Hg by (unfold g, assign_ops; apply foldl_snoc).
  split; [rewrite Hg; apply assign_op_wf; by split|].
  rewrite length_app. cbn [length]. replace (Z.of_nat (length ops + 1)) with (Z.of_nat (length ops) + 1) by lia.
  assert (∀ cs, balanced (Z.of_nat (length ops)) cs → balanced (Z.of_nat (length ops) + 1) cs) as Hmono.
  { intros cs (m&?&Hall). exists m. split; [done|]. eapply Forall_impl; [exact Hall|]. cbn. lia. }
  rewrite Hg. destruct o as [line op]. unfold assign_op. cbn [read_counts write_counts].
  destruct (bool_decide (po_op op = "G"%char)).
  - split; [|intros Hm; by apply Hmono, Hbw]. apply balanced_bump; [lia| |lia|done].
    intros Hnil. rewrite Hnil in Hr. cbn in Hr. lia.
  - split; [by apply Hmono|]. intros ->. apply balanced_bump; [lia| |lia|by apply Hbw].
    intros Hnil. rewrite Hnil in Hw. cbn in Hw. lia.
Qed.

(** ** Partition *)
Lemma pick_range counts stamps : length stamps = length counts → (0 < length counts)%nat →
  (pick counts stamps < length counts)%nat.
Proof.
  intros Hl Hn. unfold pick.
  destruct (pick_from_spec O counts stamps UINT64_MAX UINT64_MAX O Hl) as [[-> _]|(j&c&->&Hj&_)]; [done|].
  by apply lookup_lt_Some in Hj.
Qed.

Lemma concat_append_at (l : list (list bytes)) i x : (i < length l)%nat →
  concat (alter (fun ls => ls ++ [x]) i l) ≡ₚ concat l ++ [x].
Proof.
  revert i. induction l as [|y l IH]; intros i Hi; [cbn in Hi; lia|]. destruct i as [|i]; cbn.
  - rewrite <- app_assoc, <- (app_assoc y). apply Permutation_app_head. apply Permutation_app_comm.
  - rewrite <- app_assoc. apply Permutation_app_head. apply IH. cbn in Hi. lia.
Qed.

Record split_of (nodes : nat) (lines : list bytes) (os : list (list bytes)) : Prop := {
  sp_all : concat os ≡ₚ lines;
  sp_order i ls : os !! i = Some ls → ls `sublist_of` lines
}.

Lemma split_append nodes lines os i x : split_of nodes lines os → (i < length os)%nat →
  split_of nodes (lines ++ [x]) (alter (fun ls => ls ++ [x]) i os).
Proof.
  intros [Hall Hord] Hi. split.
  - rewrite concat_append_at by done. by rewrite Hall.
  - intros j ls Hj. rewrite list_lookup_alter in Hj. destruct (decide (i = j)) as [<-|Hne].
    + destruct (os !! i) as [ls0|] eqn:Hls; [|done]. injection Hj as <-.
      apply sublist_app; [by eapply Hord|done].
    + apply sublist_inserts_r. by eapply Hord.
Qed.

Lemma assign_ops_split mw nodes ops : (0 < nodes)%nat →
  let g := assign_ops mw nodes ops in
  gen_wf nodes g ∧ split_of nodes (ops.*1) (outs g).
Proof.
  intros Hn. induction ops as [|o ops IH] using rev_ind; intros g.
  { split; [apply initial_gen_wf|]. split.
    - cbn [outs g assign_ops foldl initial_gen fmap list_fmap]. clear.
      induction nodes as [|n IHn]; [done|]. exact IHn.
    - intros i ls Hi. apply lookup_replicate in Hi as [-> _]. apply sublist_nil_l. }
  destruct IH as [Hwf Hsp]. set (g0 := assign_ops mw nodes ops) in *.
  assert (g = assign_op mw g0 o) as Hg by (unfold g, assign_ops; apply foldl_snoc).
  split; [rewrite Hg; by apply assign_op_wf|]. rewrite Hg, fmap_app.
  destruct o as [line op]. cbn [assign_op outs fmap list_fmap fst].
  apply split_append; [done|]. destruct Hwf as [Ho Hl Hr Hw]. rewrite Ho.
  destruct (bool_decide _); [rewrite <- Hr; apply pick_range; lia|].
  destruct mw; [rewrite <- Hw; apply pick_range; lia|done].
Qed.

(** ** Padding *)
Lemma pad_node_wf nodes end_ts g i : gen_wf nodes g → gen_wf nodes (pad_node end_ts g i).
Proof.
  intros [? ? ? ?]. unfold pad_node. case_if; [|by split].
  split; cbn; by rewrite ?length_alter, ?length_insert.
Qed.

Lemma pad_node_stamp end_ts g i j t : last_ts g !! j = Some t →
  ∃ t', last_ts (pad_node end_ts g i) !! j = Some t' ∧ t ≤ t' ∧ (i = j → end_ts ≤ t') ∧ (end_ts ≤ t → end_ts ≤ t').
Proof.
  intros Hj. unfold pad_node. destruct (Z.ltb_spec (default 0 (last_ts g !! i)) end_ts) as [Hlt|Hge].
  - cbn [last_ts]. destruct (decide (i = j)) as [->|Hne].
    + rewrite Hj in Hlt. cbn in Hlt. exists end_ts. rewrite list_lookup_insert_eq by (by eapply lookup_lt_Some).
      split; [done|]. lia.
    + exists t. rewrite list_lookup_insert_ne by done. split; [done|]. split; [lia|]. split; [done|lia].
  - exists t. split; [done|]. split; [lia|]. split; [|done]. intros ->. rewrite Hj in Hge. done.
Qed.

Lemma pad_stamps end_ts nodes g : gen_wf nodes g →
  Forall (fun t => end_ts ≤ t) (last_ts (pad end_ts nodes g)) ∧ gen_wf nodes (pad end_ts nodes g).
Proof.
  intros Hwf. unfold pad.
  assert (∀ n, (n ≤ nodes)%nat → let g' := foldl (pad_node end_ts) g (seq 0 n) in
    gen_wf nodes g' ∧ ∀ j t, (j < n)%nat → last_ts g' !! j = Some t → end_ts ≤ t) as H.
  { induction n as [|n IH]; intros Hn; [split; [done|lia]|].
    rewrite seq_S, foldl_app. cbn [foldl]. destruct (IH ltac:(lia)) as [Hwf' Hall].
    set (g' := foldl (pad_node end_ts) g (seq 0 n)) in *. rewrite Nat.add_0_l.
    split; [by apply pad_node_wf|]. intros j t Hj Ht.
    destruct (lookup_lt_is_Some_2 (last_ts g') j) as [t0 Ht0]; [rewrite (gw_last _ _ Hwf'); lia|].
    destruct (pad_node_stamp end_ts g' n j t0 Ht0) as (t'&Ht'&_&H1&H2).
    rewrite Ht in Ht'. injection Ht' as <-. destruct (decide (n = j)) as [Hnj|Hnj]; [by apply H1|].
    apply H2. apply (Hall j t0); [lia|done]. }
  destruct (H nodes ltac:(lia)) as [Hwf' Hall]. split; [|done]. apply Forall_lookup. intros j t Ht.
  apply (Hall j t); [|done]. apply lookup_lt_Some in Ht. rewrite (gw_last _ _ Hwf') in Ht. done.
Qed.

(** What padding adds to an output: nothing, or one line. *)
Lemma pad_outs end_ts nodes g i ls : gen_wf nodes g → outs g !! i = Some ls →
  ∃ tail, outs (pad end_ts nodes g) !! i = Some (ls ++ tail) ∧ (tail = [] ∨ tail = [pad_line end_ts i]).
Proof.
  intros Hwf Hi. unfold pad.
  assert (∀ n, ∃ tail, outs (foldl (pad_node end_ts) g (seq 0 n)) !! i = Some (ls ++ tail) ∧
    (tail = [] ∨ ((i < n)%nat ∧ tail = [pad_line end_ts i]))) as H.
  { induction n as [|n IH].
    { exists []. cbn. rewrite app_nil_r. split; [done|by left]. }
    rewrite seq_S, foldl_app. cbn [foldl]. destruct IH as (tail&Ht&Hcase). rewrite Nat.add_0_l.
    set (g' := foldl (pad_node end_ts) g (seq 0 n)) in *. unfold pad_node. case_if.
    - cbn [outs]. rewrite list_lookup_alter. destruct (decide (n = i)) as [->|Hne].
      + rewrite Ht. cbn [fmap option_fmap option_map]. destruct Hcase as [->|[? _]]; [|lia].
        exists [pad_line end_ts i]. rewrite app_nil_r. split; [done|]. right. split; [lia|done].
      + exists tail. split; [done|]. destruct Hcase as [?|[? ?]]; [by left|right; split; [lia|done]].
    - exists tail. split; [done|]. destruct Hcase as [?|[? ?]]; [by left|right; split; [lia|done]]. }
  destruct (H nodes) as (tail&?&[?|[_ ?]]); exists tail; split; try done; [by left|by right].
Qed.

(** ** The two parsers *)
Lemma drop_eols_prefix x y : drop_eols x ≠ [] → drop_eols (x ++ y) = drop_eols x ++ y.
Proof. induction x as [|c x IH]; [done|]. cbn. destruct (is_eol c); [by apply IH|done]. Qed.

Lemma strip_eol_prefix a b : strip_eol b ≠ [] → strip_eol (a ++ b) = a ++ strip_eol b.
Proof.
  intros Hb. unfold strip_eol in *. rewrite rev_app_distr, drop_eols_prefix.
  - by rewrite rev_app_distr, rev_involutive.
  - intros Hn. by rewrite Hn in Hb.
Qed.

Lemma stoull_digits_inv ds v r : forallb is_digit ds = true → stoull ds = Some (v, r) →
  ds ≠ [] ∧ v = dec_value ds ∧ is_u64 v.
Proof.
  intros Hd. destruct ds as [|c ds]; [done|]. intros Hs. split; [done|].
  unfold stoull in Hs. destruct (digits_no_prefix _ Hd) as [H1 H2]. rewrite H1, H2 in Hs.
  rewrite <- (app_nil_r (c :: ds)) in Hs. rewrite span_digits_app in Hs by done.
  rewrite Z.gtb_ltb in Hs. destruct (Z.ltb_spec UINT64_MAX (dec_value (c :: ds))); [done|].
  injection Hs as <- _. split; [done|]. unfold is_u64, UINT64_MAX in *. split; [|lia].
  clear -Hd. unfold dec_value. assert (∀ l v, 0 ≤ v → forallb is_digit l = true → 0 ≤ dec_from v l) as H.
  { induction l as [|x l IH]; intros v Hv Hl; [done|]. cbn [forallb] in Hl.
    apply andb_prop in Hl as [Hx Hl]. pose proof (digit_value_range x Hx).
    unfold dec_from. cbn [foldl]. apply IH; [lia|done]. }
  by apply H.
Qed.

(** What the generator accepted. *)
Lemma parse_line_inv line out op ts_str req : parse_line line out = (true, op) →
  split_at "," line = Some (ts_str, req) →
  ∃ key_text r, strip_eol req = po_op op :: " "%char :: key_text ∧
    stoull ts_str = Some (po_ts_us op, r) ∧ head line ≠ Some "#"%char ∧
    ((po_op op = "P"%char ∨ po_op op = "U"%char) ∧ split_at ":" key_text = Some (po_key op, po_value op) ∨
     (po_op op = "D"%char ∨ po_op op = "G"%char) ∧ key_text = po_key op).
Proof.
  intros Hp Hs. unfold parse_line in Hp. destruct line as [|c0 line]; [done|].
  destruct (decide (c0 = "#"%char)) as [|Hc0]; [done|]. rewrite Hs in Hp.
  destruct (strip_eol req) as [|o [|sp [|x r]]]; try done.
  destruct (decide (sp = " "%char)) as [->|]; [|done]. cbv zeta in Hp.
  assert (Some c0 ≠ Some "#"%char) as Hh by congruence.
  destruct (bool_decide (o = "P"%char) || bool_decide (o = "U"%char)) eqn:Hw.
  - destruct (split_at ":" (x :: r)) as [[k v]|] eqn:Hk; [|done].
    destruct (stoull ts_str) as [[ts rr]|]; [|done]. injection Hp as <-. cbn.
    exists (x :: r), rr. do 3 (split; [done|]). left. split; [|done].
    apply orb_prop in Hw as [?%bool_decide_eq_true|?%bool_decide_eq_true]; [by left|by right].
  - destruct (bool_decide (o = "D"%char) || bool_decide (o = "G"%char)) eqn:Hr; [|done].
    destruct (stoull ts_str) as [[ts rr]|]; [|done]. injection Hp as <-. cbn.
    exists (x :: r), rr. do 3 (split; [done|]). right. split; [|done].
    apply orb_prop in Hr as [?%bool_decide_eq_true|?%bool_decide_eq_true]; [by left|by right].
Qed.

(** What the driver makes of an operation of the generator. *)
Definition view_of (op : ParsedOp) : ParsedLineView := {|
  ts_us := po_ts_us op; pl_op := po_op op; pl_key := po_key op;
  pl_value := if bool_decide (po_op op = "P"%char) || bool_decide (po_op op = "U"%char)
              then Some (po_value op) else None |}.

Lemma driver_reads_line line out op ts_str req : parse_line line out = (true, op) →
  split_at "," line = Some (ts_str, req) → forallb is_digit ts_str = true → po_key op ≠ [] →
  ":"%char ∉ po_key op → parse_line_view line = Some (view_of op).
Proof.
  intros Hp Hsplit Hd Hk Hc.
  destruct (parse_line_inv line out op ts_str req Hp Hsplit) as (kt&r&Hreq&Hts&Hh&Hcase).
  destruct (stoull_digits_inv _ _ _ Hd Hts) as (Hne&Hv&Hu).
  assert (parse_u64 ts_str = Some (po_ts_us op)) as Hpu.
  { rewrite parse_u64_spec, bool_decide_true, Hd by done. cbn [andb]. rewrite <- Hv. by rewrite w64_small. }
  apply split_at_some in Hsplit as [-> Hcomma].
  assert (strip_eol (ts_str ++ ","%char :: req) = ts_str ++ ","%char :: strip_eol req) as Hstrip.
  { change (ts_str ++ ","%char :: req) with (ts_str ++ [","%char] ++ req).
    rewrite app_assoc, strip_eol_prefix by (by rewrite Hreq). by rewrite <- app_assoc. }
  assert (match split_at ":" kt with Some (k, v) => (k, Some v) | None => (kt, None) end =
    (po_key op, pl_value (view_of op))) as Hkv.
  { cbn [pl_value view_of]. destruct Hcase as [[[Ho|Ho] ->]|[[Ho|Ho] ->]]; rewrite Ho; try done;
      by rewrite (proj2 (split_at_none _ _) Hc). }
  unfold parse_line_view. rewrite Hstrip, Hreq, (split_at_app _ _ _ Hcomma), Hpu.
  destruct ts_str as [|c0 t]; [done|]. cbn [app] in Hh |- *. cbn in Hh.
  rewrite decide_False by congruence. rewrite decide_True by done. rewrite Hkv. unfold view_of in *. by destruct (po_key op).
Qed.

(** The padding line is a read. *)
Lemma driver_reads_padding end_ts i : is_u64 end_ts → is_u64 (Z.of_nat i + 1) →
  ∃ key, parse_line_view (pad_line end_ts i) =
    Some {| ts_us := end_ts; pl_op := "G"; pl_key := key; pl_value := None |}.
Proof.
  intros He Hi. exists (str "__pad_node" ++ print_u64 (Z.of_nat i + 1)).
  destruct (print_u64_spec end_ts He) as (Hne&Hd&_). unfold pad_line, parse_line_view.
  pose proof (print_notin "," end_ts He ltac:(done)) as Hcomma.
  pose proof (parse_u64_print end_ts He) as Hpu.
  assert (head (print_u64 end_ts) ≠ Some "#"%char) as Hhash.
  { destruct (print_u64 end_ts) as [|c ds]; [done|]. intros [= ->]. done. }
  assert (strip_eol (print_u64 end_ts ++ str ",G __pad_node" ++ print_u64 (Z.of_nat i + 1)) =
    print_u64 end_ts ++ str ",G __pad_node" ++ print_u64 (Z.of_nat i + 1)) as Hstrip.
  { destruct (print_u64_spec _ Hi) as (Hne'&Hd'&_).
    rewrite app_assoc. destruct (exists_last Hne') as (ds&c&Heq). rewrite Heq in *.
    rewrite forallb_app in Hd'. cbn [forallb] in Hd'. apply andb_prop in Hd' as [_ [Hc _]%andb_prop].
    rewrite (app_assoc _ ds). rewrite <- (app_nil_r ((_ ++ ds) ++ [c])) at 1. apply strip_eol_app; [|done].
    unfold is_eol. rewrite !bool_decide_eq_false_2; [done|..]; intros ->; done. }
  rewrite Hstrip. change (str ",G __pad_node" ++ print_u64 (Z.of_nat i + 1)) with
    (","%char :: str "G __pad_node" ++ print_u64 (Z.of_nat i + 1)).
  rewrite (split_at_app _ _ _ Hcomma), Hpu. destruct (print_u64 end_ts) as [|c0 t] eqn:Hp; [done|].
  cbn [app]. rewrite decide_False by (intros ->; by apply Hhash).
  cbn [str String.list_ascii_of_string app]. rewrite decide_True by done.
  set (key := "_"%char :: _). assert (split_at ":" key = None) as ->; [|done].
  apply split_at_none. unfold key. rewrite !not_elem_of_cons. split_and!; try done.
  by apply print_notin.
Qed.

(** ** Properties *)

(** Every operation taken from the dataset goes to exactly one node, each
    node's trace keeps the order of the dataset, and padding only appends a
    last line to it. *)
Theorem generator_partitions (nodes : nat) (mw : bool) (ops : list (bytes * ParsedOp)) (end_ts : Z)
    (Hn : (0 < nodes)%nat) :
  let g := assign_ops mw nodes ops in
  concat (outs g) ≡ₚ ops.*1 ∧
  ∀ i ls, outs g !! i = Some ls → ls `sublist_of` ops.*1 ∧
    ∃ tail, outs (pad end_ts nodes g) !! i = Some (ls ++ tail) ∧
      (tail = [] ∨ tail = [pad_line end_ts i]).
Proof.
  intros g. destruct (assign_ops_split mw nodes ops Hn) as [Hwf [Hall Hord]].
  split; [done|]. intros i ls Hi. split; [by eapply Hord|]. by apply pad_outs.
Qed.

(** Before padding, reads are spread so that no two nodes differ by more
    than one, and so are writes when they are multi-node. *)
Theorem generator_balances (nodes : nat) (mw : bool) (ops : list (bytes * ParsedOp)) (i j : nat) (a b : Z)
    (Hn : (0 < nodes)%nat) (Hlen : Z.of_nat (length ops) < UINT64_MAX - 1) :
  let g := assign_ops mw nodes ops in
  (read_counts g !! i = Some a → read_counts g !! j = Some b → Z.abs (a - b) ≤ 1) ∧
  (mw = true → write_counts g !! i = Some a → write_counts g !! j = Some b → Z.abs (a - b) ≤ 1).
Proof.
  intros g. destruct (assign_ops_balanced mw nodes ops Hn Hlen) as (_&Hr&Hw). fold g in Hr, Hw.
  assert (∀ cs, balanced (Z.of_nat (length ops)) cs → cs !! i = Some a → cs !! j = Some b →
    Z.abs (a - b) ≤ 1) as Hb.
  { intros cs (m&_&Hall) Ha Hb. rewrite Forall_lookup in Hall.
    pose proof (Hall _ _ Ha). pose proof (Hall _ _ Hb). lia. }
  split; [by apply Hb|]. intros Hm. by apply Hb, Hw.
Qed.

(** After padding no node's trace ends before the end of the dataset. *)
Theorem padding_reaches_end (nodes : nat) (mw : bool) (ops : list (bytes * ParsedOp)) (i : nat) (t : Z)
    (Hn : (0 < nodes)%nat) :
  last_ts (pad (end_ts_us ops) nodes (assign_ops mw nodes ops)) !! i = Some t → end_ts_us ops ≤ t.
Proof.
  destruct (assign_ops_split mw nodes ops Hn) as [Hwf _].
  destruct (pad_stamps (end_ts_us ops) nodes _ Hwf) as [Hall _]. rewrite Forall_lookup in Hall. apply Hall.
Qed.

(** The replay driver reads a line as the generator does: a line the
    generator accepts, with a time stamp of digits only, a nonempty key and no
    colon in the key, is parsed by the driver to the same time stamp,
    operation and key, and a write to the same value. *)
Theorem driver_reads_generated_lines (line : bytes) (out op : ParsedOp) (ts_str req : bytes)
    (Hp : parse_line line out = (true, op)) (Hsplit : split_at "," line = Some (ts_str, req))
    (Hd : forallb is_digit ts_str = true) (Hk : po_key op ≠ []) (Hc : ":"%char ∉ po_key op) :
  ∃ v, parse_line_view line = Some v ∧ ts_us v = po_ts_us op ∧ pl_op v = po_op op ∧
    pl_key v = po_key op ∧
    (po_op op = "P"%char ∨ po_op op = "U"%char → pl_value v = Some (po_value op)).
Proof.
  eexists. split; [by eapply driver_reads_line|]. do 3 (split; [done|]). cbn [pl_value view_of].
  by intros [-> | ->].
Qed.

(** ** Concrete inputs *)
Module Examples.

Definition dataset : list bytes :=
  [str "0,P k1:v1"; str "5,G k1"; str "oops"; str "7,G k2"; str "9,U k1:v2"; str "12,G k3"; str "15,D k1"].
Definition ops : list (bytes * ParsedOp) := accepted 0 0 dataset default_op.

Example dataset_split :
  (outs <$> generate 2 0 true (unlines dataset)) =
  Some [[str "0,P k1:v1"; str "5,G k1"; str "12,G k3"; str "15,G __pad_node1"];
        [str "7,G k2"; str "9,U k1:v2"; str "15,D k1"]].
Proof. by vm_compute. Qed.

(** A dataset whose operations all have time stamp 0 is reported as empty. *)
Example zero_stamps_rejected :
  length (accepted 0 0 [str "0,P k1:v1"; str "0,G k1"] default_op) = 2%nat ∧
  generate 2 0 true (unlines [str "0,P k1:v1"; str "0,G k1"]) = None.
Proof. by vm_compute. Qed.

Example generator_partitions_witness :
  concat (outs (assign_ops true 2 ops)) ≡ₚ ops.*1.
Proof. apply (generator_partitions 2 true ops 15). lia. Defined.

Example generator_balances_witness : Z.abs (2 - 1) ≤ 1.
Proof.
  destruct (generator_balances 2 true ops 0 1 2 1) as [H _]; [lia|by vm_compute|].
  apply H; by vm_compute.
Defined.

Example padding_reaches_end_witness : end_ts_us ops ≤ 15.
Proof. apply (padding_reaches_end 2 true ops 1 15); [lia|by vm_compute]. Defined.

Definition parsed : ParsedOp := (parse_line (str "9,U k1:v2") default_op).2.

Example driver_reads_generated_lines_witness :
  ∃ v, parse_line_view (str "9,U k1:v2") = Some v ∧ ts_us v = 9 ∧ pl_value v = Some (str "v2").
Proof.
  destruct (driver_reads_generated_lines (str "9,U k1:v2") default_op parsed (str "9") (str "U k1:v2"))
    as (v&Hv&Hts&_&_&Hval).
  - by vm_compute.
  - by vm_compute.
  - by vm_compute.
  - by vm_compute.
  - apply split_at_none. by vm_compute.
  - exists v. split; [exact Hv|]. split; [exact Hts|]. apply Hval. right. by vm_compute.
Defined.

End Examples.
