(* ===== verification/StatsFile.v ===== *)
(** The statistics file: [write_stats_csv] of [src/main.cpp] writes it,
    [parse_csv_file] of [src/bandle_aggregate.cpp] reads it, and the summary
    loop of the aggregator merges the nodes. *)
From S2P Require Import Prelude Histogram KVStore Message NodeState Bandle Execute Stats Text.

(** ** [write_stats_csv] *)

(** What the driver adds to [Bandle::ReplayStats]. *)
Record RunTimes := {
  rt_real_start_ns : Z;
  rt_work_done_ns : Z;
  rt_real_end_ns : Z;
  rt_tsc_hz : Z
}.

(** Fields separated by commas. *)
Fixpoint commas (fields : list bytes) : bytes :=
  match fields with
  | [] => []
  | [f] => f
  | f :: rest => f ++ ","%char :: commas rest
  end.

Definition meta_line (node_id : Z) (t : RunTimes) (s : ReplayStats) : bytes :=
  commas [str "META"; print_u64 node_id; print_u64 (rt_real_start_ns t); print_u64 (rt_work_done_ns t);
          print_u64 (rt_real_end_ns t); print_u64 (rs_ok_ops s); print_u64 (rs_read_ops s);
          print_u64 (rs_write_ops s); print_u64 (rt_tsc_hz t)].

(** The loop over the buckets from the [i]-th on. *)
Fixpoint bucket_lines (tag : bytes) (i : Z) (cs : list Z) : list bytes :=
  match cs with
  | [] => []
  | c :: cs' =>
      if c =? 0 then bucket_lines tag (i + 1) cs'
      else commas [tag; print_u64 i; print_u64 c] :: bucket_lines tag (i + 1) cs'
  end.

Definition write_stats_csv (node_id : Z) (t : RunTimes) (s : ReplayStats) : bytes :=
  unlines (meta_line node_id t s ::
           bucket_lines (str "READ") 0 (counts_ (rs_read_latency s)) ++
           bucket_lines (str "WRITE") 0 (counts_ (rs_write_latency s))).

(** ** [parse_csv_file] *)
Record NodeStats := {
  ns_node_id : Z;
  ns_real_start_ns : Z;
  ns_work_done_ns : Z;
  ns_real_end_ns : Z;
  ns_ok_ops : Z;
  ns_read_ops : Z;
  ns_write_ops : Z;
  ns_tsc_hz : Z;
  ns_read_latency : LatencyHistogram;
  ns_write_latency : LatencyHistogram;
  ns_perf : gmap bytes Z
}.

Definition default_stats : NodeStats := {|
  ns_node_id := 0; ns_real_start_ns := 0; ns_work_done_ns := 0; ns_real_end_ns := 0; ns_ok_ops := 0;
  ns_read_ops := 0; ns_write_ops := 0; ns_tsc_hz := 0; ns_read_latency := empty_histogram;
  ns_write_latency := empty_histogram; ns_perf := ∅ |}.

(** The string stream of a line.  A reader threads [tok] and the stream;
    [None] is the exception of a number that does not parse. *)
Definition Reader (A : Type) : Type := bytes * stream → option (A * (bytes * stream)).

Definition reader_ret {A} (a : A) : Reader A := λ st, Some (a, st).
Definition reader_bind {A B} (m : Reader A) (f : A → Reader B) : Reader B :=
  λ st, match m st with Some (a, st') => f a st' | None => None end.

Declare Scope reader_scope.
Delimit Scope reader_scope with reader.
Notation "'let*' x := m 'in' f" := (reader_bind m (λ x, f))
  (at level 10, x name, m at level 200, f at level 200) : reader_scope.

(** [std::getline(ss, tok, ',')], and whether it succeeded. *)
Definition next_token : Reader bool := λ st,
  let '(ok, tok, ss) := getline "," st.1 st.2 in Some (ok, (tok, ss)).

(** A number read from [tok]. *)
Definition number (conv : bytes → option (Z * bytes)) : Reader Z := λ st,
  match conv st.1 with Some (v, _) => Some (v, st) | None => None end.

Definition next_u64 : Reader Z := (let* _ := next_token in number stoull)%reader.

(** The fields of a META line. *)
Definition parse_meta (out : NodeStats) : Reader NodeStats :=
  (let* id := next_u64 in
   let* start := next_u64 in
   let* third := next_u64 in
   λ '(tok, ss),
   let '(ok, next_tok, ss) := getline "," [] ss in
   if ok : bool then
     match stoull next_tok with
     | None => None
     | Some (end_ns, _) =>
         (let* ok_ops := next_u64 in
          let* reads := next_u64 in
          let* writes := next_u64 in
          let* hz := next_u64 in
          reader_ret {|
            ns_node_id := id; ns_real_start_ns := start; ns_work_done_ns := third;
            ns_real_end_ns := end_ns; ns_ok_ops := ok_ops; ns_read_ops := reads; ns_write_ops := writes;
            ns_tsc_hz := hz; ns_read_latency := ns_read_latency out;
            ns_write_latency := ns_write_latency out; ns_perf := ns_perf out |}) (tok, ss)
     end
   else
     Some ({| ns_node_id := id; ns_real_start_ns := start; ns_work_done_ns := 0;
              ns_real_end_ns := third; ns_ok_ops := ns_ok_ops out; ns_read_ops := ns_read_ops out;
              ns_write_ops := ns_write_ops out; ns_tsc_hz := ns_tsc_hz out;
              ns_read_latency := ns_read_latency out; ns_write_latency := ns_write_latency out;
              ns_perf := ns_perf out |}, (tok, ss)))%reader.

Definition with_histograms (r w : LatencyHistogram) (out : NodeStats) : NodeStats := {|
  ns_node_id := ns_node_id out; ns_real_start_ns := ns_real_start_ns out;
  ns_work_done_ns := ns_work_done_ns out; ns_real_end_ns := ns_real_end_ns out;
  ns_ok_ops := ns_ok_ops out; ns_read_ops := ns_read_ops out; ns_write_ops := ns_write_ops out;
  ns_tsc_hz := ns_tsc_hz out; ns_read_latency := r; ns_write_latency := w; ns_perf := ns_perf out |}.

Definition with_perf (p : gmap bytes Z) (out : NodeStats) : NodeStats := {|
  ns_node_id := ns_node_id out; ns_real_start_ns := ns_real_start_ns out;
  ns_work_done_ns := ns_work_done_ns out; ns_real_end_ns := ns_real_end_ns out;
  ns_ok_ops := ns_ok_ops out; ns_read_ops := ns_read_ops out; ns_write_ops := ns_write_ops out;
  ns_tsc_hz := ns_tsc_hz out; ns_read_latency := ns_read_latency out;
  ns_write_latency := ns_write_latency out; ns_perf := p |}.

(** A READ or WRITE line. *)
Definition parse_bucket (is_read : bool) (out : NodeStats) : Reader NodeStats :=
  (let* _ := next_token in
   let* idx := number stoi in
   let* cnt := next_u64 in
   reader_ret
     (if is_read then with_histograms (add_bucket idx cnt (ns_read_latency out)) (ns_write_latency out) out
      else with_histograms (ns_read_latency out) (add_bucket idx cnt (ns_write_latency out)) out))%reader.

(** A PERF line. *)
Definition parse_perf (out : NodeStats) : Reader NodeStats := λ '(tok, ss),
  let '(_, name, ss) := getline "," [] ss in
  let '(_, val, ss) := getline "," [] ss in
  match name, val with
  | _ :: _, _ :: _ =>
      match stoull val with
      | Some (v, _) => Some (with_perf (<[name := v]> (ns_perf out)) out, (tok, ss))
      | None => None
      end
  | _, _ => Some (out, (tok, ss))
  end.

(** The body of the loop over the lines. *)
Definition parse_csv_line (line : bytes) (out : NodeStats) : option NodeStats :=
  match line with
  | [] => Some out
  | _ =>
      let '(_, tag, ss) := getline "," [] (Some line) in
      let run (m : Reader NodeStats) := fst <$> m ([], ss) in
      if decide (tag = str "META") then run (parse_meta out)
      else if decide (tag = str "READ") then run (parse_bucket true out)
      else if decide (tag = str "WRITE") then run (parse_bucket false out)
      else if decide (tag = str "PERF") then run (parse_perf out)
      else Some out
  end.

Definition parse_lines (lines : list bytes) (out : option NodeStats) : option NodeStats :=
  foldl (λ acc line, acc ≫= parse_csv_line line) out lines.

Definition parse_csv_file (content : bytes) : option NodeStats :=
  parse_lines (lines_of content) (Some default_stats).

(** ** The summary of the aggregator *)
Record Summary := {
  cluster_start : Z;
  cluster_end : Z;
  total_ok : Z;
  total_reads : Z;
  total_writes : Z;
  sum_tsc_hz : Z;
  tsc_mismatch : bool;
  cluster_read : LatencyHistogram;
  cluster_write : LatencyHistogram
}.

Definition empty_summary : Summary := {|
  cluster_start := 0; cluster_end := 0; total_ok := 0; total_reads := 0; total_writes := 0;
  sum_tsc_hz := 0; tsc_mismatch := false; cluster_read := empty_histogram;
  cluster_write := empty_histogram |}.

Definition add_node (c : Summary) (n : NodeStats) : Summary := {|
  cluster_start :=
    if negb (ns_real_start_ns n =? 0) && ((cluster_start c =? 0) || (ns_real_start_ns n <? cluster_start c))
    then ns_real_start_ns n else cluster_start c;
  cluster_end :=
    if negb (ns_real_end_ns n =? 0) && (ns_real_end_ns n >? cluster_end c)
    then ns_real_end_ns n else cluster_end c;
  total_ok := total_ok c +₆₄ ns_ok_ops n;
  total_reads := total_reads c +₆₄ ns_read_ops n;
  total_writes := total_writes c +₆₄ ns_write_ops n;
  sum_tsc_hz := if negb (ns_tsc_hz n =? 0) && (sum_tsc_hz c =? 0) then ns_tsc_hz n else sum_tsc_hz c;
  tsc_mismatch :=
    tsc_mismatch c ||
    (negb (ns_tsc_hz n =? 0) && negb (sum_tsc_hz c =? 0) && negb (sum_tsc_hz c =? ns_tsc_hz n));
  cluster_read := merge (cluster_read c) (ns_read_latency n);
  cluster_write := merge (cluster_write c) (ns_write_latency n) |}.

Definition summarize (nodes : list NodeStats) : Summary := foldl add_node empty_summary nodes.

Definition has_perf (nodes : list NodeStats) : bool := existsb (λ n, bool_decide (ns_perf n ≠ ∅)) nodes.

(** The wrapped sum and the maximum of a counter over the nodes that have it. *)
Definition sum_key (k : bytes) (nodes : list NodeStats) : Z :=
  foldl (λ sum n, match ns_perf n !! k with Some v => sum +₆₄ v | None => sum end) 0 nodes.
Definition max_key (k : bytes) (nodes : list NodeStats) : Z :=
  foldl (λ mx n, match ns_perf n !! k with Some v => Z.max mx v | None => mx end) 0 nodes.

(** [bucket_upper_value], for the [int] indices of buckets. *)
Definition bucket_upper_value (idx : Z) : Z :=
  if idx + 1 <? BUCKETS then bucket_lower_value (idx + 1)
  else let lower := bucket_lower_value idx in if lower =? 0 then 1 else lower <<₆₄ 1.

(** ** Lemmas *)
Lemma getline_field old f g rest : ","%char ∉ f →
  getline "," old (Some (commas (f :: g :: rest))) = (true, f, Some (commas (g :: rest))).
Proof. intros Hf. unfold getline. cbn [commas]. by rewrite split_at_app. Qed.

Lemma getline_last old f : ","%char ∉ f → f ≠ [] →
  getline "," old (Some (commas [f])) = (true, f, None).
Proof.
  intros Hf Hne. unfold getline. cbn [commas]. rewrite (proj2 (split_at_none _ _) Hf). by destruct f.
Qed.

Lemma next_u64_field n old g rest : is_u64 n →
  next_u64 (old, Some (commas (print_u64 n :: g :: rest))) =
    Some (n, (print_u64 n, Some (commas (g :: rest)))).
Proof.
  intros Hn. unfold next_u64, reader_bind, next_token, number. cbn [fst snd].
  rewrite getline_field by (by apply print_notin). cbn [fst]. by rewrite stoull_print.
Qed.

Lemma next_u64_last n old : is_u64 n →
  next_u64 (old, Some (commas [print_u64 n])) = Some (n, (print_u64 n, None)).
Proof.
  intros Hn. unfold next_u64, reader_bind, next_token, number. cbn [fst snd].
  rewrite getline_last; [|by apply print_notin|apply (print_u64_spec n Hn)].
  cbn [fst]. by rewrite stoull_print.
Qed.

Lemma reader_bind_some {A B} (m : Reader A) (f : A → Reader B) st a st' :
  m st = Some (a, st') → reader_bind m f st = f a st'.
Proof. unfold reader_bind. by intros ->. Qed.

(** A line whose first field is one of the tags. *)
Lemma tagged_line tag f rest : ","%char ∉ tag → tag ≠ [] →
  ∃ x l, commas (tag :: f :: rest) = x :: l ∧
    getline "," [] (Some (commas (tag :: f :: rest))) = (true, tag, Some (commas (f :: rest))).
Proof.
  intros Ht Hne. rewrite getline_field by done. destruct tag as [|x t]; [done|]. by exists x, (t ++ ","%char :: commas (f :: rest)).
Qed.

Lemma parse_bucket_fields is_read idx cnt out old : 0 ≤ idx < BUCKETS → is_u64 cnt →
  fst <$> parse_bucket is_read out (old, Some (commas [print_u64 idx; print_u64 cnt])) =
    Some (if is_read then with_histograms (add_bucket idx cnt (ns_read_latency out)) (ns_write_latency out) out
          else with_histograms (ns_read_latency out) (add_bucket idx cnt (ns_write_latency out)) out).
Proof.
  unfold BUCKETS, MAX_EXP, SUB_BUCKETS. intros Hi Hc.
  unfold parse_bucket. unfold reader_bind at 1, next_token. cbn [fst snd].
  rewrite getline_field by (apply print_notin; [unfold is_u64; lia|done]).
  rewrite (reader_bind_some _ _ _ idx (print_u64 idx, Some (commas [print_u64 cnt]))).
  - by rewrite (reader_bind_some _ _ _ _ _ (next_u64_last cnt _ Hc)).
  - unfold number. cbn [fst]. by rewrite stoi_print by lia.
Qed.

(** The bucket lines of one histogram rebuild it. *)
Definition tag_of (is_read : bool) : bytes := if is_read then str "READ" else str "WRITE".

Lemma parse_bucket_line is_read idx cnt out : 0 ≤ idx < BUCKETS → is_u64 cnt →
  parse_csv_line (commas [tag_of is_read; print_u64 idx; print_u64 cnt]) out =
    Some (if is_read then with_histograms (add_bucket idx cnt (ns_read_latency out)) (ns_write_latency out) out
          else with_histograms (ns_read_latency out) (add_bucket idx cnt (ns_write_latency out)) out).
Proof.
  intros Hi Hc. rewrite <- (parse_bucket_fields is_read idx cnt out []) by done.
  assert (","%char ∉ tag_of is_read) by (apply split_at_none; by destruct is_read).
  destruct (tagged_line (tag_of is_read) (print_u64 idx) [print_u64 cnt]) as (x&l&Hl&Hg);
    [done|by destruct is_read|].
  unfold parse_csv_line. rewrite Hg, Hl. by destruct is_read.
Qed.

Lemma parse_lines_cons l ls out : parse_lines (l :: ls) out = parse_lines ls (out ≫= parse_csv_line l).
Proof. done. Qed.

Lemma parse_lines_app l1 l2 out : parse_lines (l1 ++ l2) out = parse_lines l2 (parse_lines l1 out).
Proof. apply foldl_app. Qed.

Lemma with_histograms_twice r w r' w' out :
  with_histograms r w (with_histograms r' w' out) = with_histograms r w out.
Proof. done. Qed.

Lemma parse_bucket_lines is_read i cs out : Forall is_u64 cs → 0 ≤ i → i + Z.of_nat (length cs) ≤ BUCKETS →
  parse_lines (bucket_lines (tag_of is_read) i cs) (Some out) =
    Some (if is_read then with_histograms (snapshot_buckets cs i (ns_read_latency out)) (ns_write_latency out) out
          else with_histograms (ns_read_latency out) (snapshot_buckets cs i (ns_write_latency out)) out).
Proof.
  intros Hcs. revert i out. induction Hcs as [|c cs Hc _ IH]; intros i out Hi Hl.
  { cbn. by destruct is_read, out. }
  cbn [length] in Hl. cbn [bucket_lines snapshot_buckets]. destruct (c =? 0); cbn [negb].
  { rewrite IH by lia. done. }
  rewrite parse_lines_cons. cbn [mbind option_bind].
  rewrite parse_bucket_line, IH by (done || lia). by destruct is_read.
Qed.

Lemma snapshot_buckets_id h : hist_sum h → snapshot_buckets (counts_ h) 0 empty_histogram = h.
Proof. apply atomic_snapshot_id. Qed.

(** Numbers and tags hold no newline, so the written lines are read back. *)
Lemma commas_notin c fs : Forall (λ f, c ∉ f) fs → c ≠ ","%char → c ∉ commas fs.
Proof.
  intros Hfs Hc. induction Hfs as [|f fs Hf Hfs IH]; [apply not_elem_of_nil|].
  destruct fs as [|g fs]; [done|]. cbn [commas] in *. rewrite not_elem_of_app, not_elem_of_cons.
  by split_and!.
Qed.

Lemma print_no_newline n : is_u64 n → newline ∉ print_u64 n.
Proof. intros Hn. by apply print_notin. Qed.

Lemma bucket_lines_no_newline is_read i cs : Forall is_u64 cs → 0 ≤ i →
  i + Z.of_nat (length cs) ≤ BUCKETS → Forall (λ l, newline ∉ l) (bucket_lines (tag_of is_read) i cs).
Proof.
  unfold BUCKETS, MAX_EXP, SUB_BUCKETS. intros Hcs. revert i.
  induction Hcs as [|c cs Hc _ IH]; intros i Hi Hl; [constructor|]. cbn [length bucket_lines] in *.
  destruct (c =? 0); [apply IH; lia|]. constructor; [|apply IH; lia].
  apply commas_notin; [|done]. repeat constructor.
  - apply split_at_none. by destruct is_read.
  - apply print_no_newline. unfold is_u64. lia.
  - by apply print_no_newline.
Qed.

(** The fields of a run that fit their types. *)
Record run_fits (node_id : Z) (t : RunTimes) (s : ReplayStats) : Prop := {
  rf_id : is_u64 node_id;
  rf_start : is_u64 (rt_real_start_ns t);
  rf_done : is_u64 (rt_work_done_ns t);
  rf_end : is_u64 (rt_real_end_ns t);
  rf_hz : is_u64 (rt_tsc_hz t);
  rf_ok : is_u64 (rs_ok_ops s);
  rf_reads : is_u64 (rs_read_ops s);
  rf_writes : is_u64 (rs_write_ops s);
  rf_read_hist : hist_sum (rs_read_latency s);
  rf_write_hist : hist_sum (rs_write_latency s)
}.

(** What the aggregator holds of a node after reading its file. *)
Definition stats_read (node_id : Z) (t : RunTimes) (s : ReplayStats) : NodeStats := {|
  ns_node_id := node_id; ns_real_start_ns := rt_real_start_ns t;
  ns_work_done_ns := rt_work_done_ns t; ns_real_end_ns := rt_real_end_ns t;
  ns_ok_ops := rs_ok_ops s; ns_read_ops := rs_read_ops s; ns_write_ops := rs_write_ops s;
  ns_tsc_hz := rt_tsc_hz t; ns_read_latency := rs_read_latency s;
  ns_write_latency := rs_write_latency s; ns_perf := ∅ |}.

Lemma parse_meta_line node_id t s : run_fits node_id t s →
  parse_csv_line (meta_line node_id t s) default_stats =
    Some (with_histograms empty_histogram empty_histogram (stats_read node_id t s)).
Proof.
  intros []. unfold meta_line.
  match goal with |- parse_csv_line (commas (?tag :: ?f :: ?rest)) _ = _ =>
    destruct (tagged_line tag f rest) as (x&l&Hl&Hg); [by apply split_at_none|done|] end.
  unfold parse_csv_line. rewrite Hg, Hl. rewrite decide_True by done. unfold parse_meta.
  do 3 (erewrite reader_bind_some by (by apply next_u64_field)). cbv beta iota.
  rewrite getline_field by (by apply print_notin). rewrite stoull_print by done. cbv iota beta.
  do 3 (erewrite reader_bind_some by (by apply next_u64_field)).
  by erewrite reader_bind_some by (by apply next_u64_last).
Qed.

Lemma parse_written node_id t s : run_fits node_id t s →
  parse_csv_file (write_stats_csv node_id t s) = Some (stats_read node_id t s).
Proof.
  intros Hf. pose proof Hf as [? ? ? ? ? ? ? ? [[Hrl Hrc _] Hrt] [[Hwl Hwc _] Hwt]].
  assert (is_u64 BUCKETS ∧ 0 ≤ BUCKETS) as [_ HB] by (split; [by vm_compute|unfold BUCKETS, MAX_EXP, SUB_BUCKETS; lia]).
  unfold parse_csv_file, write_stats_csv. rewrite lines_of_unlines; cycle 1.
  { constructor; cycle 1.
    - apply Forall_app. split; [apply (bucket_lines_no_newline true)|apply (bucket_lines_no_newline false)];
        (done || lia).
    - apply commas_notin; [|done]. repeat constructor; try (by apply print_no_newline).
      by apply split_at_none. }
  rewrite parse_lines_cons. cbn [mbind option_bind].
  rewrite parse_meta_line, parse_lines_app by done.
  rewrite (parse_bucket_lines true), (parse_bucket_lines false) by (done || lia).
  cbn [with_histograms ns_read_latency ns_write_latency].
  rewrite !snapshot_buckets_id by apply Hf. done.
Qed.

(** Recorded samples keep the total in step with the buckets. *)
Lemma record_all_sum xs : Forall is_u64 xs → hist_sum (record_all xs empty_histogram).
Proof.
  intros Hxs. unfold record_all. generalize empty_hist_sum. generalize empty_histogram.
  induction Hxs as [|x xs Hx _ IH]; intros h Hh; [done|]. cbn [foldl]. apply IH.
  unfold record. by apply bump_sum; [apply index_for_range|].
Qed.

(** ** The summary *)
Record NodeRun := {
  nr_id : Z;
  nr_times : RunTimes;
  nr_stats : ReplayStats;
  nr_reads : list Z;
  nr_writes : list Z
}.

(** The file of a run, and a run whose histograms recorded its samples. *)
Definition file_of (r : NodeRun) : bytes := write_stats_csv (nr_id r) (nr_times r) (nr_stats r).

Record recorded_run (r : NodeRun) : Prop := {
  rr_fits : run_fits (nr_id r) (nr_times r) (nr_stats r);
  rr_reads : rs_read_latency (nr_stats r) = record_all (nr_reads r) empty_histogram;
  rr_writes : rs_write_latency (nr_stats r) = record_all (nr_writes r) empty_histogram
}.

Definition node_of (r : NodeRun) : NodeStats := stats_read (nr_id r) (nr_times r) (nr_stats r).

Lemma parse_files runs : Forall recorded_run runs →
  mapM (λ r, parse_csv_file (file_of r)) runs = Some (node_of <$> runs).
Proof.
  intros Hr. apply mapM_Some. induction Hr as [|r runs Hr _ IH]; constructor; [|done].
  apply parse_written, Hr.
Qed.

Lemma summarize_snoc nodes n : summarize (nodes ++ [n]) = add_node (summarize nodes) n.
Proof. unfold summarize. by rewrite foldl_app. Qed.

Lemma w64_zsum_snoc {A} (f : A → Z) (l : list A) (x : A) :
  w64 (zsum (f <$> l ++ [x])) = w64 (zsum (f <$> l)) +₆₄ f x.
Proof. rewrite fmap_app, zsum_app, w64_add_l. cbn. f_equal. lia. Qed.

Lemma summarize_totals nodes :
  total_ok (summarize nodes) = w64 (zsum (ns_ok_ops <$> nodes)) ∧
  total_reads (summarize nodes) = w64 (zsum (ns_read_ops <$> nodes)) ∧
  total_writes (summarize nodes) = w64 (zsum (ns_write_ops <$> nodes)).
Proof.
  induction nodes as [|n nodes IH] using rev_ind; [done|]. rewrite summarize_snoc, !w64_zsum_snoc.
  destruct IH as (<-&<-&<-). done.
Qed.

Lemma summarize_histograms runs : Forall recorded_run runs →
  cluster_read (summarize (node_of <$> runs)) = record_all (concat (nr_reads <$> runs)) empty_histogram ∧
  cluster_write (summarize (node_of <$> runs)) = record_all (concat (nr_writes <$> runs)) empty_histogram.
Proof.
  induction runs as [|r runs IH] using rev_ind; [done|].
  intros [Hrs [Hr _]%Forall_cons]%Forall_app. destruct (IH Hrs) as [IH1 IH2]. destruct Hr as [_ Hr Hw].
  rewrite !fmap_app, !concat_app. cbn [fmap list_fmap concat]. rewrite !app_nil_r, summarize_snoc.
  cbn [add_node cluster_read cluster_write node_of stats_read ns_read_latency ns_write_latency].
  by rewrite IH1, IH2, Hr, Hw, !merge_recorded.
Qed.

(** The first clock frequency that is not 0, and whether another differs. *)
Lemma summarize_tsc nodes :
  (sum_tsc_hz (summarize nodes) = 0 → ∀ n, n ∈ nodes → ns_tsc_hz n = 0) ∧
  (sum_tsc_hz (summarize nodes) ≠ 0 → ∃ n, n ∈ nodes ∧ ns_tsc_hz n = sum_tsc_hz (summarize nodes)) ∧
  (tsc_mismatch (summarize nodes) = false ↔
     ∀ n, n ∈ nodes → ns_tsc_hz n = 0 ∨ ns_tsc_hz n = sum_tsc_hz (summarize nodes)).
Proof.
  induction nodes as [|n nodes (IH0&IH1&IHm)] using rev_ind.
  { cbn. split_and!; [by intros _ n ?%elem_of_nil|done|]. split; [by intros _ n ?%elem_of_nil|done]. }
  rewrite summarize_snoc. set (c := summarize nodes) in *. cbn [add_node sum_tsc_hz tsc_mismatch].
  setoid_rewrite elem_of_app. setoid_rewrite list_elem_of_singleton.
  destruct (Z.eqb_spec (ns_tsc_hz n) 0) as [Hn|Hn]; cbn [negb andb].
  { rewrite orb_false_r, IHm. split_and!.
    - intros H0 m [Hm| ->]; [by apply IH0|done].
    - intros H1. destruct (IH1 H1) as (m&?&?). exists m. auto.
    - split; [intros H m [Hm| ->]; [by apply H|by left]|intros H m Hm; apply H; by left]. }
  destruct (Z.eqb_spec (sum_tsc_hz c) 0) as [Hc|Hc]; cbn [negb andb].
  { rewrite orb_false_r, IHm. split_and!.
    - done.
    - intros _. exists n. auto.
    - split; [intros _ m [Hm| ->]; [left; by apply IH0|by right]|].
      intros _ m Hm. left. by apply IH0. }
  split_and!.
  - done.
  - intros H1. destruct (IH1 H1) as (m&?&?). exists m. auto.
  - rewrite orb_false_iff, IHm, negb_false_iff, Z.eqb_eq. split.
    + intros [H Hcn] m [Hm| ->]; [by apply H|by right].
    + intros H. split; [intros m Hm; apply H; by left|]. destruct (H n); [by right|done|done].
Qed.

(** ** Bounds of the buckets *)
Lemma bucket_upper_next idx : 0 ≤ idx → idx + 1 < BUCKETS →
  bucket_upper_value idx = 2 ^ ((idx + 1) / 16) + (idx + 1) mod 16 * bucket_width ((idx + 1) / 16).
Proof.
  intros H0 H1. unfold bucket_upper_value. rewrite (proj2 (Z.ltb_lt _ _)) by done.
  apply bucket_lower_closed. lia.
Qed.

(** ** Properties *)

(** C33: the aggregator reads back from a node's statistics file exactly the
    numbers and the two latency histograms the node wrote. *)
Theorem stats_file_roundtrip (node_id : Z) (t : RunTimes) (s : ReplayStats) (Hfit : run_fits node_id t s) :
  parse_csv_file (write_stats_csv node_id t s) = Some {|
    ns_node_id := node_id; ns_real_start_ns := rt_real_start_ns t;
    ns_work_done_ns := rt_work_done_ns t; ns_real_end_ns := rt_real_end_ns t;
    ns_ok_ops := rs_ok_ops s; ns_read_ops := rs_read_ops s; ns_write_ops := rs_write_ops s;
    ns_tsc_hz := rt_tsc_hz t; ns_read_latency := rs_read_latency s;
    ns_write_latency := rs_write_latency s; ns_perf := ∅ |}.
Proof. by apply parse_written. Qed.

(** Aggregating the files of a set of nodes gives the histograms of all
    their samples together, and the sums of their counters; no node has
    performance counters. *)
Theorem cluster_summary_of_files (runs : list NodeRun) (Hruns : Forall recorded_run runs) :
  ∃ nodes, mapM (λ r, parse_csv_file (file_of r)) runs = Some nodes ∧
    let c := summarize nodes in
    cluster_read c = record_all (concat (nr_reads <$> runs)) empty_histogram ∧
    cluster_write c = record_all (concat (nr_writes <$> runs)) empty_histogram ∧
    total_ok c = w64 (zsum ((λ r, rs_ok_ops (nr_stats r)) <$> runs)) ∧
    total_reads c = w64 (zsum ((λ r, rs_read_ops (nr_stats r)) <$> runs)) ∧
    total_writes c = w64 (zsum ((λ r, rs_write_ops (nr_stats r)) <$> runs)) ∧
    has_perf nodes = false.
Proof.
  exists (node_of <$> runs). split; [by apply parse_files|]. cbv zeta.
  destruct (summarize_histograms runs Hruns) as [-> ->].
  destruct (summarize_totals (node_of <$> runs)) as (->&->&->). rewrite <- !list_fmap_compose.
  split_and!; try done. unfold has_perf. clear. induction runs as [|r runs IH]; [done|]. by cbn.
Qed.

(** The warning about clock frequencies is printed exactly when two nodes
    report different frequencies that are not 0. *)
Theorem tsc_mismatch_detected (nodes : list NodeStats) :
  tsc_mismatch (summarize nodes) = false ↔
  ∀ n m, n ∈ nodes → m ∈ nodes → ns_tsc_hz n ≠ 0 → ns_tsc_hz m ≠ 0 → ns_tsc_hz n = ns_tsc_hz m.
Proof.
  destruct (summarize_tsc nodes) as (H0&H1&Hm). rewrite Hm. split.
  - intros H n m Hn Hm' Hn0 Hm0. destruct (H n Hn), (H m Hm'); congruence.
  - intros H n Hn. destruct (decide (ns_tsc_hz n = 0)) as [|Hne]; [by left|right].
    destruct (decide (sum_tsc_hz (summarize nodes) = 0)) as [Hz|Hz]; [by rewrite H0 in Hne|].
    destruct (H1 Hz) as (m&Hin&Heq). rewrite <- Heq. apply H; congruence.
Qed.

(** A sample lies between the bounds the aggregator takes for its bucket,
    except in the last bucket, whose upper bound wraps around and falls below
    its lower bound. *)
Theorem bucket_bounds_enclose (v : Z) (Hv : is_u64 v) :
  bucket_lower_value (index_for v) ≤ v ∧
  (index_for v + 1 < BUCKETS → v < bucket_upper_value (index_for v)) ∧
  bucket_upper_value (BUCKETS - 1) < bucket_lower_value (BUCKETS - 1).
Proof.
  split; [|split; [|by vm_compute]].
  - destruct (decide (v ≤ 1)) as [|Hgt].
    { assert (v = 0 ∨ v = 1) as [-> | ->] by (unfold is_u64 in Hv; lia); by vm_compute. }
    unfold is_u64 in Hv. rewrite bucket_lower_index by lia.
    pose proof (sub_bucket_bounds v ltac:(lia)) as (Hs&_). lia.
  - intros Hi. destruct (decide (v = 0)) as [->|Hne]; [by vm_compute|].
    pose proof (index_for_range v Hv) as Hr. unfold is_u64 in Hv.
    rewrite bucket_upper_next by lia.
    destruct (sub_bucket_bounds v ltac:(lia)) as (_&Hs&_).
    destruct (index_for_split v ltac:(lia)) as (He&Hm&Hs15).
    destruct (log2_octave v ltac:(lia)) as [Hlog Hb]. unfold BUCKETS, MAX_EXP, SUB_BUCKETS in *.
    set (e := Z.log2 v) in *. set (s := Z.min 15 ((v - 2 ^ e) / bucket_width e)) in *.
    pose proof (Z.div_mod (index_for v) 16 ltac:(lia)) as Hdm. rewrite He, Hm in Hdm.
    destruct (decide (s = 15)) as [Hs'|Hs'].
    + assert ((index_for v + 1) / 16 = e + 1) as -> by (Z.to_euclidean_division_equations; lia).
      assert ((index_for v + 1) mod 16 = 0) as -> by (Z.to_euclidean_division_equations; lia).
      rewrite Z.pow_add_r by lia. lia.
    + assert ((index_for v + 1) / 16 = e) as -> by (Z.to_euclidean_division_equations; lia).
      assert ((index_for v + 1) mod 16 = s + 1) as -> by (Z.to_euclidean_division_equations; lia).
      assert (v - 2 ^ e < (s + 1) * bucket_width e) by (apply Hs; lia). lia.
Qed.

(** ** Concrete inputs *)
Module Examples.

Definition reads : list Z := [100; 250; 1000].
Definition rs : ReplayStats := {|
  rs_total_ops := 4; rs_read_ops := 3; rs_write_ops := 1; rs_ok_ops := 4; rs_error_ops := 0;
  rs_read_latency := record_all reads empty_histogram;
  rs_write_latency := record_all [77] empty_histogram |}.
Definition times : RunTimes := {|
  rt_real_start_ns := 1000; rt_work_done_ns := 5000; rt_real_end_ns := 6000; rt_tsc_hz := 2400000000 |}.
Definition run (id : Z) : NodeRun :=
  {| nr_id := id; nr_times := times; nr_stats := rs; nr_reads := reads; nr_writes := [77] |}.

Lemma rs_fits id : is_u64 id → run_fits id times rs.
Proof.
  intros Hid. split; cbn [times rs rt_real_start_ns rt_work_done_ns rt_real_end_ns rt_tsc_hz
    rs_ok_ops rs_read_ops rs_write_ops rs_read_latency rs_write_latency].
  1: done.
  all: try (unfold is_u64; lia).
  all: apply record_all_sum; repeat constructor; unfold is_u64; lia.
Qed.

Example stats_file_roundtrip_witness :
  (ns_read_latency <$> parse_csv_file (write_stats_csv 2 times rs)) =
  Some (record_all reads empty_histogram).
Proof. rewrite (stats_file_roundtrip 2 times rs (rs_fits 2 ltac:(by vm_compute))). reflexivity. Defined.

Example cluster_summary_of_files_witness :
  ∃ nodes, mapM (λ r, parse_csv_file (file_of r)) [run 1; run 2; run 3] = Some nodes ∧
    cluster_read (summarize nodes) = record_all (reads ++ reads ++ reads) empty_histogram ∧
    total_ok (summarize nodes) = 12.
Proof.
  destruct (cluster_summary_of_files [run 1; run 2; run 3]) as (nodes&Hp&Hr&_&Ht&_).
  - repeat (constructor; [split; [apply rs_fits; unfold is_u64; cbn; lia|reflexivity|reflexivity]|]). constructor.
  - exists nodes. split; [exact Hp|]. split; [exact Hr|]. rewrite Ht. reflexivity.
Defined.

Example bucket_bounds_enclose_witness : 1000 < bucket_upper_value (index_for 1000).
Proof. apply (bucket_bounds_enclose 1000); by vm_compute. Defined.

(** A file of the format without [work_done_ns] is not recognised: its fields
    are read one position too far. *)
Example old_format_misread :
  (λ n, (ns_work_done_ns n, ns_real_end_ns n, ns_ok_ops n, ns_read_ops n, ns_write_ops n, ns_tsc_hz n)) <$>
    parse_csv_file (unlines [str "META,1,1000,6000,4,3,1,2400000000"]) =
  Some (6000, 4, 3, 1, 2400000000, 2400000000).
Proof. by vm_compute. Qed.

End Examples.
