(* ===== verification/Floats.v ===== *)
(** Upper bounds for rounded arithmetic.  The statistics are computed with the
    floating-point numbers of [SpecFloat]; a conversion back to [uint64_t] is
    defined only below 2^64.  [upto x b] says that [x] is a finite number between
    0 and [b]; the lemmas below bound the operations on such numbers, each by
    the exact result, a relative error [1 + u] and an absolute one [eta]. *)
From Stdlib Require Import Reals Lra SpecFloat.
From S2P Require Import Prelude Histogram.

(** ** Powers of two *)
Definition pow2 (e : Z) : R := powerRZ 2 e.

Lemma pow2_pos e : (0 < pow2 e)%R.
Proof. apply powerRZ_lt. lra. Qed.

Lemma pow2_add a b : pow2 (a + b) = (pow2 a * pow2 b)%R.
Proof. apply powerRZ_add. lra. Qed.

Lemma pow2_0 : pow2 0 = 1%R.
Proof. done. Qed.

Lemma pow2_1 : pow2 1 = 2%R.
Proof. apply Rmult_1_r. Qed.

Lemma pow2_IZR e : 0 ≤ e → pow2 e = IZR (2 ^ e).
Proof.
  intros He. unfold pow2. rewrite <- (Z2Nat.id e) by done. rewrite <- pow_powerRZ, <- pow_IZR. done.
Qed.

Lemma pow2_le a b : a ≤ b → (pow2 a <= pow2 b)%R.
Proof.
  intros Hab. replace b with (a + (b - a)) by lia. rewrite pow2_add, (pow2_IZR (b - a)) by lia.
  assert (1 <= IZR (2 ^ (b - a)))%R as H1 by (apply IZR_le; pose proof (Z.pow_pos_nonneg 2 (b - a)); lia).
  pose proof (pow2_pos a). nra.
Qed.

Lemma pow2_lt_inv a b : (pow2 a < pow2 b)%R → a < b.
Proof. intros Hab. destruct (Z.lt_ge_cases a b) as [|Hba]; [done|]. pose proof (pow2_le b a Hba). lra. Qed.

Lemma pow2_opp e : (pow2 (- e) * pow2 e = 1)%R.
Proof. rewrite <- pow2_add, Z.add_opp_diag_l. done. Qed.

(** A quotient by a power of two, rounded down. *)
Lemma div_pow2_le m e n : 0 ≤ n → (IZR (m / 2 ^ n) * pow2 (e + n) <= IZR m * pow2 e)%R.
Proof.
  intros Hn. rewrite Z.add_comm, pow2_add, (pow2_IZR n) by done. rewrite <- Rmult_assoc, <- mult_IZR.
  apply Rmult_le_compat_r; [left; apply pow2_pos|]. apply IZR_le.
  pose proof (Z.mul_div_le m (2 ^ n)). pose proof (Z.pow_pos_nonneg 2 n). lia.
Qed.

(** ** Digits and shifts *)
Lemma digits2_spec p : 2 ^ (Z.pos (digits2_pos p) - 1) ≤ Z.pos p < 2 ^ Z.pos (digits2_pos p).
Proof.
  induction p as [p IH|p IH|]; [| |done]; cbn [digits2_pos]; rewrite Pos2Z.inj_succ, Z.sub_1_r, Z.pred_succ, Z.pow_succ_r by lia.
  all: assert (2 ^ Z.pos (digits2_pos p) = 2 * 2 ^ (Z.pos (digits2_pos p) - 1)) as Hd
    by (rewrite <- Z.pow_succ_r by lia; f_equal; lia); lia.
Qed.

Lemma digits_pow2 p e : (pow2 (Zdigits2 (Z.pos p) + e) <= 2 * (IZR (Z.pos p) * pow2 e))%R.
Proof.
  cbn [Zdigits2]. set (d := Z.pos (digits2_pos p)). pose proof (digits2_spec p) as [Hp _]. fold d in Hp.
  replace (d + e) with (1 + ((d - 1) + e)) by lia. rewrite !pow2_add, (pow2_IZR (d - 1)) by lia.
  rewrite pow2_1. apply IZR_le in Hp. pose proof (pow2_pos e). nra.
Qed.

Lemma digits_lt_pow2 p e : (IZR (Z.pos p) * pow2 e < pow2 (Zdigits2 (Z.pos p) + e))%R.
Proof.
  cbn [Zdigits2]. set (d := Z.pos (digits2_pos p)). pose proof (digits2_spec p) as [_ Hp]. fold d in Hp.
  rewrite pow2_add, (pow2_IZR d) by lia. apply IZR_lt in Hp. pose proof (pow2_pos e). nra.
Qed.

Lemma shr_1_m r : 0 ≤ shr_m r → shr_m (shr_1 r) = shr_m r / 2.
Proof.
  destruct r as [m r s]. cbn [shr_m]. intros Hm. rewrite <- Z.div2_div. by destruct m as [|[]|[]].
Qed.

Lemma iter_shr_1_m n r : 0 ≤ shr_m r → shr_m (SpecFloat.iter_pos shr_1 n r) = shr_m r / 2 ^ Z.pos n.
Proof.
  revert r. induction n as [n IH|n IH|]; intros r Hr; cbn [SpecFloat.iter_pos].
  - pose proof (shr_1_m r Hr) as H1. assert (0 ≤ shr_m (shr_1 r)) as Hr1 by (rewrite H1; apply Z.div_pos; lia).
    pose proof (IH _ Hr1) as H2.
    rewrite IH by (rewrite H2; apply Z.div_pos; lia). rewrite H2, H1, !Z.div_div by lia. f_equal.
    replace (Z.pos n~1) with (1 + (Z.pos n + Z.pos n)) by lia. rewrite !Z.pow_add_r by lia. ring.
  - pose proof (IH _ Hr) as H1. rewrite IH by (rewrite H1; apply Z.div_pos; lia).
    rewrite H1, Z.div_div by lia. f_equal. replace (Z.pos n~0) with (Z.pos n + Z.pos n) by lia.
    by rewrite Z.pow_add_r by lia.
  - by apply shr_1_m.
Qed.

Lemma shr_spec r e n : 0 ≤ shr_m r →
  shr_m (shr r e n).1 = shr_m r / 2 ^ Z.max n 0 ∧ (shr r e n).2 = e + Z.max n 0.
Proof.
  intros Hr. destruct n as [|n|n]; cbn [shr fst snd]; rewrite ?Z.div_1_r.
  - split; [by rewrite ?Z.div_1_r|lia].
  - split; [by apply iter_shr_1_m|lia].
  - split; [by rewrite ?Z.div_1_r|lia].
Qed.

(** ** Rounding *)

(** A finite number between 0 and [b]. *)
Definition upto (x : spec_float) (b : R) : Prop :=
  match x with
  | S754_zero _ => (0 <= b)%R
  | S754_finite false m e => (IZR (Z.pos m) * pow2 e <= b)%R
  | _ => False
  end.

Lemma upto_le x a b : (a <= b)%R → upto x a → upto x b.
Proof. intros Hab. destruct x as [[]|[]| |[] m e]; cbn; try done; lra. Qed.

Lemma upto_nonneg x b : upto x b → (0 <= b)%R.
Proof.
  destruct x as [[]|[]| |[] m e]; cbn; try done. intros Hb. pose proof (pow2_pos e).
  assert (0 <= IZR (Z.pos m))%R by (apply IZR_le; lia). nra.
Qed.

Lemma round_nearest_even_spec m l : m ≤ round_nearest_even m l ≤ m + 1 ∧
  (l = loc_Exact → round_nearest_even m l = m).
Proof. destruct l as [|[]]; cbn; [|destruct (Z.even m)|..]; split; try done; lia. Qed.

Lemma shr_record_of_loc_m m l : shr_m (shr_record_of_loc m l) = m.
Proof. by destruct l as [|[]]. Qed.

Lemma loc_of_shr_record_of_loc m l : loc_of_shr_record (shr_record_of_loc m l) = l.
Proof. by destruct l as [|[]]. Qed.

Section Rounding.
Context (prec emax : Z) (Hprec : 0 < prec).

(** Rounding adds at most the last place kept. *)
Lemma round_aux_upto m e l k K : 0 ≤ m → fexp prec emax (Zdigits2 m + e) ≤ k → l = loc_Exact ∨ e ≤ k →
  (IZR m * pow2 e + pow2 k < pow2 K)%R → K ≤ emax - prec →
  upto (binary_round_aux prec emax false m e l) (IZR m * pow2 e + pow2 k).
Proof.
  intros Hm Hk Hl HK Hemax. unfold binary_round_aux, shr_fexp. set (n := fexp prec emax (Zdigits2 m + e) - e) in *.
  destruct (shr_spec (shr_record_of_loc m l) e n) as [H1 H2]; [by rewrite shr_record_of_loc_m|].
  rewrite shr_record_of_loc_m in H1.
  destruct (shr (shr_record_of_loc m l) e n) as [r1 e1] eqn:Hshr. cbn [fst snd] in H1, H2.
  destruct (round_nearest_even_spec (shr_m r1) (loc_of_shr_record r1)) as [Hr Hex].
  set (m1 := round_nearest_even (shr_m r1) (loc_of_shr_record r1)) in *.
  assert (0 ≤ shr_m r1) as Hr1 by (rewrite H1; apply Z.div_pos; lia).
  assert (IZR m1 * pow2 e1 <= IZR m * pow2 e + pow2 k)%R as Hb.
  { pose proof (div_pow2_le m e (Z.max n 0) ltac:(lia)) as Hd. rewrite <- H1, <- H2 in Hd.
    pose proof (pow2_pos e1). pose proof (pow2_pos k).
    destruct (Z.eq_dec m1 (shr_m r1)) as [->|Hne]; [lra|].
    assert (e1 ≤ k) as Hek.
    { destruct (Z.le_gt_cases n 0) as [Hn|Hn]; [|unfold n in *; lia]. destruct Hl as [->|]; [|lia].
      exfalso. apply Hne, Hex. rewrite Z.max_r in H1, H2 by lia.
      assert (shr (shr_record_of_loc m loc_Exact) e n = (shr_record_of_loc m loc_Exact, e)) as Hs by (by destruct n).
      rewrite Hs in Hshr. injection Hshr as <- _. done. }
    pose proof (pow2_le _ _ Hek). assert (IZR m1 <= IZR (shr_m r1) + 1)%R by (rewrite <- plus_IZR; apply IZR_le; lia).
    nra. }
  set (n1 := fexp prec emax (Zdigits2 m1 + e1) - e1).
  destruct (shr_spec (shr_record_of_loc m1 loc_Exact) e1 n1) as [H3 H4]; [cbn; lia|].
  destruct (shr (shr_record_of_loc m1 loc_Exact) e1 n1) as [r2 e2]. cbn [fst snd shr_m shr_record_of_loc] in H3, H4.
  pose proof (div_pow2_le m1 e1 (Z.max n1 0) ltac:(lia)) as Hd. rewrite <- H3, <- H4 in Hd.
  assert (0 ≤ shr_m r2) as Hr2 by (rewrite H3; apply Z.div_pos; lia).
  pose proof (pow2_pos e). pose proof (pow2_pos k). assert (0 <= IZR m)%R by (by apply IZR_le).
  destruct (shr_m r2) as [|m2|m2] eqn:Hm2; [cbn; nra| |lia].
  assert (e2 < K) as He2.
  { apply pow2_lt_inv. pose proof (pow2_pos e2). assert (1 <= IZR (Z.pos m2))%R by (apply IZR_le; lia). nra. }
  rewrite (proj2 (Z.leb_le _ _)) by lia. cbn. lra.
Qed.

(** The relative and the absolute error. *)
Abbreviation u := (pow2 (1 - prec)).
Abbreviation eta := (pow2 (emin prec emax)).

Lemma fexp_error d e p : d ≤ Zdigits2 (Z.pos p) + e →
  (pow2 (fexp prec emax d) <= IZR (Z.pos p) * pow2 e * u + eta)%R.
Proof.
  intros Hd. pose proof (digits_pow2 p e) as Hp. pose proof (pow2_le _ _ Hd).
  unfold fexp. pose proof (pow2_pos (d - prec)). pose proof (pow2_pos (emin prec emax)).
  assert (pow2 (d - prec) <= IZR (Z.pos p) * pow2 e * u)%R as Hu.
  { replace (d - prec) with ((d - 1) + (1 - prec)) by lia. rewrite pow2_add.
    apply Rmult_le_compat_r; [left; apply pow2_pos|].
    pose proof (pow2_add 1 (d - 1)) as Hd1. rewrite pow2_1, Z.add_sub_assoc, Z.add_simpl_l in Hd1. lra. }
  destruct (Z.max_spec (d - prec) (emin prec emax)) as [[_ ->]|[_ ->]]; lra.
Qed.

Lemma shr_zero e n : ∃ e', shr (shr_record_of_loc 0 loc_Exact) e n = (shr_record_of_loc 0 loc_Exact, e').
Proof.
  destruct n as [|n|n]; [by eexists| |by eexists]. exists (e + Z.pos n). cbn [shr]. f_equal.
  induction n as [n IH|n IH|]; cbn [SpecFloat.iter_pos shr_record_of_loc shr_1 orb] in *; by rewrite ?IH.
Qed.

(** An exact value rounded. *)
Lemma round_exact_upto m e b K : 0 ≤ m → (IZR m * pow2 e <= b)%R → (b * (1 + u) + eta < pow2 K)%R →
  K ≤ emax - prec → upto (binary_round_aux prec emax false m e loc_Exact) (b * (1 + u) + eta).
Proof.
  intros Hm Hb HK Hemax. pose proof (pow2_pos (1 - prec)) as Hu. pose proof (pow2_pos (emin prec emax)).
  destruct m as [|p|p]; [|clear Hm|lia].
  { assert (binary_round_aux prec emax false 0 e loc_Exact = S754_zero false) as ->; [|cbn; nra].
    unfold binary_round_aux, shr_fexp.
    destruct (shr_zero e (fexp prec emax (Zdigits2 0 + e) - e)) as [e1 ->].
    change (round_nearest_even _ _) with 0.
    destruct (shr_zero e1 (fexp prec emax (Zdigits2 0 + e1) - e1)) as [e2 ->]. done. }
  pose proof (fexp_error (Zdigits2 (Z.pos p) + e) e p ltac:(lia)) as He.
  apply upto_le with (IZR (Z.pos p) * pow2 e + pow2 (fexp prec emax (Zdigits2 (Z.pos p) + e)))%R; [nra|].
  apply round_aux_upto with K; [lia|lia|by left|nra|done].
Qed.

Lemma iter_xO m d : Z.pos (Pos.iter xO m d) = Z.pos m * 2 ^ Z.pos d.
Proof.
  induction d as [|d IH] using Pos.peano_ind; [cbn; lia|].
  rewrite Pos.iter_succ, Pos2Z.inj_succ, Z.pow_succ_r, Pos2Z.inj_xO, IH by lia. lia.
Qed.

Lemma shl_align_value m e e' :
  (IZR (Z.pos (shl_align m e e').1) * pow2 (shl_align m e e').2 = IZR (Z.pos m) * pow2 e)%R.
Proof.
  unfold shl_align. destruct (e' - e) as [|d|d] eqn:Hd; [done|done|]. cbn [fst snd].
  rewrite iter_xO, mult_IZR, <- pow2_IZR, Rmult_assoc, <- pow2_add by lia. do 2 f_equal. lia.
Qed.

Lemma shl_align_exp m e e' : e' ≤ e → (shl_align m e e').2 = e'.
Proof. unfold shl_align. intros He. destruct (e' - e) eqn:Hd; cbn; lia. Qed.

Lemma binary_round_upto m e b K : (IZR (Z.pos m) * pow2 e <= b)%R → (b * (1 + u) + eta < pow2 K)%R →
  K ≤ emax - prec → upto (binary_round prec emax false m e) (b * (1 + u) + eta).
Proof.
  intros Hb HK Hemax. unfold binary_round.
  pose proof (shl_align_value m e (fexp prec emax (Z.pos (digits2_pos m) + e))) as Hv.
  destruct (shl_align _ _ _) as [mz ez]. cbn [fst snd] in Hv. apply round_exact_upto with K; try done. by rewrite Hv.
Qed.

Lemma normalize_upto m e b K : 0 ≤ m → (IZR m * pow2 e <= b)%R → (b * (1 + u) + eta < pow2 K)%R →
  K ≤ emax - prec → upto (binary_normalize prec emax m e false) (b * (1 + u) + eta).
Proof.
  intros Hm Hb HK Hemax. pose proof (pow2_pos (1 - prec)). pose proof (pow2_pos (emin prec emax)).
  destruct m as [|m|m]; [cbn; nra|by apply binary_round_upto with K|lia].
Qed.

(** ** Operations *)
Lemma SFmul_upto x y a b K : upto x a → upto y b → (a * b * (1 + u) + eta < pow2 K)%R → K ≤ emax - prec →
  upto (SFmul prec emax x y) (a * b * (1 + u) + eta).
Proof.
  intros Hx Hy HK Hemax. pose proof (pow2_pos (1 - prec)). pose proof (pow2_pos (emin prec emax)).
  pose proof (upto_nonneg _ _ Hx). pose proof (upto_nonneg _ _ Hy). assert (0 <= a * b)%R by nra.
  destruct x as [[]|[]| |[] m1 e1], y as [[]|[]| |[] m2 e2]; try done; cbn [upto SFmul xorb] in *; try nra.
  apply round_exact_upto with K; [lia| |done|done].
  rewrite Pos2Z.inj_mul, mult_IZR, pow2_add. pose proof (pow2_pos e1). pose proof (pow2_pos e2).
  assert (0 <= IZR (Z.pos m1))%R by (apply IZR_le; lia). assert (0 <= IZR (Z.pos m2))%R by (apply IZR_le; lia).
  set (v := (IZR (Z.pos m1) * pow2 e1)%R) in *. set (w := (IZR (Z.pos m2) * pow2 e2)%R) in *.
  replace (IZR (Z.pos m1) * IZR (Z.pos m2) * (pow2 e1 * pow2 e2))%R with (v * w)%R by (unfold v, w; ring).
  assert (0 <= v)%R by (unfold v; nra). assert (0 <= w)%R by (unfold w; nra). nra.
Qed.

Lemma SFadd_upto x y a b K : upto x a → upto y b → ((a + b) * (1 + u) + eta < pow2 K)%R → K ≤ emax - prec →
  upto (SFadd prec emax x y) ((a + b) * (1 + u) + eta).
Proof.
  intros Hx Hy HK Hemax. pose proof (pow2_pos (1 - prec)). pose proof (pow2_pos (emin prec emax)).
  pose proof (upto_nonneg _ _ Hx). pose proof (upto_nonneg _ _ Hy).
  destruct x as [[]|[]| |[] m1 e1], y as [[]|[]| |[] m2 e2]; try done; cbn [upto SFadd cond_Zopp] in *; try nra.
  set (ez := Z.min e1 e2). apply normalize_upto with K; [lia| |done|done].
  pose proof (shl_align_value m1 e1 ez) as Hm1. pose proof (shl_align_value m2 e2 ez) as Hm2.
  rewrite shl_align_exp in Hm1, Hm2 by lia. rewrite plus_IZR, Rmult_plus_distr_r, Hm1, Hm2. lra.
Qed.

Lemma quotient_digits m1 e1 m2 e2 :
  (pow2 ((Zdigits2 (Z.pos m1) + e1) - (Zdigits2 (Z.pos m2) + e2) - prec) <=
   IZR (Z.pos m1) * pow2 e1 / (IZR (Z.pos m2) * pow2 e2) * u)%R.
Proof.
  set (d := (Zdigits2 (Z.pos m1) + e1) - (Zdigits2 (Z.pos m2) + e2)).
  replace (d - prec) with ((d - 1) + (1 - prec)) by lia. rewrite pow2_add.
  pose proof (digits_pow2 m1 e1) as H1'. pose proof (digits_lt_pow2 m2 e2) as H2'.
  pose proof (pow2_pos e2). assert (0 < IZR (Z.pos m2))%R by (apply IZR_lt; lia).
  set (X := (IZR (Z.pos m1) * pow2 e1)%R) in *. set (Y := (IZR (Z.pos m2) * pow2 e2)%R) in *.
  assert (0 < Y)%R by (unfold Y; nra).
  apply Rmult_le_compat_r; [left; apply pow2_pos|]. apply (Rmult_le_reg_r (2 * Y)); [lra|].
  replace (X / Y * (2 * Y))%R with (2 * X)%R by (field; lra).
  apply Rle_trans with (pow2 (d - 1) * (2 * pow2 (Zdigits2 (Z.pos m2) + e2)))%R.
  - pose proof (pow2_pos (d - 1)). nra.
  - rewrite <- pow2_1, <- !pow2_add. replace (d - 1 + (1 + (Zdigits2 (Z.pos m2) + e2))) with (Zdigits2 (Z.pos m1) + e1)
      by (unfold d; lia). rewrite pow2_1. lra.
Qed.

(** The quotient [SFdiv] rounds: at most the exact one, its last place small
    enough. *)
Lemma div_core m1 e1 m2 e2 (t := (IZR (Z.pos m1) * pow2 e1 / (IZR (Z.pos m2) * pow2 e2))%R) :
  let '(q, e, l) := SFdiv_core_binary prec emax (Z.pos m1) e1 (Z.pos m2) e2 in
  0 ≤ q ∧ (IZR q * pow2 e <= t)%R ∧ ∃ k, fexp prec emax (Zdigits2 q + e) ≤ k ∧ e ≤ k ∧ (pow2 k <= t * u + eta)%R.
Proof.
  unfold SFdiv_core_binary.
  set (d := (Zdigits2 (Z.pos m1) + e1) - (Zdigits2 (Z.pos m2) + e2)).
  set (e := Z.min (fexp prec emax d) (e1 - e2)). set (s := e1 - e2 - e).
  set (m' := match s with Z0 => Z.pos m1 | Z.pos _ => Z.shiftl (Z.pos m1) s | Z.neg _ => 0 end).
  assert (m' = Z.pos m1 * 2 ^ s) as Hm'.
  { unfold m'. assert (0 ≤ s) as Hs by lia. destruct s as [|s'|s'] eqn:Es; [by rewrite Z.mul_1_r|by rewrite Z.shiftl_mul_pow2|lia]. }
  clearbody m'. pose proof (Z.div_eucl_eq m' (Z.pos m2) ltac:(lia)) as Hq.
  pose proof (Z.mod_pos_bound m' (Z.pos m2) ltac:(lia)) as Hr0. unfold Z.modulo in Hr0.
  pose proof (Z.div_pos m' (Z.pos m2) ltac:(lia) ltac:(lia)) as Hq0. unfold Z.div in Hq0.
  destruct (Z.div_eucl m' (Z.pos m2)) as [q r]. cbn [fst snd] in *.
  pose proof (pow2_pos e1) as Hp1. pose proof (pow2_pos e2) as Hp2. pose proof (pow2_pos e) as Hpe.
  assert (0 < IZR (Z.pos m1))%R as Hz1 by (apply IZR_lt; lia). assert (0 < IZR (Z.pos m2))%R as Hz2 by (apply IZR_lt; lia).
  set (X := (IZR (Z.pos m1) * pow2 e1)%R) in *. set (Y := (IZR (Z.pos m2) * pow2 e2)%R) in *.
  assert (0 < X)%R by (unfold X; nra). assert (0 < Y)%R by (unfold Y; nra).
  assert (X = t * Y)%R as Ht by (unfold t; field; lra). assert (0 < t)%R by (unfold t; by apply Rdiv_lt_0_compat).
  assert (IZR q * pow2 e <= t)%R as Hqt.
  { apply (Rmult_le_reg_r Y); [done|]. rewrite <- Ht. unfold X, Y.
    apply Rle_trans with (IZR m' * (pow2 e * pow2 e2))%R.
    - assert (IZR q * IZR (Z.pos m2) <= IZR m')%R by (rewrite <- mult_IZR; apply IZR_le; lia).
      assert (0 < pow2 e * pow2 e2)%R by nra. nra.
    - rewrite Hm', mult_IZR, <- pow2_IZR, <- pow2_add, Rmult_assoc, <- pow2_add by lia. right. do 2 f_equal. unfold s. lia. }
  split; [done|]. split; [done|].
  pose proof (pow2_pos (emin prec emax)). pose proof (pow2_pos (1 - prec)). assert (0 < t * u)%R by nra.
  assert (pow2 (fexp prec emax d) <= t * u + eta)%R as Hd.
  { pose proof (quotient_digits m1 e1 m2 e2) as Hqd. fold d in Hqd. change (pow2 (d - prec) <= t * u)%R in Hqd.
    unfold fexp. destruct (Z.max_spec (d - prec) (emin prec emax)) as [[_ ->]|[_ ->]]; lra. }
  assert (pow2 e <= t * u + eta)%R as He by (apply Rle_trans with (pow2 (fexp prec emax d)); [apply pow2_le; lia|done]).
  exists (Z.max e (fexp prec emax (Zdigits2 q + e))). split; [lia|]. split; [lia|].
  destruct (Z.max_spec e (fexp prec emax (Zdigits2 q + e))) as [[_ ->]|[_ ->]]; [|done].
  destruct q as [|q|q]; [|clear Hq0|lia].
  - apply Rle_trans with (pow2 (Z.max e (emin prec emax))); [apply pow2_le; unfold fexp; cbn [Zdigits2]; lia|].
    destruct (Z.max_spec e (emin prec emax)) as [[_ ->]|[_ ->]]; lra.
  - pose proof (fexp_error (Zdigits2 (Z.pos q) + e) e q ltac:(lia)) as Hf. nra.
Qed.

Lemma SFdiv_upto x m2 e2 a b K : upto x a → (0 < b <= IZR (Z.pos m2) * pow2 e2)%R →
  (a / b * (1 + u) + eta < pow2 K)%R → K ≤ emax - prec →
  upto (SFdiv prec emax x (S754_finite false m2 e2)) (a / b * (1 + u) + eta).
Proof.
  intros Hx [Hb Hbv] HK Hemax. pose proof (upto_nonneg _ _ Hx) as Ha. pose proof (pow2_pos (1 - prec)).
  pose proof (pow2_pos (emin prec emax)).
  assert (0 <= a / b)%R by (apply Rmult_le_pos; [done|left; by apply Rinv_0_lt_compat]).
  destruct x as [[]|[]| |[] m1 e1]; try done; cbn [SFdiv xorb]; [cbn; nra..|].
  pose proof (div_core m1 e1 m2 e2) as Hdiv. cbv zeta in Hdiv. cbn [upto] in Hx.
  destruct (SFdiv_core_binary prec emax (Z.pos m1) e1 (Z.pos m2) e2) as [[q e] l].
  set (X := (IZR (Z.pos m1) * pow2 e1)%R) in *. set (Y := (IZR (Z.pos m2) * pow2 e2)%R) in *.
  destruct Hdiv as (Hq&Hqt&k&Hk&Hek&Hpk).
  assert (X / Y <= a / b)%R as Hle.
  { unfold Rdiv. apply Rmult_le_compat; [|left; apply Rinv_0_lt_compat; lra|done|by apply Rinv_le_contravar].
    unfold X. pose proof (pow2_pos e1). assert (0 <= IZR (Z.pos m1))%R by (apply IZR_le; lia). nra. }
  apply upto_le with (IZR q * pow2 e + pow2 k)%R; [nra|]. apply round_aux_upto with K; [done|done|by right|nra|done].
Qed.

(** ** Integers that fit are exact *)
Lemma digits_unique p k : 0 < k → 2 ^ (k - 1) ≤ Z.pos p < 2 ^ k → Z.pos (digits2_pos p) = k.
Proof.
  intros Hk [Hlo Hhi]. destruct (digits2_spec p) as [Dlo Dhi].
  assert (k - 1 < Z.pos (digits2_pos p)) by (apply (Z.pow_lt_mono_r_iff 2); lia).
  assert (Z.pos (digits2_pos p) - 1 < k) by (apply (Z.pow_lt_mono_r_iff 2); lia). lia.
Qed.

Lemma normalize_exact p : Z.pos p < 2 ^ prec → 2 * prec ≤ emax →
  ∃ m e, binary_normalize prec emax (Z.pos p) 0 false = S754_finite false m e ∧
    (IZR (Z.pos m) * pow2 e = IZR (Z.pos p))%R.
Proof.
  intros Hp Hemax. set (d := Z.pos (digits2_pos p)). destruct (digits2_spec p) as [Hlo Hhi]. fold d in Hlo, Hhi.
  assert (d - 1 < prec) as Hd by (apply (Z.pow_lt_mono_r_iff 2); lia).
  assert (fexp prec emax d = d - prec) as Hf by (unfold fexp, emin; lia).
  cbn [binary_normalize]. unfold binary_round. fold d. rewrite Z.add_0_r, Hf.
  pose proof (shl_align_value p 0 (d - prec)) as Hv. pose proof (shl_align_exp p 0 (d - prec) ltac:(lia)) as He.
  destruct (shl_align p 0 (d - prec)) as [m e]. cbn [fst snd] in Hv, He. subst e.
  rewrite pow2_0, Rmult_1_r in Hv. exists m, (d - prec). split; [|done].
  assert (Z.pos m = Z.pos p * 2 ^ (prec - d)) as Hm.
  { apply eq_IZR. rewrite mult_IZR, <- pow2_IZR, <- Hv, Rmult_assoc, <- pow2_add by lia.
    replace (d - prec + (prec - d)) with 0 by lia. by rewrite pow2_0, Rmult_1_r. }
  assert (Z.pos (digits2_pos m) = prec) as Hdm.
  { apply digits_unique; [done|]. rewrite Hm. pose proof (Z.pow_pos_nonneg 2 (prec - d)).
    assert (2 ^ (prec - 1) = 2 ^ (d - 1) * 2 ^ (prec - d)) as -> by (rewrite <- Z.pow_add_r by lia; f_equal; lia).
    assert (2 ^ prec = 2 ^ d * 2 ^ (prec - d)) as -> by (rewrite <- Z.pow_add_r by lia; f_equal; lia). nia. }
  assert (shr_fexp prec emax (Z.pos m) (d - prec) loc_Exact = (shr_record_of_loc (Z.pos m) loc_Exact, d - prec)) as Hs.
  { unfold shr_fexp. cbn [Zdigits2]. rewrite Hdm. replace (prec + (d - prec)) with d by lia. by rewrite Hf, Z.sub_diag. }
  unfold binary_round_aux. rewrite Hs. cbn [shr_record_of_loc shr_m loc_of_shr_record round_nearest_even].
  rewrite Hs. cbn [shr_record_of_loc shr_m]. by rewrite (proj2 (Z.leb_le _ _)) by lia.
Qed.

End Rounding.

(** ** The conversion to [uint64_t] is defined below 2^64 *)
Lemma u64_defined x b : upto x b → (b < pow2 64)%R → is_Some (u64_of_double x).
Proof.
  intros Hx Hb. destruct x as [[]|[]| |[] m e]; try done; cbn [upto u64_of_double] in *.
  assert (∀ k, (IZR k <= IZR (Z.pos m) * pow2 e)%R → k <=? UINT64_MAX = true) as Hk.
  { intros k Hk. apply Z.leb_le. assert (IZR k < pow2 64)%R as Hlt by lra. rewrite pow2_IZR in Hlt by done.
    apply lt_IZR in Hlt. unfold UINT64_MAX. lia. }
  destruct (Z.leb_spec 0 e) as [He|He].
  - rewrite Hk by (by rewrite mult_IZR, pow2_IZR). done.
  - rewrite Hk; [done|]. pose proof (div_pow2_le (Z.pos m) e (- e) ltac:(lia)) as Hd.
    by rewrite Z.add_opp_diag_r, pow2_0, Rmult_1_r in Hd.
Qed.
