(* ===== verification/Report.v ===== *)
(** The report of [src/bandle_aggregate.cpp]: from the statistics files of the
    nodes to what the program prints.  Times and means are x87 extended
    precision numbers ([long double]: 64 bits of precision, emax 16384), rounded
    to [double] when they are printed.  What [operator<<] makes of a number is
    left to the stream: the output is the list of the items handed to it. *)
From Stdlib Require Import SpecFloat.
From S2P Require Import Prelude Histogram KVStore Message NodeState Bandle Execute Stats Text StatsFile.

(** ** [long double] *)
Definition ld_of_u64 (n : Z) : spec_float := binary_normalize 64 16384 n 0 false.
Definition ld_zero : spec_float := S754_zero false.
Definition ld_add : spec_float → spec_float → spec_float := SFadd 64 16384.
Definition ld_mul : spec_float → spec_float → spec_float := SFmul 64 16384.
Definition ld_div : spec_float → spec_float → spec_float := SFdiv 64 16384.

(** [static_cast<double>]; [static_cast<uint64_t>] is [u64_of_double], which
    truncates a value of any format. *)
Definition double_of_ld (x : spec_float) : spec_float :=
  match x with
  | S754_finite s m e => binary_round 53 1024 s m e
  | _ => x
  end.

(** [ns_to_s] and [cycles_to_us]. *)
Definition ns_to_s (ns : Z) : spec_float := ld_div (ld_of_u64 ns) (ld_of_u64 1000000000).

Definition cycles_to_us (cycles tsc_hz : Z) : spec_float :=
  if tsc_hz =? 0 then ld_zero
  else ld_div (ld_mul (ld_of_u64 cycles) (ld_of_u64 1000000)) (ld_of_u64 tsc_hz).

(** The loop of [mean_cycles_from_hist] from bucket [i] on. *)
Definition bucket_middle (i : Z) : spec_float :=
  ld_div (ld_add (ld_of_u64 (bucket_lower_value i)) (ld_of_u64 (bucket_upper_value i))) (ld_of_u64 2).

Fixpoint mean_loop (i : Z) (cs : list Z) (sum : spec_float) (tot : Z) : spec_float * Z :=
  match cs with
  | [] => (sum, tot)
  | cnt :: cs =>
      if cnt =? 0 then mean_loop (i + 1) cs sum tot
      else mean_loop (i + 1) cs (ld_add sum (ld_mul (bucket_middle i) (ld_of_u64 cnt))) (tot +₆₄ cnt)
  end.

Definition mean_cycles_from_hist (h : LatencyHistogram) : spec_float :=
  let '(sum, tot) := mean_loop 0 (counts_ h) ld_zero 0 in
  if tot =? 0 then ld_zero else ld_div sum (ld_of_u64 tot).

(** ** Durations *)

(** The loop that takes the longest run of a node. *)
Definition longer (duration : spec_float) (n : NodeStats) : spec_float :=
  if ns_real_end_ns n >? ns_real_start_ns n then
    let node_dur := ns_to_s (ns_real_end_ns n -₆₄ ns_real_start_ns n) in
    if SFltb duration node_dur then node_dur else duration
  else duration.

Definition cluster_duration (nodes : list NodeStats) : spec_float := foldl longer ld_zero nodes.

Definition throughput_of (ok : Z) (duration : spec_float) : spec_float :=
  if SFltb ld_zero duration then ld_div (ld_of_u64 ok) duration else ld_zero.

(** [div_u64]. *)
Definition div_u64 (num den : Z) : spec_float :=
  if den =? 0 then ld_zero else ld_div (ld_of_u64 num) (ld_of_u64 den).

(** ** Output *)

(** What is handed to [std::cout]. *)
Inductive Item :=
| Text (s : string)
| Count (n : Z)
| Real (x : spec_float).

(** A [long double] that is printed as a [double]. *)
Definition real (x : spec_float) : Item := Real (double_of_ld x).

(** [0.50] and [0.99]. *)
Definition q50 : spec_float := SFdiv 53 1024 (double_of_u64 50) (double_of_u64 100).
Definition q99 : spec_float := SFdiv 53 1024 (double_of_u64 99) (double_of_u64 100).

(** The three numbers of a latency line, in clock cycles or, when the frequency
    is known, in microseconds; [None] where a conversion to [uint64_t] is
    undefined. *)
Definition latency_items (unit_label : string * string) (tsc_hz : Z) (h : LatencyHistogram) : option (list Item) :=
  p50 ← quantile_value h q50;
  p99 ← quantile_value h q99;
  let mean := mean_cycles_from_hist h in
  if tsc_hz =? 0 then
    Some [Text unit_label.1; Count p50; Text " / "; Count p99; Text " / "; real mean]
  else
    mean_cycles ← u64_of_double mean;
    Some [Text unit_label.2; real (cycles_to_us p50 tsc_hz); Text " / ";
          real (cycles_to_us p99 tsc_hz); Text " / "; real (cycles_to_us mean_cycles tsc_hz)].

Definition endl : list Item := [Text (String (ascii_of_nat 10) EmptyString)].

(** The first block: lines 223 to 229. *)
Definition cluster_items (count : nat) (duration : spec_float) (ok reads writes : Z) : list Item :=
  [Text "================ Cluster Summary ================"] ++ endl ++
  [Text "Nodes:            "; Count (Z.of_nat count)] ++ endl ++
  [Text "Duration (s):      "; real duration] ++ endl ++
  [Text "OK ops:            "; Count ok] ++ endl ++
  [Text "Read ops:          "; Count reads] ++ endl ++
  [Text "Write ops:         "; Count writes] ++ endl ++
  [Text "Throughput (ops/s):"; real (throughput_of ok duration)] ++ endl.

(** The counters of the optional second block. *)
Definition perf_counters (nodes : list NodeStats) : list Item :=
  let sum k := sum_key (str k) nodes in
  let largest k := max_key (str k) nodes in
  [Text "---------------- Perf Counters ----------------"] ++ endl ++
  [Text "submit_push_failures:            "; Count (sum "submit_push_failures"%string)] ++ endl ++
  [Text "submit_push_batches:             "; Count (sum "submit_push_batches"%string)] ++ endl ++
  [Text "submit_push_msgs:                "; Count (sum "submit_push_msgs"%string)] ++ endl ++
  [Text "submit_push_wait_cycles(sum):    "; Count (sum "submit_push_wait_cycles"%string)] ++ endl ++
  [Text "recv_read_retry:                 "; Count (sum "recv_read_retry"%string)] ++ endl ++
  [Text "recv_ring_max_avail(max):        "; Count (largest "recv_ring_max_avail"%string)] ++ endl ++
  [Text "recv_commit_batches:             "; Count (sum "recv_commit_batches"%string)] ++ endl ++
  [Text "localq_publish_wait_cycles(sum): "; Count (sum "localq_publish_wait_cycles"%string)] ++ endl ++
  [Text "localq_publish_wait_max_cycles:  "; Count (largest "localq_publish_wait_max_cycles"%string)] ++ endl ++
  [Text "localq_backlog_max(max):         "; Count (largest "localq_backlog_max"%string)] ++ endl ++
  [Text "recv_coord_empty_loops:          "; Count (sum "recv_coord_empty_loops"%string)] ++ endl ++
  [Text "recv_localq_empty_loops:         "; Count (sum "recv_localq_empty_loops"%string)] ++ endl ++
  [Text "handle_accept_count:             "; Count (sum "handle_accept_count"%string)] ++ endl ++
  [Text "handle_ack_count:                "; Count (sum "handle_ack_count"%string)] ++ endl ++
  [Text "handle_accept_apply_count:       "; Count (sum "handle_accept_apply_count"%string)] ++ endl ++
  [Text "handle_ack_apply_count:          "; Count (sum "handle_ack_apply_count"%string)] ++ endl.

(** A quotient, with its value in microseconds when the frequency is known. *)
Definition quotient_items (label : string) (tsc_hz : Z) (x : spec_float) : option (list Item) :=
  if tsc_hz =? 0 then Some ([Text label; real x] ++ endl)
  else
    cycles ← u64_of_double x;
    Some ([Text label; real x; Text " ("; real (cycles_to_us cycles tsc_hz); Text " us)"] ++ endl).

Definition perf_derived (tsc_hz : Z) (nodes : list NodeStats) : option (list Item) :=
  let sum k := sum_key (str k) nodes in
  let submit_batches := sum "submit_push_batches"%string in
  let hacc_cnt := sum "handle_accept_count"%string in
  let hack_cnt := sum "handle_ack_count"%string in
  wait ← quotient_items "submit_push_wait_cycles/batch:    " tsc_hz
           (div_u64 (sum "submit_push_wait_cycles"%string) submit_batches);
  publish ← quotient_items "localq_publish_wait_cycles/msg:  " tsc_hz
           (div_u64 (sum "localq_publish_wait_cycles"%string) (hacc_cnt +₆₄ hack_cnt));
  accept ← quotient_items "handle_accept_cycles/msg:        " tsc_hz
           (div_u64 (sum "handle_accept_cycles"%string) hacc_cnt);
  accept_apply ← quotient_items "handle_accept_apply_cycles/apply:" tsc_hz
           (div_u64 (sum "handle_accept_apply_cycles"%string) (sum "handle_accept_apply_count"%string));
  ack ← quotient_items "handle_ack_cycles/msg:           " tsc_hz
           (div_u64 (sum "handle_ack_cycles"%string) hack_cnt);
  ack_apply ← quotient_items "handle_ack_apply_cycles/apply:   " tsc_hz
           (div_u64 (sum "handle_ack_apply_cycles"%string) (sum "handle_ack_apply_count"%string));
  Some ([Text "---------------- Perf Derived ----------------"] ++ endl ++ wait ++
        [Text "submit_push_failures/batch:      ";
         real (div_u64 (sum "submit_push_failures"%string) submit_batches)] ++ endl ++
        publish ++ accept ++ accept_apply ++ ack ++ ack_apply).

Definition perf_items (tsc_hz : Z) (nodes : list NodeStats) : option (list Item) :=
  if has_perf nodes then derived ← perf_derived tsc_hz nodes; Some (perf_counters nodes ++ derived)
  else Some [].

(** The frequency and the latencies of the cluster: lines 355 to 374. *)
Definition cluster_latency (tsc_hz : Z) (mismatch : bool) (read write : LatencyHistogram) : option (list Item) :=
  reads ← latency_items ("Read  p50/p99/mean (cycles): ", "Read  p50/p99/mean (us): ")%string tsc_hz read;
  writes ← latency_items ("Write p50/p99/mean (cycles): ", "Write p50/p99/mean (us): ")%string tsc_hz write;
  let frequency :=
    if tsc_hz =? 0 then [Text "TSC Hz:            0 (cannot convert to us)"]
    else if mismatch then [Text "TSC Hz:            "; Count tsc_hz; Text " (warning: mismatch across nodes)"]
    else [Text "TSC Hz:            "; Count tsc_hz] in
  Some (frequency ++ endl ++ reads ++ endl ++ writes ++ endl).

(** The lines of one node: lines 378 to 415. *)
Definition node_items (n : NodeStats) : option (list Item) :=
  let end_ns := if negb (ns_work_done_ns n =? 0) then ns_work_done_ns n else ns_real_end_ns n in
  let node_dur_s := if end_ns >? ns_real_start_ns n then ns_to_s (end_ns -₆₄ ns_real_start_ns n) else ld_zero in
  reads ← latency_items ("  Read  p50/p99/mean (cycles): ", "  Read  p50/p99/mean (us): ")%string
            (ns_tsc_hz n) (ns_read_latency n);
  writes ← latency_items ("  Write p50/p99/mean (cycles): ", "  Write p50/p99/mean (us): ")%string
            (ns_tsc_hz n) (ns_write_latency n);
  let wait :=
    if negb (ns_work_done_ns n =? 0) && (ns_real_end_ns n >? ns_work_done_ns n)
    then [Text " wait_after_done_s="; real (ns_to_s (ns_real_end_ns n -₆₄ ns_work_done_ns n))] else [] in
  Some ([Text "Node "; Count (ns_node_id n); Text ": ops="; Count (ns_ok_ops n); Text " reads=";
         Count (ns_read_ops n); Text " writes="; Count (ns_write_ops n); Text " done_s="; real node_dur_s;
         Text " thr_ops_s="; real (throughput_of (ns_ok_ops n) node_dur_s)] ++ wait ++ endl ++
        reads ++ endl ++ writes ++ endl).

(** The whole output, after the files have been read. *)
Definition report (nodes : list NodeStats) : option (list Item) :=
  let c := summarize nodes in
  perf ← perf_items (sum_tsc_hz c) nodes;
  latency ← cluster_latency (sum_tsc_hz c) (tsc_mismatch c) (cluster_read c) (cluster_write c);
  each ← mapM node_items nodes;
  Some (cluster_items (length nodes) (cluster_duration nodes) (total_ok c) (total_reads c) (total_writes c) ++
        perf ++ latency ++ endl ++
        [Text "================ Per-Node Summary ================"] ++ endl ++ concat each).

(** How the program ends: with a code and its output, in an exception, or in
    undefined behaviour. *)
Inductive Ending :=
| Returns (code : Z) (output : list Item)
| Uncaught
| Undefined.

(** The loop that reads the files; an argument is the content of the file, if
    it can be opened. *)
Fixpoint read_files (files : list (option bytes)) (nodes : list NodeStats) : Ending + list NodeStats :=
  match files with
  | [] => inr nodes
  | None :: _ => inl (Returns 1 [])
  | Some content :: files =>
      match parse_csv_file content with
      | Some n => read_files files (nodes ++ [n])
      | None => inl Uncaught
      end
  end.

Definition aggregate (files : list (option bytes)) : Ending :=
  match files with
  | [] => Returns 2 []
  | _ =>
      match read_files files [] with
      | inl e => e
      | inr nodes => match report nodes with Some output => Returns 0 output | None => Undefined end
      end
  end.

(** ** Lemmas *)

(** The order of floating-point numbers is a strict weak order, NaN being
    below nothing. *)
Lemma SFltb_not_lt_trans x d y : SFltb d x = true → SFltb d y = false → SFltb x y = false.
Proof.
  unfold SFltb, SFcompare.
  destruct d as [[]|[]| |[] m e], x as [[]|[]| |[] m' e'], y as [[]|[]| |[] m'' e'']; try done.
  all: destruct (Z.compare_spec e e'), (Z.compare_spec e e''), (Z.compare_spec e' e''); subst; try done; try lia.
  all: change (Pos.compare_cont Eq m m') with (m ?= m')%positive;
    change (Pos.compare_cont Eq m m'') with (m ?= m'')%positive;
    change (Pos.compare_cont Eq m' m'') with (m' ?= m'')%positive.
  all: destruct (Pos.compare_spec m m'), (Pos.compare_spec m m''), (Pos.compare_spec m' m''); subst; cbn; try done; lia.
Qed.

Lemma SFltb_irrefl x : SFltb x x = false.
Proof.
  unfold SFltb, SFcompare. destruct x as [[]|[]| |[] m e]; try done; rewrite Z.compare_refl;
    change (Pos.compare_cont Eq m m) with (m ?= m)%positive; by rewrite Pos.compare_refl.
Qed.

(** The run time of a node, if its clock went forward. *)
Definition run_time (n : NodeStats) : option spec_float :=
  if ns_real_end_ns n >? ns_real_start_ns n
  then Some (ns_to_s (ns_real_end_ns n -₆₄ ns_real_start_ns n)) else None.

Lemma longest_spec nodes d0 : let d := foldl longer d0 nodes in
  (d = d0 ∨ ∃ n, n ∈ nodes ∧ run_time n = Some d) ∧
  (∀ y, SFltb d0 y = false → SFltb d y = false) ∧
  ∀ n y, n ∈ nodes → run_time n = Some y → SFltb d y = false.
Proof.
  revert d0. induction nodes as [|n nodes IH]; intros d0; cbn.
  { split; [by left|]. split; [done|]. by intros n y ?%not_elem_of_nil. }
  destruct (IH (longer d0 n)) as (Hd&Hmono&Hall).
  assert ((longer d0 n = d0 ∨ run_time n = Some (longer d0 n)) ∧
    (∀ y, SFltb d0 y = false → SFltb (longer d0 n) y = false) ∧
    ∀ y, run_time n = Some y → SFltb (longer d0 n) y = false) as (Hn&Hn0&Hny).
  { unfold longer, run_time. destruct (_ >? _); [|split; [by left|done]]. cbv zeta.
    set (t := ns_to_s _). destruct (SFltb d0 t) eqn:Hlt.
    - split; [by right|]. split; [intros y Hy; by apply SFltb_not_lt_trans with d0|].
      intros y [= <-]. apply SFltb_irrefl.
    - split; [by left|]. split; [done|]. by intros y [= <-]. }
  split; [|split; [intros y Hy; by apply Hmono, Hn0|]].
  - destruct Hd as [->|(n'&?&?)]; [|right; exists n'; by split; [right|]].
    destruct Hn as [->|Hn]; [by left|]. right. exists n. split; [left|done].
  - intros n' y [->|Hin]%elem_of_cons Hy; [by apply Hmono, Hny|by apply Hall with n'].
Qed.

Lemma read_written runs nodes : Forall recorded_run runs →
  read_files ((λ r, Some (file_of r)) <$> runs) nodes = inr (nodes ++ (node_of <$> runs)).
Proof.
  intros Hr. revert nodes. induction Hr as [|r runs Hr _ IH]; intros nodes; cbn [fmap list_fmap read_files]; [by rewrite app_nil_r|].
  unfold file_of at 1. rewrite parse_written by apply Hr. rewrite IH, <- app_assoc. done.
Qed.

(** The report of runs, where its conversions are defined. *)
Lemma report_of_recorded (runs : list NodeRun) : runs ≠ [] → Forall recorded_run runs →
  let nodes := node_of <$> runs in
  let sum (f : ReplayStats → Z) := w64 (zsum ((λ r, f (nr_stats r)) <$> runs)) in
  ∃ duration,
    (duration = ld_zero ∨ ∃ n, n ∈ nodes ∧ run_time n = Some duration) ∧
    (∀ n y, n ∈ nodes → run_time n = Some y → SFltb duration y = false) ∧
    aggregate ((λ r, Some (file_of r)) <$> runs) =
      match cluster_latency (sum_tsc_hz (summarize nodes)) (tsc_mismatch (summarize nodes))
              (record_all (concat (nr_reads <$> runs)) empty_histogram)
              (record_all (concat (nr_writes <$> runs)) empty_histogram),
            mapM node_items nodes with
      | Some latency, Some each =>
          Returns 0 (cluster_items (length runs) duration (sum rs_ok_ops) (sum rs_read_ops) (sum rs_write_ops) ++
                     latency ++ endl ++ [Text "================ Per-Node Summary ================"] ++ endl ++
                     concat each)
      | _, _ => Undefined
      end.
Proof.
  intros Hne Hruns nodes sum. exists (cluster_duration nodes). destruct (longest_spec nodes ld_zero) as (Hd&_&Hall).
  split; [done|]. split; [done|].
  assert (aggregate ((λ r, Some (file_of r)) <$> runs) =
    match report nodes with Some output => Returns 0 output | None => Undefined end) as ->.
  { unfold aggregate. rewrite read_written by done. destruct runs; [done|]. done. }
  unfold report. destruct (summarize_histograms runs Hruns) as [Hr Hw]. fold nodes in Hr, Hw. rewrite Hr, Hw.
  destruct (summarize_totals nodes) as (Ho&Hrd&Hwr). unfold nodes in Ho, Hrd, Hwr.
  rewrite <- !list_fmap_compose in Ho, Hrd, Hwr. fold nodes in Ho, Hrd, Hwr. rewrite Ho, Hrd, Hwr.
  assert (perf_items (sum_tsc_hz (summarize nodes)) nodes = Some []) as ->.
  { unfold perf_items. assert (has_perf nodes = false) as ->; [|done].
    unfold nodes, has_perf. clear. induction runs as [|r runs IH]; [done|]. by cbn. }
  cbn [mbind option_bind]. destruct (cluster_latency _ _ _ _) as [latency|]; [|done].
  cbn [mbind option_bind]. destruct (mapM node_items nodes) as [each|]; [|done].
  cbn [mbind option_bind app]. unfold nodes. rewrite length_fmap. done.
Qed.

(** ** Properties *)

(** The report of a set of runs, from the files their drivers wrote to the
    items printed: the counters are the sums over the nodes, the latencies those
    of all samples of all nodes together, the duration the longest of the
    nodes' (by the clock of each), and there is no block of performance
    counters. *)
Theorem report_of_runs (runs : list NodeRun) (Hne : runs ≠ []) (Hruns : Forall recorded_run runs) :
  let nodes := node_of <$> runs in
  let sum (f : ReplayStats → Z) := w64 (zsum ((λ r, f (nr_stats r)) <$> runs)) in
  ∃ duration,
    (duration = ld_zero ∨ ∃ n, n ∈ nodes ∧ run_time n = Some duration) ∧
    (∀ n y, n ∈ nodes → run_time n = Some y → SFltb duration y = false) ∧
    aggregate ((λ r, Some (file_of r)) <$> runs) =
      match cluster_latency (sum_tsc_hz (summarize nodes)) (tsc_mismatch (summarize nodes))
              (record_all (concat (nr_reads <$> runs)) empty_histogram)
              (record_all (concat (nr_writes <$> runs)) empty_histogram),
            mapM node_items nodes with
      | Some latency, Some each =>
          Returns 0 (cluster_items (length runs) duration (sum rs_ok_ops) (sum rs_read_ops) (sum rs_write_ops) ++
                     latency ++ endl ++ [Text "================ Per-Node Summary ================"] ++ endl ++
                     concat each)
      | _, _ => Undefined
      end.
Proof. by apply report_of_recorded. Qed.

(** ** Concrete inputs *)
Module Examples.
Import StatsFile.Examples.

Lemma runs_recorded : Forall recorded_run [run 1; run 2; run 3].
Proof.
  repeat (constructor; [split; [apply rs_fits; unfold is_u64; cbn; lia|reflexivity|reflexivity]|]). constructor.
Qed.

Definition outputs (e : Ending) : list Item := match e with Returns 0 output => output | _ => [] end.

Lemma report_of_runs_witness :
  Count 12 ∈ outputs (aggregate ((λ r, Some (file_of r)) <$> [run 1; run 2; run 3])).
Proof.
  destruct (report_of_runs [run 1; run 2; run 3] ltac:(done) runs_recorded) as (d&_&_&->).
  match goal with |- context [cluster_latency ?t ?m ?r ?w] => set (latency := cluster_latency t m r w) end.
  assert (is_Some latency) as [l ->] by (eexists; vm_compute; reflexivity).
  set (each := mapM node_items _). assert (is_Some each) as [e ->] by (eexists; vm_compute; reflexivity).
  apply elem_of_app. left. apply list_elem_of_lookup. exists 9%nat. reflexivity.
Defined.

(** The means of one sample in each octave of the histogram: the middles of its
    buckets, which for the last octave lie below the sample. *)
Example one_sample_means :
  (λ v, u64_of_double (mean_cycles_from_hist (record v empty_histogram))) <$>
    [1; 10; 100; 1000; 2 ^ 62; 2 ^ 64 - 1] =
  Some <$> [1; 10; 102; 1008; 4755801206503243776; 17582052945254416362].
Proof. by vm_compute. Qed.

Example endings :
  aggregate [] = Returns 2 [] ∧ aggregate [Some (file_of (run 1)); None] = Returns 1 [] ∧
  aggregate [Some (str "META,x")] = Uncaught.
Proof. by vm_compute. Qed.

End Examples.
