(* ===== verification/ReportDefined.v ===== *)
(** The report is always printed: the conversions of [src/bandle_aggregate.cpp]
    from floating-point numbers to [uint64_t], undefined behaviour when the
    value does not fit, are defined for every histogram of fewer than 2^64
    samples, although a mean is accumulated in up to 1024 rounded steps. *)
From Stdlib Require Import Reals Lra SpecFloat.
From S2P Require Import Prelude Histogram KVStore Message NodeState Bandle Execute Stats Text StatsFile Floats Report.

(** A histogram whose counts do not wrap. *)
Record hist_exact (h : LatencyHistogram) : Prop := {
  he_length : length (counts_ h) = Z.to_nat BUCKETS;
  he_counts : Forall (λ c, 0 ≤ c) (counts_ h);
  he_small : zsum (counts_ h) < 2 ^ 64;
  he_total : total_ h = zsum (counts_ h)
}.

Lemma counts_nonneg l : Forall (λ c, 0 ≤ c) l → 0 ≤ zsum l.
Proof. unfold zsum. induction 1 as [|c l Hc _ IH]; cbn; lia. Qed.

(** The wrapped counters of recorded samples are exact. *)
Lemma zsum_alter cs i : (i < length cs)%nat → Forall is_u64 cs → zsum cs + 1 < 2 ^ 64 → 
  zsum (alter (fun x => x +₆₄ 1) i cs) = zsum cs + 1.
Proof.
  revert i. induction cs as [|x cs IH]; intros i Hi Hcs Hsmall; [cbn in Hi; lia|].
  apply Forall_cons in Hcs as [Hx Hcs]. unfold zsum, is_u64 in *. cbn [foldr] in *. fold (zsum cs) in *.
  assert (0 ≤ zsum cs) by (apply counts_nonneg; eapply Forall_impl; [exact Hcs|]; cbn; unfold is_u64; lia).
  destruct i as [|i]; cbn [alter list_alter foldr].
  - rewrite w64_small by (unfold is_u64; lia). fold (zsum cs). lia.
  - fold (@alter nat Z (list Z) _ (fun x => x +₆₄ 1) i cs). fold (zsum (alter (fun x => x +₆₄ 1) i cs)).
    rewrite IH; try done; [lia|cbn in Hi; lia|lia].
Qed.

Lemma record_all_exact xs : Forall is_u64 xs → Z.of_nat (length xs) < 2 ^ 64 →
  hist_exact (record_all xs empty_histogram) ∧ zsum (counts_ (record_all xs empty_histogram)) = Z.of_nat (length xs).
Proof.
  induction xs as [|x xs IH] using rev_ind; intros Hxs Hlen.
  { split; [split|]; [by vm_compute|by apply (bool_decide_unpack _); vm_compute|by vm_compute..]. }
  apply Forall_app in Hxs as [Hxs [Hx _]%Forall_cons]. rewrite length_app in Hlen. cbn [length] in Hlen.
  destruct (IH Hxs ltac:(lia)) as [_ Hz]. pose proof (record_all_wf xs _ empty_histogram_wf) as Hwf.
  assert (record_all (xs ++ [x]) empty_histogram = record x (record_all xs empty_histogram)) as ->
    by (unfold record_all; by rewrite foldl_app).
  set (h := record_all xs empty_histogram) in *. pose proof (index_for_range x Hx) as Hi.
  assert (zsum (counts_ (record x h)) = Z.of_nat (length (xs ++ [x]))) as Hz'.
  { unfold record, bump. cbn [counts_]. rewrite zsum_alter; [rewrite Hz, length_app; cbn [length]; lia| |apply Hwf|lia].
    rewrite (wf_length _ Hwf). lia. }
  split; [|done]. pose proof (record_wf x h Hwf) as Hwf'. split; [apply Hwf'| |rewrite Hz', length_app; cbn [length]; lia|].
  - eapply Forall_impl; [apply Hwf'|]. cbn. unfold is_u64. lia.
  - rewrite Hz'. destruct (record_all_sum (xs ++ [x])) as [_ Ht]; [by apply Forall_app; rewrite Forall_singleton|].
    assert (record_all (xs ++ [x]) empty_histogram = record x h) as Hr by (unfold record_all; by rewrite foldl_app).
    rewrite Hr, Hz' in Ht. rewrite Ht, w64_small; [done|]. unfold is_u64. rewrite length_app. cbn [length]. lia.
Qed.

(** ** The mean *)

(** No middle of a bucket is above this number, that of the last but one. *)
Definition highest_middle : Z := 17582052945254416370.

Definition middle_ok (x : spec_float) : bool :=
  match x with
  | S754_zero _ => true
  | S754_finite false m e =>
      ((e <=? -1) && (Z.pos m <? 2 ^ 64)) || ((e =? 0) && (Z.pos m <=? highest_middle))
  | _ => false
  end.

Lemma middle_ok_upto x : middle_ok x = true → upto x (IZR highest_middle).
Proof.
  destruct x as [[]|[]| |[] m e]; cbn [middle_ok upto]; try done; try (intros _; apply IZR_le; by vm_compute).
  intros [[He%Z.leb_le Hm%Z.ltb_lt]%andb_prop|[He%Z.eqb_eq Hm%Z.leb_le]%andb_prop]%orb_prop.
  - pose proof (pow2_le _ _ He) as Hp. pose proof (pow2_pos e). pose proof (pow2_opp 1) as H1.
    rewrite pow2_1 in H1. change (- (1)) with (-1) in H1. apply IZR_lt in Hm. change (2 ^ 64) with 18446744073709551616 in Hm.
    unfold highest_middle. nra.
  - subst e. rewrite pow2_0, Rmult_1_r. by apply IZR_le.
Qed.

Lemma middles_ok : forallb (λ i, middle_ok (bucket_middle i)) (seqZ 0 BUCKETS) = true.
Proof. by vm_compute. Qed.

Lemma middle_upto i : 0 ≤ i < BUCKETS → upto (bucket_middle i) (IZR highest_middle).
Proof.
  intros Hi. apply middle_ok_upto. pose proof middles_ok as Hm. rewrite forallb_forall in Hm. apply Hm.
  apply list_elem_of_In, elem_of_seqZ. lia.
Qed.

(** The errors of [long double] arithmetic: 2^-63 relative, and next to nothing
    absolute. *)
Lemma ld_errors : (pow2 (1 - 64) = / 9223372036854775808)%R ∧ (pow2 (emin 64 16384) <= / 1024)%R.
Proof.
  split.
  - pose proof (pow2_opp 63) as H63. rewrite (pow2_IZR 63) in H63 by done.
    change (2 ^ 63) with 9223372036854775808 in H63. change (1 - 64) with (- (63)). lra.
  - apply Rle_trans with (pow2 (- (10))); [by apply pow2_le; vm_compute|].
    pose proof (pow2_opp 10) as H10. rewrite (pow2_IZR 10) in H10 by done. change (2 ^ 10) with 1024 in H10. lra.
Qed.

(** Rounding a number below 2^64 times a count adds less than three per
    count. *)
Lemma ld_round (n b : R) : (1 <= n <= 18446744073709551616)%R → (0 <= b <= 18446744073709551616 * n)%R →
  (b * (1 + pow2 (1 - 64)) + pow2 (emin 64 16384) <= b + 3 * n)%R ∧
  (b * (1 + pow2 (1 - 64)) + pow2 (emin 64 16384) < pow2 140)%R.
Proof.
  destruct ld_errors as [-> He]. intros Hn Hb. rewrite (pow2_IZR 140) by done.
  change (2 ^ 140) with 1393796574908163946345982392040522594123776. lra.
Qed.

Lemma ld_of_count n : 1 ≤ n < 2 ^ 64 → ∃ m e, ld_of_u64 n = S754_finite false m e ∧ (IZR (Z.pos m) * pow2 e = IZR n)%R.
Proof.
  intros Hn. destruct n as [|p|p]; [lia| |lia].
  apply (normalize_exact 64 16384); [done| |done]. change (2 ^ 64) with 18446744073709551616 in *. lia.
Qed.

(** What the running sum of the mean is compared with, per sample: the highest
    middle and the roundings so far. *)
Definition mean_bound (i : Z) : R := (IZR highest_middle + 3 + 3 * IZR i)%R.

Lemma mean_bound_le i : 0 ≤ i ≤ BUCKETS → (0 <= mean_bound i <= 18446744073709551610)%R.
Proof.
  intros [H0 Hi]. apply IZR_le in H0, Hi. change BUCKETS with 1024 in Hi. unfold mean_bound, highest_middle. lra.
Qed.

(** One round of the loop. *)
Lemma mean_step i cnt sum N : 0 ≤ i < BUCKETS → 1 ≤ cnt → 0 ≤ N → N + cnt < 2 ^ 64 →
  upto sum (IZR N * mean_bound i) →
  upto (ld_add sum (ld_mul (bucket_middle i) (ld_of_u64 cnt))) (IZR (N + cnt) * mean_bound (i + 1)).
Proof.
  intros Hi Hcnt HN Hsmall Hsum. destruct (ld_of_count cnt ltac:(lia)) as (m&e&Hld&Hval).
  change (2 ^ 64) with 18446744073709551616 in *.
  assert (1 <= IZR cnt <= 18446744073709551616)%R as Hc by (split; apply IZR_le; lia).
  assert (0 <= IZR N)%R as HN' by (by apply IZR_le).
  assert (IZR (N + cnt) <= 18446744073709551616)%R as Hs by (apply IZR_le; lia). rewrite plus_IZR in *.
  destruct (mean_bound_le i ltac:(lia)) as [Hb0 Hb1].
  assert (IZR highest_middle + 3 <= mean_bound i)%R as Hhm.
  { unfold mean_bound. assert (0 <= IZR i)%R by (apply IZR_le; lia). lra. }
  assert (mean_bound (i + 1) = mean_bound i + 3)%R as Hnext by (unfold mean_bound; rewrite plus_IZR; lra).
  assert (0 <= IZR highest_middle)%R as Hh0 by (by apply IZR_le; vm_compute).
  destruct (ld_round (IZR cnt) (IZR highest_middle * IZR cnt) Hc) as [Hr1 Hr2]; [split; nra|].
  assert (upto (ld_mul (bucket_middle i) (ld_of_u64 cnt)) (IZR highest_middle * IZR cnt + 3 * IZR cnt)) as Hmul.
  { eapply upto_le; [exact Hr1|]. apply (SFmul_upto 64 16384) with 140; [by apply middle_upto| |exact Hr2|done].
    rewrite Hld. cbn [upto]. lra. }
  destruct (ld_round (IZR N + IZR cnt) (IZR N * mean_bound i + (IZR highest_middle * IZR cnt + 3 * IZR cnt)))
    as [Ha1 Ha2]; [lra|split; nra|].
  eapply upto_le; [|apply (SFadd_upto 64 16384) with (K := 140); [exact Hsum|exact Hmul|exact Ha2|done]].
  rewrite Hnext. nra.
Qed.

Lemma mean_loop_upto cs i sum N : 0 ≤ i → i + Z.of_nat (length cs) ≤ BUCKETS → Forall (λ c, 0 ≤ c) cs → 0 ≤ N →
  N + zsum cs < 2 ^ 64 → upto sum (IZR N * mean_bound i) →
  (mean_loop i cs sum N).2 = N + zsum cs ∧
  upto (mean_loop i cs sum N).1 (IZR (N + zsum cs) * mean_bound BUCKETS).
Proof.
  revert i sum N. induction cs as [|cnt cs IH]; intros i sum N Hi Hlen Hcs HN Hsmall Hsum; cbn [mean_loop zsum foldr length] in *.
  - rewrite Z.add_0_r in *. split; [done|]. eapply upto_le; [|exact Hsum].
    apply Rmult_le_compat_l; [by apply IZR_le|]. unfold mean_bound. assert (IZR i <= IZR BUCKETS)%R by (apply IZR_le; lia). lra.
  - fold (zsum cs) in *. apply Forall_cons in Hcs as [Hc Hcs]. pose proof (counts_nonneg cs Hcs).
    destruct (Z.eqb_spec cnt 0) as [->|Hne].
    + apply IH; try done; try lia. eapply upto_le; [|exact Hsum].
      apply Rmult_le_compat_l; [by apply IZR_le|]. unfold mean_bound. rewrite plus_IZR. lra.
    + rewrite w64_small by (unfold is_u64; lia). rewrite Z.add_assoc. apply IH; try done; try lia.
      apply mean_step; try done; lia.
Qed.

Lemma mean_defined h : hist_exact h → is_Some (u64_of_double (mean_cycles_from_hist h)).
Proof.
  intros [Hl Hc Hs _]. unfold mean_cycles_from_hist.
  destruct (mean_loop_upto (counts_ h) 0 ld_zero 0) as [Htot Hsum]; try done; try lia.
  { by rewrite Hl, Z2Nat.id. }
  { change (0 <= 0 * mean_bound 0)%R. rewrite Rmult_0_l. apply Rle_refl. }
  destruct (mean_loop 0 (counts_ h) ld_zero 0) as [sum tot]. cbn [fst snd] in *. rewrite Z.add_0_l in *. subst tot.
  pose proof (counts_nonneg _ Hc). destruct (Z.eqb_spec (zsum (counts_ h)) 0) as [Hz|Hz]; [by eexists|].
  destruct (ld_of_count (zsum (counts_ h)) ltac:(lia)) as (m&e&Hld&Hval).
  set (N := zsum (counts_ h)) in *. assert (1 <= IZR N)%R as HN by (apply IZR_le; lia).
  destruct (mean_bound_le BUCKETS) as [Hb0 Hb1]; [done|].
  assert (IZR N * mean_bound BUCKETS / IZR N = mean_bound BUCKETS)%R as Hq by (field; lra).
  destruct (ld_round 1 (mean_bound BUCKETS)) as [Hr1 Hr2]; [lra|lra|].
  eapply u64_defined with (mean_bound BUCKETS + 3 * 1)%R.
  - unfold ld_div. rewrite Hld. eapply upto_le; [exact Hr1|]. rewrite <- Hq at 1.
    apply (SFdiv_upto 64 16384) with 140; [done|exact Hsum|lra|by rewrite Hq|done].
  - rewrite pow2_IZR by done. change (2 ^ 64) with 18446744073709551616. lra.
Qed.

(** ** The quantiles *)
Lemma quantile_defined h q : is_u64 (total_ h) → SFleb q double_zero = false → SFleb double_one q = false →
  upto q (991 / 1000) → is_Some (quantile_value h q).
Proof.
  intros Ht H0 H1 Hq. unfold quantile_value, quantile_target. case_match; [by eexists|]. rewrite H0, H1.
  assert (pow2 (1 - 53) = / 4503599627370496)%R as Hu.
  { pose proof (pow2_opp 52) as H52. rewrite (pow2_IZR 52) in H52 by done.
    change (2 ^ 52) with 4503599627370496 in H52. change (1 - 53) with (- (52)). lra. }
  assert (pow2 (emin 53 1024) <= / 1024)%R as He.
  { apply Rle_trans with (pow2 (- (10))); [by apply pow2_le; vm_compute|].
    pose proof (pow2_opp 10) as H10. rewrite (pow2_IZR 10) in H10 by done. change (2 ^ 10) with 1024 in H10. lra. }
  pose proof (pow2_pos (emin 53 1024)) as He0. unfold is_u64 in Ht. change (2 ^ 64) with 18446744073709551616 in Ht.
  assert (0 <= IZR (total_ h) <= 18446744073709551616)%R as Htr by (split; apply IZR_le; lia).
  assert (18446744073709551617 * 2 < pow2 70)%R as H70
    by (rewrite pow2_IZR by done; change (2 ^ 70) with 1180591620717411303424; lra).
  set (b := (IZR (total_ h) * (1 + pow2 (1 - 53)) + pow2 (emin 53 1024))%R).
  assert (0 <= b <= 18446744073709560000)%R as Hb by (unfold b; rewrite Hu; lra).
  assert (upto (double_of_u64 (total_ h)) b) as Hd.
  { apply (normalize_upto 53 1024) with 70; [lia|rewrite pow2_0; lra|fold b; lra|done]. }
  destruct (u64_defined (SFmul 53 1024 q (double_of_u64 (total_ h)))
    (991 / 1000 * b * (1 + pow2 (1 - 53)) + pow2 (emin 53 1024))) as [t ->]; [| |by eexists].
  - apply (SFmul_upto 53 1024) with 70; [done|done|rewrite Hu; lra|done].
  - rewrite Hu, (pow2_IZR 64) by done. change (2 ^ 64) with 18446744073709551616. lra.
Qed.

(** [0.50] and [0.99] in [double]. *)
Lemma quantiles_defined h : is_u64 (total_ h) → is_Some (quantile_value h q50) ∧ is_Some (quantile_value h q99).
Proof.
  intros Ht. pose proof (pow2_opp 53) as H53. rewrite (pow2_IZR 53) in H53 by done.
  change (2 ^ 53) with 9007199254740992 in H53.
  split; apply quantile_defined; try done; try by vm_compute.
  - assert (q50 = S754_finite false 4503599627370496 (-53)) as -> by (by vm_compute). cbn [upto].
    change (-53) with (- (53)). lra.
  - assert (q99 = S754_finite false 8917127262193582 (-53)) as -> by (by vm_compute). cbn [upto].
    change (-53) with (- (53)). lra.
Qed.

(** ** The report *)
Lemma latency_items_defined labels tsc_hz h : is_u64 (total_ h) → hist_exact h →
  is_Some (latency_items labels tsc_hz h).
Proof.
  intros Ht Hh. unfold latency_items. destruct (quantiles_defined h Ht) as [[p50 ->] [p99 ->]].
  destruct (mean_defined h Hh) as [mean Hm]. cbn [mbind option_bind]. case_match; [by eexists|].
  rewrite Hm. by eexists.
Qed.

(** Samples that fit, and fewer than 2^64 of them. *)
Definition few_samples (xs : list Z) : Prop := Forall is_u64 xs ∧ Z.of_nat (length xs) < 2 ^ 64.

Lemma recorded_items_defined labels tsc_hz xs : few_samples xs →
  is_Some (latency_items labels tsc_hz (record_all xs empty_histogram)).
Proof.
  intros [Hxs Hlen]. apply latency_items_defined.
  - apply (record_all_wf xs _ empty_histogram_wf).
  - by apply record_all_exact.
Qed.

Lemma few_samples_part xss xs : few_samples (concat xss) → xs ∈ xss → few_samples xs.
Proof.
  intros [Hall Hlen] Hin. apply list_elem_of_split in Hin as (l1&l2&->). rewrite concat_app in *. cbn [concat] in *.
  apply Forall_app in Hall as [_ [Hxs _]%Forall_app]. rewrite !length_app in Hlen. split; [done|lia].
Qed.

Lemma node_items_defined r : recorded_run r → few_samples (nr_reads r) → few_samples (nr_writes r) →
  is_Some (node_items (node_of r)).
Proof.
  intros [_ Hr Hw] Hrs Hws. unfold node_items. cbn [node_of stats_read ns_read_latency ns_write_latency ns_tsc_hz].
  rewrite Hr, Hw.
  destruct (recorded_items_defined ("  Read  p50/p99/mean (cycles): ", "  Read  p50/p99/mean (us): ")%string
    (rt_tsc_hz (nr_times r)) (nr_reads r) Hrs) as [reads ->].
  destruct (recorded_items_defined ("  Write p50/p99/mean (cycles): ", "  Write p50/p99/mean (us): ")%string
    (rt_tsc_hz (nr_times r)) (nr_writes r) Hws) as [writes ->]. by eexists.
Qed.

Lemma cluster_latency_defined tsc_hz mismatch xs ys : few_samples xs → few_samples ys →
  is_Some (cluster_latency tsc_hz mismatch (record_all xs empty_histogram) (record_all ys empty_histogram)).
Proof.
  intros Hx Hy. unfold cluster_latency.
  destruct (recorded_items_defined ("Read  p50/p99/mean (cycles): ", "Read  p50/p99/mean (us): ")%string tsc_hz xs Hx)
    as [reads ->].
  destruct (recorded_items_defined ("Write p50/p99/mean (cycles): ", "Write p50/p99/mean (us): ")%string tsc_hz ys Hy)
    as [writes ->]. by eexists.
Qed.

(** What is printed for a set of runs. *)
Definition printed (runs : list NodeRun) (output : list Item) : Prop :=
  let nodes := node_of <$> runs in
  let sum (f : ReplayStats → Z) := w64 (zsum ((λ r, f (nr_stats r)) <$> runs)) in
  ∃ duration latency each,
    (duration = ld_zero ∨ ∃ n, n ∈ nodes ∧ run_time n = Some duration) ∧
    (∀ n y, n ∈ nodes → run_time n = Some y → SFltb duration y = false) ∧
    cluster_latency (sum_tsc_hz (summarize nodes)) (tsc_mismatch (summarize nodes))
      (record_all (concat (nr_reads <$> runs)) empty_histogram)
      (record_all (concat (nr_writes <$> runs)) empty_histogram) = Some latency ∧
    mapM node_items nodes = Some each ∧
    output = cluster_items (length runs) duration (sum rs_ok_ops) (sum rs_read_ops) (sum rs_write_ops) ++
             latency ++ endl ++ [Text "================ Per-Node Summary ================"] ++ endl ++ concat each.

Lemma report_defined runs : runs ≠ [] → Forall recorded_run runs →
  few_samples (concat (nr_reads <$> runs)) → few_samples (concat (nr_writes <$> runs)) →
  ∃ output, aggregate ((λ r, Some (file_of r)) <$> runs) = Returns 0 output ∧ printed runs output.
Proof.
  intros Hne Hruns Hrs Hws. destruct (report_of_recorded runs Hne Hruns) as (duration&Hd&Hmax&->).
  destruct (cluster_latency_defined (sum_tsc_hz (summarize (node_of <$> runs))) (tsc_mismatch (summarize (node_of <$> runs)))
    _ _ Hrs Hws) as [latency Hl].
  assert (is_Some (mapM node_items (node_of <$> runs))) as [each He].
  { apply mapM_is_Some, Forall_fmap, Forall_forall. intros r Hr. rewrite Forall_forall in Hruns.
    apply node_items_defined; [by apply Hruns|eapply few_samples_part; [exact Hrs|]|eapply few_samples_part; [exact Hws|]];
      apply list_elem_of_fmap; by exists r. }
  rewrite Hl, He. eexists. split; [done|]. exists duration, latency, each. done.
Qed.

(** C32: the report of a set of runs is printed, whatever their latencies: on
    the files their drivers wrote, [bandle_aggregate] ends with code 0, none of
    its conversions to integers undefined; the counters are the sums over the
    nodes, the latencies those of all samples of all nodes together, the
    duration the longest of the nodes' (by the clock of each), and there is no
    block of performance counters. *)
Theorem report_printed (runs : list NodeRun) (Hne : runs ≠ []) (Hruns : Forall recorded_run runs)
    (Hreads : few_samples (concat (nr_reads <$> runs))) (Hwrites : few_samples (concat (nr_writes <$> runs))) :
  ∃ output, aggregate ((λ r, Some (file_of r)) <$> runs) = Returns 0 output ∧ printed runs output.
Proof. by apply report_defined. Qed.

Module Examples.
Import StatsFile.Examples Report.Examples.

Lemma report_printed_witness : ∃ output, aggregate ((λ r, Some (file_of r)) <$> [run 1; run 2; run 3]) = Returns 0 output ∧
  Count 12 ∈ output.
Proof.
  destruct (report_printed [run 1; run 2; run 3]) as (output&Hout&(d&latency&each&_&_&_&_&Heq)).
  - done.
  - apply runs_recorded.
  - split; [refine (bool_decide_unpack _ _); by vm_compute|by vm_compute].
  - split; [refine (bool_decide_unpack _ _); by vm_compute|by vm_compute].
  - exists output. split; [done|]. rewrite Heq. apply elem_of_app. left. apply list_elem_of_lookup. exists 9%nat. reflexivity.
Defined.

End Examples.
