(* ===== verification/Lifecycle.v ===== *)
(** A whole run of [src/main.cpp] on the three nodes: each main thread submits
    the batches of its trace, calls [mark_input_done], waits for its pending
    requests, raises its [node_finished] flag and waits for the flags of the
    others, while the threads of [Cluster.v] run.  [all_traces_executed]: who
    passes that barrier knows that every operation of every trace has been
    submitted, in trace order, and executed by the node that submitted it. *)
From stdpp Require Import functions relations.
From S2P Require Import Prelude Histogram KVStore Message Ring Transport NodeState Bandle Execute Replica Submit Cluster Agreement Completion Progress Text Trace.

(** Where the main thread is: submitting the batches that are left, in
    [wait_for_all_pending], waiting for the other nodes, or past that loop. *)
Inductive Main :=
| MReplay (batches : list (list BorrowedRequest))
| MWaiting
| MFinished
| MPassed.

Record Run (C S : Type) := {
  cluster : Cluster C S;
  mains : Z → Main;
  node_finished : Z → Z
}.

Arguments cluster {C S} _.
Arguments mains {C S} _.
Arguments node_finished {C S} _.

(** ** What a request asks for *)

(** The operation of a message and the write it carries. *)
Definition content (hash : bytes → Z) (m : BandleMessage) : ascii * list ApplyOp :=
  (p_op (m_body m), message_ops hash m).

(** The content of the proposal for a request. *)
Definition request_content (hash : bytes → Z) (cfg : Config) (req : BorrowedRequest) : ascii * list ApplyOp :=
  content hash (prepare_proposal cfg default_message req).

(** The requests that become proposals. *)
Definition accepted (req : BorrowedRequest) : bool :=
  bool_decide (br_op req = "G"%char) || is_write_op (br_op req).

Definition expected (hash : bytes → Z) (cfg : Config) (reqs : list BorrowedRequest)
    : list (ascii * list ApplyOp) :=
  request_content hash cfg <$> List.filter accepted reqs.

(** A request whose pointers cover its lengths. *)
Definition covered (req : BorrowedRequest) : Prop :=
  (∃ key, br_key_ptr req = Some key ∧ 0 ≤ br_key_len req ≤ Z.of_nat (length key)) ∧
  match br_value_ptr req with
  | Some value => 0 ≤ br_value_len req ≤ Z.of_nat (length value)
  | None => br_value_len req = 0
  end.

Lemma request_of_covered v : covered (request_of v).
Proof.
  assert (∀ x : bytes, 0 ≤ w32 (Z.of_nat (length x)) ≤ Z.of_nat (length x)) as Hw.
  { intros x. unfold w32. pose proof (Z.mod_pos_bound (Z.of_nat (length x)) (2 ^ 32)).
    pose proof (Z.mod_le (Z.of_nat (length x)) (2 ^ 32)). lia. }
  split; [exists (pl_key v); split; [done|apply Hw]|].
  cbn [request_of br_value_ptr br_value_len]. destruct (pl_value v); [apply Hw|done].
Qed.

(** Preparing depends on the request alone. *)
Lemma prepare_content hash cfg cfg' old old' req : covered req → full_buffer old → full_buffer old' →
  accepted req = true →
  content hash (prepare_proposal cfg old req) = content hash (prepare_proposal cfg' old' req).
Proof.
  intros [(key&Hk&Hkl) Hv] Hold Hold' Hacc. unfold content.
  assert (∀ g o, p_op (m_body (prepare_proposal g o req)) = br_op req) as Hop.
  { intros g o. unfold prepare_proposal. by case_decide. }
  rewrite !Hop. f_equal. unfold accepted in Hacc.
  destruct (is_write_op (br_op req)) eqn:Hw.
  2:{ rewrite orb_false_r in Hacc. apply bool_decide_eq_true in Hacc.
      unfold message_ops. by rewrite !Hop, Hacc. }
  (* the request that points to exactly the bytes it names *)
  set (key' := take (Z.to_nat (br_key_len req)) key).
  set (value' := match br_value_ptr req with
                 | Some value => take (Z.to_nat (br_value_len req)) value | None => [] end).
  set (req' := {| br_op := br_op req; br_key_ptr := Some key'; br_key_len := br_key_len req;
                  br_value_ptr := Some value'; br_value_len := br_value_len req |}).
  assert (∀ g o, prepare_proposal g o req = prepare_proposal g o req') as Hsame.
  { intros g o. unfold prepare_proposal. cbn [br_op br_key_ptr br_key_len br_value_ptr br_value_len req'].
    destruct (decide (br_op req = "G"%char)); [done|]. rewrite Hk. unfold key', value'.
    rewrite take_take. rewrite Nat.min_l by lia.
    destruct (br_value_ptr req) as [value|].
    - rewrite take_take. rewrite Nat.min_l by lia. done.
    - rewrite Hv. rewrite (Z.min_l 0) by (unfold kMaxValueBytes; lia). done. }
  rewrite !Hsame.
  rewrite (prepare_ops cfg hash old req' key' value'), (prepare_ops cfg' hash old' req' key' value'); try done;
    cbn [br_key_len br_value_len req']; unfold key', value'.
  all: destruct (br_value_ptr req) as [value|]; rewrite ?length_take; cbn [length]; lia.
Qed.

(** ** The steps of a run *)
Section MainSteps.
Context {C S : Type} `{Store : ReplicaStore S}.
Context (cfg : Z → Config).

(** The main threads, which use no channel themselves. *)
Inductive main_step (r : Run C S) : Run C S → Prop :=
(* submit_borrowed_batch for the next batch of the trace *)
| main_submit i reqs batches bufs proposals s' :
    is_node i → mains r i = MReplay (reqs :: batches) → threads (cluster r) i = TIdle →
    Forall full_buffer bufs →
    prepare_proposals (cfg i) reqs bufs (nodes (cluster r) i) = (proposals, s') →
    main_step r {|
      cluster := set_node i s' (TAdmit (submit_chunks (cfg i) proposals)) (cluster r);
      mains := <[i := MReplay batches]> (mains r); node_finished := node_finished r |}
(* mark_input_done after the last batch *)
| main_input_done i :
    is_node i → mains r i = MReplay [] → threads (cluster r) i = TIdle →
    main_step r {|
      cluster := set_node i (mark_input_done (nodes (cluster r) i)) TIdle (cluster r);
      mains := <[i := MWaiting]> (mains r); node_finished := node_finished r |}
(* wait_for_all_pending returns; node_finished[node_id] is stored *)
| main_finish i :
    is_node i → mains r i = MWaiting → all_pending_done (nodes (cluster r) i) = true →
    main_step r {|
      cluster := cluster r; mains := <[i := MFinished]> (mains r);
      node_finished := <[i := 1]> (node_finished r) |}
(* the loop over node_finished ends *)
| main_pass i :
    is_node i → mains r i = MFinished → all_nodes_finished (cfg i) (node_finished r) = true →
    main_step r {|
      cluster := cluster r; mains := <[i := MPassed]> (mains r); node_finished := node_finished r |}.

Definition start_submit (c c' : Cluster C S) (i : Z) : Prop :=
  threads c i = TIdle ∧ ∃ chunks, threads c' i = TAdmit chunks.

Definition start_noop (c c' : Cluster C S) (i : Z) : Prop := threads c i = TIdle ∧ threads c' i = TNoop.

(** The other threads: the main thread alone submits and marks the end of the
    input, and the proposer thread looks at the flags. *)
Record background (r : Run C S) (c' : Cluster C S) : Prop := {
  bg_submit i : is_node i → ¬ start_submit (cluster r) c' i;
  bg_input i : is_node i → input_done_ (nodes c' i) = input_done_ (nodes (cluster r) i);
  bg_noop i : is_node i → start_noop (cluster r) c' i → all_nodes_finished (cfg i) (node_finished r) = false
}.

Definition with_cluster (r : Run C S) (c : Cluster C S) : Run C S :=
  {| cluster := c; mains := mains r; node_finished := node_finished r |}.

(** Where the main threads begin. *)
Definition mains_initial (traces : Z → list (list BorrowedRequest)) (r : Run C S) : Prop :=
  ∀ i, is_node i → mains r i = MReplay (traces i) ∧ node_finished r i = 0.

End MainSteps.

Section Steps.
Context {C S : Type} `{Chan : Channel C} `{Store : ReplicaStore S}.
Context (hash : bytes → Z) (rdtsc : Z → nat → Z) (cfg : Z → Config).
Context (traces : Z → list (list BorrowedRequest)).

Inductive run_step (r : Run C S) : Issue → Run C S → Prop :=
| run_main r' : main_step cfg r r' → run_step r None r'
| run_thread l c' :
    step hash rdtsc cfg (cluster r) l c' → background cfg r c' →
    run_step r l (with_cluster r c').

Definition run_initial (V0 : MapType) (r : Run C S) : Prop :=
  initial cfg V0 (cluster r) ∧ mains_initial traces r.

Inductive main_reach (V0 : MapType) : Run C S → History → Prop :=
| main_reach_init r : run_initial V0 r → main_reach V0 r (fun _ => [])
| main_reach_step r h l r' : main_reach V0 r h → run_step r l r' → main_reach V0 r' (issue l h).

End Steps.

(** ** Execution positions never move back *)
Section Monotone.
Context {C S : Type} `{Chan : Channel C} `{!ChannelLaws C} `{Store : ReplicaStore S}.
Context (hash : bytes → Z) `{!ReplicaStoreLaws hash S}.
Context (rdtsc : Z → nat → Z) (cfg : Z → Config) (Hcfg : config_ok cfg) (V0 : MapType).
Implicit Types (c : Cluster C S) (h : History).

Abbreviation inv := (cluster_inv hash cfg V0).

Lemma execution_forward c h n l c' j : inv c h n → no_overflow (issue l h) →
  step hash rdtsc cfg c l c' → is_node j →
  execute_next_ (nodes c j) ≤ execute_next_ (nodes c' j).
Proof.
  intros Hc Hno Hstep Hj. pose proof (no_overflow_issue _ _ Hno) as Hnoh.
  assert (∀ i s', execute_next_ (nodes c i) ≤ execute_next_ s' →
    execute_next_ (nodes c j) ≤ execute_next_ (<[i := s']> (nodes c) j)) as Hupd.
  { intros i s' Hle. destruct (decide (i = j)) as [<-|Hne]; [by rewrite fn_lookup_insert|].
    by rewrite fn_lookup_insert_ne. }
  destruct Hstep as [i reqs bufs ps s' Hi Ht Hin Hb Hr Hp|i chunk chunks s' msgs Hi Ht Ha|i Hi Ht
    |i noop msgs peer to chunks Hi Ht Hready|i msgs chunks Hi Ht|i msg Hi Ht|i Hi Ht
    |i finished now Hi Ht Hnoop|i Hi Ht|i msg now Hi Ht|i j' msgs ch' Hi Hj' Hij Hin Hd|i j' Hi Hj' Hij Hin];
    cbn [nodes set_node]; try done; try (by apply Hupd).
  - pose proof (prepare_all (cfg i) reqs bufs (nodes c i) Hb Hr) as Hall. rewrite Hp in Hall.
    destruct Hall as (_&_&Hsame&_). apply Hupd. by rewrite (sre_exec _ _ Hsame).
  - apply Hupd. destruct (admitted_replica hash rdtsc cfg Hcfg V0 c h n i chunk chunks s' msgs Hc Hnoh Hi Ht Ha)
      as (_&Hsame&_). by rewrite (sre_exec _ _ Hsame).
  - destruct (ci_flow _ _ _ _ _ _ Hc i i Hi Hi) as [_ (q&_&Hq&Hd)]. destruct (Hq eq_refl) as [-> Hib].
    rewrite Hib, Ht in Hd. cbn [outgoing] in Hd. rewrite decide_True in Hd by (by left).
    apply Hupd. eapply (deliver_node hash rdtsc cfg V0 c h n i i msgs []); try done. by rewrite app_nil_r.
  - destruct (ci_flow _ _ _ _ _ _ Hc i i Hi Hi) as [_ (q&_&Hq&Hd)]. destruct (Hq eq_refl) as [-> Hib].
    rewrite Hib, Ht in Hd. cbn [outgoing] in Hd. rewrite decide_True in Hd by (by left).
    apply Hupd. rewrite self_deliver_noop_eq. by eapply (deliver_node hash rdtsc cfg V0 c h n i i [msg] []).
  - destruct (ci_flow _ _ _ _ _ _ Hc i j' Hi Hj') as [_ (q&_&_&Hd)].
    rewrite <- (take_drop kHandleChunk (inbox c (i, j'))), fmap_app, <- app_assoc in Hd.
    destruct (deliver_node hash rdtsc cfg V0 c h n i j' _ _ Hc Hnoh Hi Hj' Hd) as (Hok&_&_&He&_).
    apply Hupd. rewrite handle_chunk_proposals; [done|done|]. by destruct (inbox c (i, j')).
Qed.

End Monotone.

(** ** The invariant of a run *)
Section Invariant.
Context {C S : Type} `{Chan : Channel C} `{!ChannelLaws C} `{Store : ReplicaStore S}.
Context (hash : bytes → Z) `{!ReplicaStoreLaws hash S}.
Context (rdtsc : Z → nat → Z) (cfg : Z → Config) (Hcfg : config_ok cfg) (V0 : MapType).
Context (traces : Z → list (list BorrowedRequest)).
Context (Hcovered : ∀ i, Forall (Forall covered) (traces i)).
Implicit Types (c : Cluster C S) (h : History) (r : Run C S).

Abbreviation inv := (cluster_inv hash cfg V0).

(** The lock-step of the two proposing threads: the main thread proposes until
    the input is done, the proposer thread after that. *)
Definition main_thread (t : Thread) : Prop :=
  match t with TIdle | TAdmit _ | TSend false _ _ _ => True | _ => False end.
Definition proposer_thread (t : Thread) : Prop :=
  match t with TIdle | TNoop | TNoopRead _ | TSend true _ _ [] => True | _ => False end.

(** The proposals submitted and not yet admitted. *)
Definition thread_chunks (t : Thread) : list BandleMessage :=
  match t with TAdmit chunks | TSend _ _ _ chunks => concat chunks | _ => [] end.

Definition batches_left (m : Main) : list (list BorrowedRequest) :=
  match m with MReplay batches => batches | _ => [] end.

Definition own_executed_all c h (i : Z) : Prop :=
  ∀ k m, h i !! k = Some m → p_client_req_id (m_body m) ≠ 0 → seq_at i k < execute_next_ (nodes c i).

Definition main_ok r h (i : Z) : Prop :=
  let t := threads (cluster r) i in
  match mains r i with
  | MReplay batches => input_done_ (nodes (cluster r) i) = false ∧ main_thread t ∧ node_finished r i = 0 ∧
      Forall (Forall covered) batches
  | MWaiting => input_done_ (nodes (cluster r) i) = true ∧ proposer_thread t ∧ node_finished r i = 0
  | MFinished => input_done_ (nodes (cluster r) i) = true ∧ proposer_thread t ∧ own_executed_all (cluster r) h i ∧
      node_finished r i ≠ 0
  | MPassed => input_done_ (nodes (cluster r) i) = true ∧ proposer_thread t ∧
      own_executed_all (cluster r) h i ∧ ∀ j, is_node j → node_finished r j ≠ 0
  end.

(** The requests issued, submitted and still in the trace. *)
Definition trace_ok r h (i : Z) : Prop :=
  (content hash <$> requests (h i) ++ thread_chunks (threads (cluster r) i)) ++
    expected hash (cfg i) (concat (batches_left (mains r i))) =
  expected hash (cfg i) (concat (traces i)).

Record run_inv r h : Prop := {
  rn_sound : sound hash cfg V0 (cluster r) h;
  rn_main i : is_node i → main_ok r h i;
  rn_trace i : is_node i → trace_ok r h i
}.

Lemma expected_app g l1 l2 : expected hash g (l1 ++ l2) = expected hash g l1 ++ expected hash g l2.
Proof. unfold expected. by rewrite List.filter_app, fmap_app. Qed.

(** A prepared batch has the content of its requests. *)
Lemma prepared_content g reqs bufs (s : Node S) : Forall full_buffer bufs → Forall covered reqs →
  content hash <$> (prepare_proposals g reqs bufs s).1 = expected hash g reqs.
Proof.
  revert bufs s. induction reqs as [|req reqs IH]; intros bufs s Hb Hr; [done|].
  apply Forall_cons in Hr as [Hreq Hr]. unfold expected in *. cbn [prepare_proposals List.filter].
  change (bool_decide (br_op req = "G"%char) || is_write_op (br_op req)) with (accepted req).
  destruct (accepted req) eqn:Hacc.
  - assert (Forall full_buffer (List.tl bufs) ∧ full_buffer (default default_message (hd_error bufs))) as [Htl Hhd].
    { destruct bufs as [|b bufs]; [done|]. by apply Forall_cons in Hb as [? ?]. }
    specialize (IH (List.tl bufs) s Htl Hr). destruct (prepare_proposals _ _ _ _) as [ps s']. cbn [fst fmap list_fmap] in *.
    rewrite IH. f_equal. by apply prepare_content.
  - by apply IH.
Qed.

(** Admission keeps the content of the proposals. *)
Lemma admitted_content msgs chunk : length msgs = length chunk →
  (∀ (k : nat) m, msgs !! k = Some m → ∃ m0, chunk !! k = Some m0 ∧ same_request m m0) →
  Forall sendable chunk → content hash <$> (wire <$> msgs) = content hash <$> chunk.
Proof.
  revert chunk. induction msgs as [|m msgs IH]; intros [|m0 chunk] Hl Hms Hs; try done.
  apply Forall_cons in Hs as [Hm0 Hs]. cbn [fmap list_fmap]. f_equal.
  - destruct (Hms O m eq_refl) as (m1&[= <-]&Hsr).
    destruct (same_request_sendable _ _ Hsr Hm0) as [Hok _]. unfold content.
    rewrite message_ops_wire by done. f_equal; [apply (sr_op _ _ Hsr)|by apply same_request_ops].
  - apply IH; [by injection Hl| |done]. intros k. apply (Hms (Datatypes.S k)).
Qed.

(** One step of the threads, seen from node [j]. *)
Record thread_step c h c' h' (j : Z) : Prop := {
  ts_main : input_done_ (nodes c j) = false → main_thread (threads c j) → main_thread (threads c' j);
  ts_proposer : input_done_ (nodes c j) = true → proposer_thread (threads c j) →
    proposer_thread (threads c' j) ∧ requests (h' j) = requests (h j);
  ts_trace : content hash <$> requests (h' j) ++ thread_chunks (threads c' j) =
    content hash <$> requests (h j) ++ thread_chunks (threads c j)
}.

Lemma thread_step_refl c h c' h' j : threads c' j = threads c j → requests (h' j) = requests (h j) →
  thread_step c h c' h' j.
Proof. intros Ht Hh. split; rewrite ?Ht, ?Hh; done. Qed.

(** A step that only moves the thread of node [i]. *)
Lemma thread_step_set c h i s' t j :
  (i = j → thread_step c h (set_node i s' t c) h i) → thread_step c h (set_node i s' t c) h j.
Proof.
  intros Hi. destruct (decide (i = j)) as [->|Hne]; [by apply Hi|]. apply thread_step_refl; [|done].
  cbn. by rewrite fn_lookup_insert_ne.
Qed.

Lemma requests_issue h i msgs j : requests (issue (Some (i, msgs)) h j) =
  requests (h j) ++ if decide (i = j) then wire <$> requests msgs else [].
Proof.
  cbn. destruct (decide (i = j)) as [<-|Hne].
  - by rewrite fn_lookup_insert, requests_app, requests_wire.
  - by rewrite fn_lookup_insert_ne, app_nil_r.
Qed.

Lemma step_threads c h n l c' j : inv c h n → completion_inv c h → ids_fit (issue l h) →
  step hash rdtsc cfg c l c' → is_node j → (∀ i, is_node i → ¬ start_submit c c' i) →
  thread_step c h c' (issue l h) j.
Proof.
  intros Hc Hn Hfit Hstep Hj Hns. pose proof (no_overflow_issue _ _ (ids_no_overflow _ Hfit)) as Hno.
  destruct Hstep as [i reqs bufs ps s' Hi Ht Hin Hb Hr Hp|i chunk chunks s' msgs Hi Ht Ha|i Hi Ht
    |i noop msgs peer to chunks Hi Ht Hready|i msgs chunks Hi Ht|i msg Hi Ht|i Hi Ht
    |i finished now Hi Ht Hnoop|i Hi Ht|i msg now Hi Ht|i j' msgs ch' Hi Hj' Hij Hin Hd|i j' Hi Hj' Hij Hin];
    try (by apply thread_step_refl).
  - exfalso. apply (Hns i Hi). split; [done|]. cbn. rewrite fn_lookup_insert. by eexists.
  - destruct (decide (i = j)) as [<-|Hne].
    2:{ apply thread_step_refl; [cbn; by rewrite fn_lookup_insert_ne|].
        by rewrite requests_issue, decide_False, app_nil_r. }
    destruct (admitted_replica hash rdtsc cfg Hcfg V0 c h n i chunk chunks s' msgs Hc Hno Hi Ht Ha)
      as (_&_&Hlen&Hsend&_&Hms).
    destruct (admitted_requests hash rdtsc cfg Hcfg V0 c h n i chunk chunks s' msgs Hc Hn Hfit Hi Ht Ha)
      as [_ Hall].
    split; rewrite ?Ht; cbn [threads set_node]; rewrite ?fn_lookup_insert; [done|done|].
    rewrite requests_issue, decide_True, (requests_all msgs Hall) by done. cbn [thread_chunks concat].
    by rewrite !fmap_app, (admitted_content msgs chunk), <- app_assoc.
  - apply thread_step_set. intros <-. split; rewrite ?Ht; cbn [threads set_node]; by rewrite ?fn_lookup_insert.
  - destruct (decide (i = j)) as [<-|Hne].
    2:{ apply thread_step_refl; [cbn; by rewrite fn_lookup_insert_ne|done]. }
    split; rewrite ?Ht; cbn [threads]; rewrite ?fn_lookup_insert; done.
  - apply thread_step_set. intros <-. split; rewrite ?Ht; cbn [threads set_node]; by rewrite ?fn_lookup_insert.
  - apply thread_step_set. intros <-. split; rewrite ?Ht; cbn [threads set_node]; by rewrite ?fn_lookup_insert.
  - apply thread_step_set. intros <-. split; rewrite ?Ht; cbn [threads set_node]; by rewrite ?fn_lookup_insert.
  - apply thread_step_set. intros <-.
    destruct (should_noop_window (cfg i) (cfg_three _ Hcfg i Hi) finished now (nodes c i)) as [Hd _]; [|done|].
    { pose proof (ri_exec _ _ _ _ (ci_replica _ _ _ _ _ _ Hc i Hi)). lia. }
    split; rewrite ?Ht; cbn [threads set_node]; rewrite ?fn_lookup_insert; [congruence|done|done].
  - apply thread_step_set. intros <-. split; rewrite ?Ht; cbn [threads set_node]; by rewrite ?fn_lookup_insert.
  - destruct (decide (i = j)) as [<-|Hne].
    2:{ apply thread_step_refl; [cbn; by rewrite fn_lookup_insert_ne|].
        by rewrite requests_issue, decide_False, app_nil_r. }
    pose proof (cn_thread _ _ Hn i Hi) as Hto. rewrite Ht in Hto. destruct Hto as [_ Hnoreq].
    assert (requests [msg] = []) as Hnone by (unfold requests; cbn [List.filter]; by rewrite Hnoreq).
    assert (requests (issue (Some (i, [msg])) h i) = requests (h i)) as Hreq.
    { by rewrite requests_issue, decide_True, Hnone, app_nil_r. }
    split; rewrite ?Ht, ?Hreq; cbn [threads set_node]; rewrite ?fn_lookup_insert; done.
Qed.

Lemma no_requests x m : requests x = [] → m ∈ x → p_client_req_id (m_body m) = 0.
Proof.
  intros Hx Hin. destruct (decide (p_client_req_id (m_body m) = 0)) as [|Hne]; [done|exfalso].
  assert (List.In m (requests x)) as Hm; [|by rewrite Hx in Hm].
  apply List.filter_In. split; [by apply list_elem_of_In|]. by apply negb_true_iff, Z.eqb_neq.
Qed.

Lemma own_executed_stays c h c' h' i : own_executed_all c h i →
  execute_next_ (nodes c i) ≤ execute_next_ (nodes c' i) → h i `prefix_of` h' i →
  requests (h' i) = requests (h i) → own_executed_all c' h' i.
Proof.
  intros Hown He [x Hx] Hreq k m Hk Hm. rewrite Hx in Hk, Hreq. rewrite requests_app in Hreq.
  apply lookup_app_Some in Hk as [Hk|[_ Hk]]; [specialize (Hown k m Hk Hm); lia|].
  exfalso. apply Hm, (no_requests x); [|by eapply list_elem_of_lookup_2].
  apply (app_inv_head (requests (h i))). by rewrite app_nil_r.
Qed.

(** A node whose main thread does not move. *)
Lemma main_stays r h r' h' i : main_ok r h i → mains r' i = mains r i →
  node_finished r' i = node_finished r i →
  (∀ j, is_node j → node_finished r j ≠ 0 → node_finished r' j ≠ 0) →
  input_done_ (nodes (cluster r') i) = input_done_ (nodes (cluster r) i) →
  execute_next_ (nodes (cluster r) i) ≤ execute_next_ (nodes (cluster r') i) → h i `prefix_of` h' i →
  thread_step (cluster r) h (cluster r') h' i → main_ok r' h' i.
Proof.
  unfold main_ok. intros Hok -> Hf Hfs Hd He Hpre [Hmain Hprop _]. rewrite ?Hf, ?Hd.
  destruct (mains r i) as [batches| | |].
  - destruct Hok as (?&?&?&?). auto.
  - destruct Hok as (?&?&?). destruct Hprop; auto.
  - destruct Hok as (?&?&?&?). destruct Hprop; auto. do 2 (split; [done|]). split; [|done].
    by apply own_executed_stays with (cluster r) h.
  - destruct Hok as (?&?&?&?). destruct Hprop; auto. split; [done|]. split; [done|]. split; [|by auto].
    by apply own_executed_stays with (cluster r) h.
Qed.

Lemma trace_stays r h r' h' i : trace_ok r h i → mains r' i = mains r i →
  thread_step (cluster r) h (cluster r') h' i → trace_ok r' h' i.
Proof. unfold trace_ok. intros Hok -> [_ _ Ht]. by rewrite Ht. Qed.

(** A step that leaves a node, its thread and its main thread alone. *)
Lemma node_stays r h r' i : run_inv r h → is_node i → mains r' i = mains r i →
  nodes (cluster r') i = nodes (cluster r) i → threads (cluster r') i = threads (cluster r) i →
  node_finished r' i = node_finished r i →
  (∀ j, is_node j → node_finished r j ≠ 0 → node_finished r' j ≠ 0) →
  main_ok r' h i ∧ trace_ok r' h i.
Proof.
  intros Hr Hi Hm Hn Ht Hf Hfs.
  assert (thread_step (cluster r) h (cluster r') h i) as Hstep by by apply thread_step_refl.
  split; [|by eapply trace_stays; [apply Hr| |]].
  apply (main_stays r h r' h i); [by apply Hr|done|done|done|by rewrite Hn|by rewrite Hn|done|done].
Qed.

Lemma covered_lengths reqs : Forall covered reqs → Forall valid_lengths reqs.
Proof.
  intros Hc. eapply Forall_impl; [exact Hc|]. intros req [(key&_&?) Hv]. split; [lia|]. destruct (br_value_ptr req); lia.
Qed.

Lemma submit_inv r h i reqs batches bufs proposals s' : run_inv r h → ids_fit h → is_node i →
  mains r i = MReplay (reqs :: batches) → threads (cluster r) i = TIdle → Forall full_buffer bufs →
  prepare_proposals (cfg i) reqs bufs (nodes (cluster r) i) = (proposals, s') →
  run_inv {| cluster := set_node i s' (TAdmit (submit_chunks (cfg i) proposals)) (cluster r);
             mains := <[i := MReplay batches]> (mains r); node_finished := node_finished r |} h.
Proof.
  intros Hr Hfit Hi Hm Ht Hb Hp. set (r' := {| cluster := _; mains := _; node_finished := _ |}).
  pose proof (rn_main _ _ Hr i Hi) as Hok. unfold main_ok in Hok. rewrite Hm in Hok.
  destruct Hok as (Hin&_&Hf&[Hreqs Hbatches]%Forall_cons).
  pose proof (prepare_all (cfg i) reqs bufs (nodes (cluster r) i) Hb (covered_lengths _ Hreqs)) as Hall.
  rewrite Hp in Hall. destruct Hall as (_&_&_&Hsame).
  assert (∀ j, is_node j → j ≠ i → main_ok r' h j ∧ trace_ok r' h j) as Hother.
  { intros j Hj Hne. by apply (node_stays r h r'); cbn; rewrite ?fn_lookup_insert_ne. }
  split.
  - change h with (issue None h). eapply (step_sound hash rdtsc cfg Hcfg V0 (cluster r)); [apply Hr|done|].
    apply step_submit with (reqs := reqs) (bufs := bufs); try done. by apply covered_lengths.
  - intros j Hj. destruct (decide (j = i)) as [->|Hne]; [|by apply Hother].
    unfold main_ok. cbn. rewrite !fn_lookup_insert. split; [by rewrite (sp_input _ _ Hsame)|]. done.
  - intros j Hj. destruct (decide (j = i)) as [->|Hne]; [|by apply Hother].
    pose proof (rn_trace _ _ Hr i Hi) as Htr. unfold trace_ok in *. rewrite Hm, Ht in Htr.
    cbn [r' cluster mains threads set_node]. rewrite !fn_lookup_insert. cbn [thread_chunks batches_left] in *.
    destruct (cfg_window _ Hcfg i Hi) as (Hba&_). destruct (submit_chunks_spec (cfg i) proposals Hba) as [-> _].
    rewrite <- Htr. cbn [concat]. rewrite expected_app, app_nil_r, fmap_app, <- app_assoc.
    by rewrite <- (prepared_content (cfg i) reqs bufs (nodes (cluster r) i)), Hp by done.
Qed.

Lemma input_done_inv r h i : run_inv r h → ids_fit h → is_node i → mains r i = MReplay [] → threads (cluster r) i = TIdle →
  run_inv {| cluster := set_node i (mark_input_done (nodes (cluster r) i)) TIdle (cluster r);
             mains := <[i := MWaiting]> (mains r); node_finished := node_finished r |} h.
Proof.
  intros Hr Hfit Hi Hm Ht. set (r' := {| cluster := _; mains := _; node_finished := _ |}).
  pose proof (rn_main _ _ Hr i Hi) as Hok. unfold main_ok in Hok. rewrite Hm in Hok. destruct Hok as (_&_&Hf&_).
  assert (∀ j, is_node j → j ≠ i → main_ok r' h j ∧ trace_ok r' h j) as Hother.
  { intros j Hj Hne. by apply (node_stays r h r'); cbn; rewrite ?fn_lookup_insert_ne. }
  split.
  - change h with (issue None h). eapply (step_sound hash rdtsc cfg Hcfg V0 (cluster r)); [apply Hr|done|]. by apply step_input_done.
  - intros j Hj. destruct (decide (j = i)) as [->|Hne]; [|by apply Hother].
    unfold main_ok. cbn. rewrite !fn_lookup_insert. done.
  - intros j Hj. destruct (decide (j = i)) as [->|Hne]; [|by apply Hother].
    pose proof (rn_trace _ _ Hr i Hi) as Htr. unfold trace_ok in *. rewrite Hm, Ht in Htr.
    cbn [r' cluster mains threads set_node]. by rewrite !fn_lookup_insert.
Qed.

Lemma finish_inv r h i : run_inv r h → is_node i → mains r i = MWaiting →
  all_pending_done (nodes (cluster r) i) = true →
  run_inv {| cluster := cluster r; mains := <[i := MFinished]> (mains r);
             node_finished := <[i := 1]> (node_finished r) |} h.
Proof.
  intros Hr Hi Hm Hdone. set (r' := {| cluster := _; mains := _; node_finished := _ |}).
  pose proof (rn_main _ _ Hr i Hi) as Hok. unfold main_ok in Hok. rewrite Hm in Hok. destruct Hok as (Hin&Hth&_).
  assert (∀ j, is_node j → j ≠ i → main_ok r' h j ∧ trace_ok r' h j) as Hother.
  { intros j Hj Hne. apply (node_stays r h r'); cbn; rewrite ?fn_lookup_insert_ne by done; try done.
    intros k _ Hk. destruct (decide (i = k)) as [<-|]; [by rewrite fn_lookup_insert|].
    by rewrite fn_lookup_insert_ne. }
  split; [apply Hr| |].
  - intros j Hj. destruct (decide (j = i)) as [->|Hne]; [|by apply Hother].
    unfold main_ok. cbn. rewrite !fn_lookup_insert. do 2 (split; [done|]). split; [|done].
    exact (proj1 (done_when_executed hash cfg V0 (cluster r) h i (rn_sound _ _ Hr) Hi) Hdone).
  - intros j Hj. destruct (decide (j = i)) as [->|Hne]; [|by apply Hother].
    pose proof (rn_trace _ _ Hr i Hi) as Htr. unfold trace_ok in *. rewrite Hm in Htr.
    cbn [r' cluster mains]. by rewrite fn_lookup_insert.
Qed.

Lemma all_finished_flags g (flags : Z → Z) j : cluster_size_ g = 3 → all_nodes_finished g flags = true →
  is_node j → flags j ≠ 0.
Proof.
  unfold all_nodes_finished. intros -> Hall Hj. rewrite forallb_forall in Hall. specialize (Hall j).
  apply Z.eqb_neq, negb_true_iff, Hall, list_elem_of_In, elem_of_seqZ. unfold is_node in Hj. lia.
Qed.

Lemma pass_inv r h i : run_inv r h → is_node i → mains r i = MFinished →
  all_nodes_finished (cfg i) (node_finished r) = true →
  run_inv {| cluster := cluster r; mains := <[i := MPassed]> (mains r); node_finished := node_finished r |} h.
Proof.
  intros Hr Hi Hm Hall. set (r' := {| cluster := _; mains := _; node_finished := _ |}).
  pose proof (rn_main _ _ Hr i Hi) as Hok. unfold main_ok in Hok. rewrite Hm in Hok. destruct Hok as (Hin&Hth&Hown&_).
  assert (∀ j, is_node j → j ≠ i → main_ok r' h j ∧ trace_ok r' h j) as Hother.
  { intros j Hj Hne. by apply (node_stays r h r'); cbn; rewrite ?fn_lookup_insert_ne. }
  split; [apply Hr| |].
  - intros j Hj. destruct (decide (j = i)) as [->|Hne]; [|by apply Hother].
    unfold main_ok. cbn. rewrite !fn_lookup_insert. do 3 (split; [done|]).
    intros k Hk. by eapply all_finished_flags; [apply (cfg_three _ Hcfg i Hi)| |].
  - intros j Hj. destruct (decide (j = i)) as [->|Hne]; [|by apply Hother].
    pose proof (rn_trace _ _ Hr i Hi) as Htr. unfold trace_ok in *. rewrite Hm in Htr.
    cbn [r' cluster mains]. by rewrite fn_lookup_insert.
Qed.

Lemma run_step_inv r h l r' : run_inv r h → ids_fit (issue l h) → run_step hash rdtsc cfg r l r' →
  run_inv r' (issue l h).
Proof.
  intros Hr Hfit Hstep. destruct Hstep as [r' [i reqs batches bufs proposals s' Hi Hm Ht Hb Hp|i Hi Hm Ht
    |i Hi Hm Hdone|i Hi Hm Hall]|l c' Hstep [Hns Hin Hnoop]].
  - by eapply submit_inv.
  - by apply input_done_inv.
  - by apply finish_inv.
  - by apply pass_inv.
  - destruct (rn_sound _ _ Hr) as [[n Hc] Hn].
    assert (∀ j, is_node j → thread_step (cluster r) h c' (issue l h) j) as Hth.
    { intros j Hj. by eapply step_threads. }
    split; cbn [cluster].
    + by eapply step_sound; [..|apply Hr| |].
    + intros j Hj. apply (main_stays r h); cbn; try done; [by apply Hr|by apply Hin| |apply issue_prefix|by apply Hth].
      eapply (execution_forward hash rdtsc cfg Hcfg V0 _ h n l); try done. by apply ids_no_overflow.
    + intros j Hj. apply (trace_stays r h); cbn; [by apply Hr|done|by apply Hth].
Qed.

Lemma main_reach_inv r h : main_reach hash rdtsc cfg traces V0 r h → ids_fit h → run_inv r h.
Proof.
  induction 1 as [r [Hc Hm]|r h l r' Hr IH Hstep]; intros Hfit.
  - split; [by apply (reach_sound hash rdtsc cfg Hcfg V0); [apply reach_init|]| |]; intros i Hi; destruct (Hm i Hi) as [Hmi Hfi].
    + unfold main_ok. rewrite Hmi. destruct (init_node _ _ _ Hc i Hi) as (kv&now&->&_).
      rewrite (init_thread _ _ _ Hc i Hi). done.
    + unfold trace_ok. rewrite Hmi, (init_thread _ _ _ Hc i Hi). done.
  - apply run_step_inv with r; [|done|done]. apply IH. by eapply ids_fit_issue.
Qed.

(** Who passes the barrier knows that all is done. *)
Lemma barrier_passed r h i j : run_inv r h → is_node j → mains r j = MPassed → is_node i →
  content hash <$> requests (h i) = expected hash (cfg i) (concat (traces i)) ∧
  own_executed_all (cluster r) h i ∧ batches_left (mains r i) = [].
Proof.
  intros Hinv Hj Hpass Hi.
  pose proof (rn_main _ _ Hinv j Hj) as Hokj. unfold main_ok in Hokj. rewrite Hpass in Hokj.
  destruct Hokj as (_&_&_&Hflags). specialize (Hflags i Hi).
  pose proof (rn_main _ _ Hinv i Hi) as Hok. pose proof (rn_trace _ _ Hinv i Hi) as Htr.
  unfold main_ok in Hok. unfold trace_ok in Htr. rewrite <- Htr.
  destruct (mains r i); [by destruct Hok as (_&_&?&_)|by destruct Hok as (_&_&?)| |].
  all: destruct Hok as (_&Hth&Hown&_); split; [|by split].
  all: cbn [batches_left concat]; rewrite app_nil_r.
  all: destruct (threads (cluster r) i) as [|chunks|[] msgs to [|]| |]; try done; cbn [thread_chunks concat].
  all: by rewrite app_nil_r.
Qed.

End Invariant.

(** ** Properties *)
Section Properties.
Context {C S : Type} `{Chan : Channel C} `{!ChannelLaws C} `{Store : ReplicaStore S}.
Context (hash : bytes → Z) `{!ReplicaStoreLaws hash S}.
Context (rdtsc : Z → nat → Z) (cfg : Z → Config) (V0 : MapType).
(** The trace file of each node, its batch size, and when its clock is early. *)
Context (dataset : Z → bytes) (batch_size : Z → Z) (early : Z → nat → Z → bool).

Definition trace_batches (i : Z) : list (list BorrowedRequest) :=
  replay_trace (batch_size i) (early i) (dataset i).

Lemma trace_batches_concat i : concat (trace_batches i) = parsed_requests (lines_of (dataset i)).
Proof. apply (replay_spec (batch_size i) (early i) (lines_of (dataset i)) O []). by left. Qed.

Lemma trace_batches_covered i : Forall (Forall covered) (trace_batches i).
Proof.
  apply Forall_concat. rewrite trace_batches_concat. apply Forall_forall.
  intros req (line&_&(v&_&->)%fmap_Some)%list_elem_of_omap. apply request_of_covered.
Qed.

Lemma passed_barrier (r : Run C S) h i j : config_ok cfg →
  main_reach hash rdtsc cfg trace_batches V0 r h → ids_fit h → is_node j → mains r j = MPassed → is_node i →
  content hash <$> requests (h i) = expected hash (cfg i) (parsed_requests (lines_of (dataset i))) ∧
  ∀ k m, h i !! k = Some m → p_client_req_id (m_body m) ≠ 0 →
    seq_at i k < execute_next_ (nodes (cluster r) i).
Proof.
  intros Hcfg Hr Hids Hj Hpass Hi.
  rewrite <- trace_batches_concat.
  by destruct (barrier_passed hash cfg V0 trace_batches r h i j) as (?&?&_);
    [apply (main_reach_inv hash rdtsc), Hids; [|apply trace_batches_covered|]|..].
Qed.

(** When one node has passed the final barrier, the whole experiment is
    done: every valid operation of every node's trace has been submitted, once
    and in trace order, and every one of them has been executed by the node
    that submitted it. *)
Theorem all_traces_executed (r : Run C S) h i j (Hcfg : config_ok cfg)
    (Hr : main_reach hash rdtsc cfg trace_batches V0 r h) (Hids : ids_fit h)
    (Hj : is_node j) (Hpass : mains r j = MPassed) (Hi : is_node i) :
  content hash <$> requests (h i) = expected hash (cfg i) (parsed_requests (lines_of (dataset i))) ∧
  ∀ k m, h i !! k = Some m → p_client_req_id (m_body m) ≠ 0 →
    seq_at i k < execute_next_ (nodes (cluster r) i).
Proof. by apply (passed_barrier r h i j). Qed.

End Properties.

(** ** A run of three traces *)
Module Examples.
Import Agreement.Schedule Agreement.Examples KVStore.Examples.

#[local] Existing Instance rep.
#[local] Existing Instance rep_laws.

Abbreviation State := (Run SpscRing KVStore).

(** The next move of a main thread, or a step of the other threads. *)
Inductive Move := Main (i : Z) | Thread (a : Action).

(** The side conditions of [run_thread] for one node. *)
Definition quiet_main {C} (r : Run C KVStore) (c' : Cluster C KVStore) (i : Z) : bool :=
  Bool.eqb (input_done_ (nodes c' i)) (input_done_ (nodes (cluster r) i)) &&
  match threads (cluster r) i, threads c' i with
  | TIdle, TAdmit _ => false
  | TIdle, TNoop => negb (all_nodes_finished (cfg i) (node_finished r))
  | _, _ => true
  end.

Definition main_move {C} (i : Z) (r : Run C KVStore) : option (Run C KVStore) :=
  match mains r i, threads (cluster r) i with
  | MReplay (reqs :: batches), TIdle =>
      let '(ps, s') := prepare_proposals (cfg i) reqs [] (nodes (cluster r) i) in
      Some {| cluster := set_node i s' (TAdmit (submit_chunks (cfg i) ps)) (cluster r);
              mains := <[i := MReplay batches]> (mains r); node_finished := node_finished r |}
  | MReplay [], TIdle =>
      Some {| cluster := set_node i (mark_input_done (nodes (cluster r) i)) TIdle (cluster r);
              mains := <[i := MWaiting]> (mains r); node_finished := node_finished r |}
  | MWaiting, _ =>
      if all_pending_done (nodes (cluster r) i)
      then Some {| cluster := cluster r; mains := <[i := MFinished]> (mains r);
                   node_finished := <[i := 1]> (node_finished r) |}
      else None
  | MFinished, _ =>
      if all_nodes_finished (cfg i) (node_finished r)
      then Some {| cluster := cluster r; mains := <[i := MPassed]> (mains r); node_finished := node_finished r |}
      else None
  | _, _ => None
  end.

Definition move (m : Move) (r : State) : option (Issue * State) :=
  match m with
  | Main i => if decide (is_node i) then (fun r' => (None, r')) <$> main_move i r else None
  | Thread a =>
      match act length_hash clock cfg a (cluster r) with
      | Some (l, c') =>
          if forallb (quiet_main r c') [1; 2; 3]
          then Some (l, {| cluster := c'; mains := mains r; node_finished := node_finished r |}) else None
      | None => None
      end
  end.

Lemma main_move_step {C} i (r r' : Run C KVStore) : is_node i → main_move i r = Some r' →
  main_step cfg r r'.
Proof.
  intros Hi Hm. unfold main_move in Hm. destruct (mains r i) as [[|reqs batches]| | |] eqn:Hmi; try done.
  - destruct (threads (cluster r) i) eqn:Ht; try done. simplify_eq. by apply main_input_done.
  - destruct (threads (cluster r) i) eqn:Ht; try done.
    destruct (prepare_proposals _ _ _ _) as [ps s'] eqn:Hp. simplify_eq. by apply main_submit with reqs [].
  - case_match; simplify_eq. by apply main_finish.
  - case_match; simplify_eq. by apply main_pass.
Qed.

Lemma quiet_background {C} (r : Run C KVStore) c' : forallb (quiet_main r c') [1; 2; 3] = true → background cfg r c'.
Proof.
  intros Hall. assert (∀ i, is_node i → quiet_main r c' i = true) as Hq.
  { intros i Hi. rewrite forallb_forall in Hall. apply Hall. unfold is_node in Hi. cbn. lia. }
  split; intros i Hi; specialize (Hq i Hi); unfold quiet_main in Hq; apply andb_prop in Hq as [Hin Hq].
  - intros [Ht [chunks Ht']]. by rewrite Ht, Ht' in Hq.
  - by apply Bool.eqb_prop in Hin.
  - intros [Ht Ht']. rewrite Ht, Ht' in Hq. by apply negb_true_iff.
Qed.

Lemma move_step m r l r' : move m r = Some (l, r') → run_step length_hash clock cfg r l r'.
Proof.
  destruct m as [i|a]; cbn [move].
  - case_decide; [|done]. intros (r1&Hm&[= -> ->])%fmap_Some. by apply run_main, main_move_step with i.
  - destruct (act _ _ _ a (cluster r)) as [[l1 c']|] eqn:Ha; [|done].
    destruct (forallb _ _) eqn:Hall; [|done]. intros [= <- <-].
    apply run_thread; [by eapply act_step|by apply quiet_background].
Qed.

Fixpoint moves (ms : list Move) (r : State) (h : History) : option (State * History) :=
  match ms with
  | [] => Some (r, h)
  | m :: ms => match move m r with Some (l, r') => moves ms r' (issue l h) | None => None end
  end.

Section Traces.
(** The trace of each node, replayed in batches of two. *)
Context (datasets : Z → bytes).
Abbreviation batches := (trace_batches datasets (fun _ => 2) (fun _ _ _ => false)).

Definition r0 : State := {| cluster := c0; mains i := MReplay (batches i); node_finished _ := 0 |}.

Definition completes (ms : list Move) : bool :=
  match moves ms r0 (fun _ => []) with Some _ => true | None => false end.

Definition outcome (ms : list Move) : State * History := default (r0, fun _ => []) (moves ms r0 (fun _ => [])).
Lemma moves_reach ms r h r' h' : main_reach length_hash clock cfg batches V0 r h →
  moves ms r h = Some (r', h') → main_reach length_hash clock cfg batches V0 r' h'.
Proof.
  revert r h. induction ms as [|m ms IH]; intros r h Hr Hm; cbn in Hm; [by simplify_eq|].
  destruct (move m r) as [[l r1]|] eqn:Hstep; [|done]. eapply IH; [|exact Hm].
  eapply main_reach_step; [done|]. by eapply move_step.
Qed.

Lemma outcome_reach ms : completes ms = true →
  main_reach length_hash clock cfg batches V0 (outcome ms).1 (outcome ms).2.
Proof.
  unfold completes, outcome. destruct (moves _ _ _) as [[r h]|] eqn:Hm; [|done]. intros _.
  eapply moves_reach; [|exact Hm]. apply main_reach_init. split; [apply c0_initial|].
  intros i _. split; reflexivity.
Qed.

End Traces.

(** Node 1 writes twice, node 2 reads, node 3 has nothing to do. *)
Definition datasets (i : Z) : bytes :=
  if i =? 1 then unlines [str "0,P k:one"; str "5,D k"] else if i =? 2 then unlines [str "2,G k"]
  else unlines [str "# nothing"].
Abbreviation batches := (trace_batches datasets (fun _ => 2) (fun _ _ _ => false)).

Definition submission (i : Z) : list Move :=
  Main i :: (Thread <$> [Admit i; Send i; Send i; SelfDeliver i; Return i]) ++ [Main i].

Definition experiment : list Move :=
  submission 1 ++ submission 2 ++ [Main 3] ++
  (Thread <$> noop3 5000 ++ noop3_rest 5000 ++ deliver 1 2 ++ deliver 1 3 ++ deliver 2 1 ++ deliver 2 3 ++
     deliver 3 1 ++ deliver 3 2) ++ [Main 1; Main 2; Main 3; Main 2].

Abbreviation final := (outcome datasets experiment).

Lemma final_reach : main_reach length_hash clock cfg batches V0 final.1 final.2.
Proof. apply outcome_reach. by vm_compute. Qed.

Lemma final_ids : ids_fit final.2.
Proof. apply Completion.Examples.ids_fit_check. by vm_compute. Qed.

Example all_traces_executed_witness :
  content length_hash <$> requests (final.2 1) =
    expected length_hash (cfg 1) (parsed_requests [str "0,P k:one"; str "5,D k"]) ∧
  ∀ k m, final.2 1 !! k = Some m → p_client_req_id (m_body m) ≠ 0 →
    seq_at 1 k < execute_next_ (nodes (cluster final.1) 1).
Proof.
  apply (all_traces_executed length_hash clock cfg V0 datasets (fun _ => 2) (fun _ _ _ => false) final.1 final.2 1 2);
    [apply cfg_ok|apply final_reach|apply final_ids|by vm_compute|by vm_compute|by vm_compute].
Defined.

End Examples.
