(* ===== verification/Finish.v ===== *)
(** A run can always be finished: whatever the main threads, the proposer
    threads and the rings are doing, there is a continuation in which every
    main thread leaves the final barrier ([run_can_finish]).  What a run has
    still to do is counted by [work]; when everything under way is delivered
    either some thread can do a piece of it, or the owner of the position every
    replica waits for proposes a no-op, and [round] says which. *)
From stdpp Require Import functions relations.
From S2P Require Import Prelude Histogram KVStore Message Ring Transport NodeState Bandle Execute Stats Replica Submit Cluster Agreement Completion Progress Text Trace Lifecycle.

(** ** The work that is left *)

(** Calls a main thread has still to make: each batch is submitted, admitted
    chunk by chunk and returned from. *)
Definition main_work (m : Main) : nat :=
  match m with
  | MReplay batches => 3 + sum_list_with (λ reqs, 2 + length reqs)%nat batches
  | MWaiting => 2
  | MFinished => 1
  | MPassed => 0
  end.

Definition passed (m : Main) : bool := match m with MPassed => true | _ => false end.

(** A main thread that has not raised its flag. *)
Definition unfinished (m : Main) : bool :=
  match m with MReplay _ | MWaiting => true | _ => false end.

Lemma main_search (p : Main → bool) (ms : Z → Main) :
  (∃ i, is_node i ∧ p (ms i) = true) ∨ ∀ i, is_node i → p (ms i) = false.
Proof.
  destruct (decide (Exists (λ i, p (ms i) = true) node_ids)) as [(i&Hi%elem_of_node_ids&Hp)%Exists_exists|Hno].
  - left. by exists i.
  - right. intros i Hi. apply not_true_iff_false. intros Hp. apply Hno, Exists_exists.
    exists i. by rewrite elem_of_node_ids.
Qed.

(** The flags are raised by the threads that have finished. *)
Lemma all_finished_iff g (flags : Z → Z) : cluster_size_ g = 3 →
  all_nodes_finished g flags = true ↔ ∀ j, is_node j → flags j ≠ 0.
Proof.
  unfold all_nodes_finished. intros ->. rewrite forallb_forall. split.
  - intros Hall j Hj. apply Z.eqb_neq, negb_true_iff, Hall, list_elem_of_In, elem_of_seqZ.
    unfold is_node in Hj. lia.
  - intros Hall j Hj%list_elem_of_In%elem_of_seqZ. apply negb_true_iff, Z.eqb_neq, Hall.
    unfold is_node. lia.
Qed.

(** A chunk is not empty, so there are no more chunks than proposals. *)
Lemma concat_length_ge {A} (ls : list (list A)) :
  Forall (λ l, 1 ≤ length l)%nat ls → (length ls ≤ length (concat ls))%nat.
Proof. induction 1 as [|l ls Hl _ IH]; [done|]. cbn [concat length]. rewrite length_app. lia. Qed.

Section Finish.
Context {C S : Type} `{Chan : Channel C} `{!ChannelLaws C} `{Store : ReplicaStore S}.
Context (hash : bytes → Z) `{!ReplicaStoreLaws hash S}.
Context (rdtsc : Z → nat → Z) (cfg : Z → Config) (Hcfg : config_ok cfg) (V0 : MapType).
Context (traces : Z → list (list BorrowedRequest)).
Implicit Types (c : Cluster C S) (h : History) (r : Run C S).

Abbreviation sound_run := (run_inv hash cfg V0 traces).

(** A step of the run with the history it leaves. *)
Definition rstep (x y : Run C S * History) : Prop :=
  ∃ l, run_step hash rdtsc cfg x.1 l y.1 ∧ y.2 = issue l x.2.

Abbreviation rsteps := (rtc rstep).

Definition node_work r (i : Z) : Z :=
  Z.of_nat (main_work (mains r i)) + Z.of_nat (thread_work (threads (cluster r) i)).
Definition work r : Z := zsum (node_work r <$> node_ids).

Lemma steps_prefix x y i : rsteps x y → x.2 i `prefix_of` y.2 i.
Proof. induction 1 as [|x y z [l [_ Hl]] _ IH]; [done|]. etransitivity; [|exact IH]. rewrite Hl. apply issue_prefix. Qed.

Lemma ids_prefix h h' : (∀ i, h i `prefix_of` h' i) → ids_fit h' → ids_fit h.
Proof. intros Hp Hf i Hi. specialize (Hf i Hi). pose proof (prefix_length _ _ (Hp i)). lia. Qed.

Lemma run_sound x y : rsteps x y → ids_fit y.2 → sound_run x.1 x.2 → sound_run y.1 y.2.
Proof.
  induction 1 as [|x y z [l [Hs Hl]] Hrun IH]; [done|]. intros Hf Hr. apply IH; [done|]. rewrite Hl.
  eapply run_step_inv; [done..| |exact Hs]. rewrite <- Hl. eapply ids_prefix, Hf. intros i. by apply steps_prefix.
Qed.

Lemma steps_sound r h r' h' : sound_run r h → ids_fit h' → rsteps (r, h) (r', h') → sound_run r' h'.
Proof. intros Hr Hf Hrun. exact (run_sound _ _ Hrun Hf Hr). Qed.

(** A calm step of the threads is a step of the run. *)
Lemma calm_background r c' : calm (cluster r) c' → background cfg r c'.
Proof.
  intros Hcalm. split; intros i Hi; destruct (Hcalm i Hi) as (Hidle&Hin&_).
  - intros [Ht [chunks Ht']]. rewrite Hidle in Ht' by done. done.
  - done.
  - intros [Ht Ht']. rewrite Hidle in Ht' by done. done.
Qed.

Lemma calm_run_step r l c' : step hash rdtsc cfg (cluster r) l c' → calm (cluster r) c' →
  run_step hash rdtsc cfg r l (with_cluster r c').
Proof. intros Hs Hcalm. by apply run_thread, calm_background. Qed.

Lemma calm_run r h c' : rtc (calm_step hash rdtsc cfg) (cluster r) c' →
  rsteps (r, h) (with_cluster r c', h).
Proof.
  intros Hrun. remember (cluster r) as c eqn:Hc. revert r Hc.
  induction Hrun as [c|c c1 c' [Hs Hcalm] _ IH]; intros r ->; [by destruct r|].
  eapply rtc_l; [|apply (IH (with_cluster r c1)); done]. exists None. split; [|done]. by apply calm_run_step.
Qed.

Lemma calm_work r c' : calm (cluster r) c' → work (with_cluster r c') ≤ work r.
Proof.
  intros Hcalm. apply zsum_le. intros i Hi%elem_of_node_ids. unfold node_work. cbn.
  destruct (Hcalm i Hi) as (_&_&?). lia.
Qed.

(** A step of node [i] that leaves it with less to do. *)
Lemma work_less r r' i : is_node i → node_work r' i < node_work r i →
  (∀ j, j ≠ i → mains r' j = mains r j ∧ threads (cluster r') j = threads (cluster r) j) → work r' < work r.
Proof.
  intros Hi Hlt Hother. apply zsum_lt with i; [|by apply elem_of_node_ids|done].
  intros j _. destruct (decide (j = i)) as [->|Hne]; [lia|].
  destruct (Hother j Hne) as [Hm Ht]. unfold node_work. by rewrite Hm, Ht.
Qed.

(** Who has raised its flag. *)
Lemma flags_raised r h i : sound_run r h → is_node i → unfinished (mains r i) = false → node_finished r i ≠ 0.
Proof.
  intros Hr Hi Hm. pose proof (rn_main _ _ _ _ _ _ Hr i Hi) as Hok. unfold main_ok in Hok.
  destruct (mains r i); try done; [by destruct Hok as (_&_&_&?)|]. by apply Hok.
Qed.

(** *** Settling *)
Lemma cluster_of r h : sound_run r h → ∃ n, cluster_inv hash cfg V0 (cluster r) h n.
Proof. intros Hr. apply Hr. Qed.

Lemma main_of r h i : sound_run r h → is_node i → main_ok r h i.
Proof. intros Hr. apply Hr. Qed.

(** Everything under way is delivered, and no execution position is lost. *)
Lemma settle r h : sound_run r h → ids_fit h → ∃ r',
  rsteps (r, h) (r', h) ∧ quiet cfg (cluster r') ∧ mains r' = mains r ∧ node_finished r' = node_finished r ∧
  work r' ≤ work r.
Proof.
  intros Hr Hids. destruct (cluster_of r h Hr) as [n Hc].
  destruct (flush hash rdtsc cfg V0 _ h n Hc (ids_no_overflow _ Hids)) as (c'&n'&Hrun&_&Hq).
  exists (with_cluster r c'). split; [by apply calm_run|]. do 3 (split; [done|]).
  by apply calm_work, (calm_steps_calm hash rdtsc cfg).
Qed.

(** *** Pieces of work *)
Definition grows (k : Z) h h' : Prop :=
  ∀ i, is_node i → Z.of_nat (length (h' i)) ≤ Z.of_nat (length (h i)) + k.

Lemma grows_issue o msgs h : grows (Z.of_nat (length msgs)) h (issue (Some (o, msgs)) h).
Proof.
  intros i _. cbn. destruct (decide (o = i)) as [<-|].
  - rewrite fn_lookup_insert, length_app, length_fmap. lia.
  - rewrite fn_lookup_insert_ne by done. lia.
Qed.

(** Some piece of work can be done. *)
Definition advances r h : Prop :=
  ∃ r' h', rsteps (r, h) (r', h') ∧ work r' < work r ∧ grows 10922 h h'.

Lemma advance_step r h l r' : run_step hash rdtsc cfg r l r' → work r' < work r →
  grows 10922 h (issue l h) → advances r h.
Proof. intros Hs Hw Hg. exists r', (issue l h). split; [|done]. apply rtc_once. by exists l. Qed.

Lemma advance_main r h r' i : is_node i → run_step hash rdtsc cfg r None r' →
  node_work r' i < node_work r i →
  (∀ j, j ≠ i → mains r' j = mains r j ∧ threads (cluster r') j = threads (cluster r) j) → advances r h.
Proof.
  intros Hi Hs Hlt Hother. apply (advance_step r h None r'); [done|by apply (work_less r r' i)|].
  intros j _. cbn. lia.
Qed.

Lemma submit_advances r h i reqs batches : sound_run r h → ids_fit h → is_node i →
  mains r i = MReplay (reqs :: batches) → threads (cluster r) i = TIdle → advances r h.
Proof.
  intros Hr Hids Hi Hm Ht. pose proof (main_of r h i Hr Hi) as Hok. unfold main_ok in Hok.
  rewrite Hm in Hok. destruct Hok as (_&_&_&[Hreqs _]%Forall_cons).
  pose proof (prepare_all (cfg i) reqs [] (nodes (cluster r) i) (Forall_nil_2 _) (covered_lengths _ Hreqs)) as Hall.
  destruct (prepare_proposals (cfg i) reqs [] (nodes (cluster r) i)) as [ps s'] eqn:Hp.
  destruct Hall as (_&Hlen&_&_). destruct (cfg_window _ Hcfg i Hi) as (Hba&_).
  destruct (submit_chunks_spec (cfg i) ps Hba) as [Hcat Hchunks].
  eapply (advance_main r h _ i Hi); [by apply run_main, (main_submit _ r i reqs batches []); (done || constructor)| |].
  - unfold node_work. cbn. rewrite !fn_lookup_insert, Hm, Ht. cbn [main_work thread_work sum_list_with].
    pose proof (concat_length_ge (submit_chunks (cfg i) ps)) as Hle. rewrite Hcat in Hle.
    assert (length (submit_chunks (cfg i) ps) ≤ length ps)%nat; [|lia].
    apply Hle. eapply Forall_impl; [exact Hchunks|]. by intros ? [? _].
  - intros j Hne. cbn. by rewrite !fn_lookup_insert_ne.
Qed.

Lemma input_done_advances r h i : is_node i → mains r i = MReplay [] → threads (cluster r) i = TIdle →
  advances r h.
Proof.
  intros Hi Hm Ht. eapply (advance_main r h _ i Hi); [by apply run_main, main_input_done| |].
  - unfold node_work. cbn. rewrite !fn_lookup_insert, Hm, Ht. cbn. lia.
  - intros j Hne. cbn. by rewrite !fn_lookup_insert_ne.
Qed.

Lemma return_advances r h i : is_node i → threads (cluster r) i = TAdmit [] → advances r h.
Proof.
  intros Hi Ht. eapply (advance_main r h _ i Hi).
  - apply calm_run_step; [by apply (step_return _ _ _ _ i)|]. apply calm_set_node; rewrite ?Ht; (done || cbn; lia).
  - unfold node_work. cbn. rewrite fn_lookup_insert, Ht. cbn. lia.
  - intros j Hne. cbn. by rewrite fn_lookup_insert_ne.
Qed.

Lemma finish_advances r h i : is_node i → mains r i = MWaiting →
  all_pending_done (nodes (cluster r) i) = true → advances r h.
Proof.
  intros Hi Hm Hd. eapply (advance_main r h _ i Hi); [by apply run_main, main_finish| |].
  - unfold node_work. cbn. rewrite fn_lookup_insert, Hm. cbn. lia.
  - intros j Hne. cbn. by rewrite fn_lookup_insert_ne.
Qed.

Lemma pass_advances r h i : is_node i → mains r i = MFinished →
  (∀ j, is_node j → node_finished r j ≠ 0) → advances r h.
Proof.
  intros Hi Hm Hd. eapply (advance_main r h _ i Hi).
  - apply run_main, main_pass; [done|done|]. apply all_finished_iff; [by apply Hcfg|done].
  - unfold node_work. cbn. rewrite fn_lookup_insert, Hm. cbn. lia.
  - intros j Hne. cbn. by rewrite fn_lookup_insert_ne.
Qed.

(** An owner that submits can admit its next chunk. *)
Lemma admit_advances r h n i chunk chunks : ids_fit h → cluster_inv hash cfg V0 (cluster r) h n →
  is_node i → next_seq_ (nodes (cluster r) i) = execute_next_ (nodes (cluster r) i) →
  threads (cluster r) i = TAdmit (chunk :: chunks) → advances r h.
Proof.
  intros Hids Hc Hi Hnext Ht. pose proof (ids_no_overflow _ Hids) as Hno.
  destruct (owner_admits hash rdtsc cfg V0 _ h n i chunk chunks Hcfg Hc Hi Hnext Ht) as [[s' msgs] Ha].
  destruct (admitted_chunk hash rdtsc cfg Hcfg V0 _ h n i chunk chunks s' msgs Hc Hno Hi Ht Ha) as (_&Hlen&Hin).
  eapply (advance_step r h (Some (i, msgs))).
  - apply calm_run_step; [by eapply step_admit|]. apply calm_set_node; rewrite ?Ht; (done || cbn; lia).
  - apply (work_less _ _ i Hi).
    + unfold node_work. cbn. rewrite fn_lookup_insert, Ht. cbn. lia.
    + intros j Hne. cbn. by rewrite fn_lookup_insert_ne.
  - intros j Hj. pose proof (grows_issue i msgs h j Hj). lia.
Qed.

(** *** No-ops *)

(** Node [o] can issue a no-op, and the main threads are where they were. *)
Definition noop_issued r h (o : Z) : Prop :=
  ∃ r1 msg, rsteps (r, h) (r1, issue (Some (o, [msg])) h) ∧ mains r1 = mains r ∧
    node_finished r1 = node_finished r ∧ work r1 ≤ work r ∧ is_request msg = false.

Lemma noop_issued_l r h o c1 : run_step hash rdtsc cfg r None (with_cluster r c1) →
  work (with_cluster r c1) ≤ work r → noop_issued (with_cluster r c1) h o → noop_issued r h o.
Proof.
  intros Hs Hw (r1&msg&Hrun&Hm&Hf&Hw1&Hmsg). exists r1, msg. split; [|split; [done|split; [done|split; [lia|done]]]].
  eapply rtc_l; [|exact Hrun]. by exists None.
Qed.

Lemma work_idle r o t : is_node o → thread_work t = O →
  work (with_cluster r (set_node o (nodes (cluster r) o) t (cluster r))) ≤ work r.
Proof.
  intros Ho Ht. apply zsum_le. intros j _. unfold node_work. cbn.
  destruct (decide (o = j)) as [<-|]; [rewrite fn_lookup_insert, Ht; lia|by rewrite fn_lookup_insert_ne].
Qed.

Lemma read_issues r h o msg : is_node o → threads (cluster r) o = TNoopRead msg → is_request msg = false →
  noop_issued r h o.
Proof.
  intros Ho Ht Hmsg. pose proof (step_noop_reserve hash rdtsc cfg (cluster r) o msg 0 Ho Ht) as Hs.
  assert (calm (cluster r) (set_node o (reserve_noop (cfg o) 0 (nodes (cluster r) o))
    (TSend true [msg] (peers o (cluster_size_ (cfg o))) []) (cluster r))) as Hcalm.
  { apply calm_set_node; rewrite ?Ht; done. }
  eexists _, msg. split; [apply rtc_once; eexists (Some (o, [msg])); split; [by apply calm_run_step|done]|].
  do 2 (split; [done|]). split; [by apply calm_work|done].
Qed.

Lemma noop_issues r h o : is_node o → threads (cluster r) o = TNoop → noop_issued r h o.
Proof.
  intros Ho Ht. eapply noop_issued_l; [apply calm_run_step; [by apply (step_noop_read _ _ _ _ o)|]| |].
  - apply calm_set_node; rewrite ?Ht; done.
  - by apply work_idle.
  - apply (read_issues _ h o (noop_proposal (cfg o) (nodes (cluster r) o))); [done|cbn; by rewrite fn_lookup_insert|done].
Qed.

(** An idle proposer thread proposes once its interval has passed, while some
    node has not finished. *)
Lemma idle_issues r h n o : cluster_inv hash cfg V0 (cluster r) h n → ids_fit h → is_node o →
  threads (cluster r) o = TIdle → input_done_ (nodes (cluster r) o) = true →
  next_seq_ (nodes (cluster r) o) = execute_next_ (nodes (cluster r) o) →
  all_nodes_finished (cfg o) (node_finished r) = false → noop_issued r h o.
Proof.
  intros Hc Hids Ho Ht Hin Hnext Hall. pose proof (ids_no_overflow _ Hids) as Hno.
  pose proof (nd_highest _ _ _ _ (ci_node _ _ _ _ _ _ Hc o Ho)) as Hh.
  pose proof (ri_exec _ _ _ _ (ci_replica _ _ _ _ _ _ Hc o Ho)) as Hx.
  set (s := nodes (cluster r) o) in *. set (now := last_noop_ns_ s +₆₄ (noop_interval_us_ (cfg o) *₆₄ 1000)).
  eapply noop_issued_l; [apply run_thread; [apply (step_noop_check _ _ _ _ o false now); [done|done|]|split]| |].
  - fold s. apply owner_proposes; try (done || lia).
    unfold now. rewrite w64_sub_l. replace (last_noop_ns_ s + _ - _) with (noop_interval_us_ (cfg o) *₆₄ 1000) by lia.
    by rewrite w64_idemp.
  - intros i Hi [Hti [chunks Hti']]. cbn in Hti'. destruct (decide (o = i)) as [<-|].
    + by rewrite fn_lookup_insert in Hti'.
    + rewrite fn_lookup_insert_ne in Hti' by done. congruence.
  - intros i Hi. cbn. destruct (decide (o = i)) as [<-|]; [by rewrite fn_lookup_insert|by rewrite fn_lookup_insert_ne].
  - intros i Hi [Hti Hti']. cbn in Hti'. destruct (decide (o = i)) as [<-|]; [done|].
    rewrite fn_lookup_insert_ne in Hti' by done. congruence.
  - by apply work_idle.
  - apply noop_issues; [done|]. cbn. by rewrite fn_lookup_insert.
Qed.

(** *** Rounds *)

(** What node [i] waits for happens no later than position [T]: its turn to
    propose, or the execution of its last request. *)
Definition target r h (i T : Z) : Prop :=
  match mains r i with
  | MReplay _ => T = seq_at i (length (h i))
  | MWaiting => ∀ k m, h i !! k = Some m → p_client_req_id (m_body m) ≠ 0 → seq_at i k < T
  | _ => False
  end.

Lemma target_exists r h n i : cluster_inv hash cfg V0 (cluster r) h n → is_node i →
  unfinished (mains r i) = true →
  ∃ T, target r h i T ∧ T ≤ execute_next_ (nodes (cluster r) 1) + 65538.
Proof.
  intros Hc Hi Hm. assert (is_node 1) as H1 by by vm_compute. unfold target.
  destruct (mains r i); [| |done|done]; cycle 1.
  { exists (execute_next_ (nodes (cluster r) 1) + 65538). split; [|lia]. intros k m Hk%lookup_lt_Some _.
    pose proof (issued_window hash cfg V0 _ h n i 1 k Hc Hi H1 Hk). lia. }
  eexists. split; [done|]. destruct (ci_node _ _ _ _ _ _ Hc i Hi) as [Hseq _ Hw _ _].
  pose proof (exec_le_next hash cfg V0 _ h n 1 i Hc H1 Hi). unfold kWindow in Hw.
  pose proof (nd_window _ _ _ _ (ci_node _ _ _ _ _ _ Hc 1 H1)). unfold kWindow in *. lia.
Qed.

(** The owner of the awaited position submits: a piece of work. *)
Lemma replaying_owner_advances r h n o : sound_run r h → ids_fit h →
  cluster_inv hash cfg V0 (cluster r) h n → quiet cfg (cluster r) → is_node o →
  next_seq_ (nodes (cluster r) o) = execute_next_ (nodes (cluster r) o) →
  (∃ batches, mains r o = MReplay batches) → advances r h.
Proof.
  intros Hr Hids Hc Hq Ho Hnext [batches Hm]. pose proof (main_of r h o Hr Ho) as Hok.
  unfold main_ok in Hok. rewrite Hm in Hok. destruct Hok as (_&Hth&_).
  pose proof (nd_thread _ _ _ _ (ci_node _ _ _ _ _ _ Hc o Ho)) as Htok.
  destruct (threads (cluster r) o) as [|[|chunk chunks]|[] msgs to chunks| |] eqn:Ht; try done.
  - destruct batches as [|reqs batches]; [by apply (input_done_advances r h o)|by apply (submit_advances r h o reqs batches)].
  - by apply (return_advances r h o).
  - by apply (admit_advances r h n o chunk chunks).
  - exfalso. pose proof (quiet_thread _ _ Hq o o Ho Ho) as Hout. rewrite Ht in Hout. cbn [outgoing] in Hout.
    rewrite decide_True in Hout by (by left). by destruct Htok as [? _].
Qed.

(** Any other owner can issue a no-op. *)
Lemma other_owner_issues r h n o i : sound_run r h → ids_fit h →
  cluster_inv hash cfg V0 (cluster r) h n → quiet cfg (cluster r) → is_node o →
  next_seq_ (nodes (cluster r) o) = execute_next_ (nodes (cluster r) o) →
  (∀ batches, mains r o ≠ MReplay batches) → is_node i → unfinished (mains r i) = true →
  noop_issued r h o.
Proof.
  intros Hr Hids Hc Hq Ho Hnext Hm Hi Hun. pose proof (main_of r h o Hr Ho) as Hok.
  pose proof (cn_thread _ _ (so_requests _ _ _ _ _ (rn_sound _ _ _ _ _ _ Hr)) o Ho) as Hown.
  assert (input_done_ (nodes (cluster r) o) = true ∧ proposer_thread (threads (cluster r) o)) as [Hin Hth].
  { unfold main_ok in Hok. destruct (mains r o) as [b| | |]; [by destruct (Hm b)|..]; by destruct Hok as (?&?&_). }
  pose proof (nd_thread _ _ _ _ (ci_node _ _ _ _ _ _ Hc o Ho)) as Htok.
  destruct (threads (cluster r) o) as [| |[] msgs to chunks| |msg] eqn:Ht; try done.
  - apply (idle_issues r h n o); try done. apply not_true_iff_false. intros Hall.
    apply all_finished_iff with (j := i) in Hall; [|by apply Hcfg|done].
    pose proof (main_of r h i Hr Hi) as Hoki. unfold main_ok in Hoki.
    destruct (mains r i); [by destruct Hoki as (_&_&?&_)|by destruct Hoki as (_&_&?)|done|done].
  - exfalso. pose proof (quiet_thread _ _ Hq o o Ho Ho) as Hout. rewrite Ht in Hout. cbn [outgoing] in Hout.
    rewrite decide_True in Hout by (by left). by destruct Htok as [? _].
  - by apply noop_issues.
  - apply (read_issues r h o msg Ho Ht). apply Hown.
Qed.

(** A target that is reached is a piece of work. *)
Lemma reached_advances r h n i T : sound_run r h → ids_fit h → cluster_inv hash cfg V0 (cluster r) h n →
  quiet cfg (cluster r) → is_node i → target r h i T → T ≤ execute_next_ (nodes (cluster r) 1) → advances r h.
Proof.
  intros Hr Hids Hc Hq Hi Ht HT. assert (is_node 1) as H1 by by vm_compute.
  unfold target in Ht.
  pose proof (quiet_exec hash cfg V0 _ h n i 1 Hc Hq Hi H1) as He.
  destruct (mains r i) as [batches| | |] eqn:Hm; [| |done|done].
  - pose proof (exec_le_next hash cfg V0 _ h n i i Hc Hi Hi) as Hle.
    pose proof (nd_next _ _ _ _ (ci_node _ _ _ _ _ _ Hc i Hi)) as Hseq.
    apply (replaying_owner_advances r h n i); try done; [lia|by exists batches].
  - apply (finish_advances r h i Hi Hm).
    apply (done_when_executed hash cfg V0 _ h i (rn_sound _ _ _ _ _ _ Hr) Hi).
    intros k m Hk Hne. specialize (Ht k m Hk Hne). lia.
Qed.

Lemma target_noop r h r' i T o msg : mains r' = mains r → is_node o → is_node i →
  (∀ batches, mains r o ≠ MReplay batches) → is_request msg = false →
  target r h i T → target r' (issue (Some (o, [msg])) h) i T.
Proof.
  unfold target. intros -> Ho Hi Hm Hmsg Ht. cbn. destruct (decide (o = i)) as [<-|Hne].
  - destruct (mains r o) as [batches| | |]; [by destruct (Hm batches)| |done|done].
    intros k m Hk Hreq. rewrite fn_lookup_insert in Hk. apply lookup_app_Some in Hk as [Hk|[_ Hk]]; [by eapply Ht|].
    apply list_lookup_singleton_Some in Hk as [_ <-]. exfalso. apply Hreq.
    by apply negb_false_iff, Z.eqb_eq in Hmsg.
  - by rewrite fn_lookup_insert_ne.
Qed.

(** With everything delivered, a piece of work can be done, or a no-op moves
    the execution on towards the target. *)
Lemma round r h i T : sound_run r h → ids_fit h → shorter h (2 ^ 56 - 2) → quiet cfg (cluster r) →
  is_node i → unfinished (mains r i) = true → target r h i T →
  advances r h ∨ ∃ r' h', rsteps (r, h) (r', h') ∧ quiet cfg (cluster r') ∧ mains r' = mains r ∧
    work r' ≤ work r ∧ target r' h' i T ∧ grows 1 h h' ∧
    execute_next_ (nodes (cluster r) 1) < execute_next_ (nodes (cluster r') 1).
Proof.
  intros Hr Hids Hroom Hq Hi Hun Ht. assert (is_node 1) as H1 by by vm_compute.
  destruct (cluster_of r h Hr) as [n Hc]. set (E := execute_next_ (nodes (cluster r) 1)).
  destruct (quiet_owner hash cfg V0 _ h n 1 Hc Hq H1) as [Ho Hnext]. fold E in Ho, Hnext.
  set (o := owner E) in *. assert (mains r o = MReplay (batches_left (mains r o)) ∨ ∀ b, mains r o ≠ MReplay b) as [Hm|Hm].
  { destruct (mains r o); [by left|by right..]. }
  { left. apply (replaying_owner_advances r h n o); try done. by eexists. }
  right. destruct (other_owner_issues r h n o i Hr Hids Hc Hq Ho Hnext Hm Hi Hun) as (r1&msg&Hrun1&Hm1&_&Hw1&Hmsg).
  set (h1 := issue (Some (o, [msg])) h) in *.
  assert (grows 1 h h1) as Hg by apply (grows_issue o [msg] h).
  assert (ids_fit h1) as Hids1. { intros j Hj. specialize (Hg j Hj). specialize (Hroom j Hj). lia. }
  pose proof (steps_sound r h r1 h1 Hr Hids1 Hrun1) as Hr1.
  destruct (settle r1 h1 Hr1 Hids1) as (r2&Hrun2&Hq2&Hm2&_&Hw2).
  destruct (cluster_of r2 h1 (steps_sound _ _ _ _ Hr1 Hids1 Hrun2)) as [n2 Hc2].
  exists r2, h1. split; [by etransitivity|]. split; [done|]. split; [congruence|]. split; [lia|].
  split; [apply (target_noop r h r2); (done || congruence)|]. split; [done|].
  assert (issued h1 E = Some (wire msg)) as HE.
  { pose proof (quiet_exec hash cfg V0 _ h n o 1 Hc Hq Ho H1) as He. fold E in He.
    pose proof (nd_next _ _ _ _ (ci_node _ _ _ _ _ _ Hc o Ho)) as Hseq.
    replace E with (seq_at o (length (h o))) by congruence. unfold issued. rewrite delivered_at by done.
    unfold h1. cbn [issue]. change (wire <$> [msg]) with [wire msg]. rewrite fn_lookup_insert, length_app, list_lookup_middle by done. cbn [length].
    by rewrite (proj2 (Nat.ltb_lt _ _)) by lia. }
  pose proof (executed_stays hash cfg V0 _ h n (cluster r2) h1 n2 1 1 Hc Hc2 Hq2 (issue_prefix _ _) H1 H1) as Hle.
  by apply (quiet_caught_up hash cfg V0 _ h1 n2 1 E (wire msg)).
Qed.

Lemma grows_trans k k' h h' h'' : grows k h h' → grows k' h' h'' → grows (k + k') h h''.
Proof. intros H H' i Hi. specialize (H i Hi). specialize (H' i Hi). lia. Qed.

Lemma grows_mono k k' h h' : k ≤ k' → grows k h h' → grows k' h h'.
Proof. intros Hle H i Hi. specialize (H i Hi). lia. Qed.

Lemma shorter_grows h h' B k : shorter h B → grows k h h' → shorter h' (B + k).
Proof. intros Hs Hg i Hi. specialize (Hs i Hi). specialize (Hg i Hi). lia. Qed.

(** No-op after no-op, a piece of work is reached. *)
Lemma rounds k r h i T : sound_run r h → shorter h (2 ^ 56 - 2 - Z.of_nat k) → quiet cfg (cluster r) →
  is_node i → unfinished (mains r i) = true → target r h i T →
  T ≤ execute_next_ (nodes (cluster r) 1) + Z.of_nat k →
  ∃ r' h', rsteps (r, h) (r', h') ∧ work r' < work r ∧ grows (Z.of_nat k + 10922) h h'.
Proof.
  revert r h. induction k as [|k IH]; intros r h Hr Hroom Hq Hi Hun Ht HT.
  all: assert (ids_fit h) as Hids by (intros j Hj; specialize (Hroom j Hj); lia).
  all: destruct (cluster_of r h Hr) as [n Hc].
  - apply (reached_advances r h n i T); (done || lia).
  - assert (shorter h (2 ^ 56 - 2)) as Hroom' by (intros j Hj; specialize (Hroom j Hj); lia).
    destruct (round r h i T Hr Hids Hroom' Hq Hi Hun Ht)
      as [(r'&h'&Hrun&Hw&Hg)|(r1&h1&Hrun1&Hq1&Hm1&Hw1&Ht1&Hg1&He)].
    { exists r', h'. do 2 (split; [done|]). eapply grows_mono; [|exact Hg]. lia. }
    pose proof (shorter_grows _ _ _ _ Hroom Hg1) as Hroom1.
    assert (ids_fit h1) as Hids1 by (intros j Hj; specialize (Hroom1 j Hj); lia).
    destruct (IH r1 h1 (steps_sound _ _ _ _ Hr Hids1 Hrun1)) as (r'&h'&Hrun&Hw&Hg); try done; [|by rewrite Hm1|lia|].
    { intros j Hj. specialize (Hroom1 j Hj). lia. }
    exists r', h'. split; [by etransitivity|]. split; [lia|].
    eapply grows_mono; [|exact (grows_trans _ _ _ _ _ Hg1 Hg)]. lia.
Qed.

(** Until all have passed the barrier, work can be done. *)
Lemma can_work r h : sound_run r h → shorter h (2 ^ 56 - 2 ^ 17) →
  (∃ i, is_node i ∧ passed (mains r i) = false) →
  ∃ r' h', rsteps (r, h) (r', h') ∧ work r' < work r ∧ grows (2 ^ 17) h h'.
Proof.
  intros Hr Hroom (i&Hi&Hnot). assert (ids_fit h) as Hids by (intros j Hj; specialize (Hroom j Hj); lia).
  destruct (settle r h Hr Hids) as (r1&Hrun1&Hq1&Hm1&_&Hw1). pose proof (steps_sound _ _ _ _ Hr Hids Hrun1) as Hr1.
  assert (∀ r' h', rsteps (r1, h) (r', h') → work r' < work r1 → grows (65538 + 10922) h h' →
    ∃ r' h', rsteps (r, h) (r', h') ∧ work r' < work r ∧ grows (2 ^ 17) h h') as Hdone.
  { intros r' h' Hrun Hw Hg. exists r', h'. split; [by etransitivity|]. split; [lia|].
    by eapply grows_mono; [|exact Hg]. }
  destruct (main_search unfinished (mains r1)) as [(j&Hj&Hun)|Hall].
  - destruct (cluster_of r1 h Hr1) as [n Hc].
    destruct (target_exists r1 h n j Hc Hj Hun) as (T&Ht&HT).
    assert (∃ k, Z.of_nat k = 65538) as [k Hk] by (exists (Z.to_nat 65538); apply Z2Nat.id; lia).
    destruct (rounds k r1 h j T) as (r'&h'&Hrun&Hw&Hg); rewrite ?Hk; try done; [|by rewrite Hk in Hg; apply (Hdone r' h')].
    intros i' Hi'. specialize (Hroom i' Hi'). lia.
  - rewrite <- Hm1 in Hnot. specialize (Hall i Hi) as Hi1.
    destruct (mains r1 i) eqn:Hmi; try done.
    destruct (pass_advances r1 h i Hi Hmi) as (r'&h'&Hrun&Hw&Hg).
    + intros j Hj. apply (flags_raised r1 h j Hr1 Hj). by apply Hall.
    + apply (Hdone r' h' Hrun Hw). by eapply grows_mono; [|exact Hg].
Qed.

Lemma work_nonneg r : 0 ≤ work r.
Proof. apply zsum_nonneg. intros i _. unfold node_work. lia. Qed.

(** A run whose remaining work leaves room for its sequence numbers. *)
Definition room_left r h : Prop := shorter h (2 ^ 56 - 1 - 2 ^ 17 * (work r + 1)).

Lemma finish_run r h : sound_run r h → room_left r h →
  ∃ r' h', rsteps (r, h) (r', h') ∧ ids_fit h' ∧ ∀ i, is_node i → mains r' i = MPassed.
Proof.
  intros Hr Hroom. remember (Z.to_nat (work r)) as k eqn:Hk. revert r h Hr Hroom Hk.
  induction (lt_wf k) as [k _ IH]. intros r h Hr Hroom ->. pose proof (work_nonneg r) as H0. unfold room_left in *.
  destruct (main_search (λ m, negb (passed m)) (mains r)) as [(i&Hi&Hnot)|Hall].
  - apply negb_true_iff in Hnot.
    destruct (can_work r h Hr) as (r1&h1&Hrun1&Hw&Hg); [|by exists i|].
    { intros j Hj. specialize (Hroom j Hj). lia. }
    pose proof (work_nonneg r1).
    assert (ids_fit h1) as Hids1 by (intros j Hj; specialize (Hroom j Hj); specialize (Hg j Hj); lia).
    destruct (IH (Z.to_nat (work r1)) ltac:(lia) r1 h1 (steps_sound _ _ _ _ Hr Hids1 Hrun1)) as (r'&h'&Hrun&?&?);
      [|done|exists r', h'; split; [by etransitivity|done]].
    intros j Hj. specialize (Hroom j Hj). specialize (Hg j Hj). lia.
  - exists r, h. split; [done|]. split; [intros j Hj; specialize (Hroom j Hj); lia|].
    intros i Hi. specialize (Hall i Hi). by destruct (mains r i).
Qed.

End Finish.

(** ** Properties *)
Section Properties.
Context {C S : Type} `{Chan : Channel C} `{!ChannelLaws C} `{Store : ReplicaStore S}.
Context (hash : bytes → Z) `{!ReplicaStoreLaws hash S}.
Context (rdtsc : Z → nat → Z) (cfg : Z → Config) (V0 : MapType).
Context (dataset : Z → bytes) (batch_size : Z → Z) (early : Z → nat → Z → bool).

Abbreviation batches := (trace_batches dataset batch_size early).

(** C5: a run can always be finished: from every state it reaches there is a
    continuation in which every main thread has passed the final barrier, and
    then every valid operation of every trace has been submitted and executed.
    No deadlock and no lost wake-up is possible, whatever the schedule was. *)
Theorem run_can_finish (r : Run C S) h (Hcfg : config_ok cfg)
    (Hr : main_reach hash rdtsc cfg batches V0 r h) (Hroom : room_left r h) :
  ∃ r' h', rtc (rstep hash rdtsc cfg) (r, h) (r', h') ∧ (∀ i, is_node i → mains r' i = MPassed) ∧
    ∀ i, is_node i →
      content hash <$> requests (h' i) = expected hash (cfg i) (parsed_requests (lines_of (dataset i))) ∧
      ∀ k m, h' i !! k = Some m → p_client_req_id (m_body m) ≠ 0 →
        seq_at i k < execute_next_ (nodes (cluster r') i).
Proof.
  pose proof (trace_batches_covered dataset batch_size early) as Hcov.
  assert (ids_fit h) as Hids by (intros i Hi; specialize (Hroom i Hi); pose proof (work_nonneg r); lia).
  pose proof (main_reach_inv hash rdtsc cfg Hcfg V0 batches Hcov r h Hr Hids) as Hinv.
  destruct (finish_run hash rdtsc cfg Hcfg V0 batches r h Hinv Hroom) as (r'&h'&Hrun&Hids'&Hpass).
  exists r', h'. split; [done|]. split; [done|]. intros i Hi. rewrite <- trace_batches_concat with (batch_size := batch_size) (early := early).
  by destruct (barrier_passed hash cfg V0 batches r' h' i i) as (?&?&_);
    [eapply steps_sound; [done..|exact Hrun]|done|by apply Hpass|done|].
Qed.

End Properties.

(** ** A run that has just begun *)
Module Examples.
Import Agreement.Schedule Agreement.Examples KVStore.Examples Lifecycle.Examples.

#[local] Existing Instance rep.
#[local] Existing Instance rep_laws.

(** Node 1 has submitted its trace, the others have not started. *)
Definition begun := outcome datasets (submission 1).

Lemma begun_reach : main_reach length_hash clock cfg (Lifecycle.trace_batches datasets (fun _ => 2) (fun _ _ _ => false))
  V0 begun.1 begun.2.
Proof. apply outcome_reach. by vm_compute. Qed.

Lemma room_check (r : State) h :
  forallb (fun i => Z.of_nat (length (h i)) <? 2 ^ 56 - 1 - 2 ^ 17 * (work r + 1)) [1; 2; 3] = true → room_left r h.
Proof.
  cbn [forallb]. intros H i Hi. unfold is_node in Hi.
  apply andb_prop in H as [H1 [H2 [H3 _]%andb_prop]%andb_prop].
  assert (i = 1 ∨ i = 2 ∨ i = 3) as [-> |[-> | ->]] by lia; by apply Z.ltb_lt.
Qed.

Example run_can_finish_witness :
  (mains begun.1 2 = MReplay (Lifecycle.trace_batches datasets (fun _ => 2) (fun _ _ _ => false) 2)) ∧
  ∃ r' h', rtc (rstep length_hash clock cfg) (begun.1, begun.2) (r', h') ∧
    (∀ i, is_node i → mains r' i = MPassed) ∧
    ∀ i, is_node i →
      content length_hash <$> requests (h' i) =
        expected length_hash (cfg i) (parsed_requests (lines_of (datasets i))) ∧
      ∀ k m, h' i !! k = Some m → p_client_req_id (m_body m) ≠ 0 →
        seq_at i k < execute_next_ (nodes (cluster r') i).
Proof.
  split; [by vm_compute|].
  apply (run_can_finish length_hash clock cfg V0 datasets (fun _ => 2) (fun _ _ _ => false) begun.1 begun.2);
    [apply cfg_ok|apply begun_reach|apply room_check; by vm_compute].
Defined.

End Examples.
