(* ===== verification/ConcRun.v ===== *)
(** A whole run on the shared memory: the main threads of [Lifecycle] over the
    machine of [ClusterConc], one memory access at a time.  Every run of it is
    a run over queues with the same main threads and flags
    ([conc_run_simulated]); from rest every step of a run over channels is a run
    of the machine ([realize_run_step]).  So whoever passes the final barrier
    knows that all traces are executed ([concurrent_traces_executed]), and every
    run can be finished ([concurrent_run_can_finish]).  As in [ClusterConc],
    payloads are kept coherent. *)
From stdpp Require Import functions relations.
From S2P Require Import Prelude Histogram KVStore Message Ring RingConc RingChannel Transport ConcChannel NodeState Bandle Execute Stats Replica Submit Cluster Agreement ClusterConc Flow Completion Progress ConcProgress Text Trace Lifecycle Finish.

(** ** Steps *)
Section Steps.
Context {S : Type} `{Store : ReplicaStore S}.
Context (coherent : bool).
Context (hash : bytes → Z) (rdtsc : Z → nat → Z) (cfg : Z → Config).
Context (traces : Z → list (list BorrowedRequest)).
Implicit Types (r : Run Machine S).

Inductive conc_run_step r : Issue → Run Machine S → Prop :=
| conc_run_main r' : main_step cfg r r' → conc_run_step r None r'
| conc_run_thread l f' :
    conc_step coherent hash rdtsc cfg (cluster r) l f' → background cfg r f' →
    conc_run_step r l (with_cluster r f').

Definition conc_run_initial (V0 : MapType) r : Prop :=
  conc_initial cfg V0 (cluster r) ∧ mains_initial traces r.

Inductive conc_main_reach (V0 : MapType) : Run Machine S → History → Prop :=
| conc_main_reach_init r : conc_run_initial V0 r → conc_main_reach V0 r (fun _ => [])
| conc_main_reach_step r h l r' : conc_main_reach V0 r h → conc_run_step r l r' → conc_main_reach V0 r' (issue l h).

(** A step with the history it leaves. *)
Definition conc_rstep (x y : Run Machine S * History) : Prop :=
  ∃ l, conc_run_step x.1 l y.1 ∧ y.2 = issue l x.2.

Lemma conc_steps_reach V0 x y : rtc conc_rstep x y → conc_main_reach V0 x.1 x.2 → conc_main_reach V0 y.1 y.2.
Proof.
  induction 1 as [|x y z [l [Hs Hl]] _ IH]; [done|]. intros Hr. apply IH. rewrite Hl. by eapply conc_main_reach_step.
Qed.

End Steps.

(** ** Runs that differ in their channels *)
Section Views.
Context {S : Type} `{Store : ReplicaStore S}.
Context (cfg : Z → Config).

Record same_view {C C'} (r : Run C S) (a : Run C' S) : Prop := {
  sv_nodes : nodes (cluster a) = nodes (cluster r);
  sv_threads : threads (cluster a) = threads (cluster r);
  sv_inbox : inbox (cluster a) = inbox (cluster r);
  sv_mains : mains a = mains r;
  sv_flags : node_finished a = node_finished r
}.

(** A main thread does the same over any channels, and leaves them alone; the
    thread it moves was idle. *)
Lemma main_step_view {C C'} (r r' : Run C S) (a : Run C' S) : same_view r a → main_step cfg r r' →
  ∃ a', main_step cfg a a' ∧ same_view r' a' ∧
    chans (cluster r') = chans (cluster r) ∧ chans (cluster a') = chans (cluster a) ∧
    ∀ i, threads (cluster r') i = threads (cluster r) i ∨ threads (cluster r) i = TIdle.
Proof.
  intros [Hn Ht Hi Hm Hf] Hstep.
  assert (∀ o s' t, threads (cluster r) o = TIdle → ∀ i,
    threads (set_node o s' t (cluster r)) i = threads (cluster r) i ∨ threads (cluster r) i = TIdle) as Hset.
  { intros o s' t Ho i. cbn. destruct (decide (o = i)) as [<-|]; [by right|left; by rewrite fn_lookup_insert_ne]. }
  destruct Hstep as [o reqs batches bufs ps s' Ho Hmo Hto Hb Hp|o Ho Hmo Hto|o Ho Hmo Hd|o Ho Hmo Hd].
  - eexists. split; [apply (main_submit cfg a o reqs batches bufs ps s'); (done || by rewrite ?Hm, ?Ht, ?Hn)|].
    split; [|split; [done|split; [done|by apply Hset]]]. by split; cbn; rewrite ?Hn, ?Ht, ?Hi, ?Hm, ?Hf.
  - eexists. split; [apply (main_input_done cfg a o); (done || by rewrite ?Hm, ?Ht)|].
    split; [|split; [done|split; [done|by apply Hset]]]. by split; cbn; rewrite ?Hn, ?Ht, ?Hi, ?Hm, ?Hf.
  - eexists. split; [apply (main_finish cfg a o); (done || by rewrite ?Hm, ?Hn)|].
    split; [|split; [done|split; [done|by left]]]. by split; cbn; rewrite ?Hn, ?Ht, ?Hi, ?Hm, ?Hf.
  - eexists. split; [apply (main_pass cfg a o); (done || by rewrite ?Hm, ?Hf)|].
    split; [|split; [done|split; [done|by left]]]. by split; cbn; rewrite ?Hn, ?Ht, ?Hi, ?Hm, ?Hf.
Qed.

Lemma background_view {C C'} (r : Run C S) (a : Run C' S) f' c' : same_view r a →
  nodes c' = nodes f' → threads c' = threads f' → background cfg r f' → background cfg a c'.
Proof.
  intros [Hn Ht _ _ Hf] Hn' Ht' [Hs Hin Hnoop]. unfold start_submit, start_noop in *.
  split; unfold start_submit, start_noop; by rewrite ?Hn', ?Ht', ?Hn, ?Ht, ?Hf.
Qed.

End Views.

(** ** The simulation *)
Section Simulation.
Context {S : Type} `{Store : ReplicaStore S}.
Context (hash : bytes → Z) (rdtsc : Z → nat → Z) (cfg : Z → Config) (V0 : MapType).
Context (traces : Z → list (list BorrowedRequest)).
Implicit Types (r : Run Machine S) (a : Run (list BandleMessage) S) (h : History).

Record run_simulates r a : Prop := {
  rs_view : same_view r a;
  rs_cluster : simulates (cluster r) (cluster a)
}.

Lemma main_simulated r r' a : run_simulates r a → main_step cfg r r' →
  ∃ a', main_step cfg a a' ∧ run_simulates r' a'.
Proof.
  intros [Hv [_ _ _ Hc Hr Hb]] Hstep.
  destruct (main_step_view cfg r r' a Hv Hstep) as (a'&Hs&Hv'&Hch&Hch'&Hidle). exists a'. split; [done|]. split; [done|].
  split; try apply Hv'; intros p; rewrite ?Hch, ?Hch'; [apply Hc|apply Hr|].
  unfold busy_ok. rewrite Hch. intros Hbusy. destruct (Hb p Hbusy) as (noop&to&chunks&Ht&Hin). exists noop, to, chunks.
  destruct (Hidle p.1) as [->|Hi]; [done|]. by rewrite Ht in Hi.
Qed.

Lemma conc_run_step_simulated r l r' a : run_simulates r a → conc_run_step true hash rdtsc cfg r l r' →
  ∃ a', (run_step hash rdtsc cfg a l a' ∨ l = None ∧ a' = a) ∧ run_simulates r' a'.
Proof.
  intros Hsim [r1 Hs|l' f' Hs Hbg].
  - destruct (main_simulated r r1 a Hsim Hs) as (a'&?&?). exists a'. split; [left; by apply run_main|done].
  - destruct Hsim as [Hv Hsim]. pose proof Hv as [_ _ _ Hm Hf].
    destruct (conc_step_simulated hash rdtsc cfg (cluster r) l' f' (cluster a) Hsim Hs) as (c'&Hc&Hsim').
    assert (run_simulates (with_cluster r f') (with_cluster a c')) as Hsim1.
    { split; [|done]. split; cbn; try done; apply Hsim'. }
    exists (with_cluster a c'). split; [|done]. destruct Hc as [Hc|[-> ->]]; [left|right; by destruct a].
    apply run_thread; [done|]. eapply (background_view cfg r a); [done|apply Hsim'..|done].
Qed.

Lemma conc_run_simulated r h : conc_main_reach true hash rdtsc cfg traces V0 r h →
  ∃ a, main_reach hash rdtsc cfg traces V0 a h ∧ run_simulates r a.
Proof.
  induction 1 as [r [Hf Hm]|r h l r' _ (a&Hr&Hsim) Hstep].
  - exists {| cluster := with_chans (λ _, []) (cluster r); mains := mains r; node_finished := node_finished r |}.
    split; [apply main_reach_init; split; [apply Hf|done]|]. split; [done|].
    by apply (initial_simulated cfg V0).
  - destruct (conc_run_step_simulated r l r' a Hsim Hstep) as (a'&[Hs|[-> ->]]&Hsim').
    + exists a'. split; [by eapply main_reach_step|done].
    + by exists a.
Qed.

End Simulation.

(** ** Going on *)
Section Progress.
Context {S : Type} `{Store : ReplicaStore S}.
Context (hash : bytes → Z) `{!ReplicaStoreLaws hash S}.
Context (rdtsc : Z → nat → Z) (cfg : Z → Config) (Hcfg : config_ok cfg) (V0 : MapType).
Context (traces : Z → list (list BorrowedRequest)).
Context (Hcovered : ∀ i, Forall (Forall covered) (traces i)).
Implicit Types (r a : Run Machine S) (h : History).

Abbreviation reaches := (conc_main_reach true hash rdtsc cfg traces V0).
Abbreviation rsteps := (rtc (conc_rstep true hash rdtsc cfg)).

(** The invariant of a run speaks of its channels only in [sound]. *)
Lemma run_inv_view {C C'} `{Channel C} `{Channel C'} (r : Run C S) (a : Run C' S) h : same_view r a →
  run_inv hash cfg V0 traces a h → (∃ n, cluster_inv hash cfg V0 (cluster r) h n) → run_inv hash cfg V0 traces r h.
Proof.
  intros [Hn Ht _ Hm Hf] [[_ Hreq] Hmain Htrace] Hc. split.
  - split; [done|]. split; rewrite <- ?Hn, <- ?Ht; apply Hreq.
  - intros i Hi. specialize (Hmain i Hi). unfold main_ok, own_executed_all in *. by rewrite Hm, Ht, Hn, Hf in Hmain.
  - intros i Hi. specialize (Htrace i Hi). unfold trace_ok in *. by rewrite Hm, Ht in Htrace.
Qed.

(** The run over queues it is. *)
Lemma run_abstraction r h : reaches r h → ids_fit h → ∃ a : Run (list BandleMessage) S,
  run_simulates r a ∧ run_inv hash cfg V0 traces a h ∧ main_reach hash rdtsc cfg traces V0 a h.
Proof.
  intros Hr Hids. destruct (conc_run_simulated hash rdtsc cfg V0 traces r h Hr) as (a&Ha&Hsim). exists a.
  split; [done|]. split; [|done]. by apply (main_reach_inv hash rdtsc cfg Hcfg).
Qed.

(** The cluster of a run is a cluster the machine reaches. *)
Lemma main_step_reach r r' h : reaches r h → ids_fit h → conc_reach true hash rdtsc cfg V0 (cluster r) h →
  main_step cfg r r' → conc_reach true hash rdtsc cfg V0 (cluster r') h.
Proof.
  intros Hr Hids Hc Hs. destruct (run_abstraction r h Hr Hids) as (a&[[Hna _ _ Hma _] _]&Hinv&_).
  assert (∀ f', (∀ q : Z * Z → list BandleMessage, step hash rdtsc cfg (with_chans q (cluster r)) None (with_chans q f')) →
    chans f' = chans (cluster r) → conc_reach true hash rdtsc cfg V0 f' h) as Hlocal.
  { intros f' Hl Hch. change h with (issue None h). eapply conc_reach_step; [exact Hc|]. by apply conc_local. }
  destruct Hs as [o reqs batches bufs ps s' Ho Hm Ht Hb Hp|o Ho Hm Ht|o Ho Hm Hd|o Ho Hm Hd]; [| |done|done].
  - pose proof (rn_main _ _ _ _ _ _ Hinv o Ho) as Hok. unfold main_ok in Hok. rewrite Hma, Hm in Hok.
    destruct Hok as (Hin&_&_&[Hreqs _]%Forall_cons). apply Hlocal; [|done]. intros q.
    apply (step_submit hash rdtsc cfg (with_chans q (cluster r)) o reqs bufs); try done.
    + cbn. by rewrite <- Hna.
    + by apply covered_lengths.
  - apply Hlocal; [|done]. intros q. by apply (step_input_done hash rdtsc cfg (with_chans q (cluster r))).
Qed.

Lemma run_cluster r h : reaches r h → ids_fit h → conc_reach true hash rdtsc cfg V0 (cluster r) h.
Proof.
  induction 1 as [r [Hf _]|r h l r' Hr IH Hs]; intros Hids; [by apply conc_reach_init|].
  pose proof (ids_fit_issue _ _ Hids) as Hids0. destruct Hs as [r1 Hs|l f' Hs _].
  - by apply (main_step_reach r); [| |apply IH|].
  - eapply conc_reach_step; [by apply IH|done].
Qed.

(** *** Accesses *)
Lemma access_calm (f f' : Shared S) : access true cfg f f' → calm f f'.
Proof.
  intros [i noop msgs to chunks peer m Hi Ht Hin Hm|i peer a m Ha Hm|i noop msgs peer to chunks m Hi Ht Hm|p a m Hm
    |i j m Hi Hj Hij Hin Hm|i j a m Ha Hm|i j t count got m Hi Hj Hij Hin Hc Hm]; try (by intros k Hk).
  apply calm_thread; rewrite Ht; [done|]. cbn. lia.
Qed.

Lemma accesses_calm (f f' : Shared S) : rtc (access true cfg) f f' → calm f f'.
Proof. induction 1 as [|f f1 f' Hs _ IH]; [done|]. transitivity f1; [by apply access_calm|done]. Qed.

Lemma accesses_run r f' h : rtc (access true cfg) (cluster r) f' → rsteps (r, h) (with_cluster r f', h).
Proof.
  intros Hrun. remember (cluster r) as f eqn:Hf. revert r Hf.
  induction Hrun as [f|f f1 f' Hs _ IH]; intros r ->; [by destruct r|].
  eapply rtc_l; [|by apply (IH (with_cluster r f1))]. exists None. split; [|done].
  apply conc_run_thread; [by apply conc_access|]. by apply calm_background, access_calm.
Qed.

(** *** From rest *)

(** The same state, ring by ring, with the same main threads. *)
Definition same_run r a : Prop := same (cluster r) (cluster a) ∧ same_view r a.

Lemma same_run_view r a f' c' : same_run r a → same f' c' → same_run (with_cluster r f') (with_cluster a c').
Proof. intros [_ [_ _ _ ? ?]] Hs. split; [done|]. by split; cbn; try (symmetry; apply Hs). Qed.

Lemma realize_run_step r a h n l a' : same_run r a → cluster_inv hash cfg V0 (cluster a) h n →
  run_step hash rdtsc cfg a l a' → ∃ r', rsteps (r, h) (r', issue l h) ∧ same_run r' a'.
Proof.
  intros [Hsame Hv] Hc Hs. assert (same_view a r) as Hv' by (destruct Hv; by split).
  destruct Hs as [a' Hs|l c' Hs Hbg].
  - destruct (main_step_view cfg a a' r Hv' Hs) as (r'&Hs'&Hv1&Hch&Hch'&_). exists r'.
    split; [apply rtc_once; exists None; split; [by apply conc_run_main|done]|].
    split; [|destruct Hv1; by split]. split; try apply Hv1. intros p. rewrite Hch, Hch'. apply Hsame.
  - destruct (realize hash rdtsc cfg V0 (cluster r) (cluster a) h n l c' Hsame Hc Hs) as (f'&Hf'&Hsame').
    exists (with_cluster r f'). split; [|by apply same_run_view].
    destruct Hf' as [Hf'|[-> Hf']]; [|by apply accesses_run].
    apply rtc_once. exists l. split; [|done]. apply conc_run_thread; [done|].
    by apply (background_view cfg a r c' f'); [done|apply Hsame'..|].
Qed.

Lemma realize_rsteps x y r : rtc (rstep hash rdtsc cfg) x y → same_run r x.1 →
  run_inv hash cfg V0 traces x.1 x.2 → ids_fit y.2 → ∃ r', rsteps (r, x.2) (r', y.2) ∧ same_run r' y.1.
Proof.
  intros Hrun. revert r. induction Hrun as [x|x x1 y [l [Hs Hl]] Hrun IH]; intros r Hsame Hinv Hids; [by exists r|].
  destruct (so_cluster _ _ _ _ _ (rn_sound _ _ _ _ _ _ Hinv)) as [n Hc].
  destruct (realize_run_step r x.1 x.2 n l x1.1 Hsame Hc Hs) as (r1&Hr1&Hsame1). rewrite <- Hl in Hr1.
  destruct (IH r1 Hsame1) as (r'&Hr'&Hsame'); [|done|exists r'; split; [by etransitivity|done]].
  apply (run_sound hash rdtsc cfg Hcfg V0 traces x x1); [by apply rtc_once; exists l| |done].
  eapply ids_prefix, Hids. intros i. by eapply steps_prefix.
Qed.

(** Bringing the rings to rest leaves the main threads where they are. *)
Lemma settle_run r h : reaches r h → ids_fit h → ∃ f', rtc (access true cfg) (cluster r) f' ∧
  run_inv hash cfg V0 traces (with_cluster r f') h.
Proof.
  intros Hr Hids. pose proof (ids_no_overflow _ Hids) as Hno.
  destruct (settle_cluster hash rdtsc cfg Hcfg V0 (cluster r) h (run_cluster r h Hr Hids) Hno) as (f'&Hrun&_&Hrest).
  exists f'. split; [done|]. set (r1 := with_cluster r f').
  pose proof (conc_steps_reach true hash rdtsc cfg traces V0 (r, h) (r1, h) (accesses_run r f' h Hrun) Hr) as Hr1. cbn in Hr1.
  destruct (run_abstraction r1 h Hr1 Hids) as (a&[Hv Hsim]&Hinv&_).
  eapply run_inv_view; [done..|]. destruct (rn_sound _ _ _ _ _ _ Hinv) as [[n Hc] _]. exists n.
  by eapply rest_inv.
Qed.

Lemma conc_finish r h : reaches r h → room_left r h → ∃ r' h', rsteps (r, h) (r', h') ∧ ids_fit h' ∧
  ∀ i, is_node i → mains r' i = MPassed.
Proof.
  intros Hr Hroom.
  assert (ids_fit h) as Hids by (intros i Hi; specialize (Hroom i Hi); pose proof (work_nonneg r); lia).
  destruct (settle_run r h Hr Hids) as (f'&Hrun&Hinv). set (r1 := with_cluster r f') in *.
  assert (work r1 ≤ work r) as Hw by by apply calm_work, accesses_calm.
  destruct (finish_run hash rdtsc cfg Hcfg V0 traces r1 h Hinv) as (a&h'&Hruna&Hids'&Hpass).
  { intros i Hi. specialize (Hroom i Hi). lia. }
  destruct (realize_rsteps (r1, h) (a, h') r1 Hruna) as (r'&Hrun'&[_ Hv]); [by split; split|done|done|].
  exists r', h'. split; [etransitivity; [by apply accesses_run|done]|]. split; [done|].
  intros i Hi. rewrite <- (sv_mains _ _ Hv). by apply Hpass.
Qed.

End Progress.

(** ** Properties *)
Section Properties.
Context {S : Type} `{Store : ReplicaStore S}.
Context (hash : bytes → Z) `{!ReplicaStoreLaws hash S}.
Context (rdtsc : Z → nat → Z) (cfg : Z → Config) (V0 : MapType).
Context (dataset : Z → bytes) (batch_size : Z → Z) (early : Z → nat → Z → bool).
Implicit Types (r : Run Machine S) (h : History).

Abbreviation batches := (trace_batches dataset batch_size early).

(** The invariant of the run a machine's run amounts to. *)
Lemma conc_barrier r h i j : config_ok cfg → conc_main_reach true hash rdtsc cfg batches V0 r h → ids_fit h →
  is_node j → mains r j = MPassed → is_node i →
  content hash <$> requests (h i) = expected hash (cfg i) (parsed_requests (lines_of (dataset i))) ∧
  ∀ k m, h i !! k = Some m → p_client_req_id (m_body m) ≠ 0 → seq_at i k < execute_next_ (nodes (cluster r) i).
Proof.
  intros Hcfg Hr Hids Hj Hpass Hi. pose proof (trace_batches_covered dataset batch_size early) as Hcov.
  destruct (run_abstraction hash rdtsc cfg Hcfg V0 batches Hcov r h Hr Hids) as (a&[[Hn _ _ Hm _] _]&Hinv&_).
  rewrite <- Hn, <- trace_batches_concat with (batch_size := batch_size) (early := early).
  by destruct (barrier_passed hash cfg V0 batches a h i j Hinv Hj) as (?&?&_); [by rewrite Hm|..].
Qed.

(** C9: when one node has passed the final barrier, the whole experiment is
    done, on the shared memory with payloads kept coherent, access by access:
    every valid operation of every node's trace has been submitted, once and in
    trace order, and every one of them has been executed by the node that
    submitted it. *)
Theorem concurrent_traces_executed coherent r h i j (Hcoherent : coherent = true) (Hcfg : config_ok cfg)
    (Hr : conc_main_reach coherent hash rdtsc cfg batches V0 r h) (Hids : ids_fit h)
    (Hj : is_node j) (Hpass : mains r j = MPassed) (Hi : is_node i) :
  content hash <$> requests (h i) = expected hash (cfg i) (parsed_requests (lines_of (dataset i))) ∧
  ∀ k m, h i !! k = Some m → p_client_req_id (m_body m) ≠ 0 → seq_at i k < execute_next_ (nodes (cluster r) i).
Proof. subst coherent. by apply (conc_barrier r h i j). Qed.

(** C4: a run on the shared memory, with payloads kept coherent, can always be
    finished: whatever the main threads, the proposer threads, the store buffers
    and the caches are in the middle of, there is a continuation, one access at a
    time, in which every main thread passes the final barrier, and then every
    valid operation of every trace has been submitted and executed. *)
Theorem concurrent_run_can_finish coherent r h (Hcoherent : coherent = true) (Hcfg : config_ok cfg)
    (Hr : conc_main_reach coherent hash rdtsc cfg batches V0 r h) (Hroom : room_left r h) :
  ∃ r' h', rtc (conc_rstep coherent hash rdtsc cfg) (r, h) (r', h') ∧ (∀ i, is_node i → mains r' i = MPassed) ∧
    ∀ i, is_node i →
      content hash <$> requests (h' i) = expected hash (cfg i) (parsed_requests (lines_of (dataset i))) ∧
      ∀ k m, h' i !! k = Some m → p_client_req_id (m_body m) ≠ 0 →
        seq_at i k < execute_next_ (nodes (cluster r') i).
Proof.
  subst coherent.
  destruct (conc_finish hash rdtsc cfg Hcfg V0 batches (trace_batches_covered dataset batch_size early) r h Hr Hroom)
    as (r'&h'&Hrun&Hids&Hpass).
  exists r', h'. split; [done|]. split; [done|]. intros i Hi.
  apply (conc_barrier r' h' i i Hcfg); [|done|done|by apply Hpass|done].
  exact (conc_steps_reach true hash rdtsc cfg batches V0 (r, h) (r', h') Hrun Hr).
Qed.

End Properties.

(** ** Executable runs *)
Module ConcRunSchedule.
Import Agreement.Schedule Agreement.Examples KVStore.Examples Lifecycle.Examples ClusterConc.Examples.

#[local] Existing Instance rep.
#[local] Existing Instance rep_laws.

Abbreviation SharedRun := (Run Machine KVStore).

(** A main thread, or one move of the machine. *)
Inductive Access := ByMain (i : Z) | ByMachine (a : ConcSchedule.Move).

Definition access_move (m : Access) (r : SharedRun) : option (Issue * SharedRun) :=
  match m with
  | ByMain i => if decide (is_node i) then (λ r', (None, r')) <$> main_move i r else None
  | ByMachine a =>
      '(l, f') ← ConcSchedule.move true length_hash clock cfg a (cluster r);
      if forallb (quiet_main r f') [1; 2; 3] then Some (l, with_cluster r f') else None
  end.

Lemma access_move_step m r l r' : access_move m r = Some (l, r') → conc_run_step true length_hash clock cfg r l r'.
Proof.
  destruct m as [i|a]; cbn [access_move].
  - case_decide; [|done]. intros (r1&Hm&[= -> ->])%fmap_Some. by apply conc_run_main, main_move_step with i.
  - intros ([l1 f']&Ha&Hq)%bind_Some. destruct (forallb _ _) eqn:Hall; [|done]. injection Hq as <- <-.
    apply conc_run_thread; [by eapply ConcSchedule.conc_move_step|by apply quiet_background].
Qed.

Fixpoint access_moves (ms : list Access) (r : SharedRun) (h : History) : option (SharedRun * History) :=
  match ms with
  | [] => Some (r, h)
  | m :: ms => '(l, r') ← access_move m r; access_moves ms r' (issue l h)
  end.

(** The accesses behind a step of the cluster, in parts that depend on the
    state they start from: a send is begun, written, published and flushed; a
    drain reads what it has loaded. *)
Definition next_peer (f : Shared KVStore) (i : Z) : Z :=
  match threads f i with TSend _ _ (peer :: _) _ => peer | _ => 0 end.

Definition parts_of (m : Lifecycle.Examples.Move) : list (Shared KVStore → list Access) :=
  match m with
  | Main i => [λ _, [ByMain i]]
  | Thread (Send i) =>
      [λ f, [ByMachine (ConcSchedule.Begin i (next_peer f i))];
       λ f, ByMachine <$> writing (i, next_peer f i) f;
       λ f, [ByMachine (ConcSchedule.Publish i (next_peer f i))]]
  | Thread (Drain i j) =>
      [λ f, ByMachine <$> flushing (i, j) f; λ _, [ByMachine (ConcSchedule.Load i j)];
       λ f, ByMachine <$> reading (i, j) f; λ _, [ByMachine (ConcSchedule.Commit i j)]]
  | Thread a => [λ _, [ByMachine (ConcSchedule.Local a)]]
  end.

Fixpoint play (parts : list (Shared KVStore → list Access)) (r : SharedRun) (h : History)
    : option (SharedRun * History) :=
  match parts with
  | [] => Some (r, h)
  | part :: parts => '(r', h') ← access_moves (part (cluster r)) r h; play parts r' h'
  end.

Section Traces.
Context (datasets : Z → bytes).
Abbreviation batches := (trace_batches datasets (fun _ => 2) (fun _ _ _ => false)).

Definition s0 : SharedRun := {| cluster := f0; mains i := MReplay (batches i); node_finished _ := 0 |}.

Definition plays (parts : list (Shared KVStore → list Access)) : bool :=
  match play parts s0 (fun _ => []) with Some _ => true | None => false end.
Definition played (parts : list (Shared KVStore → list Access)) : SharedRun * History :=
  default (s0, fun _ => []) (play parts s0 (fun _ => [])).

Lemma access_moves_reach ms r h r' h' : conc_main_reach true length_hash clock cfg batches V0 r h →
  access_moves ms r h = Some (r', h') → conc_main_reach true length_hash clock cfg batches V0 r' h'.
Proof.
  revert r h. induction ms as [|m ms IH]; intros r h Hr Hm; cbn in Hm; [by simplify_eq|].
  apply bind_Some in Hm as ([l r1]&Hs&Hm). eapply IH; [|exact Hm].
  eapply conc_main_reach_step; [done|]. by eapply access_move_step.
Qed.

Lemma play_reach parts r h r' h' : conc_main_reach true length_hash clock cfg batches V0 r h →
  play parts r h = Some (r', h') → conc_main_reach true length_hash clock cfg batches V0 r' h'.
Proof.
  revert r h. induction parts as [|part parts IH]; intros r h Hr Hp; cbn in Hp; [by simplify_eq|].
  apply bind_Some in Hp as ([r1 h1]&Hm&Hp). eapply IH; [|exact Hp]. by eapply access_moves_reach.
Qed.

Lemma played_reach parts : plays parts = true →
  conc_main_reach true length_hash clock cfg batches V0 (played parts).1 (played parts).2.
Proof.
  unfold plays, played. destruct (play _ _ _) as [[r h]|] eqn:Hp; [|done]. intros _.
  eapply play_reach; [|exact Hp]. apply conc_main_reach_init. split; [apply f0_initial|].
  intros i _. split; reflexivity.
Qed.

End Traces.
End ConcRunSchedule.

(** ** Concrete runs *)
Module Examples.
Import Agreement.Schedule Agreement.Examples KVStore.Examples ClusterConc.Examples Lifecycle.Examples ConcRunSchedule.

#[local] Existing Instance rep.
#[local] Existing Instance rep_laws.

Definition accesses : list (Shared KVStore → list Access) := experiment ≫= parts_of.
Abbreviation final := (played datasets accesses).

Lemma final_run_reached : conc_main_reach true length_hash clock cfg
  (trace_batches datasets (fun _ => 2) (fun _ _ _ => false)) V0 final.1 final.2.
Proof. apply played_reach. by vm_compute. Qed.

Example concurrent_traces_executed_witness :
  content length_hash <$> requests (final.2 1) =
    expected length_hash (cfg 1) (parsed_requests [str "0,P k:one"; str "5,D k"]) ∧
  ∀ k m, final.2 1 !! k = Some m → p_client_req_id (m_body m) ≠ 0 →
    seq_at 1 k < execute_next_ (nodes (cluster final.1) 1).
Proof.
  apply (concurrent_traces_executed length_hash clock cfg V0 datasets (fun _ => 2) (fun _ _ _ => false) true
    final.1 final.2 1 2);
    [done|apply cfg_ok|apply final_run_reached|apply Completion.Examples.ids_fit_check; by vm_compute|by vm_compute..].
Defined.

(** Node 1 has submitted its trace and is writing its batch to both rings; the
    others have not started. *)
Definition half_written : SharedRun * History :=
  played datasets [λ _, ByMain 1 :: (ByMachine <$> [ConcSchedule.Local (Admit 1); ConcSchedule.Begin 1 2;
    ConcSchedule.Begin 1 3]); λ f, ByMachine <$> take 3 (writing (1, 3) f)].

Lemma half_written_reached : conc_main_reach true length_hash clock cfg
  (trace_batches datasets (fun _ => 2) (fun _ _ _ => false)) V0 half_written.1 half_written.2.
Proof. apply played_reach. by vm_compute. Qed.

Example concurrent_run_can_finish_witness :
  producer (chans (cluster half_written.1) (1, 3)) ≠ PIdle ∧
  execute_next_ (nodes (cluster half_written.1) 1) = 1 ∧
  ∃ r' h', rtc (conc_rstep true length_hash clock cfg) (half_written.1, half_written.2) (r', h') ∧
    (∀ i, is_node i → mains r' i = MPassed) ∧
    ∀ i, is_node i →
      content length_hash <$> requests (h' i) =
        expected length_hash (cfg i) (parsed_requests (lines_of (datasets i))) ∧
      ∀ k m, h' i !! k = Some m → p_client_req_id (m_body m) ≠ 0 →
        seq_at i k < execute_next_ (nodes (cluster r') i).
Proof.
  split; [by vm_compute|]. split; [by vm_compute|].
  apply (concurrent_run_can_finish length_hash clock cfg V0 datasets (fun _ => 2) (fun _ _ _ => false) true); [done|..].
  - apply cfg_ok.
  - apply half_written_reached.
  - intros i Hi. assert (i = 1 ∨ i = 2 ∨ i = 3) as [-> |[-> | ->]] by (unfold is_node in Hi; lia); by vm_compute.
Defined.

End Examples.
