(* ===== verification/Driver.v ===== *)
(** The driver around the replay, [main] of [src/main.cpp]: the command line,
    the checks before the replica is built, the preload, the threads [start]
    creates, and the file written at the end.  [command_line_meaning]: the
    options may come in any order.  [driver_establishes_run]: three drivers with
    bounded windows and the same preload bring the cluster to the state from
    which the theorems of [Lifecycle] and [Agreement] reason.
    [one_reader_per_ring]: [start] gives every incoming ring exactly one reading
    thread, as a single-consumer ring requires.

    [std::stoul] is [std::stoull] where [unsigned long] has 64 bits. *)
From stdpp Require Import functions.
From S2P Require Import Prelude Histogram KVStore Message Ring Transport NodeState Bandle Execute Replica Submit Cluster Text Trace StatsFile Report Agreement Completion Lifecycle.

(** ** The command line *)

(** The variables of [main] the options set. *)
Record Options := {
  dax_path : bytes;
  node_id : Z;
  dataset_path : bytes;
  preload_file : bytes;
  start_signal : bytes;
  ready_file : bytes;
  stats_out : bytes;
  preload_count : Z;
  recordcount : Z;
  cluster_size : Z;
  run_id : Z;
  poll_idle_us : Z;
  noop_us : Z;
  batch_size : Z;
  pipeline_workers : Z;
  admission_window : Z;
  admission_batch : Z
}.

Definition options_eta (o : Options) : Options :=
  Build_Options (dax_path o) (node_id o) (dataset_path o) (preload_file o) (start_signal o) (ready_file o)
    (stats_out o) (preload_count o) (recordcount o) (cluster_size o) (run_id o) (poll_idle_us o) (noop_us o)
    (batch_size o) (pipeline_workers o) (admission_window o) (admission_batch o).
#[export] Instance set_dataset_path : Setter dataset_path := ltac:(solve_setter dataset_path options_eta).
#[export] Instance set_preload_file : Setter preload_file := ltac:(solve_setter preload_file options_eta).
#[export] Instance set_start_signal : Setter start_signal := ltac:(solve_setter start_signal options_eta).
#[export] Instance set_ready_file : Setter ready_file := ltac:(solve_setter ready_file options_eta).
#[export] Instance set_stats_out : Setter stats_out := ltac:(solve_setter stats_out options_eta).
#[export] Instance set_preload_count : Setter preload_count := ltac:(solve_setter preload_count options_eta).
#[export] Instance set_recordcount : Setter recordcount := ltac:(solve_setter recordcount options_eta).
#[export] Instance set_cluster_size : Setter cluster_size := ltac:(solve_setter cluster_size options_eta).
#[export] Instance set_run_id : Setter run_id := ltac:(solve_setter run_id options_eta).
#[export] Instance set_poll_idle_us : Setter poll_idle_us := ltac:(solve_setter poll_idle_us options_eta).
#[export] Instance set_noop_us : Setter noop_us := ltac:(solve_setter noop_us options_eta).
#[export] Instance set_batch_size : Setter batch_size := ltac:(solve_setter batch_size options_eta).
#[export] Instance set_pipeline_workers : Setter pipeline_workers := ltac:(solve_setter pipeline_workers options_eta).
#[export] Instance set_admission_window : Setter admission_window := ltac:(solve_setter admission_window options_eta).
#[export] Instance set_admission_batch : Setter admission_batch := ltac:(solve_setter admission_batch options_eta).

(** The initial values of the variables. *)
Definition default_options (dax_path : bytes) (node_id : Z) : Options := {|
  dax_path := dax_path; node_id := node_id; dataset_path := []; preload_file := []; start_signal := [];
  ready_file := []; stats_out := []; preload_count := 0; recordcount := 0; cluster_size := 3; run_id := 0;
  poll_idle_us := 0; noop_us := 100; batch_size := 64; pipeline_workers := 1; admission_window := 192;
  admission_batch := 32 |}.

(** A conversion; [None] is its exception, and what follows the number is
    ignored. *)
Definition number (text : bytes) : option Z := fst <$> stoull text.

(** The option [arg] with its value: [None] when [arg] is no option, and inside
    it [None] when the conversion throws. *)
Definition set_option (arg value : bytes) (o : Options) : option (option Options) :=
  if decide (arg = str "--dataset") then Some (Some (o <| dataset_path := value |>))
  else if decide (arg = str "--preload-file") then Some (Some (o <| preload_file := value |>))
  else if decide (arg = str "--preload-count") then Some ((λ n, o <| preload_count := n |>) <$> number value)
  else if decide (arg = str "--recordcount") then Some ((λ n, o <| recordcount := n |>) <$> number value)
  else if decide (arg = str "--cluster-size") then Some ((λ n, o <| cluster_size := n |>) <$> number value)
  else if decide (arg = str "--run-id") then Some (Some (o <| run_id := parse_run_token value |>))
  else if decide (arg = str "--start-signal") then Some (Some (o <| start_signal := value |>))
  else if decide (arg = str "--ready-file") then Some (Some (o <| ready_file := value |>))
  else if decide (arg = str "--poll-idle-us") then
    Some ((λ n, o <| poll_idle_us := n |>) <$> (fst <$> stoi value))
  else if decide (arg = str "--noop-us") then Some ((λ n, o <| noop_us := n |>) <$> number value)
  else if decide (arg = str "--batch-size") then Some ((λ n, o <| batch_size := w32 n |>) <$> number value)
  else if decide (arg = str "--pipeline-workers") then
    Some ((λ n, o <| pipeline_workers := n |>) <$> number value)
  else if decide (arg = str "--admission-window") then
    Some ((λ n, o <| admission_window := n |>) <$> number value)
  else if decide (arg = str "--admission-batch") then
    Some ((λ n, o <| admission_batch := w32 n |>) <$> number value)
  else if decide (arg = str "--stats-out") then Some (Some (o <| stats_out := value |>))
  else None.

(** The loop over the arguments: an unknown one is skipped, and so is an option
    without a value after it. *)
Fixpoint parse_options (args : list bytes) (o : Options) : option Options :=
  match args with
  | arg :: ((value :: rest) as args') =>
      match set_option arg value o with
      | Some set => match set with Some o => parse_options rest o | None => None end
      | None => parse_options args' o
      end
  | _ => Some o
  end.

(** How a process goes on: it returns a code from [main], dies of an exception
    or of [abort], or runs. *)
Inductive Outcome (A : Type) :=
| Exits (code : Z)
| Throws
| Aborts
| Runs (a : A).

Arguments Exits {A} code.
Arguments Throws {A}.
Arguments Aborts {A}.
Arguments Runs {A} a.

(** The arguments after the program's name. *)
Definition parse_args (argv : list bytes) : Outcome Options :=
  match argv with
  | dax :: id :: port :: args =>
      match number id, number port with
      | Some id, Some _ =>
          match parse_options args (default_options dax id) with
          | Some o => if decide (dataset_path o = []) then Exits 1 else Runs o
          | None => Throws
          end
      | _, _ => Throws
      end
  | _ => Exits 1
  end.

(** ** From the command line to the replay *)

(** What [main] holds when the replay loop begins. *)
Record Replay (S : Type) := {
  options : Options;
  config : Config;
  replica : Node S;
  dataset : bytes
}.

Arguments options {S} _.
Arguments config {S} _.
Arguments replica {S} _.
Arguments dataset {S} _.

Definition config_of (o : Options) : option Config :=
  make_config (node_id o) (cluster_size o) (noop_us o) (batch_size o) (admission_window o) (admission_batch o).

Definition preload_path (o : Options) : bytes :=
  if decide (preload_file o = []) then dataset_path o else preload_file o.

Section Driver.
Context {S : Type} `{Store : ReplicaStore S}.
(** The readable files, and the devices that can be opened and mapped. *)
Context (files : bytes → option bytes) (device : bytes → bool).

(** [kv] is the empty store of the new replica, [now] the clock read by
    [start].  [reserve_kv_entries] is left out: it sizes the bucket arrays and
    changes no element ([KVStore.reserve_keys]); what happens to the shared
    memory in between is in [Startup]. *)
Definition prepare_replay (argv : list bytes) (kv : S) (now : Z) : Outcome (Replay S) :=
  match parse_args argv with
  | Runs o =>
      if negb (device (dax_path o)) then Exits 1
      else match config_of o with
      | None => Aborts
      | Some cfg =>
          let s := preload (preload_count o) (default [] (files (preload_path o))) (new_node cfg kv) in
          match files (dataset_path o) with
          | None | Some [] => Exits 1
          | Some data => Runs {| options := o; config := cfg; replica := start_node now s; dataset := data |}
          end
      end
  | Exits code => Exits code
  | Throws => Throws
  | Aborts => Aborts
  end.

(** The batches of the replay loop. *)
Definition replay_batches (early : nat → Z → bool) (r : Replay S) : list (list BorrowedRequest) :=
  replay_trace (batch_size (options r)) early (dataset r).

(** The file written at the end of a run that leaves the replica in state
    [s]. *)
Definition stats_file (o : Options) (t : RunTimes) (s : Node S) : option (bytes * bytes) :=
  if decide (stats_out o = []) then None
  else Some (stats_out o, write_stats_csv (node_id o) t (stats s)).

End Driver.

(** [now_ns]: the raw monotonic clock in nanoseconds. *)
Definition now_ns (tv_sec tv_nsec : Z) : Z := (tv_sec *₆₄ 1000000000) +₆₄ tv_nsec.

(** It does not wrap around in the first 500 years, and is in order. *)
Lemma now_ns_exact sec nsec : 0 ≤ sec < 2 ^ 34 → 0 ≤ nsec < 1000000000 → now_ns sec nsec = sec * 1000000000 + nsec.
Proof.
  intros Hs Hn. unfold now_ns. rewrite w64_add_l. apply w64_small. unfold is_u64. lia.
Qed.

Lemma now_ns_mono sec nsec sec' nsec' : 0 ≤ sec ≤ sec' → sec' < 2 ^ 34 → 0 ≤ nsec < 1000000000 →
  0 ≤ nsec' < 1000000000 → (sec < sec' ∨ nsec ≤ nsec') → now_ns sec nsec ≤ now_ns sec' nsec'.
Proof. intros. rewrite !now_ns_exact by lia. lia. Qed.

(** [calibrate_tsc_hz] on its four readings, the clock in nanoseconds and the
    time-stamp counter before and after its sleep; [None] where the conversion
    is undefined. *)
Definition calibrate_tsc_hz (t0 c0 t1 c1 : Z) : option Z :=
  if (t1 <=? t0) || (c1 <=? c0) then Some 0
  else u64_of_double (ld_div (ld_mul (ld_of_u64 (c1 -₆₄ c0)) (ld_of_u64 1000000000)) (ld_of_u64 (t1 -₆₄ t0))).

(** ** Threads *)

(** A thread of [Bandle] with the processor it is pinned to (none below 0). *)
Inductive Worker :=
| RecvLoop (cpu : Z)
| RecvSourceLoop (src cpu : Z)
| ProposerLoop (cpu : Z).

#[export] Instance Worker_eq_dec : EqDecision Worker.
Proof. solve_decision. Defined.

(** [running_], [recv_threads_] and [proposer_thread_]. *)
Record Threads := {
  running_ : bool;
  recv_threads_ : list Worker;
  proposer_thread_ : option Worker
}.

Definition no_threads : Threads := {| running_ := false; recv_threads_ := []; proposer_thread_ := None |}.

(** The loop over [src], the [idx]-th thread being the next. *)
Fixpoint source_workers (recv_cpu idx : Z) (srcs : list Z) : list Worker :=
  match srcs with
  | [] => []
  | src :: srcs =>
      RecvSourceLoop src (if recv_cpu >=? 0 then recv_cpu + idx else recv_cpu) ::
        source_workers recv_cpu (idx + 1) srcs
  end.

(** [start]; the constructor replaces no pipeline workers by one. *)
Definition start (cfg : Config) (pipeline_workers recv_cpu proposer_cpu : Z) (t : Threads) : Threads :=
  if running_ t then t
  else {|
    running_ := true;
    recv_threads_ :=
      if (if pipeline_workers =? 0 then 1 else pipeline_workers) <=? 1 then [RecvLoop recv_cpu]
      else source_workers recv_cpu 0 (peers (node_id_ cfg) (cluster_size_ cfg));
    proposer_thread_ := Some (ProposerLoop proposer_cpu) |}.

(** [stop], after which every thread has been joined. *)
Definition stop (t : Threads) : Threads := if running_ t then no_threads else t.

(** The rings a thread reads: those from these nodes. *)
Definition reads_from (cfg : Config) (w : Worker) : list Z :=
  match w with
  | RecvLoop _ => peers (node_id_ cfg) (cluster_size_ cfg)
  | RecvSourceLoop src _ => [src]
  | ProposerLoop _ => []
  end.

(** ** Lemmas *)

(** The option [name] given on the command line? *)
Abbreviation given names name := (decide (str name ∈ names)).

(** The options [o] where they are given, and [d] otherwise. *)
Definition chosen (names : list bytes) (o d : Options) : Options := {|
  dax_path := dax_path d;
  node_id := node_id d;
  dataset_path := if given names "--dataset" then dataset_path o else dataset_path d;
  preload_file := if given names "--preload-file" then preload_file o else preload_file d;
  start_signal := if given names "--start-signal" then start_signal o else start_signal d;
  ready_file := if given names "--ready-file" then ready_file o else ready_file d;
  stats_out := if given names "--stats-out" then stats_out o else stats_out d;
  preload_count := if given names "--preload-count" then preload_count o else preload_count d;
  recordcount := if given names "--recordcount" then recordcount o else recordcount d;
  cluster_size := if given names "--cluster-size" then cluster_size o else cluster_size d;
  run_id := if given names "--run-id" then run_id o else run_id d;
  poll_idle_us := if given names "--poll-idle-us" then poll_idle_us o else poll_idle_us d;
  noop_us := if given names "--noop-us" then noop_us o else noop_us d;
  batch_size := if given names "--batch-size" then batch_size o else batch_size d;
  pipeline_workers := if given names "--pipeline-workers" then pipeline_workers o else pipeline_workers d;
  admission_window := if given names "--admission-window" then admission_window o else admission_window d;
  admission_batch := if given names "--admission-batch" then admission_batch o else admission_batch d |}.

(** Every option with its value, as text. *)
Definition option_pairs (o : Options) : list (bytes * bytes) := [
  (str "--dataset", dataset_path o);
  (str "--preload-file", preload_file o);
  (str "--preload-count", print_u64 (preload_count o));
  (str "--recordcount", print_u64 (recordcount o));
  (str "--cluster-size", print_u64 (cluster_size o));
  (str "--run-id", print_u64 (run_id o));
  (str "--start-signal", start_signal o);
  (str "--ready-file", ready_file o);
  (str "--poll-idle-us", print_u64 (poll_idle_us o));
  (str "--noop-us", print_u64 (noop_us o));
  (str "--batch-size", print_u64 (batch_size o));
  (str "--pipeline-workers", print_u64 (pipeline_workers o));
  (str "--admission-window", print_u64 (admission_window o));
  (str "--admission-batch", print_u64 (admission_batch o));
  (str "--stats-out", stats_out o)].

(** The numbers are in the range of their types. *)
Record options_typed (o : Options) : Prop := {
  ot_words : Forall is_u64 [preload_count o; recordcount o; cluster_size o; run_id o; noop_us o;
                            pipeline_workers o; admission_window o];
  ot_u32 : Forall (λ n, 0 ≤ n < 2 ^ 32) [batch_size o; admission_batch o];
  ot_int : 0 ≤ poll_idle_us o < 2 ^ 31
}.

Lemma number_print n : is_u64 n → number (print_u64 n) = Some n.
Proof. intros Hn. unfold number. by rewrite stoull_print. Qed.

Lemma run_token_print n : is_u64 n → parse_run_token (print_u64 n) = n.
Proof. intros Hn. exact (proj1 (run_token_meaning [] n Hn)). Qed.

(** An option given once more. *)
Lemma set_option_pair o p d : options_typed o → p ∈ option_pairs o →
  set_option p.1 p.2 d = Some (Some (chosen [p.1] o d)).
Proof.
  intros [Hw Hu Hi] Hp.
  assert (∀ n, 0 ≤ n < 2 ^ 32 → is_u64 n ∧ w32 n = n) as Hu32.
  { intros n Hn. split; [unfold is_u64; lia|]. unfold w32. apply Z.mod_small. lia. }
  split_words. pose proof (Hu32 (batch_size o) ltac:(done)) as [??].
  pose proof (Hu32 (admission_batch o) ltac:(done)) as [??].
  unfold option_pairs in Hp. destruct o, d. rewrite !elem_of_cons in Hp.
  destruct_or? Hp; [..|by apply not_elem_of_nil in Hp]; subst p; cbn [fst snd batch_size admission_batch] in *;
    unfold set_option; rewrite ?number_print, ?run_token_print, ?stoi_print by done;
    cbn [fst fmap option_fmap option_map];
    repeat match goal with H : w32 _ = _ |- _ => rewrite ?H; clear H end; by vm_compute.
Qed.

Lemma chosen_field {A} (x n : bytes) (names : list bytes) (a b : A) :
  (if decide (x ∈ names) then a else if decide (x ∈ [n]) then a else b) =
  if decide (x ∈ n :: names) then a else b.
Proof.
  destruct (decide (x ∈ n :: names)) as [[->|?]%elem_of_cons|[??]%not_elem_of_cons].
  - rewrite (decide_True (P := n ∈ [n])) by apply list_elem_of_here. by case_decide.
  - by rewrite decide_True.
  - rewrite !decide_False; [done| |done]. by rewrite list_elem_of_singleton.
Qed.

Lemma chosen_cons n names o d : chosen names o (chosen [n] o d) = chosen (n :: names) o d.
Proof. unfold chosen. cbn. f_equal; apply chosen_field. Qed.

Lemma chosen_nil o d : chosen [] o d = d.
Proof. destruct d. unfold chosen. f_equal; by rewrite decide_False by apply not_elem_of_nil. Qed.

Lemma chosen_all names o dax id : (∀ p, p ∈ option_pairs o → p.1 ∈ names) → dax = dax_path o → id = node_id o →
  chosen names o (default_options dax id) = o.
Proof.
  intros Hall -> ->.
  assert (Forall (λ p, p.1 ∈ names) (option_pairs o)) as Hf by (by apply Forall_forall).
  unfold option_pairs in Hf. split_words. cbn [fst] in *. destruct o. unfold chosen.
  f_equal; by rewrite decide_True.
Qed.

(** Options and values, alternating. *)
Definition words (args : list (bytes * bytes)) : list bytes := args ≫= (λ p, [p.1; p.2]).

Lemma parse_options_pairs o args d : options_typed o → Forall (λ p, p ∈ option_pairs o) args →
  parse_options (words args) d = Some (chosen args.*1 o d).
Proof.
  intros Ho Hargs. revert d. induction Hargs as [|p args Hp _ IH]; intros d; cbn.
  { by rewrite chosen_nil. }
  rewrite (set_option_pair o p d Ho Hp). fold (words args). by rewrite IH, chosen_cons.
Qed.

(** The preload leaves everything but the store alone. *)
Lemma direct_apply_eq {S} `{ReplicaStore S} op key value (s : Node S) :
  direct_apply op key value s = s <| kv_ := kv_ (direct_apply op key value s) |>.
Proof. unfold direct_apply. repeat case_if; by destruct s. Qed.

Lemma preload_lines_eq {S} `{ReplicaStore S} left lines (s : Node S) :
  preload_lines left lines s = s <| kv_ := kv_ (preload_lines left lines s) |>.
Proof.
  revert left s. induction lines as [|line lines IH]; intros [|left] s; cbn [preload_lines]; try by destruct s.
  destruct (parse_line_view line) as [v|]; [|by apply IH]. case_if; [|by apply IH].
  rewrite IH. by rewrite direct_apply_eq.
Qed.

Lemma preload_eq {S} `{ReplicaStore S} count file (s : Node S) :
  preload count file s = s <| kv_ := kv_ (preload count file s) |>.
Proof. unfold preload. case_if; [apply preload_lines_eq|by destruct s]. Qed.

Lemma preload_new_node {S} `{ReplicaStore S} cfg count file (kv : S) :
  preload count file (new_node cfg kv) = new_node cfg (kv_ (preload count file (new_node cfg kv))).
Proof. by rewrite preload_eq at 1. Qed.

(** The loop over the sources. *)
Lemma source_workers_sources recv_cpu idx srcs cfg :
  concat (reads_from cfg <$> source_workers recv_cpu idx srcs) = srcs.
Proof.
  revert idx. induction srcs as [|src srcs IH]; intros idx; [done|]. cbn. f_equal. apply IH.
Qed.

(** ** Properties *)

(** C35: the command line means what it says: the options of a run, given in any
    order and any number of times, are the values [main] works with, and an
    option that is not given keeps its default. *)
Theorem command_line_meaning (o : Options) (port : bytes) (args : list (bytes * bytes))
    (Ho : options_typed o) (Hid : is_u64 (node_id o)) (Hdata : dataset_path o ≠ []) (Hport : number port ≠ None)
    (Hargs : Forall (λ p, p ∈ option_pairs o) args) (Hgiven : str "--dataset" ∈ args.*1) :
  let argv := dax_path o :: print_u64 (node_id o) :: port :: words args in
  parse_args argv = Runs (chosen args.*1 o (default_options (dax_path o) (node_id o))) ∧
  ((∀ p, p ∈ option_pairs o → p ∈ args) → parse_args argv = Runs o).
Proof.
  intros argv. assert (parse_args argv =
    Runs (chosen args.*1 o (default_options (dax_path o) (node_id o)))) as Hparse.
  { unfold argv, parse_args. rewrite number_print by done. destruct (number port); [|done].
    rewrite (parse_options_pairs o) by done. rewrite decide_False; [done|].
    unfold chosen. cbn [dataset_path]. by rewrite decide_True. }
  split; [done|]. intros Hall. rewrite Hparse. f_equal. apply chosen_all; [|done..].
  intros p Hp. apply list_elem_of_fmap. exists p. split; [done|]. by apply Hall.
Qed.

(** C24: three drivers make the cluster the other theorems are about: if all
    three get as far as the replay loop, for nodes 1 to 3, with windows that
    fit the log, and their preloads contain the same writes, the configuration
    is valid and they are in the initial state of a run of their traces, over
    the preloaded contents. *)
Theorem driver_establishes_run {C S} `{Chan : Channel C} `{Store : ReplicaStore S} (hash : bytes → Z)
    `{!ReplicaStoreLaws hash S} (files : Z → bytes → option bytes) (device : Z → bytes → bool)
    (argv : Z → list bytes) (kv : Z → S) (now : Z → Z) (early : Z → nat → Z → bool) (rs : Z → Replay S)
    (V0 : MapType) (writes : list ApplyOp)
    (Hruns : ∀ i, is_node i → prepare_replay (files i) (device i) (argv i) (kv i) (now i) = Runs (rs i))
    (Hkv : ∀ i, is_node i → store_ok (kv i) ∧ store_view (kv i) = V0)
    (Hopts : ∀ i, is_node i → let o := options (rs i) in
       node_id o = i ∧ 0 ≤ admission_window o ≤ kWindow ∧ 0 ≤ admission_batch o ≤ (kWindow - 3) / 3)
    (Hwrites : ∀ i, is_node i → let o := options (rs i) in
       take (Z.to_nat (preload_count o)) (trace_writes (lines_of (default [] (files i (preload_path o))))) = writes) :
  let cfg i := config (rs i) in
  let traces := trace_batches (λ i, dataset (rs i)) (λ i, batch_size (options (rs i))) early in
  config_ok cfg ∧
  run_initial cfg traces (foldl spec_apply V0 writes) {|
    cluster := {| nodes i := replica (rs i); threads _ := TIdle; chans _ := ch_new; inbox _ := [] |};
    mains i := MReplay (traces i); node_finished _ := 0 |}.
Proof.
  intros cfg traces.
  assert (∀ i, is_node i → config_of (options (rs i)) = Some (cfg i) ∧
    replica (rs i) = start_node (now i) (preload (preload_count (options (rs i)))
      (default [] (files i (preload_path (options (rs i))))) (new_node (cfg i) (kv i)))) as Hr.
  { intros i Hi. specialize (Hruns i Hi). unfold prepare_replay in Hruns.
    destruct (parse_args (argv i)) as [| | |o]; try done. destruct (negb _); [done|].
    destruct (config_of o) as [c|] eqn:Hc; [|done]. destruct (files i (dataset_path o)) as [[|b data]|]; try done.
    injection Hruns as Hrs. unfold cfg. by rewrite <- Hrs. }
  split.
  - assert (∀ i, is_node i → node_id_ (cfg i) = i ∧ cluster_size_ (cfg i) = 3 ∧ window_bound (cfg i) kWindow) as Hc.
    { intros i Hi. destruct (Hr i Hi) as [Hc _]. destruct (Hopts i Hi) as (Hid&Hw&Hb).
      unfold config_of, make_config in Hc. destruct (Z.eqb_spec (cluster_size (options (rs i))) 3) as [H3|]; [|done].
      destruct (_ || _); [done|]. injection Hc as <-. unfold window_bound, kWindow in *. cbn.
      split; [done|]. split; [done|]. change ((32766 - 3) / 3) with 10921 in Hb.
      destruct (Z.eqb_spec (admission_window (options (rs i))) 0),
        (Z.eqb_spec (admission_batch (options (rs i))) 0); lia. }
    by split; intros i Hi; apply Hc.
  - split; [|done]. split; try done. intros i Hi. destruct (Hr i Hi) as [_ Hs]. destruct (Hkv i Hi) as [Hok Hv].
    exists (kv_ (preload (preload_count (options (rs i)))
      (default [] (files i (preload_path (options (rs i))))) (new_node (cfg i) (kv i)))), (now i).
    rewrite <- preload_new_node. split; [done|]. split.
    + unfold preload. case_if; [|done]. by apply (preload_lines_view hash).
    + rewrite (preload_applies_writes hash) by done. cbn [kv_ new_node]. by rewrite Hv, (Hwrites i Hi).
Qed.

(** [start] gives every ring that leads to the node exactly one reading
    thread, whatever the number of pipeline workers, and one proposer thread
    that reads none; starting a running replica or stopping a stopped one
    changes nothing, and a stopped one can be started again. *)
Theorem one_reader_per_ring (cfg : Config) (pipeline_workers recv_cpu proposer_cpu : Z) :
  let t := start cfg pipeline_workers recv_cpu proposer_cpu no_threads in
  running_ t = true ∧ proposer_thread_ t = Some (ProposerLoop proposer_cpu) ∧
  concat (reads_from cfg <$> recv_threads_ t) = peers (node_id_ cfg) (cluster_size_ cfg) ∧
  NoDup (peers (node_id_ cfg) (cluster_size_ cfg)) ∧
  (∀ workers' cpu cpu', start cfg workers' cpu cpu' t = t) ∧
  stop t = no_threads ∧ stop no_threads = no_threads.
Proof.
  intros t. unfold t, start. cbn [running_ no_threads recv_threads_ proposer_thread_].
  do 2 (split; [done|]). split; [|split; [apply NoDup_peers|done]].
  destruct (_ <=? 1); [by cbn; rewrite app_nil_r|]. apply source_workers_sources.
Qed.

(** ** Concrete inputs *)
Module Examples.
Import KVStore.Examples.

#[local] Instance rep : ReplicaStore KVStore := kv_replica length_hash.
#[local] Instance rep_laws : ReplicaStoreLaws length_hash KVStore := kv_replica_laws length_hash.

Definition options2 : Options :=
  (default_options (str "/dev/dax0.0") 2) <| dataset_path := str "trace2" |> <| run_id := 77 |>
    <| preload_count := 1 |> <| preload_file := str "load" |>.

(** The options in another order, one of them twice, the rest not given. *)
Definition args2 : list (bytes * bytes) :=
  [(str "--run-id", str "77"); (str "--preload-file", str "load"); (str "--dataset", str "trace2");
   (str "--run-id", str "77"); (str "--preload-count", str "1")].

Lemma options2_typed : options_typed options2.
Proof. split; [eval_forall..|done]. Qed.

Lemma command_line_meaning_witness :
  parse_args (str "/dev/dax0.0" :: str "2" :: str "7000" :: words args2) = Runs options2.
Proof.
  refine (eq_trans (proj1 (command_line_meaning options2 (str "7000") args2 options2_typed _ _ _ _ _)) _).
  - by vm_compute.
  - done.
  - by vm_compute.
  - refine (bool_decide_unpack _ _). by vm_compute.
  - refine (bool_decide_unpack _ _). by vm_compute.
  - by vm_compute.
Defined.

(** Malformed command lines. *)
Example bad_arguments :
  parse_args [str "/dev/dax0.0"; str "2"] = Exits 1 ∧
  parse_args [str "/dev/dax0.0"; str "2"; str "7000"; str "--dataset"] = Exits 1 ∧
  parse_args [str "/dev/dax0.0"; str "two"; str "7000"] = Throws ∧
  parse_args [str "/dev/dax0.0"; str "2"; str "7000"; str "--batch-size"; str "x"] = Throws ∧
  config_of (options2 <| cluster_size := 5 |>) = None.
Proof. by vm_compute. Qed.

(** 24 million ticks in 10 milliseconds; a counter that stands still. *)
Example calibrations :
  calibrate_tsc_hz 1000 5000 10001000 24005000 = Some 2400000000 ∧ calibrate_tsc_hz 1000 5000 10001000 5000 = Some 0.
Proof. by vm_compute. Qed.

(** Three drivers that preload one write. *)
Definition files (i : Z) (path : bytes) : option bytes :=
  if decide (path = str "load") then Some (unlines [str "0,G x"; str "0,P k:zero"; str "0,P j:zero"])
  else if decide (path = str "trace" ++ print_u64 i) then Some (unlines [str "5,P k:one"])
  else None.

Definition argv (i : Z) : list bytes :=
  [str "/dev/dax0.0"; print_u64 i; str "7000"; str "--dataset"; str "trace" ++ print_u64 i;
   str "--preload-file"; str "load"; str "--preload-count"; str "1"].

Abbreviation prepared i := (prepare_replay (files i) (λ _, true) (argv i) empty_store 1000).

Definition fallback : Replay KVStore := {|
  options := options2; config := Submit.Examples.cfg; replica := new_node Submit.Examples.cfg empty_store; dataset := [] |}.
Definition replays (i : Z) : Replay KVStore := match prepared i with Runs r => r | _ => fallback end.

Definition reaches_replay (i : Z) : bool := match prepared i with Runs _ => true | _ => false end.

Lemma prepared_runs i : reaches_replay i = true → prepared i = Runs (replays i).
Proof. unfold reaches_replay, replays. by destruct (prepared i). Qed.

Lemma each_node (P : Z → Prop) i : is_node i → P 1 → P 2 → P 3 → P i.
Proof. intros Hi ???. assert (i = 1 ∨ i = 2 ∨ i = 3) as [-> |[-> | ->]] by (unfold is_node in Hi; lia); done. Qed.

Lemma driver_establishes_run_witness :
  config_ok (λ i, config (replays i)) ∧
  store_view (kv_ (replica (replays 2))) = foldl spec_apply ∅ [{| ao_op := "P"; ao_shard := 0; ao_key := str "k"; ao_value := str "zero" |}].
Proof.
  split; [|by vm_compute].
  refine (proj1 (driver_establishes_run (C := SpscRing) length_hash files (λ _ _, true) argv (λ _, empty_store)
    (λ _, 1000) (λ _ _ _, false) replays (store_view empty_store)
    [{| ao_op := "P"; ao_shard := 0; ao_key := str "k"; ao_value := str "zero" |}] _ _ _ _)).
  - intros i Hi. apply prepared_runs. by apply (each_node (λ i, reaches_replay i = true) i Hi); vm_compute.
  - intros i _. split; [apply empty_store_wf|done].
  - intros i Hi. cbv zeta. pattern i. by apply (each_node _ i Hi); vm_compute.
  - intros i Hi. cbv zeta. pattern i. by apply (each_node _ i Hi); vm_compute.
Defined.

End Examples.
