(* ===== verification/Experiment.v ===== *)
(** The whole experiment: the trace generator splits one dataset into three
    files ([TraceGen]), three drivers replay them ([Lifecycle]) on the cluster.
    [experiment_executes_dataset]: when a node passes the final barrier, every
    line the generator took from the dataset is in the share of exactly one node,
    in the order of the dataset there, and what the driver's parser reads in the
    shares has been submitted and executed.  These are the operations of the
    dataset if both parsers read its lines alike ([read_alike]); the generator
    accepts lines the driver skips ([parsers_disagree]). *)
From stdpp Require Import functions.
From S2P Require Import Prelude Histogram KVStore Message Ring Transport NodeState Bandle Execute Replica Submit Cluster Agreement Completion Text Trace TraceGen Lifecycle.

(** The file of node [i]. *)
Definition node_file (g : GenState) (i : Z) : bytes := default [] (unlines <$> outs g !! Z.to_nat (i - 1)).

(** The operation a line of the dataset asks for, with the write it carries. *)
Definition op_content (hash : bytes → Z) (op : ParsedOp) : ascii * list ApplyOp :=
  (po_op op,
   if is_write_op (po_op op) then [{|
     ao_op := po_op op; ao_shard := get_shard_idx hash (po_key op); ao_key := po_key op;
     ao_value := if decide (po_op op = "D"%char) then [] else po_value op |}]
   else []).

(** A line both parsers read the same way: a time stamp of digits alone, a key
    that is not empty and has no colon in it, and key and value that fit a
    message.  The generator's parser accepts more ([parsers_disagree]). *)
Record read_alike (o : bytes * ParsedOp) : Prop := {
  cl_stamp : ∃ ts_str req, split_at "," o.1 = Some (ts_str, req) ∧ forallb is_digit ts_str = true;
  cl_key : po_key o.2 ≠ [] ∧ ":"%char ∉ po_key o.2;
  cl_fits : Z.of_nat (length (po_key o.2)) +
    (if bool_decide (po_op o.2 = "P"%char) || bool_decide (po_op o.2 = "U"%char)
     then Z.of_nat (length (po_value o.2)) else 0) ≤ kMaxValueBytes
}.

(** ** Lemmas *)
Lemma accepted_parsed max_ops total lines out :
  Forall (λ o, o.1 ∈ lines ∧ ∃ out, parse_line o.1 out = (true, o.2)) (TraceGen.accepted max_ops total lines out).
Proof.
  revert total out. induction lines as [|line lines IH]; intros total out; [constructor|]. cbn [TraceGen.accepted].
  assert (∀ total out, Forall (λ o, o.1 ∈ line :: lines ∧ ∃ out, parse_line o.1 out = (true, o.2))
    (TraceGen.accepted max_ops total lines out)) as IH'.
  { intros t o. eapply Forall_impl; [apply IH|]. intros x [??]. split; [by right|done]. }
  destruct (parse_line line out) as [[] out'] eqn:Hp; [|apply IH']. case_if; [constructor|].
  constructor; [|apply IH']. split; [left|by exists out].
Qed.

Lemma parse_line_op line out op : parse_line line out = (true, op) →
  po_op op = "P"%char ∨ po_op op = "U"%char ∨ po_op op = "D"%char ∨ po_op op = "G"%char.
Proof.
  intros Hp. destruct (split_at "," line) as [[t r]|] eqn:Hs.
  - destruct (parse_line_inv line out op t r Hp Hs) as (?&?&_&_&_&[[[]_]|[[]_]]); tauto.
  - unfold parse_line in Hp. destruct line as [|c l]; [done|]. by rewrite Hs in Hp; destruct (decide _).
Qed.

Lemma prepared_op cfg old req : p_op (m_body (prepare_proposal cfg old req)) = br_op req.
Proof. unfold prepare_proposal. by case_decide. Qed.

(** The request of a line read alike asks for its operation. *)
Lemma alike_request hash cfg op : (po_op op = "P"%char ∨ po_op op = "U"%char ∨ po_op op = "D"%char ∨ po_op op = "G"%char) →
  Z.of_nat (length (po_key op)) +
    (if bool_decide (po_op op = "P"%char) || bool_decide (po_op op = "U"%char)
     then Z.of_nat (length (po_value op)) else 0) ≤ kMaxValueBytes →
  accepted (request_of (view_of op)) = true ∧
  request_content hash cfg (request_of (view_of op)) = op_content hash op.
Proof.
  intros Hop Hfits.
  assert (accepted (request_of (view_of op)) = true) as Hacc.
  { unfold accepted. cbn [request_of view_of br_op pl_op]. by destruct Hop as [-> |[-> |[-> | ->]]]. }
  split; [done|]. unfold request_content, content, op_content.
  rewrite prepared_op. cbn [request_of view_of br_op pl_op].
  f_equal. destruct (is_write_op (po_op op)) eqn:Hw.
  2:{ unfold message_ops. rewrite prepared_op. cbn [request_of view_of br_op pl_op]. by rewrite Hw. }
  set (value := if bool_decide (po_op op = "P"%char) || bool_decide (po_op op = "U"%char) then po_value op else []).
  set (req := {| br_op := po_op op; br_key_ptr := Some (po_key op); br_key_len := Z.of_nat (length (po_key op));
                 br_value_ptr := Some value; br_value_len := Z.of_nat (length value) |}).
  assert (Z.of_nat (length (po_key op)) + Z.of_nat (length value) ≤ kMaxValueBytes) as Hlen.
  { unfold value. by case_if. }
  assert (∀ n : nat, Z.of_nat n ≤ kMaxValueBytes → w32 (Z.of_nat n) = Z.of_nat n) as Hw32.
  { intros n Hn. unfold w32, kMaxValueBytes in *. apply Z.mod_small. lia. }
  assert (prepare_proposal cfg default_message (request_of (view_of op)) =
    prepare_proposal cfg default_message req) as ->.
  { unfold prepare_proposal, req, value in *. cbn [request_of view_of br_op br_key_ptr br_key_len br_value_ptr
      br_value_len pl_op pl_key pl_value]. rewrite Hw32 by lia.
    destruct (bool_decide _ || bool_decide _); [by rewrite Hw32 by lia|].
    case_decide; [done|]. cbn [length] in *. by rewrite !Z.min_l by (unfold kMaxValueBytes in *; lia). }
  rewrite (prepare_ops cfg hash default_message req (po_key op) value); [|by vm_compute|done..]. cbn [br_op req].
  unfold kMaxValueBytes in Hlen. change (Z.to_nat kMaxValueBytes) with 1088%nat. cbv zeta.
  rewrite (take_ge (po_key op)) by lia. do 2 f_equal. rewrite take_ge by lia.
  unfold value. by destruct Hop as [Hp|[Hu|[Hd|Hg]]]; [rewrite Hp|rewrite Hu|rewrite Hd|rewrite Hg in Hw].
Qed.

(** What a line the driver reads asks for. *)
Definition line_content (hash : bytes → Z) (cfg : Config) (line : bytes) : ascii * list ApplyOp :=
  default ("N"%char, []) ((λ v, request_content hash cfg (request_of v)) <$> parse_line_view line).

Definition readable (line : bytes) : Prop :=
  ∃ v, parse_line_view line = Some v ∧ accepted (request_of v) = true.

Lemma expected_lines hash cfg lines : Forall readable lines →
  expected hash cfg (parsed_requests lines) = line_content hash cfg <$> lines.
Proof.
  induction 1 as [|line lines (v&Hv&Hacc) _ IH]; [done|]. unfold expected, parsed_requests in *.
  cbn [omap list_omap fmap list_fmap]. unfold line_content at 1. rewrite Hv. cbn [fmap option_fmap option_map from_option].
  cbn [List.filter]. rewrite Hacc. cbn [fmap list_fmap]. by rewrite IH.
Qed.

(** What the generator takes, for the driver, from lines both read alike. *)
Lemma alike_line hash o : (∃ out, parse_line o.1 out = (true, o.2)) → read_alike o →
  readable o.1 ∧ ∀ cfg, line_content hash cfg o.1 = op_content hash o.2.
Proof.
  intros (out&Hp) [(ts_str&req&Hs&Hd) [Hk Hc] Hfits].
  pose proof (driver_reads_line _ _ _ _ _ Hp Hs Hd Hk Hc) as Hv. pose proof (parse_line_op _ _ _ Hp) as Hop.
  split; [exists (view_of o.2); split; [done|by apply (alike_request hash Submit.Examples.cfg)]|].
  intros cfg. unfold line_content. rewrite Hv. cbn. by apply alike_request.
Qed.

Lemma alike_contents hash cfg max_ops lines : let ops := TraceGen.accepted max_ops 0 lines default_op in
  Forall read_alike ops →
  expected hash cfg (parsed_requests (ops.*1)) = op_content hash ∘ snd <$> ops.
Proof.
  intros ops Halike. pose proof (accepted_parsed max_ops 0 lines default_op) as Hacc. fold ops in Hacc.
  assert (∀ o, o ∈ ops → readable o.1 ∧ ∀ c, line_content hash c o.1 = op_content hash o.2) as Hops.
  { intros o Ho. rewrite Forall_forall in Hacc, Halike. apply alike_line; [by apply Hacc|by apply Halike]. }
  rewrite expected_lines.
  - rewrite <- list_fmap_compose. apply list_fmap_ext. intros k o Hk. apply Hops. by eapply list_elem_of_lookup_2.
  - apply Forall_forall. intros l (o&->&Ho)%list_elem_of_fmap. by apply Hops.
Qed.

Lemma parsed_ts line out op : parse_line line out = (true, op) → is_u64 (po_ts_us op).
Proof.
  intros Hp. destruct (split_at "," line) as [[t r]|] eqn:Hs.
  - destruct (parse_line_inv _ _ _ _ _ Hp Hs) as (?&?&_&Hts&_). by eapply stoull_range.
  - unfold parse_line in Hp. destruct line as [|c l]; [done|]. by rewrite Hs in Hp; destruct (decide _).
Qed.

Lemma end_ts_u64 ops : Forall (λ o : bytes * ParsedOp, is_u64 (po_ts_us o.2)) ops → is_u64 (end_ts_us ops).
Proof.
  induction ops as [|o ops _] using rev_ind; intros Ho; [by vm_compute|].
  unfold end_ts_us. rewrite foldl_snoc. apply Forall_app in Ho as [_ [Ho _]%Forall_cons]. exact Ho.
Qed.

(** What the padding line asks for. *)
Lemma padding_content hash cfg end_ts i : is_u64 end_ts → is_u64 (Z.of_nat i + 1) →
  newline ∉ pad_line end_ts i ∧ expected hash cfg (parsed_requests [pad_line end_ts i]) = [("G"%char, [])].
Proof.
  intros He Hi. destruct (driver_reads_padding end_ts i He Hi) as [key Hv]. split.
  - unfold pad_line. rewrite !not_elem_of_app. split_and!; try (by apply print_notin).
    apply split_at_none. by vm_compute.
  - rewrite expected_lines by (apply Forall_singleton; by eexists). cbn [fmap list_fmap]. unfold line_content. by rewrite Hv.
Qed.

(** The files of a generated experiment: the lines taken from the dataset, split
    among the nodes, each share in order and followed by at most one padding
    line. *)
Lemma node_file_lines max_ops mw content g hash (cfg : Z → Config) :
  let ops := TraceGen.accepted max_ops 0 (lines_of content) default_op in
  generate 3 max_ops mw content = Some g →
  ∃ share : Z → list bytes,
    share 1 ++ share 2 ++ share 3 ≡ₚ ops.*1 ∧
    ∀ i, is_node i → share i `sublist_of` ops.*1 ∧
      ∃ padding, (padding = [] ∨ padding = [("G"%char, [])]) ∧
        expected hash (cfg i) (parsed_requests (lines_of (node_file g i))) =
          expected hash (cfg i) (parsed_requests (share i)) ++ padding.
Proof.
  intros ops Hgen. unfold generate in Hgen. fold ops in Hgen.
  destruct (Z.eqb_spec (end_ts_us ops) 0) as [|Hts]; [done|]. injection Hgen as <-.
  destruct (assign_ops_split mw 3 ops ltac:(lia)) as [Hwf [Hall Hord]]. set (g0 := assign_ops mw 3 ops) in *.
  pose proof (accepted_parsed max_ops 0 (lines_of content) default_op) as Hacc. fold ops in Hacc.
  assert (is_u64 (end_ts_us ops)) as Hend.
  { apply end_ts_u64. eapply Forall_impl; [exact Hacc|]. intros o [_ [out Ho]]. by eapply parsed_ts. }
  exists (λ i, default [] (outs g0 !! Z.to_nat (i - 1))). split.
  { rewrite <- Hall. pose proof (gw_outs _ _ Hwf) as Hlen. destruct (outs g0) as [|l1 [|l2 [|l3 [|]]]]; try done. cbn.
    by rewrite app_nil_r. }
  intros i Hi. assert (Z.to_nat (i - 1) < 3)%nat as Hi3 by (unfold is_node in Hi; lia).
  destruct (lookup_lt_is_Some_2 (outs g0) (Z.to_nat (i - 1))) as [ls Hls]; [by rewrite (gw_outs _ _ Hwf)|].
  destruct (pad_outs (end_ts_us ops) 3 g0 _ ls Hwf Hls) as (tail&Htail&Hcase). rewrite Hls. cbn [from_option id].
  split; [by apply (Hord _ _ Hls)|].
  destruct (padding_content hash (cfg i) (end_ts_us ops) (Z.to_nat (i - 1)) Hend) as [Hnl Hpad]; [unfold is_u64; lia|].
  exists (expected hash (cfg i) (parsed_requests tail)). split.
  { destruct Hcase as [->| ->]; [by left|right; exact Hpad]. }
  unfold node_file. rewrite Htail. cbn [fmap option_fmap option_map from_option id]. rewrite lines_of_unlines.
  - unfold parsed_requests. by rewrite omap_app, expected_app.
  - apply Forall_app. split.
    + apply Forall_forall. intros l Hl. assert (l ∈ ops.*1) as (o&->&Ho)%list_elem_of_fmap.
      { eapply elem_of_sublist; [exact Hl|]. by apply (Hord _ _ Hls). }
      rewrite Forall_forall in Hacc. destruct (Hacc o Ho) as [Hin _].
      pose proof (file_lines_no_newline (Datatypes.S (length content)) content) as Hno. rewrite Forall_forall in Hno. by apply Hno.
    + destruct Hcase as [->| ->]; [done|]. by apply Forall_singleton.
Qed.

(** ** Properties *)
Section Properties.
Context {C S : Type} `{Chan : Channel C} `{!ChannelLaws C} `{Store : ReplicaStore S}.
Context (hash : bytes → Z) `{!ReplicaStoreLaws hash S}.
Context (rdtsc : Z → nat → Z) (cfg : Z → Config) (V0 : MapType).
Context (batch_size : Z → Z) (early : Z → nat → Z → bool).

(** C8: from dataset to execution: the generator splits a dataset into three
    files, and the drivers replay them.  When one node has passed the final
    barrier, the lines the generator took from the dataset are split among the
    nodes, in order; what a node has submitted is exactly what the driver's
    parser reads in its share, in order, followed by at most one padding read;
    and every one of these requests has been executed.  On lines that both
    parsers read alike ([read_alike]), these are the operations the generator
    parsed; other lines the driver may skip. *)
Theorem experiment_executes_dataset (max_ops : Z) (multinode_writes : bool) (content : bytes) (g : GenState)
    (r : Run C S) h j (Hcfg : config_ok cfg)
    (Hgen : generate 3 max_ops multinode_writes content = Some g)
    (Hr : main_reach hash rdtsc cfg (trace_batches (node_file g) batch_size early) V0 r h)
    (Hids : ids_fit h) (Hj : is_node j) (Hpass : mains r j = MPassed) :
  let ops := TraceGen.accepted max_ops 0 (lines_of content) default_op in
  (∃ share : Z → list bytes,
    share 1 ++ share 2 ++ share 3 ≡ₚ ops.*1 ∧
    ∀ i, is_node i →
      share i `sublist_of` ops.*1 ∧
      (∃ padding, (padding = [] ∨ padding = [("G"%char, [])]) ∧
        Lifecycle.content hash <$> requests (h i) =
          expected hash (cfg i) (parsed_requests (share i)) ++ padding) ∧
      ∀ k m, h i !! k = Some m → p_client_req_id (m_body m) ≠ 0 →
        seq_at i k < execute_next_ (nodes (cluster r) i)) ∧
  (Forall read_alike ops → ∀ i,
    expected hash (cfg i) (parsed_requests (ops.*1)) = op_content hash ∘ snd <$> ops).
Proof.
  intros ops. split; [|intros Halike i; by apply alike_contents].
  destruct (node_file_lines max_ops multinode_writes content g hash cfg Hgen) as (share&Hall&Hshare).
  exists share. split; [done|]. intros i Hi. destruct (Hshare i Hi) as [Hsub (padding&Hpad&Hexp)].
  destruct (passed_barrier hash rdtsc cfg V0 (node_file g) batch_size early r h i j) as [Hreq Hexec]; try done.
  split; [done|]. split; [|done]. exists padding. split; [done|]. by rewrite Hreq.
Qed.

End Properties.

(** ** A dataset of three operations *)
Module Examples.
Import Agreement.Schedule Agreement.Examples KVStore.Examples Lifecycle.Examples.

#[local] Existing Instance rep.
#[local] Existing Instance rep_laws.

Definition dataset : bytes := unlines [str "# a comment"; str "1,P k:one"; str "2,G k"; str "5,D k"].

Definition generated : GenState := default (initial_gen 3) (generate 3 0 true dataset).

Example files :
  outs generated =
    [[str "1,P k:one"; str "5,G __pad_node1"]; [str "2,G k"; str "5,G __pad_node2"]; [str "5,D k"]].
Proof. by vm_compute. Qed.

Definition schedule : list Move :=
  submission 1 ++ submission 2 ++ submission 3 ++
  (Thread <$> deliver 1 2 ++ deliver 1 3 ++ deliver 2 1 ++ deliver 2 3 ++ deliver 3 1 ++ deliver 3 2) ++
  [Main 1; Main 2; Main 3; Main 2].

Abbreviation final := (outcome (node_file generated) schedule).

Lemma final_reached : main_reach length_hash clock cfg
  (trace_batches (node_file generated) (fun _ => 2) (fun _ _ _ => false)) V0 final.1 final.2.
Proof. apply outcome_reach. by vm_compute. Qed.

Lemma dataset_alike : Forall read_alike (TraceGen.accepted 0 0 (lines_of dataset) default_op).
Proof.
  repeat (apply List.Forall_cons; [split; [do 2 eexists; by vm_compute| |by vm_compute];
    split; [done|apply split_at_none; by vm_compute]|]). by apply List.Forall_nil.
Qed.

Lemma experiment_executes_dataset_witness :
  (∃ share : Z → list bytes, share 1 ++ share 2 ++ share 3 ≡ₚ [str "1,P k:one"; str "2,G k"; str "5,D k"]) ∧
  expected length_hash (cfg 1) (parsed_requests [str "1,P k:one"; str "2,G k"; str "5,D k"]) =
    [("P"%char, [{| ao_op := "P"; ao_shard := get_shard_idx length_hash (str "k"); ao_key := str "k"; ao_value := str "one" |}]);
     ("G"%char, []);
     ("D"%char, [{| ao_op := "D"; ao_shard := get_shard_idx length_hash (str "k"); ao_key := str "k"; ao_value := [] |}])].
Proof.
  destruct (experiment_executes_dataset length_hash clock cfg V0 (fun _ => 2) (fun _ _ _ => false) 0 true dataset
    generated final.1 final.2 2) as [(share&Hall&_) Halike].
  - apply cfg_ok.
  - by vm_compute.
  - apply final_reached.
  - apply Completion.Examples.ids_fit_check. by vm_compute.
  - by vm_compute.
  - by vm_compute.
  - split; [exists share; exact Hall|]. etransitivity; [exact (Halike dataset_alike 1)|]. reflexivity.
Defined.

(** The two parsers disagree: the generator takes each of these lines and puts
    it in a file, and the driver that replays the file skips it: the key is
    empty, or the time stamp has letters after its digits. *)
Example parsers_disagree :
  generate 3 0 true (unlines [str "1,P :v"; str "5x,G k"]) ≠ None ∧
  TraceGen.accepted 0 0 [str "1,P :v"; str "5x,G k"] default_op =
    [(str "1,P :v", {| po_ts_us := 1; po_op := "P"; po_key := []; po_value := str "v" |});
     (str "5x,G k", {| po_ts_us := 5; po_op := "G"; po_key := str "k"; po_value := str "v" |})] ∧
  parse_line_view (str "1,P :v") = None ∧ parse_line_view (str "5x,G k") = None.
Proof. split_and!; by vm_compute. Qed.

End Examples.
