(* ===== verification/Outcome.v ===== *)
(** What an experiment reports.  [statistics_of_trace]: once a node has passed
    the final barrier, the statistics of every node count the lines of its own
    trace, the completed reads and writes and the refused requests, and hold one
    latency sample per completed operation.  [experiment_report],
    and [concurrent_experiment_report] on the shared memory: the aggregator run
    on the three statistics files prints the numbers of the requests that the
    driver's parser reads in the lines taken from the dataset; these are the
    numbers of its operations if both parsers read its lines alike
    ([read_alike] of [Experiment]). *)
From Stdlib Require Import SpecFloat.
From stdpp Require Import functions relations.
From S2P Require Import Prelude Histogram KVStore Message Ring RingConc RingChannel Transport ConcChannel NodeState Bandle Execute Stats Replica Submit Cluster Agreement ClusterConc Completion Text Trace TraceGen StatsFile Report ReportDefined Lifecycle ConcRun Experiment.

(** ** Refused requests over a run *)
Section Counted.
Context {C S : Type} `{Chan : Channel C} `{!ChannelLaws C} `{Store : ReplicaStore S}.
Context (hash : bytes → Z) (rdtsc : Z → nat → Z) (cfg : Z → Config).
Context (traces : Z → list (list BorrowedRequest)).
Implicit Types (c : Cluster C S) (h : History) (r : Run C S).

(** The threads of the cluster refuse nothing: [prepare_proposals] does, on the
    main thread. *)
Lemma step_counters c l c' n j : step hash rdtsc cfg c l c' →
  (∀ i, is_node i → ¬ start_submit c c' i) → counters_ok n (nodes c j) → counters_ok n (nodes c' j).
Proof.
  intros Hstep Hns Hn.
  assert (∀ i s', (counters_ok n (nodes c i) → counters_ok n s') → counters_ok n (<[i := s']> (nodes c) j)) as Hupd.
  { intros i s' Hs. destruct (decide (i = j)) as [<-|Hne]; [rewrite fn_lookup_insert; by apply Hs|].
    by rewrite fn_lookup_insert_ne. }
  destruct Hstep as [i reqs bufs ps s' Hi Ht Hin Hb Hr Hp|i chunk chunks s' msgs Hi Ht Ha|i Hi Ht
    |i noop msgs peer to chunks Hi Ht Hready|i msgs chunks Hi Ht|i msg Hi Ht|i Hi Ht
    |i finished now Hi Ht Hnoop|i Hi Ht|i msg now Hi Ht|i j' msgs ch' Hi Hj' Hij Hin Hd|i j' Hi Hj' Hij Hin];
    cbn [nodes set_node]; try done; apply Hupd; intros Hs; try done.
  - exfalso. apply (Hns i Hi). split; [done|]. cbn [threads set_node]. rewrite fn_lookup_insert. by eexists.
  - by eapply admit_counters.
  - by apply self_deliver_counters.
  - rewrite self_deliver_noop_eq. by apply self_deliver_counters.
  - eapply counters_frame; [|exact Hs]. by split.
  - eapply counters_frame; [|exact Hs]. by split.
  - by apply handle_chunk_counters.
Qed.

(** The requests of node [i] that are still in the trace are not counted yet. *)
Definition counted r (i : Z) : Prop :=
  ∃ n, counters_ok (Z.of_nat n) (nodes (cluster r) i) ∧
    (n + refused (concat (batches_left (mains r i))) = refused (concat (traces i)))%nat.

Lemma refused_app l1 l2 : refused (l1 ++ l2) = (refused l1 + refused l2)%nat.
Proof. unfold refused. by rewrite List.filter_app, length_app. Qed.

Lemma run_step_counted r l r' i : run_step hash rdtsc cfg r l r' → counted r i → counted r' i.
Proof.
  intros Hstep (n&Hn&Hsum). destruct Hstep as [r' [o reqs batches bufs ps s' Ho Hm Ht Hb Hp|o Ho Hm Ht
    |o Ho Hm Hdone|o Ho Hm Hall]|l c' Hstep [Hns _ _]]; unfold counted; cbn [cluster mains nodes set_node with_cluster].
  5: { exists n. split; [|done]. by eapply step_counters. }
  all: destruct (decide (o = i)) as [->|Hne];
    [rewrite ?fn_lookup_insert|rewrite ?fn_lookup_insert_ne by done; by exists n].
  all: rewrite Hm in Hsum; cbn [batches_left concat] in *.
  - exists (n + refused reqs)%nat. rewrite Nat2Z.inj_add. split.
    + change s' with ((ps, s').2). rewrite <- Hp. by apply prepare_counters.
    + rewrite refused_app in Hsum. lia.
  - exists n. split; [|done]. eapply counters_frame; [|exact Hn]. by split.
  - by exists n.
  - by exists n.
Qed.

Lemma main_reach_counted V0 r h i : main_reach hash rdtsc cfg traces V0 r h → is_node i → counted r i.
Proof.
  intros Hr Hi. induction Hr as [r [Hc Hm]|r h l r' _ IH Hstep]; [|by eapply run_step_counted].
  destruct (Hm i Hi) as [Hmi _]. destruct (init_node _ _ _ Hc i Hi) as (kv&now&Hs&_).
  exists O. rewrite Hmi, Hs. split; [|done]. by split; try apply latencies_empty.
Qed.

End Counted.

(** ** Counting what was asked for *)
Definition is_get (req : BorrowedRequest) : bool := bool_decide (br_op req = "G"%char).

(** The reads among a list of operations. *)
Definition gets (ops : list (ascii * list ApplyOp)) : nat :=
  length (List.filter (λ o, bool_decide (o.1 = "G"%char)) ops).

Lemma length_filter_fmap {A B} (f : A → B) p q l : (∀ x, p (f x) = q x) →
  length (List.filter p (f <$> l)) = length (List.filter q l).
Proof.
  intros Hpq. induction l as [|x l IH]; [done|]. cbn [fmap list_fmap List.filter]. rewrite Hpq.
  destruct (q x); cbn [length]; by rewrite IH.
Qed.

Lemma length_filter_neg {A} (p : A → bool) l :
  (length (List.filter p l) + length (List.filter (λ x, negb (p x)) l) = length l)%nat.
Proof. induction l as [|x l IH]; [done|]. cbn [List.filter]. destruct (p x); cbn [negb length]; lia. Qed.

Lemma gets_content hash ms : gets (content hash <$> ms) = reads ms.
Proof. by apply length_filter_fmap. Qed.

Lemma gets_expected hash g reqs : gets (expected hash g reqs) = length (List.filter is_get (List.filter accepted reqs)).
Proof.
  unfold gets, expected. apply length_filter_fmap. intros req. unfold request_content, content, is_get. cbn [fst].
  by rewrite prepared_op.
Qed.

Lemma gets_app l1 l2 : gets (l1 ++ l2) = (gets l1 + gets l2)%nat.
Proof. unfold gets. by rewrite List.filter_app, length_app. Qed.

Lemma gets_perm l1 l2 : l1 ≡ₚ l2 → gets l1 = gets l2.
Proof.
  unfold gets. induction 1 as [|x l1 l2 _ IH|x y l|l1 l2 l3 _ IH1 _ IH2]; [done| | |congruence];
    cbn [List.filter]; repeat case_match; cbn [length]; congruence.
Qed.

Lemma gets_le l : (gets l ≤ length l)%nat.
Proof. unfold gets. apply List.filter_length_le. Qed.

Lemma refused_accepted reqs : (refused reqs + length (List.filter accepted reqs) = length reqs)%nat.
Proof.
  rewrite <- (length_filter_neg accepted reqs). unfold refused. rewrite Nat.add_comm. reflexivity.
Qed.

(** ** The statistics behind the barrier *)
Section Outcome.
Context {C S : Type} `{Chan : Channel C} `{!ChannelLaws C} `{Store : ReplicaStore S}.
Context (hash : bytes → Z) `{!ReplicaStoreLaws hash S}.
Context (rdtsc : Z → nat → Z) (cfg : Z → Config) (V0 : MapType).
Context (dataset : Z → bytes) (batch_size : Z → Z) (early : Z → nat → Z → bool).

(** The counters of a node that has executed the requests of [ops]. *)
Record counts (ops : list (ascii * list ApplyOp)) (e : nat) (s : Node S) : Prop := {
  cs_small : Z.of_nat (length ops) < 2 ^ 56;
  cs_ok : ok_ops_ s = Z.of_nat (length ops);
  cs_reads : read_ops_ s = Z.of_nat (gets ops);
  cs_writes : write_ops_ s = Z.of_nat (length ops - gets ops);
  cs_read_samples : samples (gets ops) (read_latency_ s);
  cs_write_samples : samples (length ops - gets ops) (write_latency_ s);
  cs_counters : counters_ok (Z.of_nat e) s
}.

(** Once everything issued is executed, the counters are those of the requests
    issued. *)
Lemma executed_counts c h i e : sound hash cfg V0 c h → ids_fit h → is_node i →
  (∀ k m, h i !! k = Some m → p_client_req_id (m_body m) ≠ 0 → seq_at i k < execute_next_ (nodes c i)) →
  counters_ok (Z.of_nat e) (nodes c i) → counts (content hash <$> requests (h i)) e (nodes c i).
Proof.
  intros Hr Hids Hi Hex Hco. apply (done_when_executed hash cfg V0 c h i Hr Hi), Z.eqb_eq in Hex.
  destruct (so_requests _ _ _ _ _ Hr) as [Hreq _ _].
  destruct (Hreq i Hi) as [_ Hsmall _ _ Hcount Hok Hrd _ Hrs Hws _]. rewrite Hcount in Hex.
  set (E := execute_next_ (nodes c i)) in *.
  assert (waiting_requests h i E = []) as Hw by (apply length_zero_iff_nil; lia).
  assert (executed_requests h i E = requests (h i)) as Hall.
  { transitivity (requests (take (own_executed i E) (h i) ++ drop (own_executed i E) (h i))); [|by rewrite take_drop].
    unfold waiting_requests in Hw. by rewrite requests_app, Hw, app_nil_r. }
  rewrite Hall in Hrd, Hrs, Hws. rewrite Hw in Hok, Hws. cbn [length] in Hok, Hws. rewrite Nat.sub_0_r in Hok, Hws.
  set (ms := requests (h i)) in *. pose proof (gets_content hash ms) as Hg.
  assert (reads ms ≤ length ms)%nat as Hle by (rewrite <- Hg, <- (length_fmap (content hash)); apply gets_le).
  rewrite w64_small in Hok, Hrd by (unfold is_u64; lia).
  split; rewrite ?length_fmap, ?Hg; try done; try lia. destruct Hco as [Ht Ho He Hlr Hlw].
  destruct Hlw as (k&_&Hn). pose proof (w64_range (Z.of_nat k)) as Hx. rewrite <- Hn in Hx.
  rewrite Hok, Hrd in Ho. unfold w64, is_u64 in *. rewrite Nat2Z.inj_sub by done.
  assert ((Z.of_nat (length ms)) mod 2 ^ 64 = Z.of_nat (length ms)) by (apply Z.mod_small; lia).
  Z.to_euclidean_division_equations. lia.
Qed.

(** What [ReplayStats] holds then. *)
Lemma counts_stats ops e (s : Node S) : counts ops e s →
  rs_ok_ops (stats s) = Z.of_nat (length ops) ∧ rs_read_ops (stats s) = Z.of_nat (gets ops) ∧
  rs_write_ops (stats s) = Z.of_nat (length ops - gets ops) ∧
  rs_error_ops (stats s) = w64 (Z.of_nat e) ∧ rs_total_ops (stats s) = w64 (Z.of_nat (length ops + e)) ∧
  samples (gets ops) (rs_read_latency (stats s)) ∧
  samples (length ops - gets ops) (rs_write_latency (stats s)).
Proof.
  intros [_ Ho Hr Hw Hrs Hws [Ht _ He _ _]]. cbn [stats rs_ok_ops rs_read_ops rs_write_ops rs_error_ops rs_total_ops
    rs_read_latency rs_write_latency].
  rewrite !atomic_snapshot_id by (by eapply samples_sum). rewrite Ht, Ho, He, w64_add_r.
  split_and!; try done. f_equal. lia.
Qed.

Lemma passed_counts (r : Run C S) h i j : config_ok cfg →
  main_reach hash rdtsc cfg (trace_batches dataset batch_size early) V0 r h → ids_fit h →
  is_node j → mains r j = MPassed → is_node i →
  counts (expected hash (cfg i) (parsed_requests (lines_of (dataset i))))
    (refused (parsed_requests (lines_of (dataset i)))) (nodes (cluster r) i).
Proof.
  intros Hcfg Hr Hids Hj Hpass Hi.
  pose proof (main_reach_inv hash rdtsc cfg Hcfg V0 _ (trace_batches_covered dataset batch_size early) r h Hr Hids) as Hinv.
  destruct (barrier_passed hash cfg V0 _ r h i j Hinv Hj Hpass Hi) as (Hreq&Hex&Hleft).
  destruct (main_reach_counted hash rdtsc cfg _ V0 r h i Hr Hi) as (n&Hn&Hsum).
  rewrite Hleft, trace_batches_concat in Hsum. cbn [concat] in Hsum. change (refused []) with O in Hsum.
  rewrite Nat.add_0_r in Hsum. rewrite trace_batches_concat in Hreq. rewrite <- Hreq, <- Hsum.
  apply executed_counts; try done. apply Hinv.
Qed.

(** C10: what a run reports: when one node has passed the final barrier, the
    statistics of every node count exactly the lines of its trace: the accepted
    requests are all completed, once each, the reads and the writes among them
    are counted as such, every other request is an error, and each latency
    histogram holds one sample per completed operation of its kind. *)
Theorem statistics_of_trace (r : Run C S) h i j (Hcfg : config_ok cfg)
    (Hr : main_reach hash rdtsc cfg (trace_batches dataset batch_size early) V0 r h) (Hids : ids_fit h)
    (Hj : is_node j) (Hpass : mains r j = MPassed) (Hi : is_node i) :
  let reqs := parsed_requests (lines_of (dataset i)) in
  let ok := List.filter accepted reqs in
  let n_reads := length (List.filter is_get ok) in
  let n_writes := length (List.filter (λ req, negb (is_get req)) ok) in
  let st := stats (nodes (cluster r) i) in
  rs_ok_ops st = Z.of_nat (length ok) ∧ rs_read_ops st = Z.of_nat n_reads ∧ rs_write_ops st = Z.of_nat n_writes ∧
  rs_error_ops st = w64 (Z.of_nat (length reqs - length ok)) ∧ rs_total_ops st = w64 (Z.of_nat (length reqs)) ∧
  (∃ xs, length xs = n_reads ∧ rs_read_latency st = record_all xs empty_histogram) ∧
  (∃ xs, length xs = n_writes ∧ rs_write_latency st = record_all xs empty_histogram).
Proof.
  intros reqs ok n_reads n_writes st.
  destruct (counts_stats _ _ _ (passed_counts r h i j Hcfg Hr Hids Hj Hpass Hi)) as (Ho&Hrd&Hw&He&Ht&Hlr&Hlw).
  fold reqs st in Ho, Hrd, Hw, He, Ht, Hlr, Hlw. rewrite gets_expected in *. fold ok n_reads in Hrd, Hw, Hlr, Hlw.
  unfold expected in Ho, Hw, Ht, Hlw. fold ok in Ho, Hw, Ht, Hlw. rewrite length_fmap in Ho, Hw, Ht, Hlw.
  pose proof (length_filter_neg is_get ok) as Hsplit. fold n_reads n_writes in Hsplit.
  pose proof (refused_accepted reqs) as Hrf. fold ok in Hrf.
  replace (length ok - n_reads)%nat with n_writes in Hw, Hlw by lia.
  replace (length reqs - length ok)%nat with (refused reqs) by lia.
  replace (length ok + refused reqs)%nat with (length reqs) in Ht by lia.
  destruct Hlr as (xs&_&Hx&Hxn), Hlw as (ys&_&Hy&Hyn). split_and!; try done; by eexists.
Qed.

(** ** The aggregated report *)

(** The clock readings of a run fit their type. *)
Definition times_fit (t : RunTimes) : Prop :=
  Forall is_u64 [rt_real_start_ns t; rt_work_done_ns t; rt_real_end_ns t; rt_tsc_hz t].

(** A run of [n] completed operations, [k] of them reads. *)
Record run_counts (run : NodeRun) (n k : nat) : Prop := {
  rc_recorded : recorded_run run;
  rc_small : Z.of_nat n < 2 ^ 56;
  rc_le : (k ≤ n)%nat;
  rc_ok : rs_ok_ops (nr_stats run) = Z.of_nat n;
  rc_reads : rs_read_ops (nr_stats run) = Z.of_nat k;
  rc_writes : rs_write_ops (nr_stats run) = Z.of_nat (n - k);
  rc_read_samples : Forall is_u64 (nr_reads run) ∧ length (nr_reads run) = k;
  rc_write_samples : Forall is_u64 (nr_writes run) ∧ length (nr_writes run) = (n - k)%nat
}.

(** The run behind the file a node writes. *)
Lemma counts_run i t ops e (s : Node S) : is_node i → times_fit t → counts ops e s →
  ∃ run, run_counts run (length ops) (gets ops) ∧ file_of run = write_stats_csv i t (stats s).
Proof.
  intros Hi Ht Hs. destruct (counts_stats ops e s Hs) as (Ho&Hr&Hw&_&_&Hrs&Hws). pose proof (cs_small _ _ _ Hs).
  pose proof (gets_le ops). pose proof (samples_sum _ _ Hrs) as [Hrh _]. pose proof (samples_sum _ _ Hws) as [Hwh _].
  destruct Hrs as (xs&Hxs&Hlx&Hrx), Hws as (ys&Hys&Hly&Hwy). unfold times_fit in Ht. split_words.
  exists {| nr_id := i; nr_times := t; nr_stats := stats s; nr_reads := xs; nr_writes := ys |}.
  split; [|done]. split; try done. split; [|done..]. split; cbn [nr_id nr_times nr_stats]; try done.
  all: rewrite ?Ho, ?Hr, ?Hw; unfold is_u64, is_node in *; lia.
Qed.

End Outcome.

(** Three runs and the number of operations in each. *)
Lemma three_runs_report r1 r2 r3 n1 n2 n3 k1 k2 k3 :
  run_counts r1 n1 k1 → run_counts r2 n2 k2 → run_counts r3 n3 k3 →
  ∃ duration rest, aggregate [Some (file_of r1); Some (file_of r2); Some (file_of r3)] =
    Returns 0 (cluster_items 3 duration (Z.of_nat (n1 + n2 + n3)) (Z.of_nat (k1 + k2 + k3))
                 (Z.of_nat (n1 + n2 + n3 - (k1 + k2 + k3))) ++ rest).
Proof.
  intros [Hc1 Hs1 Hg1 Ho1 Hr1 Hw1 [Hf1 Hl1] [Hv1 Hm1]] [Hc2 Hs2 Hg2 Ho2 Hr2 Hw2 [Hf2 Hl2] [Hv2 Hm2]]
    [Hc3 Hs3 Hg3 Ho3 Hr3 Hw3 [Hf3 Hl3] [Hv3 Hm3]].
  destruct (report_defined [r1; r2; r3]) as (output&Hout&(duration&latency&each&_&_&_&_&->)); [done| | | |].
  - by apply Forall_cons_2, Forall_cons_2, Forall_singleton.
  - split; cbn [fmap list_fmap concat]; [by repeat (apply Forall_app; split)|rewrite !length_app; cbn [length]; lia].
  - split; cbn [fmap list_fmap concat]; [by repeat (apply Forall_app; split)|rewrite !length_app; cbn [length]; lia].
  - exists duration. eexists. cbn [fmap list_fmap length] in Hout. etransitivity; [exact Hout|]. do 2 f_equal.
    unfold zsum. cbn [fmap list_fmap foldr]. rewrite Ho1, Ho2, Ho3, Hr1, Hr2, Hr3, Hw1, Hw2, Hw3.
    f_equal; rewrite w64_small by (unfold is_u64; lia); lia.
Qed.

(** The requests the driver makes of lines, whatever their order. *)
Lemma parsed_perm ls ls' : ls ≡ₚ ls' →
  List.filter accepted (parsed_requests ls) ≡ₚ List.filter accepted (parsed_requests ls').
Proof.
  intros Hp. pose proof (omap_Permutation (λ line, request_of <$> parse_line_view line) ls ls' Hp) as Hr.
  fold (parsed_requests ls) (parsed_requests ls') in Hr.
  induction Hr as [|x l1 l2 _ IH|x y l|l1 l2 l3 _ IH1 _ IH2]; cbn [List.filter]; [done| | |by etransitivity].
  - destruct (accepted x); [by constructor|done].
  - destruct (accepted x), (accepted y); (done || constructor).
Qed.

(** The counts for the lines of three shares. *)
Lemma shares_counts hash (cfg : Z → Config) (share : Z → list bytes) lines :
  share 1 ++ share 2 ++ share 3 ≡ₚ lines →
  let reqs := List.filter accepted (parsed_requests lines) in
  let part i := expected hash (cfg i) (parsed_requests (share i)) in
  (length (part 1%Z) + length (part 2%Z) + length (part 3%Z) = length reqs)%nat ∧
  (gets (part 1%Z) + gets (part 2%Z) + gets (part 3%Z) = length (List.filter is_get reqs))%nat.
Proof.
  intros Hp reqs part. pose proof (parsed_perm _ _ Hp) as Hperm.
  assert (parsed_requests (share 1 ++ share 2 ++ share 3) =
    parsed_requests (share 1) ++ parsed_requests (share 2) ++ parsed_requests (share 3)) as Happ
    by (unfold parsed_requests; by rewrite !omap_app).
  rewrite Happ, !List.filter_app in Hperm. unfold part. rewrite !gets_expected. unfold expected. rewrite !length_fmap.
  pose proof (Permutation_length Hperm) as Hlen. rewrite !length_app in Hlen. fold reqs in Hlen, Hperm. split; [lia|].
  assert (∀ l, length (List.filter is_get l) = gets ((λ req, (br_op req, [])) <$> l)) as Hg.
  { intros l. unfold gets. symmetry. by apply length_filter_fmap. }
  rewrite (Hg reqs), <- (gets_perm _ _ (fmap_Permutation _ _ _ Hperm)), !fmap_app, !gets_app, !Hg. lia.
Qed.

(** Lines read alike: every operation becomes a request of its kind. *)
Lemma alike_counts (hash : bytes → Z) (cfg : Config) max_ops lines : let ops := TraceGen.accepted max_ops 0 lines default_op in
  let reqs := List.filter accepted (parsed_requests (ops.*1)) in
  Forall read_alike ops → length reqs = length ops ∧
    length (List.filter is_get reqs) = length (List.filter (λ o, bool_decide (po_op o.2 = "G"%char)) ops).
Proof.
  intros ops reqs Halike. pose proof (alike_contents hash cfg max_ops lines Halike) as Hc. fold ops in Hc.
  split.
  - apply (f_equal length) in Hc. unfold expected in Hc. by rewrite !length_fmap in Hc.
  - apply (f_equal gets) in Hc. rewrite gets_expected in Hc. fold reqs in Hc. rewrite Hc.
    unfold gets. by apply length_filter_fmap.
Qed.

(** What an experiment reports, from the dataset to the summary printed: the
    generator splits the dataset, three drivers replay the files, and each writes
    its statistics in some state after it has passed the final barrier.  The
    aggregator then ends with code 0, and the counts it prints are those of the
    requests the driver's parser reads in the lines taken from the dataset, plus
    at most one padding read per node; these are the dataset's operations if its
    lines are read alike by both parsers. *)
Theorem experiment_report {C S : Type} `{Chan : Channel C} `{!ChannelLaws C} `{Store : ReplicaStore S}
    (hash : bytes → Z) `{!ReplicaStoreLaws hash S} (rdtsc : Z → nat → Z) (cfg : Z → Config) (V0 : MapType)
    (batch_size : Z → Z) (early : Z → nat → Z → bool)
    (max_ops : Z) (multinode_writes : bool) (content : bytes) (g : GenState)
    (r : Z → Run C S) (h : Z → History) (times : Z → RunTimes) (Hcfg : config_ok cfg)
    (Hgen : generate 3 max_ops multinode_writes content = Some g)
    (Hr : ∀ i, is_node i → main_reach hash rdtsc cfg (trace_batches (node_file g) batch_size early) V0 (r i) (h i))
    (Hids : ∀ i, is_node i → ids_fit (h i)) (Hpass : ∀ i, is_node i → mains (r i) i = MPassed)
    (Htimes : ∀ i, is_node i → times_fit (times i)) :
  let ops := TraceGen.accepted max_ops 0 (lines_of content) default_op in
  let reqs := List.filter accepted (parsed_requests (ops.*1)) in
  let n_reads := length (List.filter is_get reqs) in
  let file i := Some (write_stats_csv i (times i) (stats (nodes (cluster (r i)) i))) in
  (∃ (padding : nat) duration rest, (padding ≤ 3)%nat ∧
    aggregate [file 1; file 2; file 3] =
      Returns 0 (cluster_items 3 duration (Z.of_nat (length reqs + padding)) (Z.of_nat (n_reads + padding))
                   (Z.of_nat (length reqs - n_reads)) ++ rest)) ∧
  (Forall read_alike ops →
    length reqs = length ops ∧ n_reads = length (List.filter (λ o, bool_decide (po_op o.2 = "G"%char)) ops)).
Proof.
  intros ops reqs n_reads file. split; [|apply (alike_counts hash (cfg 1))].
  destruct (node_file_lines max_ops multinode_writes content g hash cfg Hgen) as (share&Hall&Hshare).
  fold ops in Hall, Hshare. set (part i := expected hash (cfg i) (parsed_requests (share i))).
  assert (∀ i, is_node i → ∃ (p : nat) run, (p ≤ 1)%nat ∧ Some (file_of run) = file i ∧
    run_counts run (length (part i) + p) (gets (part i) + p)) as Hnode.
  { intros i Hi. destruct (Hshare i Hi) as [_ (padding&Hpad&Hexp)].
    pose proof (passed_counts hash rdtsc cfg V0 (node_file g) batch_size early (r i) (h i) i i
      Hcfg (Hr i Hi) (Hids i Hi) Hi (Hpass i Hi) Hi) as Hc.
    rewrite Hexp in Hc. fold (part i) in Hc. destruct (counts_run i (times i) _ _ _ Hi (Htimes i Hi) Hc) as (run&Hrun&Hf).
    assert (gets padding = length padding ∧ (length padding ≤ 1)%nat) as [Hgp Hlp]
      by (destruct Hpad as [->| ->]; split; try done; cbn; lia).
    rewrite length_app, gets_app, Hgp in Hrun. exists (length padding), run. unfold file. by rewrite Hf. }
  destruct (Hnode 1 ltac:(done)) as (p1&r1&Hp1&Hf1&H1), (Hnode 2 ltac:(done)) as (p2&r2&Hp2&Hf2&H2),
    (Hnode 3 ltac:(done)) as (p3&r3&Hp3&Hf3&H3).
  destruct (three_runs_report _ _ _ _ _ _ _ _ _ H1 H2 H3) as (duration&rest&Hagg).
  exists (p1 + p2 + p3)%nat, duration, rest. split; [lia|]. rewrite <- Hf1, <- Hf2, <- Hf3, Hagg.
  destruct (shares_counts hash cfg share _ Hall) as [Hlen Hgets]. fold reqs in Hlen, Hgets. fold n_reads in Hgets.
  unfold part. f_equal. f_equal. f_equal; lia.
Qed.

(** C3: what an experiment reports, from the dataset to the summary printed, on
    the shared memory with payloads kept coherent: the generator splits the
    dataset, three drivers replay the files, one access to the rings at a time,
    through store buffers and write-combining buffers, and each writes its
    statistics in some state after it has passed the final barrier.  The
    aggregator then ends with code 0, and the counts it prints are those of the
    requests, the reads and the writes that the driver's parser reads in the
    lines the generator took from the dataset, plus at most one padding read per
    node.  They are the numbers of the dataset's operations and reads if its
    lines are read alike by both parsers ([read_alike]); lines that are not, the
    driver may skip. *)
Theorem concurrent_experiment_report {S : Type} `{Store : ReplicaStore S}
    (hash : bytes → Z) `{!ReplicaStoreLaws hash S} (rdtsc : Z → nat → Z) (cfg : Z → Config) (V0 : MapType)
    (coherent : bool) (batch_size : Z → Z) (early : Z → nat → Z → bool)
    (max_ops : Z) (multinode_writes : bool) (content : bytes) (g : GenState)
    (r : Z → Run Machine S) (h : Z → History) (times : Z → RunTimes)
    (Hcoherent : coherent = true) (Hcfg : config_ok cfg)
    (Hgen : generate 3 max_ops multinode_writes content = Some g)
    (Hr : ∀ i, is_node i →
      conc_main_reach coherent hash rdtsc cfg (trace_batches (node_file g) batch_size early) V0 (r i) (h i))
    (Hids : ∀ i, is_node i → ids_fit (h i)) (Hpass : ∀ i, is_node i → mains (r i) i = MPassed)
    (Htimes : ∀ i, is_node i → times_fit (times i)) :
  let ops := TraceGen.accepted max_ops 0 (lines_of content) default_op in
  let reqs := List.filter accepted (parsed_requests (ops.*1)) in
  let n_reads := length (List.filter is_get reqs) in
  let file i := Some (write_stats_csv i (times i) (stats (nodes (cluster (r i)) i))) in
  (∃ (padding : nat) duration rest, (padding ≤ 3)%nat ∧
    aggregate [file 1; file 2; file 3] =
      Returns 0 (cluster_items 3 duration (Z.of_nat (length reqs + padding)) (Z.of_nat (n_reads + padding))
                   (Z.of_nat (length reqs - n_reads)) ++ rest)) ∧
  (Forall read_alike ops →
    length reqs = length ops ∧ n_reads = length (List.filter (λ o, bool_decide (po_op o.2 = "G"%char)) ops)).
Proof.
  subst coherent. intros ops reqs n_reads file. split; [|apply (alike_counts hash (cfg 1))].
  set (traces := trace_batches (node_file g) batch_size early) in *.
  assert (∃ a : Z → Run (list BandleMessage) S, ∀ i, is_node i →
    main_reach hash rdtsc cfg traces V0 (a i) (h i) ∧ same_view (r i) (a i)) as [a Ha].
  { destruct (conc_run_simulated hash rdtsc cfg V0 traces (r 1) (h 1) (Hr 1 ltac:(done))) as (a1&H1&[Hv1 _]).
    destruct (conc_run_simulated hash rdtsc cfg V0 traces (r 2) (h 2) (Hr 2 ltac:(done))) as (a2&H2&[Hv2 _]).
    destruct (conc_run_simulated hash rdtsc cfg V0 traces (r 3) (h 3) (Hr 3 ltac:(done))) as (a3&H3&[Hv3 _]).
    exists (λ i, if i =? 1 then a1 else if i =? 2 then a2 else a3). intros i Hi.
    assert (i = 1 ∨ i = 2 ∨ i = 3) as [-> |[-> | ->]] by (unfold is_node in Hi; lia); done. }
  destruct (experiment_report hash rdtsc cfg V0 batch_size early max_ops multinode_writes content g a h times
    Hcfg Hgen) as [(padding&duration&rest&Hpad&Hagg) _]; [|done| |done|].
  - intros i Hi. by apply Ha.
  - intros i Hi. rewrite (sv_mains _ _ (proj2 (Ha i Hi))). by apply Hpass.
  - exists padding, duration, rest. split; [done|]. unfold file.
    rewrite <- (sv_nodes _ _ (proj2 (Ha 1 ltac:(done)))), <- (sv_nodes _ _ (proj2 (Ha 2 ltac:(done)))),
      <- (sv_nodes _ _ (proj2 (Ha 3 ltac:(done)))). exact Hagg.
Qed.

(** ** A dataset of three operations *)
Module Examples.
Import Agreement.Schedule Agreement.Examples KVStore.Examples Lifecycle.Examples Experiment.Examples.

#[local] Existing Instance rep.
#[local] Existing Instance rep_laws.

(** Node 1 writes, asks for an operation that does not exist, and deletes in a
    second batch; node 2 reads. *)
Definition refusing (i : Z) : bytes :=
  if i =? 1 then unlines [str "0,P k:one"; str "3,X k"; str "5,D k"] else if i =? 2 then unlines [str "2,G k"]
  else unlines [str "# nothing"].

Definition refusing_schedule : list Move :=
  let batch i := Main i :: (Thread <$> [Admit i; Send i; Send i; SelfDeliver i; Return i]) in
  batch 1 ++ submission 1 ++ submission 2 ++ [Main 3] ++
  (Thread <$> noop3 5000 ++ noop3_rest 5000 ++ deliver 1 2 ++ deliver 1 3 ++ deliver 2 1 ++ deliver 2 3 ++
     deliver 3 1 ++ deliver 3 2) ++ [Main 1; Main 2; Main 3; Main 2].

Abbreviation refused_run := (outcome refusing refusing_schedule).

Lemma refused_run_reached : main_reach length_hash clock cfg
  (trace_batches refusing (fun _ => 2) (fun _ _ _ => false)) V0 refused_run.1 refused_run.2.
Proof. apply outcome_reach. by vm_compute. Qed.

Lemma refused_run_ids : ids_fit refused_run.2.
Proof. apply Completion.Examples.ids_fit_check. by vm_compute. Qed.

Lemma refused_run_passed : mains refused_run.1 2 = MPassed.
Proof. by vm_compute. Qed.

Lemma statistics_of_trace_witness :
  let st := stats (nodes (cluster refused_run.1) 1) in
  rs_ok_ops st = 2 ∧ rs_read_ops st = 0 ∧ rs_write_ops st = 2 ∧ rs_error_ops st = 1 ∧ rs_total_ops st = 3.
Proof.
  destruct (statistics_of_trace length_hash clock cfg V0 refusing (fun _ => 2) (fun _ _ _ => false)
    refused_run.1 refused_run.2 1 2 cfg_ok refused_run_reached
    refused_run_ids node2' refused_run_passed node1) as (Hok&Hrd&Hwr&He&Ht&_).
  cbv zeta. rewrite Hok, Hrd, Hwr, He, Ht. clear. by vm_compute.
Defined.

(** All three drivers past the barrier. *)
Definition whole_schedule : list Move := schedule ++ [Main 1; Main 3].

Definition whole_accesses : list (Shared KVStore → list ConcRunSchedule.Access) :=
  whole_schedule ≫= ConcRunSchedule.parts_of.

Abbreviation done := (ConcRunSchedule.played (node_file generated) whole_accesses).

Lemma done_reached : conc_main_reach true length_hash clock cfg
  (trace_batches (node_file generated) (fun _ => 2) (fun _ _ _ => false)) V0 done.1 done.2.
Proof. apply ConcRunSchedule.played_reach. by vm_compute. Qed.

Lemma done_ids : ids_fit done.2.
Proof. apply Completion.Examples.ids_fit_check. by vm_compute. Qed.

Lemma done_passed i : is_node i → mains done.1 i = MPassed.
Proof.
  intros Hi. assert (i = 1 ∨ i = 2 ∨ i = 3) as [-> |[-> | ->]] by (unfold is_node in Hi; lia); by vm_compute.
Qed.

Lemma times_ok : times_fit StatsFile.Examples.times.
Proof. unfold times_fit. eval_forall. Qed.

Lemma concurrent_experiment_report_witness : ∃ (padding : nat) duration rest, (padding ≤ 3)%nat ∧
  aggregate ((λ i, Some (write_stats_csv i StatsFile.Examples.times (stats (nodes (cluster done.1) i)))) <$> [1; 2; 3]) =
    Returns 0 (cluster_items 3 duration (Z.of_nat (3 + padding)) (Z.of_nat (1 + padding)) 2 ++ rest).
Proof.
  exact (proj1 (concurrent_experiment_report length_hash clock cfg V0 true (fun _ => 2) (fun _ _ _ => false) 0 true dataset
    generated (λ _, done.1) (λ _, done.2) (λ _, StatsFile.Examples.times) eq_refl cfg_ok ltac:(by vm_compute)
    (λ _ _, done_reached) (λ _ _, done_ids) done_passed
    (λ _ _, times_ok))).
Defined.

End Examples.
