(* ===== verification/Layout.v ===== *)
(** The shared memory of [include/message_queue.h] and [include/cxl_memory.h],
    byte by byte: the declarations of [BandleSharedState] and
    [BandleNonHwccState] as types of the x86-64 System V ABI, the size and the
    offsets the ABI gives them, and where the payload of a ring slot lies.
    [shared_memory_layout] shows that both structures fit the regions they are
    mapped to and that every 16-byte store of a payload is aligned and stays
    inside its own slot. *)
From S2P Require Import Prelude Message Ring.

(** ** Types and their layout

    A scalar is aligned to its size; [Struct a fields] has [alignas(a)]. *)
Inductive ctype :=
| Scalar (size : Z)
| Array (elem : ctype) (count : Z)
| Struct (alignas : Z) (fields : list ctype).

Definition align_up (off a : Z) : Z := (off + a - 1) / a * a.

Fixpoint alignof (t : ctype) : Z :=
  match t with
  | Scalar size => size
  | Array elem _ => alignof elem
  | Struct alignas fields => fold_right (fun f a => Z.max (alignof f) a) alignas fields
  end.

Fixpoint sizeof (t : ctype) : Z :=
  match t with
  | Scalar size => size
  | Array elem count => sizeof elem * count
  | Struct _ fields =>
      align_up (fold_left (fun off f => align_up off (alignof f) + sizeof f) fields 0) (alignof t)
  end.

(** The offset of the [k]-th field. *)
Fixpoint field_offset (off : Z) (k : nat) (fields : list ctype) : Z :=
  match fields with
  | [] => off
  | f :: fields =>
      match k with
      | O => align_up off (alignof f)
      | S k => field_offset (align_up off (alignof f) + sizeof f) k fields
      end
  end.

Definition offsetof (t : ctype) (k : nat) : Z :=
  match t with Struct _ fields => field_offset 0 k fields | _ => 0 end.

Definition u8 : ctype := Scalar 1.
Definition u32 : ctype := Scalar 4.
Definition u64 : ctype := Scalar 8.

(** ** The declarations *)
Definition bandle_payload : ctype :=
  Struct 1 [u64; u64; u64; u64; u64; u64; u8; u8; u8; u8; u32; u32; Array u8 kMaxValueBytes].

Definition bandle_descriptor : ctype :=
  Struct 1 [u64; u8; Array u8 7; u64; u64; u64; u64; u64; u64; u8; u8; u8; u8; u32; u32].

Definition bandle_message : ctype := Struct 1 [u64; u8; bandle_payload].

Definition spsc_ring_meta : ctype := Struct 64 [u64; u64].

Definition completion_slot : ctype := Struct 64 [u64; u64].

(** An array indexed by the pair of nodes of a ring. *)
Definition per_ring (t : ctype) : ctype := Array (Array t (kMaxBandleNodes + 1)) (kMaxBandleNodes + 1).

Definition bandle_shared_state : ctype :=
  Struct 64 [u64; Array u64 (kMaxBandleNodes + 1); Array completion_slot kCompletionSlots;
             per_ring spsc_ring_meta; per_ring (Array bandle_descriptor kBandleRingCapacity)].

Definition bandle_non_hwcc_state : ctype :=
  Struct 64 [per_ring (Array (Array u8 kMaxValueBytes) kBandleRingCapacity)].

Definition HWCC_SIZE : Z := 512 * 1024 * 1024.
Definition NON_HWCC_SIZE : Z := 30 * 1024 * 1024 * 1024.

(** The two regions of the mapping, from its base: [hwcc_ptr] and
    [non_hwcc_ptr]. *)
Definition hwcc_offset : Z := 0.
Definition non_hwcc_offset : Z := HWCC_SIZE.
Definition map_length : Z := HWCC_SIZE + NON_HWCC_SIZE.

(** [payloads[from][to][slot][byte]] in [BandleNonHwccState]. *)
Definition payload_offset (from to slot byte : Z) : Z :=
  ((from * (kMaxBandleNodes + 1) + to) * kBandleRingCapacity + slot) * kMaxValueBytes + byte.

(** [descs[from][to][slot]] in [BandleSharedState]. *)
Definition descriptor_offset (from to slot : Z) : Z :=
  offsetof bandle_shared_state 4 +
    ((from * (kMaxBandleNodes + 1) + to) * kBandleRingCapacity + slot) * sizeof bandle_descriptor.

(** The indices of the arrays. *)
Definition ring_slot (from to slot : Z) : Prop :=
  0 ≤ from ≤ kMaxBandleNodes ∧ 0 ≤ to ≤ kMaxBandleNodes ∧ 0 ≤ slot < kBandleRingCapacity.

(** The slot and the byte in it an offset belongs to. *)
Definition slot_of_offset (off : Z) : Z * Z * Z * Z :=
  let cell := off / kMaxValueBytes in
  let pair := cell / kBandleRingCapacity in
  (pair / (kMaxBandleNodes + 1), pair mod (kMaxBandleNodes + 1), cell mod kBandleRingCapacity,
   off mod kMaxValueBytes).

Lemma slot_of_payload_offset from to slot byte : ring_slot from to slot → 0 ≤ byte < kMaxValueBytes →
  slot_of_offset (payload_offset from to slot byte) = (from, to, slot, byte).
Proof.
  unfold ring_slot, slot_of_offset, payload_offset, kMaxBandleNodes, kBandleRingCapacity, kMaxValueBytes.
  intros (?&?&?) ?. rewrite Z.div_add_l by lia. rewrite (Z.div_small byte) by lia.
  rewrite Z.add_0_r, Z.div_add_l by lia. rewrite (Z.div_small slot) by lia. rewrite Z.add_0_r.
  rewrite Z.div_add_l by lia. rewrite (Z.div_small to) by lia. rewrite Z.add_0_r.
  rewrite (Z.add_comm (from * _) to), Z.mod_add, (Z.mod_small to) by lia.
  rewrite (Z.add_comm ((to + _) * _) slot), Z.mod_add, (Z.mod_small slot) by lia.
  rewrite (Z.add_comm (_ * 1088) byte), Z.mod_add, (Z.mod_small byte) by lia. done.
Qed.

(** The sixteen-byte stores of a payload of [len] bytes: the offsets
    [nt_store_payload_padded] writes to. *)
Definition store_offsets (from to slot : Z) (len : nat) : list Z :=
  (fun k => payload_offset from to slot (16 * Z.of_nat k)) <$> seq 0 (pad16 len / 16).

(** C36: the shared state and the payloads fit the regions they are mapped to,
    so that no ring reaches into another region; every 16-byte store of a
    payload that fits a slot is 16-byte aligned, as [_mm_stream_si128] demands,
    and lies inside its own slot; and different slots share no byte. *)
Theorem shared_memory_layout :
  sizeof bandle_descriptor = 80 ∧
  (sizeof bandle_shared_state = 46138432 ∧ sizeof bandle_shared_state ≤ HWCC_SIZE) ∧
  (sizeof bandle_non_hwcc_state = 570425344 ∧ sizeof bandle_non_hwcc_state ≤ NON_HWCC_SIZE) ∧
  (∀ from to slot len off, ring_slot from to slot → (len ≤ Z.to_nat kMaxValueBytes)%nat →
     off ∈ store_offsets from to slot len →
     (non_hwcc_offset + off) mod 16 = 0 ∧
     payload_offset from to slot 0 ≤ off ∧ off + 16 ≤ payload_offset from to slot kMaxValueBytes ∧
     off + 16 ≤ sizeof bandle_non_hwcc_state) ∧
  (∀ from to slot byte from' to' slot' byte', ring_slot from to slot → ring_slot from' to' slot' →
     0 ≤ byte < kMaxValueBytes → 0 ≤ byte' < kMaxValueBytes →
     payload_offset from to slot byte = payload_offset from' to' slot' byte' →
     from = from' ∧ to = to' ∧ slot = slot' ∧ byte = byte').
Proof.
  split; [done|]. split; [done|]. split; [done|]. split.
  - intros from to slot len off Hslot Hlen (k&->&Hk%elem_of_seq)%list_elem_of_fmap.
    pose proof (pad16_slot (Z.of_nat len) ltac:(unfold kMaxValueBytes in *; lia)) as Hpad. rewrite Nat2Z.id in Hpad.
    pose proof (pad16_bounds len) as [_ Hm]. pose proof (Nat.div_mod_eq (pad16 len) 16) as Hdiv.
    change (sizeof bandle_non_hwcc_state) with 570425344.
    unfold ring_slot, non_hwcc_offset, payload_offset, HWCC_SIZE, kMaxBandleNodes, kBandleRingCapacity, kMaxValueBytes in *.
    split; [|lia].
    replace (512 * 1024 * 1024 + _) with
      ((512 * 65536 + ((from * (3 + 1) + to) * 32768 + slot) * 68 + Z.of_nat k) * 16) by lia.
    apply Z.mod_mul. lia.
  - intros from to slot byte from' to' slot' byte' Hs Hs' Hb Hb' Heq.
    apply (f_equal slot_of_offset) in Heq. rewrite !slot_of_payload_offset in Heq by done.
    by injection Heq.
Qed.
