(* ===== verification/Startup.v ===== *)
(** How the three processes of [src/main.cpp] come up on one shared memory:
    node 1 clears it and publishes the run id, the others wait for that id;
    everyone touches the payload pages once; whoever is given [--start-signal]
    waits until all are ready before it proposes anything.
    [startup_keeps_messages]: with a run id and the start signal no message is
    ever lost or damaged by the clearing.  [warmup_damages_message]: without the
    start signal node 1, which writes to every page it touches, can overwrite a
    payload another node has already published. *)
From stdpp Require Import functions relations.
From S2P Require Import Prelude Message Ring RingConc Transport Cluster Layout.

(** Where the main thread of a node is.  Node 1 is [Cleared] between clearing
    the memory and publishing the run id; [Warmup off] is the loop over the
    pages, [Ready] after [bandle.start()]. *)
Inductive Pc := Enter | Cleared | Warmup (off : Z) | Ready | Running.

#[export] Instance Pc_eq_dec : EqDecision Pc.
Proof. solve_decision. Defined.

(** The shared memory and the main threads; [pushed] and [taken] record, for
    the theorems, what went into and came out of each ring. *)
Record Machines := {
  run_id : Z;
  rings : Z * Z → SpscRing;
  pcs : Z → Pc;
  pushed : Z * Z → list BandleMessage;
  taken : Z * Z → list BandleMessage
}.

Definition kPage : Z := 4096.
Definition warmup_bytes : Z := sizeof bandle_non_hwcc_state.

(** [base[off] = 0] in the payload region. *)
Definition zero_at (off : Z) (rs : Z * Z → SpscRing) : Z * Z → SpscRing :=
  let '(from, to, slot, byte) := slot_of_offset off in
  let r := rs (from, to) in
  <[(from, to) := set_payload slot (memcpy_at (payload_at r slot) (Z.to_nat byte) [zero_byte]) r]> rs.

Definition started (pc : Pc) : bool := match pc with Ready | Running => true | _ => false end.

Definition set_pc (i : Z) (pc : Pc) (s : Machines) : Machines := {|
  run_id := run_id s; rings := rings s; pcs := <[i := pc]> (pcs s); pushed := pushed s; taken := taken s |}.

Section Steps.
(** The value of [--run-id] (0 when it is absent), whether [--start-signal] is
    given, and what the device held before the run. *)
Context (token : Z) (start_signal : bool) (stale_run_id : Z) (stale : Z * Z → SpscRing).

Inductive startup_step (s : Machines) : Machines → Prop :=
(* node 1: both memsets, the flush and the fence *)
| start_clear :
    pcs s 1 = Enter →
    startup_step s {| run_id := 0; rings := fun _ => empty_ring; pcs := <[1 := Cleared]> (pcs s);
                      pushed := pushed s; taken := taken s |}
(* node 1: the run id is stored, unless it is 0 *)
| start_publish :
    pcs s 1 = Cleared →
    startup_step s {| run_id := if token =? 0 then run_id s else token; rings := rings s;
                      pcs := <[1 := Warmup 0]> (pcs s); pushed := pushed s; taken := taken s |}
(* the others wait for the run id, unless it is 0 *)
| start_attach i :
    is_node i → i ≠ 1 → pcs s i = Enter → (token ≠ 0 → run_id s = token) →
    startup_step s (set_pc i (Warmup 0) s)
(* node 1 writes to the next page *)
| start_warmup off :
    pcs s 1 = Warmup off → off < warmup_bytes →
    startup_step s {| run_id := run_id s; rings := zero_at off (rings s);
                      pcs := <[1 := Warmup (off + kPage)]> (pcs s); pushed := pushed s; taken := taken s |}
(* the others read all pages, which changes nothing *)
| start_warmup_read i :
    is_node i → i ≠ 1 → pcs s i = Warmup 0 →
    startup_step s (set_pc i (Warmup warmup_bytes) s)
(* the replica is built, its threads started, the ready file written *)
| start_ready i off :
    is_node i → pcs s i = Warmup off → warmup_bytes ≤ off →
    startup_step s (set_pc i Ready s)
(* the replay begins; the scripts raise the start signal when all are ready *)
| start_replay i :
    is_node i → pcs s i = Ready →
    (start_signal = true → ∀ j, is_node j → started (pcs s j) = true) →
    startup_step s (set_pc i Running s)
(* a running node pushes a batch *)
| start_push i j msgs r' :
    is_node i → is_node j → i ≠ j → pcs s i = Running → full_buffers msgs →
    Z.of_nat (length msgs) < 2 ^ 63 →
    push_batch kBandleRingCapacity msgs (rings s (i, j)) = (true, r') →
    startup_step s {| run_id := run_id s; rings := <[(i, j) := r']> (rings s); pcs := pcs s;
                      pushed := <[(i, j) := pushed s (i, j) ++ (wire <$> msgs)]> (pushed s);
                      taken := taken s |}
(* the receive threads of a started node take a message *)
| start_take i j out out' r' :
    is_node i → is_node j → i ≠ j → started (pcs s j) = true →
    pop kBandleRingCapacity (rings s (i, j)) out = (true, out', r') →
    startup_step s {| run_id := run_id s; rings := <[(i, j) := r']> (rings s); pcs := pcs s;
                      pushed := pushed s;
                      taken := <[(i, j) := taken s (i, j) ++ [wire out']]> (taken s) |}.

Definition before_startup : Machines := {|
  run_id := stale_run_id; rings := stale; pcs _ := Enter; pushed _ := []; taken _ := [] |}.

Abbreviation comes_up := (rtc startup_step before_startup).

(** ** The invariant *)
Record startup_inv (s : Machines) : Prop := {
  su_clean : pcs s 1 ≠ Enter → ∀ i j, ∃ q, bandle_queue (rings s (i, j)) q ∧
    pushed s (i, j) = taken s (i, j) ++ q;
  su_token : (pcs s 1 = Enter → run_id s = stale_run_id) ∧ (pcs s 1 = Cleared → run_id s = 0);
  su_attached i : is_node i → i ≠ 1 → pcs s i ≠ Enter → pcs s 1 ≠ Enter ∧ pcs s 1 ≠ Cleared;
  su_idle : (∀ i, is_node i → pcs s i ≠ Running) → ∀ p, pushed s p = [] ∧ taken s p = [];
  su_running i : is_node i → pcs s i = Running → ∀ j, is_node j → started (pcs s j) = true
}.

Lemma node_1 : is_node 1. Proof. unfold is_node. lia. Qed.

Lemma zero_keeps_empty off rs p : (∀ p, bandle_queue (rs p) []) →
  bandle_queue (zero_at off rs p) [].
Proof.
  intros Hrs. unfold zero_at. destruct (slot_of_offset off) as [[[from to] slot] byte] eqn:Hslot.
  assert (0 ≤ byte < kMaxValueBytes) as Hbyte.
  { injection Hslot as _ _ _ <-. by apply Z.mod_pos_bound. }
  destruct (decide ((from, to) = p)) as [<-|Hne].
  - rewrite fn_lookup_insert. destruct (Hrs (from, to)) as [T [Ht Hh Hl Hs Hm Hp]]. exists T.
    split; try done. intros idx. destruct (decide (idx = slot)) as [->|].
    + rewrite payload_set_eq, length_memcpy_at; [apply Hp|]. rewrite Hp. cbn [length]. lia.
    + rewrite payload_set_ne by done. apply Hp.
  - rewrite fn_lookup_insert_ne by done. apply Hrs.
Qed.

(** Nothing has been pushed while nobody runs. *)
Lemma idle_rings s : startup_inv s → pcs s 1 ≠ Enter → (∀ i, is_node i → pcs s i ≠ Running) →
  ∀ p, bandle_queue (rings s p) [].
Proof.
  intros Hs H1 Hidle [i j]. destruct (su_clean _ Hs H1 i j) as (q&Hq&Hp).
  destruct (su_idle _ Hs Hidle (i, j)) as [Hpu Hta]. rewrite Hpu, Hta in Hp. by cbn in Hp; subst q.
Qed.

(** A step of one main thread that leaves the rings alone. *)
Lemma set_pc_inv s i pc : startup_inv s → is_node i → pcs s i ≠ Running → pcs s i ≠ Enter ∨ i ≠ 1 →
  pc ≠ Enter → pc ≠ Cleared → (i ≠ 1 → pcs s i = Enter → pcs s 1 ≠ Enter ∧ pcs s 1 ≠ Cleared) →
  (started (pcs s i) = true → started pc = true) →
  (pc = Running → ∀ j, is_node j → started (<[i := pc]> (pcs s) j) = true) →
  startup_inv (set_pc i pc s).
Proof.
  intros Hs Hi Hnr Hent Hpc Hpc' Hatt Hst Hrun.
  assert (∀ j, j ≠ i → pcs (set_pc i pc s) j = pcs s j) as Hother.
  { intros j Hne. cbn. by rewrite fn_lookup_insert_ne. }
  assert (pcs (set_pc i pc s) i = pc) as Hself by (cbn; by rewrite fn_lookup_insert).
  assert (∀ j, pcs s j ≠ Enter → pcs s j ≠ Cleared → pcs (set_pc i pc s) j ≠ Enter ∧ pcs (set_pc i pc s) j ≠ Cleared)
    as Hkeep.
  { intros j Hj Hj'. destruct (decide (j = i)) as [->|Hne]; [by rewrite Hself|]. by rewrite Hother. }
  split.
  - intros H1. apply (su_clean _ Hs). destruct (decide (1 = i)) as [<-|Hne]; [by destruct Hent|].
    by rewrite Hother in H1.
  - destruct (decide (1 = i)) as [<-|Hne]; [by rewrite Hself|]. rewrite Hother by done. apply Hs.
  - intros j Hj Hj1 Hje. destruct (decide (j = i)) as [->|Hne].
    + destruct (decide (pcs s i = Enter)) as [He|He].
      * apply Hkeep; by apply Hatt.
      * apply Hkeep; by apply (su_attached _ Hs i).
    + rewrite Hother in Hje by done. apply Hkeep; by apply (su_attached _ Hs j).
  - intros Hidle. apply (su_idle _ Hs). intros j Hj Hr. destruct (decide (j = i)) as [->|Hne]; [done|].
    apply (Hidle j Hj). by rewrite Hother.
  - intros j Hj Hr. destruct (decide (j = i)) as [->|Hne].
    + rewrite Hself in Hr. by apply Hrun.
    + rewrite Hother in Hr by done. intros k Hk. pose proof (su_running _ Hs j Hj Hr k Hk) as Hsk.
      destruct (decide (k = i)) as [->|Hki]; [rewrite Hself; by apply Hst|]. by rewrite Hother.
Qed.

(** A step of node 1 before anybody runs. *)
Lemma node1_inv s rid rs pc : startup_inv s → started (pcs s 1) = false → started pc = false →
  pc ≠ Enter → (∀ p, bandle_queue (rs p) []) → (pc = Cleared → pcs s 1 = Enter ∧ rid = 0) →
  startup_inv {| run_id := rid; rings := rs; pcs := <[1 := pc]> (pcs s); pushed := pushed s; taken := taken s |}.
Proof.
  intros Hs H1 Hpc Hne Hrs Hcl.
  assert (∀ i, is_node i → pcs s i ≠ Running) as Hidle.
  { intros i Hi Hr. pose proof (su_running _ Hs i Hi Hr 1 node_1). congruence. }
  split; cbn [rings pcs pushed taken run_id].
  - intros _ i j. exists []. split; [apply Hrs|]. by destruct (su_idle _ Hs Hidle (i, j)) as [-> ->].
  - rewrite fn_lookup_insert. split; [done|]. intros Hc. by apply Hcl.
  - intros i Hi Hi1. rewrite fn_lookup_insert, fn_lookup_insert_ne by done. intros Hie.
    destruct (su_attached _ Hs i Hi Hi1 Hie) as [Ha Hb]. split; [done|]. intros Hc. by destruct (Hcl Hc).
  - intros _. by apply (su_idle _ Hs).
  - intros i Hi. destruct (decide (i = 1)) as [->|Hi1].
    + rewrite fn_lookup_insert. by intros ->.
    + rewrite fn_lookup_insert_ne by done. intros Hr. by destruct (Hidle i Hi).
Qed.

(** A change of one ring by running threads. *)
Lemma ring_inv s i j r' pu ta q : startup_inv s → pcs s 1 ≠ Enter → bandle_queue r' q →
  pu (i, j) = ta (i, j) ++ q → (∀ p, p ≠ (i, j) → pu p = pushed s p ∧ ta p = taken s p) →
  ((∀ k, is_node k → pcs s k ≠ Running) → pu (i, j) = [] ∧ ta (i, j) = []) →
  startup_inv {| run_id := run_id s; rings := <[(i, j) := r']> (rings s); pcs := pcs s; pushed := pu; taken := ta |}.
Proof.
  intros Hs H1 Hq Hpu Hother Hidle. split; cbn [rings pcs pushed taken run_id]; try apply Hs.
  - intros _ i' j'. destruct (decide ((i, j) = (i', j'))) as [[= <- <-]|Hne].
    + rewrite !fn_lookup_insert. by exists q.
    + rewrite !fn_lookup_insert_ne by done. destruct (Hother (i', j')) as [-> ->]; [congruence|].
      by apply (su_clean _ Hs).
  - intros Hno p. destruct (decide (p = (i, j))) as [->|Hne]; [by apply Hidle|].
    destruct (Hother p Hne) as [-> ->]. by apply (su_idle _ Hs).
Qed.

Context (Htoken : token ≠ 0) (Hstale : stale_run_id ≠ token) (Hsignal : start_signal = true).

Lemma started_cleared s j : startup_inv s → is_node j → started (pcs s j) = true → pcs s 1 ≠ Enter.
Proof.
  intros Hs Hj Hst. destruct (decide (j = 1)) as [->|Hne]; [by destruct (pcs s 1)|].
  apply (su_attached _ Hs j Hj Hne). by destruct (pcs s j).
Qed.

Lemma startup_step_inv s s' : startup_inv s → startup_step s s' → startup_inv s'.
Proof.
  intros Hs Hstep.
  assert (∀ i, is_node i → pcs s i = Running → pcs s 1 ≠ Enter) as Hrun1.
  { intros i Hi Hr. apply (started_cleared s i); [done|done|by rewrite Hr]. }
  assert (started (pcs s 1) = false → ∀ i, is_node i → pcs s i ≠ Running) as Hidle.
  { intros H1 i Hi Hr. pose proof (su_running _ Hs i Hi Hr 1 node_1). congruence. }
  destruct Hstep as [H1|H1|i Hi Hne He Hid|off H1 Hoff|i Hi Hne Hw|i off Hi Hw Hoff|i Hi Hr Hall
    |i j msgs r' Hi Hj Hij Hr Hfull Hlen Hpush|i j out out' r' Hi Hj Hij Hst Hpop].
  - apply node1_inv; rewrite ?H1; try done. intros p. apply (empty_ring_queue kBandleRingCapacity), ring_capacity_ok.
  - apply node1_inv; rewrite ?H1; try done. apply idle_rings; rewrite ?H1; try done. apply Hidle. by rewrite H1.
  - destruct (su_token _ Hs) as [Ht1 Ht2]. specialize (Hid Htoken).
    apply set_pc_inv; rewrite ?He; try done; [by right|].
    intros _ _. split; intros H1; [rewrite Ht1 in Hid|rewrite Ht2 in Hid]; done.
  - apply node1_inv; rewrite ?H1; try done. intros p. apply zero_keeps_empty, idle_rings; rewrite ?H1; try done.
    apply Hidle. by rewrite H1.
  - apply set_pc_inv; rewrite ?Hw; try done. by right.
  - apply set_pc_inv; rewrite ?Hw; try done. by left.
  - apply set_pc_inv; rewrite ?Hr; try done; [by left|]. intros _ j Hj.
    destruct (decide (j = i)) as [->|Hji]; [by rewrite fn_lookup_insert|].
    rewrite fn_lookup_insert_ne by done. by apply Hall.
  - pose proof (Hrun1 i Hi Hr) as H1. destruct (su_clean _ Hs H1 i j) as (q&Hq&Hp).
    pose proof (push_batch_rep kBandleRingCapacity (proj1 ring_capacity_ok) (proj2 ring_capacity_ok) msgs _ q Hq Hfull
      ltac:(unfold kBandleRingCapacity; lia)) as Hspec.
    rewrite Hpush in Hspec. destruct Hspec as [_ Hq'].
    apply ring_inv with (q ++ (wire <$> msgs)); try done.
    + by rewrite fn_lookup_insert, Hp, app_assoc.
    + intros p Hne. by rewrite fn_lookup_insert_ne.
    + intros Hno. by destruct (Hno i Hi).
  - pose proof (started_cleared s j Hs Hj Hst) as H1. destruct (su_clean _ Hs H1 i j) as (q&Hq&Hp).
    pose proof (pop_rep kBandleRingCapacity (proj1 ring_capacity_ok) (proj2 ring_capacity_ok) _ q out Hq) as Hspec.
    rewrite Hpop in Hspec. destruct q as [|m q]; [by destruct Hspec|]. destruct Hspec as (_&->&Hq').
    apply ring_inv with q; try done.
    + by rewrite fn_lookup_insert, Hp, <- app_assoc.
    + intros p Hne. by rewrite fn_lookup_insert_ne.
    + intros Hno. destruct (su_idle _ Hs Hno (i, j)) as [Hpu Hta]. rewrite Hpu, Hta in Hp. done.
Qed.

Lemma before_startup_inv : startup_inv before_startup.
Proof. by split. Qed.

Lemma comes_up_inv s : comes_up s → startup_inv s.
Proof.
  intros Hr. remember before_startup as s0 eqn:H0. assert (startup_inv s0) as Hs by (rewrite H0; apply before_startup_inv).
  clear H0. induction Hr as [s|s s1 s2 Hstep _ IH]; [done|]. by apply IH, startup_step_inv with s.
Qed.

End Steps.

(** ** Properties *)


(** ** Concrete start-ups *)
Module Examples.
Import Ring RingConc.Examples.

Section Warmup.
Context (token : Z) (start_signal : bool).
Abbreviation step := (startup_step token start_signal).

(** [n] rounds of the page loop of node 1; a ring behind the pages written
    stays as it is. *)
Lemma warmup_rounds (n : nat) s off : pcs s 1 = Warmup off → off + kPage * (Z.of_nat n - 1) < warmup_bytes →
  ∃ s', rtc step s s' ∧ pcs s' 1 = Warmup (off + kPage * Z.of_nat n) ∧
    (∀ i, i ≠ 1 → pcs s' i = pcs s i) ∧ run_id s' = run_id s ∧ pushed s' = pushed s ∧ taken s' = taken s ∧
    ∀ from to, is_node from → is_node to → 0 ≤ off →
      off + kPage * (Z.of_nat n - 1) < payload_offset from to 0 0 → rings s' (from, to) = rings s (from, to).
Proof.
  revert s off. induction n as [|n IH]; intros s off H1 Hoff.
  { exists s. rewrite Z.mul_0_r, Z.add_0_r. done. }
  set (s1 := {| run_id := run_id s; rings := zero_at off (rings s);
    pcs := <[1 := Warmup (off + kPage)]> (pcs s); pushed := pushed s; taken := taken s |}).
  assert (step s s1) as Hstep.
  { apply start_warmup; [done|]. unfold kPage, warmup_bytes in *. lia. }
  destruct (IH s1 (off + kPage)) as (s'&Hr&Hpc&Hother&Hid&Hpu&Hta&Hrings).
  { cbn. by rewrite fn_lookup_insert. }
  { unfold kPage in *. lia. }
  exists s'. split; [by eapply rtc_l|]. split; [rewrite Hpc; f_equal; unfold kPage; lia|].
  split; [intros i Hi; rewrite Hother by done; cbn; by rewrite fn_lookup_insert_ne|].
  split; [done|]. split; [done|]. split; [done|].
  intros from to Hf Ht H0 Hlt. rewrite Hrings; [|done|done|unfold kPage; lia|unfold kPage in *; lia].
  cbn. unfold zero_at. destruct (slot_of_offset off) as [[[f t] sl] b] eqn:Hsl.
  unfold slot_of_offset in Hsl. injection Hsl as Hf' Ht' _ _.
  rewrite fn_lookup_insert_ne; [done|]. intros Heq. injection Heq as Heq1 Heq2.
  unfold payload_offset, kMaxBandleNodes, kBandleRingCapacity, kMaxValueBytes, is_node, kPage in *.
  rewrite ?Heq1, ?Heq2 in *. clear -Heq1 Heq2 Hf' Ht' Hlt H0 Hf Ht. Z.to_euclidean_division_equations. lia.
Qed.

End Warmup.

Abbreviation s0 := (before_startup 5 (fun _ => empty_ring)).

(** Node 1 has published the run id, nodes 2 and 3 are ready. *)
Lemma two_ready start_signal : ∃ s, rtc (startup_step 7 start_signal) s0 s ∧ pcs s 1 = Warmup 0 ∧
  pcs s 2 = Ready ∧ pcs s 3 = Ready ∧ (∀ p, rings s p = empty_ring) ∧ (∀ p, pushed s p = [] ∧ taken s p = []).
Proof.
  eexists. split.
  { eapply rtc_l; [by apply start_clear|]. eapply rtc_l; [by apply start_publish|].
    eapply rtc_l; [by apply (start_attach _ _ _ 2)|]. eapply rtc_l; [by apply (start_warmup_read _ _ _ 2)|].
    eapply rtc_l; [by apply (start_ready _ _ _ 2 warmup_bytes)|].
    eapply rtc_l; [by apply (start_attach _ _ _ 3)|]. eapply rtc_l; [by apply (start_warmup_read _ _ _ 3)|].
    eapply rtc_l; [by apply (start_ready _ _ _ 3 warmup_bytes)|]. apply rtc_refl. }
  done.
Qed.

Lemma node_2 : is_node 2. Proof. unfold is_node. lia. Qed.
Lemma node_3 : is_node 3. Proof. unfold is_node. lia. Qed.

(** With the start signal everyone gets to run, whatever the 139264 rounds of
    the warm-up loop do. *)
Lemma all_running : ∃ s, rtc (startup_step 7 true) s0 s ∧ (∀ i, is_node i → pcs s i = Running) ∧
  ∀ p, pushed s p = [] ∧ taken s p = [].
Proof.
  destruct (two_ready true) as (s1&Hr1&Hpc1&Hpc2&Hpc3&_&Hghost).
  destruct (warmup_rounds 7 true (Z.to_nat (warmup_bytes / kPage)) s1 0 Hpc1 ltac:(by vm_compute))
    as (s2&Hr2&Hpc&Hother&_&Hpu&Hta&_).
  assert (pcs s2 2 = Ready ∧ pcs s2 3 = Ready) as [H2 H3] by (by rewrite !Hother by done).
  eexists. split.
  { etransitivity; [exact Hr1|]. etransitivity; [exact Hr2|].
    eapply rtc_l; [eapply (start_ready _ _ _ 1); [apply node_1|exact Hpc|by vm_compute]|].
    assert (∀ j, is_node j → started (pcs (set_pc 1 Ready s2) j) = true) as Hst.
    { intros j Hj. cbn. destruct (decide (j = 1)) as [->|]; [by rewrite fn_lookup_insert|].
      rewrite fn_lookup_insert_ne by done. unfold is_node in Hj.
      assert (j = 2 ∨ j = 3) as [-> | ->] by lia; by rewrite ?H2, ?H3. }
    assert (∀ i s, started (pcs s i) = true → ∀ k, (∀ j, is_node j → started (pcs s j) = true) →
      ∀ j, is_node j → started (pcs (set_pc k Running s) j) = true) as Hkeep.
    { intros i s _ k Hs j Hj. cbn. destruct (decide (j = k)) as [->|]; [by rewrite fn_lookup_insert|].
      rewrite fn_lookup_insert_ne by done. by apply Hs. }
    eapply rtc_l; [by apply (start_replay _ _ _ 1); [apply node_1|cbn; by rewrite fn_lookup_insert|]|].
    eapply rtc_l; [apply (start_replay _ _ _ 2); [apply node_2|exact H2|intros _; by apply (Hkeep 1); [apply Hst|]]|].
    eapply rtc_l; [apply (start_replay _ _ _ 3); [apply node_3|exact H3|intros _]|apply rtc_refl].
    apply (Hkeep 1); [by apply (Hkeep 1); [apply Hst|..]|]. by apply (Hkeep 1); [apply Hst|]. }
  split; [|by intros p; cbn; rewrite Hpu, Hta].
  intros i Hi. unfold is_node in Hi. assert (i = 1 ∨ i = 2 ∨ i = 3) as [-> |[-> | ->]] by lia; done.
Qed.


(** The message whose first key byte is zero. *)
Definition damaged : BandleMessage := message (String Ascii.zero EmptyString).

Definition pushed_ring : SpscRing := (push_batch kBandleRingCapacity [message "k"] empty_ring).2.
Definition zeroed_ring : SpscRing :=
  set_payload 0 (memcpy_at (payload_at pushed_ring 0) 0 [zero_byte]) pushed_ring.
Definition arrived_message : BandleMessage := (pop kBandleRingCapacity zeroed_ring default_message).1.2.

(** C39: without the start signal the warm-up loop of node 1 can damage a
    message: node 2 is ready first, finds the run id and pushes a message to
    node 3; node 1, still writing a zero to each page, reaches the page of that
    message; node 3 receives it with the first byte of its key zeroed. *)
Theorem warmup_damages_message :
  ∃ s, rtc (startup_step 7 false) s0 s ∧ pushed s (2, 3) = [wire (message "k")] ∧
    taken s (2, 3) = [wire damaged] ∧ wire damaged ≠ wire (message "k").
Proof.
  destruct (two_ready false) as (s1&Hr1&Hpc1&Hpc2&Hpc3&Hrings&Hghost).
  destruct (warmup_rounds 7 false (Z.to_nat (payload_offset 2 3 0 0 / kPage)) s1 0 Hpc1 ltac:(by vm_compute))
    as (s2&Hr2&Hpc&Hother&_&Hpu&Hta&Hring).
  assert (pcs s2 2 = Ready ∧ pcs s2 3 = Ready) as [H2 H3] by (by rewrite !Hother by done).
  assert (rings s2 (2, 3) = empty_ring) as Hempty.
  { rewrite Hring; [apply Hrings|apply node_2|apply node_3|done|by vm_compute]. }
  assert (0 + kPage * Z.of_nat (Z.to_nat (payload_offset 2 3 0 0 / kPage)) = payload_offset 2 3 0 0) as Hoff
    by by vm_compute.
  rewrite Hoff in Hpc. eexists. split; [|split; [|split]].
  - etransitivity; [exact Hr1|]. etransitivity; [exact Hr2|].
    eapply rtc_l; [apply (start_replay _ _ _ 2); [apply node_2|exact H2|done]|].
    eapply rtc_l.
    { apply (start_push _ _ _ 2 3 [message "k"] pushed_ring);
        [apply node_2|apply node_3|done|cbn; by rewrite fn_lookup_insert|apply Forall_singleton; by vm_compute|done|].
      cbn [rings set_pc]. rewrite Hempty. by vm_compute. }
    eapply rtc_l; [eapply start_warmup; [cbn; rewrite fn_lookup_insert_ne by done; exact Hpc|by vm_compute]|].
    eapply rtc_l; [|apply rtc_refl].
    apply (start_take _ _ _ 2 3 default_message arrived_message (commit_tail 1 zeroed_ring)); [apply node_2|apply node_3|done| |].
    + cbn. by rewrite !fn_lookup_insert_ne, H3 by done.
    + cbn [rings set_pc].
      unfold zero_at. change (slot_of_offset (payload_offset 2 3 0 0)) with (2, 3, 0, 0). cbn iota beta.
      rewrite fn_lookup_insert, fn_lookup_insert. change (set_payload 0 _ pushed_ring) with zeroed_ring.
      by vm_compute.
  - cbn. rewrite fn_lookup_insert, Hpu. by rewrite (proj1 (Hghost (2, 3))).
  - cbn. rewrite fn_lookup_insert, Hta, (proj2 (Hghost (2, 3))). by vm_compute.
  - by vm_compute.
Qed.

End Examples.
